(* ===== verification/_CoqProject ===== *)
-Q . S2P
Prelude.v
Text.v
Errors.v
Durations.v
Types.v
Store.v
MemStore.v
Consumer.v
ClaimMany.v
Process.v
ProcessMany.v
Steps.v
SharedDb.v
Protocol.v
Interleaving.v
InterleavingRun.v
Locks.v
Testing.v
TestingSavepoints.v
Fakes.v
UnitTests.v
RunnerTests.v
Sqlx.v
Sql.v
Postgres.v
Aborted.v
Sqlite.v
MySql.v
Tracing.v
TracingLog.v
TracedBackends.v
SharedSql.v
Contention.v
Migrations.v
Kafka.v
KafkaSessions.v
SqlModel.v
Backends.v
KafkaRun.v
TracingRun.v
SharedSqlRun.v
TestSuite.v
