(* ===== verification/Prelude.v ===== *)
(** * txbox: a verified model of the transactional inbox

    txbox records every processed message of a stream in an inbox table, in the
    same database transaction as the effects of the message's handler, so that
    a redelivered message is recognised and skipped.  This library models the
    crate's code under [src/src/] and proves what makes it correct.

    ** The program and where it is modelled

    - Identifiers and requests ([types.rs]): [Types.v].  A Rust string is a list
      of code points with its UTF-8 length and byte order, [Text.v].
    - Errors ([error.rs]): [Errors.v].
    - Durations, [RetentionPolicy] ([retention.rs]) and the conversions of lock
      timeouts ([pg_lock_timeout] of [postgres.rs], [mysql_lock_timeout] of
      [mysql.rs]): [Durations.v].
    - The traits [InboxStore], [LockTimeout], [Savepoints] with their default
      methods ([store.rs]): the classes of [Store.v].  What their documentation
      promises is the classes [InboxLaws] and [SavepointLaws], stated in terms
      of what an observer sees of a store ([Observe]): the committed database,
      what an open transaction sees, and what its savepoint restores.
    - [Consumer] with [process], [claim_many] and [process_many]
      ([consumer.rs]): the module [Impl] of [Consumer.v], over any store.
      [ClaimMany.v], [Process.v] and [ProcessMany.v] hold its theorems about one
      call at a time, [Interleaving.v] and [Locks.v] those about concurrent
      calls, [Contention.v] what [InboxError::Contended] means, [Aborted.v] what
      becomes of a handler that ignores a failed statement.
    - The spans and events of [consumer.rs] and of the backends: the module
      [Traced] of [Tracing.v] is the consumer with them, [TracedBackends.v] the
      spans of the backends' methods, [TracingLog.v] the log a call leaves.
      Elsewhere the programs are written without tracing.
    - The shared SQL helpers ([sql.rs]) and the purge loop the backends share:
      [Sql.v].
    - The backends ([postgres.rs], [sqlite.rs], [mysql.rs]): [Postgres.v],
      [Sqlite.v], [MySql.v], every SQL text and method, over the effects of
      [Sqlx.v].  The tables their migrations create ([migrations/], published as
      [MIGRATION_SQL]): [Migrations.v].
    - The conformance suite for backends ([testing.rs]), [conformance] with its
      seven checks: [Testing.v], and [savepoints_conformance]:
      [TestingSavepoints.v].  The fake stores it is tested with
      ([tests/it/conformance.rs]): [Fakes.v].
    - The Kafka example ([examples/kafka_consumer.rs]): [main] with the purge task
      it spawns and its receive loop in [Kafka.v], what runs of it do in
      [KafkaSessions.v].
    - The unit tests of [types.rs], [postgres.rs] and [mysql.rs]: [UnitTests.v];
      the tests of the consumer's control flow with their recording fake
      ([tests/it/runner_semantics.rs]): [RunnerTests.v]; the tests of
      [tests/it/tracing_levels.rs]: [TracingRun.v].  [TestSuite.v] puts them
      together.

    [Consumer] calls the store; the store calls the database through sqlx.
    Accordingly the theorems about [Consumer] are proved against [InboxLaws] and
    [SavepointLaws], and each backend is shown to be an instance of them.

    ** How code is modelled

    An [async] function is a program ([prog], below) over the effects it
    awaits: a value, a panic, an awaited effect with a continuation, or a scope
    with a destructor.  [x <- p ;; q] sequences and [x <-? p ;; q] is Rust's
    [?]; [Impl.owning] runs a transaction's destructor when a future that holds
    it panics or is dropped.  A world type with an interpretation of the
    effects is a parameter; [run] evaluates a program in it, with a budget that
    says at which await, and with its effect applied or not, the future is
    dropped.  [wp p Q w] says that every end of [p] from [w] satisfies [Q],
    whatever the budget.  [exec] is the run without cancellation.  Machine
    integers are [Z] with their bounds written out.

    Code that is not the crate's is a parameter: sqlx and the databases (the
    effects [sqlxE] with the assumptions [PgEngine], [SqliteEngine],
    [MySqlEngine], [MySqlSessionEngine] and, for concurrent transactions,
    [PgShared] and [SqliteShared], each keyed by the exact SQL text),
    chrono ([Chrono], [ChronoLaws]), [make_interval] of PostgreSQL, the
    randomness of MySQL's tokens ([my_random]), what PostgreSQL does with aborted
    transactions ([PgAborts]) and with a purge beside open ones ([PurgeBeside]),
    rdkafka ([kafkaE] with [KafkaLaws]), and the application's handlers
    ([HandlerSpec], [meets]).
    [SqlModel.v] is an executable database that satisfies all assumptions at
    once and [MemStore.v] an executable store that satisfies the contract; they
    are the worlds of the witnesses, which for the backends are in [Backends.v]
    and for the Kafka example in [KafkaRun.v].

    For concurrent calls a program runs in small steps ([pstep] of [Steps.v]),
    one store call at a time, over a database whose transactions lock the rows
    they claim ([can] of [SharedDb.v]: what the documentation of
    [InboxStore::claim] and [Savepoints] asks of a backend, with every way a
    call may fail: a failed statement may leave the transaction open, abort it
    ([tx_failed]), so that only a rollback to the savepoint helps and COMMIT
    answers [Ok] but rolls back, or end it).  A handler stops with an error at its
    first failed statement ([handler_obeys]).  Other activity of the database,
    transactions it ends and purges, is [environment].  [InterleavingRun.v]
    executes schedules of it.
    What the concurrent theorem needs of the store is the class [StoreProtocol]
    of [Protocol.v]: which method call may do what to the shared database.
    [SharedDb.v]'s store is one instance; the methods of [PgInbox] and
    [SqliteInbox], statement by statement, are two others ([SharedSql.v]), and
    [SharedSqlRun.v] runs two of their consumers against each other.

    ** What is proved

    - Exactly once: [Process.v] characterises every end of [process]
      ([process_ends]), that claim and effects commit together or not at all,
      and that in any sequence of deliveries, with faults, panics and
      cancellations, no message is applied twice and none acknowledged without
      being applied.  [Interleaving.v] shows the same for any interleaving of
      concurrent calls of [process], [process_many] and [is_known_duplicate] over
      any store with [StoreProtocol], by
      a protocol each call follows on its own transaction: [obeys] of [Steps.v]
      says that a program keeps to it at every step, and is proved of the
      programs of [Impl] by the rules for their constructs.  [SharedSql.v]
      concludes it of consumers of the PostgreSQL and SQLite backends.
    - Batches: [ClaimMany.v] shows that a batch claim is one claim per message,
      sent unique and in byte order; [ProcessMany.v] that [process_many] refines
      an abstract batch run, that its results may be acknowledged one by one,
      and that it returns and leaves what one call of [process] per message does
      ([process_each]), for handlers whose result is determined by the database;
      [Locks.v] that among concurrent calls of [process] and [process_many] over
      [SharedDb.v] no transactions ever wait for each other in a circle.
    - Backends: each implements the contract; [purge] terminates and removes
      exactly the expired rows; MySQL's session lock timeout survives every
      single claim and is lost by a second claim after a cancelled one; the
      tables, with the character set and collation they declare, hold every
      identifier the code accepts and tell any two apart, and the claims fill
      them.  On PostgreSQL a handler that ignores a failed statement makes
      [process] report a message as processed of which nothing was committed.
    - Contention: over any backend with the interface [ClaimContention] a call
      reports [Contended] exactly when its claim found a row held by another
      consumer, and has then done nothing; the three backends implement it, with
      the error codes that mean it, and report it nowhere else.
    - Tracing: the log of a call tells its outcome, event by event with target and
      level; a warning means a rollback that failed.  The consumer is translated
      twice, with and without tracing, and a lemma shows that the two do the same
      to the store, also when they panic or are dropped.
    - Conformance: every healthy store that keeps the contract passes the suite,
      on a database in use and again under another nonce, and with savepoints
      the savepoint check; the suite rejects the two broken fakes.  The tests of
      the crate that need no database hold of the model.
    - Kafka: over any sequence of sessions that fail or crash anywhere, with the
      purge task running beside the loop, every message is applied once and no
      committed offset skips one; the loop makes progress on healthy services.
      Both assume that PostgreSQL can store the topic's keys ([log_storable]) and
      that no message is claimed after the task purged its row ([ew_late]), which
      the example asks for by a window longer than the topic's retention.  A key
      with U+0000 stalls the loop; the purge task keeps a week.
    - Values: identifier validation, injectivity of scoped ids, rounding and
      bounds of lock timeouts, the invariant of the retention policy.

    ** Bounds and fuel

    The only fuel is the number of statements of a purge, which the code bounds
    by nothing; the purge theorems show that more than (rows / batch size)
    statements are enough and that then the loop ends.  The number of rows a purge
    adds up is a [Z] where the code has a u64, which 2^64 deleted rows would
    overflow.  The endless loops of the Kafka example, its receive loop and its
    purge task, are unrolled to any number of turns and ticks, over which the
    theorems quantify, as they do over how the two interleave.  The parser of [Migrations.v] recurses on the number of words left,
    which every step lowers.  Identifiers are assumed to contain no U+0000
    ([storable]), which PostgreSQL refuses; lock timeouts to fit PostgreSQL's
    31-bit milliseconds ([lock_timeout_ok]); retention windows to be at most a
    thousand years ([retention_limit]).

    ** What is not modelled

    How the databases run the DDL (that a key has one row is assumed of each
    engine; [Migrations.v] reads the tables with their options, not the indexes);
    pool construction and the log lines of the Kafka example; the crate root
    ([lib.rs], re-exports); the tests against live databases.  The sessions of the
    Kafka example are one instance at a time; what several instances do to the
    database at once is covered as far as the theorems on concurrent calls go.

    In the theorems on concurrent calls the database locks claimed rows the way
    the documentation asks for, whatever the isolation level of the engine; a
    batch INSERT of a backend takes effect at one moment, once no row it needs is
    locked (in [Locks.v] a batch is claimed row by row);
    time does not pass (a lock wait ends by the lock being freed or by an
    error); and a purge removes no row of a message some call still delivers,
    which is what a retention window is chosen for.  They do not cover
    [MySqlInbox], whose batch claim is two statements, an INSERT with a token
    and a SELECT by it, between which other calls may run: its batches are
    covered by [MySql.v] one call at a time, and by the concurrent theorem only
    as far as they keep the documentation of [InboxStore::claim_many]. *)

From stdpp Require Export base gmap list strings sorting pretty.
From Stdlib Require Export ZArith Lia.

(** ** Results and programs *)

Declare Scope txbox_scope.
Delimit Scope txbox_scope with txbox.
Open Scope txbox_scope.

(** Rust's [Result]. *)
Inductive result (A Err : Type) : Type :=
| Ok (a : A)
| Error (e : Err).
Arguments Ok {_ _} _.
Arguments Error {_ _} _.

#[export] Instance result_eq_dec {A Err} `{EqDecision A, EqDecision Err} :
  EqDecision (result A Err).
Proof. solve_decision. Defined.

Definition is_ok {A Err} (r : result A Err) : bool :=
  match r with Ok _ => true | Error _ => false end.

Definition map_err {A E1 E2} (f : E1 -> E2) (r : result A E1) : result A E2 :=
  match r with Ok a => Ok a | Error e => Error (f e) end.

(** How the evaluation of a future ends: with a value, by a panic that
    unwinds, or because the future was dropped at an await point. *)
Inductive outcome (R : Type) : Type :=
| Done (r : R)
| Panicked (msg : string)
| Cancelled.
Arguments Done {_} _.
Arguments Panicked {_} _.
Arguments Cancelled {_}.

(** An [async] block over the effects [E] it awaits.  [Vis] is one awaited
    effect.  [Scope cleanup body k] runs [body] while some local value is
    live whose destructor is [cleanup]: a panic or a cancellation inside
    [body] runs [cleanup] on its way out; normal completion does not (the
    code that follows either moves the value or drops it explicitly). *)
Inductive prog (E : Type -> Type) (R : Type) : Type :=
| Ret (r : R)
| Panic (msg : string)
| Vis {A : Type} (e : E A) (k : A -> prog E R)
| Scope {A : Type} (cleanup : prog E unit) (body : prog E A) (k : A -> prog E R).
Arguments Ret {_ _} _.
Arguments Panic {_ _} _.
Arguments Vis {_ _ _} _ _.
Arguments Scope {_ _ _} _ _ _.

Fixpoint bind {E A B} (p : prog E A) (f : A -> prog E B) {struct p} : prog E B :=
  match p with
  | Ret a => f a
  | Panic m => Panic m
  | Vis e k => Vis e (fun a => bind (k a) f)
  | Scope c body k => Scope c body (fun a => bind (k a) f)
  end.

Definition trigger {E A} (e : E A) : prog E A := Vis e Ret.

Definition scoped_with {E A} (cleanup : prog E unit) (p : prog E A) : prog E A :=
  Scope cleanup p Ret.

(** [x <- p ;; q] sequences; [x <-? p ;; q] is Rust's [let x = p.await?;]
    where nothing with a destructor is live. *)
Notation "x <- p ;; q" := (bind p (fun x => q))
  (at level 100, p at next level, right associativity) : txbox_scope.

Definition bind_try {E A B Err} (p : prog E (result A Err))
    (f : A -> prog E (result B Err)) : prog E (result B Err) :=
  bind p (fun r => match r with Ok a => f a | Error e => Ret (Error e) end).

Notation "x <-? p ;; q" := (bind_try p (fun x => q))
  (at level 100, p at next level, right associativity) : txbox_scope.

(** ** Running programs *)

Definition budget : Type := option (nat * bool).

Definition spend (b : budget) : budget := prod_map pred (fun applied => applied) <$> b.

Section Run.
Context {E : Type -> Type} {W : Type}.
Variable ev : forall A, E A -> W -> A * W.

(** [run b p w]: evaluate [p] in world [w].  The budget [b] says when the future
    is dropped: [None] never; [Some (n, applied)] while it awaits the effect
    after the first [n], which took place ([applied]) or not.  Destructors are
    not await points, so cleanups run without a budget. *)
Fixpoint run {R} (b : budget) (p : prog E R) (w : W) {struct p}
  : outcome R * budget * W :=
  match p with
  | Ret r => (Done r, b, w)
  | Panic m => (Panicked m, b, w)
  | Vis e k =>
      match b with
      | Some (O, applied) => (Cancelled, b, if applied then snd (ev _ e w) else w)
      | _ => let '(a, w') := ev _ e w in run (spend b) (k a) w'
      end
  | Scope cleanup body k =>
      match run b body w with
      | (Done a, b', w') => run b' (k a) w'
      | (Panicked m, b', w') =>
          let '(_, _, w'') := run None cleanup w' in (Panicked m, b', w'')
      | (Cancelled, b', w') =>
          let '(_, _, w'') := run None cleanup w' in (Cancelled, b', w'')
      end
  end.

(** The whole evaluation, with no cancellation. *)
Definition exec {R} (p : prog E R) (w : W) : outcome R * W :=
  let '(o, _, w') := run None p w in (o, w').

(** Every way [p] can end from [w], cancellation at any await included,
    satisfies [Q]. *)
Definition wp {R} (p : prog E R) (Q : outcome R -> W -> Prop) (w : W) : Prop :=
  forall b, let '(o, _, w') := run b p w in Q o w'.

(** Lifts a postcondition on normal completion over the two abrupt ends. *)
Definition on_done {A B} (f : A -> W -> Prop) (Q : outcome B -> W -> Prop)
    (o : outcome A) (w : W) : Prop :=
  match o with
  | Done a => f a w
  | Panicked m => Q (Panicked m) w
  | Cancelled => Q Cancelled w
  end.

Lemma run_bind {A B} (p : prog E A) (f : A -> prog E B) b w :
  run b (bind p f) w =
  match run b p w with
  | (Done a, b', w') => run b' (f a) w'
  | (Panicked m, b', w') => (Panicked m, b', w')
  | (Cancelled, b', w') => (Cancelled, b', w')
  end.
Proof.
  revert B f b w.
  induction p as [R r|R m|R A e k IH|R A c _ body _ k IH]; intros B f b w; simpl.
  - done.
  - done.
  - destruct b as [[[|n] applied]|]; [done| |]; destruct (ev A e w) as [a w']; apply IH.
  - destruct (run b body w) as [[[a|m|] b'] w']; [apply IH| |];
      by destruct (run None c w') as [[o b''] w''].
Qed.

Lemma run_None_budget {R} (p : prog E R) w o b' w' :
  run None p w = (o, b', w') -> b' = None /\ o <> Cancelled.
Proof.
  revert w o b' w'.
  induction p as [R r|R m|R A e k IH|R A c _ body IHb k IH]; intros w o b' w'; simpl.
  - intros [= <- <- <-]; done.
  - intros [= <- <- <-]; done.
  - destruct (ev A e w) as [a w1]; apply IH.
  - destruct (run None body w) as [[o1 b1] w1] eqn:Hb.
    destruct (IHb _ _ _ _ Hb) as [-> Hne].
    destruct o1 as [a|m|]; [apply IH| |done].
    destruct (run None c w1) as [[o2 b2] w2]; intros [= <- <- <-]; done.
Qed.

Lemma wp_exec {R} (p : prog E R) Q w o w' :
  wp p Q w -> exec p w = (o, w') -> Q o w' /\ o <> Cancelled.
Proof.
  unfold wp, exec; intros H Hr; specialize (H None).
  destruct (run None p w) as [[o1 b1] w1] eqn:Hb; simplify_eq.
  split; [done|]. by apply run_None_budget in Hb as [_ ?].
Qed.

Lemma wp_mono {R} (p : prog E R) (Q Q' : outcome R -> W -> Prop) w :
  wp p Q w -> (forall o w', Q o w' -> Q' o w') -> wp p Q' w.
Proof.
  intros H HQ b; specialize (H b); destruct (run b p w) as [[o b'] w']; auto.
Qed.

Lemma wp_conj {R} (p : prog E R) (Q Q' : outcome R -> W -> Prop) w :
  wp p Q w -> wp p Q' w -> wp p (fun o w' => Q o w' /\ Q' o w') w.
Proof.
  intros H H' b; specialize (H b); specialize (H' b).
  destruct (run b p w) as [[o b'] w']; auto.
Qed.

Lemma wp_ret {R} (r : R) (Q : outcome R -> W -> Prop) w :
  Q (Done r) w -> wp (Ret r) Q w.
Proof. intros H b; exact H. Qed.

Lemma wp_panic {R} m (Q : outcome R -> W -> Prop) w :
  Q (Panicked m) w -> wp (Panic m) Q w.
Proof. intros H b; exact H. Qed.

Lemma wp_vis {A R} (e : E A) (k : A -> prog E R) (Q : outcome R -> W -> Prop) w :
  Q Cancelled w ->
  (forall a w', ev A e w = (a, w') -> Q Cancelled w' /\ wp (k a) Q w') ->
  wp (Vis e k) Q w.
Proof.
  intros Hc H b; simpl; destruct b as [[[|n] []]|]; try done;
    destruct (ev A e w) as [a w'] eqn:He; by apply (H a w' eq_refl).
Qed.

Lemma wp_trigger {A} (e : E A) (Q : outcome A -> W -> Prop) w :
  Q Cancelled w ->
  (forall a w', ev A e w = (a, w') -> Q Cancelled w' /\ Q (Done a) w') ->
  wp (trigger e) Q w.
Proof.
  intros Hc H. apply wp_vis; [done|]. intros a w' He.
  split; [|apply wp_ret]; by apply (H a).
Qed.

Lemma wp_bind {A B} (p : prog E A) (f : A -> prog E B) (Q : outcome B -> W -> Prop) w :
  wp p (on_done (fun a => wp (f a) Q) Q) w -> wp (bind p f) Q w.
Proof.
  intros H b; specialize (H b). rewrite run_bind.
  destruct (run b p w) as [[[a|m|] b'] w']; [apply H|exact H|exact H].
Qed.

Lemma wp_bind_try {A B Err} (p : prog E (result A Err))
    (f : A -> prog E (result B Err)) (Q : outcome (result B Err) -> W -> Prop) w :
  wp p (on_done (fun r w' => match r with
                             | Ok a => wp (f a) Q w'
                             | Error e => Q (Done (Error e)) w'
                             end) Q) w ->
  wp (bind_try p f) Q w.
Proof.
  intros H. apply wp_bind. eapply wp_mono; [exact H|].
  intros [[a|e]|m|] w'; simpl; auto using wp_ret.
Qed.

(** A scope whose cleanup keeps the interrupted postcondition is transparent
    to [wp]. *)
Lemma wp_scope {A R} (c : prog E unit) (body : prog E A) (k : A -> prog E R)
    (Q : outcome R -> W -> Prop) w :
  wp body (fun o w' => match o with
                       | Done a => wp (k a) Q w'
                       | Panicked m => wp c (fun _ => Q (Panicked m)) w'
                       | Cancelled => wp c (fun _ => Q Cancelled) w'
                       end) w ->
  wp (Scope c body k) Q w.
Proof.
  intros H b; simpl; specialize (H b).
  destruct (run b body w) as [[[a|m|] b'] w']; [apply H| |];
    specialize (H None); by destruct (run None c w') as [[o b''] w''].
Qed.

Lemma wp_scoped_with {A} (c : prog E unit) (p : prog E A)
    (Q : outcome A -> W -> Prop) w :
  wp p (fun o w' => match o with
                    | Done a => Q (Done a) w'
                    | Panicked m => wp c (fun _ => Q (Panicked m)) w'
                    | Cancelled => wp c (fun _ => Q Cancelled) w'
                    end) w ->
  wp (scoped_with c p) Q w.
Proof.
  intros H. apply wp_scope. eapply wp_mono; [exact H|].
  intros [a|m|] w'; auto using wp_ret.
Qed.
(** What an uncancelled run that returns did, step by step. *)
Lemma exec_bind {A B} (p : prog E A) (f : A -> prog E B) w r w' :
  exec (bind p f) w = (Done r, w') <->
  exists a w1, exec p w = (Done a, w1) /\ exec (f a) w1 = (Done r, w').
Proof.
  unfold exec. rewrite run_bind.
  destruct (run None p w) as [[o b1] w1] eqn:Hp.
  destruct (run_None_budget _ _ _ _ _ Hp) as [-> _]. destruct o as [a|m|].
  - split; [intros H; by exists a, w1|]. by intros (a' & w1' & [= <- <-] & ?).
  - split; [done|]. by intros (a' & w1' & ? & _).
  - split; [done|]. by intros (a' & w1' & ? & _).
Qed.

Lemma exec_bind_try {A B Err} (p : prog E (result A Err)) (f : A -> prog E (result B Err)) w e w' :
  exec (bind_try p f) w = (Done (Error e), w') <->
  exec p w = (Done (Error e), w') \/
  exists a w1, exec p w = (Done (Ok a), w1) /\ exec (f a) w1 = (Done (Error e), w').
Proof.
  unfold bind_try. rewrite exec_bind. split.
  - intros ([a|e'] & w1 & Hp & Hf); [right; eauto|left]. unfold exec in Hf. simpl in Hf. by simplify_eq.
  - intros [Hp|(a & w1 & Hp & Hf)]; [by exists (Error e), w'|by exists (Ok a), w1].
Qed.

Lemma exec_ret {R} (r r' : R) w w' : exec (Ret r) w = (Done r', w') <-> r = r' /\ w = w'.
Proof. unfold exec. simpl. naive_solver. Qed.

Lemma exec_trigger {A} (e : E A) w a w' : exec (trigger e) w = (Done a, w') <-> ev A e w = (a, w').
Proof. unfold exec. simpl. destruct (ev A e w) as [a1 w1]. naive_solver. Qed.

Lemma exec_scoped {A} (c : prog E unit) (p : prog E A) w a w' :
  exec (scoped_with c p) w = (Done a, w') <-> exec p w = (Done a, w').
Proof.
  unfold exec, scoped_with. simpl. destruct (run None p w) as [[[r|m|] b1] w1]; [done| |];
    destruct (run None c w1) as [[o b2] w2]; naive_solver.
Qed.
End Run.

(** ** Programs over more effects *)

(** The program [p] with its effects renamed by [f]. *)
Fixpoint lift {E F : Type -> Type} (f : forall A, E A -> F A) {R} (p : prog E R) : prog F R :=
  match p with
  | Ret r => Ret r
  | Panic m => Panic m
  | Vis e k => Vis (f _ e) (fun a => lift f (k a))
  | Scope c body k => Scope (lift f c) (lift f body) (fun a => lift f (k a))
  end.

Section Lift.
Context {E F : Type -> Type} {W V : Type}.
Context (ev : forall A, E A -> W -> A * W) (fv : forall A, F A -> W * V -> A * (W * V)).
Context (f : forall A, E A -> F A).
Hypothesis Hf : forall A (e : E A) w v,
  fv A (f A e) (w, v) = let '(a, w') := ev A e w in (a, (w', v)).

(** In a larger world, a lifted program acts on its own part only. *)
Lemma run_lift {R} (p : prog E R) b w v :
  run fv b (lift f p) (w, v) = let '(o, b', w') := run ev b p w in (o, b', (w', v)).
Proof.
  revert b w.
  induction p as [R r|R m|R A e k IH|R A c IHc body IHb k IH]; intros b w; simpl; [done|done| |].
  - rewrite Hf. destruct (ev A e w) as [a w'].
    destruct b as [[[|n] []]|]; [done|done|apply IH..].
  - rewrite IHb. destruct (run ev b body w) as [[[a|m|] b'] w']; [apply IH| |];
      rewrite IHc; by destruct (run ev None c w') as [[o b''] w''].
Qed.

Lemma wp_lift {R} (p : prog E R) (Q : outcome R -> W * V -> Prop) w v :
  wp ev p (fun o w' => Q o (w', v)) w -> wp fv (lift f p) Q (w, v).
Proof.
  intros H b. specialize (H b). rewrite run_lift. by destruct (run ev b p w) as [[o b'] w'].
Qed.
End Lift.

Section Rename.
Context {E F : Type -> Type} {W : Type}.
Context (ev : forall A, E A -> W -> A * W) (fv : forall A, F A -> W -> A * W).
Context (f : forall A, E A -> F A).
Hypothesis Hf : forall A (e : E A) w, fv A (f A e) w = ev A e w.

(** In the same world, a lifted program does what it did. *)
Lemma run_rename {R} (p : prog E R) b w : run fv b (lift f p) w = run ev b p w.
Proof.
  revert b w.
  induction p as [R r|R m|R A e k IH|R A c IHc body IHb k IH]; intros b w; simpl; [done|done| |].
  - rewrite Hf. destruct (ev A e w) as [a w'].
    destruct b as [[[|n] []]|]; [done|done|apply IH..].
  - rewrite IHb. destruct (run ev b body w) as [[[a|m|] b'] w']; [apply IH| |]; by rewrite IHc.
Qed.

Lemma wp_rename {R} (p : prog E R) (Q : outcome R -> W -> Prop) w :
  wp ev p Q w -> wp fv (lift f p) Q w.
Proof. intros H b. rewrite run_rename. exact (H b). Qed.
End Rename.

(** What every effect keeps, every program keeps. *)
Lemma wp_invariant {E : Type -> Type} {W R : Type} (ev : forall A, E A -> W -> A * W)
    (I : W -> Prop) (p : prog E R) :
  (forall A (e : E A) w a w', I w -> ev A e w = (a, w') -> I w') ->
  forall w, I w -> wp ev p (fun _ w' => I w') w.
Proof.
  intros HI. induction p as [R r|R m|R A e k IH|R A c IHc body IHb k IH]; intros w Hw.
  - by apply wp_ret.
  - by apply wp_panic.
  - apply wp_vis; [done|]. intros a w' He. split; eauto.
  - apply wp_scope. eapply wp_mono; [by apply IHb|]. intros [a|m|] w' Hw'; auto.
Qed.

Arguments on_done {_ _ _} _ _ _ _ /.
Arguments bind {_ _ _} _ _ : simpl never.
Arguments bind_try {_ _ _ _} _ _ : simpl never.
Arguments scoped_with {_ _} _ _ : simpl never.
Arguments lift {_ _} _ {_} _ : simpl never.

Create HintDb txbox.
#[export] Hint Resolve wp_ret wp_panic : txbox.

(** ** Lists *)

Lemma Forall2_snoc {A B} (P : A -> B -> Prop) (l : list A) (k : list B) (x : A) (y : B) :
  Forall2 P l k -> P x y -> Forall2 P (l ++ [x]) (k ++ [y]).
Proof. intros Hl Hx. apply Forall2_app; [done|]. by constructor. Qed.
