(* ===== verification/Text.v ===== *)
(** * Strings

    Rust's [String] and [str] as the crate uses them: a string is its list of
    [char]s (Unicode scalar values), [utf8] is its byte representation,
    [len] counts bytes, [trim] removes Unicode white space, and [str_cmp] is
    [str]'s ordering, which compares bytes.  The file shows that the byte order
    and the code-point order coincide and that the encoding is injective, so
    that two identifiers are equal exactly when their bytes are. *)

From S2P Require Import Prelude.
#[local] Open Scope Z_scope.

Abbreviation str := (list Z).

(** The UTF-8 encoding of one scalar value.  A number that is no scalar value
    is no Rust [char]; it encodes as itself, which no [char] does, so that the
    lemmas below need no validity hypothesis. *)
Definition utf8_char (c : Z) : list Z :=
  if c <? 0x80 then [c]
  else if c <? 0x800 then [0xC0 + c / 64; 0x80 + c mod 64]
  else if c <? 0x10000 then
    [0xE0 + c / 4096; 0x80 + (c / 64) mod 64; 0x80 + c mod 64]
  else if c <? 0x110000 then
    [0xF0 + c / 262144; 0x80 + (c / 4096) mod 64; 0x80 + (c / 64) mod 64;
     0x80 + c mod 64]
  else [c].

Fixpoint utf8 (s : str) : list Z :=
  match s with
  | [] => []
  | c :: s => utf8_char c ++ utf8 s
  end.

(** [str::len]: the number of bytes. *)
Definition len (s : str) : Z := Z.of_nat (length (utf8 s)).

(** [char::is_whitespace]: the Unicode property White_Space. *)
Definition is_whitespace (c : Z) : bool :=
  ((9 <=? c) && (c <=? 13)) || (c =? 0x20) || (c =? 0x85) || (c =? 0xA0)
  || (c =? 0x1680) || ((0x2000 <=? c) && (c <=? 0x200A)) || (c =? 0x2028)
  || (c =? 0x2029) || (c =? 0x202F) || (c =? 0x205F) || (c =? 0x3000).

Fixpoint trim_start (s : str) : str :=
  match s with
  | [] => []
  | c :: r => if is_whitespace c then trim_start r else s
  end.

Definition trim_end (s : str) : str := reverse (trim_start (reverse s)).

Definition trim (s : str) : str := trim_end (trim_start s).

(** [str::contains] on one [char]. *)
Definition contains (c : Z) (s : str) : bool := existsb (Z.eqb c) s.

(** Lexicographic comparison. *)
Fixpoint lex_cmp (a b : list Z) : comparison :=
  match a, b with
  | [], [] => Eq
  | [], _ :: _ => Lt
  | _ :: _, [] => Gt
  | x :: a, y :: b =>
      match x ?= y with Eq => lex_cmp a b | c => c end
  end.

(** [Ord] for [str]: bytes, left to right. *)
Definition str_cmp (a b : str) : comparison := lex_cmp (utf8 a) (utf8 b).

Definition str_le (a b : str) : Prop := str_cmp a b <> Gt.
Definition str_lt (a b : str) : Prop := str_cmp a b = Lt.

#[export] Instance str_le_dec a b : Decision (str_le a b).
Proof. unfold str_le. apply _. Defined.
#[export] Instance str_lt_dec a b : Decision (str_lt a b).
Proof. unfold str_lt. apply _. Defined.

(** A literal: the [char]s of an ASCII string. *)
Fixpoint lit (s : string) : str :=
  match s with
  | EmptyString => []
  | String a s => Z.of_N (Ascii.N_of_ascii a) :: lit s
  end.

(** [format!("{z}")] of an integer. *)
Definition fmt_Z (z : Z) : str := lit (pretty z).

(** ** The encoding preserves and reflects the order *)

Lemma lex_cmp_refl a : lex_cmp a a = Eq.
Proof. induction a as [|x a IH]; simpl; [done|]. by rewrite Z.compare_refl. Qed.

Lemma lex_cmp_eq a b : lex_cmp a b = Eq <-> a = b.
Proof.
  split; [|intros ->; apply lex_cmp_refl].
  revert b; induction a as [|x a IH]; intros [|y b]; simpl; try done.
  destruct (x ?= y) eqn:Hxy; try done.
  apply Z.compare_eq in Hxy as ->. intros H. f_equal. auto.
Qed.

Lemma lex_cmp_antisym a b : lex_cmp b a = CompOpp (lex_cmp a b).
Proof.
  revert b; induction a as [|x a IH]; intros [|y b]; simpl; try done.
  rewrite (Z.compare_antisym x y). destruct (x ?= y); simpl; auto.
Qed.

Lemma lex_cmp_lt_trans a b c : lex_cmp a b = Lt -> lex_cmp b c = Lt -> lex_cmp a c = Lt.
Proof.
  revert b c; induction a as [|x a IH]; intros [|y b] [|z c]; simpl; try done.
  destruct (x ?= y) eqn:H1; destruct (y ?= z) eqn:H2; try done;
    rewrite ?Z.compare_eq_iff, ?Z.compare_lt_iff in *; subst; intros Ha Hb.
  - rewrite Z.compare_refl. eauto.
  - apply Z.compare_lt_iff in H2 as ->. done.
  - apply Z.compare_lt_iff in H1 as ->. done.
  - replace (x ?= z) with Lt; [done|]. symmetry. apply Z.compare_lt_iff. lia.
Qed.

Lemma lex_cmp_app p a b : lex_cmp (p ++ a) (p ++ b) = lex_cmp a b.
Proof. induction p as [|x p IH]; simpl; [done|]. by rewrite Z.compare_refl. Qed.

Lemma utf8_char_nonempty c : utf8_char c <> [].
Proof. unfold utf8_char. by repeat case_match. Qed.

(** Bytes of a smaller [char] come first, whatever follows. *)
Lemma utf8_char_lt c d p q :
  c < d -> lex_cmp (utf8_char c ++ p) (utf8_char d ++ q) = Lt.
Proof.
  intros Hcd. unfold utf8_char.
  destruct (Z.ltb_spec c 0x80), (Z.ltb_spec c 0x800), (Z.ltb_spec c 0x10000),
    (Z.ltb_spec c 0x110000); try lia;
  destruct (Z.ltb_spec d 0x80), (Z.ltb_spec d 0x800), (Z.ltb_spec d 0x10000),
    (Z.ltb_spec d 0x110000); try lia; simpl;
  repeat match goal with
  | |- context [?x ?= ?y] => destruct (Z.compare_spec x y); simpl
  end; try done; exfalso;
  Z.to_euclidean_division_equations; lia.
Qed.

Lemma utf8_cmp a b : lex_cmp (utf8 a) (utf8 b) = lex_cmp a b.
Proof.
  revert b; induction a as [|x a IH]; intros [|y b]; simpl.
  - done.
  - destruct (utf8_char y) eqn:H; [by apply utf8_char_nonempty in H|done].
  - destruct (utf8_char x) eqn:H; [by apply utf8_char_nonempty in H|done].
  - destruct (Z.compare_spec x y) as [->|H|H].
    + by rewrite lex_cmp_app.
    + by apply utf8_char_lt.
    + rewrite lex_cmp_antisym, utf8_char_lt by done. done.
Qed.

Lemma utf8_app a b : utf8 (a ++ b) = utf8 a ++ utf8 b.
Proof. induction a as [|c a IH]; simpl; [done|]. by rewrite IH, app_assoc. Qed.

Lemma utf8_inj a b : utf8 a = utf8 b -> a = b.
Proof. intros H. apply lex_cmp_eq. rewrite <- utf8_cmp, H. apply lex_cmp_refl. Qed.

#[export] Instance utf8_Inj : Inj (=) (=) utf8.
Proof. exact utf8_inj. Qed.

Lemma len_app a b : len (a ++ b) = len a + len b.
Proof. unfold len. rewrite utf8_app, length_app. lia. Qed.

Lemma len_nonneg s : 0 <= len s.
Proof. unfold len. lia. Qed.

(** ** The order is a decidable total order *)

Lemma str_cmp_eq a b : str_cmp a b = Eq <-> a = b.
Proof. unfold str_cmp. rewrite utf8_cmp. apply lex_cmp_eq. Qed.

Lemma str_le_lt_or_eq a b : str_le a b <-> str_lt a b \/ a = b.
Proof.
  unfold str_le, str_lt. rewrite <- str_cmp_eq.
  destruct (str_cmp a b); intuition congruence.
Qed.

#[export] Instance str_lt_trans : Transitive str_lt.
Proof. intros a b c. apply lex_cmp_lt_trans. Qed.

#[export] Instance str_lt_irrefl : Irreflexive str_lt.
Proof. intros a. unfold complement, str_lt, str_cmp. by rewrite lex_cmp_refl. Qed.

#[export] Instance str_le_trans : Transitive str_le.
Proof.
  intros a b c. rewrite !str_le_lt_or_eq.
  intros [H| ->]; [|done]. intros [H'| <-]; [|by left]. left. by trans b.
Qed.

#[export] Instance str_le_total : Total str_le.
Proof.
  intros a b. unfold str_le, str_cmp. rewrite (lex_cmp_antisym (utf8 a) (utf8 b)).
  destruct (lex_cmp (utf8 a) (utf8 b)); simpl; [by left|by left|by right].
Qed.

#[export] Instance str_le_antisymm : AntiSymm (=) str_le.
Proof.
  intros a b. rewrite !str_le_lt_or_eq. intros [H| ->]; [|done].
  intros [H'|?]; [|done]. exfalso. apply (str_lt_irrefl a). by trans b.
Qed.

(** ** Trimming *)

Definition blank (s : str) : Prop := Forall (fun c => is_whitespace c = true) s.

(** First and last [char] are not white space. *)
Definition tight (s : str) : Prop :=
  (forall c, head s = Some c -> is_whitespace c = false) /\
  (forall c, last s = Some c -> is_whitespace c = false).

Lemma blank_nil : blank [].
Proof. constructor. Qed.
#[local] Hint Resolve blank_nil : core.

Lemma trim_start_split s : exists p, s = p ++ trim_start s /\ blank p.
Proof.
  induction s as [|c s (p & Hs & Hp)]; simpl; [exists []; auto|].
  destruct (is_whitespace c) eqn:Hc.
  - exists (c :: p). split; [by simpl; rewrite <- Hs|by constructor].
  - exists []. auto.
Qed.

Lemma trim_start_head s c : head (trim_start s) = Some c -> is_whitespace c = false.
Proof.
  induction s as [|x s IH]; simpl; [done|].
  destruct (is_whitespace x) eqn:Hx; [done|]. simpl. congruence.
Qed.

Lemma trim_start_id s :
  (forall c, head s = Some c -> is_whitespace c = false) -> trim_start s = s.
Proof. destruct s as [|c s]; simpl; [done|]. intros H. by rewrite (H c). Qed.

Lemma trim_start_blank s : trim_start s = [] <-> blank s.
Proof.
  unfold blank. induction s as [|c s IH]; simpl; [by split|].
  rewrite Forall_cons. destruct (is_whitespace c); intuition congruence.
Qed.

Lemma trim_end_split s : exists q, s = trim_end s ++ q /\ blank q.
Proof.
  destruct (trim_start_split (reverse s)) as (p & Hs & Hp).
  exists (reverse p). unfold trim_end. rewrite <- reverse_app, <- Hs, reverse_involutive.
  split; [done|]. unfold blank. by rewrite Forall_reverse.
Qed.

Lemma trim_split s : exists p q, s = p ++ trim s ++ q /\ blank p /\ blank q.
Proof.
  destruct (trim_start_split s) as (p & Hs & Hp).
  destruct (trim_end_split (trim_start s)) as (q & Hs' & Hq).
  exists p, q. unfold trim. by rewrite <- Hs'.
Qed.

Lemma trim_blank s : trim s = [] <-> blank s.
Proof.
  unfold trim, trim_end. split.
  - intros H. apply (f_equal reverse) in H. rewrite reverse_involutive in H.
    apply trim_start_blank in H. unfold blank in H. rewrite Forall_reverse in H.
    destruct (trim_start_split s) as (p & -> & Hp). by apply Forall_app.
  - intros H. by apply trim_start_blank in H as ->.
Qed.

Lemma trim_tight_id s : tight s -> trim s = s.
Proof.
  intros [Hh Hl]. unfold trim, trim_end.
  rewrite (trim_start_id s Hh), trim_start_id, reverse_involutive; [done|].
  intros c. rewrite head_reverse. auto.
Qed.

Lemma trim_end_last s c : last (trim_end s) = Some c -> is_whitespace c = false.
Proof. unfold trim_end. rewrite last_reverse. apply trim_start_head. Qed.

Lemma trim_tight s : trim s = s -> tight s.
Proof.
  intros H. split; intros c Hc; [|rewrite <- H in Hc; by eapply trim_end_last].
  destruct (trim_start_split s) as (p & Hs & Hp).
  destruct (trim_end_split (trim_start s)) as (q & Hs' & _).
  assert (length (trim s) = length s) as Hlen by by rewrite H.
  unfold trim in Hlen. assert (p = []) as ->.
  { apply length_zero_iff_nil. apply (f_equal length) in Hs, Hs'.
    rewrite length_app in Hs, Hs'. lia. }
  rewrite Hs in Hc. by eapply trim_start_head.
Qed.

(** What the length test of the identifiers decides. *)
Lemma trim_len_id s : len (trim s) = len s <-> tight s.
Proof.
  split; [|by intros ->%trim_tight_id].
  intros H. apply trim_tight. destruct (trim_split s) as (p & q & Hs & _).
  pose proof (f_equal len Hs) as Hl. rewrite !len_app in Hl.
  assert (forall x, len x = 0 -> x = []) as Hnil.
  { intros [|c x]; [done|]. unfold len; simpl. rewrite length_app.
    destruct (utf8_char c) eqn:Hc; [by apply utf8_char_nonempty in Hc|]. simpl. lia. }
  pose proof (len_nonneg p); pose proof (len_nonneg q).
  rewrite (Hnil p), (Hnil q), app_nil_r in Hs by lia. by symmetry.
Qed.

Lemma tight_app a b c :
  a <> [] -> b <> [] -> tight a -> tight b -> tight (a ++ c ++ b).
Proof.
  intros Ha Hb [Hh _] [_ Hl]. split; intros x.
  - destruct a; [done|]. exact (Hh x).
  - destruct b as [|y b] using rev_ind; [done|].
    rewrite !app_assoc, last_snoc. rewrite last_snoc in Hl. apply Hl.
Qed.

Lemma contains_spec c s : contains c s = true <-> c ∈ s.
Proof.
  unfold contains. rewrite existsb_exists, list_elem_of_In.
  split; [intros (x & Hx & ->%Z.eqb_eq); done|]. intros H; exists c. by rewrite Z.eqb_refl.
Qed.

Lemma contains_false c s : contains c s = false <-> c ∉ s.
Proof. rewrite <- contains_spec. by destruct (contains c s). Qed.

(** A separator absent from the left parts determines the split. *)
Lemma app_sep_inj (c : Z) (a a' b b' : str) :
  c ∉ a -> c ∉ a' -> a ++ c :: b = a' ++ c :: b' -> a = a' /\ b = b'.
Proof.
  revert a'; induction a as [|x a IH]; intros [|y a']; simpl; intros Ha Ha' H;
    simplify_eq; rewrite ?not_elem_of_cons in *; try tauto.
  destruct (IH a') as [-> ->]; tauto.
Qed.
