(* ===== verification/Errors.v ===== *)
(** * Errors

    [src/src/error.rs]: the identifier errors, the inbox errors, their
    conversions and their [Display] texts.  A boxed [dyn Error] is one of the
    error values the crate or a handler boxes: a string, an [InboxError]
    (a handler using [?] on a store call), a database driver error, or an
    opaque error of other code. *)

From S2P Require Import Prelude Text.
#[local] Open Scope Z_scope.

(** ** Data *)

Inductive InvalidId : Type :=
| Empty
| TooLong (too_long_len : Z) (too_long_max : Z)
| ScopeContainsSeparator
| SurroundingWhitespace.

#[export] Instance InvalidId_eq_dec : EqDecision InvalidId.
Proof. solve_decision. Defined.

(** A [sqlx::Error]: the database's own report, with its code and, for MySQL's
    error type, its number; or any other driver failure. *)
Record DatabaseError := {
  db_code : option str;
  mysql_number : option Z;
}.

#[export] Instance DatabaseError_eq_dec : EqDecision DatabaseError.
Proof. solve_decision. Defined.

Inductive SqlxError : Type :=
| Database (db : DatabaseError)
| OtherSqlx (tag : Z).

#[export] Instance SqlxError_eq_dec : EqDecision SqlxError.
Proof. solve_decision. Defined.

Inductive DynError : Type :=
| EString (msg : str)
| EInbox (e : InboxError)
| ESqlx (e : SqlxError)
| EOpaque (tag : Z)
with InboxError : Type :=
| Backend (source : DynError)
| Handler (source : DynError)
| Contended
| InvalidIdentifier (source : InvalidId).

Abbreviation HandlerError := DynError.

(** ** Conversions *)

(** [impl From<sqlx::Error> for InboxError] *)
Definition from_sqlx_error (value : SqlxError) : InboxError :=
  Backend (ESqlx value).

(** [impl From<InvalidId> for InboxError] *)
Definition from_invalid_id (value : InvalidId) : InboxError :=
  InvalidIdentifier value.

(** ** Display *)

Definition display_invalid_id (e : InvalidId) : str :=
  match e with
  | Empty => lit "identifier is empty"
  | TooLong len max =>
      lit "identifier is " ++ fmt_Z len ++ lit " bytes, exceeding the " ++
      fmt_Z max ++ lit "-byte limit"
  | ScopeContainsSeparator => lit "scope contains the ':' separator"
  | SurroundingWhitespace => lit "identifier has leading or trailing whitespace"
  end.

Section Display.
(** [Display] of errors that are not the crate's. *)
Variable display_sqlx : SqlxError -> str.
Variable display_opaque : Z -> str.

Fixpoint display_dyn_error (e : DynError) : str :=
  match e with
  | EString m => m
  | EInbox e => display_inbox_error e
  | ESqlx e => display_sqlx e
  | EOpaque t => display_opaque t
  end
with display_inbox_error (e : InboxError) : str :=
  match e with
  | Backend e => lit "inbox backend failure: " ++ display_dyn_error e
  | Handler e => lit "inbox handler failure: " ++ display_dyn_error e
  | Contended => lit "inbox claim contended: another consumer holds the row"
  | InvalidIdentifier e => lit "invalid identifier: " ++ display_invalid_id e
  end.
End Display.
