(* ===== verification/Durations.v ===== *)
(** * Durations and the retention policy

    [std::time::Duration] as the crate uses it, [src/src/retention.rs], and the
    conversions of a lock timeout to what PostgreSQL and MySQL accept
    ([pg_lock_timeout], [mysql_lock_timeout]). *)

From S2P Require Import Prelude Text.
#[local] Open Scope Z_scope.

Definition u32_max : Z := 2 ^ 32 - 1.
Definition u64_max : Z := 2 ^ 64 - 1.
Definition u128_max : Z := 2 ^ 128 - 1.

(** [std::time::Duration]: whole seconds (u64) and nanoseconds below one
    second (u32). *)
Record Duration := { secs : Z; nanos : Z }.

#[export] Instance Duration_eq_dec : EqDecision Duration.
Proof. solve_decision. Defined.

Definition duration_wf (d : Duration) : Prop :=
  0 <= secs d <= u64_max /\ 0 <= nanos d < 1000000000.

Definition from_secs (s : Z) : Duration := {| secs := s; nanos := 0 |}.
Definition from_millis (ms : Z) : Duration :=
  {| secs := ms / 1000; nanos := ms mod 1000 * 1000000 |}.
Definition from_micros (us : Z) : Duration :=
  {| secs := us / 1000000; nanos := us mod 1000000 * 1000 |}.
Definition duration_max : Duration := {| secs := u64_max; nanos := 999999999 |}.

(** [as_nanos] and [as_micros] answer in u128. *)
Definition as_nanos (d : Duration) : Z := secs d * 1000000000 + nanos d.
Definition as_micros (d : Duration) : Z := secs d * 1000000 + nanos d / 1000.

(** [u128::div_ceil] *)
Definition div_ceil (a b : Z) : Z :=
  if a mod b =? 0 then a / b else a / b + 1.

(** [u64::try_from(x).unwrap_or(u64::MAX)] on a u128. *)
Definition u64_saturating (x : Z) : Z := if x <=? u64_max then x else u64_max.

(** ** The retention policy *)

Record RetentionPolicy := { max_age : Duration; batch_size : Z }.

Module Policy.
Definition new (max_age : Duration) : RetentionPolicy :=
  {| max_age := max_age; batch_size := 1000 |}.

Definition with_batch_size (p : RetentionPolicy) (batch_size : Z) : RetentionPolicy :=
  {| max_age := max_age p; batch_size := Z.max batch_size 1 |}.
End Policy.

(** What the two constructors guarantee: fields in range and a batch that is
    never empty. *)
Definition policy_wf (p : RetentionPolicy) : Prop :=
  duration_wf (max_age p) /\ 1 <= batch_size p <= u32_max.

(** ** Lock timeouts *)

(** Whole milliseconds for PostgreSQL's [lock_timeout]. *)
Definition pg_lock_timeout_ms (timeout : Duration) : Z :=
  Z.max (div_ceil (as_nanos timeout) 1000000) 1.

Definition pg_lock_timeout (timeout : Duration) : str :=
  fmt_Z (pg_lock_timeout_ms timeout) ++ lit "ms".

(** Whole seconds for MySQL's [innodb_lock_wait_timeout]. *)
Definition mysql_lock_timeout (timeout : Duration) : Z :=
  let secs := Z.max (div_ceil (as_nanos timeout) 1000000000) 1 in
  Z.min (u64_saturating secs) 1073741824.

(** The largest [lock_timeout] PostgreSQL's int4 setting holds, in
    milliseconds. *)
Definition pg_lock_timeout_limit : Z := 2 ^ 31 - 1.

(** ** Properties *)

Lemma div_ceil_spec a b m : 0 < b -> (a <= m * b <-> div_ceil a b <= m).
Proof.
  intros Hb. unfold div_ceil.
  destruct (Z.eqb_spec (a mod b) 0); Z.to_euclidean_division_equations; nia.
Qed.

Lemma as_nanos_bounds d : duration_wf d -> 0 <= as_nanos d <= u128_max.
Proof. unfold duration_wf, as_nanos, u64_max, u128_max. lia. Qed.

Lemma as_micros_nanos d :
  duration_wf d -> as_micros d * 1000 <= as_nanos d < (as_micros d + 1) * 1000.
Proof.
  unfold duration_wf, as_micros, as_nanos, u64_max.
  intros. Z.to_euclidean_division_equations; lia.
Qed.

Lemma u64_saturating_min x : u64_saturating x = Z.min x u64_max.
Proof. unfold u64_saturating. destruct (Z.leb_spec x u64_max); lia. Qed.

(** [n] is the least positive number of [unit] nanoseconds that covers [d]. *)
Definition least_cover (unit : Z) (d : Duration) (n : Z) : Prop :=
  1 <= n /\ as_nanos d <= n * unit /\
  (forall m, 1 <= m -> as_nanos d <= m * unit -> n <= m).

Lemma div_ceil_least_cover unit d :
  0 < unit -> least_cover unit d (Z.max (div_ceil (as_nanos d) unit) 1).
Proof.
  intros Hu. unfold least_cover.
  split; [lia|]. split; [apply div_ceil_spec; lia|].
  intros m Hm H. apply div_ceil_spec in H; lia.
Qed.

Lemma fmt_Z_pos_not_zero z t : 1 <= z -> fmt_Z z ++ lit t <> lit "0" ++ lit t.
Proof.
  intros Hz H. apply app_inv_tail in H. unfold fmt_Z in H.
  change "0"%string with (pretty 0) in H.
  assert (pretty z = pretty 0) as Hp.
  { clear Hz; revert H. generalize (pretty z), (pretty 0).
    intros a; induction a as [|x a IH]; intros [|y b]; simpl; try done.
    intros [= Hc Hs]. f_equal; [|auto].
    rewrite <- (Ascii.ascii_N_embedding x), <- (Ascii.ascii_N_embedding y).
    f_equal. lia. }
  apply (inj pretty) in Hp. lia.
Qed.

(** PostgreSQL: whole milliseconds, printed with the suffix [ms]. *)
Lemma pg_lock_timeout_rounds_up (d : Duration) :
  exists ms, pg_lock_timeout d = fmt_Z ms ++ lit "ms" /\
    least_cover 1000000 d ms /\
    pg_lock_timeout d <> lit "0ms" /\
    (ms <= pg_lock_timeout_limit <-> as_nanos d <= pg_lock_timeout_limit * 1000000).
Proof.
  exists (pg_lock_timeout_ms d).
  pose proof (div_ceil_least_cover 1000000 d eq_refl) as Hc.
  fold (pg_lock_timeout_ms d) in Hc. split; [done|]. split; [done|].
  destruct Hc as (H1 & H2 & H3). split.
  - by apply (fmt_Z_pos_not_zero _ "ms").
  - split; [nia|]. apply H3. done.
Qed.

(** MySQL: whole seconds, capped at its maximum. *)
Lemma mysql_lock_timeout_rounds_up (d : Duration) :
  duration_wf d ->
  exists n, least_cover 1000000000 d n /\
    mysql_lock_timeout d = Z.min n 1073741824 /\
    1 <= mysql_lock_timeout d <= 1073741824 /\
    0 <= as_nanos d <= u128_max.
Proof.
  intros Hd. exists (Z.max (div_ceil (as_nanos d) 1000000000) 1).
  pose proof (div_ceil_least_cover 1000000000 d eq_refl) as Hc.
  split; [done|]. destruct Hc as (H1 & _).
  unfold mysql_lock_timeout. rewrite u64_saturating_min. unfold u64_max.
  split; [lia|]. split; [lia|]. by apply as_nanos_bounds.
Qed.

(** C36 (lock timeouts). PostgreSQL is sent the least positive number of whole
    milliseconds that covers the requested timeout, never [0ms], which it reads as
    "no timeout"; the number fits its setting exactly for timeouts up to that
    limit.  MySQL is sent the least positive number of whole seconds, capped at
    its maximum; the u128 arithmetic of both conversions does not overflow. *)
Theorem lock_timeouts_round_up (d : Duration) :
  duration_wf d ->
  (exists ms, pg_lock_timeout d = fmt_Z ms ++ lit "ms" /\
     least_cover 1000000 d ms /\
     pg_lock_timeout d <> lit "0ms" /\
     (ms <= pg_lock_timeout_limit <-> as_nanos d <= pg_lock_timeout_limit * 1000000)) /\
  (exists n, least_cover 1000000000 d n /\
     mysql_lock_timeout d = Z.min n 1073741824 /\
     1 <= mysql_lock_timeout d <= 1073741824) /\
  0 <= as_nanos d <= u128_max.
Proof.
  intros Hd. split; [apply pg_lock_timeout_rounds_up|].
  destruct (mysql_lock_timeout_rounds_up d Hd) as (n & ? & ? & ? & ?). split; [by exists n|done].
Qed.

Lemma lock_timeouts_round_up_witness :
  duration_wf duration_max /\ pg_lock_timeout (from_micros 1500) = lit "2ms" /\
  mysql_lock_timeout duration_max = 1073741824 /\ mysql_lock_timeout (from_millis 1001) = 2 /\
  pg_lock_timeout duration_max <> lit "0ms" /\ 0 <= as_nanos duration_max <= u128_max.
Proof.
  assert (duration_wf duration_max) as Hd
    by (unfold duration_wf, u64_max; vm_compute; intuition congruence).
  destruct (lock_timeouts_round_up duration_max Hd) as ((ms & _ & _ & Hz & _) & _ & Hn).
  split; [exact Hd|]. repeat (split; [reflexivity|]). split; [exact Hz|exact Hn].
Defined.

(** Both constructors establish the policy's invariant: a
    policy never asks for an empty batch, which would make a purge loop
    forever. *)
Lemma policy_never_empty_batch (age : Duration) (n : Z) :
  duration_wf age -> 0 <= n <= u32_max ->
  policy_wf (Policy.new age) /\
  policy_wf (Policy.with_batch_size (Policy.new age) n) /\
  batch_size (Policy.with_batch_size (Policy.new age) n) = (if n =? 0 then 1 else n) /\
  max_age (Policy.with_batch_size (Policy.new age) n) = age.
Proof.
  unfold policy_wf, u32_max; simpl. intros Ha Hn.
  destruct (Z.eqb_spec n 0); repeat split; try apply Ha; lia.
Qed.
