(* ===== verification/Types.v ===== *)
(** * Identifiers, claims and outcomes

    [src/src/types.rs]: the validated newtypes [ConsumerId] and [MessageId],
    [MessageId::scoped], the claim request and batch, and [Outcome]. *)

From S2P Require Import Prelude Text Errors Durations.
#[local] Open Scope Z_scope.

(** ** Data *)

Record ConsumerId := { consumer_str : str }.
Record MessageId := { message_str : str }.

#[export] Instance ConsumerId_eq_dec : EqDecision ConsumerId.
Proof. solve_decision. Defined.
#[export] Instance MessageId_eq_dec : EqDecision MessageId.
Proof. solve_decision. Defined.

Inductive Claim : Type := Fresh | Duplicate.

#[export] Instance Claim_eq_dec : EqDecision Claim.
Proof. solve_decision. Defined.

Record ClaimRequest := {
  req_consumer : ConsumerId;
  req_id : MessageId;
  req_lock_timeout : option Duration;
}.

Record ClaimBatch := {
  batch_consumer : ConsumerId;
  batch_ids : list MessageId;
  batch_lock_timeout : option Duration;
}.

Inductive Outcome (T : Type) : Type :=
| Processed (value : T)
| OutcomeDuplicate.
Arguments Processed {_} _.
Arguments OutcomeDuplicate {_}.

#[export] Instance Outcome_eq_dec {T : Type} `{EqDecision T} : EqDecision (Outcome T).
Proof. solve_decision. Defined.

(** ** The newtype macro *)

(** The validation of [string_newtype!], shared by both identifiers. *)
Definition string_newtype_try_from (MAX_LEN : Z) (value : str) : result str InvalidId :=
  if decide (trim value = []) then Error Empty
  else if negb (len (trim value) =? len value) then Error SurroundingWhitespace
  else if len value >? MAX_LEN then Error (TooLong (len value) MAX_LEN)
  else Ok value.

Module Consumer_Id.
Definition MAX_LEN : Z := 255.
Definition as_str (x : ConsumerId) : str := consumer_str x.
Definition try_from (value : str) : result ConsumerId InvalidId :=
  match string_newtype_try_from MAX_LEN value with
  | Ok v => Ok {| consumer_str := v |}
  | Error e => Error e
  end.
Definition fmt (x : ConsumerId) : str := consumer_str x.
End Consumer_Id.

Module Message_Id.
Definition MAX_LEN : Z := 512.
Definition as_str (x : MessageId) : str := message_str x.
Definition try_from (value : str) : result MessageId InvalidId :=
  match string_newtype_try_from MAX_LEN value with
  | Ok v => Ok {| message_str := v |}
  | Error e => Error e
  end.
Definition fmt (x : MessageId) : str := message_str x.

(** [':'] *)
Definition separator : Z := 58.

(** The loop body of [scoped] on one part. *)
Definition check_part (part : str) : option InvalidId :=
  if decide (trim part = []) then Some Empty
  else if negb (len (trim part) =? len part) then Some SurroundingWhitespace
  else None.

Definition scoped (scope id : str) : result MessageId InvalidId :=
  if contains separator scope then Error ScopeContainsSeparator
  else match check_part scope with
  | Some e => Error e
  | None =>
      match check_part id with
      | Some e => Error e
      | None => try_from (scope ++ [separator] ++ id)
      end
  end.
End Message_Id.

(** ** Requests *)

Module Claim_Request.
Definition new (consumer : ConsumerId) (id : MessageId) : ClaimRequest :=
  {| req_consumer := consumer; req_id := id; req_lock_timeout := None |}.
Definition with_lock_timeout (r : ClaimRequest) (t : Duration) : ClaimRequest :=
  {| req_consumer := req_consumer r; req_id := req_id r; req_lock_timeout := Some t |}.
End Claim_Request.

Module Claim_Batch.
Definition new (consumer : ConsumerId) (ids : list MessageId) : ClaimBatch :=
  {| batch_consumer := consumer; batch_ids := ids; batch_lock_timeout := None |}.
Definition with_lock_timeout (r : ClaimBatch) (t : Duration) : ClaimBatch :=
  {| batch_consumer := batch_consumer r; batch_ids := batch_ids r;
     batch_lock_timeout := Some t |}.
End Claim_Batch.

(** [Outcome::processed] *)
Definition processed {T} (o : Outcome T) : option T :=
  match o with
  | Processed value => Some value
  | OutcomeDuplicate => None
  end.

(** ** The invariant of an identifier *)

(** Every string an identifier can hold. *)
Definition valid_id (max : Z) (s : str) : Prop :=
  s <> [] /\ tight s /\ len s <= max.

Lemma tight_nonblank s : s <> [] -> tight s -> trim s <> [].
Proof. intros Hs Ht. by rewrite trim_tight_id. Qed.

Lemma negb_len_tight s : negb (len (trim s) =? len s) = false <-> tight s.
Proof. rewrite negb_false_iff, Z.eqb_eq. apply trim_len_id. Qed.

Lemma try_from_ok max s v :
  string_newtype_try_from max s = Ok v <-> v = s /\ valid_id max s.
Proof.
  unfold string_newtype_try_from, valid_id. case_decide as Ht.
  - split; [done|]. intros (-> & Hs & Htight & _). by apply tight_nonblank in Htight.
  - destruct (negb (len (trim s) =? len s)) eqn:Hw.
    + split; [done|]. intros (_ & _ & Htight & _).
      apply negb_len_tight in Htight. congruence.
    + apply negb_len_tight in Hw. rewrite Z.gtb_ltb.
      destruct (Z.ltb_spec max (len s)).
      * split; [done|]. intros (_ & _ & _ & ?). lia.
      * split; [intros [= <-]|by intros [-> _]].
        repeat split; try apply Hw; [|lia]. intros ->. by apply Ht.
Qed.

Lemma check_part_None s : Message_Id.check_part s = None <-> s <> [] /\ tight s.
Proof.
  unfold Message_Id.check_part. case_decide as Ht.
  - split; [done|]. intros [Hs H]. by apply tight_nonblank in H.
  - destruct (negb (len (trim s) =? len s)) eqn:Hw.
    + split; [done|]. intros [_ H%negb_len_tight]. congruence.
    + apply negb_len_tight in Hw. split; [|done]. intros _. split; [|done].
      intros ->. by apply Ht.
Qed.

(** ** Properties *)

(** C34 (identifier validation). [try_from] accepts exactly the strings that are
    not empty, have no white space at either end and fit the byte limit, and
    keeps them unchanged; every other string is rejected with the error of the
    first test it fails: blank, then surrounded by white space, then too long. *)
Theorem message_id_try_from_spec (s : str) :
  match Message_Id.try_from s with
  | Ok id => Message_Id.as_str id = s /\ valid_id Message_Id.MAX_LEN s
  | Error Empty => blank s
  | Error SurroundingWhitespace => ~ blank s /\ ~ tight s
  | Error (TooLong n m) =>
      s <> [] /\ tight s /\ n = len s /\ m = Message_Id.MAX_LEN /\ m < n
  | Error ScopeContainsSeparator => False
  end.
Proof.
  unfold Message_Id.try_from.
  destruct (string_newtype_try_from Message_Id.MAX_LEN s) as [v|e] eqn:H.
  - by apply try_from_ok in H as [-> ?].
  - unfold string_newtype_try_from in H. case_decide as Ht.
    + simplify_eq. by apply trim_blank.
    + assert (~ blank s) as Hb by by rewrite <- trim_blank.
      destruct (negb (len (trim s) =? len s)) eqn:Hw.
      * simplify_eq. split; [done|]. intros Hn%negb_len_tight. congruence.
      * apply negb_len_tight in Hw. rewrite Z.gtb_ltb in H.
        destruct (Z.ltb_spec Message_Id.MAX_LEN (len s)); simplify_eq.
        repeat split; try apply Hw; [|done]. intros ->. by apply Ht.
Qed.

(** C35 (identifier round trip). Whatever text [try_from] accepts, as a message
    id or as a consumer id, the identifier borrows ([as_str]) and prints
    ([Display]) exactly that text, and the printed text is accepted again and
    gives the same identifier; and two identifiers are equal exactly when the
    bytes they print are. *)
Theorem identifier_roundtrip (s : str) :
  (forall id, Message_Id.try_from s = Ok id ->
     Message_Id.as_str id = s /\ Message_Id.fmt id = s /\
     Message_Id.try_from (Message_Id.fmt id) = Ok id) /\
  (forall c, Consumer_Id.try_from s = Ok c ->
     Consumer_Id.as_str c = s /\ Consumer_Id.fmt c = s /\
     Consumer_Id.try_from (Consumer_Id.fmt c) = Ok c) /\
  (forall id id', utf8 (Message_Id.fmt id) = utf8 (Message_Id.fmt id') <-> id = id') /\
  (forall c c', utf8 (Consumer_Id.fmt c) = utf8 (Consumer_Id.fmt c') <-> c = c').
Proof.
  split; [|split; [|split]].
  - intros id Hid. pose proof Hid as Hs. unfold Message_Id.try_from in Hs.
    destruct (string_newtype_try_from Message_Id.MAX_LEN s) as [v|] eqn:Hv; [|done].
    apply try_from_ok in Hv as [-> _]. by injection Hs as <-.
  - intros c Hc. pose proof Hc as Hs. unfold Consumer_Id.try_from in Hs.
    destruct (string_newtype_try_from Consumer_Id.MAX_LEN s) as [v|] eqn:Hv; [|done].
    apply try_from_ok in Hv as [-> _]. by injection Hs as <-.
  - intros [a] [b]; simpl. split; [by intros ->%utf8_inj|by intros [= ->]].
  - intros [a] [b]; simpl. split; [by intros ->%utf8_inj|by intros [= ->]].
Qed.

(** Longer than a consumer id may be. *)
Definition long_text : str := concat (replicate 100 (lit "m-1")).

Lemma identifier_roundtrip_witness :
  Consumer_Id.try_from long_text = Error (TooLong 300 Consumer_Id.MAX_LEN) /\
  Message_Id.try_from long_text = Ok {| message_str := long_text |} /\
  Message_Id.fmt {| message_str := long_text |} = long_text /\
  Consumer_Id.fmt {| consumer_str := lit "billing" |} = lit "billing".
Proof.
  split; [vm_compute; reflexivity|]. split; [vm_compute; reflexivity|]. split.
  - apply (identifier_roundtrip long_text). vm_compute. reflexivity.
  - apply (identifier_roundtrip (lit "billing")). vm_compute. reflexivity.
Defined.

Lemma scoped_unfold (scope id : str) :
  Message_Id.separator ∉ scope -> scope <> [] -> tight scope -> id <> [] -> tight id ->
  Message_Id.scoped scope id
  = Message_Id.try_from (scope ++ [Message_Id.separator] ++ id).
Proof.
  intros Hsep Hs Hs' Hi Hi'. unfold Message_Id.scoped.
  rewrite (proj2 (contains_false _ _) Hsep).
  by rewrite !(proj2 (check_part_None _)) by done.
Qed.

Lemma scoped_ok_parts (scope id : str) (m : MessageId) :
  Message_Id.scoped scope id = Ok m ->
  Message_Id.separator ∉ scope /\
  scope <> [] /\ tight scope /\ id <> [] /\ tight id.
Proof.
  unfold Message_Id.scoped.
  destruct (contains Message_Id.separator scope) eqn:Hsep; [done|].
  destruct (Message_Id.check_part scope) eqn:Hs; [done|].
  destruct (Message_Id.check_part id) eqn:Hi; [done|]. intros _.
  apply contains_false in Hsep.
  apply check_part_None in Hs as [? ?], Hi as [? ?]. done.
Qed.

Lemma try_from_as_str (s : str) (m : MessageId) :
  Message_Id.try_from s = Ok m <-> Message_Id.as_str m = s /\ valid_id Message_Id.MAX_LEN s.
Proof.
  unfold Message_Id.try_from.
  destruct (string_newtype_try_from Message_Id.MAX_LEN s) as [v|e] eqn:H.
  - apply try_from_ok in H as [-> H]. split; [by intros [= <-]|].
    intros [Hm _]. destruct m; simpl in Hm. by subst.
  - split; [done|]. intros [_ Hv].
    by rewrite (proj2 (try_from_ok Message_Id.MAX_LEN s s)) in H.
Qed.

Lemma joined_valid (scope id : str) :
  scope <> [] -> tight scope -> id <> [] -> tight id ->
  (valid_id Message_Id.MAX_LEN (scope ++ [Message_Id.separator] ++ id) <->
   len scope + 1 + len id <= Message_Id.MAX_LEN).
Proof.
  intros Hs Hs' Hi Hi'. unfold valid_id. rewrite !len_app.
  change (len [Message_Id.separator]) with 1. split; [lia|]. intros Hl.
  split; [by destruct scope|]. split; [by apply tight_app|lia].
Qed.

(** C33 (scoped identifiers are valid). [scoped] succeeds exactly when the scope
    has no separator, both parts are non-empty without white space at their
    ends, and the joined text fits the limit; the identifier is then the two
    parts joined by [':'].  The validation of the joined text never rejects
    parts that passed their own checks for any reason but length. *)
Theorem scoped_ok_iff (scope id : str) (m : MessageId) :
  Message_Id.scoped scope id = Ok m <->
  Message_Id.separator ∉ scope /\
  scope <> [] /\ tight scope /\ id <> [] /\ tight id /\
  len scope + 1 + len id <= Message_Id.MAX_LEN /\
  Message_Id.as_str m = scope ++ [Message_Id.separator] ++ id.
Proof.
  split.
  - intros H. pose proof (scoped_ok_parts _ _ _ H) as (? & ? & ? & ? & ?).
    rewrite scoped_unfold, try_from_as_str, joined_valid in H by done. tauto.
  - intros (? & ? & ? & ? & ? & ? & ?).
    rewrite scoped_unfold, try_from_as_str, joined_valid by done. done.
Qed.

(** C32 (scoping never collides). Distinct (scope, id) pairs give distinct
    message identifiers: folding the producer's identity into the key cannot
    merge two messages. *)
Theorem scoped_injective (scope1 id1 scope2 id2 : str) (m : MessageId) :
  Message_Id.scoped scope1 id1 = Ok m -> Message_Id.scoped scope2 id2 = Ok m ->
  scope1 = scope2 /\ id1 = id2.
Proof.
  intros H1 H2.
  pose proof (scoped_ok_parts _ _ _ H1) as (? & ? & ? & ? & ?).
  pose proof (scoped_ok_parts _ _ _ H2) as (? & ? & ? & ? & ?).
  rewrite scoped_unfold, try_from_as_str in H1, H2 by done.
  destruct H1 as [E1 _], H2 as [E2 _]. rewrite E1 in E2. by eapply app_sep_inj.
Qed.

Lemma scoped_injective_witness :
  Message_Id.scoped (lit "producer-a") (lit "t:0:7")
    = Ok {| message_str := lit "producer-a:t:0:7" |} /\
  lit "producer-a" = lit "producer-a" /\ lit "t:0:7" = lit "t:0:7".
Proof.
  split; [vm_compute; reflexivity|].
  apply (scoped_injective _ _ _ _ {| message_str := lit "producer-a:t:0:7" |});
    vm_compute; reflexivity.
Defined.
