(* ===== verification/Store.v ===== *)
(** * The store traits and their contract

    [src/src/store.rs]: the traits [InboxStore], [LockTimeout] and
    [Savepoints] as type classes over the effects [E] a backend awaits, with
    their default methods, and what their documentation promises as the
    classes [InboxLaws] and [SavepointLaws].  [Consumer] is verified against
    these classes; the backends are instances of them. *)

From S2P Require Import Prelude Text Errors Durations Types.

(** ** The traits *)

(** The transaction type: [DerefMut] to its connection, and its destructor. *)
Class Transaction (E : Type -> Type) (Conn Tx : Type) := {
  deref_mut : Tx -> Conn;
  drop_tx : Tx -> prog E unit;
}.

(** [purge] loops until a statement deletes less than a full batch; [fuel]
    bounds the number of statements. *)
Class InboxStore (S : Type) (E : Type -> Type) (Conn Tx : Type)
    `{Transaction E Conn Tx} := {
  begin : S -> prog E (result Tx InboxError);
  commit : S -> Tx -> prog E (result unit InboxError);
  rollback : S -> Tx -> prog E (result unit InboxError);
  claim : S -> Conn -> ClaimRequest -> prog E (result Claim InboxError);
  claim_many : S -> Conn -> ClaimBatch -> prog E (result (list Claim) InboxError);
  is_known_duplicate : S -> ConsumerId -> MessageId -> prog E (result bool InboxError);
  purge : S -> nat -> RetentionPolicy -> prog E (result Z InboxError);
}.

Class LockTimeout (S : Type) (E : Type -> Type) (Conn Tx : Type)
    `{InboxStore S E Conn Tx} := {}.

Class Savepoints (S : Type) (E : Type -> Type) (Conn Tx : Type)
    `{InboxStore S E Conn Tx} := {
  savepoint : S -> Conn -> prog E (result unit InboxError);
  release_and_savepoint : S -> Conn -> prog E (result unit InboxError);
  release : S -> Conn -> prog E (result unit InboxError);
  rollback_to : S -> Conn -> prog E (result unit InboxError);
  unclaim : S -> Conn -> ConsumerId -> MessageId -> prog E (result unit InboxError);
}.

(** ** Default methods *)

Definition default_rollback {E Conn Tx} `{Transaction E Conn Tx}
    (tx : Tx) : prog E (result unit InboxError) :=
  _ <- drop_tx tx ;; Ret (Ok tt).

Section DefaultClaimMany.
Context {E : Type -> Type} {Conn : Type}.
Variable self_claim : Conn -> ClaimRequest -> prog E (result Claim InboxError).

Fixpoint default_claim_many_loop (conn : Conn) (batch : ClaimBatch)
    (ids : list MessageId) (claims : list Claim)
  : prog E (result (list Claim) InboxError) :=
  match ids with
  | [] => Ret (Ok claims)
  | id :: ids =>
      let request :=
        {| req_consumer := batch_consumer batch; req_id := id;
           req_lock_timeout := batch_lock_timeout batch |} in
      c <-? self_claim conn request ;;
      default_claim_many_loop conn batch ids (claims ++ [c])
  end.

Definition default_claim_many (conn : Conn) (batch : ClaimBatch)
  : prog E (result (list Claim) InboxError) :=
  default_claim_many_loop conn batch (batch_ids batch) [].
End DefaultClaimMany.

Definition default_is_known_duplicate {E} (consumer : ConsumerId) (id : MessageId)
  : prog E (result bool InboxError) :=
  Ret (Ok false).

(** ** What a store's observer sees *)

(** A message as the inbox records it: the dedup key. *)
Definition key (c : ConsumerId) (id : MessageId) : str * str :=
  (Consumer_Id.as_str c, Message_Id.as_str id).

(** A database: the recorded keys and the application's own tables. *)
Record Db (App : Type) := mkDb { recorded : gset (str * str); app : App }.
Arguments mkDb {_} _ _.
Arguments recorded {_} _.
Arguments app {_} _.

Definition record_key {App} (k : str * str) (d : Db App) : Db App :=
  mkDb ({[k]} ∪ recorded d) (app d).

Definition unrecord_key {App} (k : str * str) (d : Db App) : Db App :=
  mkDb (recorded d ∖ {[k]}) (app d).

(** The answer a claim of [k] gets on [d]. *)
Definition claim_answer {App} (d : Db App) (k : str * str) : Claim :=
  if decide (k ∈ recorded d) then Duplicate else Fresh.

Definition record_all {App} (c : ConsumerId) (ids : list MessageId) (d : Db App) : Db App :=
  mkDb (list_to_set (key c <$> ids) ∪ recorded d) (app d).

(** One claim per id, left to right: the reference a batch claim is measured
    against. *)
Fixpoint claim_each {App} (c : ConsumerId) (ids : list MessageId) (d : Db App)
  : list Claim * Db App :=
  match ids with
  | [] => ([], d)
  | id :: ids =>
      let '(l, d') := claim_each c ids (record_key (key c id) d) in
      (claim_answer d (key c id) :: l, d')
  end.

(** [committed w] is what a new transaction sees; [working w conn] is what the
    open, usable transaction on [conn] sees; [saved w conn] is what its
    savepoint would restore; from a [healthy] world on, the backend reports no
    failure of its own. *)
Class Observe (W Conn App : Type) := {
  committed : W -> Db App;
  working : W -> Conn -> option (Db App);
  saved : W -> Conn -> option (Db App);
  healthy : W -> Prop;
}.

(** Nothing was committed, and a healthy backend stays so. *)
Definition quiet {W Conn App} `{!Observe W Conn App} (w w' : W) : Prop :=
  committed w' = committed w /\ (healthy w -> healthy w').

(** A store method returns a value satisfying [Q], or fails, which a healthy
    backend does not; it never panics, and may be cancelled. *)
Definition answers {W Conn App} `{!Observe W Conn App} {A Err} (w : W) (Q : A -> Prop)
    (o : outcome (result A Err)) : Prop :=
  match o with
  | Done (Ok a) => Q a
  | Done (Error _) => ~ healthy w
  | Panicked _ => False
  | Cancelled => True
  end.

(** A text every database stores as it is: PostgreSQL refuses U+0000. *)
Definition storable (s : str) : Prop := 0%Z ∉ s.

#[export] Instance storable_dec s : Decision (storable s).
Proof. unfold storable. apply _. Defined.

Definition consumer_ok (c : ConsumerId) : Prop :=
  valid_id Consumer_Id.MAX_LEN (Consumer_Id.as_str c) /\ storable (Consumer_Id.as_str c).
Definition message_ok (id : MessageId) : Prop :=
  valid_id Message_Id.MAX_LEN (Message_Id.as_str id) /\ storable (Message_Id.as_str id).

(** The order backends lock in: by bytes. *)
Definition id_lt (a b : MessageId) : Prop :=
  str_lt (Message_Id.as_str a) (Message_Id.as_str b).

(** A lock timeout every backend accepts: PostgreSQL's setting is the narrowest,
    31 bits of milliseconds. *)
Definition lock_timeout_ok (t : option Duration) : Prop :=
  match t with Some d => pg_lock_timeout_ms d <= pg_lock_timeout_limit | None => True end%Z.

(** What [ClaimBatch] promises the backend: unique ids, sorted by bytes. *)
Definition batch_ok (b : ClaimBatch) : Prop :=
  consumer_ok (batch_consumer b) /\ Forall message_ok (batch_ids b) /\
  StronglySorted id_lt (batch_ids b) /\ lock_timeout_ok (batch_lock_timeout b).

Definition request_ok (r : ClaimRequest) : Prop :=
  consumer_ok (req_consumer r) /\ message_ok (req_id r) /\
  lock_timeout_ok (req_lock_timeout r).

(** ** The contract *)

(** Each law quantifies over every way the method can end, cancellation at any
    await included; only a normal [Ok] promises anything beyond leaving the
    committed database alone.  A failed or interrupted commit may or may not
    have taken effect. *)
Class InboxLaws (S : Type) {E : Type -> Type} {Conn Tx W App : Type}
    (ev : forall A, E A -> W -> A * W)
    `{InboxStore S E Conn Tx} `{Observe W Conn App} := {
  law_begin s w :
    wp ev (begin s) (fun o w' => quiet w w' /\
      answers w (fun tx => working w' (deref_mut tx) = Some (committed w) /\
                           saved w' (deref_mut tx) = None) o) w;
  law_commit s tx w d :
    working w (deref_mut tx) = Some d ->
    wp ev (commit s tx) (fun o w' =>
      (committed w' = committed w \/ committed w' = d) /\
      (healthy w -> healthy w') /\
      answers w (fun _ => committed w' = d) o) w;
  law_rollback s tx w :
    wp ev (rollback s tx) (fun o w' => quiet w w' /\ answers w (fun _ => True) o) w;
  law_drop (tx : Tx) w :
    wp ev (drop_tx tx) (fun o w' => quiet w w' /\ forall m, o <> Panicked m) w;
  law_claim s conn r w d :
    working w conn = Some d -> request_ok r ->
    wp ev (claim s conn r) (fun o w' => quiet w w' /\
      answers w (fun c =>
        let k := key (req_consumer r) (req_id r) in
        c = claim_answer d k /\
        working w' conn = Some (record_key k d) /\
        saved w' conn = saved w conn) o) w;
  law_claim_many s conn b w d :
    working w conn = Some d -> batch_ok b ->
    wp ev (claim_many s conn b) (fun o w' => quiet w w' /\
      answers w (fun cs =>
        cs = (fun id => claim_answer d (key (batch_consumer b) id)) <$> batch_ids b /\
        working w' conn = Some (record_all (batch_consumer b) (batch_ids b) d) /\
        saved w' conn = saved w conn) o) w;
  law_is_known_duplicate s c id w :
    consumer_ok c -> message_ok id ->
    wp ev (is_known_duplicate s c id) (fun o w' => quiet w w' /\
      answers w (fun b => b = true -> key c id ∈ recorded (committed w)) o) w;
}.

Class SavepointLaws (S : Type) {E : Type -> Type} {Conn Tx W App : Type}
    (ev : forall A, E A -> W -> A * W)
    `{Savepoints S E Conn Tx} `{Observe W Conn App} := {
  law_savepoint s conn w d :
    working w conn = Some d -> saved w conn = None ->
    wp ev (savepoint s conn) (fun o w' => quiet w w' /\
      answers w (fun _ => working w' conn = Some d /\ saved w' conn = Some d) o) w;
  law_release_and_savepoint s conn w d sp :
    working w conn = Some d -> saved w conn = Some sp ->
    wp ev (release_and_savepoint s conn) (fun o w' => quiet w w' /\
      answers w (fun _ => working w' conn = Some d /\ saved w' conn = Some d) o) w;
  law_release s conn w d sp :
    working w conn = Some d -> saved w conn = Some sp ->
    wp ev (release s conn) (fun o w' => quiet w w' /\
      answers w (fun _ => working w' conn = Some d /\ saved w' conn = None) o) w;
  law_rollback_to s conn w :
    wp ev (rollback_to s conn) (fun o w' => quiet w w' /\
      match saved w conn with
      | Some sp =>
          answers w (fun _ => working w' conn = Some sp /\ saved w' conn = Some sp) o
      | None => (forall r, o <> Done (Ok r)) /\ (forall m, o <> Panicked m)
      end) w;
  law_unclaim s conn c id w d :
    working w conn = Some d -> consumer_ok c -> message_ok id ->
    wp ev (unclaim s conn c id) (fun o w' => quiet w w' /\
      answers w (fun _ => working w' conn = Some (unrecord_key (key c id) d) /\
                          saved w' conn = saved w conn) o) w;
}.

(** ** Lemmas on keys and databases *)

#[export] Instance key_inj c : Inj (=) (=) (key c).
Proof. intros [a] [b]; unfold key; simpl. by intros [= ->]. Qed.

Section DbLemmas.
Context {App : Type}.
Implicit Types (d : Db App) (k : str * str) (ids : list MessageId).

Lemma db_eq d1 d2 : recorded d1 = recorded d2 -> app d1 = app d2 -> d1 = d2.
Proof. destruct d1, d2; simpl; by intros -> ->. Qed.

Lemma record_key_known k d : k ∈ recorded d -> record_key k d = d.
Proof. intros. apply db_eq; simpl; [set_solver|done]. Qed.

Lemma unrecord_record k d : k ∉ recorded d -> unrecord_key k (record_key k d) = d.
Proof. intros. apply db_eq; simpl; [set_solver|done]. Qed.

Lemma record_all_nil c d : record_all c [] d = d.
Proof. apply db_eq; simpl; [set_solver|done]. Qed.

Lemma record_all_cons c id ids d :
  record_all c (id :: ids) d = record_all c ids (record_key (key c id) d).
Proof. apply db_eq; simpl; [set_solver|done]. Qed.

Lemma record_all_known c ids d :
  (forall id, id ∈ ids -> key c id ∈ recorded d) -> record_all c ids d = d.
Proof. intros H. apply db_eq; simpl; [set_solver|done]. Qed.

Lemma elem_of_record_all c ids d k :
  k ∈ recorded (record_all c ids d) <->
  k ∈ recorded d \/ exists id, id ∈ ids /\ k = key c id.
Proof. simpl. set_solver. Qed.

Lemma record_all_ext c ids ids' d :
  (forall id, id ∈ ids <-> id ∈ ids') -> record_all c ids d = record_all c ids' d.
Proof. intros H. apply db_eq; simpl; [set_solver|done]. Qed.

Lemma claim_answer_Fresh d k : claim_answer d k = Fresh <-> k ∉ recorded d.
Proof. unfold claim_answer. by case_decide. Qed.

Lemma claim_answer_Duplicate d k : claim_answer d k = Duplicate <-> k ∈ recorded d.
Proof. unfold claim_answer. by case_decide. Qed.

Lemma claim_answer_record_ne d k k' :
  k <> k' -> claim_answer (record_key k d) k' = claim_answer d k'.
Proof. intros. unfold claim_answer; simpl. repeat case_decide; set_solver. Qed.

Lemma claim_answers_record_ne c id ids d :
  id ∉ ids ->
  ((fun i => claim_answer (record_key (key c id) d) (key c i)) <$> ids)
  = ((fun i => claim_answer d (key c i)) <$> ids).
Proof.
  intros H. apply list_fmap_ext. intros i x Hx%list_elem_of_lookup_2.
  apply claim_answer_record_ne. intros ->%(inj _). done.
Qed.

Lemma claim_each_db c ids d : snd (claim_each c ids d) = record_all c ids d.
Proof.
  revert d; induction ids as [|id ids IH]; intros d; simpl.
  - by rewrite record_all_nil.
  - specialize (IH (record_key (key c id) d)).
    destruct (claim_each c ids (record_key (key c id) d)); simpl in *.
    by rewrite record_all_cons.
Qed.

Lemma claim_each_length c ids d : length (fst (claim_each c ids d)) = length ids.
Proof.
  revert d; induction ids as [|id ids IH]; intros d; simpl; [done|].
  specialize (IH (record_key (key c id) d)).
  destruct (claim_each c ids (record_key (key c id) d)); simpl in *. by f_equal.
Qed.

(** Without repeats, every id gets the answer of the database as it was. *)
Lemma claim_each_NoDup c ids d :
  NoDup ids -> fst (claim_each c ids d) = (fun id => claim_answer d (key c id)) <$> ids.
Proof.
  intros Hnd; revert d; induction Hnd as [|id ids Hni Hnd IH]; intros d; simpl; [done|].
  specialize (IH (record_key (key c id) d)).
  destruct (claim_each c ids (record_key (key c id) d)); simpl in *.
  by rewrite IH, claim_answers_record_ne.
Qed.
End DbLemmas.

Lemma sorted_ids_NoDup ids : StronglySorted id_lt ids -> NoDup ids.
Proof.
  induction 1 as [|a l Hs IH Hf]; constructor; [|done].
  intros Hin. rewrite Forall_forall in Hf. specialize (Hf a Hin).
  by apply (str_lt_irrefl (Message_Id.as_str a)).
Qed.

(** ** The default methods keep the contract *)

Section DefaultLaws.
Context {S : Type} {E : Type -> Type} {Conn Tx W App : Type}.
Context (ev : forall A, E A -> W -> A * W).
Context `{Transaction E Conn Tx, !InboxStore S E Conn Tx, !Observe W Conn App}.
Context `{!InboxLaws S ev}.

Lemma quiet_refl w : quiet w w.
Proof. by split. Qed.

Lemma quiet_trans w1 w2 w3 : quiet w1 w2 -> quiet w2 w3 -> quiet w1 w3.
Proof. intros [? ?] [? ?]. split; [congruence|auto]. Qed.

(** What claiming [ids] in any way must achieve, given [acc] claimed before. *)
Definition claims_post (conn : Conn) (c : ConsumerId) (ids : list MessageId)
    (acc : list Claim) (w : W) (d : Db App)
    (o : outcome (result (list Claim) InboxError)) (w' : W) : Prop :=
  quiet w w' /\
  answers w (fun cs =>
    cs = acc ++ fst (claim_each c ids d) /\
    working w' conn = Some (snd (claim_each c ids d)) /\
    saved w' conn = saved w conn) o.

Lemma default_claim_many_loop_wp s conn b ids acc w d :
  working w conn = Some d ->
  consumer_ok (batch_consumer b) -> lock_timeout_ok (batch_lock_timeout b) ->
  Forall message_ok ids ->
  wp ev (default_claim_many_loop (claim s) conn b ids acc)
     (claims_post conn (batch_consumer b) ids acc w d) w.
Proof.
  revert acc w d; induction ids as [|id ids IH]; intros acc w d Hw Hc Ht Hids; simpl.
  - apply wp_ret. unfold claims_post; simpl. rewrite app_nil_r.
    by split; [apply quiet_refl|].
  - apply Forall_cons in Hids as [Hid Hids].
    apply wp_bind_try. eapply wp_mono; [by apply law_claim with (d := d)|].
    intros [[c|e]|m|] w1; unfold claims_post; simpl; try done.
    intros (Hq & -> & Hw1 & Hs1).
    eapply wp_mono; [by apply IH|].
    intros o w2 [Hq2 Ha]. split; [by eapply quiet_trans|].
    destruct (claim_each _ ids _) as [l d'] eqn:Heq.
    destruct o as [[cs|e]|m|]; simpl in *; try done.
    + destruct Ha as (-> & ? & ?). rewrite <- app_assoc. split; [done|]. by rewrite <- Hs1.
    + intros Hh. apply Ha. by apply Hq.
Qed.

(** Default batch claim. The trait's default [claim_many], one claim per
    id, keeps the contract a one-statement override must keep: one answer per
    id in order, each the database's answer for that id, and all of them
    recorded. *)
Lemma default_claim_many_lawful (s : S) (conn : Conn) (b : ClaimBatch) (w : W)
    (d : Db App) :
  working w conn = Some d -> batch_ok b ->
  wp ev (default_claim_many (claim s) conn b) (fun o w' => quiet w w' /\
    answers w (fun cs =>
      cs = (fun id => claim_answer d (key (batch_consumer b) id)) <$> batch_ids b /\
      working w' conn = Some (record_all (batch_consumer b) (batch_ids b) d) /\
      saved w' conn = saved w conn) o) w.
Proof.
  intros Hw (Hc & Hids & Hs%sorted_ids_NoDup & Ht).
  eapply wp_mono; [by apply (default_claim_many_loop_wp s conn b (batch_ids b) [] w d)|].
  intros o w'. unfold claims_post. by rewrite claim_each_db, claim_each_NoDup.
Qed.

(** Default rollback. Dropping the transaction is a rollback: the default
    [rollback] answers [Ok] and discards every uncommitted write. *)
Lemma default_rollback_lawful (tx : Tx) (w : W) :
  wp ev (default_rollback tx) (fun o w' => quiet w w' /\
    match o with Done r => r = Ok tt | Panicked _ => False | Cancelled => True end) w.
Proof.
  apply wp_bind. eapply wp_mono; [apply law_drop|].
  intros [[]|m|] w'; simpl; intros [Hq Hp]; [by apply wp_ret|by destruct (Hp m)|done].
Qed.
End DefaultLaws.
