(* ===== verification/MemStore.v ===== *)
(** * An in-memory store

    A small transactional store that keeps the contract of [Store.v], with
    faults injected from a script.  It models no code of the crate: it shows
    that the contract can be met, and it is the concrete store on which the
    theorems about [Consumer] are evaluated. *)

From S2P Require Import Prelude Text Errors Durations Types Store.

Record MemWorld := {
  mem_committed : Db (list str);
  mem_sessions : gmap nat (Db (list str) * option (Db (list str)));
  mem_next : nat;
  mem_faults : list (option InboxError);
}.

(** An effect is a transition of the memory. *)
Definition memE (A : Type) : Type := MemWorld -> A * MemWorld.
Definition mem_ev (A : Type) (e : memE A) (w : MemWorld) : A * MemWorld := e w.

Inductive MemStore : Type := memStore.

Definition set_sessions f (w : MemWorld) : MemWorld :=
  {| mem_committed := mem_committed w; mem_sessions := f (mem_sessions w);
     mem_next := mem_next w; mem_faults := mem_faults w |}.

(** Pops the script: the operation fails with the scripted error, if any. *)
Definition faulty {A} (op : memE (result A InboxError)) : memE (result A InboxError) :=
  fun w =>
    let w' := {| mem_committed := mem_committed w; mem_sessions := mem_sessions w;
                 mem_next := mem_next w; mem_faults := tail (mem_faults w) |} in
    match mem_faults w with
    | Some e :: _ => (Error e, w')
    | _ => op w'
    end.

Definition no_session : InboxError := Backend (EOpaque 0).

(** Runs [f] on the open session of [conn]. *)
Definition on_session {A} (conn : nat)
    (f : Db (list str) -> option (Db (list str)) ->
         result A InboxError * (Db (list str) * option (Db (list str))))
  : memE (result A InboxError) :=
  faulty (fun w =>
    match mem_sessions w !! conn with
    | Some (d, s) =>
        let '(r, ds) := f d s in (r, set_sessions <[conn := ds]> w)
    | None => (Error no_session, w)
    end).

Definition mem_drop (tx : nat) : memE unit :=
  fun w => (tt, set_sessions (delete tx) w).

#[export] Instance mem_tx : Transaction memE nat nat := {|
  deref_mut tx := tx;
  drop_tx tx := trigger (mem_drop tx);
|}.

Definition mem_begin : memE (result nat InboxError) := faulty (fun w =>
  (Ok (mem_next w),
   {| mem_committed := mem_committed w;
      mem_sessions := <[mem_next w := (mem_committed w, None)]> (mem_sessions w);
      mem_next := S (mem_next w); mem_faults := mem_faults w |})).

Definition mem_commit (tx : nat) : memE (result unit InboxError) := faulty (fun w =>
  match mem_sessions w !! tx with
  | Some (d, _) =>
      (Ok tt, {| mem_committed := d; mem_sessions := delete tx (mem_sessions w);
                 mem_next := mem_next w; mem_faults := mem_faults w |})
  | None => (Error no_session, w)
  end).

#[export] Instance mem_store : InboxStore MemStore memE nat nat := {|
  begin _ := trigger mem_begin;
  commit _ tx := trigger (mem_commit tx);
  rollback _ tx :=
    trigger (faulty (fun w => (Ok tt, snd (mem_drop tx w))));
  claim _ conn r :=
    let k := key (req_consumer r) (req_id r) in
    trigger (on_session conn (fun d s => (Ok (claim_answer d k), (record_key k d, s))));
  claim_many _ conn b :=
    trigger (on_session conn (fun d s =>
      (Ok ((fun id => claim_answer d (key (batch_consumer b) id)) <$> batch_ids b),
       (record_all (batch_consumer b) (batch_ids b) d, s))));
  is_known_duplicate _ c id :=
    trigger (faulty (fun w =>
      (Ok (bool_decide (key c id ∈ recorded (mem_committed w))), w)));
  purge _ _ _ := Ret (Ok 0%Z);
|}.

#[export] Instance mem_lock_timeout : LockTimeout MemStore memE nat nat := {}.

#[export] Instance mem_savepoints : Savepoints MemStore memE nat nat := {|
  savepoint _ conn := trigger (on_session conn (fun d s => (Ok tt, (d, Some d))));
  release_and_savepoint _ conn :=
    trigger (on_session conn (fun d s =>
      match s with Some _ => (Ok tt, (d, Some d)) | None => (Error no_session, (d, s)) end));
  release _ conn :=
    trigger (on_session conn (fun d s =>
      match s with Some _ => (Ok tt, (d, None)) | None => (Error no_session, (d, s)) end));
  rollback_to _ conn :=
    trigger (on_session conn (fun d s =>
      match s with Some sp => (Ok tt, (sp, Some sp)) | None => (Error no_session, (d, s)) end));
  unclaim _ conn c id :=
    trigger (on_session conn (fun d s => (Ok tt, (unrecord_key (key c id) d, s))));
|}.

#[export] Instance mem_observe : Observe MemWorld nat (list str) := {|
  committed := mem_committed;
  working w conn := fst <$> mem_sessions w !! conn;
  saved w conn := mem_sessions w !! conn ≫= snd;
  healthy w := Forall (fun f => f = None) (mem_faults w);
|}.

(** An application statement on a session: appends to the effects table. *)
Definition mem_effect (conn : nat) (line : str) : prog memE (result unit HandlerError) :=
  r <- trigger (on_session conn (fun d s =>
         (Ok tt, (mkDb (recorded d) (app d ++ [line]), s)))) ;;
  Ret (map_err EInbox r).

Definition mem_empty : MemWorld :=
  {| mem_committed := mkDb ∅ []; mem_sessions := ∅; mem_next := 0; mem_faults := [] |}.

(** ** The contract holds *)

Ltac mem_solve :=
  intros; unfold quiet, answers; apply wp_trigger;
    [by simpl in *; repeat case_match; auto 6|];
  intros a w' Ha;
  unfold mem_ev, mem_begin, mem_commit, mem_drop, on_session, faulty in Ha;
  simpl in *;
  repeat match goal with
  | H : _ <$> _ = Some _ |- _ => apply fmap_Some in H as ([? ?] & ? & ?)
  | H : _ ≫= _ = Some _ |- _ => apply bind_Some in H as ([? ?] & ? & ?)
  | H : context [match mem_faults ?w with _ => _ end] |- _ =>
      destruct (mem_faults w) as [|[?|] ?] eqn:?
  | H : context [match mem_sessions ?w !! ?c with _ => _ end] |- _ =>
      destruct (mem_sessions w !! c) as [[? [?|]]|] eqn:?
  | _ => progress simplify_map_eq
  | H : mem_faults _ = _ |- _ => rewrite H in *; clear H
  end; rewrite ?Forall_cons; try case_bool_decide;
  try case_match; rewrite ?Forall_cons in *; naive_solver.

#[export] Instance mem_laws : InboxLaws MemStore mem_ev.
Proof. constructor; mem_solve. Qed.

#[export] Instance mem_savepoint_laws : SavepointLaws MemStore mem_ev.
Proof. constructor; mem_solve. Qed.

(** ** Concrete identifiers and worlds for examples *)

Definition mid (s : string) : MessageId := {| message_str := lit s |}.
Definition cid (s : string) : ConsumerId := {| consumer_str := lit s |}.

(** [recorded] keys, one open session numbered 0, no faults. *)
Definition mem_open (keys : list (str * str)) : MemWorld :=
  snd (exec mem_ev (trigger mem_begin)
    {| mem_committed := mkDb (list_to_set keys) []; mem_sessions := ∅;
       mem_next := 0; mem_faults := [] |}).

(** Decides the validity of a concrete identifier by running its validation. *)
Lemma message_ok_by (id : MessageId) :
  Message_Id.try_from (Message_Id.as_str id) = Ok id ->
  bool_decide (storable (Message_Id.as_str id)) = true -> message_ok id.
Proof. intros [_ H]%try_from_as_str Hs. by apply bool_decide_eq_true in Hs. Qed.

Lemma consumer_ok_by (c : ConsumerId) :
  Consumer_Id.try_from (Consumer_Id.as_str c) = Ok c ->
  bool_decide (storable (Consumer_Id.as_str c)) = true -> consumer_ok c.
Proof.
  unfold Consumer_Id.try_from.
  destruct (string_newtype_try_from _ _) eqn:H; [|done]. intros _ Hs.
  apply bool_decide_eq_true in Hs. by apply try_from_ok in H as [_ ?].
Qed.

Ltac ids_ok :=
  repeat first [ apply List.Forall_cons | apply List.Forall_nil
               | apply message_ok_by; vm_compute; reflexivity
               | apply consumer_ok_by; vm_compute; reflexivity
               | split | exact I ].
