(* ===== verification/Consumer.v ===== *)
(** * The consumer

    [src/src/consumer.rs]: [Consumer] over any store, with [process],
    [claim_many] and [process_many].  Programs are in terms of the store's
    methods; where a transaction is live across an await, [owning] runs its
    destructor if that await panics or is cancelled, and [<-?[tx]] is [?] with
    the transaction in scope, which drops it before returning the error. *)

From S2P Require Import Prelude Text Errors Durations Types Store.

(** [Result<Outcome<T>, HandlerError>] *)
Abbreviation ProcessResult T := (result (Outcome T) HandlerError).

Record Consumer (S : Type) := {
  store : S;
  id : ConsumerId;
  lock_timeout : option Duration;
}.
Arguments store {_} _.
Arguments id {_} _.
Arguments lock_timeout {_} _.

(** A consumer with a valid id and a lock timeout its backend accepts. *)
Definition consumer_wf {S} (self : Consumer S) : Prop :=
  consumer_ok (id self) /\ lock_timeout_ok (lock_timeout self).

(** ** Library functions of [Vec] and [HashMap] *)

(** [a.as_str().cmp(b.as_str())] is not greater. *)
Definition id_le (a b : MessageId) : Prop :=
  str_le (Message_Id.as_str a) (Message_Id.as_str b).

#[export] Instance id_le_dec a b : Decision (id_le a b).
Proof. unfold id_le. apply _. Defined.

(** [sort_unstable_by]; the result does not depend on the algorithm, see
    [sort_unique]. *)
Definition sort_unstable_by_str (ids : list MessageId) : list MessageId :=
  merge_sort id_le ids.

(** [Vec::dedup] removes consecutive repeats. *)
Fixpoint dedup (ids : list MessageId) : list MessageId :=
  match ids with
  | [] => []
  | a :: rest =>
      match rest with
      | b :: _ => if decide (a = b) then dedup rest else a :: dedup rest
      | [] => [a]
      end
  end.

(** [iter.collect::<HashMap<_, _>>()]: later entries overwrite earlier ones. *)
Definition collect_map {V} (l : list (str * V)) : gmap str V :=
  foldl (fun m kv => <[fst kv := snd kv]> m) ∅ l.

(** [ids.iter().map(|id| answers.insert(id, Duplicate).expect(..)).collect()]:
    [None] is the panic of [expect]. *)
Fixpoint take_answers (answers : gmap str Claim) (ids : list MessageId)
  : option (list Claim) :=
  match ids with
  | [] => Some []
  | id :: ids =>
      let k := Message_Id.as_str id in
      match answers !! k with
      | None => None
      | Some c => cons c <$> take_answers (<[k := Duplicate]> answers) ids
      end
  end.

Definition count_fresh (claims : list Claim) : nat :=
  length (filter (fun c => c = Fresh) claims).

(** The text of the length mismatch in [claim_many]. *)
Definition claims_mismatch (got sent : nat) : str :=
  lit "claim_many returned " ++ fmt_Z (Z.of_nat got) ++ lit " claims for " ++
  fmt_Z (Z.of_nat sent) ++ lit " ids".

(** The error [process_many] reports for a repeat of a failed id. *)
Definition earlier_failed (id : MessageId) : HandlerError :=
  EString (lit "an earlier delivery of `" ++ Message_Id.fmt id ++
           lit "` in this batch failed").

Module Impl.
Section Ops.
Context {S : Type} {E : Type -> Type} {Conn Tx : Type}.
Context `{Transaction E Conn Tx, !InboxStore S E Conn Tx}.

(** A future in which [tx] is live. *)
Definition owning {A} (tx : Tx) (p : prog E A) : prog E A :=
  scoped_with (drop_tx tx) p.

Definition bind_try_owning {A B} (tx : Tx) (p : prog E (result A InboxError))
    (f : A -> prog E (result B InboxError)) : prog E (result B InboxError) :=
  r <- owning tx p ;;
  match r with
  | Ok a => f a
  | Error e => _ <- drop_tx tx ;; Ret (Error e)
  end.

Notation "x <-?[ tx ] p ;; q" := (bind_try_owning tx p (fun x => q))
  (at level 100, tx at level 0, p at next level, right associativity).

Definition new (store : S) (id : ConsumerId) : Consumer S :=
  {| store := store; id := id; lock_timeout := None |}.

(** [InboxExt::consumer]; the store's clone is a handle on the same backend. *)
Definition consumer (self : S) (id : ConsumerId) : Consumer S := new self id.

Definition with_lock_timeout `{!LockTimeout S E Conn Tx} (self : Consumer S)
    (timeout : Duration) : Consumer S :=
  {| store := store self; id := id self; lock_timeout := Some timeout |}.

Definition is_known_duplicate (self : Consumer S) (mid : MessageId)
  : prog E (result bool InboxError) :=
  Store.is_known_duplicate (store self) (id self) mid.

Definition begin (self : Consumer S) : prog E (result Tx InboxError) :=
  Store.begin (store self).

Definition commit (self : Consumer S) (tx : Tx) : prog E (result unit InboxError) :=
  Store.commit (store self) tx.

Definition rollback (self : Consumer S) (tx : Tx) : prog E (result unit InboxError) :=
  Store.rollback (store self) tx.

Definition claim (self : Consumer S) (conn : Conn) (mid : MessageId)
  : prog E (result Claim InboxError) :=
  Store.claim (store self) conn
    {| req_consumer := id self; req_id := mid; req_lock_timeout := lock_timeout self |}.

Definition claim_many (self : Consumer S) (conn : Conn) (ids : list MessageId)
  : prog E (result (list Claim) InboxError) :=
  if decide (ids = []) then Ret (Ok [])
  else
    let unique := dedup (sort_unstable_by_str ids) in
    let batch := {| batch_consumer := id self; batch_ids := unique;
                    batch_lock_timeout := lock_timeout self |} in
    claims <-? Store.claim_many (store self) conn batch ;;
    if negb (length claims =? length unique)%nat then
      Ret (Error (Backend (EString (claims_mismatch (length claims) (length unique)))))
    else
      let answers := collect_map (zip (Message_Id.as_str <$> unique) claims) in
      match take_answers answers ids with
      | Some l => Ret (Ok l)
      | None => Panic "every id was sent to the backend"
      end.

Definition process {T} (self : Consumer S) (mid : MessageId)
    (handler : Conn -> prog E (result T HandlerError))
  : prog E (result (Outcome T) InboxError) :=
  tx <-? Store.begin (store self) ;;
  c <-?[tx] claim self (deref_mut tx) mid ;;
  match c with
  | Duplicate =>
      _ <-? Store.rollback (store self) tx ;;
      Ret (Ok OutcomeDuplicate)
  | Fresh =>
      r <- owning tx (handler (deref_mut tx)) ;;
      match r with
      | Ok value =>
          _ <-? Store.commit (store self) tx ;;
          Ret (Ok (Processed value))
      | Error e =>
          _ <- Store.rollback (store self) tx ;;
          Ret (Error (Handler e))
      end
  end.

Section Many.
Context `{!Savepoints S E Conn Tx} {T : Type}.
Variable self : Consumer S.
Variable conn : Conn.
Variable handler : Conn -> MessageId -> prog E (result T HandlerError).

(** The [for] loop of [process_many]: [pending] counts the fresh claims still
    to handle, [failed] the ids whose handler failed. *)
Fixpoint process_many_loop (items : list (MessageId * Claim)) (pending : nat)
    (failed : gset str) (results : list (ProcessResult T))
  : prog E (result (list (ProcessResult T)) InboxError) :=
  match items with
  | [] => Ret (Ok results)
  | (mid, Duplicate) :: items =>
      if decide (Message_Id.as_str mid ∈ failed) then
        process_many_loop items pending failed (results ++ [Error (earlier_failed mid)])
      else
        process_many_loop items pending failed (results ++ [Ok OutcomeDuplicate])
  | (mid, Fresh) :: items =>
      match pending with
      | O => Panic "attempt to subtract with overflow"
      | Datatypes.S pending =>
          r <- handler conn mid ;;
          fr <-? match r with
                 | Ok value => Ret (Ok (failed, results ++ [Ok (Processed value)]))
                 | Error e =>
                     _ <-? Store.rollback_to (store self) conn ;;
                     _ <-? Store.unclaim (store self) conn (id self) mid ;;
                     Ret (Ok ({[Message_Id.as_str mid]} ∪ failed, results ++ [Error e]))
                 end ;;
          _ <-? (if decide (0 < pending)%nat
                 then Store.release_and_savepoint (store self) conn
                 else Store.release (store self) conn) ;;
          process_many_loop items pending (fst fr) (snd fr)
      end
  end.
End Many.

Definition process_many `{!Savepoints S E Conn Tx} {T} (self : Consumer S)
    (ids : list MessageId) (handler : Conn -> MessageId -> prog E (result T HandlerError))
  : prog E (result (list (ProcessResult T)) InboxError) :=
  if decide (ids = []) then Ret (Ok [])
  else
    tx <-? Store.begin (store self) ;;
    results <-?[tx]
      (claims <-? claim_many self (deref_mut tx) ids ;;
       let pending := count_fresh claims in
       _ <-? (if decide (0 < pending)%nat
              then Store.savepoint (store self) (deref_mut tx)
              else Ret (Ok tt)) ;;
       process_many_loop self (deref_mut tx) handler (zip ids claims) pending ∅ []) ;;
    _ <-? Store.commit (store self) tx ;;
    Ret (Ok results).
End Ops.
End Impl.

(** ** Sorting and deduplicating the batch *)

#[export] Instance id_le_trans : Transitive id_le.
Proof. intros a b c. apply str_le_trans. Qed.

#[export] Instance id_le_total : Total id_le.
Proof. intros a b. apply str_le_total. Qed.

#[export] Instance id_le_antisymm : AntiSymm (=) id_le.
Proof.
  intros [a] [b] H1 H2. unfold id_le in *; simpl in *. f_equal. by apply (anti_symm str_le).
Qed.

#[export] Instance id_lt_trans : Transitive id_lt.
Proof. intros a b c. apply str_lt_trans. Qed.

Lemma id_le_lt a b : id_le a b -> a <> b -> id_lt a b.
Proof.
  unfold id_le, id_lt. intros [H|H]%str_le_lt_or_eq Hne; [done|].
  destruct a, b; simpl in *; congruence.
Qed.

(** Whatever sorting algorithm is used, the sorted vector is this one. *)
Lemma sort_unique (ids l : list MessageId) :
  l ≡ₚ ids -> Sorted id_le l -> l = sort_unstable_by_str ids.
Proof.
  intros Hp Hs. apply (StronglySorted_unique id_le).
  - by apply Sorted_StronglySorted; [apply _|].
  - by apply StronglySorted_merge_sort; apply _.
  - unfold sort_unstable_by_str. by rewrite merge_sort_Permutation.
Qed.

Lemma dedup_cons2 a b ids :
  dedup (a :: b :: ids)
  = if decide (a = b) then dedup (b :: ids) else a :: dedup (b :: ids).
Proof. done. Qed.

Lemma elem_of_dedup x ids : x ∈ dedup ids <-> x ∈ ids.
Proof.
  induction ids as [|a [|b ids] IH]; [done|done|].
  rewrite dedup_cons2. case_decide as Heq.
  - rewrite IH, !elem_of_cons. subst; tauto.
  - rewrite elem_of_cons, IH. by rewrite !elem_of_cons.
Qed.

Lemma dedup_sorted ids : StronglySorted id_le ids -> StronglySorted id_lt (dedup ids).
Proof.
  induction 1 as [|a ids Hs IH Hf]; [constructor|].
  destruct ids as [|b ids]; [repeat constructor|]. rewrite dedup_cons2.
  case_decide as Heq; [done|]. constructor; [done|].
  apply Forall_forall. intros x Hx. rewrite elem_of_dedup in Hx.
  assert (id_lt a b) as Hab by (apply id_le_lt; [by inversion Hf|done]).
  apply elem_of_cons in Hx as [->|Hx]; [done|].
  destruct (decide (b = x)) as [<-|Hne]; [done|].
  transitivity b; [done|]. apply id_le_lt; [|done].
  inversion Hs as [|? ? ? Hb]; subst. rewrite Forall_forall in Hb. by apply Hb.
Qed.

Lemma elem_of_unique x ids : x ∈ dedup (sort_unstable_by_str ids) <-> x ∈ ids.
Proof.
  rewrite elem_of_dedup. unfold sort_unstable_by_str. by rewrite merge_sort_Permutation.
Qed.

Lemma unique_sorted ids : StronglySorted id_lt (dedup (sort_unstable_by_str ids)).
Proof. apply dedup_sorted, StronglySorted_merge_sort; apply _. Qed.

(** ** Answering in input order *)

Lemma collect_map_lookup {V} (l : list (str * V)) (m : gmap str V) k v :
  NoDup l.*1 -> (k, v) ∈ l -> foldl (fun m kv => <[fst kv := snd kv]> m) m l !! k = Some v.
Proof.
  revert m; induction l as [|[k' v'] l IH]; intros m Hnd Hin; [by apply not_elem_of_nil in Hin|].
  simpl in *. apply NoDup_cons in Hnd as [Hni Hnd].
  apply elem_of_cons in Hin as [[= -> ->]|Hin]; [|by apply IH].
  clear IH Hnd. assert (<[k' := v']> m !! k' = Some v') as Hm by apply lookup_insert_eq.
  revert Hm; generalize (<[k' := v']> m).
  induction l as [|[k v] l IH]; intros m' Hm; simpl in *; [done|].
  apply not_elem_of_cons in Hni as [Hne Hni].
  apply IH; [done|]. by rewrite lookup_insert_ne.
Qed.

Lemma take_answers_claim_each {App} (c : ConsumerId) (ids : list MessageId) (d : Db App) (answers : gmap str Claim) :
  (forall i, i ∈ ids -> answers !! Message_Id.as_str i = Some (claim_answer d (key c i))) ->
  take_answers answers ids = Some (fst (claim_each c ids d)).
Proof.
  revert d answers; induction ids as [|i ids IH]; intros d answers Ha; simpl; [done|].
  rewrite Ha by left.
  rewrite (IH (record_key (key c i) d)).
  { by destruct (claim_each c ids (record_key (key c i) d)). }
  intros j Hj. destruct (decide (i = j)) as [->|Hne].
  - rewrite lookup_insert_eq. f_equal. symmetry. apply claim_answer_Duplicate.
    simpl. set_solver.
  - rewrite lookup_insert_ne.
    + rewrite claim_answer_record_ne; [|by intros ->%(inj (key c))]. apply Ha. by right.
    + intros Heq. apply Hne. destruct i, j; simpl in *. by f_equal.
Qed.

(** The map built from a complete set of answers has an entry for every id. *)
Lemma collect_map_answers (f : MessageId -> Claim) ids i :
  NoDup ids -> i ∈ ids ->
  collect_map (zip (Message_Id.as_str <$> ids) (f <$> ids)) !! Message_Id.as_str i
  = Some (f i).
Proof.
  intros Hnd Hi. unfold collect_map.
  rewrite zip_with_fmap_l, zip_with_fmap_r, zip_with_diag.
  apply collect_map_lookup.
  - rewrite <- list_fmap_compose.
    eapply NoDup_fmap_2; [|done]. intros [a] [b]; simpl. congruence.
  - apply list_elem_of_fmap. eauto.
Qed.
