(* ===== verification/ClaimMany.v ===== *)
(** * Batch claims

    What [Consumer::claim_many] promises: to the backend (the batch it sends),
    to its caller whatever the backend answers, and, over a store that keeps
    its contract, that one batch call is the same as one claim per message. *)

From S2P Require Import Prelude Text Errors Durations Types Store MemStore Consumer.

(** ** Over any store *)

Section AnyStore.
Context {S : Type} {E : Type -> Type} {Conn Tx W : Type}.
Context (ev : forall A, E A -> W -> A * W).
Context `{Transaction E Conn Tx, !InboxStore S E Conn Tx}.
Implicit Types (self : Consumer S) (ids : list MessageId).

Definition sent_batch self ids : ClaimBatch :=
  {| batch_consumer := id self; batch_ids := dedup (sort_unstable_by_str ids);
     batch_lock_timeout := lock_timeout self |}.

Lemma take_answers_total (answers : gmap str Claim) ids :
  (forall i, i ∈ ids -> is_Some (answers !! Message_Id.as_str i)) ->
  exists l, take_answers answers ids = Some l /\ length l = length ids /\
    (forall j i, ids !! j = Some i -> answers !! Message_Id.as_str i = Some Duplicate ->
                 l !! j = Some Duplicate) /\
    (forall j k i, j < k -> ids !! j = Some i -> ids !! k = Some i ->
                   l !! k = Some Duplicate).
Proof.
  revert answers; induction ids as [|i ids IH]; intros answers Ha; simpl.
  { exists []. split; [done|]. split; [done|]. split; intros; simplify_eq/=. }
  destruct (Ha i) as [c Hc]; [by left|]. rewrite Hc.
  destruct (IH (<[Message_Id.as_str i := Duplicate]> answers)) as (l & -> & Hl & Hd & Hr).
  { intros j Hj. rewrite lookup_insert_is_Some'. right. apply Ha. by right. }
  exists (c :: l). simpl. split; [done|]. split; [by rewrite Hl|]. split.
  - intros [|j] x Hx Hdup; simplify_eq/=; [done|]. eapply Hd; [done|].
    rewrite lookup_insert. by case_decide.
  - intros [|j] [|k] x Hjk Hj Hk; simplify_eq/=; try lia.
    + eapply Hd; [done|]. apply lookup_insert_eq.
    + eapply (Hr j k); [lia|done|done].
Qed.

Lemma zip_answers_total ids (claims : list Claim) i :
  NoDup ids -> length claims = length ids -> i ∈ ids ->
  is_Some (collect_map (zip (Message_Id.as_str <$> ids) claims) !! Message_Id.as_str i).
Proof.
  intros Hnd Hlen (j & Hj)%list_elem_of_lookup.
  destruct (lookup_lt_is_Some_2 claims j) as [c Hc].
  { rewrite Hlen. by eapply lookup_lt_Some. }
  exists c. apply collect_map_lookup.
  - rewrite fst_zip by (rewrite length_fmap; lia).
    eapply NoDup_fmap_2; [|done]. intros [a] [b]; simpl. congruence.
  - apply list_elem_of_lookup. exists j. apply lookup_zip_Some.
    rewrite list_lookup_fmap, Hj. done.
Qed.

(** The continuation of the backend call. *)
Definition answer_batch ids (batch : ClaimBatch) (claims : list Claim)
  : prog E (result (list Claim) InboxError) :=
  if negb (length claims =? length (batch_ids batch))%nat then
    Ret (Error (Backend (EString
      (claims_mismatch (length claims) (length (batch_ids batch))))))
  else
    match take_answers
            (collect_map (zip (Message_Id.as_str <$> batch_ids batch) claims)) ids with
    | Some l => Ret (Ok l)
    | None => Panic "every id was sent to the backend"
    end.

Lemma claim_many_unfold self (conn : Conn) ids :
  ids <> [] ->
  Impl.claim_many self conn ids
  = bind_try (Store.claim_many (store self) conn (sent_batch self ids))
             (answer_batch ids (sent_batch self ids)).
Proof. intros Hne. unfold Impl.claim_many. by rewrite decide_False. Qed.

Lemma sent_batch_ok self ids :
  consumer_wf self -> Forall message_ok ids -> batch_ok (sent_batch self ids).
Proof.
  intros [Hc Ht] Hids. split; [done|]. split; [|split; [apply unique_sorted|done]].
  rewrite Forall_forall in *. intros i Hi. simpl in Hi. rewrite elem_of_unique in Hi. auto.
Qed.

(** Answers of the right number give every requested id one. *)
Lemma answers_total self ids (claims : list Claim) :
  length claims = length (batch_ids (sent_batch self ids)) ->
  exists l,
    take_answers (collect_map (zip (Message_Id.as_str <$> batch_ids (sent_batch self ids)) claims)) ids
      = Some l /\
    length l = length ids /\
    (forall j k i, j < k -> ids !! j = Some i -> ids !! k = Some i -> l !! k = Some Duplicate).
Proof.
  intros Hlen. edestruct take_answers_total as (l & Hl & Hlength & _ & Hrep).
  - intros i Hi. apply zip_answers_total; [|exact Hlen|].
    + apply sorted_ids_NoDup, unique_sorted.
    + by apply elem_of_unique.
  - by exists l.
Qed.

(** What follows the backend call awaits nothing more, and returns. *)
Lemma answer_batch_returns self ids (claims : list Claim) :
  exists r, answer_batch ids (sent_batch self ids) claims = Ret r.
Proof.
  unfold answer_batch. destruct (Nat.eqb_spec (length claims) (length (batch_ids (sent_batch self ids))))
    as [Hlen|Hlen]; simpl; [|by eexists].
  destruct (answers_total self ids claims Hlen) as (l & Hl & _). simpl in Hl. rewrite Hl. by eexists.
Qed.

(** C16 (what the backend is sent). [claim_many] of no ids never reaches the
    backend; otherwise it is exactly one backend call, with the consumer's
    id and lock timeout and a batch of exactly the requested ids, unique and
    sorted by bytes, whatever the order and the repeats of the input: whatever
    that call answers, [claim_many] then returns without awaiting anything
    else. *)
Theorem claim_many_sends_sorted_batch self (conn : Conn) ids :
  consumer_wf self -> Forall message_ok ids ->
  Impl.claim_many self conn [] = Ret (Ok []) /\
  (ids <> [] ->
   exists batch k,
     Impl.claim_many self conn ids
     = bind_try (Store.claim_many (store self) conn batch) k /\
     (forall claims, exists r, k claims = Ret r) /\
     batch_ok batch /\ batch_consumer batch = id self /\
     batch_lock_timeout batch = lock_timeout self /\
     (forall i, i ∈ batch_ids batch <-> i ∈ ids) /\
     (forall ids', ids' ≡ₚ ids -> batch_ids (sent_batch self ids') = batch_ids batch)).
Proof.
  intros Hc Hids. split; [done|]. intros Hne.
  exists (sent_batch self ids), (answer_batch ids (sent_batch self ids)).
  split; [by apply claim_many_unfold|]. split; [apply answer_batch_returns|].
  split; [by apply sent_batch_ok|]. split; [done|]. split; [done|].
  split; [intros i; apply elem_of_unique|].
  intros ids' Hp. simpl. f_equal. apply sort_unique.
  - unfold sort_unstable_by_str. by rewrite merge_sort_Permutation.
  - apply StronglySorted_Sorted, StronglySorted_merge_sort; apply _.
Qed.

(** C17 (no panic, no double run). Whatever the backend answers: a wrong number
    of claims is a [Backend] error naming both numbers; otherwise the
    [expect] never fires, there is one claim per requested id in input order,
    and every repeat of an id is answered [Duplicate]. *)
Theorem claim_many_total self (conn : Conn) ids b b' (w w' : W) claims :
  ids <> [] ->
  run ev b (Store.claim_many (store self) conn (sent_batch self ids)) w
    = (Done (Ok claims), b', w') ->
  if decide (length claims = length (batch_ids (sent_batch self ids)))
  then exists l,
    run ev b (Impl.claim_many self conn ids) w = (Done (Ok l), b', w') /\
    length l = length ids /\
    (forall j k i, j < k -> ids !! j = Some i -> ids !! k = Some i ->
                   l !! k = Some Duplicate)
  else
    run ev b (Impl.claim_many self conn ids) w
    = (Done (Error (Backend (EString
         (claims_mismatch (length claims) (length (batch_ids (sent_batch self ids))))))),
       b', w').
Proof.
  intros Hne Hrun. rewrite claim_many_unfold by done.
  unfold bind_try. rewrite run_bind, Hrun. unfold answer_batch.
  case_decide as Hlen.
  - rewrite (proj2 (Nat.eqb_eq _ _) Hlen). simpl.
    destruct (answers_total self ids claims Hlen) as (l & Hl & Hlength & Hrep).
    simpl in Hl. rewrite Hl. by exists l.
  - apply Nat.eqb_neq in Hlen. by rewrite Hlen.
Qed.
End AnyStore.

(** ** Over a store that keeps its contract *)

Section Lawful.
Context {S : Type} {E : Type -> Type} {Conn Tx W App : Type}.
Context (ev : forall A, E A -> W -> A * W).
Context `{Transaction E Conn Tx, !InboxStore S E Conn Tx, !Observe W Conn App}.
Context `{!InboxLaws S ev}.
Implicit Types (self : Consumer S) (ids : list MessageId).

Lemma claim_many_wp self (conn : Conn) ids (w : W) (d : Db App) :
  working w conn = Some d -> consumer_wf self -> Forall message_ok ids ->
  wp ev (Impl.claim_many self conn ids) (claims_post conn (id self) ids [] w d) w.
Proof.
  intros Hw Hc Hids. destruct (decide (ids = [])) as [->|Hne].
  { apply wp_ret. split; [apply quiet_refl|]. done. }
  rewrite claim_many_unfold by done.
  apply wp_bind_try. eapply wp_mono.
  { apply law_claim_many; [done|]. by apply sent_batch_ok. }
  intros [[cs|e]|m|] w1; simpl; [|by intros [? ?]..].
  intros (Hq & -> & Hw1 & Hs1). unfold answer_batch; simpl.
  rewrite length_fmap, Nat.eqb_refl; simpl.
  rewrite (take_answers_claim_each (id self) ids d).
  - apply wp_ret. split; [done|]. simpl. rewrite claim_each_db, Hw1.
    split; [done|]. split; [|done]. f_equal. apply record_all_ext.
    intros i. apply elem_of_unique.
  - intros i Hi. apply (collect_map_answers (fun i => claim_answer d (key (id self) i))).
    + apply sorted_ids_NoDup, unique_sorted.
    + by apply elem_of_unique.
Qed.

(** C15 (one batch is one claim per message). Over a store that keeps its
    contract, [claim_many] and the loop that claims the ids one by one in input
    order give the same answers and leave the transaction in the same state:
    each id gets the database's answer the first time and [Duplicate] after. *)
Theorem claim_many_as_single_claims self (conn : Conn) ids (w : W) (d : Db App) :
  working w conn = Some d -> consumer_wf self -> Forall message_ok ids ->
  let same o w' :=
    quiet w w' /\
    answers w (fun cs =>
      cs = fst (claim_each (id self) ids d) /\
      working w' conn = Some (snd (claim_each (id self) ids d)) /\
      saved w' conn = saved w conn) o in
  wp ev (Impl.claim_many self conn ids) same w /\
  wp ev (default_claim_many (Store.claim (store self)) conn
           {| batch_consumer := id self; batch_ids := ids;
              batch_lock_timeout := lock_timeout self |}) same w.
Proof.
  intros Hw Hc Hids same. split.
  - by apply claim_many_wp.
  - destruct Hc as [Hc Ht].
    by apply (default_claim_many_loop_wp ev (store self) conn
      {| batch_consumer := id self; batch_ids := ids;
         batch_lock_timeout := lock_timeout self |} ids [] w d).
Qed.
End Lawful.

(** ** Witnesses *)

Definition conformance_batch : list MessageId := [mid "c"; mid "b"; mid "a"; mid "c"].
Definition conformance_world : MemWorld := mem_open [key (cid "x") (mid "b")].
Definition conformance_consumer : Consumer MemStore := Impl.new memStore (cid "x").

Lemma claim_many_sends_sorted_batch_witness :
  Impl.claim_many conformance_consumer 0 conformance_batch <> Ret (Ok []) /\
  batch_ids (sent_batch conformance_consumer conformance_batch)
    = [mid "a"; mid "b"; mid "c"] /\
  exists batch k,
    Impl.claim_many conformance_consumer 0 conformance_batch
      = bind_try (Store.claim_many memStore 0 batch) k /\
    (forall claims, exists r, k claims = Ret r) /\
    batch_ok batch /\ (forall i, i ∈ batch_ids batch <-> i ∈ conformance_batch).
Proof.
  split; [discriminate|]. split; [vm_compute; reflexivity|].
  destruct (claim_many_sends_sorted_batch conformance_consumer 0 conformance_batch)
    as [_ H]; [ids_ok..|].
  destruct H as (batch & k & Heq & Hk & Hok & _ & _ & Hin & _); [discriminate|].
  exists batch, k. split; [exact Heq|]. split; [exact Hk|]. split; [exact Hok|exact Hin].
Defined.

Lemma claim_many_total_witness :
  exists l,
    run mem_ev None (Impl.claim_many conformance_consumer 0 conformance_batch)
      conformance_world
    = (Done (Ok l), None,
       snd (run mem_ev None (Store.claim_many memStore 0
              (sent_batch conformance_consumer conformance_batch)) conformance_world)) /\
    length l = 4.
Proof.
  pose proof (claim_many_total mem_ev conformance_consumer 0 conformance_batch None None
    conformance_world
    (snd (run mem_ev None (Store.claim_many memStore 0
              (sent_batch conformance_consumer conformance_batch)) conformance_world))
    [Fresh; Duplicate; Fresh]) as H.
  rewrite decide_True in H by (vm_compute; reflexivity).
  destruct H as (l & Hl & Hlen & _); [discriminate|vm_compute; reflexivity|].
  exists l. split; [exact Hl|exact Hlen].
Defined.

Lemma claim_many_as_single_claims_witness :
  fst (exec mem_ev (Impl.claim_many conformance_consumer 0 conformance_batch)
         conformance_world)
    = Done (Ok [Fresh; Duplicate; Fresh; Duplicate]) /\
  wp mem_ev (Impl.claim_many conformance_consumer 0 conformance_batch)
    (fun _ w' => committed w' = committed conformance_world) conformance_world.
Proof.
  split; [vm_compute; reflexivity|].
  eapply wp_mono.
  - apply (claim_many_as_single_claims mem_ev conformance_consumer 0 conformance_batch
             conformance_world (mkDb {[key (cid "x") (mid "b")]} [])); [|ids_ok..].
    vm_compute; reflexivity.
  - intros o w' [[H _] _]. exact H.
Defined.
