(* ===== verification/Process.v ===== *)
(** * Processing one message

    What [Consumer::process] promises over a store that keeps its contract:
    every way a call can end, all-or-nothing under failure, panic and
    cancellation, and at most one processing of a message over any sequence of
    deliveries. *)

From S2P Require Import Prelude Text Errors Durations Types Store MemStore Consumer.

(** ** What a handler may do *)

(** An abstract handler: on a database [d] it may return [v] leaving [d'], may
    fail, or may panic. *)
Record HandlerSpec (App T : Type) := {
  returns : Db App -> T -> Db App -> Prop;
  fails : Db App -> HandlerError -> Prop;
  panics : Db App -> string -> Prop;
}.
Arguments returns {_ _} _ _ _ _.
Arguments fails {_ _} _ _ _.
Arguments panics {_ _} _ _ _.

Section Contract.
Context {E : Type -> Type} {Conn W App T : Type}.
Context (ev : forall A, E A -> W -> A * W).
Context `{!Observe W Conn App}.

(** How a run of the handler [h] on [conn], started in [w] on [d], may end.
    After an error the transaction may be unusable; its savepoint is still there
    unless the backend failed. *)
Definition handled (conn : Conn) (h : HandlerSpec App T) (w : W) (d : Db App)
    (o : outcome (result T HandlerError)) (w' : W) : Prop :=
  quiet w w' /\
  match o with
  | Done (Ok v) => exists d', returns h d v d' /\
      working w' conn = Some d' /\ saved w' conn = saved w conn
  | Done (Error e) => fails h d e /\
      (saved w' conn = saved w conn \/ (saved w' conn = None /\ ~ healthy w))
  | Panicked m => panics h d m
  | Cancelled => True
  end.

(** The program [p] behaves as [h] on the transaction of [conn], and touches
    the database only through it. *)
Definition meets (conn : Conn) (p : prog E (result T HandlerError))
    (h : HandlerSpec App T) : Prop :=
  forall w d, working w conn = Some d -> wp ev p (handled conn h w d) w.

(** The same, but if [up] only as long as the backend is healthy. *)
Definition meets_while (up : Prop) (conn : Conn) (p : prog E (result T HandlerError))
    (h : HandlerSpec App T) : Prop :=
  forall w d, (up -> healthy w) -> working w conn = Some d -> wp ev p (handled conn h w d) w.

Lemma meets_meets_while up conn p h : meets conn p h -> meets_while up conn p h.
Proof. intros Hp w d _. apply Hp. Qed.
End Contract.

(** The handler leaves the consumer's own inbox rows alone. *)
Definition keeps_keys {App T} (c : ConsumerId) (h : HandlerSpec App T) : Prop :=
  forall d v d', returns h d v d' ->
  forall m, key c m ∈ recorded d' <-> key c m ∈ recorded d.

(** ** How a call can end *)

(** [before] and [after] are the committed databases around the call; [up]
    says the backend was healthy. *)
Inductive process_ends {App T} (k : str * str) (h : HandlerSpec App T) (up : Prop)
    (before : Db App) : outcome (result (Outcome T) InboxError) -> Db App -> Prop :=
| ends_processed v after :
    k ∉ recorded before -> returns h (record_key k before) v after ->
    process_ends k h up before (Done (Ok (Processed v))) after
| ends_duplicate :
    k ∈ recorded before ->
    process_ends k h up before (Done (Ok OutcomeDuplicate)) before
| ends_handler_failed e :
    k ∉ recorded before -> fails h (record_key k before) e ->
    process_ends k h up before (Done (Error (Handler e))) before
| ends_store_failed e :
    ~ up -> process_ends k h up before (Done (Error e)) before
| ends_commit_unknown e v after :
    ~ up -> k ∉ recorded before -> returns h (record_key k before) v after ->
    process_ends k h up before (Done (Error e)) after
| ends_panicked m :
    k ∉ recorded before -> panics h (record_key k before) m ->
    process_ends k h up before (Panicked m) before
| ends_cancelled :
    process_ends k h up before Cancelled before
| ends_cancelled_in_commit v after :
    k ∉ recorded before -> returns h (record_key k before) v after ->
    process_ends k h up before Cancelled after.

(** ** A live transaction is dropped on the way out *)

Section Owning.
Context {E : Type -> Type} {Conn Tx W : Type} (ev : forall A, E A -> W -> A * W).
Context `{Transaction E Conn Tx}.

(** [rel] is what dropping a transaction does to the world. *)
Variable rel : W -> W -> Prop.
Hypothesis rel_drop : forall tx w,
  wp ev (drop_tx tx) (fun o w' => rel w w' /\ forall m, o <> Panicked m) w.

Lemma wp_owning_rel {A} (tx : Tx) (p : prog E A) (Q : outcome A -> W -> Prop) w :
  wp ev p (fun o w' => match o with
    | Done a => Q (Done a) w'
    | _ => forall w'', rel w' w'' -> Q o w''
    end) w ->
  wp ev (Impl.owning tx p) Q w.
Proof.
  intros H0. apply wp_scoped_with. eapply wp_mono; [exact H0|].
  intros [a|s|] w'; [done| |]; intros HQ;
    (eapply wp_mono; [apply rel_drop|]); intros o w'' [Hq _]; auto.
Qed.

Lemma wp_bind_try_owning_rel {A B} (tx : Tx) (p : prog E (result A InboxError))
    (f : A -> prog E (result B InboxError)) (Q : outcome (result B InboxError) -> W -> Prop) w :
  wp ev p (fun o w' => match o with
    | Done (Ok a) => wp ev (f a) Q w'
    | Done (Error e) => forall w'', rel w' w'' -> Q (Done (Error e)) w'' /\ Q Cancelled w''
    | Panicked s => forall w'', rel w' w'' -> Q (Panicked s) w''
    | Cancelled => forall w'', rel w' w'' -> Q Cancelled w''
    end) w ->
  wp ev (Impl.bind_try_owning tx p f) Q w.
Proof.
  intros H0. unfold Impl.bind_try_owning. apply wp_bind, wp_owning_rel.
  eapply wp_mono; [exact H0|]. intros [[a|e]|s|] w'; simpl; [done| |done|done].
  intros HQ. apply wp_bind. eapply wp_mono; [apply rel_drop|].
  intros [[]|s|] w'' [Hq Hp]; simpl.
  - apply wp_ret. by apply HQ.
  - by destruct (Hp s).
  - by apply HQ.
Qed.
End Owning.

Section Process.
Context {S : Type} {E : Type -> Type} {Conn Tx W App : Type}.
Context (ev : forall A, E A -> W -> A * W).
Context `{Transaction E Conn Tx, !InboxStore S E Conn Tx, !Observe W Conn App}.
Context `{!InboxLaws S ev}.
Context {T : Type}.
Implicit Types (self : Consumer S) (m : MessageId) (h : HandlerSpec App T).

(** An interruption while [tx] is live drops it, which commits nothing. *)
Lemma wp_owning {A} (tx : Tx) (p : prog E A) (Q : outcome A -> W -> Prop) w :
  wp ev p (fun o w' => match o with
    | Done a => Q (Done a) w'
    | _ => forall w'', quiet w' w'' -> Q o w''
    end) w ->
  wp ev (Impl.owning tx p) Q w.
Proof. apply wp_owning_rel. intros tx' w'. apply law_drop. Qed.

Lemma wp_bind_try_owning {A B} (tx : Tx) (p : prog E (result A InboxError))
    (f : A -> prog E (result B InboxError)) (Q : outcome (result B InboxError) -> W -> Prop) w :
  wp ev p (fun o w' => match o with
    | Done (Ok a) => wp ev (f a) Q w'
    | Done (Error e) =>
        forall w'', quiet w' w'' -> Q (Done (Error e)) w'' /\ Q Cancelled w''
    | Panicked s => forall w'', quiet w' w'' -> Q (Panicked s) w''
    | Cancelled => forall w'', quiet w' w'' -> Q Cancelled w''
    end) w ->
  wp ev (Impl.bind_try_owning tx p f) Q w.
Proof. apply wp_bind_try_owning_rel. intros tx' w'. apply law_drop. Qed.

(** The postcondition of [process], from a world whose committed database is
    [before] and whose health at the start was [up]. *)
Definition process_post (k : str * str) h (up : Prop) (before : Db App)
    (o : outcome (result (Outcome T) InboxError)) (w' : W) : Prop :=
  process_ends k h up before o (committed w') /\ (up -> healthy w').

(** From a fresh claim on: run the handler, commit or roll back. *)
Lemma process_fresh_wp self (tx : Tx) handler h k live (up : Prop) before (w : W) :
  meets_while ev live (deref_mut tx) (handler (deref_mut tx)) h -> (live -> healthy w) ->
  committed w = before -> (up -> healthy w) -> k ∉ recorded before ->
  working w (deref_mut tx) = Some (record_key k before) ->
  wp ev (r <- Impl.owning tx (handler (deref_mut tx)) ;;
         match r with
         | Ok value => _ <-? Store.commit (store self) tx ;; Ret (Ok (Processed value))
         | Error e => _ <- Store.rollback (store self) tx ;; Ret (Error (Handler e))
         end) (process_post k h up before) w.
Proof.
  intros Hh Hl Hc Hu Hk Hw. unfold process_post.
  apply wp_bind, wp_owning. eapply wp_mono; [by apply Hh|].
  intros [[v|e]|s|] w1 [[Hc1 Hu1] Ha]; simpl in Ha |- *; rewrite Hc in Hc1.
  - destruct Ha as (d' & Hr & Hw1 & _).
    apply wp_bind_try. eapply wp_mono; [by apply law_commit|].
    intros [[[]|e]|s|] w2 (Hor & Hu2 & Ha); simpl in Ha |- *; [| |done|].
    + apply wp_ret. rewrite Ha. split; [by constructor|auto].
    + split; [|auto]. destruct Hor as [-> | ->]; [rewrite Hc1; constructor; tauto|].
      eapply ends_commit_unknown; eauto.
    + split; [|auto]. destruct Hor as [-> | ->]; [rewrite Hc1; constructor|].
      eapply ends_cancelled_in_commit; eauto.
  - destruct Ha as [Hf _]. apply wp_bind. eapply wp_mono; [apply law_rollback|].
    intros [r|s|] w2 [[Hc2 Hu2] Ha]; simpl in Ha |- *; [|done|].
    + apply wp_ret. rewrite Hc2, Hc1. split; [by constructor|auto].
    + rewrite Hc2, Hc1. split; [constructor|auto].
  - intros w2 [Hc2 Hu2]. rewrite Hc2, Hc1. split; [by constructor|auto].
  - intros w2 [Hc2 Hu2]. rewrite Hc2, Hc1. split; [constructor|auto].
Qed.

Lemma process_wp (live : Prop) self m handler h (w : W) :
  consumer_wf self -> message_ok m ->
  (forall conn, meets_while ev live conn (handler conn) h) -> (live -> healthy w) ->
  wp ev (Impl.process self m handler)
    (process_post (key (id self) m) h (healthy w) (committed w)) w.
Proof.
  intros [Hc Ht] Hm Hh Hl. unfold Impl.process.
  apply wp_bind_try. eapply wp_mono; [apply law_begin|].
  intros [[tx|e]|s|] w1 [[Hc1 Hu1] Ha]; simpl in Ha |- *; try done;
    [|unfold process_post; rewrite Hc1; split; [by constructor|done]..].
  destruct Ha as [Hw1 _].
  apply wp_bind_try_owning. eapply wp_mono; [by apply law_claim|].
  intros [[c|e]|s|] w2 [[Hc2 Hu2] Ha]; simpl in Ha |- *; try done; rewrite Hc1 in Hc2.
  - destruct Ha as (-> & Hw2 & _). unfold claim_answer. case_decide as Hk.
    + apply wp_bind_try. eapply wp_mono; [apply law_rollback|].
      intros [[[]|e]|s|] w3 [[Hc3 Hu3] Ha]; simpl in Ha |- *; try done;
        [apply wp_ret|..]; unfold process_post; rewrite Hc3, Hc2;
        (split; [constructor; tauto|auto]).
    + apply (process_fresh_wp _ _ _ _ _ live); auto.
  - intros w3 [Hc3 Hu3]. unfold process_post. rewrite Hc3, Hc2.
    split; (split; [constructor; tauto|auto]).
  - intros w3 [Hc3 Hu3]. unfold process_post. rewrite Hc3, Hc2.
    split; [constructor|auto].
Qed.

(** C4 (every end of [process]). Over a store that keeps its contract, with a
    handler that works through its connection, a call of [process] ends in one
    of the ways of [process_ends], whatever fails and wherever it is
    cancelled: a fresh message with a successful handler commits the claim
    together with the handler's effects; a recorded message is answered
    [Duplicate], runs no handler and changes nothing; a failed handler is
    reported as [Handler] even if the rollback fails, and nothing is
    committed; only an unhealthy backend produces another error; a panic of
    the handler or a cancellation drops the transaction. *)
Theorem process_ends_sound self m (handler : Conn -> prog E (result T HandlerError)) h
    (w : W) (b : budget) :
  consumer_wf self -> message_ok m ->
  (forall conn, meets ev conn (handler conn) h) ->
  let '(o, _, w') := run ev b (Impl.process self m handler) w in
  process_ends (key (id self) m) h (healthy w) (committed w) o (committed w') /\
  (healthy w -> healthy w').
Proof.
  intros Hc Hm Hh. refine (process_wp False self m handler h w Hc Hm _ _ b); [|done].
  intros conn. by apply meets_meets_while.
Qed.

(** C12 (functional behaviour). On a healthy backend, run to completion with a
    handler that behaves there and does not panic, [process] always returns: [Duplicate] exactly
    when the message was already recorded, otherwise the handler's own result,
    [Processed] with its effects and the claim committed, or [Handler] with
    nothing committed. *)
Theorem process_healthy self m (handler : Conn -> prog E (result T HandlerError)) h
    (w w' : W) o :
  consumer_wf self -> message_ok m ->
  (forall conn, meets_while ev True conn (handler conn) h) ->
  (forall d s, ~ panics h d s) -> healthy w ->
  exec ev (Impl.process self m handler) w = (o, w') ->
  let k := key (id self) m in
  if decide (k ∈ recorded (committed w))
  then o = Done (Ok OutcomeDuplicate) /\ committed w' = committed w
  else (exists v, o = Done (Ok (Processed v)) /\
                  returns h (record_key k (committed w)) v (committed w')) \/
       (exists e, o = Done (Error (Handler e)) /\
                  fails h (record_key k (committed w)) e /\ committed w' = committed w).
Proof.
  intros Hc Hm Hh Hnp Hup Hx k.
  destruct (wp_exec ev _ _ _ _ _ (process_wp True self m handler h w Hc Hm Hh (fun _ => Hup)) Hx)
    as [[He _] Hnc].
  fold k in He. remember (committed w') as after eqn:Hafter.
  destruct He; case_decide; try done; try (by exfalso; eapply Hnp; eauto); eauto 6.
Qed.

(** C11 (all or nothing). However a call ends, the committed database is the one
    before, or the one the handler left on top of the claim; in the second case
    the message was new and is now recorded, so the effects never commit
    without the record nor the record without the effects. *)
Theorem process_all_or_nothing self m (handler : Conn -> prog E (result T HandlerError)) h
    (w : W) (b : budget) :
  consumer_wf self -> message_ok m ->
  (forall conn, meets ev conn (handler conn) h) -> keeps_keys (id self) h ->
  let k := key (id self) m in
  let '(o, _, w') := run ev b (Impl.process self m handler) w in
  committed w' = committed w \/
  (k ∉ recorded (committed w) /\ k ∈ recorded (committed w') /\
   exists v, returns h (record_key k (committed w)) v (committed w')).
Proof.
  intros Hc Hm Hh Hkk k.
  pose proof (process_wp False self m handler h w Hc Hm
    (fun conn => meets_meets_while _ _ _ _ _ (Hh conn)) ltac:(done) b) as Hp.
  destruct (run ev b (Impl.process self m handler) w) as [[o b'] w'].
  destruct Hp as [He _]. fold k in He. remember (committed w') as after eqn:Hafter.
  assert (forall v a, returns h (record_key k (committed w)) v a ->
            k ∈ recorded a) as Hin.
  { intros v a Hr. apply (Hkk _ _ _ Hr m). simpl. set_solver. }
  destruct He; eauto 6.
Qed.
End Process.

(** ** Sequences of deliveries *)

Section Deliveries.
Context {S : Type} {E : Type -> Type} {Conn Tx W App : Type}.
Context (ev : forall A, E A -> W -> A * W).
Context `{Transaction E Conn Tx, !InboxStore S E Conn Tx, !Observe W Conn App}.
Context `{!InboxLaws S ev}.
Context {T : Type}.

(** One delivery by the broker: the message, what the application does with
    it, and where the call is cancelled, if it is. *)
Record Delivery := {
  del_message : MessageId;
  del_handler : Conn -> prog E (result T HandlerError);
  del_budget : budget;
}.

(** What an observer of the database sees of one delivery. *)
Record Observed := {
  obs_message : MessageId;
  obs_outcome : outcome (result (Outcome T) InboxError);
  obs_before : Db App;
  obs_after : Db App;
}.

(** The broker delivers, one call of [process] after the other. *)
Fixpoint deliver_all (self : Consumer S) (ds : list Delivery) (w : W)
  : list Observed * W :=
  match ds with
  | [] => ([], w)
  | x :: ds =>
      let '(o, _, w') := run ev (del_budget x) (Impl.process self (del_message x) (del_handler x)) w in
      let '(l, w'') := deliver_all self ds w' in
      ({| obs_message := del_message x; obs_outcome := o;
          obs_before := committed w; obs_after := committed w' |} :: l, w'')
  end.

(** The delivery changed the database. *)
Definition applied (x : Observed) : Prop := obs_after x <> obs_before x.

Definition acknowledged (x : Observed) : Prop :=
  exists r, obs_outcome x = Done (Ok r).

Variable self : Consumer S.
Variable h : MessageId -> HandlerSpec App T.
Hypothesis Hself : consumer_wf self.
Hypothesis Hkeys : forall m, keeps_keys (id self) (h m).

Definition well_behaved (x : Delivery) : Prop :=
  message_ok (del_message x) /\
  forall conn, meets ev conn (del_handler x conn) (h (del_message x)).

(** What one delivery may do to the database: nothing, or apply the message. *)
Definition applies (x : Observed) : Prop :=
  let k := key (id self) (obs_message x) in
  k ∉ recorded (obs_before x) /\
  (exists v, returns (h (obs_message x)) (record_key k (obs_before x)) v (obs_after x)) /\
  forall m, key (id self) m ∈ recorded (obs_after x) <->
            m = obs_message x \/ key (id self) m ∈ recorded (obs_before x).

Definition delivery_step (x : Observed) : Prop :=
  (obs_after x = obs_before x \/ applies x) /\
  (acknowledged x -> key (id self) (obs_message x) ∈ recorded (obs_after x)) /\
  (forall v, obs_outcome x = Done (Ok (Processed v)) -> applies x).

Lemma returns_keys m v (before after : Db App) :
  returns (h m) (record_key (key (id self) m) before) v after ->
  forall m', key (id self) m' ∈ recorded after <->
             m' = m \/ key (id self) m' ∈ recorded before.
Proof.
  intros Hr m'. rewrite (Hkeys m _ _ _ Hr m'). simpl.
  rewrite elem_of_union, elem_of_singleton.
  split; (intros [Heq|?]; [left|by right]); [by apply (inj (key (id self)))|by subst].
Qed.

Lemma ends_delivery_step m up o (before after : Db App) :
  process_ends (key (id self) m) (h m) up before o after ->
  delivery_step {| obs_message := m; obs_outcome := o;
                   obs_before := before; obs_after := after |}.
Proof.
  intros He. unfold delivery_step, applies, acknowledged; simpl.
  destruct He as [v after Hk Hr|Hk|e Hk Hf|e Hu|e v after Hu Hk Hr|s Hk Hp| |v after Hk Hr];
    try (pose proof (returns_keys _ _ _ _ Hr) as Hkk);
    (split; [by eauto 7|split; [|by eauto 7]]); try (by intros [? [=]]); try done.
  intros _. apply Hkk. by left.
Qed.

(** Consecutive observations share their boundary, starting from [d]. *)
Fixpoint chained (d : Db App) (l : list Observed) : Prop :=
  match l with
  | [] => True
  | x :: l => obs_before x = d /\ chained (obs_after x) l
  end.

Lemma deliver_all_spec ds w :
  Forall well_behaved ds ->
  Forall delivery_step (fst (deliver_all self ds w)) /\
  chained (committed w) (fst (deliver_all self ds w)).
Proof.
  revert w; induction ds as [|x ds IH]; intros w Hds; simpl; [done|].
  inversion Hds as [|? ? [Hm Hh] Hds']; subst; clear Hds; rename Hds' into Hds.
  pose proof (process_wp ev False self (del_message x) (del_handler x) _ w Hself Hm
    (fun conn => meets_meets_while _ _ _ _ _ (Hh conn)) ltac:(done) (del_budget x)) as Hp.
  destruct (run ev (del_budget x) _ w) as [[o b'] w']. destruct Hp as [He _].
  destruct (IH w' Hds) as [Hs Hch].
  destruct (deliver_all self ds w') as [l w'']; simpl in *.
  split; [|done]. constructor; [|done]. by eapply ends_delivery_step.
Qed.

(** A recorded message stays recorded, and no later delivery of it applies. *)
Lemma chained_recorded l d m :
  Forall delivery_step l -> chained d l -> key (id self) m ∈ recorded d ->
  Forall (fun x => key (id self) m ∈ recorded (obs_after x) /\
                   (obs_message x = m -> ~ applied x)) l.
Proof.
  intros Hs; revert d; induction Hs as [|x l Hx Hs IH]; intros d Hch Hk; [done|].
  destruct Hch as [Hb Hch]. destruct Hx as [Ha _]. rewrite <- Hb in Hk.
  assert (key (id self) m ∈ recorded (obs_after x)) as Hk'.
  { destruct Ha as [-> |(_ & _ & Ha)]; [done|]. apply Ha. by right. }
  constructor; [|by eapply IH]. split; [done|].
  intros <-. unfold applied. destruct Ha as [?|[Ha _]]; [congruence|done].
Qed.

(** An unrecorded message that ends up recorded was applied by one of its own
    deliveries. *)
Lemma chained_applied l d m x :
  Forall delivery_step l -> chained d l -> key (id self) m ∉ recorded d ->
  x ∈ l -> key (id self) m ∈ recorded (obs_after x) ->
  exists i y, l !! i = Some y /\ obs_message y = m /\ applied y.
Proof.
  intros Hs; revert d; induction Hs as [|y l Hy Hs IH]; intros d Hch Hd Hx Hk;
    [by apply not_elem_of_nil in Hx|].
  destruct Hch as [Hb Hch]. destruct Hy as [Ha _]. rewrite <- Hb in Hd.
  destruct (decide (key (id self) m ∈ recorded (obs_after y))) as [Hy|Hy].
  - exists 0, y. split; [done|]. destruct Ha as [Heq|(Hn & _ & Ha)]; [by rewrite Heq in Hy|].
    apply Ha in Hy as [->|?]; [|done]. split; [done|].
    intros Heq. apply Hn. rewrite <- Heq. apply Ha. by left.
  - apply elem_of_cons in Hx as [->|Hx]; [done|].
    destruct (IH (obs_after y) Hch Hy Hx Hk) as (i & z & Hi & Hz). by exists (Datatypes.S i), z.
Qed.

(** No message is applied twice. *)
Lemma chained_apply_once l d i j x y :
  Forall delivery_step l -> chained d l ->
  i < j -> l !! i = Some x -> l !! j = Some y ->
  obs_message x = obs_message y -> applied x -> applied y -> False.
Proof.
  intros Hs; revert d i j. induction Hs as [|z l Hz Hs IH]; intros d i j Hch; [done|].
  destruct Hch as [Hb Hch]. destruct i as [|i], j as [|j];
    intros Hij Hi Hj Hm Hx Hy; simplify_eq/=; try lia.
  - destruct Hz as [[?|(_ & _ & Hk)] _]; [done|].
    assert (key (id self) (obs_message x) ∈ recorded (obs_after x)) as Hx'
      by (apply Hk; by left).
    pose proof (chained_recorded l _ (obs_message x) Hs Hch Hx') as Hc.
    rewrite Forall_forall in Hc. apply list_elem_of_lookup_2 in Hj.
    by apply (Hc y Hj).
  - by eapply (IH _ i j Hch); [lia|..].
Qed.

(** C1 (exactly once). Let the broker deliver any messages any number of times,
    in any order, with handlers that fail or panic, calls cancelled anywhere
    and backend faults.  Each delivery leaves the committed database unchanged
    or applies its message (claim and handler effects together); no message is
    ever applied twice; and if some delivery of a message returned [Ok] and the
    message was new at the start, it was applied by exactly one delivery. *)
Theorem deliveries_exactly_once (ds : list Delivery) (w : W) :
  Forall well_behaved ds ->
  let trace := fst (deliver_all self ds w) in
  (forall x, x ∈ trace -> obs_after x = obs_before x \/ applies x) /\
  (forall i j x y, trace !! i = Some x -> trace !! j = Some y ->
     obs_message x = obs_message y -> applied x -> applied y -> i = j) /\
  (forall x, x ∈ trace -> acknowledged x ->
     key (id self) (obs_message x) ∉ recorded (committed w) ->
     exists i y, trace !! i = Some y /\ obs_message y = obs_message x /\ applied y).
Proof.
  intros Hds trace. destruct (deliver_all_spec ds w Hds) as [Hs Hch]. fold trace in Hs, Hch.
  split; [|split].
  - intros x Hx. rewrite Forall_forall in Hs. by apply Hs.
  - intros i j x y Hi Hj Hm Hx Hy. destruct (lt_eq_lt_dec i j) as [[?| ->]|?]; [|done|];
      exfalso; eapply chained_apply_once; eauto.
  - intros x Hx Hack Hn. eapply chained_applied; eauto.
    rewrite Forall_forall in Hs. by apply Hs.
Qed.
End Deliveries.

(** ** Witnesses on the in-memory store *)

(** Appending one line to the effects table. *)
Definition append_spec (line : str) : HandlerSpec (list str) unit := {|
  returns d _ d' := d' = mkDb (recorded d) (app d ++ [line]);
  fails _ e := exists x, e = EInbox x;
  panics _ _ := False;
|}.

Lemma mem_effect_meets conn line : meets mem_ev conn (mem_effect conn line) (append_spec line).
Proof.
  intros w d Hw. unfold handled. apply wp_bind, wp_trigger; simpl.
  { by split; [apply quiet_refl|]. }
  intros a w' Ha.
  match goal with |- _ /\ wp _ _ ?Q _ => enough (Q (Done (map_err EInbox a)) w') as HQ end.
  { split; [split; [apply HQ|done]|by apply wp_ret]. }
  unfold quiet; simpl in *.
  apply fmap_Some in Hw as ([d0 s0] & Hs & ->).
  unfold mem_ev, on_session, faulty in Ha. simpl in Ha. rewrite Hs in Ha.
  destruct (mem_faults w) as [|[e|] l] eqn:Hf; simplify_map_eq.
  - eauto 7.
  - split; [split; [done|]|split; [eauto|by left]]. by inversion 1.
  - split; [split; [done|]|eauto 7]. by inversion 1.
Qed.

Lemma append_keeps_keys c line : keeps_keys c (append_spec line).
Proof. intros d v d' ->. done. Qed.

Definition billing : Consumer MemStore := Impl.new memStore (cid "billing").
Definition charge (conn : nat) : prog memE (result unit HandlerError) :=
  mem_effect conn (lit "charged").

Lemma process_ends_sound_witness :
  fst (exec mem_ev (Impl.process billing (mid "m-1") charge) mem_empty)
    = Done (Ok (Processed tt)) /\
  let '(o, _, w') := run mem_ev None (Impl.process billing (mid "m-1") charge) mem_empty in
  process_ends (key (cid "billing") (mid "m-1")) (append_spec (lit "charged"))
    (healthy mem_empty) (committed mem_empty) o (committed w') /\
  (healthy mem_empty -> healthy w').
Proof.
  split; [vm_compute; reflexivity|].
  apply (process_ends_sound mem_ev billing (mid "m-1") charge
    (append_spec (lit "charged")) mem_empty None);
    [ids_ok|ids_ok|]. intros conn. apply mem_effect_meets.
Defined.

Lemma process_healthy_witness :
  committed (snd (exec mem_ev (Impl.process billing (mid "m-1") charge) mem_empty))
    = mkDb {[key (cid "billing") (mid "m-1")]} [lit "charged"] /\
  exists v : unit, returns (append_spec (lit "charged"))
    (record_key (key (cid "billing") (mid "m-1")) (committed mem_empty)) v
    (committed (snd (exec mem_ev (Impl.process billing (mid "m-1") charge) mem_empty))).
Proof.
  split; [vm_compute; reflexivity|].
  pose proof (process_healthy mem_ev billing (mid "m-1") charge
    (append_spec (lit "charged")) mem_empty
    (snd (exec mem_ev (Impl.process billing (mid "m-1") charge) mem_empty))
    (Done (Ok (Processed tt)))) as H.
  cbv zeta in H. rewrite decide_False in H by (vm_compute; discriminate).
  destruct H as [(v & _ & Hv)|(e & He & _)]; [ids_ok|ids_ok| | | | | |discriminate He].
  - intros conn. apply meets_meets_while, mem_effect_meets.
  - intros d s Hp. exact Hp.
  - constructor.
  - vm_compute. reflexivity.
  - exists v. exact Hv.
Defined.

Lemma process_all_or_nothing_witness :
  fst (fst (run mem_ev (Some (2, true)) (Impl.process billing (mid "m-1") charge) mem_empty))
    = Cancelled /\
  let k := key (cid "billing") (mid "m-1") in
  let '(o, _, w') := run mem_ev (Some (2, true)) (Impl.process billing (mid "m-1") charge) mem_empty in
  committed w' = committed mem_empty \/
  (k ∉ recorded (committed mem_empty) /\ k ∈ recorded (committed w') /\
   exists v, returns (append_spec (lit "charged"))
     (record_key k (committed mem_empty)) v (committed w')).
Proof.
  split; [vm_compute; reflexivity|].
  apply (process_all_or_nothing mem_ev billing (mid "m-1") charge
    (append_spec (lit "charged")) mem_empty (Some (2, true))); [ids_ok|ids_ok| |].
  - intros conn. apply mem_effect_meets.
  - apply append_keeps_keys.
Defined.

(** A cancelled delivery, a delivery whose commit is refused, the successful
    one, and a redelivery. *)
Definition redelivery (b : budget) : Delivery (E := memE) (Conn := nat) (T := unit) :=
  {| del_message := mid "m-1"; del_handler := charge; del_budget := b |}.

Definition redeliveries : list (Delivery (E := memE) (Conn := nat) (T := unit)) :=
  [redelivery (Some (3, false)); redelivery None; redelivery None; redelivery None].

Definition one_refused_commit : MemWorld :=
  {| mem_committed := mkDb ∅ []; mem_sessions := ∅; mem_next := 0;
     mem_faults := [None; None; None; None; None; None; Some Contended] |}.

Lemma deliveries_exactly_once_witness :
  let trace := fst (deliver_all mem_ev billing redeliveries one_refused_commit) in
  (obs_outcome <$> trace)
    = [Cancelled; Done (Error Contended); Done (Ok (Processed tt)); Done (Ok OutcomeDuplicate)] /\
  (app ∘ obs_after <$> trace) = [[]; []; [lit "charged"]; [lit "charged"]] /\
  (forall i j x y, trace !! i = Some x -> trace !! j = Some y ->
     obs_message x = obs_message y -> applied x -> applied y -> i = j).
Proof.
  split; [vm_compute; reflexivity|]. split; [vm_compute; reflexivity|].
  apply (deliveries_exactly_once mem_ev billing (fun _ => append_spec (lit "charged"))).
  - ids_ok.
  - intros m. apply append_keeps_keys.
  - repeat (apply List.Forall_cons; [split; [ids_ok|intros conn; apply mem_effect_meets]|]).
    apply List.Forall_nil.
Defined.
