(* ===== verification/ProcessMany.v ===== *)
(** * Processing a batch

    What [Consumer::process_many] promises over a store with savepoints that
    keeps its contract: the batch refines an abstract run in which each fresh
    message's handler either takes effect or is undone together with its own
    claim; a result may be acknowledged exactly when its message is recorded;
    and, for handlers that only touch the application's tables, the batch is
    one [process] per message. *)

From S2P Require Import Prelude Text Errors Durations Types Store MemStore Consumer ClaimMany Process.

(** ** The abstract batch *)

(** [batch_runs c h items F d rs d']: handling [items] (ids with the answer of
    their claim) on the working database [d], where [F] holds the ids whose
    handler failed, yields the results [rs] and leaves [d']. *)
Inductive batch_runs {App T} (c : ConsumerId) (h : MessageId -> HandlerSpec App T)
  : list (MessageId * Claim) -> gset str -> Db App ->
    list (ProcessResult T) -> Db App -> Prop :=
| runs_nil F d : batch_runs c h [] F d [] d
| runs_repeat_of_failed m items F d rs d' :
    Message_Id.as_str m ∈ F ->
    batch_runs c h items F d rs d' ->
    batch_runs c h ((m, Duplicate) :: items) F d (Error (earlier_failed m) :: rs) d'
| runs_duplicate m items F d rs d' :
    Message_Id.as_str m ∉ F ->
    batch_runs c h items F d rs d' ->
    batch_runs c h ((m, Duplicate) :: items) F d (Ok OutcomeDuplicate :: rs) d'
| runs_processed m items F d v d1 rs d' :
    returns (h m) d v d1 ->
    batch_runs c h items F d1 rs d' ->
    batch_runs c h ((m, Fresh) :: items) F d (Ok (Processed v) :: rs) d'
| runs_failed m items F d e rs d' :
    fails (h m) d e ->
    batch_runs c h items ({[Message_Id.as_str m]} ∪ F) (unrecord_key (key c m) d) rs d' ->
    batch_runs c h ((m, Fresh) :: items) F d (Error e :: rs) d'.

(** The whole batch on a committed database: claim everything, then run. *)
Definition batch_effect {App T} (c : ConsumerId) (h : MessageId -> HandlerSpec App T)
    (ids : list MessageId) (before : Db App) (rs : list (ProcessResult T))
    (after : Db App) : Prop :=
  batch_runs c h (zip ids (fst (claim_each c ids before))) ∅
    (snd (claim_each c ids before)) rs after.

(** How a call of [process_many] can end. *)
Inductive many_ends {App T} (c : ConsumerId) (h : MessageId -> HandlerSpec App T)
    (ids : list MessageId) (up : Prop) (before : Db App)
  : outcome (result (list (ProcessResult T)) InboxError) -> Db App -> Prop :=
| many_done rs after :
    batch_effect c h ids before rs after ->
    many_ends c h ids up before (Done (Ok rs)) after
| many_store_failed e :
    ~ up -> many_ends c h ids up before (Done (Error e)) before
| many_commit_unknown e rs after :
    ~ up -> batch_effect c h ids before rs after ->
    many_ends c h ids up before (Done (Error e)) after
| many_panicked s m d :
    m ∈ ids -> panics (h m) d s ->
    many_ends c h ids up before (Panicked s) before
| many_cancelled :
    many_ends c h ids up before Cancelled before
| many_cancelled_in_commit rs after :
    batch_effect c h ids before rs after ->
    many_ends c h ids up before Cancelled after.

(** The reference: one message after the other, each as [process] handles it,
    except that a repeat of a failed message is not tried again. *)
Inductive seq_runs {App T} (c : ConsumerId) (h : MessageId -> HandlerSpec App T)
  : list MessageId -> gset str -> Db App -> list (ProcessResult T) -> Db App -> Prop :=
| seq_nil F d : seq_runs c h [] F d [] d
| seq_repeat_of_failed m ids F d rs d' :
    Message_Id.as_str m ∈ F ->
    seq_runs c h ids F d rs d' ->
    seq_runs c h (m :: ids) F d (Error (earlier_failed m) :: rs) d'
| seq_duplicate m ids F d rs d' :
    Message_Id.as_str m ∉ F -> key c m ∈ recorded d ->
    seq_runs c h ids F d rs d' ->
    seq_runs c h (m :: ids) F d (Ok OutcomeDuplicate :: rs) d'
| seq_processed m ids F d v d1 rs d' :
    Message_Id.as_str m ∉ F -> key c m ∉ recorded d ->
    returns (h m) (record_key (key c m) d) v d1 ->
    seq_runs c h ids F d1 rs d' ->
    seq_runs c h (m :: ids) F d (Ok (Processed v) :: rs) d'
| seq_failed m ids F d e rs d' :
    Message_Id.as_str m ∉ F -> key c m ∉ recorded d ->
    fails (h m) (record_key (key c m) d) e ->
    seq_runs c h ids ({[Message_Id.as_str m]} ∪ F) d rs d' ->
    seq_runs c h (m :: ids) F d (Error e :: rs) d'.

(** The handler neither reads nor writes the inbox table. *)
Definition app_only {App T} (h : HandlerSpec App T) : Prop :=
  (forall d v d', returns h d v d' ->
     recorded d' = recorded d /\
     forall R, returns h (mkDb R (app d)) v (mkDb R (app d'))) /\
  (forall d e, fails h d e -> forall R, fails h (mkDb R (app d)) e).

(** What the handler does is a function of the database it runs on. *)
Definition determined {App T} (h : HandlerSpec App T) : Prop :=
  forall d,
    (forall v d' v' d'', returns h d v d' -> returns h d v' d'' -> v = v' /\ d' = d'') /\
    (forall e e', fails h d e -> fails h d e' -> e = e') /\
    (forall v d' e, returns h d v d' -> ~ fails h d e).

(** ** Facts about the abstract batch *)

Section Links.
Context {App : Type}.
Variable c : ConsumerId.
Implicit Types (m : MessageId) (ids : list MessageId) (d : Db App) (F : gset str).

Lemma as_str_eq m m' : Message_Id.as_str m = Message_Id.as_str m' <-> m = m'.
Proof. destruct m, m'; simpl. split; [by intros ->|by intros [= ->]]. Qed.

Lemma claim_each_cons m ids d0 :
  fst (claim_each c (m :: ids) d0)
  = claim_answer d0 (key c m) :: fst (claim_each c ids (record_key (key c m) d0)).
Proof. simpl. by destruct (claim_each c ids (record_key (key c m) d0)). Qed.

Lemma elem_of_record_key m m' d :
  key c m' ∈ recorded (record_key (key c m) d) <-> m' = m \/ key c m' ∈ recorded d.
Proof.
  simpl. rewrite elem_of_union, elem_of_singleton.
  split; (intros [Heq|?]; [left|by right]); [by apply (inj (key c))|by subst].
Qed.

Lemma elem_of_unrecord_key m m' d :
  key c m' ∈ recorded (unrecord_key (key c m) d) <-> m' <> m /\ key c m' ∈ recorded d.
Proof.
  simpl. rewrite elem_of_difference, elem_of_singleton.
  split.
  - intros [? Hne]. split; [|done]. intros ->. done.
  - intros [Hne ?]. split; [done|]. intros ->%(inj (key c)). done.
Qed.

(** The messages whose handler runs: the new ones, once each. *)
Lemma fresh_item_iff m ids d0 :
  (m, Fresh) ∈ zip ids (fst (claim_each c ids d0)) <-> m ∈ ids /\ key c m ∉ recorded d0.
Proof.
  revert d0; induction ids as [|x ids IH]; intros d0; [rewrite !elem_of_nil; tauto|].
  rewrite claim_each_cons. simpl. rewrite !elem_of_cons, IH, elem_of_record_key.
  destruct (decide (m = x)) as [->|Hne]; [|naive_solver].
  pose proof (claim_answer_Fresh d0 (key c x)) as Ha. split.
  - intros [[= Heq]|[_ []]]; [|by left]. rewrite <- Ha. auto.
  - intros [_ Hk]. left. by rewrite (proj2 Ha Hk).
Qed.

(** While handling the rest [ids] of a batch, with claims made up to [d0]:
    failed ids are claimed but no longer recorded, every other claimed id is
    recorded, and so are the fresh ids still to come. *)
Record batch_inv ids F (d0 d : Db App) : Prop := {
  inv_failed m : Message_Id.as_str m ∈ F ->
    key c m ∈ recorded d0 /\ key c m ∉ recorded d;
  inv_claimed m : key c m ∈ recorded d0 -> Message_Id.as_str m ∉ F ->
    key c m ∈ recorded d;
  inv_pending m : m ∈ ids -> key c m ∉ recorded d0 -> key c m ∈ recorded d;
}.

Lemma batch_inv_init ids d0 : batch_inv ids ∅ d0 (snd (claim_each c ids d0)).
Proof.
  rewrite claim_each_db. split; intros m; rewrite ?elem_of_record_all; set_solver.
Qed.

Lemma batch_inv_duplicate m ids F d0 d :
  key c m ∈ recorded d0 -> batch_inv (m :: ids) F d0 d ->
  batch_inv ids F (record_key (key c m) d0) d.
Proof.
  intros Hm [H1 H2 H3]. rewrite record_key_known by done. split; [done|done|].
  intros m' Hin. apply H3. by right.
Qed.

Lemma batch_inv_failed m ids F d0 d :
  key c m ∉ recorded d0 -> batch_inv (m :: ids) F d0 d ->
  batch_inv ids ({[Message_Id.as_str m]} ∪ F) (record_key (key c m) d0)
    (unrecord_key (key c m) d).
Proof.
  intros Hm [H1 H2 H3].
  split; intros m'; rewrite elem_of_unrecord_key, ?elem_of_record_key,
    ?not_elem_of_union, ?elem_of_union, ?elem_of_singleton, ?as_str_eq.
  - intros [->|HF]; [tauto|]. destruct (H1 m' HF). tauto.
  - intros [->|?] [? ?]; [done|]. auto.
  - intros Hin Hn. split; [tauto|]. apply H3; [by right|tauto].
Qed.

(** The working database of the batch is the one of the sequential run plus
    the claims still to come. *)
Record seq_link ids F (d0 d ds : Db App) : Prop := {
  link_app : app d = app ds;
  link_recorded k : k ∈ recorded d <->
    k ∈ recorded ds \/ exists m, m ∈ ids /\ k = key c m /\ k ∉ recorded d0;
  link_claimed m : key c m ∈ recorded ds <->
    key c m ∈ recorded d0 /\ Message_Id.as_str m ∉ F;
  link_failed m : Message_Id.as_str m ∈ F -> key c m ∈ recorded d0;
}.

Lemma seq_link_init ids d0 : seq_link ids ∅ d0 (snd (claim_each c ids d0)) d0.
Proof.
  rewrite claim_each_db. split; [done| | |].
  - intros k. rewrite elem_of_record_all. split; [|naive_solver].
    intros [?|(m & Hin & ->)]; [by left|].
    destruct (decide (key c m ∈ recorded d0)); eauto.
  - set_solver.
  - set_solver.
Qed.

Lemma seq_link_nil F d0 d ds : seq_link [] F d0 d ds -> d = ds.
Proof.
  intros [Ha Hr _ _]. apply db_eq; [|done]. apply set_eq. intros k. rewrite Hr.
  split; [|by left]. intros [?|(m & Hin & _)]; [done|]. by apply not_elem_of_nil in Hin.
Qed.

Lemma seq_link_duplicate m ids F d0 d ds :
  key c m ∈ recorded d0 -> seq_link (m :: ids) F d0 d ds ->
  seq_link ids F (record_key (key c m) d0) d ds.
Proof.
  intros Hm [Ha Hr Hc Hf]. rewrite record_key_known by done. split; [done| |done|done].
  intros k. rewrite Hr. split; (intros [?|(m' & Hin & -> & Hn)]; [by left|]).
  - apply elem_of_cons in Hin as [->|Hin]; [done|eauto].
  - right. exists m'. split; [by right|done].
Qed.

Lemma seq_link_failed m ids F d0 d ds :
  key c m ∉ recorded d0 -> seq_link (m :: ids) F d0 d ds ->
  seq_link ids ({[Message_Id.as_str m]} ∪ F) (record_key (key c m) d0)
    (unrecord_key (key c m) d) ds.
Proof.
  intros Hm [Ha Hr Hc Hf].
  assert (key c m ∉ recorded ds) as Hnds by (rewrite Hc; tauto).
  split; [done| | |].
  - intros k. simpl. rewrite elem_of_difference, elem_of_singleton, Hr.
    split.
    + intros [[?|(m' & Hin & -> & Hn)] Hne]; [by left|].
      apply elem_of_cons in Hin as [->|Hin]; [done|]. right. exists m'.
      split; [done|]. split; [done|]. set_solver.
    + intros [?|(m' & Hin & -> & Hn)].
      * split; [by left|]. intros ->. done.
      * split; [right|set_solver].
        exists m'. split; [by right|]. split; [done|]. set_solver.
  - intros m'. rewrite Hc, elem_of_record_key, not_elem_of_union, elem_of_singleton, as_str_eq.
    split; [|tauto]. intros [? ?]. split; [by right|]. split; [|done]. by intros ->.
  - intros m'. rewrite elem_of_union, elem_of_singleton, as_str_eq, elem_of_record_key.
    intros [->|?]; [by left|]. right. by apply Hf.
Qed.
End Links.

Lemma first_occurrence {A} `{EqDecision A} (l : list A) (x : A) :
  x ∈ l -> exists j, l !! j = Some x /\ x ∉ take j l.
Proof.
  induction l as [|y l IH]; [by intros ?%not_elem_of_nil|].
  destruct (decide (x = y)) as [->|Hne].
  - intros _. exists 0. split; [done|]. apply not_elem_of_nil.
  - intros [?|Hx]%elem_of_cons; [done|]. destruct (IH Hx) as (j & Hj & Hn).
    exists (Datatypes.S j). split; [done|]. by apply not_elem_of_cons.
Qed.

Section Abstract.
Context {App T : Type}.
Variable c : ConsumerId.
Variable h : MessageId -> HandlerSpec App T.
Implicit Types (m : MessageId) (ids : list MessageId) (d : Db App) (F : gset str).

Lemma batch_runs_length items F d rs d' :
  batch_runs c h items F d rs d' -> length rs = length items.
Proof. induction 1; simpl; congruence. Qed.

(** The items of a batch whose claims were made on [d0]. *)
Abbreviation items ids d0 := (zip ids (fst (claim_each c ids d0))).

(** Which results are handler results: those of the first occurrence of a
    message that was new. *)
Lemma batch_result_kind ids : forall F d0 d rs d' i m r,
  batch_runs c h (items ids d0) F d rs d' ->
  ids !! i = Some m -> rs !! i = Some r ->
  (key c m ∈ recorded d0 \/ m ∈ take i ids ->
     r = Ok OutcomeDuplicate \/ r = Error (earlier_failed m)) /\
  (key c m ∉ recorded d0 -> m ∉ take i ids ->
     (exists v d1 d2, r = Ok (Processed v) /\ returns (h m) d1 v d2) \/
     (exists e d1, r = Error e /\ fails (h m) d1 e)).
Proof.
  induction ids as [|x ids IH]; intros F d0 d rs d' i m r Hr Hi Hri; [done|].
  rewrite claim_each_cons in Hr. simpl in Hr.
  inversion Hr as [|? ? ? ? ? ? HF Hr' Hc|? ? ? ? ? ? HF Hr' Hc|? ? ? ? v d1 ? ? Hret Hr' Hc
                  |? ? ? ? e ? ? Hf Hr' Hc]; subst;
    match goal with Ha : _ = claim_answer _ _ |- _ => symmetry in Ha;
      first [apply claim_answer_Fresh in Ha | apply claim_answer_Duplicate in Ha] end;
    (destruct i as [|i]; simplify_eq/=;
     [|rewrite elem_of_cons;
       destruct (IH _ _ _ _ _ _ _ _ Hr' Hi Hri) as [IH1 IH2];
       rewrite elem_of_record_key in IH1, IH2;
       split; intros; [apply IH1|apply IH2]; tauto]).
  - split; [by right|]. done.
  - split; [by left|]. done.
  - split; [|eauto 6]. intros [?|Hin]; [done|]. by apply not_elem_of_nil in Hin.
  - split; [|eauto 6]. intros [?|Hin]; [done|]. by apply not_elem_of_nil in Hin.
Qed.

Lemma seq_link_processed m ids F d0 d ds R v d1 :
  key c m ∉ recorded d0 -> R = recorded d -> recorded d1 = R ->
  returns (h m) d v d1 -> seq_link c (m :: ids) F d0 d ds ->
  seq_link c ids F (record_key (key c m) d0) d1
    (mkDb (recorded (record_key (key c m) ds)) (app d1)).
Proof.
  intros Hm -> Hd1 Hret [Ha Hr Hc Hf]. split; [done| | |].
  - intros k. rewrite Hd1, Hr. simpl.
    split; rewrite elem_of_union, elem_of_singleton.
    + intros [?|(m' & Hin & -> & Hn)]; [tauto|].
      destruct (decide (m' = m)) as [->|Hne]; [tauto|].
      apply elem_of_cons in Hin as [?|Hin]; [done|]. right. exists m'.
      rewrite (elem_of_record_key c m m' d0). tauto.
    + intros [[->|?]|(m' & Hin & -> & Hn)]; [right|by left|right].
      * exists m. split; [by left|done].
      * exists m'. split; [by right|]. split; [done|].
        intros ?. apply Hn. apply elem_of_record_key. by right.
  - intros m'. simpl. rewrite !elem_of_union, !elem_of_singleton, Hc.
    split; [|tauto]. intros [Heq|[? ?]]; [|tauto]. split; [by left|].
    apply (inj (key c)) in Heq as ->. intros HF. by apply Hm, Hf.
  - intros m' HF. apply elem_of_record_key. right. by apply Hf.
Qed.

Lemma batch_seq (Happ : forall m, app_only (h m)) ids : forall F d0 d ds rs d',
  seq_link c ids F d0 d ds -> batch_runs c h (items ids d0) F d rs d' ->
  seq_runs c h ids F ds rs d'.
Proof.
  induction ids as [|x ids IH]; intros F d0 d ds rs d' Hl Hr.
  { apply seq_link_nil in Hl as <-. inversion Hr; subst. constructor. }
  rewrite claim_each_cons in Hr. simpl in Hr.
  inversion Hr as [|? ? ? ? ? ? HF Hr' Hc|? ? ? ? ? ? HF Hr' Hc|? ? ? ? v d1 ? ? Hret Hr' Hc
                  |? ? ? ? e ? ? Hf Hr' Hc]; subst;
    match goal with Ha : _ = claim_answer _ _ |- _ => symmetry in Ha;
      first [apply claim_answer_Fresh in Ha | apply claim_answer_Duplicate in Ha];
      rename Ha into Hx end;
    pose proof (link_claimed _ _ _ _ _ _ Hl x) as Hds;
    pose proof (link_failed _ _ _ _ _ _ Hl x) as HFx.
  - apply seq_repeat_of_failed; [done|]. eapply IH; eauto using seq_link_duplicate.
  - apply seq_duplicate; [done|tauto|]. eapply IH; eauto using seq_link_duplicate.
  - destruct (proj1 (Happ x) _ _ _ Hret) as [Hd1 Hany].
    eapply seq_processed; [tauto|tauto| |].
    + rewrite (link_app _ _ _ _ _ _ Hl) in Hany.
      apply (Hany (recorded (record_key (key c x) ds))).
    + eapply IH; [|exact Hr']. by eapply seq_link_processed.
  - eapply seq_failed; [tauto|tauto| |].
    + pose proof (proj2 (Happ x) _ _ Hf (recorded (record_key (key c x) ds))) as Hany.
      rewrite (link_app _ _ _ _ _ _ Hl) in Hany. exact Hany.
    + eapply IH; eauto using seq_link_failed.
Qed.

Hypothesis Hkeys : forall m, keeps_keys c (h m).

Lemma batch_inv_processed m ids F d0 d d1 v :
  key c m ∉ recorded d0 -> returns (h m) d v d1 -> batch_inv c (m :: ids) F d0 d ->
  batch_inv c ids F (record_key (key c m) d0) d1.
Proof.
  intros Hm Hr [H1 H2 H3].
  split; intros m'; rewrite (Hkeys m _ _ _ Hr m'), ?elem_of_record_key.
  - intros HF. destruct (H1 m' HF). tauto.
  - intros [->|?] HF; [|auto]. apply H3; [by left|done].
  - intros Hin Hn. apply H3; [by right|tauto].
Qed.

(** A message claimed before [ids], or not among them, keeps its record. *)
Lemma batch_status ids : forall F d0 d rs d' m,
  batch_runs c h (items ids d0) F d rs d' ->
  key c m ∈ recorded d0 \/ m ∉ ids ->
  (key c m ∈ recorded d' <-> key c m ∈ recorded d).
Proof.
  induction ids as [|x ids IH]; intros F d0 d rs d' m Hr Hm.
  { by inversion Hr. }
  rewrite claim_each_cons in Hr. simpl in Hr.
  assert (key c m ∈ recorded (record_key (key c x) d0) \/ m ∉ ids) as Hm'.
  { rewrite elem_of_record_key, elem_of_cons in *. naive_solver. }
  inversion Hr as [|? ? ? ? ? ? HF Hr'|? ? ? ? ? ? HF Hr'|? ? ? ? v d1 ? ? Hret Hr'
                  |? ? ? ? e ? ? Hf Hr']; subst.
  - by eapply IH.
  - by eapply IH.
  - rewrite (IH _ _ _ _ _ _ Hr' Hm'). by eapply Hkeys.
  - rewrite (IH _ _ _ _ _ _ Hr' Hm'), elem_of_unrecord_key.
    split; [tauto|]. intros; split; [|done]. intros ->.
    match goal with Hc : Fresh = claim_answer _ _ |- _ =>
      symmetry in Hc; apply claim_answer_Fresh in Hc end.
    destruct Hm as [?|Hm]; [done|]. apply Hm. by left.
Qed.

(** A result may be acknowledged exactly when its message is recorded. *)
Lemma batch_ok_recorded ids : forall F d0 d rs d' i m r,
  batch_inv c ids F d0 d -> batch_runs c h (items ids d0) F d rs d' ->
  ids !! i = Some m -> rs !! i = Some r ->
  (is_ok r = true <-> key c m ∈ recorded d').
Proof.
  induction ids as [|x ids IH]; intros F d0 d rs d' i m r Hinv Hr Hi Hri; [done|].
  rewrite claim_each_cons in Hr. simpl in Hr.
  assert (key c x ∈ recorded (record_key (key c x) d0) \/ x ∉ ids) as Hx
    by (left; apply elem_of_record_key; by left).
  inversion Hr as [|? ? ? ? ? ? HF Hr' Hc|? ? ? ? ? ? HF Hr' Hc|? ? ? ? v d1 ? ? Hret Hr' Hc
                  |? ? ? ? e ? ? Hf Hr' Hc]; subst;
    match goal with Ha : _ = claim_answer _ _ |- _ => symmetry in Ha;
      first [apply claim_answer_Fresh in Ha | apply claim_answer_Duplicate in Ha] end;
    pose proof (batch_status _ _ _ _ _ _ x Hr' Hx) as Hst;
    (destruct i as [|i]; simplify_eq/=; [rewrite Hst|]).
  - split; [done|]. intros ?. exfalso. by apply (inv_failed _ _ _ _ _ Hinv m HF).
  - eapply IH; eauto using batch_inv_duplicate.
  - split; [|done]. intros _. by eapply inv_claimed.
  - eapply IH; eauto using batch_inv_duplicate.
  - split; [|done]. intros _. rewrite (Hkeys m _ _ _ Hret m). eapply inv_pending; eauto. by left.
  - eapply IH; eauto using batch_inv_processed.
  - split; [done|]. set_solver.
  - eapply IH; eauto using batch_inv_failed.
Qed.

(** A message known before the batch is a duplicate wherever it occurs. *)
Lemma batch_known ids before rs after i m r :
  batch_effect c h ids before rs after ->
  ids !! i = Some m -> rs !! i = Some r -> key c m ∈ recorded before ->
  r = Ok OutcomeDuplicate.
Proof.
  intros Hb Hi Hr Hk. destruct (batch_result_kind _ _ _ _ _ _ _ _ _ Hb Hi Hr) as [Hd _].
  destruct Hd as [-> | ->]; [by left|done|exfalso].
  assert (key c m ∈ recorded after) as Hk'.
  { apply (batch_status _ _ _ _ _ _ m Hb); [by left|].
    rewrite claim_each_db, elem_of_record_all. by left. }
  by apply (batch_ok_recorded ids _ _ _ _ _ _ _ _ (batch_inv_init _ _ _) Hb Hi Hr) in Hk'.
Qed.

(** A handler that fails exactly on the messages of [poison] decides all the
    results of a new message, those of its repeats included. *)
Lemma batch_poison_results (poison : MessageId -> Prop) ids before rs after i m r :
  (forall d e, fails (h m) d e -> poison m) ->
  (forall d v d', returns (h m) d v d' -> ~ poison m) ->
  batch_effect c h ids before rs after ->
  ids !! i = Some m -> rs !! i = Some r -> key c m ∉ recorded before ->
  (is_ok r = true <-> key c m ∈ recorded after) /\ (is_ok r = true <-> ~ poison m).
Proof.
  intros Hf Hr Hb Hi Hri Hk.
  pose proof (batch_inv_init c ids before) as Hinv.
  assert (length rs = length ids) as Hlen.
  { rewrite (batch_runs_length _ _ _ _ _ Hb), length_zip_with, claim_each_length. lia. }
  destruct (first_occurrence ids m (list_elem_of_lookup_2 _ _ _ Hi)) as (j & Hj & Hnj).
  destruct (lookup_lt_is_Some_2 rs j) as [r0 Hr0].
  { rewrite Hlen. by eapply lookup_lt_Some. }
  assert (forall i r, ids !! i = Some m -> rs !! i = Some r ->
            is_ok r = true <-> key c m ∈ recorded after) as Hok
    by (intros; by eapply (batch_ok_recorded ids)).
  split; [exact (Hok i r Hi Hri)|]. rewrite (Hok i r Hi Hri), <- (Hok j r0 Hj Hr0).
  destruct (batch_result_kind _ _ _ _ _ _ _ _ _ Hb Hj Hr0) as [_ Hkind].
  destruct (Hkind Hk Hnj) as [(v & d1 & d2 & -> & Hv)|(e & d1 & -> & He)]; simpl.
  - apply Hr in Hv. tauto.
  - apply Hf in He. split; [done|tauto].
Qed.
Lemma seq_runs_determined (Hdet : forall m, determined (h m)) ids F d rs d' :
  seq_runs c h ids F d rs d' ->
  forall rs' d'', seq_runs c h ids F d rs' d'' -> rs = rs' /\ d' = d''.
Proof.
  induction 1 as [|? ? ? ? ? ? ? ? IH|? ? ? ? ? ? ? ? ? IH|m ? ? d0 v d1 ? ? ? ? Hr ? IH
                  |m ? ? d0 e ? ? ? ? Hf ? IH];
    intros rs2 d2; inversion 1 as [|? ? ? ? ? ? ? Hrun|? ? ? ? ? ? ? ? Hrun
      |? ? ? ? v2 d3 ? ? ? ? Hr2 Hrun|? ? ? ? e2 ? ? ? ? Hf2 Hrun]; subst;
    try done; try by destruct (IH _ _ Hrun) as [-> ->].
  - destruct (Hdet m (record_key (key c m) d0)) as [Hd _].
    destruct (Hd _ _ _ _ Hr Hr2) as [<- <-]. by destruct (IH _ _ Hrun) as [-> ->].
  - destruct (Hdet m (record_key (key c m) d0)) as (_ & _ & Hd). by destruct (Hd _ _ _ Hr Hf2).
  - destruct (Hdet m (record_key (key c m) d0)) as (_ & _ & Hd). by destruct (Hd _ _ _ Hr2 Hf).
  - destruct (Hdet m (record_key (key c m) d0)) as (_ & Hd & _).
    rewrite (Hd _ _ Hf Hf2). by destruct (IH _ _ Hrun) as [-> ->].
Qed.
End Abstract.

(** ** The program refines the abstract batch *)

Section Refinement.
Context {S : Type} {E : Type -> Type} {Conn Tx W App : Type}.
Context (ev : forall A, E A -> W -> A * W).
Context `{Transaction E Conn Tx, !InboxStore S E Conn Tx, !Savepoints S E Conn Tx}.
Context `{!Observe W Conn App, !InboxLaws S ev, !SavepointLaws S ev}.
Context {T : Type}.
Variable self : Consumer S.
Variable handler : Conn -> MessageId -> prog E (result T HandlerError).
Variable h : MessageId -> HandlerSpec App T.
Hypothesis Hself : consumer_wf self.

Section Loop.
Variable up : Prop.
Hypothesis Hhandler : forall conn m, message_ok m ->
  meets_while ev up conn (handler conn m) (h m).

Definition fresh_items (items : list (MessageId * Claim)) : nat :=
  count_fresh (snd <$> items).

(** A savepoint of the working database is open while messages are pending. *)
Definition savepoint_open (conn : Conn) (pending : nat) (d : Db App) (w : W) : Prop :=
  0 < pending -> saved w conn = Some d.

Definition loop_post (conn : Conn) (items : list (MessageId * Claim)) (F : gset str)
    (d : Db App) (results : list (ProcessResult T)) (w : W)
    (o : outcome (result (list (ProcessResult T)) InboxError)) (w' : W) : Prop :=
  quiet w w' /\
  match o with
  | Done (Ok rs) => exists rs' d', rs = results ++ rs' /\
      batch_runs (id self) h items F d rs' d' /\ working w' conn = Some d'
  | Done (Error _) => ~ healthy w
  | Panicked s => exists m d0, m ∈ items.*1 /\ panics (h m) d0 s
  | Cancelled => True
  end.

Lemma loop_post_quiet conn items F d results w1 w o w' :
  quiet w w1 -> loop_post conn items F d results w1 o w' ->
  loop_post conn items F d results w o w'.
Proof.
  intros Hq [Hq' Ho]. split; [by eapply quiet_trans|].
  destruct o as [[rs|e]|s|]; try done. intros Hh. apply Ho. by apply Hq.
Qed.

(** A step of the abstract run extends the run of the rest. *)
Lemma loop_post_step conn m c items F F' d d' r results w o w' :
  (forall rs d'', batch_runs (id self) h items F' d' rs d'' ->
                  batch_runs (id self) h ((m, c) :: items) F d (r :: rs) d'') ->
  loop_post conn items F' d' (results ++ [r]) w o w' ->
  loop_post conn ((m, c) :: items) F d results w o w'.
Proof.
  intros Hstep [Hq Ho]. split; [done|]. destruct o as [[rs|e]|s|]; [|done| |done].
  - destruct Ho as (rs' & d'' & -> & Hr & Hw). exists (r :: rs'), d''.
    rewrite <- app_assoc. auto.
  - destruct Ho as (m' & d0 & Hin & Hp). exists m', d0. split; [by right|done].
Qed.

(** After the handler: close or renew the savepoint and go on. *)
Lemma renew_savepoint_wp conn pending d sp w
    (Q : outcome (result unit InboxError) -> W -> Prop) :
  working w conn = Some d -> saved w conn = Some sp ->
  (forall o w', quiet w w' ->
     answers w (fun _ => working w' conn = Some d /\ savepoint_open conn pending d w') o ->
     Q o w') ->
  wp ev (if decide (0 < pending)
         then Store.release_and_savepoint (store self) conn
         else Store.release (store self) conn) Q w.
Proof.
  intros Hw Hsp HQ. unfold savepoint_open in *. case_decide as Hp.
  - eapply wp_mono; [by eapply law_release_and_savepoint|].
    intros o w' [Hq Ha]. apply HQ; [done|].
    destruct o as [[u|e]|s|]; simpl in *; [|done..]. tauto.
  - eapply wp_mono; [by eapply law_release|].
    intros o w' [Hq Ha]. apply HQ; [done|].
    destruct o as [[u|e]|s|]; simpl in *; [|done..]. split; [tauto|lia].
Qed.

(** Undoing a failed handler that ran from [w0]: its effects, then its claim. *)
Lemma undo_wp {A} conn m sp w0 w (k : unit -> prog E (result A InboxError))
    (Q : outcome (result A InboxError) -> W -> Prop) :
  message_ok m -> quiet w0 w ->
  saved w conn = Some sp \/ (saved w conn = None /\ ~ healthy w0) ->
  (forall e w', quiet w0 w' -> ~ healthy w0 -> Q (Done (Error e)) w') ->
  (forall w', quiet w0 w' -> Q Cancelled w') ->
  (forall w', quiet w0 w' -> working w' conn = Some (unrecord_key (key (id self) m) sp) ->
     saved w' conn = Some sp -> wp ev (k tt) Q w') ->
  wp ev (_ <-? Store.rollback_to (store self) conn ;;
         u <-? Store.unclaim (store self) conn (id self) m ;; k u) Q w.
Proof.
  intros Hm Hq0 Hs He Hc Hk. apply wp_bind_try. eapply wp_mono; [apply law_rollback_to|].
  intros o w1 [Hq1 Ha]. pose proof (quiet_trans _ _ _ Hq0 Hq1) as Hq01.
  destruct Hs as [Hs|[Hs Hu]]; rewrite Hs in Ha.
  - destruct o as [[[]|e]|s|]; simpl in Ha |- *; [| |done|by apply Hc].
    2: { apply He; [done|]. intros Hh. by apply Ha, Hq0. }
    destruct Ha as [Hw1 Hs1].
    apply wp_bind_try. eapply wp_mono; [apply law_unclaim; [done|apply Hself|done]|].
    intros [[[]|e]|s|] w2 [Hq2 Ha]; simpl in Ha |- *; [| |done|].
    + destruct Ha as [Hw2 Hs2]. apply Hk; [by eapply quiet_trans|done|congruence].
    + apply He; [by eapply quiet_trans|]. intros Hh. by apply Ha, Hq01.
    + apply Hc. by eapply quiet_trans.
  - destruct Ha as [Hok Hnp].
    destruct o as [[r|e]|s|]; simpl; [by destruct (Hok r)|by apply He|by destruct (Hnp s)|by apply Hc].
Qed.

Lemma fresh_items_cons m c items :
  fresh_items ((m, c) :: items)
  = match c with Fresh => Datatypes.S (fresh_items items) | Duplicate => fresh_items items end.
Proof. unfold fresh_items, count_fresh. by destruct c. Qed.

(** The savepoint is renewed and the rest of the batch runs. *)
Lemma renew_and_loop_wp conn m items F F' d d' r results w0 w sp :
  (forall pending F d results w,
     (up -> healthy w) -> working w conn = Some d -> pending = fresh_items items ->
     savepoint_open conn pending d w ->
     wp ev (Impl.process_many_loop self conn handler items pending F results)
        (loop_post conn items F d results w) w) ->
  (up -> healthy w0) -> quiet w0 w -> working w conn = Some d' -> saved w conn = Some sp ->
  (forall rs d'', batch_runs (id self) h items F' d' rs d'' ->
                  batch_runs (id self) h ((m, Fresh) :: items) F d (r :: rs) d'') ->
  wp ev (_ <-? (if decide (0 < fresh_items items)
                then Store.release_and_savepoint (store self) conn
                else Store.release (store self) conn) ;;
         Impl.process_many_loop self conn handler items (fresh_items items) F' (results ++ [r]))
     (loop_post conn ((m, Fresh) :: items) F d results w0) w.
Proof.
  intros IH Hup Hq0 Hw Hs Hstep. apply wp_bind_try.
  eapply renew_savepoint_wp; [done|done|].
  intros [[[]|e]|s|] w2 Hq2 Ha; simpl in Ha |- *; [| |done|].
  - destruct Ha as [Hw2 Hsp2].
    eapply wp_mono; [apply IH; [|done..]; intros u; by apply Hq2, Hq0, Hup|]. intros o w' Hl.
    eapply loop_post_quiet; [by eapply quiet_trans|].
    by eapply loop_post_step.
  - split; [by eapply quiet_trans|]. intros Hh. by apply Ha, Hq0.
  - by split; [eapply quiet_trans|].
Qed.

Lemma process_many_loop_wp conn items : forall pending F d results w,
  Forall message_ok items.*1 -> (up -> healthy w) ->
  working w conn = Some d -> pending = fresh_items items -> savepoint_open conn pending d w ->
  wp ev (Impl.process_many_loop self conn handler items pending F results)
     (loop_post conn items F d results w) w.
Proof.
  induction items as [|[m c] items IH]; intros pending F d results w Hids Hup Hw -> Hsp.
  { apply wp_ret. split; [apply quiet_refl|]. exists [], d. rewrite app_nil_r.
    split; [done|]. split; [constructor|done]. }
  simpl in Hids. apply Forall_cons in Hids as [Hm Hids].
  rewrite fresh_items_cons in *. destruct c; simpl.
  2: { case_decide as HF; (eapply wp_mono; [by apply IH|]); intros o w';
       apply loop_post_step; intros; by constructor. }
  assert (saved w conn = Some d) as Hsaved by (apply Hsp; lia).
  apply wp_bind. eapply wp_mono; [by apply Hhandler|].
  intros [[v|e]|s|] w1 [Hq1 Ha]; simpl.
  - destruct Ha as (d1 & Hr & Hw1 & Hs1). rewrite Hsaved in Hs1.
    apply wp_bind_try, wp_ret; simpl.
    eapply renew_and_loop_wp; eauto. intros; by econstructor.
  - destruct Ha as [Hf Hs1]. rewrite Hsaved in Hs1.
    apply wp_bind_try. apply (undo_wp conn m d w w1); [done|done|done| | |].
    + intros e' w' Hq Hh. by split.
    + intros w' Hq. by split.
    + intros w2 Hq2 Hw2 Hs2. apply wp_ret; simpl.
      eapply renew_and_loop_wp; eauto. intros; by econstructor.
  - split; [done|]. exists m, d. split; [by left|done].
  - by split.
Qed.

Lemma fresh_items_zip (ids : list MessageId) (claims : list Claim) :
  length claims = length ids -> fresh_items (zip ids claims) = count_fresh claims.
Proof. intros Hl. unfold fresh_items. by rewrite snd_zip by lia. Qed.

(** The outcome of everything between [begin] and [commit]. *)
Definition body_post (conn : Conn) (ids : list MessageId) (before : Db App) (w : W)
    (o : outcome (result (list (ProcessResult T)) InboxError)) (w' : W) : Prop :=
  quiet w w' /\
  match o with
  | Done (Ok rs) => exists after, batch_effect (id self) h ids before rs after /\
      working w' conn = Some after
  | Done (Error _) => ~ healthy w
  | Panicked s => exists m d, m ∈ ids /\ panics (h m) d s
  | Cancelled => True
  end.

Lemma claimed_loop_wp conn (ids : list MessageId) before w w1 :
  let cs := fst (claim_each (id self) ids before) in
  let d := snd (claim_each (id self) ids before) in
  Forall message_ok ids -> (up -> healthy w) -> quiet w w1 -> working w1 conn = Some d ->
  savepoint_open conn (count_fresh cs) d w1 ->
  wp ev (Impl.process_many_loop self conn handler (zip ids cs) (count_fresh cs) ∅ [])
     (body_post conn ids before w) w1.
Proof.
  intros cs d Hids Hup Hq1 Hw1 Hsp1.
  pose proof (claim_each_length (id self) ids before) as Hlen. fold cs in Hlen.
  assert ((zip ids cs).*1 = ids) as Hfst by (apply fst_zip; lia).
  eapply wp_mono.
  - apply process_many_loop_wp with (d := d); [by rewrite Hfst|intros u; by apply Hq1, Hup|done| |done].
    by rewrite fresh_items_zip.
  - intros o w' Hp%(loop_post_quiet _ _ _ _ _ w1 w); [|done].
    destruct Hp as [Hq Ho]. split; [done|]. rewrite Hfst in Ho.
    destruct o as [[rs|e]|s|]; try done.
    destruct Ho as (rs' & d' & -> & Hr & Hw'). by exists d'.
Qed.

(** Claims, savepoint and loop. *)
Lemma process_many_body_wp conn (ids : list MessageId) before w :
  Forall message_ok ids -> (up -> healthy w) ->
  working w conn = Some before -> saved w conn = None ->
  wp ev (claims <-? Impl.claim_many self conn ids ;;
         _ <-? (if decide (0 < count_fresh claims)
                then Store.savepoint (store self) conn
                else Ret (Ok tt)) ;;
         Impl.process_many_loop self conn handler (zip ids claims) (count_fresh claims) ∅ [])
     (body_post conn ids before w) w.
Proof.
  intros Hids Hup Hw Hs. apply wp_bind_try.
  eapply wp_mono; [by apply (claim_many_wp ev self conn ids w before)|].
  intros [[cs|e]|s|] w1 [Hq1 Ha]; simpl in Ha |- *; [|done..].
  destruct Ha as (-> & Hw1 & Hs1). rewrite Hs in Hs1.
  apply wp_bind_try. case_decide as Hp.
  - eapply wp_mono; [by apply law_savepoint|].
    intros [[[]|e]|s|] w2 [Hq2 Ha]; simpl in Ha |- *; [| |done|].
    + apply claimed_loop_wp; [done|done|by eapply quiet_trans|tauto|].
      unfold savepoint_open. tauto.
    + split; [by eapply quiet_trans|]. intros Hh. by apply Ha, Hq1.
    + by split; [eapply quiet_trans|].
  - apply wp_ret; simpl. apply claimed_loop_wp; [done..|]. unfold savepoint_open. simpl in *. lia.
Qed.

Lemma process_many_wp (ids : list MessageId) (w : W) :
  Forall message_ok ids -> (up -> healthy w) ->
  wp ev (Impl.process_many self ids handler)
    (fun o w' => many_ends (id self) h ids (healthy w) (committed w) o (committed w') /\
                 (healthy w -> healthy w')) w.
Proof.
  intros Hids Hup. unfold Impl.process_many. case_decide as Hne.
  { apply wp_ret. subst ids. split; [|done]. apply many_done. constructor. }
  apply wp_bind_try. eapply wp_mono; [apply law_begin|].
  intros [[tx|e]|s|] w1 [[Hc1 Hu1] Ha]; simpl in Ha |- *; try done;
    [|rewrite Hc1; split; [by constructor|done]..].
  destruct Ha as [Hw1 Hs1].
  apply (wp_bind_try_owning (S := S) ev). eapply wp_mono; [by apply process_many_body_wp; [|intros u; apply Hu1, Hup|..]|].
  intros [[rs|e]|s|] w2 [[Hc2 Hu2] Ha]; simpl in Ha |- *; rewrite Hc1 in Hc2.
  - destruct Ha as (after & Hb & Hw2).
    apply wp_bind_try. eapply wp_mono; [by apply law_commit|].
    intros [[[]|e]|s|] w3 (Hor & Hu3 & Ha); simpl in Ha |- *; [| |done|].
    + apply wp_ret. rewrite Ha. split; [by constructor|auto].
    + split; [|auto]. destruct Hor as [-> | ->]; [rewrite Hc2; constructor; tauto|].
      eapply many_commit_unknown; eauto.
    + split; [|auto]. destruct Hor as [-> | ->]; [rewrite Hc2; constructor|].
      by eapply many_cancelled_in_commit.
  - intros w3 [Hc3 Hu3]. rewrite Hc3, Hc2. split; (split; [constructor; tauto|auto]).
  - intros w3 [Hc3 Hu3]. rewrite Hc3, Hc2. destruct Ha as (m & d & Hin & Hp).
    split; [by eapply many_panicked|auto].
  - intros w3 [Hc3 Hu3]. rewrite Hc3, Hc2. split; [constructor|auto].
Qed.

End Loop.

(** C13 (the batch returns). On a healthy backend, run to completion with
    handlers that behave there and do not panic, [process_many] returns [Ok]
    with the results of the abstract batch and commits its database, however
    many handlers fail. *)
Theorem process_many_healthy (ids : list MessageId) (w w' : W) o :
  (forall conn m, message_ok m -> meets_while ev True conn (handler conn m) (h m)) ->
  Forall message_ok ids -> (forall m d s, ~ panics (h m) d s) -> healthy w ->
  exec ev (Impl.process_many self ids handler) w = (o, w') ->
  exists rs, o = Done (Ok rs) /\
    batch_effect (id self) h ids (committed w) rs (committed w').
Proof.
  intros Hh Hids Hnp Hup Hx.
  destruct (wp_exec ev _ _ _ _ _ (process_many_wp True Hh ids w Hids (fun _ => Hup)) Hx) as [[He _] Hnc].
  remember (committed w') as after eqn:Ha.
  destruct He; try done; [eauto|by exfalso; eapply Hnp].
Qed.

(** ** The batch against one call of [process] per message *)

(** Calls [process] for each id in turn, each in a transaction of its own; an
    id whose call failed in its handler is not tried again, its repeats are
    reported.  [None] when a call ends in any other way. *)
Fixpoint process_each (ids : list MessageId) (failed : gset str) (w : W)
  : option (list (ProcessResult T)) * W :=
  match ids with
  | [] => (Some [], w)
  | m :: ids =>
      if decide (Message_Id.as_str m ∈ failed) then
        let '(rs, w') := process_each ids failed w in
        (cons (Error (earlier_failed m)) <$> rs, w')
      else
        match exec ev (Impl.process self m (fun conn => handler conn m)) w with
        | (Done (Ok r), w1) =>
            let '(rs, w') := process_each ids failed w1 in (cons (Ok r) <$> rs, w')
        | (Done (Error (Handler e)), w1) =>
            let '(rs, w') := process_each ids ({[Message_Id.as_str m]} ∪ failed) w1 in
            (cons (Error e) <$> rs, w')
        | (_, w1) => (None, w1)
        end
  end.

Section Each.
Hypothesis Hhandler : forall conn m, message_ok m ->
  meets_while ev True conn (handler conn m) (h m).
Hypothesis Hnp : forall m d s, ~ panics (h m) d s.

(** On a healthy backend the calls come to an end, and what they do is the
    sequential run. *)
Lemma process_each_runs (ids : list MessageId) : forall F w rs w',
  Forall message_ok ids -> healthy w -> process_each ids F w = (rs, w') ->
  exists l, rs = Some l /\ seq_runs (id self) h ids F (committed w) l (committed w').
Proof.
  induction ids as [|m ids IH]; intros F w rs w' Hids Hup Hx; simpl in Hx.
  { simplify_eq. exists []. by split; [|constructor]. }
  apply Forall_cons in Hids as [Hm Hids]. case_decide as HF.
  { destruct (process_each ids F w) as [rs1 w1] eqn:Hr. simplify_eq.
    destruct (IH _ _ _ _ Hids Hup Hr) as (l & -> & Hl).
    eexists. split; [done|]. by constructor. }
  destruct (exec ev _ w) as [o w1] eqn:Hp.
  destruct (wp_exec ev _ _ _ _ _ (process_wp ev True self m (fun conn => handler conn m) (h m) w
    Hself Hm (fun conn => Hhandler conn m Hm) (fun _ => Hup)) Hp) as [[He Hu] Hnc].
  specialize (Hu Hup).
  assert (forall F' r rs1, process_each ids F' w1 = (rs1, w') ->
    (forall l, seq_runs (id self) h ids F' (committed w1) l (committed w') ->
               seq_runs (id self) h (m :: ids) F (committed w) (r :: l) (committed w')) ->
    exists l, cons r <$> rs1 = Some l /\
      seq_runs (id self) h (m :: ids) F (committed w) l (committed w')) as Hstep.
  { intros F' r rs1 Hr Hs. destruct (IH _ _ _ _ Hids Hu Hr) as (l & -> & Hl).
    eexists. split; [done|]. auto. }
  remember (committed w1) as d1 eqn:Hd1.
  destruct He as [v d1 Hk Hr|Hk|e Hk Hf|e Hd|e v d1 Hd|s Hk Hpn| |]; try done;
    [| | |by destruct (Hnp _ _ _ Hpn)];
    destruct (process_each ids _ w1) as [rs1 w2] eqn:Hr1; simplify_eq;
    (eapply Hstep; [done|]; intros l Hl).
  - by eapply seq_processed.
  - by apply seq_duplicate.
  - by apply seq_failed.
Qed.

(** C6 (the batch is one [process] per message). On a healthy backend, for
    handlers that leave the inbox table alone, do not panic and whose result is
    determined by the database they run on, [process_many] returns [Ok], and
    calling [process] for the same messages one after the other from the same
    committed database, each call in its own transaction, returns the same
    results and leaves the same committed database, a repeat of a failed
    message apart, which the batch reports and does not try again. *)
Theorem process_many_as_process_each (ids : list MessageId) (w w' w0 w0' : W) o rs0 :
  Forall message_ok ids -> (forall m, app_only (h m)) -> (forall m, determined (h m)) ->
  healthy w -> healthy w0 -> committed w0 = committed w ->
  exec ev (Impl.process_many self ids handler) w = (o, w') ->
  process_each ids ∅ w0 = (rs0, w0') ->
  exists rs, o = Done (Ok rs) /\ rs0 = Some rs /\ committed w' = committed w0'.
Proof.
  intros Hids Happ Hdet Hup Hup0 Hc Hx Hx0.
  destruct (process_each_runs _ _ _ _ _ Hids Hup0 Hx0) as (rs1 & -> & H1). rewrite Hc in H1.
  destruct (wp_exec ev _ _ _ _ _ (process_many_wp True Hhandler ids w Hids (fun _ => Hup)) Hx)
    as [[He _] Hnc].
  remember (committed w') as after eqn:Ha.
  destruct He as [rs d Hb| | |s m d Hin Hp| |]; try done; [|by destruct (Hnp _ _ _ Hp)].
  destruct (seq_runs_determined _ _ Hdet _ _ _ _ _ H1 rs d) as [-> ->]; [|eauto].
  eapply (batch_seq _ _ Happ); [apply seq_link_init|exact Hb].
Qed.
End Each.

Hypothesis Hhandler : forall conn m, meets ev conn (handler conn m) (h m).

Lemma many_wp (ids : list MessageId) (w : W) :
  Forall message_ok ids ->
  wp ev (Impl.process_many self ids handler)
    (fun o w' => many_ends (id self) h ids (healthy w) (committed w) o (committed w') /\
                 (healthy w -> healthy w')) w.
Proof.
  intros Hids. apply (process_many_wp False); [|done|done].
  intros conn m _. by apply meets_meets_while.
Qed.

(** C5 (every end of [process_many]). Over a store that keeps its contract, a
    call ends in one of the ways of [many_ends], whatever fails and wherever it
    is cancelled: either the whole abstract batch is committed, or nothing is;
    only an unhealthy backend produces the outer error; and neither the
    subtraction on the pending count nor the answer lookup can panic. *)
Theorem process_many_refines (ids : list MessageId) (w : W) (b : budget) :
  Forall message_ok ids ->
  let '(o, _, w') := run ev b (Impl.process_many self ids handler) w in
  many_ends (id self) h ids (healthy w) (committed w) o (committed w') /\
  (healthy w -> healthy w').
Proof. intros Hids. exact (many_wp ids w Hids b). Qed.

Hypothesis Hkeys : forall m, keeps_keys (id self) (h m).

(** C14 (what may be acknowledged). When [process_many] returns its results there
    is one per id in input order, and a result is [Ok] exactly when its message
    is recorded in the committed database: acknowledging the [Ok]s loses no
    message, and a failed message stays unclaimed whatever the rest of the
    batch does.  A message known before the batch is a [Duplicate]; otherwise
    its first occurrence carries its handler's result, and a repeat is
    [Duplicate] or reports the earlier failure, never a second run. *)
Theorem process_many_reports (ids : list MessageId) (w w' : W) b b' rs :
  Forall message_ok ids ->
  run ev b (Impl.process_many self ids handler) w = (Done (Ok rs), b', w') ->
  length rs = length ids /\
  forall i m r, ids !! i = Some m -> rs !! i = Some r ->
    let k := key (id self) m in
    (is_ok r = true <-> k ∈ recorded (committed w')) /\
    (k ∈ recorded (committed w) -> r = Ok OutcomeDuplicate) /\
    (k ∉ recorded (committed w) -> m ∉ take i ids ->
       (exists v, r = Ok (Processed v)) \/ (exists e d, r = Error e /\ fails (h m) d e)) /\
    (k ∉ recorded (committed w) -> m ∈ take i ids ->
       r = Ok OutcomeDuplicate \/ r = Error (earlier_failed m)).
Proof.
  intros Hids Hx. pose proof (many_wp ids w Hids b) as Hp. rewrite Hx in Hp.
  destruct Hp as [He _]. inversion He as [? ? Hb| | | | |]; subst. clear He.
  unfold batch_effect in Hb. split.
  { rewrite (batch_runs_length _ _ _ _ _ _ _ Hb), length_zip_with, claim_each_length. lia. }
  intros i m r Hi Hr k.
  pose proof (batch_ok_recorded _ _ Hkeys _ _ _ _ _ _ _ _ _
                (batch_inv_init _ _ _) Hb Hi Hr) as Hok.
  destruct (batch_result_kind _ _ _ _ _ _ _ _ _ _ _ Hb Hi Hr) as [Hd Hf].
  split; [done|]. split; [|by split; [naive_solver|intros ? ?; apply Hd; auto]].
  intros Hk. by eapply (batch_known _ _ Hkeys).
Qed.
End Refinement.

(** ** Witnesses on the in-memory store *)

(** Appends the id to the effects table, then fails on a poison. *)
Definition poison_handler (poisons : list MessageId) (conn : nat) (m : MessageId)
  : prog memE (result unit HandlerError) :=
  r <- mem_effect conn (Message_Id.as_str m) ;;
  match r with
  | Ok _ => Ret (if decide (m ∈ poisons) then Error (EString (lit "poison")) else Ok tt)
  | Error e => Ret (Error e)
  end.

Definition poison_spec (poisons : list MessageId) (m : MessageId)
  : HandlerSpec (list str) unit := {|
  returns d _ d' := m ∉ poisons /\ d' = mkDb (recorded d) (app d ++ [Message_Id.as_str m]);
  fails _ e := (m ∈ poisons /\ e = EString (lit "poison")) \/ exists x, e = EInbox x;
  panics _ _ := False;
|}.

Lemma poison_meets poisons conn m :
  meets mem_ev conn (poison_handler poisons conn m) (poison_spec poisons m).
Proof.
  intros w d Hw. apply wp_bind. unfold handled.
  eapply wp_mono; [by apply mem_effect_meets|].
  intros [[v|e]|s|] w1 [Hq Ha]; simpl in Ha |- *; try done.
  - destruct Ha as (d' & -> & Hw1 & Hs1). apply wp_ret. split; [done|].
    case_decide; eauto 8.
  - destruct Ha as [He Hs]. apply wp_ret. split; [done|]. eauto.
Qed.

Lemma poison_keeps_keys poisons c m : keeps_keys c (poison_spec poisons m).
Proof. intros d v d' [_ ->]. done. Qed.

(** [m1] poison, [m2] fine, [m3] known, then repeats of [m1] and [m2]. *)
Definition poison_batch : list MessageId := [mid "m1"; mid "m2"; mid "m3"; mid "m1"; mid "m2"].
Definition poison_world : MemWorld :=
  {| mem_committed := mkDb {[key (cid "billing") (mid "m3")]} []; mem_sessions := ∅;
     mem_next := 0; mem_faults := [] |}.
Definition poison_run : prog memE (result (list (ProcessResult unit)) InboxError) :=
  Impl.process_many billing poison_batch (poison_handler [mid "m1"]).

Definition poison_results : list (ProcessResult unit) :=
  [Error (EString (lit "poison")); Ok (Processed tt); Ok OutcomeDuplicate;
   Error (earlier_failed (mid "m1")); Ok OutcomeDuplicate].

Definition poison_after : Db (list str) :=
  mkDb {[key (cid "billing") (mid "m2"); key (cid "billing") (mid "m3")]} [lit "m2"].

Lemma process_many_refines_witness :
  run mem_ev None poison_run poison_world
    = (Done (Ok poison_results), None, snd (run mem_ev None poison_run poison_world)) /\
  let '(o, _, w') := run mem_ev None poison_run poison_world in
  many_ends (cid "billing") (poison_spec [mid "m1"]) poison_batch (healthy poison_world)
    (committed poison_world) o (committed w') /\ (healthy poison_world -> healthy w').
Proof.
  split; [vm_compute; reflexivity|].
  apply (process_many_refines mem_ev billing (poison_handler [mid "m1"])
           (poison_spec [mid "m1"])); [ids_ok| |ids_ok].
  intros conn m. apply poison_meets.
Defined.

Lemma process_many_healthy_witness :
  committed (snd (exec mem_ev poison_run poison_world)) = poison_after /\
  exists rs, fst (exec mem_ev poison_run poison_world) = Done (Ok rs) /\
    batch_effect (cid "billing") (poison_spec [mid "m1"]) poison_batch
      (committed poison_world) rs (committed (snd (exec mem_ev poison_run poison_world))).
Proof.
  split; [vm_compute; reflexivity|].
  apply (process_many_healthy mem_ev billing (poison_handler [mid "m1"])
           (poison_spec [mid "m1"])); [ids_ok| |ids_ok| | |].
  - intros conn m _. apply meets_meets_while, poison_meets.
  - intros m d s Hp. exact Hp.
  - apply List.Forall_nil.
  - apply surjective_pairing.
Defined.

Lemma process_many_reports_witness :
  length poison_results = length poison_batch /\
  (is_ok (Error (EString (lit "poison")) : ProcessResult unit) = true <->
   key (cid "billing") (mid "m1")
     ∈ recorded (committed (snd (run mem_ev None poison_run poison_world)))).
Proof.
  destruct (process_many_reports mem_ev billing (poison_handler [mid "m1"])
    (poison_spec [mid "m1"]) ltac:(ids_ok) (fun conn m => poison_meets _ conn m)
    (fun m => poison_keeps_keys _ _ m) poison_batch poison_world
    (snd (run mem_ev None poison_run poison_world)) None None poison_results)
    as [Hlen H]; [ids_ok|vm_compute; reflexivity|].
  split; [exact Hlen|].
  apply (H 0 (mid "m1") (Error (EString (lit "poison")))); reflexivity.
Defined.

(** On a healthy backend the handler fails on the poisons only. *)
Definition poison_exact (poisons : list MessageId) (m : MessageId)
  : HandlerSpec (list str) unit := {|
  returns d _ d' := m ∉ poisons /\ d' = mkDb (recorded d) (app d ++ [Message_Id.as_str m]);
  fails _ e := m ∈ poisons /\ e = EString (lit "poison");
  panics _ _ := False;
|}.

Lemma mem_effect_healthy conn line :
  meets_while mem_ev True conn (mem_effect conn line)
    {| returns d (_ : unit) d' := d' = mkDb (recorded d) (app d ++ [line]);
       fails _ _ := False; panics _ _ := False |}.
Proof.
  intros w d Hup Hw. unfold handled. apply wp_bind, wp_trigger; simpl.
  { by split; [apply quiet_refl|]. }
  intros a w' Ha.
  match goal with |- _ /\ wp _ _ ?Q _ => enough (Q (Done (map_err EInbox a)) w') as HQ end.
  { split; [split; [apply HQ|done]|by apply wp_ret]. }
  specialize (Hup I). unfold quiet; simpl in *.
  apply fmap_Some in Hw as ([d0 s0] & Hs & ->).
  unfold mem_ev, on_session, faulty in Ha. simpl in Ha. rewrite Hs in Ha.
  destruct (mem_faults w) as [|[e|] l] eqn:Hf; simplify_map_eq.
  - eauto 7.
  - by apply Forall_cons in Hup as [? _].
  - split; [split; [done|]|eauto 7]. by inversion 1.
Qed.

Lemma poison_exact_meets poisons conn m :
  meets_while mem_ev True conn (poison_handler poisons conn m) (poison_exact poisons m).
Proof.
  intros w d Hup Hw. apply wp_bind. unfold handled.
  eapply wp_mono; [by apply mem_effect_healthy|].
  intros [[v|e]|s|] w1 [Hq Ha]; simpl in Ha |- *; try done; [|by destruct Ha].
  destruct Ha as (d' & -> & Hw1 & Hs1). apply wp_ret. split; [done|].
  case_decide; eauto 8.
Qed.

Lemma poison_determined poisons m : determined (poison_exact poisons m).
Proof. intros d. simpl. split; [|split]; [intros [] ? []|..]; naive_solver. Qed.

(** One call of [process] per message of the batch. *)
Definition poison_each : option (list (ProcessResult unit)) * MemWorld :=
  process_each mem_ev billing (poison_handler [mid "m1"]) poison_batch ∅ poison_world.

Lemma process_many_as_process_each_witness :
  fst (exec mem_ev poison_run poison_world) = Done (Ok poison_results) /\
  committed (snd poison_each) = poison_after /\
  exists rs, fst (exec mem_ev poison_run poison_world) = Done (Ok rs) /\
    fst poison_each = Some rs /\
    committed (snd (exec mem_ev poison_run poison_world)) = committed (snd poison_each).
Proof.
  split; [vm_compute; reflexivity|]. split; [vm_compute; reflexivity|].
  apply (process_many_as_process_each mem_ev billing (poison_handler [mid "m1"])
    (poison_exact [mid "m1"]) ltac:(ids_ok) (fun conn m _ => poison_exact_meets _ conn m)
    (fun m d s Hp => Hp) poison_batch poison_world _ poison_world _ _ _).
  - ids_ok.
  - intros m. split; [|done]. intros d v d' [Hm ->]. split; [done|]. by intros R.
  - intros m. apply poison_determined.
  - apply List.Forall_nil.
  - apply List.Forall_nil.
  - reflexivity.
  - apply surjective_pairing.
  - apply surjective_pairing.
Defined.
