(* ===== verification/Steps.v ===== *)
(** * Programs in small steps, and protocols

    For concurrent calls a program runs one awaited effect at a time
    ([pstep]); it may be dropped or panic anywhere, and then runs the
    destructors of the scopes it is in.  A protocol says in which phase which
    effects are allowed; a program that keeps to it whatever it is answered
    ([obeys]) does so in every step of every run. *)

From S2P Require Import Prelude.

(** ** Programs, step by step *)

Section Steps.
Context {E : Type -> Type} {G : Type}.
Variable can : forall A, E A -> G -> A -> G -> Prop.

(** One step of [p]: its next effect takes place, or a scope is left. *)
Fixpoint pstep {R} (p : prog E R) (g : G) (p' : prog E R) (g' : G) : Prop :=
  match p with
  | Ret _ | Panic _ => False
  | Vis e k => exists a, can _ e g a g' /\ p' = k a
  | Scope c body k =>
      match body with
      | Ret a => p' = k a /\ g' = g
      | _ => exists body', pstep body g body' g' /\ p' = Scope c body' k
      end
  end.

(** What runs when [p] is dropped where it stands, or unwinds: the destructors
    of the scopes it is in, from the inside out. *)
Fixpoint dropped {R} (p : prog E R) : prog E unit :=
  match p with
  | Scope c body _ => _ <- dropped body ;; c
  | _ => Ret tt
  end.

(** A call that runs, or that was dropped or panicked and runs destructors. *)
Inductive thread (R : Type) : Type :=
| Running (p : prog E R)
| Unwinding (p : prog E unit).

(** One step of a thread.  It may be dropped, or panic, at any point. *)
Inductive thread_step {R} : thread R -> G -> thread R -> G -> Prop :=
| thread_runs p p' g g' :
    pstep p g p' g' -> thread_step (Running _ p) g (Running _ p') g'
| thread_dropped p g : thread_step (Running _ p) g (Unwinding _ (dropped p)) g
| thread_unwinds p p' g g' :
    pstep p g p' g' -> thread_step (Unwinding _ p) g (Unwinding _ p') g'.
End Steps.
Arguments thread _ _ : clear implicits.
Arguments Running {_ _} _.
Arguments Unwinding {_ _} _.

(** ** Protocols *)

Section Protocol.
Context {E : Type -> Type} {Phase : Type}.

(** [next s e a s']: in phase [s] the protocol allows the effect [e], and the
    answer [a] leads to phase [s']. *)
Variable next : Phase -> forall A, E A -> A -> Phase -> Prop.

(** From phase [s] on, [p] keeps to the protocol whatever it is answered, ends
    in a phase that satisfies [Q], and wherever it is dropped the phase
    satisfies [C]. *)
Fixpoint obeys {R} (p : prog E R) (Q : R -> Phase -> Prop) (C : Phase -> Prop) (s : Phase)
  : Prop :=
  match p with
  | Ret r => C s /\ Q r s
  | Panic _ => C s
  | Vis e k => C s /\ forall a, exists s', next s _ e a s' /\ obeys (k a) Q C s'
  | Scope c body k =>
      obeys body (fun a s' => obeys (k a) Q C s')
        (fun s' => obeys c (fun _ s'' => C s'') (fun _ => True) s') s
  end.

Lemma obeys_mono {R} (p : prog E R) (Q Q' : R -> Phase -> Prop) (C C' : Phase -> Prop) s :
  obeys p Q C s -> (forall r s, Q r s -> Q' r s) -> (forall s, C s -> C' s) -> obeys p Q' C' s.
Proof.
  revert Q Q' C C' s.
  induction p as [R r|R m|R A e k IH|R A c IHc body IHb k IH]; intros Q Q' C C' s; simpl.
  - intros [? ?]. auto.
  - auto.
  - intros [Hc H] HQ HC. split; [auto|]. intros a. specialize (H a).
    destruct H as (s' & ? & ?). eauto.
  - intros H HQ HC. eapply IHb; [exact H| |]; simpl; intros; [eauto|].
    eapply IHc; eauto.
Qed.

Lemma obeys_bind {A B} (p : prog E A) (f : A -> prog E B) (Q : B -> Phase -> Prop) C s :
  obeys p (fun a s' => obeys (f a) Q C s') C s -> obeys (bind p f) Q C s.
Proof.
  revert s. induction p as [R r|R m|R A' e k IH|R A' c IHc body IHb k IH]; intros s; simpl.
  - by intros [_ ?].
  - done.
  - intros [Hc H]. split; [done|]. intros a. specialize (H a).
    destruct H as (s' & ? & ?). eauto.
  - intros H. eapply obeys_mono; [exact H| |done]. simpl. auto.
Qed.

(** Dropping a program that keeps to the protocol does so too. *)
Lemma obeys_dropped {R} (p : prog E R) Q C s :
  obeys p Q C s -> obeys (dropped p) (fun _ s' => C s') (fun _ => True) s.
Proof.
  revert Q C s. induction p as [R r|R m|R A e k IH|R A c IHc body IHb k IH]; intros Q C s; simpl;
    [by intros [? _]|done|by intros [? _]|].
  intros H%IHb. by apply obeys_bind.
Qed.

(** A step is silent, or one effect that the protocol allows. *)
Lemma obeys_step {G R} (can : forall A, E A -> G -> A -> G -> Prop) (p p' : prog E R) Q C s g g' :
  obeys p Q C s -> pstep can p g p' g' ->
  (g' = g /\ obeys p' Q C s) \/
  (exists A (e : E A) a s', can A e g a g' /\ next s A e a s' /\ obeys p' Q C s').
Proof.
  revert p' Q C s. induction p as [R r|R m|R A e k IH|R A c _ body IHb k IH];
    intros p' Q C s; simpl; [done|done| |].
  - intros [_ H] (a & Hcan & ->). right. specialize (H a).
    destruct H as (s' & ? & ?). eauto 8.
  - intros H. assert (forall body', pstep can body g body' g' ->
      p' = Scope c body' k -> (g' = g /\ obeys p' Q C s) \/
      (exists A (e : E A) a s', can A e g a g' /\ next s A e a s' /\ obeys p' Q C s'))
      as Hbody.
    { intros body' Hst ->. destruct (IHb body' _ _ s H Hst) as [[-> ?]|(A' & e & a & s' & ?)];
        [by left|right; eauto 8]. }
    destruct body; [|by intros (? & [] & _)|naive_solver..].
    intros [-> ->]. left. simpl in H. by destruct H.
Qed.
End Protocol.

(** ** Composing programs that keep to a protocol *)

Section Rules.
Context {E : Type -> Type} {Phase : Type}.
Variable next : Phase -> forall A, E A -> A -> Phase -> Prop.

(** An effect and what follows. *)
Lemma obeys_call {A B} (e : E A) (f : A -> prog E B) Q (C : Phase -> Prop) s :
  C s -> (forall a, exists s', next s A e a s' /\ obeys next (f a) Q C s') ->
  obeys next (bind (trigger e) f) Q C s.
Proof. by split. Qed.

Lemma obeys_trigger {A} (e : E A) (Q : A -> Phase -> Prop) (C : Phase -> Prop) s :
  C s -> (forall a, exists s', next s A e a s' /\ C s' /\ Q a s') -> obeys next (trigger e) Q C s.
Proof. by split. Qed.

Lemma obeys_bind_try {A B Err} (p : prog E (result A Err)) (f : A -> prog E (result B Err))
    Q (C : Phase -> Prop) s :
  obeys next p (fun r s' => match r with
                            | Ok a => obeys next (f a) Q C s'
                            | Error e => C s' /\ Q (Error e) s'
                            end) C s ->
  obeys next (bind_try p f) Q C s.
Proof.
  intros H. apply obeys_bind. eapply obeys_mono; [exact H| |done]. by intros [a|e] s'.
Qed.

(** The ends and drops of a program that keeps to the protocol are covered. *)
Lemma obeys_scoped {A} (c : prog E unit) (p : prog E A) Q (C : Phase -> Prop) s :
  (forall s', C s' -> obeys next c (fun _ _ => True) (fun _ => True) s') ->
  obeys next p Q C s -> obeys next (scoped_with c p) Q (fun _ => True) s.
Proof.
  intros Hc Hp. unfold scoped_with. cbn [obeys].
  eapply obeys_mono; [exact Hp|by split|exact Hc].
Qed.
End Rules.

(** ** Two protocols at once *)

Section Both.
Context {E : Type -> Type} {Phase Phase' : Type}.
Variable next : Phase -> forall A, E A -> A -> Phase -> Prop.
Variable next' : Phase' -> forall A, E A -> A -> Phase' -> Prop.

Definition both (s : Phase * Phase') (A : Type) (e : E A) (a : A) (s' : Phase * Phase') : Prop :=
  next (fst s) A e a (fst s') /\ next' (snd s) A e a (snd s').

Lemma obeys_both {R} (p : prog E R) (Q : R -> Phase -> Prop) (Q' : R -> Phase' -> Prop)
    (C : Phase -> Prop) (C' : Phase' -> Prop) s s' :
  obeys next p Q C s -> obeys next' p Q' C' s' ->
  obeys both p (fun r s => Q r (fst s) /\ Q' r (snd s)) (fun s => C (fst s) /\ C' (snd s)) (s, s').
Proof.
  revert Q Q' C C' s s'.
  induction p as [R r|R m|R A e k IH|R A c IHc body IHb k IH]; intros Q Q' C C' s s'; simpl.
  - intros [? ?] [? ?]. auto.
  - auto.
  - intros [Hc H] [Hc' H']. split; [auto|]. intros a. specialize (H a). specialize (H' a).
    destruct H as (s1 & ? & ?), H' as (s1' & ? & ?). exists (s1, s1'). split; [by split|]. auto.
  - intros H H'. eapply obeys_mono; [by eapply IHb| |]; simpl.
    + intros a [s1 s1'] [? ?]. by apply IH.
    + intros [s1 s1'] [Hc Hc']. eapply obeys_mono; [by apply IHc|done|done].
Qed.

Lemma obeys_first {R} (p : prog E R) (Q : R -> Phase -> Prop) (C : Phase -> Prop) s :
  obeys both p (fun r s => Q r (fst s)) (fun s => C (fst s)) s -> obeys next p Q C (fst s).
Proof.
  revert Q C s. induction p as [R r|R m|R A e k IH|R A c IHc body IHb k IH]; intros Q C s; simpl.
  - done.
  - done.
  - intros [Hc H]. split; [done|]. intros a. specialize (H a). destruct H as (s1 & [Hn _] & Hk).
    exists (fst s1). split; [done|]. by apply IH.
  - intros H. apply (IHb (fun a s1 => obeys next (k a) Q C s1)
      (fun s1 => obeys next c (fun _ s2 => C s2) (fun _ => True) s1)).
    eapply obeys_mono; [exact H| |]; simpl.
    + intros a s1. apply IH.
    + intros s1. apply (IHc (fun _ s2 => C s2) (fun _ => True)).
Qed.
End Both.
#[global] Arguments obeys : simpl never.
