(* ===== verification/SharedDb.v ===== *)
(** * A database shared by concurrent transactions

    What concurrent calls of [Consumer]'s methods run on: a store whose calls
    are the effects [storeE], over a database with open transactions that lock
    the rows they claim.  What is assumed of it ([can]) is what the documentation
    of [InboxStore] and [Savepoints] asks of a backend: a claim is atomic; a
    claim of a row that another open transaction has claimed waits for that
    transaction; what a transaction did becomes visible when it commits, at once,
    and is undone when it ends otherwise; a savepoint restores what the
    transaction saw.  Everything else may happen: the database ends transactions
    on its own, a purge removes rows of messages that are not delivered any
    more, and calls fail.  A failed statement may leave its transaction as it
    was, end it, or leave it open but failed, as PostgreSQL does: everything
    since the savepoint, or all of it, is undone, nothing is assumed of further
    statements but ROLLBACK TO the savepoint, and COMMIT rolls it back, also
    where it answers [Ok].

    A transaction that follows the protocol [next] and commits only the complete
    effects of the messages it claimed keeps the invariant of this file,
    whatever the other transactions do. *)

From S2P Require Import Prelude Text Errors Durations Types Store Consumer Steps.

(** A message of a consumer, and its row. *)
Abbreviation Msg := (ConsumerId * MessageId)%type.
Definition mkey (x : Msg) : str * str := key (fst x) (snd x).

#[export] Instance mkey_inj : Inj (=) (=) mkey.
Proof. intros [[a] [b]] [[c] [d]] [= -> ->]. done. Qed.

Section Shared.
Context {Item : Type}.

(** ** Transactions *)

(** What an open transaction holds: the rows it claimed, what its handlers
    wrote, and both as they were at its savepoint; and whether a statement of it
    has failed since. *)
Record TxState := mkTxState {
  tx_claims : gset (str * str);
  tx_writes : list Item;
  tx_save : option (gset (str * str) * list Item);
  tx_failed : bool;
}.

Abbreviation mkTx claims writes save := (mkTxState claims writes save false).

Definition empty_tx : TxState := mkTx ∅ [] None.

Definition claim_tx (k : str * str) (t : TxState) : TxState :=
  mkTx ({[k]} ∪ tx_claims t) (tx_writes t) (tx_save t).

(** What a call knows of its transaction after a failed statement. *)
Definition fail_tx (t : TxState) : TxState :=
  mkTxState (tx_claims t) (tx_writes t) (tx_save t) true.

(** The statements on an open transaction other than claims. *)
Inductive stmt : Type :=
| Write (x : Item)
| Savepoint
| ReleaseAndSavepoint
| Release
| RollbackTo
| Unclaim (k : str * str).

(** What a successful statement does; [None] where nothing is assumed about it:
    a savepoint set twice or not set, a row deleted that the transaction did
    not claim, or anything but ROLLBACK TO after a failed statement. *)
Definition apply_stmt (st : stmt) (t : TxState) : option TxState :=
  match st, tx_save t with
  | RollbackTo, Some (ks, ws) => Some (mkTx ks ws (Some (ks, ws)))
  | RollbackTo, None => None
  | _, save =>
  if tx_failed t then None else
  match st, save with
  | Write x, _ => Some (mkTx (tx_claims t) (tx_writes t ++ [x]) (tx_save t))
  | Savepoint, None | ReleaseAndSavepoint, Some _ =>
      Some (mkTx (tx_claims t) (tx_writes t) (Some (tx_claims t, tx_writes t)))
  | Release, Some _ => Some (mkTx (tx_claims t) (tx_writes t) None)
  | Unclaim k, _ =>
      if decide (k ∈ tx_claims t)
      then Some (mkTx (tx_claims t ∖ {[k]}) (tx_writes t) (tx_save t)) else None
  | _, _ => None
  end
  end.

(** The rows a transaction must keep locked. *)
Definition needed (t : TxState) : gset (str * str) :=
  tx_claims t ∪ match tx_save t with Some (ks, _) => ks | None => ∅ end.

(** ** The store *)

(** The awaited calls of a store, and a handler's writes through its
    connection. *)
Inductive storeE : Type -> Type :=
| SBegin : storeE (result nat InboxError)
| SCommit (tx : nat) : storeE (result unit InboxError)
| SRollback (tx : nat) : storeE (result unit InboxError)
| SDrop (tx : nat) : storeE unit
| SClaim (tx : nat) (r : ClaimRequest) : storeE (result Claim InboxError)
| SStmt (tx : nat) (st : stmt) : storeE (result unit InboxError)
| SKnown (c : ConsumerId) (m : MessageId) : storeE (result bool InboxError).

Inductive SharedStore : Type := sharedStore.

#[export] Instance shared_tx : Transaction storeE nat nat := {|
  deref_mut tx := tx;
  drop_tx tx := trigger (SDrop tx);
|}.

(** A batch claim locks its rows one after the other. *)
#[export] Instance shared_store : InboxStore SharedStore storeE nat nat := {|
  begin _ := trigger SBegin;
  commit _ tx := trigger (SCommit tx);
  rollback _ tx := trigger (SRollback tx);
  claim _ conn r := trigger (SClaim conn r);
  claim_many _ := default_claim_many (fun conn r => trigger (SClaim conn r));
  is_known_duplicate _ c m := trigger (SKnown c m);
  purge _ _ _ := Ret (Ok 0%Z);
|}.

#[export] Instance shared_savepoints : Savepoints SharedStore storeE nat nat := {|
  savepoint _ conn := trigger (SStmt conn Savepoint);
  release_and_savepoint _ conn := trigger (SStmt conn ReleaseAndSavepoint);
  release _ conn := trigger (SStmt conn Release);
  rollback_to _ conn := trigger (SStmt conn RollbackTo);
  unclaim _ conn c m := trigger (SStmt conn (Unclaim (key c m)));
|}.

(** ** The database *)

(** The committed database; the open transactions with the rows they lock; and
    a number no transaction had yet. *)
Record Shared := {
  sh_db : Db (list Item);
  sh_open : gmap nat (TxState * gset (str * str));
  sh_next : nat;
}.

Definition set_tx (n : nat) (t : TxState) (ls : gset (str * str)) (g : Shared) : Shared :=
  {| sh_db := sh_db g; sh_open := <[n := (t, ls)]> (sh_open g); sh_next := sh_next g |}.

Definition ended (n : nat) (g : Shared) : Shared :=
  {| sh_db := sh_db g; sh_open := delete n (sh_open g); sh_next := sh_next g |}.

Definition begun (g : Shared) : Shared :=
  {| sh_db := sh_db g; sh_open := <[sh_next g := (empty_tx, ∅)]> (sh_open g);
     sh_next := S (sh_next g) |}.

Definition committed_tx (n : nat) (t : TxState) (g : Shared) : Shared :=
  {| sh_db := mkDb (tx_claims t ∪ recorded (sh_db g)) (app (sh_db g) ++ tx_writes t);
     sh_open := delete n (sh_open g); sh_next := sh_next g |}.

(** A statement of the transaction [n] has failed, and left it open but failed:
    what it did is undone, back to its savepoint or altogether, and locks it no
    longer needs may be gone. *)
Definition aborted (n : nat) (t : TxState) (ls : gset (str * str)) (g g' : Shared) : Prop :=
  exists save ls', (save = tx_save t \/ save = None) /\
    needed (mkTxState ∅ [] save true) ⊆ ls' /\ ls' ⊆ ls /\
    g' = set_tx n (mkTxState ∅ [] save true) ls' g.

(** A statement on a transaction that is no longer open fails; on an open one it
    may fail, and the database may end or abort the transaction then. *)
Definition on_open {A Err : Type} (n : nat) (g g' : Shared) (r : result A Err)
    (Q : A -> TxState -> gset (str * str) -> Prop) : Prop :=
  match sh_open g !! n, r with
  | Some (t, ls), Ok a => Q a t ls
  | Some (t, ls), Error _ => g' = g \/ g' = ended n g \/ aborted n t ls g g'
  | None, Ok _ => False
  | None, Error _ => g' = g
  end.

(** No other open transaction has locked [k]. *)
Definition unlocked (n : nat) (k : str * str) (g : Shared) : Prop :=
  forall n' t ls, sh_open g !! n' = Some (t, ls) -> k ∈ ls -> n' = n.

(** What a statement that succeeds has done. *)
Definition executed (n : nat) (st : stmt) (g g' : Shared) (t : TxState) (ls : gset (str * str)) : Prop :=
  (st = RollbackTo -> is_Some (tx_save t)) /\
  forall t', apply_stmt st t = Some t' ->
    exists ls', needed t' ⊆ ls' /\ ls' ⊆ ls /\ g' = set_tx n t' ls' g.

(** A commit that answers [Ok], or an error. *)
Definition committing (n : nat) (g : Shared) (ok : bool) (g' : Shared) : Prop :=
  match sh_open g !! n with
  | Some (t, _) =>
      if tx_failed t then g' = ended n g
      else g' = committed_tx n t g \/ ok = false /\ g' = ended n g
  | None => ok = false /\ g' = g
  end.

(** What a call may answer, and how it changes the database.  The error of a
    commit says nothing about whether it took effect, and no commit of a failed
    transaction does, whatever it answers; ROLLBACK TO fails without a savepoint;
    rows that are no longer claimed may stay locked or not; a row found is
    recorded, one not found may be. *)
Definition can (A : Type) (e : storeE A) (g : Shared) (a : A) (g' : Shared) : Prop :=
  match e in storeE T return T -> Prop with
  | SBegin => fun r =>
      match r with
      | Ok n => n = sh_next g /\ g' = begun g
      | Error _ => g' = g
      end
  | SCommit n => fun r =>
      committing n g (is_ok r) g'
  | SRollback n => fun _ => g' = ended n g
  | SDrop n => fun _ => g' = ended n g
  | SClaim n rq => fun r =>
      let k := key (req_consumer rq) (req_id rq) in
      on_open n g g' r (fun c t ls => tx_failed t = false ->
        unlocked n k g /\
        if decide (k ∈ tx_claims t ∪ recorded (sh_db g)) then c = Duplicate /\ g' = g
        else c = Fresh /\ g' = set_tx n (claim_tx k t) ({[k]} ∪ ls) g)
  | SStmt n st => fun r =>
      on_open n g g' r (fun _ => executed n st g g')
  | SKnown c m => fun r => g' = g /\ (r = Ok true -> key c m ∈ recorded (sh_db g))
  end a.

(** The rows of the messages that are still delivered. *)
Variable wanted : str * str -> Prop.

(** What the database does on its own: it ends a transaction, or a purge removes
    recorded rows that are not [wanted]. *)
Inductive environment (g : Shared) : Shared -> Prop :=
| env_ends n : environment g (ended n g)
| env_purges (old : gset (str * str)) :
    (forall k, k ∈ old -> ~ wanted k) ->
    environment g {| sh_db := mkDb (recorded (sh_db g) ∖ old) (app (sh_db g));
                     sh_open := sh_open g; sh_next := sh_next g |}.

(** ** The protocol of a call *)

(** What a message's handler writes when it succeeds. *)
Variable effect : Msg -> list Item.

(** The messages a call delivers. *)
Variable D : list Msg.

(** Where a call stands: it has not begun, it owns the open transaction [n],
    or it has ended its transaction, having applied certain messages or not
    knowing whether it did ([None]).  [known] are the rows it was told are
    recorded. *)
Inductive phase : Type :=
| Start
| Active (n : nat) (t : TxState) (known : gset (str * str))
| Ended (applied : option (list Msg)) (known : gset (str * str)).

Definition known_in (s : phase) : gset (str * str) :=
  match s with Start => ∅ | Active _ _ known | Ended _ known => known end.

Definition applied_in (s : phase) : option (list Msg) :=
  match s with Start | Active _ _ _ => Some [] | Ended applied _ => applied end.

(** The transaction a phase owns. *)
Definition owned (s : phase) : option nat :=
  match s with Active n _ _ => Some n | Start | Ended _ _ => None end.

(** The transaction holds the complete effects of the messages it claims. *)
Record complete (ms : list Msg) (t : TxState) : Prop := {
  complete_live : tx_failed t = false;
  complete_once : NoDup ms;
  complete_own x : x ∈ ms -> x ∈ D;
  complete_writes : tx_writes t = ms ≫= effect;
  complete_claims k : k ∈ tx_claims t <-> exists x, x ∈ ms /\ k = mkey x;
}.

(** The row of a message of the call. *)
Definition delivers (k : str * str) : Prop := exists x, x ∈ D /\ k = mkey x.

(** The protocol: one transaction, claims of the call's own messages, statements
    whose meaning is known, so after a failed one only ROLLBACK TO, and no commit
    but of complete effects, none of whose statements failed. *)
Definition next (s : phase) (A : Type) (e : storeE A) (a : A) (s' : phase) : Prop :=
  match e in storeE T return T -> Prop with
  | SBegin => fun r =>
      s = Start /\
      s' = match r with Ok n => Active n empty_tx ∅ | Error _ => Ended (Some []) ∅ end
  | SCommit n => fun r => exists t known ms,
      s = Active n t known /\ complete ms t /\
      s' = Ended (if is_ok r then Some ms else None) known
  | SRollback n => fun _ => exists t known, s = Active n t known /\ s' = Ended (Some []) known
  | SDrop n => fun _ => exists t known, s = Active n t known /\ s' = Ended (Some []) known
  | SClaim n rq => fun r => exists t known,
      let k := key (req_consumer rq) (req_id rq) in
      s = Active n t known /\ tx_failed t = false /\ delivers k /\
      s' = match r with
           | Ok Fresh => Active n (claim_tx k t) known
           | Ok Duplicate => Active n t (if decide (k ∈ tx_claims t) then known else {[k]} ∪ known)
           | Error _ => Active n (fail_tx t) known
           end
  | SStmt n st => fun r => exists t known t',
      s = Active n t known /\ apply_stmt st t = Some t' /\
      s' = Active n (if is_ok r then t' else fail_tx t) known
  | SKnown c m => fun r =>
      s = Start /\ delivers (key c m) /\
      s' = Ended (Some []) (match r with Ok true => {[key c m]} | _ => ∅ end)
  end a.

(** ** The invariant *)

Implicit Types (g : Shared) (L : list (nat * Msg)).

(** A transaction has locked what it may have to commit; locked rows are not
    recorded, and locked by one transaction only. *)
Record shared_ok g : Prop := {
  so_open n t ls : sh_open g !! n = Some (t, ls) ->
    n < sh_next g /\ ls ## recorded (sh_db g) /\ needed t ⊆ ls;
  so_apart n n' t ls t' ls' : n <> n' ->
    sh_open g !! n = Some (t, ls) -> sh_open g !! n' = Some (t', ls') -> ls ## ls';
}.

(** Since [g0] the messages of [L], each with the number of the call that
    applied it, have been committed. *)
Record applied_ok g0 g L : Prop := {
  ao_app : app (sh_db g) = app (sh_db g0) ++ (L.*2 ≫= effect);
  ao_once : NoDup L.*2;
  ao_recorded x : x ∈ L.*2 -> mkey x ∈ recorded (sh_db g);
  ao_old k : k ∈ recorded (sh_db g0) -> wanted k -> k ∈ recorded (sh_db g);
  ao_from k : k ∈ recorded (sh_db g) ->
    k ∈ recorded (sh_db g0) \/ exists x, x ∈ L.*2 /\ k = mkey x;
  ao_new x : x ∈ L.*2 -> mkey x ∉ recorded (sh_db g0);
  ao_wanted x : x ∈ L.*2 -> wanted (mkey x);
}.

(** The transaction [t'] of the database is what a call knows of it: [t], or,
    once a statement has failed, no more than its savepoint, if that is there. *)
Definition stands (t t' : TxState) : Prop :=
  if tx_failed t then tx_save t' = tx_save t \/ tx_save t' = None else t' = t.

(** The phase of call [i] fits the database; its transaction may be gone. *)
Record fits (i : nat) (s : phase) g L : Prop := {
  fit_open n t known : s = Active n t known ->
    n < sh_next g /\
    (sh_open g !! n = None \/ exists t' ls, sh_open g !! n = Some (t', ls) /\ stands t t');
  fit_known k : k ∈ known_in s -> k ∈ recorded (sh_db g) /\ delivers k;
  fit_applied ms : applied_in s = Some ms -> forall x, (i, x) ∈ L <-> x ∈ ms;
}.

(** A change that leaves the transactions other than [o] alone, or ends them. *)
Record spares (o : option nat) g g' : Prop := {
  sp_next : sh_next g <= sh_next g';
  sp_recorded k : wanted k -> k ∈ recorded (sh_db g) -> k ∈ recorded (sh_db g');
  sp_open n : n < sh_next g -> o <> Some n ->
    sh_open g' !! n = sh_open g !! n \/ sh_open g' !! n = None;
}.

Hypothesis Hwanted : forall k, delivers k -> wanted k.

Lemma fits_spares i s g g' L L' o :
  fits i s g L -> spares o g g' -> (forall x, (i, x) ∈ L' <-> (i, x) ∈ L) ->
  owned s <> o \/ o = None -> fits i s g' L'.
Proof.
  intros [Ho Hk Ha] [Sn Sr So] HL Hne. split.
  - intros n t known Hs. destruct (Ho n t known Hs) as [Hlt Hopen]. split; [lia|].
    assert (o <> Some n) as Hno by (subst s; simpl in Hne; destruct Hne as [Hne| ->]; congruence).
    destruct (So n Hlt Hno) as [-> | ->]; [done|by left].
  - intros k Hin. destruct (Hk k Hin). auto.
  - intros ms Hms x. rewrite HL. by apply Ha.
Qed.

Lemma spares_refl o g : spares o g g.
Proof. split; auto. Qed.

Lemma spares_ended n g : spares (Some n) g (ended n g).
Proof. split; simpl; auto. intros n' _ Hne. left. apply lookup_delete_ne. congruence. Qed.

Lemma spares_set_tx n t ls g : spares (Some n) g (set_tx n t ls g).
Proof. split; simpl; auto. intros n' _ Hne. left. apply lookup_insert_ne. congruence. Qed.

Lemma shared_ok_ended n g : shared_ok g -> shared_ok (ended n g).
Proof.
  intros [H1 H2]. split; simpl.
  - intros n' t ls [_ Hl]%lookup_delete_Some. by apply (H1 n').
  - intros n1 n2 t1 l1 t2 l2 Hne [_ Hl1]%lookup_delete_Some [_ Hl2]%lookup_delete_Some. eauto.
Qed.

(** A transaction whose locks are free otherwise. *)
Lemma shared_ok_set_tx n t ls g :
  shared_ok g -> n < sh_next g -> ls ## recorded (sh_db g) -> needed t ⊆ ls ->
  (forall n' t' ls', n' <> n -> sh_open g !! n' = Some (t', ls') -> ls ## ls') ->
  shared_ok (set_tx n t ls g).
Proof.
  intros [H1 H2] Hn Hr Ht Ho. split; simpl.
  - intros n' t' ls'. rewrite lookup_insert_Some. intros [[<- [= <- <-]]|[_ Hl]]; eauto.
  - intros n1 n2 t1 l1 t2 l2 Hne. rewrite !lookup_insert_Some.
    intros [[<- [= <- <-]]|[Hn1 Hl1]] [[<- [= <- <-]]|[Hn2 Hl2]]; eauto; [done|].
    symmetry. eauto.
Qed.

Lemma shared_ok_begun g : shared_ok g -> shared_ok (begun g).
Proof.
  intros [H1 H2]. split; simpl.
  - intros n t ls. rewrite lookup_insert_Some. intros [[<- [= <- <-]]|[_ Hl]].
    + split; [lia|]. split; [set_solver|]. unfold needed. simpl. set_solver.
    + destruct (H1 n t ls Hl) as (? & ? & ?). split; [lia|done].
  - intros n1 n2 t1 l1 t2 l2 Hne. rewrite !lookup_insert_Some.
    intros [[<- [= <- <-]]|[Hn1 Hl1]] [[<- [= <- <-]]|[Hn2 Hl2]]; try set_solver.
Qed.

Lemma applied_ok_same g0 g g' L : sh_db g' = sh_db g -> applied_ok g0 g L -> applied_ok g0 g' L.
Proof. intros Hd [H1 H2 H3 H4 H5 H6 H7]. by split; rewrite ?Hd. Qed.

(** What the database does on its own keeps the invariant, and what the calls
    know. *)
Lemma environment_ok g0 g g' L :
  environment g g' -> shared_ok g -> applied_ok g0 g L ->
  shared_ok g' /\ applied_ok g0 g' L /\ forall i s, fits i s g L -> fits i s g' L.
Proof.
  intros [n|old Hold] Hok Hap.
  - split; [by apply shared_ok_ended|]. split; [by apply (applied_ok_same g0 g)|].
    intros i s [F1 F2 F3]. split; [|done..]. intros n' t known Hs.
    destruct (F1 n' t known Hs) as [Hlt Ho]. split; [done|]. simpl.
    destruct (decide (n = n')) as [->|Hne]; [left; apply lookup_delete_eq|].
    by rewrite lookup_delete_ne.
  - assert (forall k, wanted k -> k ∈ recorded (sh_db g) -> k ∈ recorded (sh_db g) ∖ old) as Hkeep.
    { intros k Hk Hin. apply elem_of_difference. split; [done|]. intros Ho. by apply (Hold k). }
    split; [|split].
    + destruct Hok as [H1 H2]. split; [|done]. simpl. intros n t ls Hl.
      destruct (H1 n t ls Hl) as (? & ? & ?). set_solver.
    + destruct Hap as [H1 H2 H3 H4 H5 H6 H7]. split; simpl; auto. set_solver.
    + intros i s Hf. apply (fits_spares i s g _ L L None); [done| |done|by right].
      split; simpl; auto.
Qed.

(** The commit of a transaction with complete effects. *)
Lemma commit_ok g0 g L i ms n t ls :
  shared_ok g -> applied_ok g0 g L -> sh_open g !! n = Some (t, ls) -> complete ms t ->
  shared_ok (committed_tx n t g) /\
  applied_ok g0 (committed_tx n t g) (L ++ ((fun x => (i, x)) <$> ms)) /\
  spares (Some n) g (committed_tx n t g).
Proof.
  intros Hok [H1 H2 H3 H4 H5 H6 H7] Hn [_ C1 C2 C3 C4].
  destruct (so_open g Hok n _ _ Hn) as (Hlt & Hk & Hne).
  assert (tx_claims t ⊆ ls) as Hcl by (unfold needed in Hne; set_solver).
  assert (forall x, x ∈ ms -> mkey x ∉ recorded (sh_db g)) as Hfresh.
  { intros x Hx. assert (mkey x ∈ tx_claims t) by (apply C4; eauto). set_solver. }
  assert ((((fun x => (i, x)) <$> ms).*2 : list Msg) = ms) as Hms.
  { rewrite <- list_fmap_compose. apply list_fmap_id. }
  split; [|split].
  - destruct (shared_ok_ended n g Hok) as [E1 E2]. split; [|exact E2].
    intros n' t' ls' Hl. destruct (E1 n' t' ls' Hl) as (? & ? & ?). split; [done|]. split; [|done].
    simpl in Hl. apply lookup_delete_Some in Hl as [Hnn Hl].
    pose proof (so_apart g Hok n n' _ _ _ _ Hnn Hn Hl). simpl in *. set_solver.
  - split; rewrite ?fmap_app, ?Hms.
    + simpl. by rewrite H1, C3, bind_app, app_assoc.
    + apply NoDup_app. split; [done|]. split; [|done]. intros x Hx Hin. by apply (Hfresh x Hin), H3.
    + intros x [Hx|Hx]%elem_of_app; simpl; apply elem_of_union; [right|left; apply C4]; eauto.
    + intros k Hin Hw. simpl. apply elem_of_union_r. auto.
    + intros k. simpl. rewrite elem_of_union, C4. setoid_rewrite elem_of_app.
      intros [(x & ? & ->)|[?|(x & ? & ->)]%H5]; eauto.
    + intros x [Hx|Hx]%elem_of_app; [auto|]. intros Hin. apply (Hfresh x Hx), H4; [done|].
      apply Hwanted. exists x. auto.
    + intros x [Hx|Hx]%elem_of_app; [auto|]. apply Hwanted. exists x. auto.
  - split; [done|simpl; set_solver|]. apply spares_ended.
Qed.

(** What one store call of call [i] keeps. *)
Record keeps (i : nat) (s s' : phase) g0 g g' L L' : Prop := {
  kp_ok : shared_ok g';
  kp_applied : applied_ok g0 g' L';
  kp_spares : spares (owned s) g g';
  kp_owned n : owned s' = Some n -> owned s = Some n \/ n = sh_next g;
  kp_fits : fits i s' g' L';
  kp_more : L ⊆ L';
  kp_new x : x ∈ L' -> x ∈ L \/ fst x = i /\ snd x ∈ D;
}.

Section Step.
Variables (i : nat) (g0 g : Shared) (L : list (nat * Msg)).
Hypothesis Hok : shared_ok g.
Hypothesis Hap : applied_ok g0 g L.

Lemma keeps_same_db (s s' : phase) g' :
  sh_db g' = sh_db g -> shared_ok g' -> spares (owned s) g g' ->
  (forall n, owned s' = Some n -> owned s = Some n \/ n = sh_next g) ->
  fits i s' g' L -> keeps i s s' g0 g g' L L.
Proof.
  intros Hd Hok' Hsp Hown Hf. split; [done|by apply (applied_ok_same g0 g)|done|done|done|done|]. by left.
Qed.

(** The transaction is gone; what the call knows stays. *)
Lemma keeps_ended (n : nat) (t : TxState) (known : gset (str * str)) (s' : phase) :
  fits i (Active n t known) g L ->
  s' = Ended (Some []) known \/ s' = Ended None known \/ (exists t', s' = Active n t' known) ->
  keeps i (Active n t known) s' g0 g (ended n g) L L.
Proof.
  intros [F1 F2 F3] Hs. apply keeps_same_db; [done|by apply shared_ok_ended|apply spares_ended| |].
  - destruct Hs as [-> |[-> |[t' ->]]]; [done|done|by left].
  - destruct (F1 n t known eq_refl) as [Hlt _].
    destruct Hs as [-> |[-> |[t' ->]]]; split; try done.
    intros n' t1 known' [= <- <- <-]. split; [done|]. left. apply lookup_delete_eq.
Qed.

Lemma keeps_same (s s' : phase) :
  fits i s' g L -> owned s' = owned s \/ owned s' = None -> keeps i s s' g0 g g L L.
Proof.
  intros Hf Hown. apply keeps_same_db; [done|done|apply spares_refl| |done].
  intros n Hn. left. destruct Hown; congruence.
Qed.

(** What a call knows is still true once it disregards all but the savepoint. *)
Lemma fits_failed (n : nat) (t : TxState) (known : gset (str * str)) :
  fits i (Active n t known) g L -> fits i (Active n (fail_tx t) known) g L.
Proof.
  intros [F1 F2 F3]. split; [|done..]. intros n' t1 known' [= <- <- <-].
  destruct (F1 n t known eq_refl) as [Hlt Ho]. split; [done|].
  destruct Ho as [Ho|(t' & ls & Ho & Hst)]; [by left|right]. exists t', ls. split; [done|].
  unfold stands in *. simpl. destruct (tx_failed t); [done|]. subst t'. by left.
Qed.

(** The transaction the phase is about, where it is still open. *)
Lemma fits_open (n : nat) (t t' : TxState) (known ls : gset (str * str)) :
  fits i (Active n t known) g L -> sh_open g !! n = Some (t', ls) ->
  stands t t' /\ n < sh_next g /\ ls ## recorded (sh_db g) /\ needed t' ⊆ ls /\
  forall n' t1 ls1, n' <> n -> sh_open g !! n' = Some (t1, ls1) -> ls ## ls1.
Proof.
  intros [Hf _ _] Ho. destruct (Hf n t known eq_refl) as [Hlt [Hn|(t1 & ls1 & Ho1 & Hst)]]; [congruence|].
  simplify_eq. split; [done|]. destruct (so_open g Hok n t' ls Ho) as (_ & ? & ?).
  split; [done|]. split; [done|]. split; [done|].
  intros n' t1 ls1 Hne Ho'. by eapply (so_apart g Hok n n').
Qed.

(** On an open transaction, a failed statement leaves what the savepoint
    restores. *)
Lemma failed_keeps {A Err : Type} (n : nat) (t : TxState) (known : gset (str * str)) (e : Err) g'
    (Q : A -> TxState -> gset (str * str) -> Prop) :
  on_open n g g' (Error e) Q -> fits i (Active n t known) g L ->
  keeps i (Active n t known) (Active n (fail_tx t) known) g0 g g' L L.
Proof.
  unfold on_open. intros Hc Hf.
  destruct (sh_open g !! n) as [[t' ls]|] eqn:Ho; [|rewrite Hc; apply keeps_same; [by apply fits_failed|by left]].
  destruct Hc as [->|[->|(save & ls' & Hsave & Hn & Hsub & ->)]].
  - apply keeps_same; [by apply fits_failed|by left].
  - apply keeps_ended; eauto.
  - destruct (fits_open n t t' known ls Hf Ho) as (Hst & Hlt & Hr & _ & Hap').
    apply keeps_same_db; [done|apply shared_ok_set_tx; try done|apply spares_set_tx|by left|].
    + set_solver.
    + intros n' t1 ls1 Hne Ho'. specialize (Hap' n' t1 ls1 Hne Ho'). set_solver.
    + destruct Hf as [F1 F2 F3]. split; simpl in *; [|done..].
      intros n' t1 known1 [= <- <- <-]. split; [done|]. right. eexists _, _.
      split; [apply lookup_insert_eq|]. unfold stands in *. simpl. destruct (tx_failed t); naive_solver.
Qed.

(** A successful one found the transaction as the phase says. *)
Lemma on_open_ok {A Err : Type} (n : nat) (t : TxState) (known : gset (str * str)) (a : A) g' Q :
  on_open (Err := Err) n g g' (Ok a) Q -> fits i (Active n t known) g L ->
  exists t' ls, sh_open g !! n = Some (t', ls) /\ stands t t' /\ Q a t' ls /\
    n < sh_next g /\ ls ## recorded (sh_db g) /\ needed t' ⊆ ls /\
    forall n' t1 ls1, n' <> n -> sh_open g !! n' = Some (t1, ls1) -> ls ## ls1.
Proof.
  unfold on_open. intros Hc Hf. destruct (sh_open g !! n) as [[t' ls]|] eqn:Ho; [|done].
  destruct (fits_open n t t' known ls Hf Ho) as (Hst & ?). by exists t', ls.
Qed.

Lemma stands_live (t t' : TxState) : tx_failed t = false -> stands t t' -> t' = t.
Proof. unfold stands. by intros ->. Qed.

(** The statement does to the transaction of the database what it does to the one
    the call knows of. *)
Lemma stands_apply (st : stmt) (t t' t1 : TxState) :
  stands t t' -> (st = RollbackTo -> is_Some (tx_save t')) ->
  apply_stmt st t = Some t1 -> apply_stmt st t' = Some t1.
Proof.
  unfold stands. intros Hst Hsave Ha. destruct (tx_failed t) eqn:Hf; [|by subst t'].
  assert (st = RollbackTo) as -> by (destruct st, (tx_save t); simplify_eq/=; rewrite ?Hf in *; done).
  destruct (Hsave eq_refl) as [sp Hsp]. simpl in *.
  destruct Hst as [Hst|Hst]; rewrite Hst in *; [done|congruence].
Qed.

(** A call that goes on with its transaction in another state. *)
Lemma keeps_set_tx (n : nat) (t t' : TxState) (known ls' known' : gset (str * str)) :
  fits i (Active n t known) g L ->
  n < sh_next g -> ls' ## recorded (sh_db g) -> needed t' ⊆ ls' ->
  (forall n' t1 ls1, n' <> n -> sh_open g !! n' = Some (t1, ls1) -> ls' ## ls1) ->
  (forall k, k ∈ known' -> k ∈ known \/ k ∈ recorded (sh_db g) /\ delivers k) ->
  keeps i (Active n t known) (Active n t' known') g0 g (set_tx n t' ls' g) L L.
Proof.
  intros [F1 F2 F3] Hlt Hr Hn Ho Hk.
  apply keeps_same_db; [done|by apply shared_ok_set_tx|apply spares_set_tx|by left|].
  split; simpl in *; [|naive_solver|done].
  intros n' t1 known1 [= <- <- <-]. split; [done|]. right. exists t', ls'.
  split; [apply lookup_insert_eq|]. unfold stands. destruct (tx_failed t'); [by left|done].
Qed.

Lemma claim_keeps (n : nat) (rq : ClaimRequest) (r : result Claim InboxError) (s s' : phase) g' :
  can _ (SClaim n rq) g r g' -> next s _ (SClaim n rq) r s' -> fits i s g L ->
  keeps i s s' g0 g g' L L.
Proof.
  intros Hc (t & known & -> & Hlive & Hd & ->) Hf. simpl in Hc.
  set (k := key (req_consumer rq) (req_id rq)) in *.
  destruct r as [c|e]; [|by eapply failed_keeps].
  destruct (on_open_ok _ _ _ _ _ _ Hc Hf) as (t' & ls & Ho & ->%stands_live & HQ & Hlt & Hr & Hn & Hap');
    [|done].
  destruct (HQ Hlive) as [Hul Hans]. case_decide as Hin; destruct Hans as [-> ->].
  - apply keeps_same; [|by left]. destruct Hf as [F1 F2 F3]. split; simpl in *.
    + intros n' t' known' [= <- <- <-]. by eapply F1.
    + intros k'. case_decide; [apply F2|]. rewrite elem_of_union, elem_of_singleton.
      intros [->|?]; [|by apply F2]. split; [set_solver|done].
    + done.
  - apply not_elem_of_union in Hin as [Hin1 Hin2].
    apply keeps_set_tx; [done|done|set_solver| | |by left].
    + unfold needed in *. simpl. set_solver.
    + intros n' t1 ls1 Hne Hl. apply disjoint_union_l. split; [|eauto].
      apply disjoint_singleton_l. intros Hk. by apply Hne, (Hul n' t1 ls1).
Qed.

Lemma stmt_keeps (n : nat) (st : stmt) (r : result unit InboxError) (s s' : phase) g' :
  can _ (SStmt n st) g r g' -> next s _ (SStmt n st) r s' -> fits i s g L ->
  keeps i s s' g0 g g' L L.
Proof.
  intros Hc (t & known & t' & -> & Hst & ->) Hf. simpl in Hc.
  destruct r as [[]|e]; [|by eapply failed_keeps].
  destruct (on_open_ok _ _ _ _ _ _ Hc Hf) as (td & ls & Ho & Hstands & [Hsave HQ] & Hlt & Hr & Hn & Hap').
  destruct (HQ t') as (ls' & Hn' & Hsub & ->); [by eapply stands_apply|].
  apply keeps_set_tx; [done|done|set_solver|done| |by left].
  intros n' t1 ls1 Hne Hl. specialize (Hap' n' t1 ls1 Hne Hl). set_solver.
Qed.

Lemma commit_keeps (n : nat) (r : result unit InboxError) (s s' : phase) g' :
  can _ (SCommit n) g r g' -> next s _ (SCommit n) r s' -> fits i s g L ->
  exists L', keeps i s s' g0 g g' L L'.
Proof.
  intros Hc (t & known & ms & -> & Hms & ->) Hf. simpl in Hc. unfold committing in Hc.
  assert (g' = committed_tx n t g /\ (exists ls, sh_open g !! n = Some (t, ls)) \/
          is_ok r = false /\ (g' = ended n g \/ g' = g)) as [[-> [ls Hopen]]|[-> [-> | ->]]].
  { destruct (sh_open g !! n) as [[t' ls]|] eqn:Ho; [|naive_solver].
    destruct (fits_open n t t' known ls Hf Ho) as [->%stands_live _]; [|apply Hms].
    rewrite (complete_live _ _ Hms) in Hc. naive_solver. }
  - destruct (commit_ok g0 g L i ms n t ls Hok Hap Hopen Hms) as (Hok' & Hap' & Hsp).
    exists (L ++ ((fun x => (i, x)) <$> ms)). split; [done|done|done|done| |set_solver|].
    + destruct Hf as [F1 F2 F3]. split; simpl in *; [done| |].
      * intros k Hk. destruct (F2 k Hk). split; [set_solver|done].
      * intros ms' Heq x. destruct (is_ok r); [|done]. simplify_eq.
        rewrite elem_of_app, (F3 [] eq_refl), list_elem_of_fmap, elem_of_nil. naive_solver.
    + intros [j x]. simpl. rewrite !elem_of_app, list_elem_of_fmap.
      intros [?|(y & [= -> ->] & Hy)]; [by left|right]. split; [done|].
      by apply (complete_own _ _ Hms).
  - exists L. apply keeps_ended; auto.
  - exists L. apply keeps_same; [|by right]. by destruct Hf as [F1 F2 F3].
Qed.

(** Whatever a call does that the protocol allows keeps the invariant. *)
Lemma call_step A (e : storeE A) (a : A) (s s' : phase) g' :
  can A e g a g' -> next s A e a s' -> fits i s g L -> exists L', keeps i s s' g0 g g' L L'.
Proof.
  intros Hc Hn Hf. destruct e as [|n|n|n|n rq|n st|c m].
  - destruct Hn as [-> ->]. destruct Hf as [_ _ F3], a as [n|e]; simpl in Hc.
    + destruct Hc as [-> ->]. exists L. apply keeps_same_db; [done|by apply shared_ok_begun| | |].
      * split; simpl; [lia|done|]. intros n Hlt _. left. apply lookup_insert_ne. lia.
      * intros n [= ->]. by right.
      * split; simpl; [|set_solver|done]. intros n t known [= <- <- <-]. split; [lia|]. right.
        exists empty_tx, ∅. split; [apply lookup_insert_eq|done].
    + rewrite Hc. exists L. apply keeps_same; [|by right]. split; simpl; [done|set_solver|done].
  - by eapply commit_keeps.
  - destruct Hn as (t & known & -> & ->). simpl in Hc. subst g'. exists L. apply keeps_ended; auto.
  - destruct Hn as (t & known & -> & ->). simpl in Hc. subst g'. exists L. apply keeps_ended; auto.
  - exists L. by eapply claim_keeps.
  - exists L. by eapply stmt_keeps.
  - destruct Hn as (-> & Hd & ->), Hc as [-> Hk]. exists L. apply keeps_same; [|by right].
    destruct Hf as [_ _ F3]. split; [done| |done]. intros k Hin. simpl in Hin.
    destruct a as [[]|]; set_solver.
Qed.
End Step.
End Shared.
Arguments TxState _ : clear implicits.
Abbreviation mkTx claims writes save := (mkTxState claims writes save false).
Arguments stmt _ : clear implicits.
Arguments storeE _ _ : clear implicits.
Arguments phase _ : clear implicits.
Arguments Shared _ : clear implicits.
