(* ===== verification/Protocol.v ===== *)
(** * What concurrent calls need of a store

    The interface [StoreProtocol] between [Consumer]'s methods and a store that
    is shared by concurrent transactions: the methods of the store follow a
    protocol on the caller's transaction, and whatever the protocol allows keeps
    the invariant of [SharedDb.v].  The theorem of [Interleaving.v] is proved
    against it; the store of [SharedDb.v] is an instance. *)

From S2P Require Import Prelude Text Errors Durations Types Store.
From S2P Require Import Consumer Steps SharedDb.

(** ** What a store has to keep to *)

(** The transaction is open, as far as the call knows. *)
Definition holds {Item : Type} (n : nat) (s : phase Item) : Prop := exists t known, s = Active n t known.

Abbreviation anywhere := (fun _ : phase _ => True).

(** How a batch claim of [ids] for [c] may answer: the rows answered [Duplicate]
    are the set [K]; the others are claimed. *)
Definition batch_claimed {Item : Type} (c : ConsumerId) (ids : list MessageId) (n : nat) (t : TxState Item)
    (known : gset (str * str)) (r : result (list Claim) InboxError) (s : phase Item) : Prop :=
  match r with
  | Ok cs => exists K C,
      s = Active n (mkTx C (tx_writes t) (tx_save t)) (K ∪ known) /\
      cs = (fun m => claim_answer (mkDb K tt) (key c m)) <$> ids /\
      (forall k, k ∈ K -> exists m, m ∈ ids /\ k = key c m) /\
      (forall k, k ∈ C <-> k ∈ tx_claims t \/ exists m, m ∈ ids /\ k = key c m /\ k ∉ K)
  | Error _ => holds n s
  end.

(** [p] is the method of the store for a statement. *)
Definition runs_stmt {S : Type} {E : Type -> Type} {Item : Type} `{Savepoints S E nat nat}
    (self : S) (n : nat) (st : stmt Item) (p : prog E (result unit InboxError)) : Prop :=
  match st with
  | Savepoint => p = Store.savepoint self n
  | ReleaseAndSavepoint => p = Store.release_and_savepoint self n
  | Release => p = Store.release self n
  | RollbackTo => p = Store.rollback_to self n
  | Unclaim k => exists c m, k = key c m /\ p = Store.unclaim self n c m
  | Write _ => False
  end.

(** [can] is what the effects may do to the database, [nxt D] the protocol of a
    call that delivers [D].  A step the protocol allows keeps the invariant, and
    the methods follow the protocol. *)
Class StoreProtocol (S : Type) {E : Type -> Type} {Item : Type} (effect : Msg -> list Item)
    `{Savepoints S E nat nat}
    (can : forall A, E A -> Shared Item -> A -> Shared Item -> Prop)
    (nxt : list Msg -> phase Item -> forall A, E A -> A -> phase Item -> Prop) : Prop := {
  pr_step wanted D i g0 g L A (e : E A) a s s' g' :
    (forall k, delivers D k -> wanted k) -> shared_ok g -> applied_ok wanted effect g0 g L ->
    can A e g a g' -> nxt D s A e a s' -> fits D i s g L ->
    exists L', keeps wanted effect D i s s' g0 g g' L L';
  pr_deref n : deref_mut n = n;
  pr_drop D n t known :
    obeys (nxt D) (drop_tx n) (fun _ s => s = Ended (Some []) known) anywhere (Active n t known);
  pr_begin D (self : S) :
    obeys (nxt D) (Store.begin self)
      (fun r s => s = match r with Ok n => Active n empty_tx ∅ | Error _ => Ended (Some []) ∅ end)
      anywhere Start;
  pr_commit D (self : S) n t known ms :
    complete effect D ms t ->
    obeys (nxt D) (Store.commit self n)
      (fun r s => s = Ended (if is_ok r then Some ms else None) known) anywhere (Active n t known);
  pr_rollback D (self : S) n t known :
    obeys (nxt D) (Store.rollback self n) (fun _ s => s = Ended (Some []) known) anywhere
      (Active n t known);
  pr_claim D (self : S) n t known rq :
    let k := key (req_consumer rq) (req_id rq) in
    tx_failed t = false -> delivers D k -> k ∉ tx_claims t ->
    obeys (nxt D) (Store.claim self n rq)
      (fun r s => match r with
         | Ok Fresh => s = Active n (claim_tx k t) known
         | Ok Duplicate => s = Active n t ({[k]} ∪ known)
         | Error _ => holds n s
         end) (holds n) (Active n t known);
  pr_claim_many D (self : S) n t known b :
    tx_failed t = false -> NoDup (batch_ids b) ->
    (forall m, m ∈ batch_ids b ->
       delivers D (key (batch_consumer b) m) /\ key (batch_consumer b) m ∉ tx_claims t) ->
    obeys (nxt D) (Store.claim_many self n b)
      (batch_claimed (batch_consumer b) (batch_ids b) n t known) (holds n) (Active n t known);
  pr_stmt D (self : S) n t t' known (st : stmt Item) p :
    runs_stmt self n st p ->
    apply_stmt st t = Some t' ->
    obeys (nxt D) p
      (fun r s => match r with Ok _ => s = Active n t' known | Error _ => holds n s end)
      (holds n) (Active n t known);
  pr_known D (self : S) c m :
    delivers D (key c m) ->
    obeys (nxt D) (Store.is_known_duplicate self c m)
      (fun r s => s = Ended (Some []) (match r with Ok true => {[key c m]} | _ => ∅ end))
      anywhere Start;
}.

(** ** The store of [SharedDb.v] *)

Section SharedStore.
Context {Item : Type}.
Variable effect : Msg -> list Item.
Implicit Types (t : TxState Item) (s : phase Item) (n : nat).
Implicit Types (m : MessageId) (ids : list MessageId) (known K C : gset (str * str)).

(** A batch claim: the rows answered [Duplicate] are the set [K]; the others are
    claimed. *)
Lemma claims_obey D n (b : ClaimBatch) ids : forall t known (cs : list Claim),
  let c := batch_consumer b in tx_failed t = false -> NoDup ids ->
  (forall m, m ∈ ids -> delivers D (key c m) /\ key c m ∉ tx_claims t) ->
  obeys (next effect D)
    (default_claim_many_loop (fun conn r => trigger (SClaim conn r)) n b ids cs)
    (fun r s => match r with
       | Ok cs' => exists K C,
           s = Active n (mkTx C (tx_writes t) (tx_save t)) (K ∪ known) /\
           cs' = cs ++ ((fun m => claim_answer (mkDb K tt) (key c m)) <$> ids) /\
           (forall k, k ∈ K -> exists m, m ∈ ids /\ k = key c m) /\
           (forall k, k ∈ C <-> k ∈ tx_claims t \/ exists m, m ∈ ids /\ k = key c m /\ k ∉ K)
       | Error _ => holds n s
       end) (holds n) (Active n t known).
Proof.
  induction ids as [|m ids IH]; intros t known cs c Hlive Hnd Hd.
  { split; [by eexists _, _|]. exists ∅, (tx_claims t). rewrite union_empty_l_L, app_nil_r.
    split; [by destruct t; simpl in *; subst|]. split; [done|]. split; [set_solver|].
    intros k. setoid_rewrite elem_of_nil. naive_solver. }
  apply NoDup_cons in Hnd as [Hm Hnd]. destruct (Hd m) as [Hdm Hcm]; [by left|].
  assert (forall K m', (forall k, k ∈ K -> exists m, m ∈ ids /\ k = key c m) -> m' = m -> key c m' ∉ K)
    as Hnew.
  { intros K m' HK -> Hin. destruct (HK _ Hin) as (m' & Hm' & Heq). by simplify_eq. }
  refine (obeys_call _ (SClaim n _) _ _ _ _ _ _); [by eexists _, _|]. simpl. fold c.
  intros [[|]|e]; (eexists; split; [by exists t, known|]).
  - eapply obeys_mono; [apply (IH (claim_tx (key c m) t) known (cs ++ [Fresh])); [done|done|]| |done].
    { intros m' Hin. destruct (Hd m') as [? ?]; [by right|]. split; [done|]. simpl.
      apply not_elem_of_union. split; [|done]. intros ->%elem_of_singleton%(inj (key c)). done. }
    intros [cs'|e] s'; [|done]. intros (K & C & -> & -> & HK & HC). exists K, C.
    split; [done|]. split; [|split].
    + rewrite <- app_assoc. simpl. do 2 f_equal. symmetry. apply claim_answer_Fresh. by apply Hnew.
    + intros k Hin. destruct (HK k Hin) as (m' & ? & ?). exists m'. split; [by right|done].
    + intros k. rewrite HC. simpl. rewrite elem_of_union, elem_of_singleton.
      setoid_rewrite elem_of_cons. pose proof (Hnew K m HK eq_refl). naive_solver.
  - rewrite decide_False by done.
    eapply obeys_mono; [apply (IH t ({[key c m]} ∪ known) (cs ++ [Duplicate])); [done|done|]| |done].
    { intros m' Hin. apply Hd. by right. }
    intros [cs'|e] s'; [|done]. intros (K & C & -> & -> & HK & HC).
    exists ({[key c m]} ∪ K), C. split; [f_equal; set_solver|]. split; [|split].
    + rewrite <- app_assoc. simpl. f_equal. f_equal.
      * symmetry. apply claim_answer_Duplicate. simpl. set_solver.
      * apply list_fmap_ext. intros j m' Hj. apply list_elem_of_lookup_2 in Hj.
        symmetry. apply (claim_answer_record_ne (mkDb K tt)). intros ->%(inj (key c)). done.
    + intros k [->%elem_of_singleton|Hin]%elem_of_union; [exists m; split; [by left|done]|].
      destruct (HK k Hin) as (m' & ? & ?). exists m'. split; [by right|done].
    + intros k. rewrite HC. setoid_rewrite elem_of_cons.
      setoid_rewrite not_elem_of_union. setoid_rewrite not_elem_of_singleton.
      split; [|naive_solver]. intros [?|(m' & ? & -> & ?)]; [by left|right].
      exists m'. split; [by right|]. split; [done|]. split; [|done]. intros ->%(inj (key c)). done.
  - split; by eexists _, _.
Qed.

#[export] Instance shared_protocol : StoreProtocol SharedStore effect can (next effect).
Proof.
  split.
  - intros wanted D i g0 g L A e a s s' g' Hw Hok Hap Hc Hn Hf.
    by apply (call_step wanted effect D Hw i g0 g L Hok Hap A e a).
  - done.
  - intros D n t known. apply obeys_trigger; [done|]. intros []. eexists. by split; [simpl; eauto|].
  - intros D self. apply obeys_trigger; [done|]. intros r. eexists. by split; [by split|].
  - intros D self n t known ms Hc. apply obeys_trigger; [done|]. intros r.
    eexists. split; [by exists t, known, ms|done].
  - intros D self n t known. apply obeys_trigger; [done|]. intros r.
    eexists. split; [by exists t, known|done].
  - intros D self n t known rq k Hlive Hd Hk. apply obeys_trigger; [by eexists _, _|]. intros r.
    eexists. split; [by exists t, known|]. destruct r as [[|]|e].
    + split; [by eexists _, _|done].
    + rewrite decide_False by done. split; [by eexists _, _|done].
    + split; by eexists _, _.
  - intros D self n t known b Hlive Hnd Hd. eapply obeys_mono; [by apply claims_obey| |done].
    by intros [cs|e] s.
  - intros D self n t t' known st p Hp Hst.
    assert (p = trigger (SStmt n st)) as ->.
    { destruct st; [done|done|done|done|done|]. by destruct Hp as (c & m & -> & ->). }
    apply obeys_trigger; [by eexists _, _|]. intros r. eexists. split; [by exists t, known, t'|].
    destruct r as [[]|e]; split; try by eexists _, _. done.
  - intros D self c m Hd. apply obeys_trigger; [done|]. intros r. eexists. by split; [by split|].
Qed.
End SharedStore.
