(* ===== verification/Interleaving.v ===== *)
(** * Concurrent calls

    The theorems of [Process.v] and [ProcessMany.v] are about one call at a
    time.  Here any number of calls of [Consumer::process],
    [Consumer::process_many] and [Consumer::is_known_duplicate], of any
    consumers, run concurrently over one database, one awaited effect at a time
    and in any order; calls are cancelled, handlers panic, statements fail, and
    the database ends transactions and purges rows on its own.

    What the calls need of a store is the interface [StoreProtocol]: each of its
    methods follows a protocol on the caller's transaction, and what the protocol
    allows keeps the invariant of [SharedDb.v].  Each call is then shown to follow
    the protocol, whatever the answers it gets; that all calls follow it keeps an
    invariant of the whole system.  The store of [SharedDb.v] is the first
    instance; [SharedSql.v] has the backends. *)

From S2P Require Import Prelude Text Errors Durations Types Store.
From S2P Require Import Consumer ClaimMany ProcessMany Steps SharedDb Protocol.

(** ** Calls *)

(** A call of one of [Consumer]'s methods. *)
Inductive Work : Type :=
| Process (m : MessageId)
| ProcessMany (ids : list MessageId)
| IsKnownDuplicate (m : MessageId).

Record Task (S : Type) := mkTask { task_consumer : Consumer S; task_work : Work }.
Arguments mkTask {_} _ _.
Arguments task_consumer {_} _.
Arguments task_work {_} _.

(** The messages a call is about. *)
Definition work_ids (w : Work) : list MessageId :=
  match w with Process m | IsKnownDuplicate m => [m] | ProcessMany ids => ids end.

Definition deliveries {S : Type} (tk : Task S) : list Msg :=
  (fun m => (id (task_consumer tk), m)) <$> work_ids (task_work tk).

(** What a call returns. *)
Inductive Reply (T : Type) : Type :=
| ReplyOne (r : result (Outcome T) InboxError)
| ReplyMany (r : result (list (ProcessResult T)) InboxError)
| ReplyKnown (r : result bool InboxError).
Arguments ReplyOne {_} _.
Arguments ReplyMany {_} _.
Arguments ReplyKnown {_} _.

Section Calls.
Context {S : Type} {E : Type -> Type} {Item T : Type}.
Context `{HTx : Transaction E nat nat, !InboxStore S E nat nat, !Savepoints S E nat nat}.
Variable effect : Msg -> list Item.
Context {can : forall A, E A -> Shared Item -> A -> Shared Item -> Prop}.
Context {nxt : list Msg -> phase Item -> forall A, E A -> A -> phase Item -> Prop}.
Context `{!StoreProtocol S effect can nxt}.
Variable handler : Msg -> nat -> prog E (result T HandlerError).
Implicit Types (t : TxState Item) (s : phase Item) (n : nat) (self : Consumer S).

Definition call_of (tk : Task S) : prog E (Reply T) :=
  let self := task_consumer tk in
  match task_work tk with
  | Process m => r <- Impl.process self m (handler (id self, m)) ;; Ret (ReplyOne r)
  | ProcessMany ids =>
      r <- Impl.process_many self ids (fun conn m => handler (id self, m) conn) ;;
      Ret (ReplyMany r)
  | IsKnownDuplicate m => r <- Impl.is_known_duplicate self m ;; Ret (ReplyKnown r)
  end.

(** What a handler leaves: it has written [ws], and a statement of it may have
    [failed]. *)
Definition wrote t (ws : list Item) (failed : bool) : TxState Item :=
  mkTxState (tx_claims t) (tx_writes t ++ ws) (tx_save t) failed.

(** The handler of a message writes through its connection only, and when it
    succeeds none of its statements failed and it has written the effect of the
    message. *)
Definition handler_obeys (x : Msg) : Prop := forall D n t (known : gset (str * str)),
  tx_failed t = false ->
  obeys (nxt D) (handler x n)
    (fun r s => exists ws failed, s = Active n (wrote t ws failed) known /\
                  (is_ok r = true -> ws = effect x /\ failed = false))
    (fun s => exists ws failed, s = Active n (wrote t ws failed) known) (Active n t known).

(** What one result of a batch says about its message, where the call applied
    [ms] and was told that [known] are recorded. *)
Definition reported (ms : list Msg) (known : gset (str * str)) (x : Msg) (r : ProcessResult T)
  : Prop :=
  match r with
  | Ok (Processed _) => x ∈ ms
  | Ok OutcomeDuplicate => x ∈ ms \/ mkey x ∈ known
  | Error _ => x ∉ ms
  end.

(** How a call may return. *)
Definition returned (tk : Task S) (r : Reply T) s : Prop :=
  let x m : Msg := (id (task_consumer tk), m) in
  match task_work tk, r with
  | Process m, ReplyOne (Ok (Processed _)) => applied_in s = Some [x m]
  | Process m, ReplyOne (Ok OutcomeDuplicate) => applied_in s = Some [] /\ mkey (x m) ∈ known_in s
  | Process m, ReplyOne (Error _) => True
  | ProcessMany ids, ReplyMany (Ok rs) => exists ms,
      applied_in s = Some ms /\ Forall2 (reported ms (known_in s)) (x <$> ids) rs
  | ProcessMany ids, ReplyMany (Error _) => True
  | IsKnownDuplicate m, ReplyKnown (Ok b) => b = true -> mkey (x m) ∈ known_in s
  | IsKnownDuplicate m, ReplyKnown (Error _) => True
  | _, _ => False
  end.

(** ** Owning a transaction *)

Section Protocol.
Variable self : Consumer S.
Variable D : list Msg.

Lemma obeys_owning {A : Type} n (p : prog E A) Q s :
  obeys (nxt D) p Q (holds n) s ->
  obeys (nxt D) (Impl.owning n p) Q anywhere s.
Proof.
  apply obeys_scoped. intros s' (t & known & ->).
  eapply obeys_mono; [apply pr_drop|done|done].
Qed.

(** [?] with the transaction in scope. *)
Lemma obeys_try_owning {A B : Type} n (p : prog E (result A InboxError))
    (f : A -> prog E (result B InboxError)) Q s :
  (forall e known, Q (Error e) (Ended (Some []) known)) ->
  obeys (nxt D) p
    (fun r s' => match r with
                 | Ok a => obeys (nxt D) (f a) Q anywhere s'
                 | Error _ => holds n s'
                 end) (holds n) s ->
  obeys (nxt D) (Impl.bind_try_owning n p f) Q anywhere s.
Proof.
  intros HQ Hp. apply obeys_bind, obeys_owning. eapply obeys_mono; [exact Hp| |done].
  intros [a|e] s'; [done|]. intros (t & known & ->). apply obeys_bind.
  eapply obeys_mono; [apply pr_drop| |done]. intros [] s' ->. by split.
Qed.

Lemma obeys_begin {A : Type} (f : nat -> prog E (result A InboxError)) Q :
  (forall e, Q (Error e) (Ended (Some []) ∅)) ->
  (forall n, obeys (nxt D) (f n) Q anywhere (Active n empty_tx ∅)) ->
  obeys (nxt D) (bind_try (Store.begin (store self)) f) Q anywhere Start.
Proof.
  intros HQ Hf. apply obeys_bind_try. eapply obeys_mono; [apply pr_begin| |done].
  intros [n|e] s ->; [done|by split].
Qed.

Lemma obeys_commit {A : Type} n t (known : gset (str * str)) ms (a : A) Q :
  complete effect D ms t -> Q (Ok a) (Ended (Some ms) known) ->
  (forall e, Q (Error e) (Ended None known)) ->
  obeys (nxt D) (_ <-? Store.commit (store self) n ;; Ret (Ok a)) Q anywhere (Active n t known).
Proof.
  intros Hc HQ HQ'. apply obeys_bind_try. eapply obeys_mono; [by apply pr_commit| |done].
  by intros [[]|e] s ->; split.
Qed.

Lemma obeys_rollback {A : Type} n t (known : gset (str * str)) (f : result unit InboxError -> prog E A) Q :
  (forall r, obeys (nxt D) (f r) Q anywhere (Ended (Some []) known)) ->
  obeys (nxt D) (bind (Store.rollback (store self) n) f) Q anywhere (Active n t known).
Proof.
  intros Hf. apply obeys_bind. eapply obeys_mono; [apply pr_rollback| |done]. by intros r s ->.
Qed.

(** A statement on the open transaction, and what follows. *)
Lemma obeys_stmt {A : Type} n (st : stmt Item) t t' (known : gset (str * str)) p
    (f : unit -> prog E (result A InboxError)) Q :
  runs_stmt (store self) n st p ->
  apply_stmt st t = Some t' ->
  (forall e s, holds n s -> Q (Error e) s) ->
  obeys (nxt D) (f tt) Q (holds n) (Active n t' known) ->
  obeys (nxt D) (bind_try p f) Q (holds n) (Active n t known).
Proof.
  intros Hp Hst HQ Hf. apply obeys_bind_try.
  eapply obeys_mono; [by eapply pr_stmt| |done]. intros [[]|e] s; [by intros ->|]. split; [done|auto].
Qed.
End Protocol.

(** ** [process] *)

Lemma single_complete (x : Msg) D : x ∈ D ->
  complete effect D [x] (wrote (claim_tx (mkey x) empty_tx) (effect x) false).
Proof.
  intros Hx. split; simpl; [done|..].
  - apply NoDup_singleton.
  - by intros y ->%list_elem_of_singleton.
  - by rewrite app_nil_r.
  - intros k. setoid_rewrite list_elem_of_singleton. set_solver.
Qed.

Lemma process_obeys (self : Consumer S) (m : MessageId) :
  handler_obeys (id self, m) ->
  obeys (nxt [(id self, m)]) (Impl.process self m (handler (id self, m)))
    (fun r s => returned {| task_consumer := self; task_work := Process m |} (ReplyOne r) s)
    anywhere Start.
Proof.
  intros Hh. apply obeys_begin; [done|]. intros n. apply obeys_try_owning; [done|].
  assert (delivers [(id self, m)] (key (id self) m)) as Hd.
  { exists (id self, m). split; [by left|done]. }
  unfold Impl.claim. rewrite pr_deref.
  eapply obeys_mono; [by apply pr_claim; [done|done|set_solver]| |done].
  intros [[|]|e] s; simpl; [intros ->..|done].
  - apply obeys_bind, obeys_owning. eapply obeys_mono; [by apply Hh| |intros s (ws & failed & ->); by eexists _, _].
    intros [v|e] s (ws & failed & -> & Hws).
    + destruct (Hws eq_refl) as [-> ->]. eapply obeys_commit; [by apply (single_complete (id self, m)); left|done|done].
    + apply obeys_rollback. by split.
  - apply obeys_rollback. intros [[]|e]; (split; [done|]); simpl; [|done].
    split; [done|]. set_solver.
Qed.

(** ** [process_many] *)

Section Batch.
Variable self : Consumer S.
Variable D : list Msg.
Hypothesis Hhandler : forall x, x ∈ D -> handler_obeys x.
Implicit Types (m : MessageId) (ids : list MessageId) (known K C F : gset (str * str)).

Abbreviation c := (id self).

Lemma claim_many_obeys n ids t known :
  ids <> [] -> tx_failed t = false -> tx_claims t = ∅ -> (forall m, m ∈ ids -> (c, m) ∈ D) ->
  obeys (nxt D) (Impl.claim_many self n ids)
    (fun r s => match r with
       | Ok cs => exists K C,
           s = Active n (mkTx C (tx_writes t) (tx_save t)) (K ∪ known) /\
           cs = fst (claim_each c ids (mkDb K tt)) /\
           forall k, k ∈ C <-> exists m, m ∈ ids /\ k = key c m /\ k ∉ K
       | Error _ => holds n s
       end) (holds n) (Active n t known).
Proof.
  intros Hne Hlive Ht Hin. rewrite claim_many_unfold by done. apply obeys_bind_try.
  eapply obeys_mono; [apply pr_claim_many; [done|apply sorted_ids_NoDup, unique_sorted|]| |done].
  { intros m Hm. simpl in Hm. rewrite elem_of_unique in Hm. split; [|rewrite Ht; set_solver].
    exists (c, m). auto. }
  intros [cs|e] s; [|by split]. intros (K & C & -> & -> & HK & HC). unfold answer_batch. simpl.
  rewrite length_fmap, Nat.eqb_refl. simpl.
  rewrite (take_answers_claim_each c ids (mkDb K tt)).
  - split; [by eexists _, _|]. exists K, C. split; [done|]. split; [done|]. intros k.
    rewrite HC, Ht. setoid_rewrite elem_of_unique. set_solver.
  - intros m Hm. apply (collect_map_answers (fun i => claim_answer (mkDb K tt) (key c i))).
    + apply sorted_ids_NoDup, unique_sorted.
    + by apply elem_of_unique.
Qed.

(** While the rest [ids] of a batch is handled, with claims made up to [d0]:
    [done] are the messages applied so far, [failed] the ids whose handler
    failed, [C] the rows the transaction claims. *)
Record many_inv ids (failed : gset str) (d0 : Db unit) known (done : list Msg) C : Prop := {
  mi_claims k : k ∈ C <->
    (exists x, x ∈ done /\ k = mkey x) \/ (exists m, m ∈ ids /\ k = key c m /\ k ∉ recorded d0);
  mi_seen m : key c m ∈ recorded d0 ->
    key c m ∈ known \/ (c, m) ∈ done \/ Message_Id.as_str m ∈ failed;
  mi_done x : x ∈ done -> x ∈ D /\ mkey x ∈ recorded d0;
  mi_failed m : Message_Id.as_str m ∈ failed -> key c m ∈ recorded d0 /\ (c, m) ∉ done;
  mi_once : NoDup done;
}.

(** What the results of the ids handled so far say. *)
Definition so_far (failed : gset str) known (done : list Msg) m (r : ProcessResult T) : Prop :=
  match r with
  | Error _ => Message_Id.as_str m ∈ failed
  | _ => reported done known (c, m) r
  end.

Lemma so_far_mono (failed failed' : gset str) known (done done' : list Msg) pre (rs : list (ProcessResult T)) :
  Forall2 (so_far failed known done) pre rs -> failed ⊆ failed' -> done ⊆ done' ->
  Forall2 (so_far failed' known done') pre rs.
Proof.
  intros H Hf Hd. eapply Forall2_impl; [exact H|].
  intros m [[v|]|e]; simpl; [set_solver|naive_solver|set_solver].
Qed.

Lemma many_inv_duplicate m ids failed d0 known done C :
  key c m ∈ recorded d0 -> many_inv (m :: ids) failed d0 known done C ->
  many_inv ids failed (record_key (key c m) d0) known done C.
Proof.
  intros Hm [H1 H2 H3 H4 H5]. rewrite record_key_known by done. split; [|done..].
  intros k. rewrite H1. setoid_rewrite elem_of_cons. naive_solver.
Qed.

Lemma many_inv_processed m ids failed d0 known done C :
  key c m ∉ recorded d0 -> (c, m) ∈ D -> many_inv (m :: ids) failed d0 known done C ->
  many_inv ids failed (record_key (key c m) d0) known (done ++ [(c, m)]) C.
Proof.
  intros Hm HD [H1 H2 H3 H4 H5]. split.
  - intros k. rewrite H1. setoid_rewrite elem_of_app. setoid_rewrite list_elem_of_singleton.
    setoid_rewrite elem_of_cons. simpl. setoid_rewrite not_elem_of_union.
    setoid_rewrite not_elem_of_singleton. split; [|naive_solver].
    intros [?|(m' & [->|Hin] & -> & Hn)]; [naive_solver|left; exists (c, m); auto|].
    destruct (decide (m' = m)) as [->|Hne]; [left; exists (c, m); auto|right].
    exists m'. split; [done|]. split; [done|]. split; [|done]. by intros ->%(inj (key c)).
  - intros m'. rewrite elem_of_record_key, elem_of_app, list_elem_of_singleton. naive_solver.
  - intros x [Hx| ->%list_elem_of_singleton]%elem_of_app; simpl; [|set_solver].
    destruct (H3 x Hx). set_solver.
  - intros m' Hf. destruct (H4 m' Hf) as [Hr Hd]. rewrite elem_of_record_key. split; [by right|].
    rewrite elem_of_app, list_elem_of_singleton. intros [?|[= ->]]; done.
  - apply NoDup_app. split; [done|]. split; [|apply NoDup_singleton].
    intros x Hx ->%list_elem_of_singleton. by apply Hm, (H3 _ Hx).
Qed.

Lemma many_inv_failed m ids failed d0 known done C :
  key c m ∉ recorded d0 -> many_inv (m :: ids) failed d0 known done C ->
  many_inv ids ({[Message_Id.as_str m]} ∪ failed) (record_key (key c m) d0) known done
    (C ∖ {[key c m]}).
Proof.
  intros Hm [H1 H2 H3 H4 H5]. split; [| | | |done].
  - intros k. rewrite elem_of_difference, H1, elem_of_singleton. setoid_rewrite elem_of_cons.
    simpl. setoid_rewrite not_elem_of_union. setoid_rewrite not_elem_of_singleton.
    split; [naive_solver|]. intros [(x & Hx & ->)|?]; [|naive_solver].
    split; [eauto|]. intros Heq. apply Hm. rewrite <- Heq. by apply H3.
  - intros m'. rewrite elem_of_record_key, elem_of_union, elem_of_singleton, as_str_eq. naive_solver.
  - intros x Hx. destruct (H3 x Hx). set_solver.
  - intros m'. rewrite elem_of_union, elem_of_singleton, as_str_eq, elem_of_record_key.
    intros [->|Hf]; [|destruct (H4 m' Hf); auto]. split; [by left|]. intros Hx. by apply Hm, (H3 _ Hx).
Qed.

(** The claims of the transaction and what it wrote, with a savepoint there as
    long as messages are pending. *)
Definition batch_tx C (done : list Msg) (pending : nat) : TxState Item :=
  mkTx C (done ≫= effect)
    (match pending with O => None | Datatypes.S _ => Some (C, done ≫= effect) end).

(** Renewing the savepoint after a message. *)
Lemma renew_obeys {A : Type} n C C' (done done' : list Msg) pending known
    (f : unit -> prog (E) (result A InboxError)) Q :
  (forall e s, holds n s -> Q (Error e) s) ->
  obeys (nxt D) (f tt) Q (holds n) (Active n (batch_tx C done pending) known) ->
  obeys (nxt D)
    (bind_try (if decide (0 < pending)%nat
               then Store.release_and_savepoint (store self) n
               else Store.release (store self) n) f) Q (holds n)
    (Active n (mkTx C (done ≫= effect) (Some (C', done' ≫= effect))) known).
Proof.
  intros HQ Hf. destruct pending as [|p].
  - rewrite decide_False by lia. by eapply (obeys_stmt self D n Release).
  - rewrite decide_True by lia. by eapply (obeys_stmt self D n ReleaseAndSavepoint).
Qed.

Abbreviation items ids d0 := (zip ids (fst (claim_each c ids d0))).
Abbreviation pending ids d0 := (count_fresh (fst (claim_each c ids d0))).

(** How the loop of a batch may return. *)
Definition loop_returned n known ids (r : result (list (ProcessResult T)) InboxError) s : Prop :=
  match r with
  | Ok rs => exists done t, s = Active n t known /\ complete effect D done t /\
      Forall2 (fun m => reported done known (c, m)) ids rs
  | Error _ => holds n s
  end.

Lemma loop_obeys n known ids : forall pre d0 failed (done : list Msg) C (results : list (ProcessResult T)),
  (forall m, m ∈ ids -> (c, m) ∈ D) ->
  many_inv ids failed d0 known done C -> Forall2 (so_far failed known done) pre results ->
  obeys (nxt D)
    (Impl.process_many_loop self n (fun conn m => handler (c, m) conn) (items ids d0)
       (pending ids d0) failed results)
    (loop_returned n known (pre ++ ids)) (holds n)
    (Active n (batch_tx C done (pending ids d0)) known).
Proof.
  induction ids as [|m ids IH]; intros pre d0 failed done C results HD Hinv Hres.
  { split; [by eexists _, _|]. destruct Hinv as [H1 H2 H3 H4 H5]. eexists done, _.
    split; [done|]. split.
    - split; [done|done|naive_solver|done|]. intros k. simpl. rewrite H1.
      setoid_rewrite elem_of_nil. naive_solver.
    - rewrite app_nil_r. eapply Forall2_impl; [exact Hres|].
      intros m [[v|]|e]; [done|done|]. intros Hf. by apply H4. }
  assert (forall m, m ∈ ids -> (c, m) ∈ D) as HD' by (intros m' ?; apply HD; by right).
  assert (forall e s, holds n s -> loop_returned n known (pre ++ m :: ids) (Error e) s) as Herr by done.
  rewrite claim_each_cons, (app_assoc pre [m] ids : pre ++ m :: ids = _).
  destruct (decide (key c m ∈ recorded d0)) as [Hm|Hm].
  - rewrite (proj2 (claim_answer_Duplicate d0 (key c m)) Hm).
    pose proof (many_inv_duplicate _ _ _ _ _ _ _ Hm Hinv) as Hinv'.
    unfold count_fresh. rewrite filter_cons_False by done. cbn [zip zip_with Impl.process_many_loop].
    case_decide as Hf; (apply IH; [done|done|]); (apply Forall2_snoc; [done|]); [done|].
    destruct (mi_seen _ _ _ _ _ _ Hinv m Hm) as [?|[?|?]]; [by right|by left|done].
  - rewrite (proj2 (claim_answer_Fresh d0 (key c m)) Hm).
    unfold count_fresh. rewrite filter_cons_True by done. cbn [zip zip_with Impl.process_many_loop length].
    fold (pending ids (record_key (key c m) d0)).
    assert ((c, m) ∈ D) as HmD by (apply HD; by left).
    apply obeys_bind. eapply obeys_mono; [by apply Hhandler| |intros s (ws & failed' & ->); by eexists _, _].
    intros [v|e] s (ws & failed' & -> & Hws).
    + destruct (Hws eq_refl) as [-> ->]. unfold wrote. simpl.
      assert ((done ≫= effect) ++ effect (c, m) = (done ++ [(c, m)]) ≫= effect) as ->.
      { rewrite bind_app. simpl. by rewrite app_nil_r. }
      apply renew_obeys; [done|]. apply IH; [done|by apply many_inv_processed|].
      apply Forall2_snoc; [eapply so_far_mono; [done|done|set_solver]|]. simpl. set_solver.
    + apply obeys_bind_try. eapply (obeys_stmt self D n RollbackTo); [done|done|by split|].
      eapply (obeys_stmt self D n (Unclaim (key c m))); [by exists c, m| |by split|].
      * simpl. rewrite decide_True; [done|]. apply (mi_claims _ _ _ _ _ _ Hinv). right.
        exists m. split; [by left|done].
      * split; [by eexists _, _|]. simpl. apply renew_obeys; [done|].
        apply IH; [done|by apply many_inv_failed|].
        apply Forall2_snoc; [eapply so_far_mono; [done|set_solver|done]|]. simpl. set_solver.
Qed.

Lemma process_many_obeys ids :
  (forall m, m ∈ ids -> (c, m) ∈ D) ->
  obeys (nxt D) (Impl.process_many self ids (fun conn m => handler (c, m) conn))
    (fun r s => match r with
       | Ok rs => exists ms, applied_in s = Some ms /\
           Forall2 (fun m => reported ms (known_in s) (c, m)) ids rs
       | Error _ => True
       end) anywhere Start.
Proof.
  intros HD. unfold Impl.process_many. case_decide as Hne.
  { subst ids. split; [done|]. by exists []. }
  apply obeys_begin; [done|]. intros n. rewrite !pr_deref. apply obeys_try_owning; [done|]. apply obeys_bind_try.
  eapply obeys_mono; [by apply claim_many_obeys| |done].
  intros [cs|e] s; [|done]. intros (K & C & -> & -> & HC). simpl. rewrite union_empty_r_L.
  assert (many_inv ids ∅ (mkDb K tt) K [] C) as Hinv.
  { split; simpl; [|by left|by intros x ?%not_elem_of_nil|set_solver|constructor]. intros k. rewrite HC. setoid_rewrite elem_of_nil. naive_solver. }
  assert (forall r s, loop_returned n K ids r s -> match r with
    | Ok rs => obeys (nxt D) (_ <-? Store.commit (store self) n ;; Ret (Ok rs))
        (fun r s => match r with
           | Ok rs => exists ms, applied_in s = Some ms /\
               Forall2 (fun m => reported ms (known_in s) (c, m)) ids rs
           | Error _ => True
           end) anywhere s
    | Error _ => holds n s
    end) as Hend.
  { intros [rs|e] s; [|done]. intros (done & t & -> & Hc & Hr).
    eapply obeys_commit; [exact Hc| |done]. by exists done. }
  pose proof (loop_obeys n K ids [] (mkDb K tt) ∅ [] C [] HD Hinv ltac:(constructor)) as Hloop.
  destruct (pending ids (mkDb K tt)) as [|p] eqn:Hp.
  - rewrite decide_False by lia.
    eapply obeys_mono; [exact Hloop|exact Hend|done].
  - rewrite decide_True by lia. eapply (obeys_stmt self D n Savepoint); [done|done|done|].
    eapply obeys_mono; [exact Hloop|exact Hend|done].
Qed.
End Batch.

(** Every call keeps to the protocol, with its own messages. *)
Lemma call_obeys (tk : Task S) :
  (forall x, x ∈ deliveries tk -> handler_obeys x) ->
  obeys (nxt (deliveries tk)) (call_of tk) (returned tk) anywhere Start.
Proof.
  destruct tk as [self [m|ids|m]]; intros Hh; unfold call_of; simpl.
  - apply obeys_bind. eapply obeys_mono; [apply process_obeys, Hh; by left|by split|done].
  - apply obeys_bind. eapply obeys_mono; [apply (process_many_obeys self _ Hh)| |done].
    { intros m Hm. apply list_elem_of_fmap. by exists m. }
    intros [rs|e] s Hr; (split; [done|]); [|done]. destruct Hr as (ms & Hms & Hr). exists ms.
    split; [done|]. by apply Forall2_fmap_l.
  - apply obeys_bind. eapply obeys_mono; [apply pr_known| |done].
    { exists (id self, m). split; [by left|done]. }
    intros r s ->. split; [done|]. destruct r as [[]|]; [|done..]. intros _. by apply elem_of_singleton.
Qed.

(** ** All calls together *)

Section Pool.
Variable tasks : list (Task S).
Hypothesis Hhandler : forall tk x, tk ∈ tasks -> x ∈ deliveries tk -> handler_obeys x.
Implicit Types (g : Shared Item) (L : list (nat * Msg)) (tk : Task S).

Abbreviation call := (thread (E) (Reply T)).

(** The calls, by the number of their task. *)
Abbreviation pool := (nat -> call).

Definition calls : pool := fun i =>
  match tasks !! i with
  | Some tk => Running (call_of tk)
  | None => Unwinding (Ret tt)
  end.

Definition set_call (i : nat) (t : call) (ths : pool) : pool :=
  fun j => if decide (j = i) then t else ths j.

(** The rows of the messages the calls deliver: a purge does not remove them. *)
Definition delivered (k : str * str) : Prop :=
  exists i tk, tasks !! i = Some tk /\ delivers (deliveries tk) k.

(** One call makes a step, or the database does something on its own. *)
Inductive pool_step : pool * Shared Item -> pool * Shared Item -> Prop :=
| pool_call (i : nat) tk (t' : call) (ths : pool) g g' :
    tasks !! i = Some tk -> thread_step can (ths i) g t' g' ->
    pool_step (ths, g) (set_call i t' ths, g')
| pool_environment (ths : pool) g g' : environment delivered g g' -> pool_step (ths, g) (ths, g').

Definition thread_obeys tk (t : call) s : Prop :=
  match t with
  | Running p => obeys (nxt (deliveries tk)) p (returned tk) anywhere s
  | Unwinding p => obeys (nxt (deliveries tk)) p (fun _ _ => True) anywhere s
  end.

Lemma thread_obeys_step tk (t t' : call) s g g' :
  thread_obeys tk t s -> thread_step can t g t' g' ->
  (g' = g /\ thread_obeys tk t' s) \/
  (exists A (e : E A) a s',
     can A e g a g' /\ nxt (deliveries tk) s A e a s' /\ thread_obeys tk t' s').
Proof.
  intros Ho Hs. destruct Hs as [p p' g g' Hp|p g|p p' g g' Hp]; simpl in Ho |- *.
  - by eapply obeys_step.
  - left. split; [done|]. by eapply obeys_dropped.
  - by eapply obeys_step.
Qed.

(** Every call is in some phase of its protocol, no two own the same
    transaction, and the database is what the phases say. *)
Record pool_ok g0 (ths : pool) g L (ph : nat -> phase Item) : Prop := {
  po_shared : shared_ok g;
  po_applied : applied_ok delivered effect g0 g L;
  po_by x : x ∈ L -> exists tk, tasks !! fst x = Some tk /\ snd x ∈ deliveries tk;
  po_calls i tk : tasks !! i = Some tk ->
    thread_obeys tk (ths i) (ph i) /\ fits (deliveries tk) i (ph i) g L;
  po_owned i n : owned (ph i) = Some n -> n < sh_next g;
  po_apart i j n : owned (ph i) = Some n -> owned (ph j) = Some n -> i = j;
}.

Lemma pool_ok_start g : sh_open g = ∅ -> pool_ok g calls g [] (fun _ => Start).
Proof.
  intros Hg. split; simpl; try done.
  - split; rewrite Hg; intros *; by rewrite ?lookup_empty.
  - split; simpl; [by rewrite app_nil_r|constructor|set_solver|done|by left|set_solver|set_solver].
  - intros x ?%not_elem_of_nil. done.
  - intros i tk Htk. unfold calls. rewrite Htk. split.
    + apply call_obeys. intros x. apply Hhandler. by eapply list_elem_of_lookup_2.
    + split; simpl; [done|set_solver|]. intros ms [= <-] x. by rewrite !elem_of_nil.
Qed.

Lemma pool_ok_environment g0 ths g g' L ph :
  environment delivered g g' -> pool_ok g0 ths g L ph -> pool_ok g0 ths g' L ph.
Proof.
  intros He [H1 H2 H3 H4 H5 H6].
  assert (sh_next g' = sh_next g) as Hn by by destruct He.
  assert (forall D i s, (forall k, delivers D k -> delivered k) ->
    shared_ok g' /\ applied_ok delivered effect g0 g' L /\ (fits D i s g L -> fits D i s g' L)) as Henv.
  { intros D i s HD. destruct (environment_ok delivered effect D HD g0 g g' L He H1 H2) as (? & ? & Hf).
    auto. }
  destruct (Henv [] 0 Start) as (? & ? & _); [by intros k (x & ?%not_elem_of_nil & _)|].
  split; rewrite ?Hn; try done.
  intros i tk Htk. destruct (H4 i tk Htk) as [? ?]. split; [done|]. apply Henv; [|done].
  intros k Hk. by exists i, tk.
Qed.

(** The step of one call, as the others see it. *)
Lemma pool_ok_effect g0 i tk (t' : call) ths g g' L L' ph s' :
  tasks !! i = Some tk -> thread_obeys tk t' s' ->
  keeps delivered effect (deliveries tk) i (ph i) s' g0 g g' L L' ->
  pool_ok g0 ths g L ph ->
  pool_ok g0 (set_call i t' ths) g' L' (fun j => if decide (j = i) then s' else ph j).
Proof.
  intros Htk Ho' [K1 K2 K3 K4 K5 K6 K7] [H1 H2 H3 H4 H5 H6]. split; [done|done| | | |].
  - intros x Hx. destruct (K7 x Hx) as [?|[-> ?]]; [auto|]. by exists tk.
  - intros j tk' Htk'. unfold set_call. case_decide as Heq; [subst j; by simplify_eq|].
    destruct (H4 j tk' Htk') as [? Hfj]. split; [done|].
    apply (fits_spares delivered (deliveries tk') ltac:(intros k ?; by exists j, tk') j (ph j) g g' L L' (owned (ph i)));
      [done|done| |].
    + intros x. split; [|apply K6]. intros Hx. by destruct (K7 _ Hx) as [?|[? _]].
    + destruct (owned (ph i)) as [n|] eqn:Hi; [left|by right]. intros Hj. by eapply Heq, H6.
  - intros j n Hj. case_decide as Heq.
    + destruct s' as [|n' t known|]; simplify_eq/=. by apply (fit_open _ _ _ _ _ K5 n t known).
    + apply H5 in Hj. pose proof (sp_next _ _ _ _ K3). lia.
  - intros j1 j2 n. assert (forall j, j <> i -> owned s' = Some n -> owned (ph j) = Some n -> False) as Hnew.
    { intros j Hne Hs' Hj. destruct (K4 n Hs') as [Hi| ->]; [by eapply Hne, H6|]. apply H5 in Hj. lia. }
    repeat case_decide; subst; eauto; intros; exfalso; eauto.
Qed.

(** An effect of call [i], and what it leaves of the database. *)
Lemma effect_keeps g0 i tk ths g g' L ph A (e : E A) a s' :
  tasks !! i = Some tk -> pool_ok g0 ths g L ph ->
  can A e g a g' -> nxt (deliveries tk) (ph i) A e a s' ->
  exists L', keeps delivered effect (deliveries tk) i (ph i) s' g0 g g' L L'.
Proof.
  intros Htk [H1 H2 H3 H4 H5 H6] Hc Hn. destruct (H4 i tk Htk) as [_ Hf].
  eapply (pr_step delivered (deliveries tk)); [|done..]. intros k Hk. by exists i, tk.
Qed.

Lemma pool_ok_call g0 i tk (t' : call) ths g g' L ph :
  tasks !! i = Some tk -> thread_step can (ths i) g t' g' ->
  pool_ok g0 ths g L ph ->
  exists L' s', pool_ok g0 (set_call i t' ths) g' L' (fun j => if decide (j = i) then s' else ph j).
Proof.
  intros Htk Hst Hok. destruct (po_calls _ _ _ _ _ Hok i tk Htk) as [Ho Hf].
  destruct (thread_obeys_step tk (ths i) t' _ g g' Ho Hst) as [[-> Ho']|(A & e & a & s' & Hc & Hn & Ho')].
  - exists L, (ph i). eapply pool_ok_effect; [done|done| |done].
    apply keeps_same; [apply Hok|apply Hok|done|by left].
  - destruct (effect_keeps g0 i tk ths g g' L ph A e a s' Htk Hok Hc Hn) as [L' Hk].
    exists L', s'. by eapply pool_ok_effect.
Qed.

Lemma pool_ok_steps g0 st st' L ph :
  rtc pool_step st st' -> pool_ok g0 (fst st) (snd st) L ph ->
  exists L' ph', pool_ok g0 (fst st') (snd st') L' ph'.
Proof.
  intros Hrtc. revert L ph. induction Hrtc as [|st1 st2 st3 Hs _ IH]; intros L ph Hok; [eauto|].
  destruct Hs as [i tk t' ths g g' Htk Hst|ths g g' He].
  - destruct (pool_ok_call g0 i tk t' ths g g' L ph Htk Hst Hok) as (L' & s' & Hok'). by eapply IH.
  - eapply IH. by eapply pool_ok_environment.
Qed.

(** What the reply of call [i] says about the database, where the messages of
    [L] were applied by the calls given there. *)
Definition replied g L (i : nat) tk (r : Reply T) : Prop :=
  let x m : Msg := (id (task_consumer tk), m) in
  match task_work tk, r with
  | Process m, ReplyOne (Ok (Processed _)) => (i, x m) ∈ L
  | Process m, ReplyOne (Ok OutcomeDuplicate) =>
      (i, x m) ∉ L /\ mkey (x m) ∈ recorded (sh_db g)
  | Process m, ReplyOne (Error _) => True
  | ProcessMany ids, ReplyMany (Ok rs) =>
      Forall2 (fun m (r : ProcessResult T) =>
        match r with
        | Ok (Processed _) => (i, x m) ∈ L
        | Ok OutcomeDuplicate => mkey (x m) ∈ recorded (sh_db g)
        | Error _ => (i, x m) ∉ L
        end) ids rs
  | ProcessMany ids, ReplyMany (Error _) => True
  | IsKnownDuplicate m, ReplyKnown (Ok b) => b = true -> mkey (x m) ∈ recorded (sh_db g)
  | IsKnownDuplicate m, ReplyKnown (Error _) => True
  | _, _ => False
  end.

Lemma returned_replied g0 g L i tk r s :
  applied_ok delivered effect g0 g L -> fits (deliveries tk) i s g L ->
  returned tk r s -> replied g L i tk r.
Proof.
  intros Hap [_ Hk Ha]. unfold returned, replied. destruct (task_work tk) as [m|ids|m], r as [r|r|r]; try done.
  - destruct r as [[v|]|e]; [| |done].
    + intros Hr. apply (Ha _ Hr). by left.
    + intros [Hr Hin]. split; [|by apply Hk]. intros Hx. by apply (Ha _ Hr), not_elem_of_nil in Hx.
  - destruct r as [rs|e]; [|done]. intros (ms & Hms & Hr). rewrite Forall2_fmap_l in Hr.
    eapply Forall2_impl; [exact Hr|]. intros m [[v|]|e]; simpl; rewrite ?(Ha ms Hms); [done| |done].
    intros [Hin|Hin]; [|by apply Hk]. apply (ao_recorded _ _ _ _ _ Hap), list_elem_of_fmap.
    eexists. split; [|by apply (Ha ms Hms)]. done.
  - destruct r as [b|e]; [|done]. intros Hr Hb. by apply Hk, Hr.
Qed.

(** What has happened between [g0] and [g], where the calls are [ths] now.  The
    application's table grew by the complete effects of the messages of a list
    without repeats, each new and applied by one call that delivers it; the inbox
    records these and nothing else that is new, and of what it knew nothing that
    is delivered was lost; and every reply is true. *)
Definition exactly_once g0 g (ths : pool) : Prop :=
  exists L : list (nat * Msg),
    app (sh_db g) = app (sh_db g0) ++ (L.*2 ≫= effect) /\
    NoDup L.*2 /\
    (forall i x, (i, x) ∈ L ->
       mkey x ∉ recorded (sh_db g0) /\ mkey x ∈ recorded (sh_db g) /\
       exists tk, tasks !! i = Some tk /\ x ∈ deliveries tk) /\
    (forall k, k ∈ recorded (sh_db g) -> k ∈ recorded (sh_db g0) \/ exists x, x ∈ L.*2 /\ k = mkey x) /\
    (forall k, k ∈ recorded (sh_db g0) -> delivered k -> k ∈ recorded (sh_db g)) /\
    (forall i tk r, tasks !! i = Some tk -> ths i = Running (Ret r) -> replied g L i tk r).

Lemma pool_exactly_once g0 g (ths : pool) :
  sh_open g0 = ∅ -> rtc pool_step (calls, g0) (ths, g) -> exactly_once g0 g ths.
Proof.
  intros Hg Hrtc.
  destruct (pool_ok_steps g0 _ _ _ _ Hrtc (pool_ok_start g0 Hg)) as (L & ph & [H1 H2 H3 H4 _ _]).
  simpl in *. exists L. destruct H2 as [A1 A2 A3 A4 A5 A6 A7] eqn:HA. clear HA.
  split; [done|]. split; [done|]. split; [|split; [done|split; [done|]]].
  - intros i x Hin. assert (x ∈ L.*2) as Hx by (apply list_elem_of_fmap; by exists (i, x)).
    split; [auto|]. split; [auto|]. apply (H3 _ Hin).
  - intros i tk r Htk Hr. destruct (H4 i tk Htk) as [Ho Hf]. rewrite Hr in Ho.
    destruct Ho as [_ Ho]. by eapply (returned_replied g0).
Qed.

(** C2 (exactly once under concurrency). Over any store that keeps to its
    protocol, let any number of calls of [process], [process_many] and
    [is_known_duplicate] run concurrently over one database, several of them for
    the same messages, in any interleaving of the effects they await, with calls
    dropped, handlers panicking, statements failing and transactions ended by the
    database at any point, and rows of messages no call delivers purged.  The
    application's table grew by the complete effects of the messages of a list
    without repeats, each new and applied by one call that delivers it; the inbox
    records these and nothing else that is new, and of what it knew nothing that
    is delivered was lost; and every reply is true: a message reported as
    processed was applied by that call, one reported as duplicate or known is
    recorded, and one whose handler failed in a batch was not applied by it. *)
Theorem concurrent_exactly_once g0 g (ths : pool) :
  sh_open g0 = ∅ -> rtc pool_step (calls, g0) (ths, g) -> exactly_once g0 g ths.
Proof. apply pool_exactly_once. Qed.
End Pool.
End Calls.
