(* ===== verification/InterleavingRun.v ===== *)
(** * Concurrent calls at work

    An executable scheduler for the system of [Interleaving.v]: store calls
    succeed, a claim of a row another transaction has locked has to wait, and
    locks are kept until the transaction ends.  On it a batch with a poison
    message races with single calls. *)

From S2P Require Import Prelude Text Errors Durations Types Store.
From S2P Require Import MemStore Consumer Steps SharedDb Protocol Interleaving.

(** ** The scheduler *)

Section Scheduler.
Context {E : Type -> Type} {Item : Type}.
Context (can : forall A, E A -> Shared Item -> A -> Shared Item -> Prop).
Implicit Types (g : Shared Item) (k : str * str).

(** The answer of an effect, if it need not wait. *)
Variable answer : forall A, E A -> Shared Item -> option (A * Shared Item).
Hypothesis Hanswer : forall A (e : E A) g a g', answer A e g = Some (a, g') -> can A e g a g'.

Fixpoint step_prog {R : Type} (p : prog E R) g
  : option (prog E R * Shared Item) :=
  match p with
  | Ret _ | Panic _ => None
  | Vis e k => match answer _ e g with Some (a, g') => Some (k a, g') | None => None end
  | Scope c body k =>
      match body with
      | Ret a => Some (k a, g)
      | _ => match step_prog body g with
             | Some (body', g') => Some (Scope c body' k, g')
             | None => None
             end
      end
  end.

Lemma step_prog_sound {R : Type} (p p' : prog E R) g g' :
  step_prog p g = Some (p', g') -> pstep can p g p' g'.
Proof.
  revert p'. induction p as [R r|R x|R A e k IH|R A c _ body IHb k IH]; intros p'; simpl;
    [done|done| |].
  - destruct (answer A e g) as [[a g1]|] eqn:He; [|done]. intros [= <- <-].
    exists a. split; [by apply Hanswer|done].
  - destruct body; [by intros [= <- <-]|..];
      (destruct (step_prog _ g) as [[body' g1]|] eqn:Hb; [|done]);
      intros [= <- <-]; exists body'; (split; [by apply IHb|done]).
Qed.

Context {S T : Type}.
Variable tasks : list (Task S).

Abbreviation pool := (nat -> thread E (Reply T)).

(** A turn of a schedule: call [i] makes one step, or is dropped; the rows [old]
    are purged. *)
Inductive turn : Type :=
| Go (i : nat)
| Drop (i : nat)
| Purge (old : list (str * str)).

Definition task_rows : list (str * str) := tasks ≫= fun tk => mkey <$> deliveries tk.

Definition step_turn (t : turn) (st : pool * Shared Item) : option (pool * Shared Item) :=
  let '(ths, g) := st in
  match t with
  | Go i =>
      match tasks !! i, ths i with
      | Some _, Running p => match step_prog p g with
                             | Some (p', g') => Some (set_call i (Running p') ths, g')
                             | None => None
                             end
      | Some _, Unwinding p => match step_prog p g with
                               | Some (p', g') => Some (set_call i (Unwinding p') ths, g')
                               | None => None
                               end
      | None, _ => None
      end
  | Drop i =>
      match tasks !! i, ths i with
      | Some _, Running p => Some (set_call i (Unwinding (dropped p)) ths, g)
      | _, _ => None
      end
  | Purge old =>
      if decide (Forall (fun k => k ∉ task_rows) old) then
        Some (ths, {| sh_db := mkDb (recorded (sh_db g) ∖ list_to_set old) (app (sh_db g));
                      sh_open := sh_open g; sh_next := sh_next g |})
      else None
  end.

Lemma elem_of_task_rows k : k ∈ task_rows <-> delivered tasks k.
Proof.
  unfold task_rows, delivered, delivers. rewrite list_elem_of_bind. split.
  - intros (tk & (x & -> & Hx)%list_elem_of_fmap & (i & Hi)%list_elem_of_lookup). eauto 8.
  - intros (i & tk & Hi & x & Hx & ->). exists tk. split; [|by eapply list_elem_of_lookup_2].
    apply list_elem_of_fmap. eauto.
Qed.

Lemma step_turn_sound (t : turn) (st st' : pool * Shared Item) :
  step_turn t st = Some st' -> pool_step (can := can) tasks st st'.
Proof.
  destruct st as [ths g], t as [i|i|old]; simpl.
  - destruct (tasks !! i) as [tk|] eqn:Hi; [|done].
    destruct (ths i) as [p|p] eqn:Ht; (destruct (step_prog p g) as [[p' g']|] eqn:Hp; [|done]);
      intros [= <-]; eapply pool_call; try done; rewrite Ht; constructor; by apply step_prog_sound.
  - destruct (tasks !! i) as [tk|] eqn:Hi; [|done]. destruct (ths i) as [p|p] eqn:Ht; [|done].
    intros [= <-]. eapply pool_call; [done|]. rewrite Ht. constructor.
  - case_decide as Ho; [|done]. intros [= <-]. refine (pool_environment _ _ _ _ (env_purges _ _ (list_to_set old) _)).
    intros k Hk%elem_of_list_to_set. rewrite Forall_forall in Ho.
    rewrite <- elem_of_task_rows. by apply Ho.
Qed.

Fixpoint run_schedule (l : list turn) (st : pool * Shared Item) : option (pool * Shared Item) :=
  match l with
  | [] => Some st
  | t :: l => match step_turn t st with Some st' => run_schedule l st' | None => None end
  end.

Lemma run_schedule_sound l (st st' : pool * Shared Item) :
  run_schedule l st = Some st' -> rtc (pool_step (can := can) tasks) st st'.
Proof.
  revert st; induction l as [|t l IH]; intros st; simpl; [by intros [= ->]; apply rtc_refl|].
  destruct (step_turn t st) as [st1|] eqn:Hs; [|done]. intros Hl.
  eapply rtc_l; [by eapply step_turn_sound|by apply IH].
Qed.
End Scheduler.

(** ** The store of [SharedDb.v] *)

Section Answer.
Context {Item : Type}.
Implicit Types (g : Shared Item) (k : str * str).

Definition unlocked_b (n : nat) k g : bool :=
  bool_decide (map_Forall (fun n' (x : TxState Item * gset (str * str)) => n' = n \/ k ∉ snd x)
                 (sh_open g)).

(** The successful answer of a call, if it need not wait. *)
Definition answer (A : Type) (e : storeE Item A) g : option (A * Shared Item) :=
  match e in storeE _ R return option (R * Shared Item) with
  | SBegin => Some (Ok (sh_next g), begun g)
  | SCommit n => match sh_open g !! n with
                 | Some (t, _) => if tx_failed t then None else Some (Ok tt, committed_tx n t g)
                 | None => None
                 end
  | SRollback n => Some (Ok tt, ended n g)
  | SDrop n => Some (tt, ended n g)
  | SClaim n rq =>
      let k := key (req_consumer rq) (req_id rq) in
      match sh_open g !! n with
      | Some (t, ls) =>
          if unlocked_b n k g then
            if decide (k ∈ tx_claims t ∪ recorded (sh_db g)) then Some (Ok Duplicate, g)
            else Some (Ok Fresh, set_tx n (claim_tx k t) ({[k]} ∪ ls) g)
          else None
      | None => None
      end
  | SStmt n st =>
      match sh_open g !! n with
      | Some (t, ls) =>
          match apply_stmt st t with
          | Some t' => if decide (needed t' ⊆ ls) then Some (Ok tt, set_tx n t' ls g) else None
          | None => None
          end
      | None => None
      end
  | SKnown c m => Some (Ok (bool_decide (key c m ∈ recorded (sh_db g))), g)
  end.

Lemma answer_can A (e : storeE Item A) g a g' : answer A e g = Some (a, g') -> can A e g a g'.
Proof.
  destruct e as [|n|n|n|n rq|n st|c m]; simpl; unfold on_open, committing;
    try (intros; simplify_eq; done);
    try (destruct (sh_open g !! n) as [[t ls]|]; [|done]).
  - destruct (tx_failed t); [done|]. intros [= <- <-]. by left.
  - unfold unlocked_b. case_bool_decide as Hu; [|done]. intros H.
    assert (unlocked n (key (req_consumer rq) (req_id rq)) g) as Hun.
    { intros n' t' ls' Hl Hin. by destruct (Hu n' (t', ls') Hl). }
    case_decide; simplify_eq; intros _; (split; [done|]); by rewrite ?decide_True, ?decide_False by done.
  - destruct (apply_stmt st t) as [t'|] eqn:Ha; [|done]. case_decide; [|done]. intros. simplify_eq.
    split.
    + intros ->. simpl in Ha. by destruct (tx_save t).
    + rewrite Ha. intros t1 [= <-]. by exists ls.
  - intros [= <- <-]. split; [done|]. intros [= Hb%bool_decide_eq_true]. done.
Qed.
End Answer.

(** ** A race *)

Definition poison : MessageId := mid "bad".

Definition effect_of (x : Msg) : list str := [Message_Id.as_str (snd x)].

(** Writes the message's id; the handler of [poison] fails after that. *)
Definition write_handler (x : Msg) (conn : nat) : prog (storeE str) (result unit HandlerError) :=
  r <- trigger (SStmt conn (Write (Message_Id.as_str (snd x)))) ;;
  match r with
  | Ok _ => if decide (snd x = poison) then Ret (Error (EString (lit "poison"))) else Ret (Ok tt)
  | Error e => Ret (Error (EInbox e))
  end.

Lemma write_handler_obeys x : handler_obeys (nxt := next effect_of) effect_of write_handler x.
Proof.
  intros D n [C W S []] known; [done|]. intros _.
  assert (forall b, mkTxState C W S b = wrote (mkTx C W S) [] b) as Hnil
    by (intros b; unfold wrote; simpl; by rewrite app_nil_r).
  refine (obeys_call _ (SStmt n _) _ _ _ _ _ _); [exists [], false; by rewrite <- Hnil|].
  intros [[]|e]; (eexists; split; [by eexists _, known, _|]); simpl.
  - case_decide; (split; [by eexists _, false|]); eexists _, false; (split; [done|]); done.
  - split; exists [], true; rewrite <- Hnil; [done|]. by split.
Qed.

Definition task (c : string) (w : Work) : Task SharedStore :=
  mkTask (Impl.new sharedStore (cid c)) w.

(** A batch with a poison message and repeats, two deliveries of one of its
    messages to the same consumer, one to another consumer, and a probe. *)
Definition race : list (Task SharedStore) :=
  [ task "billing" (ProcessMany [mid "m-2"; poison; mid "m-1"; mid "m-2"; poison]);
    task "billing" (Process (mid "m-1"));
    task "billing" (Process (mid "m-1"));
    task "audit" (Process (mid "m-1"));
    task "billing" (IsKnownDuplicate (mid "m-2")) ].

Definition race_start : Shared str :=
  {| sh_db := mkDb {[key (cid "billing") (mid "old")]} []; sh_open := ∅; sh_next := 0 |}.

Definition race_calls : nat -> thread (storeE str) (Reply unit) := calls write_handler race.

(** Call 1 is dropped while it holds the claim of m-1; call 2 claims it then, and
    the batch, which has claimed the poison message, has to wait for call 2. *)
Definition up_to_wait : list turn :=
  repeat (Go 1) 3 ++ [Drop 1] ++ [Go 1] ++ repeat (Go 2) 2 ++ repeat (Go 0) 2.

Definition after_wait : list turn :=
  repeat (Go 2) 4 ++ [Purge [key (cid "billing") (mid "old")]] ++
  repeat (Go 0) 11 ++ repeat (Go 3) 6 ++ [Go 4].

Definition race_end : (nat -> thread (storeE str) (Reply unit)) * Shared str :=
  default (race_calls, race_start)
    (run_schedule answer race (up_to_wait ++ after_wait) (race_calls, race_start)).

Definition is_some {A : Type} (o : option A) : bool :=
  match o with Some _ => true | None => false end.

Lemma default_is_some {A : Type} (o : option A) (a : A) : is_some o = true -> o = Some (default a o).
Proof. by destruct o. Qed.

(** The batch applies m-2 and reports the poison message twice as failed and the
    others as duplicates; each consumer has m-1 once, and the probe finds m-2. *)
Lemma concurrent_exactly_once_witness :
  is_some (run_schedule answer race up_to_wait (race_calls, race_start)) = true /\
  is_some (run_schedule answer race (up_to_wait ++ [Go 0]) (race_calls, race_start)) = false /\
  fst race_end 0 = Running (Ret (ReplyMany (Ok
    [Ok (Processed tt); Error (EString (lit "poison")); Ok OutcomeDuplicate; Ok OutcomeDuplicate;
     Error (earlier_failed poison)]))) /\
  fst race_end 2 = Running (Ret (ReplyOne (Ok (Processed tt)))) /\
  fst race_end 4 = Running (Ret (ReplyKnown (Ok true))) /\
  app (sh_db (snd race_end)) = [lit "m-1"; lit "m-2"; lit "m-1"] /\
  exists L : list (nat * Msg),
    app (sh_db (snd race_end)) = L.*2 ≫= effect_of /\ NoDup L.*2 /\
    (0, (cid "billing", mid "m-2")) ∈ L /\ (0, (cid "billing", poison)) ∉ L /\
    (2, (cid "billing", mid "m-1")) ∈ L.
Proof.
  do 6 (split; [vm_compute; reflexivity|]).
  destruct (concurrent_exactly_once effect_of write_handler race
    (fun _ x _ _ => write_handler_obeys x) race_start (snd race_end) (fst race_end))
    as (L & Ha & Hn & _ & _ & _ & Hr).
  - reflexivity.
  - rewrite <- surjective_pairing. apply (run_schedule_sound can answer answer_can race (up_to_wait ++ after_wait)).
    apply default_is_some. vm_compute. reflexivity.
  - assert (fst race_end 0 = Running (Ret (ReplyMany (Ok
      [Ok (Processed tt); Error (EString (lit "poison")); Ok OutcomeDuplicate; Ok OutcomeDuplicate;
       Error (earlier_failed poison)])))) as H0 by (vm_compute; reflexivity).
    assert (fst race_end 2 = Running (Ret (ReplyOne (Ok (Processed tt))))) as H2
      by (vm_compute; reflexivity).
    pose proof (Hr 0 _ _ eq_refl H0) as R0. pose proof (Hr 2 _ _ eq_refl H2) as R2.
    simpl in R0, R2. apply Forall2_cons in R0 as [Hm R0]. apply Forall2_cons in R0 as [Hp _].
    exists L. split; [exact Ha|]. split; [exact Hn|]. split; [exact Hm|]. split; [exact Hp|exact R2].
Defined.
