(* ===== verification/Locks.v ===== *)
(** * Concurrent calls do not deadlock

    [claim_many] of [src/src/consumer.rs] sends the ids of a batch unique and
    sorted by bytes, and a store takes its row locks in that order
    ([src/src/store.rs], documentation of [InboxStore::claim_many]).  Here any
    number of calls of [process] and [process_many] run concurrently over the
    database of [SharedDb.v], where a claim of a row waits for the transaction
    that has it locked.  The theorem is that no calls ever wait for each other in
    a circle, so that some transaction can always go on.

    Each call is shown to keep to a second protocol besides that of
    [SharedDb.v]: whenever it claims a row, the row comes after all that its
    transaction has locked. *)

From S2P Require Import Prelude Text Errors Durations Types Store.
From S2P Require Import MemStore Consumer ClaimMany Steps SharedDb Protocol Interleaving InterleavingRun.

(** ** The order of locks *)

(** Rows of one consumer, by the bytes of the message id. *)
Definition row_lt (k k' : str * str) : Prop := fst k = fst k' /\ str_lt (snd k) (snd k').

#[export] Instance row_lt_trans : Transitive row_lt.
Proof. intros a b c [Hab ?] [Hbc ?]. split; [congruence|by etrans]. Qed.

Lemma row_lt_irrefl k : ~ row_lt k k.
Proof. intros [_ H]. by apply str_lt_irrefl in H. Qed.

Lemma id_lt_row (c : ConsumerId) (a b : MessageId) : id_lt a b -> row_lt (key c a) (key c b).
Proof. by split. Qed.

Definition request_key (rq : ClaimRequest) : str * str := key (req_consumer rq) (req_id rq).

Section Locks.
Context {Item T : Type}.
Variable effect : Msg -> list Item.
Variable handler : Msg -> nat -> prog (storeE Item) (result T HandlerError).
Implicit Types (n : nat) (R : gset (str * str)) (g : Shared Item) (m : MessageId).

(** A call holds no transaction, or [n] with at most the rows [R] locked. *)
Abbreviation Held := (option (nat * gset (str * str))).
Abbreviation always := (fun _ : Held => True).

(** A row is claimed only after all rows that are locked already. *)
Definition in_order (l : Held) (A : Type) (e : storeE Item A) (a : A) (l' : Held) : Prop :=
  match e in storeE _ B return B -> Prop with
  | SBegin => fun r => l = None /\ l' = match r with Ok n => Some (n, ∅) | Error _ => None end
  | SCommit n | SRollback n => fun _ => l' = None
  | SDrop n => fun _ => l' = None
  | SClaim n rq => fun r => exists R,
      l = Some (n, R) /\ (forall k, k ∈ R -> row_lt k (request_key rq)) /\
      l' = Some (n, match r with Ok Fresh => {[request_key rq]} ∪ R | _ => R end)
  | SStmt n st => fun _ => (exists R, l = Some (n, R)) /\ l' = l
  | SKnown c m => fun _ => l' = l
  end a.

(** A program that claims nothing. *)
Definition claims_nothing {A : Type} n (p : prog (storeE Item) A) : Prop := forall R,
  obeys in_order p (fun _ l => l = Some (n, R)) (fun l => l = Some (n, R)) (Some (n, R)).

(** The handlers claim nothing. *)
Hypothesis Hhandler : forall x n, claims_nothing n (handler x n).

(** ** Each call keeps to the order *)

Section Call.
Variable self : Consumer SharedStore.

Lemma in_order_stmt {A : Type} n R (st : stmt Item) (f : unit -> prog (storeE Item) (result A InboxError)) :
  (forall R, obeys in_order (f tt) (fun _ l => l = Some (n, R)) (fun l => l = Some (n, R)) (Some (n, R))) ->
  obeys in_order (bind_try (trigger (SStmt n st)) f) (fun _ l => l = Some (n, R)) (fun l => l = Some (n, R))
    (Some (n, R)).
Proof.
  intros Hf. apply obeys_bind_try. apply obeys_trigger; [done|]. intros [[]|e];
    (exists (Some (n, R)); split; [split; [by eexists|done]|]); by split.
Qed.

Lemma in_order_owning {A : Type} n (p : prog (storeE Item) A) (C : Held -> Prop) Q l :
  obeys in_order p Q C l -> obeys in_order (Impl.owning n p) Q always l.
Proof.
  apply obeys_scoped. intros l' _. apply obeys_trigger; [done|]. intros []. by exists None.
Qed.

(** [?] with the transaction in scope, whatever then happens to it. *)
Lemma in_order_try_owning {A B : Type} n (p : prog (storeE Item) (result A InboxError))
    (f : A -> prog (storeE Item) (result B InboxError)) (C : Held -> Prop) l :
  obeys in_order p (fun r l' => match r with
    | Ok a => obeys in_order (f a) (fun _ _ => True) always l'
    | Error _ => True
    end) C l ->
  obeys in_order (Impl.bind_try_owning n p f) (fun _ _ => True) always l.
Proof.
  intros Hp. apply obeys_bind, (in_order_owning _ _ C). eapply obeys_mono; [exact Hp| |done].
  intros [a|e] l' Hl; [done|]. apply obeys_call; [done|]. intros []. by exists None.
Qed.

Lemma in_order_end {A B : Type} (e : storeE Item (result B InboxError)) (a : A) l :
  (forall r l', l' = None -> in_order l _ e r l') ->
  obeys in_order (_ <-? trigger e ;; Ret (Ok a)) (fun _ _ => True) always l.
Proof.
  intros He. apply obeys_bind_try, obeys_trigger; [done|]. intros [b|err]; exists None; by split; [apply He|].
Qed.

Lemma process_in_order m :
  obeys in_order (Impl.process self m (handler (id self, m))) (fun _ _ => True) always None.
Proof.
  apply obeys_bind_try, obeys_trigger; [done|].
  intros [n|e]; (eexists; split; [by split|]); (split; [done|]); [|by split].
  apply in_order_try_owning with (C := always). apply obeys_trigger; [done|]. intros r. eexists.
  split; [exists ∅; split; [done|]; split; [set_solver|done]|]. split; [done|].
  destruct r as [[|]|e]; [| |done].
  - apply obeys_bind, (in_order_owning _ _ (fun _ => True)).
    eapply obeys_mono; [apply Hhandler| |done]. intros [v|e] l ->; simpl.
    + by apply in_order_end.
    + apply obeys_call; [done|]. intros r. by exists None.
  - by apply in_order_end.
Qed.

(** A batch claim, with the rows locked before it. *)
Lemma claims_in_order n (b : ClaimBatch) ids : forall R (cs : list Claim),
  StronglySorted id_lt ids ->
  (forall k m, k ∈ R -> m ∈ ids -> row_lt k (key (batch_consumer b) m)) ->
  obeys in_order (default_claim_many_loop (fun conn r => trigger (SClaim conn r)) n b ids cs)
    (fun _ l => exists R', l = Some (n, R')) always (Some (n, R)).
Proof.
  induction ids as [|m ids IH]; intros R cs Hs HR; simpl; [by split; [|eexists]|].
  apply StronglySorted_inv in Hs as [Hs Hm]. rewrite Forall_forall in Hm.
  apply obeys_bind_try, obeys_trigger; [done|]. intros r. eexists.
  split; [exists R; split; [done|]; split; [|done]; intros k Hk; apply HR; [done|by left]|].
  split; [done|]. destruct r as [c|e]; simpl; [|by split; [|eexists]].
  apply IH; [done|]. intros k m' Hk Hm'. destruct c; [|apply HR; [done|by right]].
  apply elem_of_union in Hk as [->%elem_of_singleton|Hk]; [|apply HR; [done|by right]].
  apply (id_lt_row (batch_consumer b)), Hm. done.
Qed.

Lemma claim_many_in_order n ids :
  obeys in_order (Impl.claim_many self n ids) (fun _ l => exists R, l = Some (n, R)) always
    (Some (n, ∅)).
Proof.
  destruct (decide (ids = [])) as [->|Hne]; [by split; [|eexists]|].
  rewrite claim_many_unfold by done. apply obeys_bind_try. eapply obeys_mono.
  - apply (claims_in_order n (sent_batch self ids)); [apply unique_sorted|set_solver].
  - intros [cs|e] l Hl; [|by split]. destruct (answer_batch_returns (E := storeE Item) self ids cs) as [r ->]. by split.
  - done.
Qed.

Lemma loop_in_order n items : forall pending failed (results : list (ProcessResult T)),
  claims_nothing n (Impl.process_many_loop self n (fun conn m => handler (id self, m) conn) items
                      pending failed results).
Proof.
  induction items as [|[m []] items IH]; intros pending failed results R; simpl.
  - by split.
  - destruct pending as [|pending]; [done|]. apply obeys_bind.
    eapply obeys_mono; [apply Hhandler| |done]. intros r l ->.
    apply obeys_bind_try. apply obeys_mono with
      (Q := fun _ l => l = Some (n, R)) (C := fun l => l = Some (n, R)); [| |done].
    + destruct r as [v|e]; [by split|].
      apply in_order_stmt. intros R'. apply in_order_stmt. intros R''. by split.
    + intros [fr|e] l ->; [|by split].
      case_decide; apply in_order_stmt; intros R'; apply IH.
  - case_decide; apply IH.
Qed.

Lemma process_many_in_order ids :
  obeys in_order (Impl.process_many self ids (fun conn m => handler (id self, m) conn))
    (fun _ _ => True) always None.
Proof.
  unfold Impl.process_many. case_decide; [by split|].
  apply obeys_bind_try, obeys_trigger; [done|].
  intros [n|e]; (eexists; split; [by split|]); (split; [done|]); [|by split].
  apply in_order_try_owning with (C := always). apply obeys_bind_try.
  eapply obeys_mono; [apply claim_many_in_order| |done].
  intros [cs|e] l; [|by split]. intros [R ->]. simpl.
  assert (forall R', obeys in_order (Impl.process_many_loop self n (fun conn m => handler (id self, m) conn)
      (zip ids cs) (count_fresh cs) ∅ [])
    (fun r l => match r with
       | Ok rs => obeys in_order (_ <-? Store.commit (store self) n ;; Ret (Ok rs)) (fun _ _ => True) always l
       | Error _ => True
       end) always (Some (n, R'))) as Hloop.
  { intros R'. eapply obeys_mono; [apply loop_in_order| |done].
    intros [rs|e] l _; [|done]. by apply in_order_end. }
  case_decide; [|apply Hloop]. apply obeys_bind_try, obeys_trigger; [done|].
  intros [[]|e]; (exists (Some (n, R)); split; [by split; [eexists|]|]); by split.
Qed.

Lemma call_in_order (w : Work) :
  obeys in_order (call_of handler (mkTask self w)) (fun _ _ => True) always None.
Proof.
  unfold call_of. destruct w as [m|ids|m]; simpl; apply obeys_bind.
  - eapply obeys_mono; [apply process_in_order|by split|done].
  - eapply obeys_mono; [apply process_many_in_order|by split|done].
  - apply obeys_trigger; [done|]. intros r. by exists None.
Qed.
End Call.

(** ** What the transactions have locked *)

(** The rows the call's transaction has locked are at most those it knows of. *)
Definition locks_held (l : Held) g : Prop :=
  match l with
  | Some (n, R) => forall t ls, sh_open g !! n = Some (t, ls) -> ls ⊆ R
  | None => True
  end.

Lemma failed_locks {A Err : Type} n R g g' (e : Err) (Q : A -> TxState Item -> gset (str * str) -> Prop) :
  on_open n g g' (Error e) Q -> locks_held (Some (n, R)) g -> locks_held (Some (n, R)) g'.
Proof.
  unfold on_open. destruct (sh_open g !! n) as [[t ls]|] eqn:Ho; [|by intros ->].
  intros [->|[->|(save & ls' & _ & _ & Hsub & ->)]] Hl; [done| |]; simpl; intros t1 ls1.
  - by rewrite lookup_delete_eq.
  - rewrite lookup_insert_eq. intros [= <- <-]. specialize (Hl t ls Ho). set_solver.
Qed.

(** One effect of a call, in both protocols. *)
Lemma effect_locks (D : list Msg) (i : nat) g g' (L : list (nat * Msg)) A (e : storeE Item A) (a : A) (s s' : phase Item) (l l' : Held) :
  fits D i s g L -> shared_ok g -> can A e g a g' -> next effect D s A e a s' -> in_order l A e a l' ->
  fst <$> l = owned s -> locks_held l g -> fst <$> l' = owned s' /\ locks_held l' g'.
Proof.
  intros Hf Hok Hc Hn Hl Hown Hh. destruct e as [|n|n|n|n rq|n st|c m]; simpl in Hl.
  - destruct Hn as [-> ->], Hl as [-> ->], a as [n|e]; [|done]. destruct Hc as [-> ->].
    split; [done|]. simpl. intros t ls. rewrite lookup_insert_eq. by intros [= <- <-].
  - destruct Hn as (t & known & ms & -> & _ & ->). by subst.
  - destruct Hn as (t & known & -> & ->). by subst.
  - destruct Hn as (t & known & -> & ->). by subst.
  - destruct Hn as (t & known & -> & Hlive & _ & ->), Hl as (R & -> & _ & ->).
    destruct a as [c|e]; [|split; [done|by eapply failed_locks]].
    destruct (on_open_ok D i g L Hok _ _ _ _ _ _ Hc Hf) as (td & ls & Ho & ->%stands_live & HQ & _); [|done].
    destruct (HQ Hlive) as [_ Hans]. specialize (Hh t ls Ho).
    case_decide; destruct Hans as [-> ->]; (split; [done|]); simpl; intros t1 ls1.
    + rewrite Ho. by intros [= <- <-].
    + rewrite lookup_insert_eq. intros [= <- <-]. unfold request_key. set_solver.
  - destruct Hn as (t & known & t' & -> & Hst & ->), Hl as [[R ->] ->].
    destruct a as [[]|e]; [|split; [done|by eapply failed_locks]].
    destruct (on_open_ok D i g L Hok _ _ _ _ _ _ Hc Hf) as (td & ls & Ho & Hstands & [Hsave HQ] & _).
    destruct (HQ t') as (ls' & _ & Hsub & ->); [by eapply stands_apply|].
    split; [done|]. simpl. intros t1 ls1. rewrite lookup_insert_eq. intros [= <- <-].
    specialize (Hh td ls Ho). set_solver.
  - destruct Hn as (-> & _ & ->), Hc as [-> _]. by subst.
Qed.

(** A change that leaves the transaction of another call alone. *)
Lemma spared_locks (wanted : str * str -> Prop) (o : option nat) g g' (l : Held) n :
  spares wanted o g g' -> fst <$> l = Some n -> n < sh_next g -> o <> Some n ->
  locks_held l g -> locks_held l g'.
Proof.
  intros [_ _ Hsp] Hn Hlt Ho. destruct l as [[n' R]|]; [|done]. injection Hn as ->. simpl.
  intros Hl t ls. destruct (Hsp n Hlt Ho) as [-> | ->]; [apply Hl|done].
Qed.

Lemma environment_locks (wanted : str * str -> Prop) g g' (l : Held) :
  environment wanted g g' -> locks_held l g -> locks_held l g'.
Proof.
  intros [n|old Hold]; [|done]. destruct l as [[n' R]|]; [|done]. simpl. intros Hl t ls.
  destruct (decide (n = n')) as [->|Hne]; [by rewrite lookup_delete_eq|].
  rewrite lookup_delete_ne by done. apply Hl.
Qed.

(** ** All calls together *)

Section Pool.
Variable tasks : list (Task SharedStore).
Hypothesis Hobeys : forall tk x, tk ∈ tasks -> x ∈ deliveries tk ->
  handler_obeys (nxt := next effect) effect handler x.
Implicit Types (tk : Task SharedStore) (L : list (nat * Msg)).

Abbreviation call := (thread (storeE Item) (Reply T)).
Abbreviation pool := (nat -> call).

(** The call keeps to both protocols. *)
Definition keeps_both tk (t : call) (s : phase Item * Held) : Prop :=
  match t with
  | Running p => obeys (both (next effect (deliveries tk)) in_order) p
                   (fun r s => returned tk r (fst s)) (fun _ => True) s
  | Unwinding p => obeys (both (next effect (deliveries tk)) in_order) p
                     (fun _ _ => True) (fun _ => True) s
  end.

Lemma keeps_both_first tk (t : call) s :
  keeps_both tk t s -> thread_obeys (nxt := next effect) tk t (fst s).
Proof.
  destruct t as [p|p]; [apply (obeys_first _ _ p (returned tk) (fun _ => True))|].
  apply (obeys_first _ _ p (fun _ _ => True) (fun _ => True)).
Qed.

Lemma keeps_both_step tk (t t' : call) s g g' :
  keeps_both tk t s -> thread_step can t g t' g' ->
  (g' = g /\ keeps_both tk t' s) \/
  (exists A (e : storeE Item A) a s', can A e g a g' /\
     both (next effect (deliveries tk)) in_order s A e a s' /\ keeps_both tk t' s').
Proof.
  intros Ho Hs. destruct Hs as [p p' g g' Hp|p g|p p' g g' Hp]; simpl in Ho |- *.
  - by eapply obeys_step.
  - left. split; [done|]. by eapply obeys_dropped.
  - by eapply obeys_step.
Qed.

(** The invariant of [Interleaving.v], and that locks are taken in order. *)
Record ordered_ok g0 (ths : pool) g L (ph : nat -> phase Item) (lp : nat -> Held) : Prop := {
  oo_pool : pool_ok effect (nxt := next effect) tasks g0 ths g L ph;
  oo_both i tk : tasks !! i = Some tk -> keeps_both tk (ths i) (ph i, lp i);
  oo_owned i : fst <$> lp i = owned (ph i);
  oo_locks i : locks_held (lp i) g;
}.

Lemma ordered_ok_start g :
  sh_open g = ∅ -> ordered_ok g (calls handler tasks) g [] (fun _ => Start) (fun _ => None).
Proof.
  intros Hg. split; [by apply (pool_ok_start effect (can := can) (nxt := next effect))|..]; try done.
  intros i tk Htk. unfold calls. rewrite Htk. simpl.
  eapply obeys_mono; [apply obeys_both; [|apply (call_in_order (task_consumer tk) (task_work tk))]| |done].
  - destruct tk. apply (call_obeys effect (can := can)). intros x. apply Hobeys. by eapply list_elem_of_lookup_2.
  - by intros r s [? _].
Qed.

Abbreviation upd i x f := (fun j : nat => if decide (j = i) then x else f j).

Lemma ordered_ok_call g0 (i : nat) tk (t' : call) (ths : pool) g g' L ph lp :
  tasks !! i = Some tk -> thread_step can (ths i) g t' g' -> ordered_ok g0 ths g L ph lp ->
  exists L' ph' lp', ordered_ok g0 (set_call i t' ths) g' L' ph' lp'.
Proof.
  intros Htk Hst [Hpool Hboth Hown Hlocks].
  destruct (keeps_both_step tk (ths i) t' _ g g' (Hboth i tk Htk) Hst)
    as [[-> Ho']|(A & e & a & [s' l'] & Hc & [Hn Hl] & Ho')].
  - exists L, (upd i (ph i) ph), (upd i (lp i) lp). split.
    + eapply pool_ok_effect; [done|by apply (keeps_both_first tk t' (ph i, lp i))| |done].
      apply keeps_same; [apply Hpool|apply Hpool|by eapply po_calls|by left].
    + intros j tk' Htk'. unfold set_call. repeat case_decide; simplify_eq; auto.
    + intros j. repeat case_decide; simplify_eq; auto.
    + intros j. case_decide; auto.
  - destruct (effect_keeps effect (can := can) (nxt := next effect) tasks g0 i tk ths g g' L ph A e a s' Htk Hpool Hc Hn)
      as [L' Hk].
    destruct (effect_locks (deliveries tk) i g g' L A e a (ph i) s' (lp i) l') as [Hown' Hl'];
      [by eapply po_calls|apply Hpool|done|done|done|done|done|].
    exists L', (upd i s' ph), (upd i l' lp). split.
    + eapply pool_ok_effect; [done|by apply (keeps_both_first tk t' (s', l'))|done|done].
    + intros j tk' Htk'. unfold set_call. repeat case_decide; simplify_eq; auto.
    + intros j. repeat case_decide; simplify_eq; auto.
    + intros j. case_decide as Hj; [done|].
      destruct (fst <$> lp j) as [n|] eqn:Hlj; [|by destruct (lp j)].
      pose proof (Hown j) as Hoj. rewrite Hlj in Hoj.
      eapply spared_locks; [apply (kp_spares _ _ _ _ _ _ _ _ _ _ _ Hk)|done|by eapply po_owned| |done].
      intros Hi. by eapply Hj, (po_apart _ _ _ _ _ _ _ Hpool).
Qed.

Lemma ordered_ok_steps g0 st st' L ph lp :
  rtc (pool_step (can := can) tasks) st st' -> ordered_ok g0 (fst st) (snd st) L ph lp ->
  exists L' ph' lp', ordered_ok g0 (fst st') (snd st') L' ph' lp'.
Proof.
  intros Hrtc. revert L ph lp. induction Hrtc as [|st1 st2 st3 Hs _ IH]; intros L ph lp Hok; [eauto|].
  destruct Hs as [i tk t' ths g g' Htk Hst|ths g g' He].
  - destruct (ordered_ok_call g0 i tk t' ths g g' L ph lp Htk Hst Hok) as (L' & ph' & lp' & Hok').
    by eapply IH.
  - eapply (IH L ph lp). destruct Hok as [H1 H2 H3 H4]. split; [|done|done|].
    + by eapply pool_ok_environment.
    + intros i. by eapply environment_locks.
Qed.

(** ** Who waits for whom *)

(** The claim a program is about to make. *)
Fixpoint next_claim {R : Type} (p : prog (storeE Item) R) : option (nat * ClaimRequest) :=
  match p with
  | Vis e _ => match e with SClaim n rq => Some (n, rq) | _ => None end
  | Scope _ body _ => next_claim body
  | Ret _ | Panic _ => None
  end.

Definition call_claim (t : call) : option (nat * ClaimRequest) :=
  match t with Running p => next_claim p | Unwinding p => next_claim p end.

(** The claims the calls are about to make: the transaction and the row. *)
Definition claims (ths : pool) : list (nat * (str * str)) :=
  omap (fun i => '(n, rq) ← call_claim (ths i); Some (n, request_key rq)) (seq 0 (length tasks)).

(** Transaction [n] is about to claim a row that [n'] has locked. *)
Definition waits_for (ths : pool) g n n' : Prop :=
  exists k t ls, (n, k) ∈ claims ths /\ n' <> n /\ sh_open g !! n' = Some (t, ls) /\ k ∈ ls.

(** Some transaction has locked the row that [n] is about to claim. *)
Definition is_waiting (ths : pool) g n : Prop :=
  Exists (fun x : nat * (str * str) => fst x = n /\
    ~ map_Forall (fun n' (y : TxState Item * gset (str * str)) => n' = n \/ snd x ∉ snd y) (sh_open g))
    (claims ths).

Lemma is_waiting_red ths g n : is_waiting ths g n <-> red (waits_for ths g) n.
Proof.
  unfold is_waiting. rewrite Exists_exists. split.
  - intros ([m k] & Hin & Heq & Hx). simpl in *. subst m.
    apply map_not_Forall in Hx as (n' & [t ls] & Ho & Hk); [|apply _].
    exists n', k, t, ls. simpl in Hk. destruct (decide (k ∈ ls)); [|tauto]. naive_solver.
  - intros (n' & k & t & ls & Hin & Hne & Ho & Hk). exists (n, k). split; [done|]. split; [done|].
    simpl. intros Hall. by destruct (Hall n' (t, ls) Ho).
Qed.

#[local] Instance waits_dec ths g n : Decision (red (waits_for ths g) n).
Proof.
  destruct (decide (is_waiting ths g n)) as [Hw|Hw]; rewrite is_waiting_red in Hw; [by left|by right].
Defined.

Lemma obeys_next_claim {R : Type} (D : list Msg) (p : prog (storeE Item) R)
    (Q : R -> phase Item * Held -> Prop) (C : phase Item * Held -> Prop) (s : phase Item) (l : Held) n
    (rq : ClaimRequest) :
  obeys (both (next effect D) in_order) p Q C (s, l) -> next_claim p = Some (n, rq) ->
  exists R', l = Some (n, R') /\ forall k, k ∈ R' -> row_lt k (request_key rq).
Proof.
  revert Q C. induction p as [R r|R x|R A e k IH|R A c IHc body IHb k IH]; intros Q C; simpl; [done|done| |].
  - destruct e as [| | | |n' rq'| |]; try done. intros [_ H] [= <- <-].
    destruct (H (Ok Fresh)) as (s' & [_ Hn] & _). destruct Hn as (R' & Hl & Hlt & _). by exists R'.
  - apply IHb.
Qed.

Section State.
Context {g0 : Shared Item} {ths : pool} {g : Shared Item} {L : list (nat * Msg)}
  {ph : nat -> phase Item} {lp : nat -> Held}.
Hypothesis Hok : ordered_ok g0 ths g L ph lp.

(** What is known of a call about to claim: the locks of its transaction come
    before the row. *)
Lemma claims_held n k : (n, k) ∈ claims ths ->
  exists i rq R, owned (ph i) = Some n /\ lp i = Some (n, R) /\ call_claim (ths i) = Some (n, rq) /\
    k = request_key rq /\ forall k', k' ∈ R -> row_lt k' k.
Proof.
  intros (i & Hi & Hx)%list_elem_of_omap.
  destruct (call_claim (ths i)) as [[n' rq]|] eqn:Hc; simplify_eq/=.
  apply elem_of_seq in Hi as [_ Hi]. destruct (lookup_lt_is_Some_2 tasks i Hi) as [tk Htk].
  pose proof (oo_both _ _ _ _ _ _ Hok i tk Htk) as Hb.
  assert (exists R', lp i = Some (n, R') /\ forall k, k ∈ R' -> row_lt k (request_key rq)) as (R & Hl & Hlt).
  { destruct (ths i) as [p|p]; by eapply obeys_next_claim. }
  exists i, rq, R. pose proof (oo_owned _ _ _ _ _ _ Hok i) as Ho. rewrite Hl in Ho. auto.
Qed.

Lemma claims_unique n k k' : (n, k) ∈ claims ths -> (n, k') ∈ claims ths -> k = k'.
Proof.
  intros (i & rq & R & Ho & _ & Hc & -> & _)%claims_held (j & rq' & R' & Ho' & _ & Hc' & -> & _)%claims_held.
  assert (i = j) as -> by (by eapply (po_apart _ _ _ _ _ _ _ (oo_pool _ _ _ _ _ _ Hok))). congruence.
Qed.

Lemma tc_claims n n' : tc (waits_for ths g) n n' -> exists k, (n, k) ∈ claims ths.
Proof.
  intros Htc. assert (exists n1, waits_for ths g n n1) as (n1 & k & t & ls & Hk & _)
    by (destruct Htc; eauto). by exists k.
Qed.

(** Along a chain of waiting transactions the rows grow. *)
Lemma waits_grow n n' : tc (waits_for ths g) n n' ->
  forall k k', (n, k) ∈ claims ths -> (n', k') ∈ claims ths -> row_lt k k'.
Proof.
  assert (forall n n', waits_for ths g n n' ->
    forall k k', (n, k) ∈ claims ths -> (n', k') ∈ claims ths -> row_lt k k') as Hone.
  { intros n1 n2 (k0 & t & ls & Hk0 & _ & Ho & Hin) k k' Hk Hk'.
    rewrite (claims_unique n1 k k0 Hk Hk0). destruct (claims_held n2 k' Hk') as (i & rq & R & _ & Hl & _ & _ & Hlt).
    apply Hlt. pose proof (oo_locks _ _ _ _ _ _ Hok i) as Hh. rewrite Hl in Hh. by apply (Hh t ls Ho). }
  induction 1 as [n1 n2 Hw|n1 n2 n3 Hw Htc IH]; intros k k' Hk Hk'; [by eapply Hone|].
  destruct (tc_claims n2 n3 Htc) as [k2 Hk2]. trans k2; [by eapply Hone|by apply IH].
Qed.

Lemma waits_irrefl : Irreflexive (tc (waits_for ths g)).
Proof.
  intros n Htc. destruct (tc_claims n n Htc) as [k Hk]. by apply (row_lt_irrefl k), (waits_grow n n).
Qed.

(** Only open transactions are waited for. *)
Lemma waits_finite n : pred_finite (tc (waits_for ths g) n).
Proof.
  exists (elements (dom (sh_open g))). intros n' Htc. apply elem_of_elements, elem_of_dom.
  induction Htc as [n1 n2 Hw|]; [|done]. destruct Hw as (k & t & ls & _ & _ & Ho & _). by eexists.
Qed.
End State.

(** C23 (no deadlock). Let any number of calls of [process], [process_many] and
    [is_known_duplicate] run concurrently, with batches that share any rows in
    any order, on a database that locks claimed rows one by one in the order a
    batch is sent, and whose handlers claim no rows themselves.  Whatever state
    they reach, no transactions wait for each other in a circle; and if one waits
    for another, then the chain of transactions each waiting for the next ends in
    one that is open and not waiting. *)
Theorem claim_many_no_deadlock g0 (ths : pool) g :
  sh_open g0 = ∅ -> rtc (pool_step (can := can) tasks) (calls handler tasks, g0) (ths, g) ->
  (forall n, ~ tc (waits_for ths g) n n) /\
  (forall n n', waits_for ths g n n' -> exists last,
     rtc (waits_for ths g) n' last /\ is_Some (sh_open g !! last) /\
     forall n'', ~ waits_for ths g last n'').
Proof.
  intros Hg Hrtc.
  destruct (ordered_ok_steps g0 _ _ _ _ _ Hrtc (ordered_ok_start g0 Hg)) as (L & ph & lp & Hok).
  simpl in Hok. split; [intros n; by apply (waits_irrefl Hok n)|]. intros n n' Hw.
  assert (wn (waits_for ths g) n') as (last & Hlast & Hnf).
  { apply sn_wn. apply tc_finite_sn; [by apply (waits_irrefl Hok)|apply waits_finite]. }
  exists last. split; [done|]. split.
  - assert (tc (waits_for ths g) n last) as Htc by (eapply tc_rtc_r; [by apply tc_once|done]).
    clear -Htc. induction Htc as [n1 n2 Hw|]; [|done]. destruct Hw as (k & t & ls & _ & _ & Ho & _). by eexists.
  - intros n'' Hw'. apply Hnf. by exists n''.
Qed.
End Pool.
End Locks.

(** ** The race of [InterleavingRun.v] *)

Lemma write_handler_claims_nothing (x : Msg) n : claims_nothing n (write_handler x n).
Proof.
  intros R. refine (obeys_call _ (SStmt n _) _ _ _ _ _ _); [done|].
  intros [[]|e]; (exists (Some (n, R)); split; [by split; [eexists|]|]); [|by split].
  case_decide; by split.
Qed.

(** Where the batch waits for another call. *)
Definition waiting : (nat -> thread (storeE str) (Reply unit)) * Shared str :=
  default (race_calls, race_start) (run_schedule answer race up_to_wait (race_calls, race_start)).

Lemma claim_many_no_deadlock_witness :
  is_waiting race (fst waiting) (snd waiting) 2 /\
  (forall n, ~ tc (waits_for race (fst waiting) (snd waiting)) n n) /\
  (forall n n', waits_for race (fst waiting) (snd waiting) n n' -> exists last,
     rtc (waits_for race (fst waiting) (snd waiting)) n' last /\
     is_Some (sh_open (snd waiting) !! last) /\
     forall n'', ~ waits_for race (fst waiting) (snd waiting) last n'').
Proof.
  split; [apply (bool_decide_eq_true_1 (is_waiting _ _ _ _)); vm_compute; reflexivity|].
  apply (claim_many_no_deadlock effect_of write_handler write_handler_claims_nothing race
    (fun _ x _ _ => write_handler_obeys x) race_start).
  - reflexivity.
  - rewrite <- surjective_pairing. apply (run_schedule_sound can answer answer_can race up_to_wait).
    apply default_is_some. vm_compute. reflexivity.
Defined.
