(* ===== verification/Testing.v ===== *)
(** * The conformance suite

    [src/src/testing.rs]: the checks a backend's author runs against a store,
    as programs over the store classes.  A failed [expect] or assertion is a
    panic with the fixed part of its message.  The theorems show that the suite
    is sound for its purpose in one direction: every store that keeps the
    contract of [Store.v] passes it, also when the database is not empty. *)

From S2P Require Import Prelude Text Errors Durations Types Store MemStore Consumer ClaimMany Process.
#[local] Open Scope Z_scope.

(** ** Library functions *)

(** The digits of [format!("{n:016x}")] on a u64. *)
Definition hex_digit (d : Z) : Z := if d <? 10 then 48 + d else 87 + d.

Fixpoint hex_digits (width : nat) (n : Z) : str :=
  match width with
  | O => []
  | S width => hex_digits width (n / 16) ++ [hex_digit (n mod 16)]
  end.

(** [s.repeat(n)] of a one-character string. *)
Definition repeat_char (c n : Z) : str := replicate (Z.to_nat n) c.

(** ** A run *)

Record Run := { nonce : str }.

(** [n] is the hash [Run::new] draws. *)
Definition Run_new (n : Z) : Run := {| nonce := hex_digits 16 n |}.

Definition prefix (self : Run) : str := lit "conformance-" ++ nonce self ++ lit "-".

Section Suite.
Context {S : Type} {E : Type -> Type} {Conn Tx : Type}.
Context `{Transaction E Conn Tx, !InboxStore S E Conn Tx}.
Implicit Types (store : S) (run : Run).

(** [result.expect(msg)] and [assert!(b, msg)] *)
Definition expect {A Err : Type} (msg : string) (r : result A Err) : prog E A :=
  match r with Ok a => Ret a | Error _ => Panic msg end.

Definition assert (b : bool) (msg : string) : prog E unit :=
  if b then Ret tt else Panic msg.

(** [for x in l { f(x).await }] *)
Fixpoint for_each {A : Type} (l : list A) (f : A -> prog E unit) : prog E unit :=
  match l with
  | [] => Ret tt
  | x :: l => _ <- f x ;; for_each l f
  end.

Definition Run_consumer run (check : string) : prog E ConsumerId :=
  expect "valid consumer id" (Consumer_Id.try_from (prefix run ++ lit check)).

Definition message (id : str) : prog E MessageId :=
  expect "valid message id" (Message_Id.try_from id).

(** ** Probes *)

Definition claim_and_commit store (consumer : ConsumerId) (id : MessageId) : prog E Claim :=
  r <- begin store ;;
  tx <- expect "begin" r ;;
  claim <- Impl.owning tx
    (r <- Store.claim store (deref_mut tx) (Claim_Request.new consumer id) ;;
     expect "claim" r) ;;
  r <- commit store tx ;;
  _ <- expect "commit" r ;;
  Ret claim.

Definition is_committed store (consumer : ConsumerId) (id : MessageId) : prog E bool :=
  r <- begin store ;;
  tx <- expect "begin" r ;;
  claim <- Impl.owning tx
    (r <- Store.claim store (deref_mut tx) (Claim_Request.new consumer id) ;;
     expect "claim" r) ;;
  r <- rollback store tx ;;
  _ <- expect "rollback" r ;;
  Ret (bool_decide (claim = Duplicate)).

(** ** The checks *)

Definition fresh_then_duplicate store run : prog E unit :=
  cid <- Run_consumer run "fresh" ;;
  let consumer := Impl.consumer store cid in
  id <- message (lit "m") ;;
  r <- Impl.process consumer id (fun _ => Ret (Ok tt)) ;;
  first <- expect "first process" r ;;
  r <- Impl.process consumer id (fun _ => Ret (Ok tt)) ;;
  second <- expect "second process" r ;;
  _ <- assert (bool_decide (first = Processed tt)) "a new message must be processed" ;;
  assert (bool_decide (second = OutcomeDuplicate)) "a redelivered message must be a duplicate".

(** The handler of the next check: a write under another consumer, then an
    error. *)
Definition failing_handler store (effects : ConsumerId) (id : MessageId) (conn : Conn)
  : prog E (result unit HandlerError) :=
  r <- Store.claim store conn (Claim_Request.new effects id) ;;
  match r with
  | Ok _ => Ret (Error (EString (lit "deliberate handler failure")))
  | Error e => Ret (Error (EInbox e))
  end.

Definition handler_failure_rolls_back store run : prog E unit :=
  inbox <- Run_consumer run "handler-failure" ;;
  effects <- Run_consumer run "handler-failure-effect" ;;
  id <- message (lit "m") ;;
  r <- Impl.process (Impl.consumer store inbox) id (failing_handler store effects id) ;;
  _ <- assert (match r with Error (Handler _) => true | _ => false end)
         "a failing handler must surface as InboxError::Handler" ;;
  c <- is_committed store inbox id ;;
  _ <- assert (negb c) "a failed handler's claim must roll back" ;;
  e <- is_committed store effects id ;;
  assert (negb e) "a failed handler's effect must roll back with its claim".

Definition explicit_rollback_discards store run : prog E unit :=
  consumer_id <- Run_consumer run "rollback" ;;
  let consumer := Impl.consumer store consumer_id in
  id <- message (lit "m") ;;
  r <- Impl.begin consumer ;;
  tx <- expect "begin" r ;;
  _ <- Impl.owning tx (r <- Impl.claim consumer (deref_mut tx) id ;; expect "claim" r) ;;
  r <- Impl.rollback consumer tx ;;
  _ <- expect "rollback" r ;;
  c <- is_committed store consumer_id id ;;
  assert (negb c) "InboxStore::rollback must discard the claim".

Definition dropped_transaction_does_not_persist store run : prog E unit :=
  consumer_id <- Run_consumer run "dropped" ;;
  let consumer := Impl.consumer store consumer_id in
  dropped <- message (lit "dropped") ;;
  later <- message (lit "later") ;;
  r <- Impl.begin consumer ;;
  tx <- expect "begin" r ;;
  _ <- Impl.owning tx (r <- Impl.claim consumer (deref_mut tx) dropped ;; expect "claim" r) ;;
  _ <- drop_tx tx ;;
  r <- Impl.begin consumer ;;
  tx <- expect "begin" r ;;
  _ <- Impl.owning tx (r <- Impl.claim consumer (deref_mut tx) later ;; expect "claim" r) ;;
  r <- Impl.commit consumer tx ;;
  _ <- expect "commit" r ;;
  c <- is_committed store consumer_id later ;;
  _ <- assert c "a committed claim must persist" ;;
  d <- is_committed store consumer_id dropped ;;
  assert (negb d) "a transaction dropped without commit must roll back".

Definition max_length_ids_are_accepted store run : prog E unit :=
  let prefix := prefix run in
  room <- (if Consumer_Id.MAX_LEN <? len prefix then Panic "attempt to subtract with overflow"
           else Ret (Consumer_Id.MAX_LEN - len prefix)) ;;
  ascii_consumer <- expect "max consumer id"
    (Consumer_Id.try_from (prefix ++ repeat_char 120 room)) ;;
  wide_consumer <- expect "max consumer id"
    (Consumer_Id.try_from
       (prefix ++ repeat_char 0x1F600 (room / 4) ++ repeat_char 121 (room mod 4))) ;;
  ascii_id <- message (repeat_char 109 Message_Id.MAX_LEN) ;;
  wide_id <- message (repeat_char 0x1F600 (Message_Id.MAX_LEN / 4)) ;;
  for_each [(ascii_consumer, ascii_id); (wide_consumer, wide_id)] (fun '(consumer, id) =>
    c <- claim_and_commit store consumer id ;;
    _ <- assert (bool_decide (c = Fresh)) "a max-length id must be accepted" ;;
    c <- claim_and_commit store consumer id ;;
    assert (bool_decide (c = Duplicate)) "a max-length id must deduplicate").

Definition distinct_ids : list str :=
  let long := repeat_char 109 (Message_Id.MAX_LEN - 1) in
  [ long ++ lit "a"; long ++ lit "b"; lit "Order-1"; lit "order-1";
    lit "caf" ++ [0xE9]; lit "cafe" ].

Definition ids_compare_byte_for_byte store run : prog E unit :=
  consumer <- Run_consumer run "bytes" ;;
  for_each distinct_ids (fun s =>
    id <- message s ;;
    c <- claim_and_commit store consumer id ;;
    assert (bool_decide (c = Fresh)) "collided with an earlier, different id: ids must compare byte for byte").

Definition claim_many_matches_single_claims store run : prog E unit :=
  consumer_id <- Run_consumer run "claim-many" ;;
  let consumer := Impl.consumer store consumer_id in
  known <- message (lit "b") ;;
  c <- claim_and_commit store consumer_id known ;;
  _ <- assert (bool_decide (c = Fresh)) "assertion failed" ;;
  m_c <- message (lit "c") ;;
  m_b <- message (lit "b") ;;
  m_a <- message (lit "a") ;;
  m_c' <- message (lit "c") ;;
  let batch := [m_c; m_b; m_a; m_c'] in
  r <- Impl.begin consumer ;;
  tx <- expect "begin" r ;;
  claims <- Impl.owning tx
    (r <- Impl.claim_many consumer (deref_mut tx) batch ;; expect "claim_many" r) ;;
  r <- Impl.commit consumer tx ;;
  _ <- expect "commit" r ;;
  _ <- assert (bool_decide (claims = [Fresh; Duplicate; Fresh; Duplicate]))
         "claim_many must answer like one claim per id, in input order" ;;
  for_each [lit "a"; lit "c"] (fun s =>
    id <- message s ;;
    c <- is_committed store consumer_id id ;;
    assert c "claim_many's fresh claims must commit").

Definition conformance (n : Z) store : prog E unit :=
  let run := Run_new n in
  _ <- fresh_then_duplicate store run ;;
  _ <- handler_failure_rolls_back store run ;;
  _ <- explicit_rollback_discards store run ;;
  _ <- dropped_transaction_does_not_persist store run ;;
  _ <- max_length_ids_are_accepted store run ;;
  _ <- ids_compare_byte_for_byte store run ;;
  claim_many_matches_single_claims store run.
End Suite.

(** ** Identifiers of a run *)

(** No white space and no U+0000 anywhere. *)
Definition solid (s : str) : Prop :=
  Forall (fun c => is_whitespace c = false /\ c <> 0) s.

Lemma solid_tight s : solid s -> tight s.
Proof.
  unfold solid. rewrite Forall_forall. intros H. split; intros c Hc; apply H.
  - destruct s as [|x s]; simplify_eq/=. by left.
  - by apply last_Some_elem_of.
Qed.

Lemma solid_storable s : solid s -> storable s.
Proof. unfold solid. rewrite Forall_forall. intros H Hin. by apply (H 0 Hin). Qed.

Lemma solid_app a b : solid a -> solid b -> solid (a ++ b).
Proof. unfold solid. rewrite Forall_app. by split. Qed.

Lemma solid_valid max s : s <> [] -> solid s -> len s <= max -> valid_id max s /\ storable s.
Proof.
  intros Hs Ht Hl. split; [|by apply solid_storable]. split; [done|].
  split; [by apply solid_tight|done].
Qed.

Lemma hex_digits_spec width n :
  solid (hex_digits width n) /\ len (hex_digits width n) = Z.of_nat width.
Proof.
  revert n; induction width as [|width IH]; intros n; cbn [hex_digits]; [by split; [constructor|]|].
  destruct (IH (n / 16)) as [Hs Hl]. rewrite len_app, Hl.
  pose proof (Z.mod_pos_bound n 16 ltac:(lia)) as Hm.
  assert (48 <= hex_digit (n mod 16) < 103) as Hd.
  { unfold hex_digit. destruct (Z.ltb_spec (n mod 16) 10); lia. }
  generalize dependent (hex_digit (n mod 16)). intros d Hd. split.
  - apply solid_app; [done|]. constructor; [|constructor]. split; [|lia].
    unfold is_whitespace.
    repeat match goal with |- context [?a =? ?b] => rewrite (proj2 (Z.eqb_neq a b)) by lia end.
    repeat match goal with |- context [?a <=? ?b] => destruct (Z.leb_spec a b) end;
      done || lia.
  - unfold len. cbn [utf8]. unfold utf8_char. rewrite (proj2 (Z.ltb_lt d 0x80)) by lia.
    simpl. lia.
Qed.

Lemma prefix_spec n : solid (prefix (Run_new n)) /\ len (prefix (Run_new n)) = 29.
Proof.
  destruct (hex_digits_spec 16 n) as [Hs Hl].
  change (prefix (Run_new n)) with (lit "conformance-" ++ hex_digits 16 n ++ lit "-"). split.
  - apply solid_app; [|apply solid_app; [done|]]; unfold solid; repeat constructor; done.
  - rewrite !len_app, Hl. reflexivity.
Qed.

Lemma run_consumer_ok n x :
  x <> [] -> solid x -> len x <= 226 ->
  Consumer_Id.try_from (prefix (Run_new n) ++ x)
    = Ok {| consumer_str := prefix (Run_new n) ++ x |} /\
  consumer_ok {| consumer_str := prefix (Run_new n) ++ x |}.
Proof.
  intros Hx Hs Hl. destruct (prefix_spec n) as [Hps Hpl].
  destruct (solid_valid Consumer_Id.MAX_LEN (prefix (Run_new n) ++ x)) as [Hv Hst].
  - intros [_ ?]%app_nil. done.
  - by apply solid_app.
  - rewrite len_app, Hpl. unfold Consumer_Id.MAX_LEN. lia.
  - split; [|done]. unfold Consumer_Id.try_from.
    by rewrite (proj2 (try_from_ok _ _ _) (conj eq_refl Hv)).
Qed.

(** ** Passing *)

Section Passes.
Context {S : Type} {E : Type -> Type} {Conn Tx W App : Type}.
Context (ev : forall A, E A -> W -> A * W).
Context `{Transaction E Conn Tx, !InboxStore S E Conn Tx, !Observe W Conn App}.
Context `{!InboxLaws S ev}.
Implicit Types (s : S) (w : W) (d : Db App).

(** [p] does not panic, and when it ends the backend is healthy and [Q]
    holds. *)
Definition passes {A : Type} (p : prog E A) (Q : A -> W -> Prop) (w : W) : Prop :=
  wp ev p (fun o w' =>
    match o with Done a => healthy w' /\ Q a w' | Panicked _ => False | Cancelled => True end) w.

Lemma passes_ret {A : Type} (a : A) (Q : A -> W -> Prop) w :
  healthy w -> Q a w -> passes (Ret a) Q w.
Proof. intros Hh HQ. by apply wp_ret. Qed.

Lemma passes_mono {A : Type} (p : prog E A) (Q Q' : A -> W -> Prop) w :
  passes p Q w -> (forall a w', Q a w' -> Q' a w') -> passes p Q' w.
Proof.
  intros Hp HQ. eapply wp_mono; [exact Hp|]. intros [a|m|] w'; simpl; [|done|done].
  intros [? ?]. auto.
Qed.

Lemma passes_bind {A B : Type} (p : prog E A) (f : A -> prog E B) (Q : A -> W -> Prop)
    (R : B -> W -> Prop) w :
  passes p Q w -> (forall a w1, healthy w1 -> Q a w1 -> passes (f a) R w1) ->
  passes (bind p f) R w.
Proof.
  intros Hp Hf. apply wp_bind. eapply wp_mono; [exact Hp|].
  intros [a|m|] w1; simpl; [|done|done]. intros [? ?]. by apply Hf.
Qed.

Lemma passes_owning {A : Type} (tx : Tx) (p : prog E A) (Q : A -> W -> Prop) w :
  passes p Q w -> passes (Impl.owning tx p) Q w.
Proof.
  intros Hp. apply (wp_owning ev). eapply wp_mono; [exact Hp|]. by intros [a|m|] w1.
Qed.

(** A store method on a healthy backend answers [Ok]. *)
Lemma passes_answers {A : Type} (p : prog E (result A InboxError)) (Q : A -> W -> Prop) w :
  healthy w ->
  wp ev p (fun o w' => (healthy w -> healthy w') /\ answers w (fun a => Q a w') o) w ->
  passes p (fun r w' => exists a, r = Ok a /\ Q a w') w.
Proof.
  intros Hh Hp. eapply wp_mono; [exact Hp|].
  intros [[a|e]|m|] w' [Hh' Ha]; simpl in Ha |- *; [|by destruct Ha|done|done].
  split; [auto|]. eauto.
Qed.

(** The same, with the [expect] that follows. *)
Lemma passes_expect {A B : Type} (p : prog E (result A InboxError)) msg (f : A -> prog E B)
    (Q : A -> W -> Prop) (R : B -> W -> Prop) w :
  passes p (fun r w' => exists a, r = Ok a /\ Q a w') w ->
  (forall a w1, healthy w1 -> Q a w1 -> passes (f a) R w1) ->
  passes (r <- p ;; a <- expect msg r ;; f a) R w.
Proof. intros Hp Hf. eapply passes_bind; [exact Hp|]. intros r w1 Hh (a & -> & HQ). by apply Hf. Qed.

Lemma passes_owning_expect {A B : Type} (tx : Tx) (p : prog E (result A InboxError)) msg
    (f : A -> prog E B) (Q : A -> W -> Prop) (R : B -> W -> Prop) w :
  passes p (fun r w' => exists a, r = Ok a /\ Q a w') w ->
  (forall a w1, healthy w1 -> Q a w1 -> passes (f a) R w1) ->
  passes (a <- Impl.owning tx (r <- p ;; expect msg r) ;; f a) R w.
Proof.
  intros Hp Hf. eapply passes_bind; [|exact Hf]. apply passes_owning.
  eapply passes_bind; [exact Hp|]. intros r w1 Hh (a & -> & HQ). by apply passes_ret.
Qed.

Lemma passes_assert {A : Type} (b : bool) msg (p : prog E A) (Q : A -> W -> Prop) w :
  b = true -> passes p Q w -> passes (_ <- assert b msg ;; p) Q w.
Proof. by intros ->. Qed.

Lemma passes_begin s w :
  healthy w ->
  passes (begin s) (fun r w' => exists tx, r = Ok tx /\
    committed w' = committed w /\ working w' (deref_mut tx) = Some (committed w)) w.
Proof.
  intros Hh. eapply passes_mono with (Q := fun r w' => exists tx, r = Ok tx /\
    (committed w' = committed w /\ working w' (deref_mut tx) = Some (committed w)));
    [|done].
  apply passes_answers; [done|]. eapply wp_mono; [apply law_begin|].
  intros [[tx|e]|m|] w' [[Hc Hh'] Ha]; simpl in *; (split; [done|]); naive_solver.
Qed.

Lemma passes_claim s conn r w d :
  healthy w -> working w conn = Some d -> request_ok r ->
  let k := key (req_consumer r) (req_id r) in
  passes (Store.claim s conn r) (fun a w' => exists c, a = Ok c /\
    (committed w' = committed w /\ c = claim_answer d k /\
     working w' conn = Some (record_key k d))) w.
Proof.
  intros Hh Hw Hr k. apply passes_answers; [done|].
  eapply wp_mono; [by apply law_claim|].
  intros [[c|e]|m|] w' [[Hc Hh'] Ha]; simpl in *; (split; [done|]); naive_solver.
Qed.

(** The same through [Consumer::claim]. *)
Lemma passes_consumer_claim (self : Consumer S) conn m w d :
  healthy w -> working w conn = Some d -> consumer_wf self -> message_ok m ->
  let k := key (id self) m in
  passes (Impl.claim self conn m) (fun a w' => exists c, a = Ok c /\
    (committed w' = committed w /\ c = claim_answer d k /\
     working w' conn = Some (record_key k d))) w.
Proof. intros Hh Hw [Hc Ht] Hm. by apply (passes_claim (store self)). Qed.

Lemma passes_commit s tx w d :
  healthy w -> working w (deref_mut tx) = Some d ->
  passes (commit s tx) (fun r w' => exists u, r = Ok u /\ committed w' = d) w.
Proof.
  intros Hh Hw. apply passes_answers; [done|]. eapply wp_mono; [by apply law_commit|].
  intros o w' (_ & Hh' & Ha). done.
Qed.

Lemma passes_rollback s tx w :
  healthy w ->
  passes (rollback s tx) (fun r w' => exists u, r = Ok u /\ committed w' = committed w) w.
Proof.
  intros Hh. apply passes_answers; [done|]. eapply wp_mono; [apply law_rollback|].
  intros [[u|e]|m|] w' [[Hc Hh'] Ha]; simpl in *; done.
Qed.

Lemma passes_drop (tx : Tx) w :
  healthy w -> passes (drop_tx tx) (fun _ w' => committed w' = committed w) w.
Proof.
  intros Hh. eapply wp_mono; [apply law_drop|].
  intros [[]|m|] w' [[Hc Hh'] Hp]; [by auto|by destruct (Hp m)|done].
Qed.

(** ** The probes *)

Lemma claim_and_commit_passes s c id w :
  healthy w -> consumer_ok c -> message_ok id ->
  passes (claim_and_commit s c id) (fun a w' =>
    a = claim_answer (committed w) (key c id) /\
    committed w' = record_key (key c id) (committed w)) w.
Proof.
  intros Hh Hc Hid. eapply passes_expect; [by apply passes_begin|].
  intros tx w1 Hh1 [Hc1 Hw1].
  eapply passes_owning_expect; [by apply passes_claim|].
  intros a w2 Hh2 (Hc2 & -> & Hw2).
  eapply passes_expect; [by apply passes_commit|].
  intros [] w3 Hh3 Hc3. by apply passes_ret.
Qed.

Lemma is_committed_passes s c id w :
  healthy w -> consumer_ok c -> message_ok id ->
  passes (is_committed s c id) (fun b w' =>
    b = bool_decide (key c id ∈ recorded (committed w)) /\
    committed w' = committed w) w.
Proof.
  intros Hh Hc Hid. eapply passes_expect; [by apply passes_begin|].
  intros tx w1 Hh1 [Hc1 Hw1].
  eapply passes_owning_expect; [by apply passes_claim|].
  intros a w2 Hh2 (Hc2 & -> & Hw2).
  eapply passes_expect; [by apply passes_rollback|].
  intros [] w3 Hh3 Hc3. apply passes_ret; [done|]. split; [|congruence].
  apply bool_decide_ext, claim_answer_Duplicate.
Qed.

(** [process] of a fresh message on a healthy backend, for a handler that
    leaves [d'] behind when it returns. *)
Lemma process_passes {T : Type} (self : Consumer S) m
    (handler : Conn -> prog E (result T HandlerError))
    (R : Db App -> result T HandlerError -> Db App -> Prop) w :
  healthy w -> consumer_wf self -> message_ok m ->
  (forall conn w1 d, healthy w1 -> working w1 conn = Some d ->
   passes (handler conn) (fun r w2 => committed w2 = committed w1 /\
     exists d', R d r d' /\ (is_ok r = true -> working w2 conn = Some d')) w1) ->
  let k := key (id self) m in
  passes (Impl.process self m handler) (fun o w' =>
    if decide (k ∈ recorded (committed w))
    then o = Ok OutcomeDuplicate /\ committed w' = committed w
    else exists r d', R (record_key k (committed w)) r d' /\
      match r with
      | Ok v => o = Ok (Processed v) /\ committed w' = d'
      | Error e => o = Error (Handler e) /\ committed w' = committed w
      end) w.
Proof.
  intros Hh [Hc Ht] Hm Hhandler k. unfold Impl.process.
  eapply passes_bind; [by apply passes_begin|]. intros r0 w1 Hh1 (tx & -> & Hc1 & Hw1).
  unfold Impl.bind_try_owning. eapply passes_bind.
  { apply passes_owning. by apply passes_claim. }
  intros r1 w2 Hh2 (c & -> & Hc2 & -> & Hw2). simpl in Hw2 |- *.
  change (key (id self) m) with k in Hw2 |- *. unfold claim_answer. rewrite Hc1 in Hc2.
  destruct (decide (k ∈ recorded (committed w))) as [Hk|Hk].
  - eapply passes_bind; [by apply passes_rollback|]. intros r3 w3 Hh3 ([] & -> & Hc3).
    apply passes_ret; [done|]. split; [done|congruence].
  - eapply passes_bind; [by apply passes_owning, Hhandler|].
    intros r w3 Hh3 [Hc3 (d' & HR & Hw3)]. destruct r as [v|e].
    + eapply passes_bind; [apply passes_commit; [done|by apply Hw3]|].
      intros r4 w4 Hh4 ([] & -> & Hc4). apply passes_ret; [done|]. by exists (Ok v), d'.
    + eapply passes_bind; [by apply passes_rollback|].
      intros r4 w4 Hh4 ([] & -> & Hc4). apply passes_ret; [done|]. exists (Error e), d'.
      split; [done|]. split; [done|]. congruence.
Qed.

(** A loop of checks, each of which keeps an invariant of its own. *)
Lemma passes_for_each {A : Type} (P : list A -> W -> Prop) (l : list A)
    (f : A -> prog E unit) w :
  healthy w -> P l w ->
  (forall x l' w1, healthy w1 -> P (x :: l') w1 -> passes (f x) (fun _ => P l') w1) ->
  passes (for_each l f) (fun _ => P []) w.
Proof.
  intros Hh HP Hf. revert w Hh HP. induction l as [|x l IH]; intros w Hh HP; simpl.
  - by apply passes_ret.
  - eapply passes_bind; [by apply Hf|]. intros [] w1 Hh1 HP1. by apply IH.
Qed.
End Passes.

(** ** The checks pass *)

(** The consumer of a run with the name [x]. *)
Definition rc (n : Z) (x : str) : ConsumerId :=
  {| consumer_str := prefix (Run_new n) ++ x |}.

(** Of the run's consumers only the ones named in [used] have rows, and the
    rows of all other consumers are those of [d0]. *)
Definition clean {App : Type} (n : Z) (d0 : Db App) (used : list str) (d : Db App) : Prop :=
  (forall x i, x ∉ used -> (prefix (Run_new n) ++ x, i) ∉ recorded d) /\
  (forall c i, (forall x, c <> prefix (Run_new n) ++ x) ->
               (c, i) ∈ recorded d <-> (c, i) ∈ recorded d0).

Section Clean.
Context {App : Type}.
Implicit Types (d : Db App) (used : list str).

Lemma clean_fresh n d0 used d x id :
  clean n d0 used d -> x ∉ used -> key (rc n x) id ∉ recorded d.
Proof. intros [H _] Hx. by apply H. Qed.

Lemma clean_weaken n d0 used used' d :
  clean n d0 used d -> used ⊆ used' -> clean n d0 used' d.
Proof. intros [H Hc] Hu. split; [|done]. intros x i Hx. apply H. set_solver. Qed.

Lemma clean_record n d0 used d x id :
  clean n d0 used d -> x ∈ used -> clean n d0 used (record_key (key (rc n x) id) d).
Proof.
  intros [H Hc] Hx. unfold key, rc. split; simpl.
  - intros y i Hy. rewrite elem_of_union, elem_of_singleton.
    intros [Heq|Hin]; [|by apply (H y i)].
    apply (f_equal fst), (app_inv_head (prefix (Run_new n))) in Heq. by subst.
  - intros c i Hne. rewrite elem_of_union, elem_of_singleton, Hc by done.
    split; [|by right]. intros [Heq|?]; [|done]. injection Heq as Heq _.
    by destruct (Hne x).
Qed.

Lemma clean_record_all n d0 used d x ids :
  clean n d0 used d -> x ∈ used -> clean n d0 used (record_all (rc n x) ids d).
Proof.
  intros H Hx. revert d H. induction ids as [|id ids IH]; intros d H.
  - by rewrite record_all_nil.
  - rewrite record_all_cons. by apply IH, clean_record.
Qed.
End Clean.

(** A concrete name is solid, not empty and short. *)
Ltac name_ok :=
  first [ done | unfold solid; repeat constructor; done | vm_compute; congruence
        | apply (bool_decide_eq_true_1 (_ ∉ _)); vm_compute; reflexivity ].

Section Checks.
Context {S : Type} {E : Type -> Type} {Conn Tx W App : Type}.
Context (ev : forall A, E A -> W -> A * W).
Context `{Transaction E Conn Tx, !InboxStore S E Conn Tx, !Observe W Conn App}.
Context `{!InboxLaws S ev}.
Variable n : Z.
Variable d0 : Db App.
Implicit Types (s : S) (w : W) (d : Db App) (used : list str).

Lemma passes_consumer {A : Type} check (f : ConsumerId -> prog E A) (Q : A -> W -> Prop) w :
  lit check <> [] -> solid (lit check) -> len (lit check) <= 226 ->
  (consumer_ok (rc n (lit check)) -> passes ev (f (rc n (lit check))) Q w) ->
  passes ev (c <- Run_consumer (Run_new n) check ;; f c) Q w.
Proof.
  intros H1 H2 H3 Hf. destruct (run_consumer_ok n (lit check) H1 H2 H3) as [Hr Hc].
  unfold Run_consumer. rewrite Hr. by apply Hf.
Qed.

Lemma passes_message {A : Type} (id : MessageId) (f : MessageId -> prog E A)
    (Q : A -> W -> Prop) w :
  message_ok id -> passes ev (f id) Q w ->
  passes ev (m <- message (Message_Id.as_str id) ;; f m) Q w.
Proof.
  intros [Hv _] Hf. unfold message.
  rewrite (proj2 (try_from_as_str (Message_Id.as_str id) id) (conj eq_refl Hv)). exact Hf.
Qed.

Lemma consumer_wf_new s x : consumer_ok (rc n x) -> consumer_wf (Impl.consumer s (rc n x)).
Proof. by split. Qed.

(** [process] with a handler that does nothing records the message. *)
Lemma process_noop_passes (self : Consumer S) m w :
  healthy w -> consumer_wf self -> message_ok m ->
  let k := key (id self) m in
  passes ev (Impl.process self m (fun _ => Ret (Ok tt))) (fun r w' => exists o, r = Ok o /\
    (o = (if decide (k ∈ recorded (committed w)) then OutcomeDuplicate else Processed tt) /\
     committed w' = record_key k (committed w))) w.
Proof.
  intros Hh Hwf Hm k. eapply passes_mono.
  { apply (process_passes ev self m _ (fun d r d' => r = Ok tt /\ d' = d)); [done..|].
    intros conn w1 d Hh1 Hw1. apply passes_ret; [done|]. eauto 7. }
  cbv zeta. fold k. intros o w' Ho. case_decide as Hk.
  - destruct Ho as [-> Hc]. eexists. split; [done|]. split; [done|].
    by rewrite Hc, record_key_known.
  - destruct Ho as (r & d' & [-> ->] & -> & Hc). by eexists.
Qed.

Lemma fresh_then_duplicate_passes s used w :
  healthy w -> clean n d0 used (committed w) -> lit "fresh" ∉ used ->
  passes ev (fresh_then_duplicate s (Run_new n))
    (fun _ w' => clean n d0 (lit "fresh" :: used) (committed w')) w.
Proof.
  intros Hh Hcl Hnew. apply passes_consumer; [name_ok..|]. intros Hc.
  apply (passes_message (mid "m")); [ids_ok|].
  pose proof (consumer_wf_new s _ Hc) as Hwf.
  assert (key (rc n (lit "fresh")) (mid "m") ∉ recorded (committed w)) as Hk
    by (by eapply clean_fresh).
  eapply passes_expect; [apply process_noop_passes; [done|done|ids_ok]|].
  intros o1 w1 Hh1 [-> Hc1]. rewrite decide_False by done.
  eapply passes_expect; [apply process_noop_passes; [done|done|ids_ok]|].
  intros o2 w2 Hh2 [-> Hc2]. rewrite Hc1, decide_True by set_solver.
  apply passes_ret; [done|]. rewrite Hc2, Hc1.
  do 2 (apply clean_record; [|by left]). eapply clean_weaken; [done|set_solver].
Qed.

Lemma failing_handler_passes s effects m conn w1 d :
  healthy w1 -> consumer_ok effects -> message_ok m -> working w1 conn = Some d ->
  passes ev (failing_handler s effects m conn) (fun r w2 => committed w2 = committed w1 /\
    exists d' : Db App, is_ok r = false /\ (is_ok r = true -> working w2 conn = Some d')) w1.
Proof.
  intros Hh1 He Hm Hw1. eapply passes_bind; [by apply passes_claim|].
  intros a w2 Hh2 (c & -> & Hc2 & _). apply passes_ret; [done|]. split; [done|]. by exists d.
Qed.

Lemma handler_failure_passes s used w :
  healthy w -> clean n d0 used (committed w) ->
  lit "handler-failure" ∉ used -> lit "handler-failure-effect" ∉ used ->
  passes ev (handler_failure_rolls_back s (Run_new n))
    (fun _ w' => clean n d0 used (committed w')) w.
Proof.
  intros Hh Hcl Hnew1 Hnew2. apply passes_consumer; [name_ok..|]. intros Hinbox.
  apply passes_consumer; [name_ok..|]. intros Heff.
  apply (passes_message (mid "m")); [ids_ok|].
  assert (message_ok (mid "m")) as Hm by ids_ok.
  eapply passes_bind.
  { apply (process_passes ev _ _ _ (fun _ r _ => is_ok r = false));
      [done|by apply consumer_wf_new|done|].
    intros conn w1 d Hh1 Hw1. by eapply failing_handler_passes. }
  intros r w1 Hh1 Hr. cbv beta zeta in Hr.
  rewrite decide_False in Hr by (by eapply clean_fresh).
  destruct Hr as ([v|e] & d' & Hok & Hr); [done|]. destruct Hr as [-> Hc1].
  apply passes_assert; [done|].
  eapply passes_bind; [by apply is_committed_passes|]. intros b w2 Hh2 [-> Hc2].
  apply passes_assert.
  { rewrite bool_decide_eq_false_2; [done|]. rewrite Hc1. by eapply clean_fresh. }
  eapply passes_bind; [by apply is_committed_passes|]. intros b w3 Hh3 [-> Hc3].
  rewrite bool_decide_eq_false_2; [|rewrite Hc2, Hc1; by eapply clean_fresh].
  apply passes_ret; [done|]. by rewrite Hc3, Hc2, Hc1.
Qed.

Lemma explicit_rollback_passes s used w :
  healthy w -> clean n d0 used (committed w) -> lit "rollback" ∉ used ->
  passes ev (explicit_rollback_discards s (Run_new n))
    (fun _ w' => clean n d0 used (committed w')) w.
Proof.
  intros Hh Hcl Hnew. apply passes_consumer; [name_ok..|]. intros Hc.
  apply (passes_message (mid "m")); [ids_ok|].
  assert (message_ok (mid "m")) as Hm by ids_ok.
  eapply passes_expect; [by apply passes_begin|]. intros tx w1 Hh1 [Hc1 Hw1].
  eapply (passes_owning_expect ev (S := S)); [by apply passes_consumer_claim|].
  intros c w2 Hh2 (Hc2 & _ & Hw2).
  eapply passes_expect; [by apply passes_rollback|]. intros [] w3 Hh3 Hc3.
  eapply passes_bind; [by apply is_committed_passes|]. intros b w4 Hh4 [-> Hc4].
  rewrite bool_decide_eq_false_2; [|rewrite Hc3, Hc2, Hc1; by eapply clean_fresh].
  apply passes_ret; [done|]. by rewrite Hc4, Hc3, Hc2, Hc1.
Qed.

Lemma dropped_transaction_passes s used w :
  healthy w -> clean n d0 used (committed w) -> lit "dropped" ∉ used ->
  passes ev (dropped_transaction_does_not_persist s (Run_new n))
    (fun _ w' => clean n d0 (lit "dropped" :: used) (committed w')) w.
Proof.
  intros Hh Hcl Hnew. apply passes_consumer; [name_ok..|]. intros Hc.
  apply (passes_message (mid "dropped")); [ids_ok|].
  apply (passes_message (mid "later")); [ids_ok|].
  assert (message_ok (mid "dropped") /\ message_ok (mid "later")) as [Hm1 Hm2]
    by (split; ids_ok).
  eapply passes_expect; [by apply passes_begin|]. intros tx w1 Hh1 [Hc1 Hw1].
  eapply (passes_owning_expect ev (S := S)); [by apply passes_consumer_claim|]. intros c w2 Hh2 (Hc2 & _ & _).
  eapply passes_bind; [apply (passes_drop ev (S := S) tx w2 Hh2)|].
  intros [] w3 Hh3 Hc3.
  eapply passes_expect; [by apply passes_begin|]. intros tx' w4 Hh4 [Hc4 Hw4].
  eapply (passes_owning_expect ev (S := S)); [by apply passes_consumer_claim|]. intros c' w5 Hh5 (Hc5 & _ & Hw5).
  eapply passes_expect; [by apply passes_commit|]. intros [] w6 Hh6 Hc6.
  rewrite Hc3, Hc2, Hc1 in Hc6. simpl in Hc6.
  eapply passes_bind; [by apply is_committed_passes|]. intros b w7 Hh7 [-> Hc7].
  apply passes_assert; [apply bool_decide_eq_true_2; rewrite Hc6; set_solver|].
  eapply passes_bind; [by apply is_committed_passes|]. intros b w8 Hh8 [-> Hc8].
  rewrite bool_decide_eq_false_2.
  - apply passes_ret; [done|]. rewrite Hc8, Hc7, Hc6.
    apply clean_record; [|by left]. eapply clean_weaken; [done|set_solver].
  - rewrite Hc7, Hc6. simpl. rewrite elem_of_union, elem_of_singleton.
    intros [Heq|Hin]; [by apply (inj (key (rc n (lit "dropped")))) in Heq|].
    by apply (clean_fresh n d0 used (committed w) (lit "dropped") (mid "dropped")) in Hin.
Qed.

(** One pair of [max_length_ids_are_accepted]. *)
Lemma accept_and_dedup_passes s c id w :
  healthy w -> consumer_ok c -> message_ok id -> key c id ∉ recorded (committed w) ->
  passes ev
    (a <- claim_and_commit s c id ;;
     _ <- assert (bool_decide (a = Fresh)) "a max-length id must be accepted" ;;
     a <- claim_and_commit s c id ;;
     assert (bool_decide (a = Duplicate)) "a max-length id must deduplicate")
    (fun _ w' => committed w' = record_key (key c id) (committed w)) w.
Proof.
  intros Hh Hc Hid Hk.
  eapply passes_bind; [by apply claim_and_commit_passes|]. intros a w1 Hh1 [-> Hc1].
  apply passes_assert; [by apply bool_decide_eq_true_2, claim_answer_Fresh|].
  eapply passes_bind; [by apply claim_and_commit_passes|]. intros a w2 Hh2 [-> Hc2].
  rewrite bool_decide_eq_true_2.
  - apply passes_ret; [done|]. rewrite Hc2, Hc1. apply record_key_known. set_solver.
  - apply claim_answer_Duplicate. rewrite Hc1. set_solver.
Qed.

Definition ascii_name : str := repeat_char 120 226.
Definition wide_name : str := repeat_char 0x1F600 56 ++ repeat_char 121 2.

Lemma max_length_passes s used w :
  healthy w -> clean n d0 used (committed w) -> ascii_name ∉ used -> wide_name ∉ used ->
  passes ev (max_length_ids_are_accepted s (Run_new n))
    (fun _ w' => clean n d0 (ascii_name :: wide_name :: used) (committed w')) w.
Proof.
  intros Hh Hcl Hx Hy. unfold max_length_ids_are_accepted. cbv zeta.
  destruct (prefix_spec n) as [_ ->].
  destruct (run_consumer_ok n ascii_name) as [Hcx Hcx']; [name_ok..|].
  destruct (run_consumer_ok n wide_name) as [Hcy Hcy']; [name_ok..|].
  eapply passes_bind with (Q := fun room w' => room = 226 /\ w' = w);
    [by apply passes_ret|]. intros room w0 _ [-> ->].
  fold ascii_name. change (repeat_char 0x1F600 (226 / 4) ++ repeat_char 121 (226 mod 4)) with wide_name.
  rewrite Hcx, Hcy.
  eapply passes_bind with (Q := fun c w' => c = rc n ascii_name /\ w' = w);
    [by apply passes_ret|]. intros c w0 _ [-> ->].
  eapply passes_bind with (Q := fun c w' => c = rc n wide_name /\ w' = w);
    [by apply passes_ret|]. intros c w0 _ [-> ->].
  apply (passes_message {| message_str := repeat_char 109 Message_Id.MAX_LEN |}); [ids_ok|].
  apply (passes_message {| message_str := repeat_char 0x1F600 (Message_Id.MAX_LEN / 4) |});
    [ids_ok|].
  eapply passes_bind; [apply accept_and_dedup_passes; [done|done|ids_ok|by eapply clean_fresh]|].
  intros [] w1 Hh1 Hc1.
  assert (clean n d0 (ascii_name :: used) (committed w1)) as Hcl1.
  { rewrite Hc1. apply clean_record; [|by left]. eapply clean_weaken; [done|set_solver]. }
  eapply passes_bind.
  { apply accept_and_dedup_passes; [done|done|ids_ok|]. eapply clean_fresh; [done|].
    apply not_elem_of_cons. split; [|done]. vm_compute. congruence. }
  intros [] w2 Hh2 Hc2. apply passes_ret; [done|]. rewrite Hc2.
  apply clean_record; [|set_solver]. eapply clean_weaken; [done|set_solver].
Qed.

Lemma distinct_ids_ok : Forall (fun x => message_ok {| message_str := x |}) distinct_ids.
Proof. unfold distinct_ids. ids_ok. Qed.

Lemma distinct_ids_NoDup : NoDup distinct_ids.
Proof. apply (bool_decide_eq_true_1 (NoDup distinct_ids)). vm_compute. reflexivity. Qed.

Lemma ids_compare_passes s used w :
  healthy w -> clean n d0 used (committed w) -> lit "bytes" ∉ used ->
  passes ev (ids_compare_byte_for_byte s (Run_new n))
    (fun _ w' => clean n d0 (lit "bytes" :: used) (committed w')) w.
Proof.
  intros Hh Hcl Hnew. apply passes_consumer; [name_ok..|]. intros Hc.
  eapply passes_mono; [apply passes_for_each with (P := fun l w' =>
    clean n d0 (lit "bytes" :: used) (committed w') /\
    (Forall (fun x => message_ok {| message_str := x |}) l /\ NoDup l) /\
    Forall (fun x => key (rc n (lit "bytes")) {| message_str := x |} ∉ recorded (committed w')) l)|
    by intros a w' [? _]]; [done| |].
  - split; [eapply clean_weaken; [done|set_solver]|].
    split; [split; [apply distinct_ids_ok|apply distinct_ids_NoDup]|].
    apply Forall_forall. intros x _. by eapply clean_fresh.
  - intros x l w1 Hh1 (Hcl1 & [Hok Hnd] & Hfr).
    apply Forall_cons in Hok as [Hx Hok]. apply NoDup_cons in Hnd as [Hnx Hnd].
    apply Forall_cons in Hfr as [Hkx Hfr].
    apply (passes_message {| message_str := x |}); [done|].
    eapply passes_bind; [by apply claim_and_commit_passes|]. intros a w2 Hh2 [-> Hc2].
    rewrite bool_decide_eq_true_2 by (by apply claim_answer_Fresh).
    apply passes_ret; [done|]. rewrite Hc2.
    split; [apply clean_record; [done|by left]|]. split; [done|].
    rewrite Forall_forall in Hfr |- *. intros y Hy. simpl.
    rewrite elem_of_union, elem_of_singleton. intros [Heq|Hin]; [|by apply (Hfr y Hy)].
    apply (inj (key (rc n (lit "bytes")))) in Heq. by simplify_eq.
Qed.

Lemma passes_claim_many (self : Consumer S) conn ids w d :
  healthy w -> working w conn = Some d -> consumer_wf self -> Forall message_ok ids ->
  passes ev (Impl.claim_many self conn ids) (fun r w' => exists cs, r = Ok cs /\
    (cs = fst (claim_each (id self) ids d) /\
     working w' conn = Some (record_all (id self) ids d))) w.
Proof.
  intros Hh Hw Hc Hids. apply passes_answers; [done|].
  eapply wp_mono; [by apply (claim_many_wp ev)|].
  intros o w' [[_ Hh'] Ha]. split; [done|]. rewrite claim_each_db in Ha.
  destruct o as [[cs|e]|m|]; simpl in *; try done. by destruct Ha as (-> & ? & _).
Qed.

Lemma suite_batch_answers c d :
  key c (mid "a") ∉ recorded d -> key c (mid "c") ∉ recorded d ->
  fst (claim_each c [mid "c"; mid "b"; mid "a"; mid "c"] (record_key (key c (mid "b")) d))
  = [Fresh; Duplicate; Fresh; Duplicate].
Proof.
  intros Ha Hc.
  assert (forall x y, x <> y -> key c x <> key c y) as Hne by (by intros x y Hxy ->%(inj _)).
  pose proof (Hne (mid "a") (mid "b") ltac:(done)). pose proof (Hne (mid "a") (mid "c") ltac:(done)).
  pose proof (Hne (mid "b") (mid "c") ltac:(done)).
  simpl. repeat (f_equal; [apply claim_answer_Fresh || apply claim_answer_Duplicate; set_solver|]).
  f_equal. apply claim_answer_Duplicate. set_solver.
Qed.

Lemma claim_many_matches_passes s used w :
  healthy w -> clean n d0 used (committed w) -> lit "claim-many" ∉ used ->
  passes ev (claim_many_matches_single_claims s (Run_new n))
    (fun _ w' => clean n d0 (lit "claim-many" :: used) (committed w')) w.
Proof.
  intros Hh Hcl Hnew. apply passes_consumer; [name_ok..|]. intros Hc.
  assert (Forall message_ok [mid "c"; mid "b"; mid "a"; mid "c"]) as Hids by ids_ok.
  apply (passes_message (mid "b")); [ids_ok|].
  eapply passes_bind; [apply claim_and_commit_passes; [apply _|done|done|ids_ok]|].
  intros a w1 Hh1 [-> Hc1].
  apply passes_assert; [apply bool_decide_eq_true_2, claim_answer_Fresh; by eapply clean_fresh|].
  apply (passes_message (mid "c")); [ids_ok|]. apply (passes_message (mid "b")); [ids_ok|].
  apply (passes_message (mid "a")); [ids_ok|]. apply (passes_message (mid "c")); [ids_ok|].
  eapply passes_expect; [by apply passes_begin|]. intros tx w2 Hh2 [Hc2 Hw2].
  eapply (passes_owning_expect ev (S := S)).
  { eapply passes_claim_many; [done|exact Hw2|by apply consumer_wf_new|exact Hids]. }
  intros cs w3 Hh3 [-> Hw3].
  eapply passes_expect; [by apply passes_commit|]. intros [] w4 Hh4 Hc4.
  rewrite Hc1. simpl id. rewrite suite_batch_answers by (by eapply clean_fresh).
  apply passes_assert; [done|].
  assert (forall m, m ∈ [mid "c"; mid "b"; mid "a"; mid "c"] ->
    key (rc n (lit "claim-many")) m ∈ recorded (committed w4)) as Hin.
  { intros m Hm. rewrite Hc4. apply elem_of_record_all. right. by exists m. }
  apply passes_mono with (Q := fun _ w' => committed w' = committed w4).
  - eapply passes_mono; [apply passes_for_each with (P := fun l w' =>
      committed w' = committed w4 /\
      Forall (fun x => {| message_str := x |} ∈ [mid "c"; mid "b"; mid "a"; mid "c"]) l)
      |by intros [] w' [? _]]; [done| |].
    + split; [done|]. repeat constructor; set_solver.
    + intros x l w5 Hh5 [Hc5 [Hx Hl]%Forall_cons].
      assert (message_ok {| message_str := x |}) as Hm by (by eapply Forall_forall).
      apply (passes_message {| message_str := x |}); [done|].
      eapply passes_bind; [by apply is_committed_passes|]. intros b w6 Hh6 [-> Hc6].
      rewrite bool_decide_eq_true_2 by (rewrite Hc5; by apply Hin).
      apply passes_ret; [done|]. split; [by rewrite Hc6|done].
  - intros [] w' ->. rewrite Hc4, Hc1. simpl id. apply clean_record_all; [|by left].
    apply clean_record; [|by left]. eapply clean_weaken; [done|set_solver].
Qed.

Lemma conformance_wp s w :
  healthy w -> clean n d0 [] (committed w) ->
  passes ev (conformance n s) (fun _ w' => exists used, clean n d0 used (committed w')) w.
Proof.
  intros Hh Hcl. unfold conformance. cbv zeta.
  eapply passes_bind; [apply fresh_then_duplicate_passes; [done|done|name_ok]|].
  intros [] w1 Hh1 Hc1.
  eapply passes_bind; [apply handler_failure_passes; [done|exact Hc1|name_ok..]|].
  intros [] w2 Hh2 Hc2.
  eapply passes_bind; [apply explicit_rollback_passes; [done|exact Hc2|name_ok]|].
  intros [] w3 Hh3 Hc3.
  eapply passes_bind; [apply dropped_transaction_passes; [done|exact Hc3|name_ok]|].
  intros [] w4 Hh4 Hc4.
  eapply passes_bind; [apply max_length_passes; [done|exact Hc4|name_ok..]|].
  intros [] w5 Hh5 Hc5.
  eapply passes_bind; [apply ids_compare_passes; [done|exact Hc5|name_ok]|].
  intros [] w6 Hh6 Hc6.
  eapply passes_mono; [apply claim_many_matches_passes; [done|exact Hc6|name_ok]|].
  intros [] w7 Hc7. by eexists.
Qed.
End Checks.

(** ** Runs do not see each other *)

Lemma hex_digits_inj width n n' :
  0 <= n < 16 ^ Z.of_nat width -> 0 <= n' < 16 ^ Z.of_nat width ->
  hex_digits width n = hex_digits width n' -> n = n'.
Proof.
  revert n n'; induction width as [|width IH]; intros n n' Hn Hn'; cbn [hex_digits].
  { simpl in *. lia. }
  intros [Hq Hr]%app_inj_tail.
  rewrite Nat2Z.inj_succ, Z.pow_succ_r in Hn, Hn' by lia.
  apply IH in Hq; [|Z.to_euclidean_division_equations; lia..].
  assert (n mod 16 = n' mod 16) as Hm.
  { pose proof (Z.mod_pos_bound n 16 ltac:(lia)). pose proof (Z.mod_pos_bound n' 16 ltac:(lia)).
    unfold hex_digit in Hr. destruct (Z.ltb_spec (n mod 16) 10), (Z.ltb_spec (n' mod 16) 10); lia. }
  rewrite (Z.div_mod n 16), (Z.div_mod n' 16) by lia. congruence.
Qed.

Lemma hex_digits_length width n : length (hex_digits width n) = width.
Proof.
  revert n; induction width as [|width IH]; intros n; cbn [hex_digits]; [done|].
  rewrite length_app, IH. simpl. lia.
Qed.

Lemma prefix_apart n n' x y :
  0 <= n <= u64_max -> 0 <= n' <= u64_max -> n <> n' ->
  prefix (Run_new n) ++ x <> prefix (Run_new n') ++ y.
Proof.
  intros Hn Hn' Hne Heq. apply Hne, (hex_digits_inj 16);
    [unfold u64_max in *; simpl; lia..|].
  change (prefix (Run_new n)) with (lit "conformance-" ++ hex_digits 16 n ++ lit "-") in Heq.
  change (prefix (Run_new n')) with (lit "conformance-" ++ hex_digits 16 n' ++ lit "-") in Heq.
  rewrite <- !app_assoc in Heq. apply app_inv_head in Heq.
  apply app_inj_1 in Heq as [Heq _]; [done|]. by rewrite !hex_digits_length.
Qed.

(** ** The suite *)

Section Conformance.
Context {S : Type} {E : Type -> Type} {Conn Tx W App : Type}.
Context (ev : forall A, E A -> W -> A * W).
Context `{Transaction E Conn Tx, !InboxStore S E Conn Tx, !Observe W Conn App}.
Context `{!InboxLaws S ev}.

(** No row of the run [n] is recorded. *)
Definition unused (n : Z) (d : Db App) : Prop :=
  forall x i, (prefix (Run_new n) ++ x, i) ∉ recorded d.

Lemma conformance_run n (s : S) (w : W) :
  healthy w -> unused n (committed w) ->
  exists w' used, exec ev (conformance n s) w = (Done tt, w') /\ healthy w' /\
    clean n (committed w) used (committed w').
Proof.
  intros Hh Hu. destruct (exec ev (conformance n s) w) as [o w'] eqn:Hx.
  destruct (wp_exec ev _ _ _ _ _ (conformance_wp ev n (committed w) s w Hh
    ltac:(split; [intros x i _; apply Hu|done])) Hx) as [Ho Hnc].
  destruct o as [[]|m|]; [|done|done]. destruct Ho as [Hh' [used Hc]]. by exists w', used.
Qed.

(** C24 (lawful stores conform). On a healthy backend that keeps the contract,
    the conformance suite runs to its end without a panic, touches no row of
    other consumers, and can be run again on the same database: a later run
    with another nonce passes too. *)
Theorem conformance_passes (n n' : Z) (s : S) (w : W) :
  0 <= n <= u64_max -> 0 <= n' <= u64_max -> n <> n' ->
  healthy w -> unused n (committed w) -> unused n' (committed w) ->
  exists w', exec ev (conformance n s) w = (Done tt, w') /\ healthy w' /\
    (forall c i, (forall x, c <> prefix (Run_new n) ++ x) ->
                 (c, i) ∈ recorded (committed w') <-> (c, i) ∈ recorded (committed w)) /\
    exists w'', exec ev (conformance n' s) w' = (Done tt, w'') /\ healthy w''.
Proof.
  intros Hn Hn' Hne Hh Hu Hu'.
  destruct (conformance_run n s w Hh Hu) as (w' & used & Hx & Hh' & Hcl & Hrest).
  exists w'. split; [done|]. split; [done|]. split; [done|].
  destruct (conformance_run n' s w' Hh') as (w'' & _ & Hx' & Hh'' & _).
  - intros x i Hin. apply (Hu' x i). apply Hrest; [|done].
    intros y. by apply prefix_apart; [| |intros ->].
  - by exists w''.
Qed.
End Conformance.

Lemma conformance_passes_witness :
  exists w', exec mem_ev (conformance 7 memStore) mem_empty = (Done tt, w') /\
    exists w'', exec mem_ev (conformance 8 memStore) w' = (Done tt, w'') /\ healthy w''.
Proof.
  destruct (conformance_passes mem_ev 7 8 memStore mem_empty)
    as (w' & Hx & _ & _ & Hx'); [unfold u64_max; lia..|constructor| | |].
  - intros x i. apply not_elem_of_empty.
  - intros x i. apply not_elem_of_empty.
  - exists w'. split; [exact Hx|exact Hx'].
Defined.
