(* ===== verification/TestingSavepoints.v ===== *)
(** * The conformance check for savepoints

    [savepoints_conformance] of [src/src/testing.rs]: a batch with poisons at
    its first, a middle and its last position, and the theorem that every
    healthy store that keeps the contract of [Store.v] with savepoints passes
    it. *)

From S2P Require Import Prelude Text Errors Durations Types Store MemStore Consumer ClaimMany Process ProcessMany Testing.
#[local] Open Scope Z_scope.

(** ** The check *)

Section Suite.
Context {S : Type} {E : Type -> Type} {Conn Tx : Type}.
Context `{Transaction E Conn Tx, !InboxStore S E Conn Tx, !Savepoints S E Conn Tx}.
Implicit Types (store : S).

(** [l.map(f).collect()] for an [f] that may panic. *)
Fixpoint map_each {A B : Type} (f : A -> prog E B) (l : list A) : prog E (list B) :=
  match l with
  | [] => Ret []
  | x :: l => y <- f x ;; ys <- map_each f l ;; Ret (y :: ys)
  end.

(** [m0] to [m9], then a repeat of a poison and of a success. *)
Definition savepoint_ids : list str :=
  ((fun i => lit "m" ++ fmt_Z (Z.of_nat i)) <$> seq 0 10) ++ [lit "m5"; lit "m3"].

Definition poisons : list str := [lit "m0"; lit "m5"; lit "m9"].
Definition known : str := lit "m7".

Definition poisoned (id : MessageId) : bool := bool_decide (Message_Id.as_str id ∈ poisons).

(** The handler of the check: a write under another consumer, then an error for
    a poison. *)
Definition effect_handler store (effects : ConsumerId) (conn : Conn) (id : MessageId)
  : prog E (result unit HandlerError) :=
  r <- Store.claim store conn (Claim_Request.new effects id) ;;
  match r with
  | Ok _ => Ret (if poisoned id then Error (EString (lit "poison")) else Ok tt)
  | Error e => Ret (Error (EInbox e))
  end.

(** The assertions on one message of the batch. *)
Definition check_result store (inbox effects : ConsumerId)
    (item : MessageId * ProcessResult unit) : prog E unit :=
  let '(id, result) := item in
  if decide (Message_Id.as_str id = known) then
    _ <- assert (match result with Ok OutcomeDuplicate => true | _ => false end)
           "was processed before the batch and must be a duplicate" ;;
    e <- is_committed store effects id ;;
    assert (negb e) "the handler must not run for an already-processed message"
  else
    _ <- assert (bool_decide (negb (is_ok result) = poisoned id))
           "must be an error iff it is a poison" ;;
    c <- is_committed store inbox id ;;
    _ <- assert (bool_decide (c = negb (poisoned id)))
           "claim must commit iff its handler succeeded" ;;
    e <- is_committed store effects id ;;
    assert (bool_decide (e = negb (poisoned id)))
      "effect must commit iff its handler succeeded".

Definition savepoints_conformance (n : Z) store : prog E unit :=
  let run := Run_new n in
  inbox <- Run_consumer run "process-many" ;;
  effects <- Run_consumer run "process-many-effect" ;;
  ids <- map_each message savepoint_ids ;;
  m_known <- message known ;;
  c <- claim_and_commit store inbox m_known ;;
  _ <- assert (bool_decide (c = Fresh)) "assertion failed" ;;
  r <- Impl.process_many (Impl.consumer store inbox) ids (effect_handler store effects) ;;
  results <- expect "process_many" r ;;
  for_each (zip ids results) (check_result store inbox effects).
End Suite.

(** ** The handler's effect on the batch *)

Definition effect_spec {App : Type} (effects : ConsumerId) (m : MessageId)
  : HandlerSpec App unit := {|
  returns d _ d' := poisoned m = false /\ d' = record_key (key effects m) d;
  fails _ _ := poisoned m = true;
  panics _ _ := False;
|}.

Section Effects.
Context {App : Type}.
Variables inbox effects : ConsumerId.
Hypothesis Hapart : inbox <> effects.
Implicit Types (d : Db App) (m : MessageId).

Lemma key_apart m m' : key inbox m <> key effects m'.
Proof.
  unfold key. intros [= Heq _]. apply Hapart. destruct inbox, effects; simpl in *. by subst.
Qed.

Lemma effect_keeps_keys m : keeps_keys inbox (effect_spec (App := App) effects m).
Proof.
  intros d v d' [_ ->] m'. simpl. rewrite elem_of_union, elem_of_singleton.
  pose proof (key_apart m' m). naive_solver.
Qed.

(** An effect is in the database exactly when its handler returned. *)
Lemma effects_recorded items F d rs d' m :
  batch_runs inbox (effect_spec effects) items F d rs d' ->
  key effects m ∈ recorded d' <->
  key effects m ∈ recorded d \/ (m, Fresh) ∈ items /\ poisoned m = false.
Proof.
  induction 1 as [F d|x items F d rs d' HF Hr IH|x items F d rs d' HF Hr IH
                 |x items F d v d1 rs d' Hv Hr IH|x items F d e rs d' He Hr IH].
  - rewrite elem_of_nil. tauto.
  - rewrite IH, elem_of_cons. naive_solver.
  - rewrite IH, elem_of_cons. naive_solver.
  - destruct Hv as [Hx ->]. rewrite IH, elem_of_cons. simpl.
    rewrite elem_of_union, elem_of_singleton. split.
    + intros [[Heq|?]|[? ?]]; [|by left|tauto].
      apply (inj (key effects)) in Heq as ->. tauto.
    + intros [?|[[Heq|?] ?]]; [tauto| |tauto]. simplify_eq. tauto.
  - rewrite IH, elem_of_cons. simpl. rewrite elem_of_difference, elem_of_singleton.
    pose proof (not_eq_sym (key_apart x m)) as Hne. simpl in He. split.
    + intros [[? _]|[? ?]]; tauto.
    + intros [?|[[Heq|?] Hp]]; [tauto| |tauto]. simplify_eq. congruence.
Qed.

(** Rows of other consumers are not touched. *)
Lemma batch_frame items F d rs d' k :
  batch_runs inbox (effect_spec effects) items F d rs d' ->
  (forall m, k <> key inbox m) -> (forall m, k <> key effects m) ->
  k ∈ recorded d' <-> k ∈ recorded d.
Proof.
  intros Hb Hi He.
  induction Hb as [| | |x items F d v d1 rs d' Hv Hr IH|x items F d e rs d' Hf Hr IH];
    [done|done|done| |].
  - destruct Hv as [_ ->]. rewrite IH. simpl. specialize (He x). set_solver.
  - rewrite IH. simpl. specialize (Hi x). set_solver.
Qed.
End Effects.

(** ** The check passes *)

Section Passing.
Context {S : Type} {E : Type -> Type} {Conn Tx W App : Type}.
Context (ev : forall A, E A -> W -> A * W).
Context `{Transaction E Conn Tx, !InboxStore S E Conn Tx, !Savepoints S E Conn Tx}.
Context `{!Observe W Conn App, !InboxLaws S ev, !SavepointLaws S ev}.
Implicit Types (s : S) (w : W) (d : Db App).

Lemma effect_handler_meets s effects conn m :
  consumer_ok effects -> message_ok m ->
  meets_while ev True conn (effect_handler s effects conn m) (effect_spec effects m).
Proof.
  intros He Hm w d Hh Hw. apply wp_bind.
  eapply wp_mono; [by apply (law_claim s conn (Claim_Request.new effects m) w d)|].
  intros [[c|e]|x|] w1 [Hq Ha]; simpl in Ha |- *; [|by destruct Ha; auto|done|by split].
  destruct Ha as (_ & Hw1 & Hs1). apply wp_ret. split; [done|].
  destruct (poisoned m) eqn:Hp; simpl; [by auto|]. by eauto 7.
Qed.

Lemma process_many_passes (self : Consumer S) (handler : Conn -> MessageId -> prog E (result unit HandlerError))
    (h : MessageId -> HandlerSpec App unit) ids w :
  healthy w -> consumer_wf self -> Forall message_ok ids ->
  (forall conn m, message_ok m -> meets_while ev True conn (handler conn m) (h m)) ->
  (forall m d x, ~ panics (h m) d x) ->
  passes ev (Impl.process_many self ids handler) (fun r w' => exists rs, r = Ok rs /\
    batch_effect (id self) h ids (committed w) rs (committed w')) w.
Proof.
  intros Hh Hwf Hids Hhandler Hnp. eapply wp_mono.
  { apply (process_many_wp ev self handler h Hwf True Hhandler ids w Hids (fun _ => Hh)). }
  intros o w' [He Hh']. remember (committed w') as after eqn:Ha. rewrite Ha.
  destruct He as [rs after Hb|e Hu|e rs after Hu|x m d Hm Hp| |rs after Hb]; try done.
  - split; [auto|]. exists rs. by rewrite <- Ha.
  - by destruct (Hnp m d x).
Qed.

Lemma map_message_passes (ids : list MessageId) w :
  healthy w -> Forall message_ok ids ->
  passes ev (map_each message (Message_Id.as_str <$> ids))
    (fun l w' => l = ids /\ w' = w) w.
Proof.
  intros Hh. induction 1 as [|m ids Hm Hids IH]; [by apply passes_ret|].
  apply passes_message; [done|]. eapply passes_bind; [exact IH|].
  intros l w1 Hh1 [-> ->]. by apply passes_ret.
Qed.

(** What the batch must leave of one message and its result. *)
Definition result_right (inbox effects : ConsumerId) (after : Db App)
    (item : MessageId * ProcessResult unit) : Prop :=
  let '(m, r) := item in
  message_ok m /\
  if decide (Message_Id.as_str m = known)
  then r = Ok OutcomeDuplicate /\ key effects m ∉ recorded after
  else is_ok r = negb (poisoned m) /\
       (key inbox m ∈ recorded after <-> poisoned m = false) /\
       (key effects m ∈ recorded after <-> poisoned m = false).

Lemma check_result_passes s inbox effects item w :
  healthy w -> consumer_ok inbox -> consumer_ok effects ->
  result_right inbox effects (committed w) item ->
  passes ev (check_result s inbox effects item) (fun _ w' => committed w' = committed w) w.
Proof.
  intros Hh Hi He. destruct item as [m r]. unfold result_right, check_result.
  intros [Hm Hr]. case_decide as Hk.
  - destruct Hr as [-> Hn]. apply passes_assert; [done|].
    eapply passes_bind; [by apply is_committed_passes|]. intros b w1 Hh1 [-> Hc1].
    rewrite bool_decide_eq_false_2 by done. by apply passes_ret.
  - destruct Hr as (-> & Hin & Hef).
    apply passes_assert; [apply bool_decide_eq_true_2, negb_involutive|].
    eapply passes_bind; [by apply is_committed_passes|]. intros b w1 Hh1 [-> Hc1].
    apply passes_assert; [by destruct (poisoned m); repeat case_bool_decide; naive_solver|].
    eapply passes_bind; [by apply is_committed_passes|]. intros b w2 Hh2 [-> Hc2].
    rewrite Hc1, bool_decide_eq_true_2; [apply passes_ret; [done|congruence]|].
    destruct (poisoned m); case_bool_decide; naive_solver.
Qed.

Lemma batch_results_right (inbox effects : ConsumerId) ids (m0 : MessageId) d rs after :
  inbox <> effects -> Forall message_ok ids -> Message_Id.as_str m0 = known ->
  (forall m, key inbox m ∉ recorded d) -> (forall m, key effects m ∉ recorded d) ->
  batch_effect inbox (effect_spec effects) ids (record_key (key inbox m0) d) rs after ->
  Forall (result_right inbox effects after) (zip ids rs).
Proof.
  intros Hne Hids Hm0 Hi He Hb. apply Forall_lookup. intros i [m r] Hir.
  apply lookup_zip_with_Some in Hir as (m' & r' & [= <- <-] & Hm & Hr).
  split; [by eapply Forall_lookup_1|].
  assert (key inbox m ∈ recorded (record_key (key inbox m0) d) <->
          Message_Id.as_str m = known) as Hknown.
  { rewrite elem_of_record_key, <- Hm0, as_str_eq. naive_solver. }
  assert (key effects m ∈ recorded after <->
          Message_Id.as_str m <> known /\ poisoned m = false) as Heff.
  { rewrite (effects_recorded inbox effects Hne _ _ _ _ _ m Hb), fresh_item_iff, Hknown.
    rewrite claim_each_db, elem_of_record_all. simpl. rewrite elem_of_union, elem_of_singleton.
    pose proof (fun x => not_eq_sym (key_apart inbox effects Hne x m)) as Hap.
    apply list_elem_of_lookup_2 in Hm. split; [|tauto].
    intros [[[?|?]|(x & _ & ?)]|?]; [by destruct (Hap m0)|by destruct (He m)|by destruct (Hap x)|tauto]. }
  assert (forall m', keeps_keys inbox (effect_spec (App := App) effects m')) as Hkeys
    by (intros m'; by apply effect_keeps_keys).
  case_decide as Hk.
  - split; [|by rewrite Heff; intros [? _]]. eapply (batch_known _ _ Hkeys); eauto.
    by apply Hknown.
  - destruct (batch_poison_results inbox (effect_spec effects) Hkeys (fun m => poisoned m = true)
      ids (record_key (key inbox m0) d) rs after i m r) as [Hok Hp]; auto.
    { by intros d1 v d2 [-> _]. }
    { by rewrite Hknown. }
    rewrite <- Hok, Heff, Hp. destruct (is_ok r), (poisoned m); simpl; naive_solver.
Qed.

Lemma savepoint_ids_ok : Forall message_ok (Build_MessageId <$> savepoint_ids).
Proof.
  assert (savepoint_ids = lit <$> ["m0"; "m1"; "m2"; "m3"; "m4"; "m5"; "m6"; "m7"; "m8"; "m9";
    "m5"; "m3"]%string) as -> by (vm_compute; reflexivity).
  cbn [fmap list_fmap]. ids_ok.
Qed.

Lemma savepoints_conformance_wp n s w :
  healthy w -> unused n (committed w) ->
  passes ev (savepoints_conformance n s) (fun _ w' =>
    forall c i, (forall x, c <> prefix (Run_new n) ++ x) ->
      (c, i) ∈ recorded (committed w') <-> (c, i) ∈ recorded (committed w)) w.
Proof.
  intros Hh Hu. apply passes_consumer; [name_ok..|]. intros Hinbox.
  apply passes_consumer; [name_ok..|]. intros Heff.
  change savepoint_ids with (Message_Id.as_str <$> (Build_MessageId <$> savepoint_ids)).
  eapply passes_bind; [by apply map_message_passes, savepoint_ids_ok|].
  intros ids w0 _ [-> ->].
  apply (passes_message ev {| message_str := known |}); [ids_ok|].
  eapply passes_bind; [apply claim_and_commit_passes; [apply _|done|done|ids_ok]|].
  intros a w1 Hh1 [-> Hc1].
  apply passes_assert; [apply bool_decide_eq_true_2, claim_answer_Fresh, Hu|].
  eapply passes_expect.
  { apply (process_many_passes _ _ (effect_spec (rc n (lit "process-many-effect"))));
      [done|by apply consumer_wf_new|apply savepoint_ids_ok| |by intros ? ? ? []].
    intros conn m Hm. by apply effect_handler_meets. }
  intros rs w2 Hh2 Hb. rewrite Hc1 in Hb.
  assert (rc n (lit "process-many") <> rc n (lit "process-many-effect")) as Hne.
  { by intros [= Heq%(app_inv_head (prefix (Run_new n)))]. }
  pose proof (batch_results_right _ _ _ {| message_str := known |} (committed w) rs (committed w2)
    Hne savepoint_ids_ok eq_refl ltac:(intros ?; apply Hu) ltac:(intros ?; apply Hu) Hb) as Hrs.
  eapply passes_mono; [apply passes_for_each with (P := fun l w' =>
    committed w' = committed w2 /\
    Forall (result_right (rc n (lit "process-many")) (rc n (lit "process-many-effect"))
              (committed w2)) l); [done|by split|]|].
  - intros item l w3 Hh3 [Hc3 [Hit Hl]%Forall_cons]. rewrite <- Hc3 in Hit.
    eapply passes_mono; [by apply check_result_passes|]. intros [] w4 Hc4.
    split; [congruence|done].
  - intros [] w' [Hc' _] c i Hout. rewrite Hc'.
    assert (forall x m, (c, i) <> key (rc n x) m) as Hout' by (intros x m [= ? _]; by apply (Hout x)).
    rewrite (batch_frame _ _ Hne _ _ _ _ _ _ Hb (Hout' _) (Hout' _)), claim_each_db,
      elem_of_record_all. simpl. rewrite elem_of_union, elem_of_singleton.
    split; [|tauto]. intros [[?|?]|(m & _ & ?)]; [by destruct (Hout' (lit "process-many")
      {| message_str := known |})|done|by destruct (Hout' (lit "process-many") m)].
Qed.

(** C25 (lawful stores pass the savepoint check). On a healthy backend that
    keeps the contract with savepoints, the check runs to its end without a
    panic on any database without rows of this run: poisons at the first, a
    middle and the last position roll back with their effects, every other
    message commits, a message processed before is not handled again, and a
    repeat gets the answer of its message.  Rows of other consumers stay as
    they were. *)
Theorem savepoints_conformance_passes n s w :
  healthy w -> unused n (committed w) ->
  exists w', exec ev (savepoints_conformance n s) w = (Done tt, w') /\ healthy w' /\
    forall c i, (forall x, c <> prefix (Run_new n) ++ x) ->
      (c, i) ∈ recorded (committed w') <-> (c, i) ∈ recorded (committed w).
Proof.
  intros Hh Hu. destruct (exec ev (savepoints_conformance n s) w) as [o w'] eqn:Hx.
  destruct (wp_exec ev _ _ _ _ _ (savepoints_conformance_wp n s w Hh Hu) Hx) as [Ho Hnc].
  destruct o as [[]|m|]; [|done|done]. destruct Ho as [Hh' Hf]. by exists w'.
Qed.
End Passing.

Lemma savepoints_conformance_passes_witness :
  exists w', exec mem_ev (savepoints_conformance 7 memStore) mem_empty = (Done tt, w') /\
    healthy w'.
Proof.
  destruct (savepoints_conformance_passes mem_ev 7 memStore mem_empty)
    as (w' & Hx & Hh & _); [constructor|intros x i; apply not_elem_of_empty|].
  exists w'. split; [exact Hx|exact Hh].
Defined.
