(* ===== verification/Fakes.v ===== *)
(** * The fake stores of the conformance tests

    [src/tests/it/conformance.rs]: an in-memory store on the trait's default
    methods, with two switches that each break one promise.  The tests say that
    the suite accepts the fake as it is and rejects it with either switch on;
    here the three runs are evaluated. *)

From S2P Require Import Prelude Text Errors Durations Types Store Consumer Testing.
#[local] Open Scope Z_scope.

(** ** The fake *)

Definition Key : Type := str * str.

(** A [HashSet<Key>], as the list of its elements. *)
Definition set_contains (s : list Key) (k : Key) : bool := bool_decide (k ∈ s).
Definition set_insert (s : list Key) (k : Key) : bool * list Key :=
  if set_contains s k then (false, s) else (true, k :: s).
Definition set_extend (s l : list Key) : list Key :=
  foldl (fun s k => snd (set_insert s k)) s l.

(** [str::to_lowercase] on the characters of the suite's identifiers: ASCII,
    Latin-1 and characters without case. *)
Definition char_lower (c : Z) : Z :=
  if (65 <=? c) && (c <=? 90) then c + 32
  else if (0xC0 <=? c) && (c <=? 0xDE) && negb (c =? 0xD7) then c + 32
  else c.
Definition to_lowercase (s : str) : str := char_lower <$> s.

(** The switches of a [FakeStore]; the sets behind its [Arc]s are shared by all
    its clones and live in the world. *)
Record FakeStore := { fold_case : bool; leak_on_drop : bool }.

Definition default_fake : FakeStore := {| fold_case := false; leak_on_drop := false |}.

(** A [FakeTx] owns its connection, which the world holds under a number. *)
Record FakeTx := { tx_conn : nat; tx_store : FakeStore }.
Record FakeConn := { pending : list Key; done : bool }.

Record FakeWorld := {
  fake_committed : list Key;
  leftover : list Key;
  fake_conns : gmap nat FakeConn;
  fake_next : nat;
}.

Definition fakeE (A : Type) : Type := FakeWorld -> A * FakeWorld.
Definition fake_ev (A : Type) (e : fakeE A) (w : FakeWorld) : A * FakeWorld := e w.

Definition fake_empty : FakeWorld :=
  {| fake_committed := []; leftover := []; fake_conns := ∅; fake_next := 0 |}.

(** The connection of a transaction that is still owned. *)
Definition conn_of (w : FakeWorld) (c : nat) : FakeConn :=
  default {| pending := []; done := true |} (fake_conns w !! c).

(** [Drop for FakeTx] *)
Definition fake_drop (tx : FakeTx) : fakeE unit := fun w =>
  let conn := conn_of w (tx_conn tx) in
  (tt, {| fake_committed := fake_committed w;
          leftover := if negb (done conn) && leak_on_drop (tx_store tx)
                      then set_extend (leftover w) (pending conn) else leftover w;
          fake_conns := delete (tx_conn tx) (fake_conns w);
          fake_next := fake_next w |}).

#[export] Instance fake_tx : Transaction fakeE nat FakeTx := {|
  deref_mut := tx_conn;
  drop_tx tx := trigger (fake_drop tx);
|}.

Definition fake_key (self : FakeStore) (request : ClaimRequest) : Key :=
  let id := Message_Id.as_str (req_id request) in
  (Consumer_Id.as_str (req_consumer request),
   if fold_case self then to_lowercase id else id).

Definition fake_begin (self : FakeStore) : fakeE (result FakeTx InboxError) := fun w =>
  (Ok {| tx_conn := fake_next w; tx_store := self |},
   {| fake_committed := fake_committed w; leftover := [];
      fake_conns := <[fake_next w := {| pending := leftover w; done := false |}]> (fake_conns w);
      fake_next := S (fake_next w) |}).

(** [tx.done = true], with the pending claims taken away or not. *)
Definition settle (tx : FakeTx) (keep : bool) (w : FakeWorld) : FakeWorld :=
  {| fake_committed := fake_committed w; leftover := leftover w;
     fake_conns := <[tx_conn tx := {| pending := if keep then pending (conn_of w (tx_conn tx)) else [];
                                      done := true |}]> (fake_conns w);
     fake_next := fake_next w |}.

Definition fake_commit (tx : FakeTx) : fakeE (result unit InboxError) := fun w =>
  let taken := pending (conn_of w (tx_conn tx)) in
  let w := settle tx false w in
  let w := {| fake_committed := set_extend (fake_committed w) taken; leftover := leftover w;
              fake_conns := fake_conns w; fake_next := fake_next w |} in
  (Ok tt, snd (fake_drop tx w)).

Definition fake_rollback (tx : FakeTx) : fakeE (result unit InboxError) := fun w =>
  (Ok tt, snd (fake_drop tx (settle tx true w))).

Definition fake_claim (self : FakeStore) (c : nat) (request : ClaimRequest)
  : fakeE (result Claim InboxError) := fun w =>
  let k := fake_key self request in
  let conn := conn_of w c in
  if set_contains (fake_committed w) k then (Ok Duplicate, w)
  else
    let '(inserted, pending') := set_insert (pending conn) k in
    (Ok (if inserted then Fresh else Duplicate),
     {| fake_committed := fake_committed w; leftover := leftover w;
        fake_conns := <[c := {| pending := pending'; done := done conn |}]> (fake_conns w);
        fake_next := fake_next w |}).

#[export] Instance fake_store : InboxStore FakeStore fakeE nat FakeTx := {|
  begin self := trigger (fake_begin self);
  commit _ tx := trigger (fake_commit tx);
  rollback _ tx := trigger (fake_rollback tx);
  claim self conn request := trigger (fake_claim self conn request);
  claim_many self :=
    default_claim_many (fun conn request => trigger (fake_claim self conn request));
  is_known_duplicate _ := default_is_known_duplicate;
  purge _ _ _ := Ret (Ok 0);
|}.

(** ** The three tests *)

(** The test with the nonce [n]: how the suite ends on the store. *)
Definition suite_on (n : Z) (store : FakeStore) : outcome unit :=
  fst (exec fake_ev (conformance n store) fake_empty).

Definition case_folding : FakeStore := {| fold_case := true; leak_on_drop := false |}.
Definition leaky : FakeStore := {| fold_case := false; leak_on_drop := true |}.

(** On the transactional fake the suite
    runs to its end, through the trait's default [claim_many]; a store that
    folds case is caught where identifiers must compare byte for byte, and a
    store that leaks a dropped transaction into the next one where a dropped
    transaction must roll back. *)
Lemma suite_tells_fakes_apart :
  suite_on 7 default_fake = Done tt /\
  suite_on 7 case_folding = Panicked "collided with an earlier, different id: ids must compare byte for byte" /\
  suite_on 7 leaky = Panicked "a transaction dropped without commit must roll back".
Proof. vm_compute. auto. Qed.
