(* ===== verification/UnitTests.v ===== *)
(** * The crate's unit tests

    The [#[test]] functions of [src/src/types.rs], [src/src/postgres.rs] and
    [src/src/mysql.rs], as checks of the model: each is the conjunction of the
    test's assertions, and all of them hold. *)

From S2P Require Import Prelude Text Errors Durations Types Testing.
#[local] Open Scope Z_scope.

Definition is_err {A Err : Type} (r : result A Err) : bool := negb (is_ok r).

(** [assert_eq!(a, b)] *)
Definition same {A : Type} `{EqDecision A} (a b : A) : bool := bool_decide (a = b).

(** [r.unwrap().as_str()], where the test fails on an error. *)
Definition str_is {A Err : Type} (as_str : A -> str) (r : result A Err) (s : string) : bool :=
  match r with Ok a => same (as_str a) (lit s) | Error _ => false end.

Abbreviation mtry s := (Message_Id.try_from (lit s)).
Abbreviation ctry s := (Consumer_Id.try_from (lit s)).
Abbreviation scoped a b := (Message_Id.scoped (lit a) (lit b)).

(** ** [types.rs] *)

Definition the_length_limit_counts_bytes_not_characters : bool :=
  let multibyte := repeat_char 0xE9 Message_Id.MAX_LEN in
  same (Z.of_nat (length multibyte)) Message_Id.MAX_LEN &&
  is_err (Message_Id.try_from multibyte).

Definition a_message_id_beyond_the_length_limit_is_rejected : bool :=
  is_err (Message_Id.try_from (repeat_char 120 (Message_Id.MAX_LEN + 1))).

Definition an_empty_message_id_is_rejected : bool := is_err (mtry "").

Definition try_from_rejects_a_whitespace_only_id_as_empty : bool :=
  same (mtry "   ") (Error Empty) && same (ctry "   ") (Error Empty).

Definition try_from_rejects_an_id_with_a_leading_space : bool :=
  same (mtry " m-1") (Error SurroundingWhitespace) &&
  same (ctry " billing") (Error SurroundingWhitespace).

Definition try_from_rejects_an_id_with_a_trailing_space : bool :=
  same (mtry "m-1 ") (Error SurroundingWhitespace) &&
  same (ctry "billing ") (Error SurroundingWhitespace).

Definition ids_are_constructible_from_str_and_string : bool :=
  str_is Consumer_Id.as_str (ctry "billing") "billing" &&
  str_is Message_Id.as_str (mtry "m-1") "m-1".

Definition outcome_processed_yields_the_value : bool :=
  same (processed (Processed 7)) (Some 7).

Definition outcome_duplicate_yields_nothing : bool :=
  same (processed (OutcomeDuplicate (T := Z))) None.

Definition scoped_rejects_both_parts_empty : bool := same (scoped "" "") (Error Empty).

Definition scoped_rejects_an_empty_scope : bool := same (scoped "" "1") (Error Empty).

Definition scoped_rejects_an_empty_id : bool := same (scoped "producer-a" "") (Error Empty).

Definition scoped_rejects_a_colon_in_the_scope : bool :=
  same (scoped "a:b" "c") (Error ScopeContainsSeparator).

Definition scoped_allows_a_colon_in_the_id : bool :=
  str_is Message_Id.as_str (scoped "producer-a" "topic:partition:offset")
    "producer-a:topic:partition:offset".

Definition scoped_enforces_the_combined_length_limit : bool :=
  is_err (Message_Id.scoped (lit "s") (repeat_char 120 Message_Id.MAX_LEN)).

Definition scoped_rejects_a_scope_with_surrounding_whitespace : bool :=
  same (scoped " mt5" "1") (Error SurroundingWhitespace) &&
  same (scoped "mt5 " "1") (Error SurroundingWhitespace).

Definition scoped_rejects_an_id_with_surrounding_whitespace : bool :=
  same (scoped "mt5" " 1") (Error SurroundingWhitespace) &&
  same (scoped "mt5" "1 ") (Error SurroundingWhitespace).

(** ** [postgres.rs] and [mysql.rs] *)

Definition lock_timeout_rounds_up_and_never_sends_zero : bool :=
  same (pg_lock_timeout (from_secs 0)) (lit "1ms") &&
  same (pg_lock_timeout (from_micros 1)) (lit "1ms") &&
  same (pg_lock_timeout (from_micros 1500)) (lit "2ms") &&
  same (pg_lock_timeout (from_millis 200)) (lit "200ms").

Definition lock_timeout_rounds_up_to_whole_seconds_and_never_zero : bool :=
  same (mysql_lock_timeout (from_secs 0)) 1 &&
  same (mysql_lock_timeout (from_millis 1)) 1 &&
  same (mysql_lock_timeout (from_millis 1001)) 2 &&
  same (mysql_lock_timeout (from_secs 30)) 30 &&
  same (mysql_lock_timeout duration_max) 1073741824.

Definition unit_tests : list bool := [
  the_length_limit_counts_bytes_not_characters;
  a_message_id_beyond_the_length_limit_is_rejected;
  an_empty_message_id_is_rejected;
  try_from_rejects_a_whitespace_only_id_as_empty;
  try_from_rejects_an_id_with_a_leading_space;
  try_from_rejects_an_id_with_a_trailing_space;
  ids_are_constructible_from_str_and_string;
  outcome_processed_yields_the_value;
  outcome_duplicate_yields_nothing;
  scoped_rejects_both_parts_empty;
  scoped_rejects_an_empty_scope;
  scoped_rejects_an_empty_id;
  scoped_rejects_a_colon_in_the_scope;
  scoped_allows_a_colon_in_the_id;
  scoped_enforces_the_combined_length_limit;
  scoped_rejects_a_scope_with_surrounding_whitespace;
  scoped_rejects_an_id_with_surrounding_whitespace;
  lock_timeout_rounds_up_and_never_sends_zero;
  lock_timeout_rounds_up_to_whole_seconds_and_never_zero ].

Lemma unit_tests_pass : forallb (fun t => t) unit_tests = true.
Proof. vm_compute. reflexivity. Qed.
