(* ===== verification/RunnerTests.v ===== *)
(** * The tests of the consumer's control flow

    [src/tests/it/runner_semantics.rs]: a fake store that records what it is
    asked to do, with switches that make its rollback fail or its batches come
    back short, and the tests that run [Consumer] on it, as checks of the model.
    Its claims do not go through the connection, so it is no store that keeps
    the contract of [Store.v]: the tests are about control flow only. *)

From S2P Require Import Prelude Text Errors Durations Types Store MemStore Consumer UnitTests.

Module Runner.
(** ** The fake *)

Record FakeStore := { fail_rollback : bool; short_batches : bool }.

Definition default_store : FakeStore := {| fail_rollback := false; short_batches := false |}.

(** What is behind the [Arc]s of a store, and the connections of the live
    transactions, by number, with their effects. *)
Record FakeWorld := {
  seen : gset (str * str);
  committed_effects : list str;
  rollbacks : nat;
  batches : list (list str);
  begins : nat;
  conns : gmap nat (list str);
}.

Definition empty_world : FakeWorld :=
  {| seen := ∅; committed_effects := []; rollbacks := 0; batches := []; begins := 0; conns := ∅ |}.

Definition fakeE (A : Type) : Type := FakeWorld -> A * FakeWorld.
Definition fake_ev (A : Type) (e : fakeE A) (w : FakeWorld) : A * FakeWorld := e w.

Definition fake_drop (tx : nat) : fakeE unit := fun w =>
  (tt, {| seen := seen w; committed_effects := committed_effects w; rollbacks := rollbacks w;
          batches := batches w; begins := begins w; conns := delete tx (conns w) |}).

#[export] Instance fake_tx : Transaction fakeE nat nat := {|
  deref_mut tx := tx;
  drop_tx tx := trigger (fake_drop tx);
|}.

Definition fake_begin : fakeE (result nat InboxError) := fun w =>
  (Ok (begins w),
   {| seen := seen w; committed_effects := committed_effects w; rollbacks := rollbacks w;
      batches := batches w; begins := S (begins w); conns := <[begins w := []]> (conns w) |}).

Definition fake_commit (tx : nat) : fakeE (result unit InboxError) := fun w =>
  (Ok tt,
   {| seen := seen w;
      committed_effects := committed_effects w ++ default [] (conns w !! tx);
      rollbacks := rollbacks w; batches := batches w; begins := begins w;
      conns := delete tx (conns w) |}).

Definition fake_claim (request : ClaimRequest) : fakeE (result Claim InboxError) := fun w =>
  let k := (Consumer_Id.as_str (req_consumer request), Message_Id.as_str (req_id request)) in
  (Ok (if decide (k ∈ seen w) then Duplicate else Fresh),
   {| seen := {[k]} ∪ seen w; committed_effects := committed_effects w; rollbacks := rollbacks w;
      batches := batches w; begins := begins w; conns := conns w |}).

Definition push_batch (ids : list str) : fakeE unit := fun w =>
  (tt, {| seen := seen w; committed_effects := committed_effects w; rollbacks := rollbacks w;
          batches := batches w ++ [ids]; begins := begins w; conns := conns w |}).

Fixpoint claim_loop (batch : ClaimBatch) (ids : list MessageId) (claims : list Claim)
  : prog fakeE (result (list Claim) InboxError) :=
  match ids with
  | [] => Ret (Ok claims)
  | id :: ids =>
      c <-? trigger (fake_claim (Claim_Request.new (batch_consumer batch) id)) ;;
      claim_loop batch ids (claims ++ [c])
  end.

Definition fake_claim_many (self : FakeStore) (batch : ClaimBatch)
  : prog fakeE (result (list Claim) InboxError) :=
  _ <- trigger (push_batch (Message_Id.as_str <$> batch_ids batch)) ;;
  claims <-? claim_loop batch (batch_ids batch) [] ;;
  Ret (Ok (if short_batches self then removelast claims else claims)).

Definition fake_rollback (self : FakeStore) (tx : nat) : fakeE (result unit InboxError) := fun w =>
  let '(_, w) := fake_drop tx w in
  (if fail_rollback self then Error (Backend (EString (lit "rollback failed"))) else Ok tt,
   {| seen := seen w; committed_effects := committed_effects w; rollbacks := S (rollbacks w);
      batches := batches w; begins := begins w; conns := conns w |}).

#[export] Instance fake_store : InboxStore FakeStore fakeE nat nat := {|
  begin _ := trigger fake_begin;
  commit _ tx := trigger (fake_commit tx);
  rollback self tx := trigger (fake_rollback self tx);
  claim _ _ request := trigger (fake_claim request);
  claim_many self _ batch := fake_claim_many self batch;
  is_known_duplicate _ := default_is_known_duplicate;
  purge _ _ _ := Ret (Ok 0%Z);
|}.

#[export] Instance fake_savepoints : Savepoints FakeStore fakeE nat nat := {|
  savepoint _ _ := Ret (Ok tt);
  release_and_savepoint _ _ := Ret (Ok tt);
  release _ _ := Ret (Ok tt);
  rollback_to _ _ := Ret (Ok tt);
  unclaim _ _ _ _ := Ret (Ok tt);
|}.

(** ** Handlers *)

(** [conn.effects.push(line)] *)
Definition push (conn : nat) (line : string) : fakeE unit := fun w =>
  (tt, {| seen := seen w; committed_effects := committed_effects w; rollbacks := rollbacks w;
          batches := batches w; begins := begins w;
          conns := <[conn := default [] (conns w !! conn) ++ [lit line]]> (conns w) |}).

Definition pushing {T : Type} (line : string) (r : result T HandlerError) (conn : nat)
  : prog fakeE (result T HandlerError) :=
  _ <- trigger (push conn line) ;; Ret r.

Definition boom {T : Type} : result T HandlerError := Error (EString (lit "boom")).
Definition noop (conn : nat) : prog fakeE (result unit HandlerError) := Ret (Ok tt).

Definition billing (store : FakeStore) : Consumer FakeStore :=
  Impl.consumer store (cid "billing").

(** ** The tests *)

Section Tests.
Abbreviation exec := (exec fake_ev).

(** [assert!(matches!(result, Err(InboxError::Handler(_))))] *)
Definition is_handler_error {T : Type} (o : outcome (result T InboxError)) : bool :=
  match o with Done (Error (Handler _)) => true | _ => false end.

Definition is_outcome {T : Type} `{EqDecision T} (o : outcome (result (Outcome T) InboxError))
    (x : Outcome T) : bool :=
  match o with Done (Ok y) => same y x | _ => false end.

(** A step of a test and what is checked after it. *)
Definition step {T : Type} (p : prog fakeE T) (w : FakeWorld) (k : outcome T -> FakeWorld -> bool) : bool :=
  let '(o, w') := exec p w in k o w'.

Definition first_delivery_runs_the_handler : bool :=
  step (Impl.process (billing default_store) (mid "m-1") (pushing "charged" (Ok 1%Z))) empty_world
  (fun outcome w =>
     is_outcome outcome (Processed 1%Z) && same (committed_effects w) [lit "charged"]).

Definition second_delivery_is_skipped_and_the_handler_never_runs : bool :=
  step (Impl.process (billing default_store) (mid "m-1") (pushing "charged" (Ok 1%Z))) empty_world
  (fun outcome w =>
     is_outcome outcome (Processed 1%Z) &&
     step (Impl.process (T := Z) (billing default_store) (mid "m-1")
             (fun _ => Panic "handler must not run for a duplicate")) w
     (fun outcome w =>
        is_outcome outcome OutcomeDuplicate && same (length (committed_effects w)) 1)).

Definition distinct_consumers_both_process_the_same_message : bool :=
  let deliver name :=
    Impl.process (Impl.consumer default_store (cid name)) (mid "m-1") (pushing "handled" (Ok tt)) in
  step (deliver "billing") empty_world (fun outcome w =>
    is_outcome outcome (Processed tt) &&
    step (deliver "notifications") w (fun outcome w =>
      is_outcome outcome (Processed tt) && same (length (committed_effects w)) 2)).

Definition a_failing_handler_discards_the_effect : bool :=
  step (Impl.process (T := unit) (billing default_store) (mid "m-1") (pushing "charged" boom)) empty_world
  (fun result w => is_handler_error result && same (committed_effects w) []).

Definition a_failing_handler_is_rolled_back_explicitly : bool :=
  step (Impl.process (T := unit) (billing default_store) (mid "m-1") (fun _ => Ret boom)) empty_world
  (fun result w => is_handler_error result && same (rollbacks w) 1).

Definition a_failing_rollback_still_reports_the_handler_error : bool :=
  let store := {| fail_rollback := true; short_batches := false |} in
  step (Impl.process (T := unit) (billing store) (mid "m-1") (fun _ => Ret boom)) empty_world
  (fun result _ =>
     match result with
     | Done (Error (Handler e)) =>
         same (display_dyn_error (fun _ => []) (fun _ => []) e) (lit "boom")
     | _ => false
     end).

(** [consumer.begin()] and then [consumer.claim_many(&mut tx, ids)] *)
Definition begin_and_claim (store : FakeStore) (ids : list string)
    (k : outcome (result (list Claim) InboxError) -> FakeWorld -> bool) : bool :=
  step (Impl.begin (billing store)) empty_world (fun tx w =>
    match tx with
    | Done (Ok tx) => step (Impl.claim_many (billing store) tx (mid <$> ids)) w k
    | _ => false
    end).

Definition claims_are (o : outcome (result (list Claim) InboxError)) (l : list Claim) : bool :=
  match o with Done (Ok claims) => same claims l | _ => false end.

Definition claim_many_maps_repeats_to_duplicate : bool :=
  begin_and_claim default_store ["b"; "a"; "b"]%string
    (fun claims _ => claims_are claims [Fresh; Fresh; Duplicate]).

Definition claim_many_sends_unique_sorted_ids_to_the_backend : bool :=
  begin_and_claim default_store ["c"; "a"; "c"; "b"]%string (fun claims w =>
    match claims with Done (Ok _) => true | _ => false end &&
    same (batches w) [[lit "a"; lit "b"; lit "c"]]).

Definition claim_many_of_nothing_never_reaches_the_backend : bool :=
  begin_and_claim default_store [] (fun claims w => claims_are claims [] && same (batches w) []).

Definition a_backend_returning_too_few_claims_is_an_error : bool :=
  begin_and_claim {| fail_rollback := false; short_batches := true |} ["a"; "b"]%string
    (fun claims _ => match claims with Done (Error (Backend _)) => true | _ => false end).

Definition claim_batch_builds_a_lock_timeout_like_claim_request : bool :=
  let batch :=
    Claim_Batch.with_lock_timeout (Claim_Batch.new (cid "billing") [mid "m-1"]) (from_millis 200) in
  match batch_lock_timeout batch with
  | Some t => same (as_nanos t) (as_nanos (from_millis 200))
  | None => false
  end.

Definition a_duplicate_is_rolled_back_explicitly : bool :=
  step (Impl.process (billing default_store) (mid "m-1") noop) empty_world (fun outcome w =>
    match outcome with Done (Ok _) => true | _ => false end &&
    step (Impl.process (billing default_store) (mid "m-1") noop) w (fun outcome w =>
      is_outcome outcome OutcomeDuplicate && same (rollbacks w) 1)).

Definition process_many_of_nothing_never_opens_a_transaction : bool :=
  step (Impl.process_many (billing default_store) [] (fun conn _ => noop conn)) empty_world
  (fun results w =>
     match results with Done (Ok l) => same (length l) 0 | _ => false end && same (begins w) 0).

Definition runner_tests : list bool := [
  first_delivery_runs_the_handler;
  second_delivery_is_skipped_and_the_handler_never_runs;
  distinct_consumers_both_process_the_same_message;
  a_failing_handler_discards_the_effect;
  a_failing_handler_is_rolled_back_explicitly;
  a_failing_rollback_still_reports_the_handler_error;
  claim_many_maps_repeats_to_duplicate;
  claim_many_sends_unique_sorted_ids_to_the_backend;
  claim_many_of_nothing_never_reaches_the_backend;
  a_backend_returning_too_few_claims_is_an_error;
  claim_batch_builds_a_lock_timeout_like_claim_request;
  a_duplicate_is_rolled_back_explicitly;
  process_many_of_nothing_never_opens_a_transaction ].
End Tests.

Lemma runner_tests_pass : forallb (fun t => t) runner_tests = true.
Proof. vm_compute. reflexivity. Qed.
End Runner.
