(* ===== verification/Sqlx.v ===== *)
(** * The database driver

    The interface of [sqlx] the backends use, as the effects they await.  The
    driver and the databases behind it are not part of the crate: a world type
    with an interpretation of these effects is a parameter of everything below.
    What the crate relies on is stated statement by statement, in terms of the
    rows of the inbox table: the predicates of the section [Statements] are the
    documented effect of an INSERT that skips conflicts, of a DELETE, and so on;
    the class of each backend's file says which of them each of its SQL texts
    is assumed to have. *)

From S2P Require Import Prelude Text Errors Durations Types Store.
From Stdlib Require Import SpecFloat.

(** ** Effects *)

(** A value bound to a statement. *)
Inductive Value : Type :=
| VText (s : str)
| VTextArray (l : list str)
| VJson (l : list str)
| VBytes (b : list Z)
| VInt (z : Z)
| VDouble (f : spec_float)
| VTime (t : Z).  (* nanoseconds since the epoch *)

(** A statement runs on a transaction's connection or on any connection of the
    pool. *)
Inductive Target : Type :=
| OnConn (conn : nat)
| OnPool.

(** [UtcNow] and [RandomU64] are synchronous calls in the code; as effects they
    only add points at which a future may be dropped. *)
Inductive sqlxE : Type -> Type :=
| PoolBegin : sqlxE (result nat SqlxError)
| PoolBeginWith (sql : string) : sqlxE (result nat SqlxError)
| TxCommit (tx : nat) : sqlxE (result unit SqlxError)
| TxRollback (tx : nat) : sqlxE (result unit SqlxError)
| TxDrop (tx : nat) : sqlxE unit
| Execute (t : Target) (sql : string) (args : list Value) : sqlxE (result Z SqlxError)
| FetchAllStrings (t : Target) (sql : string) (args : list Value)
  : sqlxE (result (list str) SqlxError)
| FetchOneBool (t : Target) (sql : string) (args : list Value)
  : sqlxE (result bool SqlxError)
| RawSql (t : Target) (sql : string) : sqlxE (result unit SqlxError)
| UtcNow : sqlxE Z
| RandomU64 : sqlxE (result Z Z)
| MigratorRun (dir : string) : sqlxE (result unit Z).

(** [sqlx::Transaction] derefs to its connection and rolls back on drop. *)
#[export] Instance sqlx_tx : Transaction sqlxE nat nat := {|
  deref_mut tx := tx;
  drop_tx tx := trigger (TxDrop tx);
|}.

(** [MIGRATOR.run(&pool)] of the migrations under [dir]; its error is opaque. *)
Definition run_migrator (dir : string) : prog sqlxE (result unit InboxError) :=
  r <- trigger (MigratorRun dir) ;; Ret (map_err (fun e => Backend (EOpaque e)) r).

(** [fut.await.map_err(f)]; and [fut.await?] in a function returning
    [InboxError], where [?] converts. *)
Definition await_map_err {A Err : Type} (f : SqlxError -> Err)
    (p : prog sqlxE (result A SqlxError)) : prog sqlxE (result A Err) :=
  r <- p ;; Ret (map_err f r).

Definition or_backend {A} (p : prog sqlxE (result A SqlxError))
  : prog sqlxE (result A InboxError) :=
  await_map_err from_sqlx_error p.

(** ** The contents of a database *)

(** A row: its [processed_at], in nanoseconds since the epoch, and MySQL's
    [claim_token]. *)
Record Row := { processed_at : Z; claim_token : option Z }.

Abbreviation Rows := (gmap (str * str) Row).

Record Tables (App : Type) := mkTables { rows : Rows; tapp : App }.
Arguments mkTables {_} _ _.
Arguments rows {_} _.
Arguments tapp {_} _.

Definition with_rows {App : Type} (r : Rows) (t : Tables App) : Tables App :=
  mkTables r (tapp t).

(** What the store's contract sees of the tables. *)
Definition db_of {App : Type} (t : Tables App) : Db App := mkDb (dom (rows t)) (tapp t).

(** [tbl_now] is the clock the database reads. *)
Class SqlObserve (W App : Type) := {
  tbl_committed : W -> Tables App;
  tbl_working : W -> nat -> option (Tables App);
  tbl_saved : W -> nat -> option (Tables App);
  tbl_healthy : W -> Prop;
  tbl_now : W -> Z;
}.

#[export] Instance sql_observe {W App : Type} `{!SqlObserve W App} : Observe W nat App := {|
  committed w := db_of (tbl_committed w);
  working w conn := db_of <$> tbl_working w conn;
  saved w conn := db_of <$> tbl_saved w conn;
  healthy := tbl_healthy;
|}.

(** ** What statements do to the rows *)

(** An INSERT that skips a row whose key is taken. *)
Definition insert_new (k : str * str) (row : Row) (m : Rows) : Rows :=
  if decide (k ∈ dom m) then m else <[k := row]> m.

(** The same for several keys of one consumer, all stamped alike. *)
Fixpoint insert_all_new (c : str) (ids : list str) (row : Row) (m : Rows) : Rows :=
  match ids with
  | [] => m
  | id :: ids => insert_all_new c ids row (insert_new (c, id) row m)
  end.

(** The rows older than [cutoff]. *)
Definition expired (cutoff : Z) (m : Rows) : Rows :=
  filter (fun kr => (processed_at (snd kr) < cutoff)%Z) m.

(** The longest retention window the databases' date arithmetic is relied on
    for: a thousand years, in nanoseconds. *)
Definition retention_limit : Z := (1000 * 365 * 86400 * 1000000000)%Z.

Section Statements.
Context {W App : Type} `{!SqlObserve W App}.
Context (ev : forall A, sqlxE A -> W -> A * W).

(** Nothing was committed, and a healthy engine stays so. *)
Definition still (w w' : W) : Prop :=
  tbl_committed w' = tbl_committed w /\ (tbl_healthy w -> tbl_healthy w').

(** The statement succeeded with [Q], or failed on an unhealthy engine. *)
Definition stmt {A Err : Type} (w : W) (r : result A Err) (Q : A -> Prop) : Prop :=
  match r with Ok a => Q a | Error _ => ~ tbl_healthy w end.

(** The transaction of [conn] sees [t], with the savepoint unchanged. *)
Definition now_sees (w : W) (conn : nat) (t : Tables App) (w' : W) : Prop :=
  tbl_working w' conn = Some t /\ tbl_saved w' conn = tbl_saved w conn.

(** Opens a transaction on the committed tables. *)
Definition opens (e : sqlxE (result nat SqlxError)) : Prop :=
  forall w r w', ev _ e w = (r, w') ->
  still w w' /\
  stmt w r (fun tx => tbl_working w' tx = Some (tbl_committed w) /\ tbl_saved w' tx = None).

(** A statement on [conn] that does not touch the tables. *)
Definition leaves_tables {A : Type} (conn : nat) (e : sqlxE (result A SqlxError)) : Prop :=
  forall w r w', ev _ e w = (r, w') ->
  still w w' /\
  forall t, tbl_working w conn = Some t -> stmt w r (fun _ => now_sees w conn t w').

(** Inserts the key unless it is there, and counts the row it inserted. *)
Definition inserts_one (conn : nat) (k : str * str) (e : sqlxE (result Z SqlxError)) : Prop :=
  forall w t r w', tbl_working w conn = Some t -> ev _ e w = (r, w') ->
  still w w' /\
  stmt w r (fun n =>
    n = (if decide (k ∈ dom (rows t)) then 0 else 1)%Z /\
    exists row, now_sees w conn (with_rows (insert_new k row (rows t)) t) w').

(** Inserts the keys that are not there, and returns the ids it inserted. *)
Definition inserts_returning (conn : nat) (c : str) (ids : list str)
    (e : sqlxE (result (list str) SqlxError)) : Prop :=
  forall w t r w', tbl_working w conn = Some t -> ev _ e w = (r, w') ->
  still w w' /\
  stmt w r (fun fresh =>
    (forall x, x ∈ fresh <-> x ∈ ids /\ (c, x) ∉ dom (rows t)) /\
    exists row, now_sees w conn (with_rows (insert_all_new c ids row (rows t)) t) w').

Definition deletes_one (conn : nat) (k : str * str) (e : sqlxE (result Z SqlxError)) : Prop :=
  forall w t r w', tbl_working w conn = Some t -> ev _ e w = (r, w') ->
  still w w' /\
  stmt w r (fun _ => now_sees w conn (with_rows (delete k (rows t)) t) w').

(** Looks the key up in the committed tables. *)
Definition tells_presence (k : str * str) (e : sqlxE (result bool SqlxError)) : Prop :=
  forall w r w', ev _ e w = (r, w') ->
  still w w' /\ stmt w r (fun b => b = bool_decide (k ∈ dom (rows (tbl_committed w)))).

(** Deletes, in a transaction of its own, up to [limit] rows older than a
    cutoff that satisfies [at_cutoff]: as many as there are, or [limit]. *)
Definition deletes_expired (at_cutoff : W -> W -> Z -> Prop) (limit : Z)
    (e : sqlxE (result Z SqlxError)) : Prop :=
  forall w r w', ev _ e w = (r, w') ->
  (tbl_healthy w -> tbl_healthy w') /\
  (tbl_committed w' = tbl_committed w /\ ~ tbl_healthy w /\ is_ok r = false \/
   exists cutoff (dead : Rows),
     at_cutoff w w' cutoff /\
     dead ⊆ expired cutoff (rows (tbl_committed w)) /\
     Z.of_nat (size dead)
       = Z.min limit (Z.of_nat (size (expired cutoff (rows (tbl_committed w))))) /\
     tbl_committed w'
       = with_rows (rows (tbl_committed w) ∖ dead) (tbl_committed w) /\
     stmt w r (fun n => n = Z.of_nat (size dead))).

(** Migrations create what is missing and keep what is there. *)
Definition migrates (dir : string) : Prop :=
  forall w r w', ev _ (MigratorRun dir) w = (r, w') ->
  still w w' /\ stmt w r (fun _ => True).

(** ** What the crate relies on of every database *)

Class TxEngine : Prop := {
  eng_commit tx w t r w' :
    tbl_working w tx = Some t -> ev _ (TxCommit tx) w = (r, w') ->
    (tbl_committed w' = tbl_committed w \/ tbl_committed w' = t) /\
    (tbl_healthy w -> tbl_healthy w') /\
    stmt w r (fun _ => tbl_committed w' = t);
  eng_rollback tx w r w' :
    ev _ (TxRollback tx) w = (r, w') -> still w w' /\ stmt w r (fun _ => True);
  eng_drop tx w r w' : ev _ (TxDrop tx) w = (r, w') -> still w w';
  eng_clock w t w' :
    ev _ UtcNow w = (t, w') ->
    still w w' /\ (tbl_now w <= t <= tbl_now w')%Z /\
    (forall conn, tbl_working w' conn = tbl_working w conn /\
                  tbl_saved w' conn = tbl_saved w conn);
  eng_time {A : Type} (e : sqlxE A) w a w' :
    ev _ e w = (a, w') -> (tbl_now w <= tbl_now w')%Z;
}.
End Statements.
