(* ===== verification/Sql.v ===== *)
(** * Helpers shared by the sqlx backends

    [src/src/sql.rs]: the savepoint statements, [execute] and
    [claims_from_fresh]; and the loop of [purge], which the three backends
    write out with their own statement. *)

From S2P Require Import Prelude Text Errors Durations Types Store Sqlx.

Definition SAVEPOINT_SQL : string := "SAVEPOINT txbox_process_many".
Definition RELEASE_AND_SAVEPOINT_SQL : string :=
  "RELEASE SAVEPOINT txbox_process_many; SAVEPOINT txbox_process_many".
Definition RELEASE_SQL : string := "RELEASE SAVEPOINT txbox_process_many".
Definition ROLLBACK_TO_SQL : string := "ROLLBACK TO SAVEPOINT txbox_process_many".

(** Runs a fixed statement on [conn]. *)
Definition execute (conn : nat) (sql : string) : prog sqlxE (result unit InboxError) :=
  _ <-? or_backend (trigger (RawSql (OnConn conn) sql)) ;; Ret (Ok tt).

(** One claim per id, in order: [Fresh] for the ids the insert reported back. *)
Definition claims_from_fresh (ids : list str) (fresh : list str) : list Claim :=
  let fresh : gset str := list_to_set fresh in
  (fun id => if decide (id ∈ fresh) then Fresh else Duplicate) <$> ids.

(** The loop of [purge] around one delete statement: add up the deleted rows
    until a statement deletes less than a batch.  [fuel] bounds the number of
    statements; [purge_loop_wp] shows how much is enough. *)
Fixpoint purge_loop (fuel : nat) (delete : prog sqlxE (result Z SqlxError)) (batch total : Z)
  : prog sqlxE (result Z InboxError) :=
  match fuel with
  | O => Panic "out of fuel"
  | S fuel =>
      affected <-? or_backend delete ;;
      let total := (total + affected)%Z in
      if (affected <? batch)%Z then Ret (Ok total)
      else purge_loop fuel delete batch total
  end.

(** ** Savepoint statements, on every database *)

Class SavepointEngine {W App : Type} `{!SqlObserve W App}
    (ev : forall A, sqlxE A -> W -> A * W) : Prop := {
  eng_savepoint conn w t r w' :
    tbl_working w conn = Some t -> tbl_saved w conn = None ->
    ev _ (RawSql (OnConn conn) SAVEPOINT_SQL) w = (r, w') ->
    still w w' /\
    stmt w r (fun _ => tbl_working w' conn = Some t /\ tbl_saved w' conn = Some t);
  eng_release_and_savepoint conn w t sp r w' :
    tbl_working w conn = Some t -> tbl_saved w conn = Some sp ->
    ev _ (RawSql (OnConn conn) RELEASE_AND_SAVEPOINT_SQL) w = (r, w') ->
    still w w' /\
    stmt w r (fun _ => tbl_working w' conn = Some t /\ tbl_saved w' conn = Some t);
  eng_release conn w t sp r w' :
    tbl_working w conn = Some t -> tbl_saved w conn = Some sp ->
    ev _ (RawSql (OnConn conn) RELEASE_SQL) w = (r, w') ->
    still w w' /\
    stmt w r (fun _ => tbl_working w' conn = Some t /\ tbl_saved w' conn = None);
  eng_rollback_to conn w r w' :
    ev _ (RawSql (OnConn conn) ROLLBACK_TO_SQL) w = (r, w') ->
    still w w' /\
    match tbl_saved w conn with
    | Some sp =>
        stmt w r (fun _ => tbl_working w' conn = Some sp /\ tbl_saved w' conn = Some sp)
    | None => exists e, r = Error e
    end;
}.

(** ** Programs that reply *)

Section Replies.
Context {E : Type -> Type} {W Conn App : Type} `{!Observe W Conn App}.
Context (ev : forall A, E A -> W -> A * W).

(** The postcondition of a store method: nothing is committed, and the method
    returns [Ok] with [Q], is cancelled, or fails on an unhealthy backend. *)
Definition replies {A Err : Type} (w : W) (Q : A -> W -> Prop)
    (o : outcome (result A Err)) (w' : W) : Prop :=
  quiet w w' /\ answers w (fun a => Q a w') o.

Lemma replies_ret {A Err : Type} (a : A) (Q : A -> W -> Prop) w :
  Q a w -> wp ev (Ret (Ok a)) (replies (Err := Err) w Q) w.
Proof. intros HQ. apply wp_ret. by split; [split|]. Qed.

Lemma replies_mono {A Err : Type} (p : prog E (result A Err)) (Q Q' : A -> W -> Prop) w :
  wp ev p (replies w Q) w -> (forall a w', Q a w' -> Q' a w') -> wp ev p (replies w Q') w.
Proof.
  intros Hp HQ. eapply wp_mono; [exact Hp|].
  intros [[a|e]|m|] w' [Hq Ha]; (split; [done|]); simpl in *; auto.
Qed.

Lemma replies_after {A Err : Type} (w w1 : W) (Q : A -> W -> Prop)
    (o : outcome (result A Err)) (w' : W) :
  quiet w w1 -> replies w1 Q o w' -> replies w Q o w'.
Proof.
  intros [Hc Hh] [[Hc2 Hh2] Ha]. split; [split; [congruence|auto]|].
  destruct o as [[a|e]|m|]; simpl in *; auto.
Qed.

Lemma replies_bind_try {A B Err : Type} (p : prog E (result A Err))
    (f : A -> prog E (result B Err)) (Q : A -> W -> Prop) (R : B -> W -> Prop) w :
  wp ev p (replies w Q) w ->
  (forall a w1, Q a w1 -> wp ev (f a) (replies w1 R) w1) ->
  wp ev (bind_try p f) (replies w R) w.
Proof.
  intros Hp Hf. apply wp_bind_try. eapply wp_mono; [exact Hp|].
  intros [[a|e]|m|] w1 [Hq Ha]; simpl in *; try (by split).
  eapply wp_mono; [by apply Hf|]. intros o w2. by apply replies_after.
Qed.
End Replies.

(** ** Statements under the driver's error conversions *)

Section Lift.
Context {W App : Type} `{!SqlObserve W App}.
Context (ev : forall A, sqlxE A -> W -> A * W).

Lemma still_quiet w w' : still w w' -> quiet (Conn := nat) w w'.
Proof. intros [Hc Hu]. split; [|done]. simpl. by rewrite Hc. Qed.

(** One awaited statement, whatever its error is mapped to. *)
Lemma await_replies {A Err : Type} (f : SqlxError -> Err)
    (e : sqlxE (result A SqlxError)) (Q : A -> W -> Prop) w :
  (forall r w', ev _ e w = (r, w') -> still w w' /\ stmt w r (fun a => Q a w')) ->
  wp ev (await_map_err f (trigger e)) (replies w Q) w.
Proof.
  intros He. apply wp_bind, wp_trigger; [by split; [split|]|].
  intros r w' [Hs Hr]%He. apply still_quiet in Hs.
  split; [by split|]. apply wp_ret. split; [done|]. by destruct r.
Qed.

Lemma execute_replies conn sql (Q : W -> Prop) w :
  (forall r w', ev _ (RawSql (OnConn conn) sql) w = (r, w') ->
                still w w' /\ stmt w r (fun _ => Q w')) ->
  wp ev (execute conn sql) (replies w (fun _ => Q)) w.
Proof.
  intros He. eapply replies_bind_try with (Q := fun _ => Q); [by apply await_replies|].
  intros [] w1 HQ. by apply replies_ret.
Qed.

Lemma or_backend_replies {A : Type} (p : prog sqlxE (result A SqlxError))
    (Q : A -> W -> Prop) w :
  wp ev p (replies w Q) w -> wp ev (or_backend p) (replies w Q) w.
Proof.
  intros Hp. apply wp_bind. eapply wp_mono; [exact Hp|].
  intros [[a|e]|m|] w' [Hq Ha]; simpl; [apply wp_ret..| |]; by split.
Qed.

Lemma now_sees_working w conn t w' :
  now_sees w conn t w' ->
  working w' conn = Some (db_of t) /\ saved w' conn = saved w conn.
Proof. intros [H1 H2]. simpl. by rewrite H1, H2. Qed.
End Lift.

(** ** Rows *)

Lemma db_of_insert_new {App : Type} (k : str * str) (row : Row) (t : Tables App) :
  db_of (with_rows (insert_new k row (rows t)) t) = record_key k (db_of t).
Proof.
  apply db_eq; [|done]. simpl. unfold insert_new. case_decide; [set_solver|].
  by rewrite dom_insert_L.
Qed.

Lemma dom_insert_all_new (c : str) (ids : list str) (row : Row) (m : Rows) :
  dom (insert_all_new c ids row m) = list_to_set (pair c <$> ids) ∪ dom m.
Proof.
  revert m; induction ids as [|id ids IH]; intros m; simpl; [set_solver|].
  rewrite IH. unfold insert_new. case_decide; [set_solver|].
  rewrite dom_insert_L. set_solver.
Qed.

Lemma db_of_insert_all_new {App : Type} (c : ConsumerId) (ids : list MessageId) (row : Row)
    (t : Tables App) :
  db_of (with_rows (insert_all_new (Consumer_Id.as_str c) (Message_Id.as_str <$> ids) row
                      (rows t)) t)
  = record_all c ids (db_of t).
Proof.
  apply db_eq; [|done]. simpl. rewrite dom_insert_all_new, <- list_fmap_compose. done.
Qed.

Lemma db_of_delete {App : Type} (k : str * str) (t : Tables App) :
  db_of (with_rows (delete k (rows t)) t) = unrecord_key k (db_of t).
Proof. apply db_eq; [|done]. simpl. by rewrite dom_delete_L. Qed.

(** The ids an insert reported back give each id the answer of the table
    before it. *)
Lemma claims_from_fresh_answers {App : Type} (c : ConsumerId) (ids : list MessageId)
    (fresh : list str) (d : Db App) :
  (forall x, x ∈ fresh <->
     x ∈ Message_Id.as_str <$> ids /\ (Consumer_Id.as_str c, x) ∉ recorded d) ->
  claims_from_fresh (Message_Id.as_str <$> ids) fresh
  = (fun id => claim_answer d (key c id)) <$> ids.
Proof.
  intros H. unfold claims_from_fresh. rewrite <- list_fmap_compose.
  apply list_fmap_ext. intros i id Hid%list_elem_of_lookup_2. simpl.
  unfold claim_answer, key. case_decide as Hin; rewrite elem_of_list_to_set, H in Hin.
  - by rewrite decide_False by tauto.
  - rewrite decide_True; [done|]. apply dec_stable. intros Hn. apply Hin.
    split; [|done]. apply list_elem_of_fmap. eauto.
Qed.

(** ** The store's laws, from the statements

    Each lemma gives one law of [InboxLaws] or [SavepointLaws] for a method
    that is the named statement followed by the crate's treatment of its
    answer. *)

Section Laws.
Context {W App : Type} `{!SqlObserve W App}.
Context (ev : forall A, sqlxE A -> W -> A * W).
Implicit Types (w : W) (d : Db App).

Lemma working_tables w conn d :
  working w conn = Some d -> exists t, tbl_working w conn = Some t /\ d = db_of t.
Proof. simpl. intros (t & ? & ->)%fmap_Some. eauto. Qed.

Lemma begin_law e w :
  opens ev e ->
  wp ev (or_backend (trigger e))
    (replies w (fun tx w' => working w' tx = Some (committed w) /\ saved w' tx = None)) w.
Proof.
  intros He. apply await_replies. intros r w' [Hs Hr]%He. split; [done|].
  destruct r as [tx|]; [|done]. destruct Hr as [H1 H2]. simpl. by rewrite H1, H2.
Qed.

Lemma commit_law `{!TxEngine ev} tx w d :
  working w tx = Some d ->
  wp ev (or_backend (trigger (TxCommit tx))) (fun o w' =>
    (committed w' = committed w \/ committed w' = d) /\ (healthy w -> healthy w') /\
    answers w (fun _ => committed w' = d) o) w.
Proof.
  intros (t & Ht & ->)%working_tables. apply wp_bind, wp_trigger; [by simpl; auto|].
  intros r w' He. destruct (eng_commit ev tx w t r w' Ht He) as (Hc & Hh & Hr). simpl.
  assert (committed w' = committed w \/ committed w' = db_of t) as Hc'.
  { simpl. destruct Hc as [-> | ->]; auto. }
  split; [done|]. apply wp_ret. split; [done|]. split; [done|].
  destruct r; simpl in *; [by rewrite Hr|done].
Qed.

Lemma rollback_law `{!TxEngine ev} tx w :
  wp ev (or_backend (trigger (TxRollback tx))) (replies w (fun _ _ => True)) w.
Proof. apply await_replies. intros r w' He. exact (eng_rollback ev tx w r w' He). Qed.

Lemma drop_law `{!TxEngine ev} tx w :
  wp ev (trigger (TxDrop tx)) (fun o w' =>
    quiet (Conn := nat) w w' /\ forall m, o <> Panicked m) w.
Proof.
  apply wp_trigger; [by split; [split|]|].
  intros r w' Hs%(eng_drop ev)%still_quiet. by split; split.
Qed.

(** A statement that does not touch the tables, its answer ignored. *)
Lemma leaves_tables_replies {A : Type} (e : sqlxE (result A SqlxError)) (conn : nat) w
    (t : Tables App) :
  leaves_tables ev conn e -> tbl_working w conn = Some t ->
  wp ev (_ <-? trigger e ;; Ret (Ok tt))
    (replies (Err := SqlxError) w (fun _ => now_sees w conn t)) w.
Proof.
  intros He Ht. apply wp_bind_try, wp_trigger; simpl; [by split; [split|]|].
  intros r w' H. destruct (He _ _ _ H) as [Hq%still_quiet Hr]. specialize (Hr t Ht).
  split; [by split|]. destruct r as [n|e']; [apply wp_ret|]; by split.
Qed.

(** What a claim of [k] leaves, in a transaction that sees [d]. *)
Definition claimed (w : W) (conn : nat) (k : str * str) d (c : Claim) (w' : W) : Prop :=
  c = claim_answer d k /\ working w' conn = Some (record_key k d) /\
  saved w' conn = saved w conn.

Lemma insert_claim_law (e : sqlxE (result Z SqlxError)) (f : SqlxError -> InboxError)
    (conn : nat) (k : str * str) w d :
  inserts_one ev conn k e -> working w conn = Some d ->
  wp ev (affected <-? await_map_err f (trigger e) ;;
         Ret (Ok (if (affected =? 1)%Z then Fresh else Duplicate)))
    (replies w (claimed w conn k d)) w.
Proof.
  intros He (t & Ht & ->)%working_tables.
  eapply replies_bind_try; [apply await_replies; intros r w' H; exact (He _ _ _ _ Ht H)|].
  intros n w1 (-> & row & Hs). apply replies_ret.
  apply now_sees_working in Hs. rewrite db_of_insert_new in Hs.
  split; [|done]. unfold claim_answer; simpl. by case_decide.
Qed.

(** What a claim of a batch leaves. *)
Definition claimed_all (w : W) (conn : nat) (c : ConsumerId) (ids : list MessageId) d
    (cs : list Claim) (w' : W) : Prop :=
  cs = (fun id => claim_answer d (key c id)) <$> ids /\
  working w' conn = Some (record_all c ids d) /\ saved w' conn = saved w conn.

Lemma returning_claim_many_law (e : sqlxE (result (list str) SqlxError))
    (f : SqlxError -> InboxError) (conn : nat) (c : ConsumerId) (ids : list MessageId) w d :
  inserts_returning ev conn (Consumer_Id.as_str c) (Message_Id.as_str <$> ids) e ->
  working w conn = Some d ->
  wp ev (fresh <-? await_map_err f (trigger e) ;;
         Ret (Ok (claims_from_fresh (Message_Id.as_str <$> ids) fresh)))
    (replies w (claimed_all w conn c ids d)) w.
Proof.
  intros He (t & Ht & ->)%working_tables.
  eapply replies_bind_try; [apply await_replies; intros r w' H; exact (He _ _ _ _ Ht H)|].
  intros fresh w1 (Hf & row & Hs). apply replies_ret.
  apply now_sees_working in Hs. rewrite db_of_insert_all_new in Hs.
  split; [|done]. by apply claims_from_fresh_answers.
Qed.

Lemma unclaim_law (e : sqlxE (result Z SqlxError)) (conn : nat) (k : str * str) w d :
  deletes_one ev conn k e -> working w conn = Some d ->
  wp ev (_ <-? or_backend (trigger e) ;; Ret (Ok tt))
    (replies w (fun _ w' => working w' conn = Some (unrecord_key k d) /\
                            saved w' conn = saved w conn)) w.
Proof.
  intros He (t & Ht & ->)%working_tables.
  eapply replies_bind_try; [apply await_replies; intros r w' H; exact (He _ _ _ _ Ht H)|].
  intros n w1 Hs. apply replies_ret. apply now_sees_working in Hs.
  by rewrite db_of_delete in Hs.
Qed.

Lemma known_duplicate_law (e : sqlxE (result bool SqlxError)) (k : str * str) w :
  tells_presence ev k e ->
  wp ev (known <-? or_backend (trigger e) ;; Ret (Ok known))
    (replies w (fun b _ => b = bool_decide (k ∈ recorded (committed w)))) w.
Proof.
  intros He. eapply replies_bind_try; [apply await_replies; intros r w' H; exact (He _ _ _ H)|].
  intros b w1 ->. by apply replies_ret.
Qed.
End Laws.

Section SavepointLaws.
Context {W App : Type} `{!SqlObserve W App}.
Context (ev : forall A, sqlxE A -> W -> A * W).
Context `{!SavepointEngine ev}.
Implicit Types (w : W) (d : Db App).

(** The transaction sees [d] and its savepoint restores [sp]. *)
Definition sees (conn : nat) (d : Db App) (sp : option (Db App)) (w' : W) : Prop :=
  working w' conn = Some d /\ saved w' conn = sp.

Lemma savepoint_law conn w d :
  working w conn = Some d -> saved w conn = None ->
  wp ev (execute conn SAVEPOINT_SQL) (replies w (fun _ => sees conn d (Some d))) w.
Proof.
  intros (t & Ht & ->)%working_tables Hs%fmap_None. apply execute_replies.
  intros r w' He. destruct (eng_savepoint conn w t r w' Ht Hs He) as [Hq Hr].
  split; [done|]. destruct r; [|done]. destruct Hr as [H1 H2].
  unfold sees; simpl. by rewrite H1, H2.
Qed.

Lemma release_and_savepoint_law conn w d sp :
  working w conn = Some d -> saved w conn = Some sp ->
  wp ev (execute conn RELEASE_AND_SAVEPOINT_SQL)
    (replies w (fun _ => sees conn d (Some d))) w.
Proof.
  intros (t & Ht & ->)%working_tables (ts & Hs & _)%fmap_Some. apply execute_replies.
  intros r w' He. destruct (eng_release_and_savepoint conn w t ts r w' Ht Hs He) as [Hq Hr].
  split; [done|]. destruct r; [|done]. destruct Hr as [H1 H2].
  unfold sees; simpl. by rewrite H1, H2.
Qed.

Lemma release_law conn w d sp :
  working w conn = Some d -> saved w conn = Some sp ->
  wp ev (execute conn RELEASE_SQL) (replies w (fun _ => sees conn d None)) w.
Proof.
  intros (t & Ht & ->)%working_tables (ts & Hs & _)%fmap_Some. apply execute_replies.
  intros r w' He. destruct (eng_release conn w t ts r w' Ht Hs He) as [Hq Hr].
  split; [done|]. destruct r; [|done]. destruct Hr as [H1 H2].
  unfold sees; simpl. by rewrite H1, H2.
Qed.

Lemma rollback_to_law conn w :
  wp ev (execute conn ROLLBACK_TO_SQL) (fun o w' =>
    quiet (Conn := nat) w w' /\
    match saved w conn with
    | Some sp => answers w (fun _ => sees conn sp (Some sp) w') o
    | None => (forall r, o <> Done (Ok r)) /\ (forall m, o <> Panicked m)
    end) w.
Proof.
  apply wp_bind_try, wp_bind, wp_trigger; simpl.
  { split; [by split|]. by destruct (tbl_saved w conn). }
  intros r w' He. destruct (eng_rollback_to conn w r w' He) as [Hq%still_quiet Hr].
  destruct (tbl_saved w conn) as [sp|]; simpl.
  - split; [done|]. apply wp_ret. destruct r as [[]|e]; simpl in *; [|done].
    apply wp_ret. split; [done|]. destruct Hr as [H1 H2].
    unfold sees; simpl. by rewrite H1, H2.
  - destruct Hr as [e ->]. split; [by split|]. apply wp_ret. by split.
Qed.
End SavepointLaws.

Lemma storable_ids (ids : list MessageId) :
  Forall message_ok ids -> Forall storable (Message_Id.as_str <$> ids).
Proof. rewrite Forall_fmap. intros H. eapply Forall_impl; [exact H|]. by intros id [_ ?]. Qed.

(** ** The purge loop *)

Lemma expired_spec (cutoff : Z) (m : Rows) (k : str * str) (row : Row) :
  expired cutoff m !! k = Some row <-> m !! k = Some row /\ (processed_at row < cutoff)%Z.
Proof. unfold expired. by rewrite map_lookup_filter_Some. Qed.

Lemma map_size_difference (m dead : Rows) :
  dead ⊆ m -> size (m ∖ dead) = (size m - size dead)%nat.
Proof.
  intros H%subseteq_dom. by rewrite <- !size_dom, dom_difference_L, size_difference.
Qed.

Section Purge.
Context {W App : Type} `{!SqlObserve W App}.
Context (ev : forall A, sqlxE A -> W -> A * W).
Context `{!TxEngine ev}.
#[local] Open Scope Z_scope.

Definition nrows (t : Tables App) : Z := Z.of_nat (size (rows t)).

(** From the tables [t0], exactly [total] rows are gone, every one of them
    older than [age] by now, and nothing else changed. *)
Definition purged (age : Z) (t0 : Tables App) (total : Z) (w : W) : Prop :=
  tapp (tbl_committed w) = tapp t0 /\
  rows (tbl_committed w) ⊆ rows t0 /\
  total = nrows t0 - nrows (tbl_committed w) /\
  (forall k row, rows t0 !! k = Some row -> rows (tbl_committed w) !! k = None ->
                 processed_at row + age < tbl_now w).

(** No row is left that was older than [age] at time [start]. *)
Definition none_older (age start : Z) (w : W) : Prop :=
  forall k row, rows (tbl_committed w) !! k = Some row -> start <= processed_at row + age.

Definition purge_post (age start : Z) (t0 : Tables App) (up : Prop)
    (o : outcome (result Z InboxError)) (w' : W) : Prop :=
  (up -> tbl_healthy w') /\
  exists total, purged age t0 total w' /\
  match o with
  | Done (Ok n) => n = total /\ none_older age start w'
  | Done (Error _) => ~ up
  | Panicked _ => False
  | Cancelled => True
  end.

Lemma purged_refl age w : purged age (tbl_committed w) 0 w.
Proof.
  split; [done|]. split; [done|]. split; [lia|]. intros k row H1 H2. congruence.
Qed.

Lemma purged_later age t0 total w w' :
  tbl_committed w' = tbl_committed w -> tbl_now w <= tbl_now w' ->
  purged age t0 total w -> purged age t0 total w'.
Proof.
  intros Hc Ht (H1 & H2 & H3 & H4). unfold purged. rewrite Hc.
  split; [done|]. split; [done|]. split; [done|].
  intros k row Hk Hn. specialize (H4 k row Hk Hn). lia.
Qed.

(** One statement that deletes [dead]. *)
Lemma purged_step (age : Z) (t0 : Tables App) (total : Z) (w w' : W) (cutoff : Z) (dead : Rows) :
  purged age t0 total w -> tbl_now w <= tbl_now w' -> cutoff + age <= tbl_now w' ->
  dead ⊆ expired cutoff (rows (tbl_committed w)) ->
  tbl_committed w' = with_rows (rows (tbl_committed w) ∖ dead) (tbl_committed w) ->
  purged age t0 (total + Z.of_nat (size dead)) w' /\
  nrows (tbl_committed w') = nrows (tbl_committed w) - Z.of_nat (size dead).
Proof.
  intros (H1 & H2 & H3 & H4) Ht Hcut Hdead Hc.
  assert (dead ⊆ rows (tbl_committed w)) as Hsub.
  { etrans; [exact Hdead|]. apply map_filter_subseteq. }
  assert (nrows (tbl_committed w') = nrows (tbl_committed w) - Z.of_nat (size dead)) as Hn.
  { rewrite Hc. unfold nrows; simpl. pose proof (map_size_difference _ _ Hsub) as Hd.
    pose proof (map_subseteq_size _ _ Hsub). lia. }
  split; [|done]. unfold purged. rewrite Hn, Hc; simpl. split; [done|].
  split; [etrans; [apply map_subseteq_difference_l; reflexivity|done]|]. split; [lia|].
  intros k row Hk Hk'. apply lookup_difference_None in Hk' as [Hk'|[row' Hd]].
  - specialize (H4 k row Hk Hk'). lia.
  - pose proof (lookup_weaken _ _ _ _ Hd Hdead) as [Hr Hlt]%expired_spec.
    pose proof (lookup_weaken _ _ _ _ Hr H2). simplify_eq. lia.
Qed.

(** A statement that deleted less than its limit deleted everything expired. *)
Lemma under_limit_none_older (age start : Z) (w' : W) (cutoff : Z) (dead m : Rows) :
  dead ⊆ expired cutoff m -> size dead = size (expired cutoff m) ->
  rows (tbl_committed w') = m ∖ dead -> start <= cutoff + age ->
  none_older age start w'.
Proof.
  intros Hsub Hsize Hrows Hcut k row Hk. rewrite Hrows in Hk.
  apply lookup_difference_Some in Hk as [Hk Hd].
  destruct (Z.lt_ge_cases (processed_at row) cutoff) as [Hlt|?]; [|lia].
  assert (dead = expired cutoff m) as -> by (apply map_subseteq_size_eq; [done|lia]).
  rewrite (proj2 (expired_spec cutoff m k row)) in Hd by done. done.
Qed.

Lemma deletes_expired_mono (P Q : W -> W -> Z -> Prop) (n : Z)
    (e : sqlxE (result Z SqlxError)) :
  (forall w w' c, tbl_now w <= tbl_now w' -> P w w' c -> Q w w' c) ->
  deletes_expired ev P n e -> deletes_expired ev Q n e.
Proof.
  intros HPQ He w r w' H. pose proof (eng_time ev e w r w' H). destruct (He w r w' H) as [Hh [Hl|Hr]]; (split; [done|]).
  - by left.
  - right. destruct Hr as (c & dead & HP & ?). exists c, dead. split; [by apply HPQ|done].
Qed.

(** Enough statements for every row end the loop: with it, [purge] removes
    only rows older than [age], and when it returns none is left that was
    older than [age] at [start]. *)
Lemma purge_loop_wp (age start from batch : Z) (t0 : Tables App) (up : Prop)
    (e : sqlxE (result Z SqlxError)) :
  1 <= batch ->
  deletes_expired ev (fun w w' c => from <= tbl_now w -> start <= c + age <= tbl_now w')
    batch e ->
  forall fuel total w,
  from <= tbl_now w -> (up -> tbl_healthy w) -> purged age t0 total w ->
  nrows (tbl_committed w) < Z.of_nat fuel * batch ->
  wp ev (purge_loop fuel (trigger e) batch total) (purge_post age start t0 up) w.
Proof.
  intros Hb Hdel fuel; induction fuel as [|fuel IH]; intros total w Hfrom Hup Hp Hn; simpl.
  { unfold nrows in Hn. lia. }
  apply wp_bind_try, wp_bind, wp_trigger; simpl; [by split; [|exists total]|].
  intros r w' He. pose proof (eng_time ev e w r w' He) as Ht.
  destruct (Hdel w r w' He) as [Hh [(Hc & Hu & Hr)|(cutoff & dead & Hcut & Hsub & Hsz & Hc & Hr)]].
  - pose proof (purged_later _ _ _ _ _ Hc Ht Hp) as Hp'.
    destruct r as [a|err]; [done|].
    split; [by split; [auto|exists total]|]. apply wp_ret.
    split; [by auto|]. exists total. split; [done|]. tauto.
  - specialize (Hcut Hfrom).
    destruct (purged_step age t0 total w w' cutoff dead) as [Hp' Hn']; try done; [lia|].
    split; [split; [by auto|eauto]|]. apply wp_ret.
    destruct r as [n|err]; simpl in Hr |- *;
      [|split; [by auto|eexists; split; [exact Hp'|simpl; tauto]]].
    subst n. destruct (Z.ltb_spec (Z.of_nat (size dead)) batch) as [Hlt|Hge].
    + apply wp_ret. split; [by auto|]. eexists; split; [exact Hp'|]. split; [done|].
      eapply under_limit_none_older; [exact Hsub|lia|by rewrite Hc|lia].
    + apply IH; [lia|auto|exact Hp'|lia].
Qed.

(** The same, for a statement whose cutoff is [age] before the database's
    clock. *)
Lemma purge_clock_wp (age : Z) (policy : RetentionPolicy) (e : sqlxE (result Z SqlxError))
    (fuel : nat) (w : W) :
  policy_wf policy ->
  deletes_expired ev (fun w w' c => tbl_now w <= c + age <= tbl_now w') (batch_size policy) e ->
  nrows (tbl_committed w) < Z.of_nat fuel * batch_size policy ->
  wp ev (purge_loop fuel (trigger e) (batch_size policy) 0)
    (purge_post age (tbl_now w) (tbl_committed w) (tbl_healthy w)) w.
Proof.
  intros [_ Hb] He Hn.
  apply purge_loop_wp with (from := tbl_now w); [lia| |lia|done|apply purged_refl|done].
  eapply deletes_expired_mono; [|exact He]. simpl. lia.
Qed.
End Purge.
