(* ===== verification/Postgres.v ===== *)
(** * The PostgreSQL backend

    [src/src/postgres.rs]: the SQL texts, the lock timeout, the mapping of
    contention errors, and every method of [InboxStore] and [Savepoints] as a
    program over the driver's effects.  [PgEngine] states what is assumed of
    PostgreSQL for these texts; under it [PgInbox] keeps the contract of
    [Store.v]. *)

From S2P Require Import Prelude Text Errors Durations Types Store Sqlx Sql.
From Stdlib Require Import SpecFloat.

(** The pool is part of the world the effects run in. *)
Inductive PgInbox : Type := pgInbox.

(** ** Constants *)

Definition LOCK_NOT_AVAILABLE : str := lit "55P03".
Definition DEADLOCK_DETECTED : str := lit "40P01".

Definition dquote : string := String (Ascii.ascii_of_nat 34) EmptyString.

Definition UNCLAIM_SQL : string :=
  "DELETE FROM inbox_messages WHERE consumer_id = $1 AND message_id = $2".

Definition CLAIM_SQL : string :=
  "INSERT INTO inbox_messages (consumer_id, message_id, processed_at) " +:+
  "VALUES ($1, $2, now()) " +:+
  "ON CONFLICT (consumer_id, message_id) DO NOTHING".

Definition CLAIM_MANY_SQL : string :=
  "INSERT INTO inbox_messages (consumer_id, message_id, processed_at) " +:+
  "SELECT $1, id, now() FROM unnest($2::text[]) AS t(id) " +:+
  "ORDER BY id COLLATE " +:+ dquote +:+ "C" +:+ dquote +:+ " " +:+
  "ON CONFLICT (consumer_id, message_id) DO NOTHING " +:+
  "RETURNING message_id".

Definition PURGE_SQL : string :=
  "DELETE FROM inbox_messages " +:+
  "WHERE ctid IN ( " +:+
  "SELECT ctid FROM inbox_messages " +:+
  "WHERE processed_at < now() - make_interval(secs => $1) " +:+
  "ORDER BY processed_at LIMIT $2 " +:+
  ")".

Definition SET_LOCK_TIMEOUT_SQL : string := "SELECT set_config('lock_timeout', $1, true)".

Definition KNOWN_DUPLICATE_SQL : string :=
  "SELECT EXISTS ( " +:+
  "SELECT 1 FROM inbox_messages " +:+
  "WHERE consumer_id = $1 AND message_id = $2 " +:+
  ")".

(** ** Helpers *)

Definition set_lock_timeout (conn : nat) (timeout : option Duration)
  : prog sqlxE (result unit SqlxError) :=
  match timeout with
  | Some timeout =>
      _ <-? trigger (Execute (OnConn conn) SET_LOCK_TIMEOUT_SQL
                       [VText (pg_lock_timeout timeout)]) ;;
      Ret (Ok tt)
  | None => Ret (Ok tt)
  end.

Definition claim_error (e : SqlxError) : InboxError :=
  match e with
  | Database db =>
      if decide (db_code db = Some LOCK_NOT_AVAILABLE \/
                 db_code db = Some DEADLOCK_DETECTED)
      then Contended
      else from_sqlx_error e
  | _ => from_sqlx_error e
  end.

(** [x as f64] on an integer, and [Duration::as_secs_f64]. *)
Definition as_f64 (z : Z) : spec_float := binary_normalize 53 1024 z 0 false.

Definition as_secs_f64 (d : Duration) : spec_float :=
  SFadd 53 1024 (as_f64 (secs d)) (SFdiv 53 1024 (as_f64 (nanos d)) (as_f64 1000000000)).

(** ** [impl PgInbox] *)

Definition MIGRATOR : string := "migrations/postgres".

Definition migrate (self : PgInbox) : prog sqlxE (result unit InboxError) :=
  run_migrator MIGRATOR.

(** ** [impl InboxStore for PgInbox] *)

Definition begin (self : PgInbox) : prog sqlxE (result nat InboxError) :=
  or_backend (trigger PoolBegin).

Definition commit (self : PgInbox) (tx : nat) : prog sqlxE (result unit InboxError) :=
  or_backend (trigger (TxCommit tx)).

Definition rollback (self : PgInbox) (tx : nat) : prog sqlxE (result unit InboxError) :=
  or_backend (trigger (TxRollback tx)).

Definition claim (self : PgInbox) (conn : nat) (request : ClaimRequest)
  : prog sqlxE (result Claim InboxError) :=
  _ <-? or_backend (set_lock_timeout conn (req_lock_timeout request)) ;;
  affected <-? await_map_err claim_error
    (trigger (Execute (OnConn conn) CLAIM_SQL
       [VText (Consumer_Id.as_str (req_consumer request));
        VText (Message_Id.as_str (req_id request))])) ;;
  Ret (Ok (if (affected =? 1)%Z then Fresh else Duplicate)).

Definition claim_many (self : PgInbox) (conn : nat) (batch : ClaimBatch)
  : prog sqlxE (result (list Claim) InboxError) :=
  _ <-? or_backend (set_lock_timeout conn (batch_lock_timeout batch)) ;;
  let ids := Message_Id.as_str <$> batch_ids batch in
  fresh <-? await_map_err claim_error
    (trigger (FetchAllStrings (OnConn conn) CLAIM_MANY_SQL
       [VText (Consumer_Id.as_str (batch_consumer batch)); VTextArray ids])) ;;
  Ret (Ok (claims_from_fresh ids fresh)).

Definition is_known_duplicate (self : PgInbox) (consumer : ConsumerId) (id : MessageId)
  : prog sqlxE (result bool InboxError) :=
  known <-? or_backend
    (trigger (FetchOneBool OnPool KNOWN_DUPLICATE_SQL
       [VText (Consumer_Id.as_str consumer); VText (Message_Id.as_str id)])) ;;
  Ret (Ok known).

Definition purge (self : PgInbox) (fuel : nat) (policy : RetentionPolicy)
  : prog sqlxE (result Z InboxError) :=
  let max_age := as_secs_f64 (max_age policy) in
  let batch := batch_size policy in
  purge_loop fuel (trigger (Execute OnPool PURGE_SQL [VDouble max_age; VInt batch])) batch 0.

#[export] Instance pg_store : InboxStore PgInbox sqlxE nat nat := {|
  Store.begin := begin;
  Store.commit := commit;
  Store.rollback := rollback;
  Store.claim := claim;
  Store.claim_many := claim_many;
  Store.is_known_duplicate := is_known_duplicate;
  Store.purge := purge;
|}.

#[export] Instance pg_lock_timeouts : LockTimeout PgInbox sqlxE nat nat := {}.

(** ** [impl Savepoints for PgInbox] *)

Definition unclaim (self : PgInbox) (conn : nat) (consumer : ConsumerId) (id : MessageId)
  : prog sqlxE (result unit InboxError) :=
  _ <-? or_backend
    (trigger (Execute (OnConn conn) UNCLAIM_SQL
       [VText (Consumer_Id.as_str consumer); VText (Message_Id.as_str id)])) ;;
  Ret (Ok tt).

#[export] Instance pg_savepoints : Savepoints PgInbox sqlxE nat nat := {|
  Store.savepoint _ conn := execute conn SAVEPOINT_SQL;
  Store.release_and_savepoint _ conn := execute conn RELEASE_AND_SAVEPOINT_SQL;
  Store.release _ conn := execute conn RELEASE_SQL;
  Store.rollback_to _ conn := execute conn ROLLBACK_TO_SQL;
  Store.unclaim := unclaim;
|}.

(** ** What is assumed of PostgreSQL *)

(** [make_interval] gives the length, in nanoseconds, of
    [make_interval(secs => x)]. *)
Class PgEngine {W App : Type} `{!SqlObserve W App}
    (ev : forall A, sqlxE A -> W -> A * W) (make_interval : spec_float -> Z) : Prop := {
  pg_tx :: TxEngine ev;
  pg_save :: SavepointEngine ev;
  pg_migrate : migrates ev MIGRATOR;
  pg_begin : opens ev PoolBegin;
  pg_set_lock_timeout conn ms :
    (1 <= ms <= pg_lock_timeout_limit)%Z ->
    leaves_tables ev conn
      (Execute (OnConn conn) SET_LOCK_TIMEOUT_SQL [VText (fmt_Z ms ++ lit "ms")]);
  pg_claim conn c i :
    storable c -> storable i ->
    inserts_one ev conn (c, i) (Execute (OnConn conn) CLAIM_SQL [VText c; VText i]);
  pg_claim_many conn c ids :
    storable c -> Forall storable ids ->
    inserts_returning ev conn c ids
      (FetchAllStrings (OnConn conn) CLAIM_MANY_SQL [VText c; VTextArray ids]);
  pg_unclaim conn c i :
    storable c -> storable i ->
    deletes_one ev conn (c, i) (Execute (OnConn conn) UNCLAIM_SQL [VText c; VText i]);
  pg_known_duplicate c i :
    storable c -> storable i ->
    tells_presence ev (c, i) (FetchOneBool OnPool KNOWN_DUPLICATE_SQL [VText c; VText i]);
  pg_purge age n :
    (0 <= make_interval age <= retention_limit)%Z -> (0 <= n <= u32_max)%Z ->
    deletes_expired ev
      (fun w w' cutoff => tbl_now w <= cutoff + make_interval age <= tbl_now w')%Z n
      (Execute OnPool PURGE_SQL [VDouble age; VInt n]);
}.

(** ** The contract *)

Section PgLaws.
Context {W App : Type} `{!SqlObserve W App}.
Context (ev : forall A, sqlxE A -> W -> A * W) (make_interval : spec_float -> Z).
Context `{!PgEngine ev make_interval}.
Implicit Types (w : W) (d : Db App).

Lemma pg_set_lock_timeout_replies conn timeout w d :
  lock_timeout_ok timeout -> working w conn = Some d ->
  wp ev (or_backend (set_lock_timeout conn timeout))
    (replies w (fun _ w' => working w' conn = Some d /\ saved w' conn = saved w conn)) w.
Proof.
  intros Hok (t & Ht & ->)%working_tables. apply or_backend_replies.
  eapply replies_mono with (Q := fun _ => now_sees w conn t);
    [|intros [] w'; apply now_sees_working].
  destruct timeout as [timeout|]; simpl; [|by apply replies_ret].
  apply (leaves_tables_replies ev); [|done].
  apply pg_set_lock_timeout. unfold pg_lock_timeout_ms in *. simpl in Hok.
  unfold pg_lock_timeout_ms in Hok. lia.
Qed.

#[export] Instance pg_laws : InboxLaws PgInbox ev.
Proof.
  constructor; simpl.
  - intros s w. apply (begin_law ev), pg_begin.
  - intros s tx w d. apply (commit_law ev).
  - intros s tx w. apply (rollback_law ev).
  - intros tx w. apply (drop_law ev).
  - intros s conn r w d Hw ([_ Hc] & [_ Hi] & Ht).
    eapply replies_bind_try; [by apply pg_set_lock_timeout_replies|].
    intros [] w1 [Hw1 Hs1]. eapply replies_mono.
    + by eapply insert_claim_law; [apply pg_claim|].
    + intros a w' (? & ? & Hs'). split_and!; [done|done|by etrans].
  - intros s conn b w d Hw ([_ Hc] & Hids & _ & Ht).
    eapply replies_bind_try; [by apply pg_set_lock_timeout_replies|].
    intros [] w1 [Hw1 Hs1]. eapply replies_mono.
    + eapply returning_claim_many_law; [apply pg_claim_many|]; [done| |done].
      apply storable_ids, Hids.
    + intros a w' (? & ? & Hs'). split_and!; [done|done|by etrans].
  - intros s c id w [_ Hc] [_ Hi]. eapply replies_mono.
    + by eapply known_duplicate_law, pg_known_duplicate.
    + intros b w' ->. apply bool_decide_eq_true.
Qed.

#[export] Instance pg_savepoint_laws : SavepointLaws PgInbox ev.
Proof.
  constructor; simpl.
  - intros s. apply (savepoint_law ev).
  - intros s. apply (release_and_savepoint_law ev).
  - intros s. apply (release_law ev).
  - intros s. apply (rollback_to_law ev).
  - intros s conn c id w d Hw [_ Hc] [_ Hi]. by eapply unclaim_law; [apply pg_unclaim|].
Qed.

(** C18 (purge, PostgreSQL). Given statements enough for the rows of the table,
    [purge] ends; however it ends, it removed only rows that are older than the
    interval of [max_age] and touched nothing else; when it returns a number,
    that is the number of rows removed, and no row that was older than the
    interval when it started is left. *)
Theorem pg_purge_sound (s : PgInbox) (fuel : nat) (policy : RetentionPolicy) (w : W) :
  policy_wf policy ->
  (0 <= make_interval (as_secs_f64 (max_age policy)) <= retention_limit)%Z ->
  (nrows (tbl_committed w) < Z.of_nat fuel * batch_size policy)%Z ->
  wp ev (purge s fuel policy)
    (purge_post (make_interval (as_secs_f64 (max_age policy))) (tbl_now w)
       (tbl_committed w) (tbl_healthy w)) w.
Proof.
  intros Hp Hage Hn. apply (purge_clock_wp ev); [done| |done].
  apply pg_purge; [done|]. destruct Hp. lia.
Qed.

(** C8 (PostgreSQL keeps the contract). Over PostgreSQL as described by
    [PgEngine], the statements and the treatment of their answers in [PgInbox]
    implement the contract that [Consumer] is verified against. *)
Theorem pg_inbox_lawful : InboxLaws PgInbox ev /\ SavepointLaws PgInbox ev.
Proof. split; apply _. Qed.
End PgLaws.
