(* ===== verification/Aborted.v ===== *)
(** * Handlers that ignore a failed statement

    PostgreSQL aborts a transaction in which a statement fails: later statements
    fail too, and COMMIT rolls back and still succeeds.  [Consumer::process] of
    [src/src/consumer.rs] commits whenever the handler returns [Ok], and
    [PgInbox::commit] of [src/src/postgres.rs] passes on the answer of COMMIT.
    Here is what that means for a handler that ignores the failure of one of its
    statements. *)

From S2P Require Import Prelude Text Errors Durations Types Store MemStore Consumer Process Sqlx Sql Postgres.

(** The transaction on a connection is open but aborted. *)
Class AbortObserve (W : Type) := aborted : W -> nat -> Prop.

(** A statement PostgreSQL refuses aborts the transaction it runs in, if the
    server is otherwise well; COMMIT of an aborted transaction commits nothing and
    reports no error. *)
Class PgAborts {W App : Type} `{!SqlObserve W App, !AbortObserve W}
    (ev : forall A, sqlxE A -> W -> A * W) : Prop := {
  pg_statement_aborts conn sql args w t e w' :
    tbl_healthy w -> tbl_working w conn = Some t ->
    ev _ (Execute (OnConn conn) sql args) w = (Error e, w') ->
    still w w' /\ aborted w' conn;
  pg_commit_aborted conn w r w' :
    aborted w conn -> ev _ (TxCommit conn) w = (r, w') ->
    still w w' /\ (tbl_healthy w -> r = Ok tt);
}.

Section Aborted.
Context {W App : Type} `{!SqlObserve W App, !AbortObserve W}.
Context (ev : forall A, sqlxE A -> W -> A * W) (make_interval : SpecFloat.spec_float -> Z).
Context `{!PgEngine ev make_interval, !PgAborts ev}.
Context {T : Type}.
Implicit Types (w : W) (handler : nat -> prog sqlxE (result T HandlerError)).

(** On a healthy server the handler returns [v] in a transaction that is aborted. *)
Definition ignores_failure handler (v : T) : Prop :=
  forall conn w t, tbl_healthy w -> tbl_working w conn = Some t ->
  wp ev (handler conn) (fun o w' => still w w' /\
    (o = Cancelled \/ o = Done (Ok v) /\ aborted w' conn)) w.

(** Such is a handler that runs a statement PostgreSQL always refuses and does not
    look at the answer. *)
Lemma unchecked_ignores_failure (sql : string) (args : list Value) (v : T) :
  (forall conn w, is_ok (fst (ev _ (Execute (OnConn conn) sql args) w)) = false) ->
  ignores_failure
    (fun conn => _ <- trigger (Execute (OnConn conn) sql args) ;; Ret (Ok v)) v.
Proof.
  intros Hbad conn w t Hup Ht. apply wp_bind, wp_trigger; simpl; [by split; [split|left]|].
  intros r w' Hev. specialize (Hbad conn w). rewrite Hev in Hbad. destruct r as [|e]; [done|].
  destruct (pg_statement_aborts conn sql args w t e w' Hup Ht Hev) as [Hs Ha].
  split; [by split; [|left]|]. apply wp_ret. split; [done|]. by right.
Qed.

(** C39 (a swallowed failure loses the message). On a healthy PostgreSQL, when the
    handler of a new message lets a statement fail and returns [Ok] all the same,
    [process] returns [Processed], as for a success, but has committed nothing:
    neither the handler's effects nor the record of the message, which the caller
    will acknowledge. *)
Theorem swallowed_failure_loses_message (inbox : PgInbox) (c : ConsumerId) (m : MessageId)
    handler (v : T) w w' o :
  consumer_ok c -> message_ok m -> ignores_failure handler v ->
  tbl_healthy w -> key c m ∉ recorded (committed w) ->
  exec ev (Impl.process (Impl.consumer inbox c) m handler) w = (o, w') ->
  o = Done (Ok (Processed v)) /\ committed w' = committed w /\
  key c m ∉ recorded (committed w').
Proof.
  intros Hc Hm Hh Hup Hnew Hx.
  assert (wp ev (Impl.process (Impl.consumer inbox c) m handler) (fun o w' =>
    committed w' = committed w /\ (o = Cancelled \/ o = Done (Ok (Processed v)))) w) as Hwp.
  { apply wp_bind_try. eapply wp_mono; [apply (law_begin (S := PgInbox) (ev := ev))|].
    intros [[tx|e]|x|] w1 [[Hc1 Hu1] Ha]; simpl in Ha |- *; [|tauto|done|by auto].
    destruct Ha as [Hw1 _]. apply (wp_bind_try_owning (S := PgInbox) ev).
    eapply wp_mono; [exact (law_claim (S := PgInbox) (ev := ev) inbox tx
      (Claim_Request.new c m) w1 _ Hw1 (conj Hc (conj Hm I)))|].
    intros [[a|e]|x|] w2 [[Hc2 Hu2] Ha]; simpl in Ha |- *; [|by destruct (Ha (Hu1 Hup))|done|].
    2: { intros w3 [Hc3 _]. split; [simpl in *; congruence|by left]. }
    destruct Ha as (-> & Hw2 & _). unfold claim_answer. rewrite decide_False by done.
    apply working_tables in Hw2 as (t & Ht & _). apply wp_bind, (wp_owning (S := PgInbox) ev).
    eapply wp_mono; [apply (Hh tx w2 t); [exact (Hu2 (Hu1 Hup))|done]|].
    intros o' w3 [[Hc3 Hu3]%still_quiet [->|[-> Hab]]].
    { intros w4 [Hc4 _]. split; [simpl in *; congruence|by left]. }
    apply wp_bind_try, wp_bind, wp_trigger; simpl; [split; [simpl in *; congruence|by left]|].
    intros r w4 Hev. destruct (pg_commit_aborted tx w3 r w4 Hab Hev) as [[Hc4 _]%still_quiet Hr].
    rewrite (Hr (Hu3 (Hu2 (Hu1 Hup)))). assert (committed (Conn := nat) w4 = committed w) as Hw4
      by (simpl in *; congruence).
    split; [by split; [|left]|]. apply wp_ret, wp_ret. split; [done|by right]. }
  destruct (wp_exec ev _ _ _ _ _ Hwp Hx) as [[Hcm [->|Ho]] Hnc]; [done|].
  rewrite Hcm. done.
Qed.
End Aborted.
