(* ===== verification/Sqlite.v ===== *)
(** * The SQLite backend

    [src/src/sqlite.rs]: the SQL texts, the mapping of contention errors by
    SQLite's primary result code, and every method of [InboxStore] and
    [Savepoints].  SQLite takes its timestamps from the caller's clock and
    computes the purge cutoff with [chrono], which is a parameter
    ([Chrono], [ChronoLaws]); [SqliteEngine] states what is assumed of
    SQLite. *)

From S2P Require Import Prelude Text Errors Durations Types Store Sqlx Sql.
#[local] Open Scope Z_scope.

(** The pool is part of the world the effects run in. *)
Inductive SqliteInbox : Type := sqliteInbox.

(** ** Constants *)

Definition UNCLAIM_SQL : string :=
  "DELETE FROM inbox_messages WHERE consumer_id = ? AND message_id = ?".

Definition CLAIM_SQL : string :=
  "INSERT INTO inbox_messages (consumer_id, message_id, processed_at) " +:+
  "VALUES (?, ?, ?) " +:+
  "ON CONFLICT (consumer_id, message_id) DO NOTHING".

Definition CLAIM_MANY_SQL : string :=
  "INSERT INTO inbox_messages (consumer_id, message_id, processed_at) " +:+
  "SELECT ?, value, ? FROM json_each(?) WHERE true " +:+
  "ON CONFLICT (consumer_id, message_id) DO NOTHING " +:+
  "RETURNING message_id".

Definition KNOWN_DUPLICATE_SQL : string :=
  "SELECT EXISTS ( " +:+
  "SELECT 1 FROM inbox_messages " +:+
  "WHERE consumer_id = ? AND message_id = ? " +:+
  ")".

Definition PURGE_SQL : string :=
  "DELETE FROM inbox_messages " +:+
  "WHERE rowid IN ( " +:+
  "SELECT rowid FROM inbox_messages " +:+
  "WHERE processed_at < ? " +:+
  "ORDER BY processed_at LIMIT ? " +:+
  ")".

(** ** Contention errors *)

(** The digits of [str::parse::<i32>], after the sign. *)
Fixpoint parse_digits (acc : Z) (s : str) : option Z :=
  match s with
  | [] => Some acc
  | c :: s =>
      if (48 <=? c) && (c <=? 57) then parse_digits (acc * 10 + (c - 48)) s else None
  end.

Definition i32_min : Z := - 2 ^ 31.
Definition i32_max : Z := 2 ^ 31 - 1.

(** [str::parse::<i32>]: an optional sign, at least one digit, in range. *)
Definition parse_i32 (s : str) : option Z :=
  let '(negative, digits) :=
    match s with
    | c :: rest =>
        if c =? 45 then (true, rest) else if c =? 43 then (false, rest) else (false, s)
    | [] => (false, s)
    end in
  match digits with
  | [] => None
  | _ =>
      n ← parse_digits 0 digits;
      let v := if negative : bool then - n else n in
      if (i32_min <=? v) && (v <=? i32_max) then Some v else None
  end.

Definition claim_error (e : SqlxError) : InboxError :=
  match e with
  | Database db =>
      match db_code db ≫= parse_i32 with
      | Some code =>
          if (Z.land code 0xff =? 5) || (Z.land code 0xff =? 6)
          then Contended else from_sqlx_error e
      | None => from_sqlx_error e
      end
  | _ => from_sqlx_error e
  end.

(** ** [chrono] *)

(** [chrono::Duration::from_std], [None] for its out-of-range error, and
    [DateTime<Utc> - Duration], [None] for its panic; in nanoseconds. *)
Class Chrono := {
  from_std : Duration -> option Z;
  sub_signed : Z -> Z -> option Z;
}.

(** The first instant of [chrono]'s calendar lies before this one, 262000 years
    before the epoch. *)
Definition chrono_min : Z := - (262000 * 365 * 86400 * 1000000000).

Class ChronoLaws `{!Chrono} : Prop := {
  from_std_ok d : 0 <= as_nanos d <= retention_limit -> from_std d = Some (as_nanos d);
  sub_signed_ok t d : 0 <= d -> chrono_min <= t - d -> sub_signed t d = Some (t - d);
}.

(** [chrono]'s [OutOfRangeError], boxed. *)
Definition out_of_range_error : InboxError := Backend (EOpaque 1).

(** ** [impl SqliteInbox] *)

Definition MIGRATOR : string := "migrations/sqlite".

Definition migrate (self : SqliteInbox) : prog sqlxE (result unit InboxError) :=
  run_migrator MIGRATOR.

(** ** [impl InboxStore for SqliteInbox] *)

Definition begin (self : SqliteInbox) : prog sqlxE (result nat InboxError) :=
  or_backend (trigger PoolBegin).

Definition commit (self : SqliteInbox) (tx : nat) : prog sqlxE (result unit InboxError) :=
  or_backend (trigger (TxCommit tx)).

Definition rollback (self : SqliteInbox) (tx : nat) : prog sqlxE (result unit InboxError) :=
  or_backend (trigger (TxRollback tx)).

Definition claim (self : SqliteInbox) (conn : nat) (request : ClaimRequest)
  : prog sqlxE (result Claim InboxError) :=
  now <- trigger UtcNow ;;
  affected <-? await_map_err claim_error
    (trigger (Execute (OnConn conn) CLAIM_SQL
       [VText (Consumer_Id.as_str (req_consumer request));
        VText (Message_Id.as_str (req_id request)); VTime now])) ;;
  Ret (Ok (if affected =? 1 then Fresh else Duplicate)).

Definition claim_many (self : SqliteInbox) (conn : nat) (batch : ClaimBatch)
  : prog sqlxE (result (list Claim) InboxError) :=
  let ids := Message_Id.as_str <$> batch_ids batch in
  now <- trigger UtcNow ;;
  fresh <-? await_map_err claim_error
    (trigger (FetchAllStrings (OnConn conn) CLAIM_MANY_SQL
       [VText (Consumer_Id.as_str (batch_consumer batch)); VTime now; VJson ids])) ;;
  Ret (Ok (claims_from_fresh ids fresh)).

Definition is_known_duplicate (self : SqliteInbox) (consumer : ConsumerId) (id : MessageId)
  : prog sqlxE (result bool InboxError) :=
  known <-? or_backend
    (trigger (FetchOneBool OnPool KNOWN_DUPLICATE_SQL
       [VText (Consumer_Id.as_str consumer); VText (Message_Id.as_str id)])) ;;
  Ret (Ok known).

Definition purge `{!Chrono} (self : SqliteInbox) (fuel : nat) (policy : RetentionPolicy)
  : prog sqlxE (result Z InboxError) :=
  now <- trigger UtcNow ;;
  match from_std (max_age policy) with
  | None => Ret (Error out_of_range_error)
  | Some age =>
      match sub_signed now age with
      | None => Panic "`DateTime - TimeDelta` overflowed"
      | Some cutoff =>
          let batch := batch_size policy in
          purge_loop fuel (trigger (Execute OnPool PURGE_SQL [VTime cutoff; VInt batch]))
            batch 0
      end
  end.

#[export] Instance sqlite_store `{!Chrono} : InboxStore SqliteInbox sqlxE nat nat := {|
  Store.begin := begin;
  Store.commit := commit;
  Store.rollback := rollback;
  Store.claim := claim;
  Store.claim_many := claim_many;
  Store.is_known_duplicate := is_known_duplicate;
  Store.purge := purge;
|}.

(** ** [impl Savepoints for SqliteInbox] *)

Definition unclaim (self : SqliteInbox) (conn : nat) (consumer : ConsumerId) (id : MessageId)
  : prog sqlxE (result unit InboxError) :=
  _ <-? or_backend
    (trigger (Execute (OnConn conn) UNCLAIM_SQL
       [VText (Consumer_Id.as_str consumer); VText (Message_Id.as_str id)])) ;;
  Ret (Ok tt).

#[export] Instance sqlite_savepoints `{!Chrono} : Savepoints SqliteInbox sqlxE nat nat := {|
  Store.savepoint _ conn := execute conn SAVEPOINT_SQL;
  Store.release_and_savepoint _ conn := execute conn RELEASE_AND_SAVEPOINT_SQL;
  Store.release _ conn := execute conn RELEASE_SQL;
  Store.rollback_to _ conn := execute conn ROLLBACK_TO_SQL;
  Store.unclaim := unclaim;
|}.

(** ** What is assumed of SQLite *)

Class SqliteEngine {W App : Type} `{!SqlObserve W App}
    (ev : forall A, sqlxE A -> W -> A * W) : Prop := {
  sqlite_tx :: TxEngine ev;
  sqlite_save :: SavepointEngine ev;
  sqlite_migrate : migrates ev MIGRATOR;
  sqlite_begin : opens ev PoolBegin;
  sqlite_claim conn c i now :
    storable c -> storable i ->
    inserts_one ev conn (c, i)
      (Execute (OnConn conn) CLAIM_SQL [VText c; VText i; VTime now]);
  sqlite_claim_many conn c ids now :
    storable c -> Forall storable ids ->
    inserts_returning ev conn c ids
      (FetchAllStrings (OnConn conn) CLAIM_MANY_SQL [VText c; VTime now; VJson ids]);
  sqlite_unclaim conn c i :
    storable c -> storable i ->
    deletes_one ev conn (c, i) (Execute (OnConn conn) UNCLAIM_SQL [VText c; VText i]);
  sqlite_known_duplicate c i :
    storable c -> storable i ->
    tells_presence ev (c, i) (FetchOneBool OnPool KNOWN_DUPLICATE_SQL [VText c; VText i]);
  sqlite_purge cutoff n :
    0 <= n <= u32_max ->
    deletes_expired ev (fun _ _ c => c = cutoff) n
      (Execute OnPool PURGE_SQL [VTime cutoff; VInt n]);
}.

(** ** The contract *)

Section SqliteLaws.
Context {W App : Type} `{!SqlObserve W App}.
Context (ev : forall A, sqlxE A -> W -> A * W).
Context `{!SqliteEngine ev, !Chrono}.
Implicit Types (w : W) (d : Db App).

(** Reading the clock first does not disturb a method. *)
Lemma after_clock_replies {A : Type} (p : Z -> prog sqlxE (result A InboxError)) conn
    (Q : A -> W -> Prop) w :
  (forall now w1, working w1 conn = working w conn -> saved w1 conn = saved w conn ->
                  wp ev (p now) (replies w1 Q) w1) ->
  wp ev (now <- trigger UtcNow ;; p now) (replies w Q) w.
Proof.
  intros Hp. apply wp_bind, wp_trigger; [by split; [split|]|].
  intros now w1 (Hq%still_quiet & _ & Hs)%(eng_clock ev). destruct (Hs conn) as [H1 H2].
  split; [by split|]. simpl. eapply wp_mono.
  - apply Hp; simpl; [by rewrite H1|by rewrite H2].
  - intros o w2. by apply replies_after.
Qed.

#[export] Instance sqlite_laws : InboxLaws SqliteInbox ev.
Proof.
  constructor; simpl.
  - intros s w. apply (begin_law ev), sqlite_begin.
  - intros s tx w d. apply (commit_law ev).
  - intros s tx w. apply (rollback_law ev).
  - intros tx w. apply (drop_law ev).
  - intros s conn r w d Hw ([_ Hc] & [_ Hi] & _).
    apply after_clock_replies with (conn := conn). intros now w1 Hw1 Hs1.
    eapply replies_mono.
    + eapply insert_claim_law; [by apply sqlite_claim|]. by rewrite Hw1.
    + intros a w' (? & ? & Hs'). split_and!; [done|done|by etrans].
  - intros s conn b w d Hw ([_ Hc] & Hids & _ & _).
    apply after_clock_replies with (conn := conn). intros now w1 Hw1 Hs1.
    eapply replies_mono.
    + eapply returning_claim_many_law; [apply sqlite_claim_many|]; [done| |by rewrite Hw1].
      apply storable_ids, Hids.
    + intros a w' (? & ? & Hs'). split_and!; [done|done|by etrans].
  - intros s c id w [_ Hc] [_ Hi]. eapply replies_mono.
    + by eapply known_duplicate_law, sqlite_known_duplicate.
    + intros b w' ->. apply bool_decide_eq_true.
Qed.

#[export] Instance sqlite_savepoint_laws : SavepointLaws SqliteInbox ev.
Proof.
  constructor; simpl.
  - intros s. apply (savepoint_law ev).
  - intros s. apply (release_and_savepoint_law ev).
  - intros s. apply (release_law ev).
  - intros s. apply (rollback_to_law ev).
  - intros s conn c id w d Hw [_ Hc] [_ Hi]. by eapply unclaim_law; [apply sqlite_unclaim|].
Qed.

(** C9 (SQLite keeps the contract). Over SQLite as described by [SqliteEngine],
    [SqliteInbox] implements the contract that [Consumer] is verified
    against. *)
Theorem sqlite_inbox_lawful : InboxLaws SqliteInbox ev /\ SavepointLaws SqliteInbox ev.
Proof. split; apply _. Qed.

(** C19 (purge, SQLite). For a retention window of up to a thousand years, given
    statements enough for the rows of the table, [purge] ends without a panic;
    however it ends, it removed only rows older than [max_age] and touched
    nothing else; when it returns a number, that is the number of rows removed,
    and no row that was older than [max_age] when it started is left. *)
Theorem sqlite_purge_sound `{!ChronoLaws} (s : SqliteInbox) (fuel : nat)
    (policy : RetentionPolicy) (w : W) :
  policy_wf policy -> as_nanos (max_age policy) <= retention_limit -> 0 <= tbl_now w ->
  nrows (tbl_committed w) < Z.of_nat fuel * batch_size policy ->
  wp ev (purge s fuel policy)
    (purge_post (as_nanos (max_age policy)) (tbl_now w) (tbl_committed w)
       (tbl_healthy w)) w.
Proof.
  intros [Hd Hb] Hage Hnow Hn. pose proof (as_nanos_bounds _ Hd) as [Hge _].
  unfold purge. apply wp_bind, wp_trigger; simpl.
  { split; [done|]. exists 0. split; [apply purged_refl|done]. }
  intros now w1 ([Hc Hh] & Ht & _)%(eng_clock ev).
  assert (purged (as_nanos (max_age policy)) (tbl_committed w) 0 w1) as Hp.
  { eapply purged_later; [exact Hc|lia|apply purged_refl]. }
  split; [by split; [|exists 0]|].
  rewrite from_std_ok by done.
  rewrite sub_signed_ok by (unfold chrono_min, retention_limit in *; lia).
  apply purge_loop_wp with (from := tbl_now w1);
    [apply _|lia| |lia|done|done|by rewrite Hc].
  eapply deletes_expired_mono; [apply _| |apply sqlite_purge; lia].
  simpl. intros w2 w2' c Ht2 -> Hfrom. lia.
Qed.

(** C38 (purge panics on an unrepresentable cutoff). When [chrono] accepts
    [max_age] but the cutoff falls before its calendar, [purge] panics instead
    of answering with a [Backend] error, and has deleted nothing. *)
Theorem sqlite_purge_panics (s : SqliteInbox) (fuel : nat) (policy : RetentionPolicy)
    (age : Z) (w : W) :
  from_std (max_age policy) = Some age ->
  (forall now w1, ev _ UtcNow w = (now, w1) -> sub_signed now age = None) ->
  exists m w', exec ev (purge s fuel policy) w = (Panicked m, w') /\
               tbl_committed w' = tbl_committed w.
Proof.
  intros Hf Hs. unfold exec, purge. rewrite run_bind. simpl.
  destruct (ev Z UtcNow w) as [now w'] eqn:He. rewrite Hf, (Hs now w' eq_refl). simpl.
  destruct (eng_clock ev w now w' He) as [[Hc _] _]. by eexists _, w'.
Qed.
End SqliteLaws.

(** ** Result codes *)

Lemma digit_char (x : N) :
  (x < 10)%N -> Z.of_N (Ascii.N_of_ascii (pretty_N_char x)) = 48 + Z.of_N x.
Proof.
  intros Hx. assert (x = 0 \/ x = 1 \/ x = 2 \/ x = 3 \/ x = 4 \/ x = 5 \/ x = 6 \/ x = 7
    \/ x = 8 \/ x = 9)%N as H by lia.
  by destruct_or! H; subst.
Qed.

Lemma parse_digits_go (x : N) (acc : string) :
  parse_digits 0 (lit (pretty_N_go x acc)) = parse_digits (Z.of_N x) (lit acc).
Proof.
  revert acc. induction (N.lt_wf_0 x) as [x _ IH]; intros acc.
  destruct (decide (x = 0)%N) as [->|Hx]; [by rewrite pretty_N_go_0|].
  rewrite pretty_N_go_step by lia. rewrite IH by (apply N.div_lt; lia). simpl.
  pose proof (N.mod_lt x 10 ltac:(lia)) as Hm. rewrite digit_char by done.
  pose proof (f_equal Z.of_N (N.div_mod x 10 ltac:(lia))) as Hx10.
  rewrite N2Z.inj_add, N2Z.inj_mul in Hx10. apply N2Z.inj_lt in Hm.
  revert Hm Hx10. generalize (N2Z.is_nonneg (x mod 10)).
  generalize (Z.of_N (x mod 10)) as r, (Z.of_N (x / 10)) as q. intros q r Hr Hm ->.
  destruct (Z.leb_spec 48 (48 + q)), (Z.leb_spec (48 + q) 57); try lia.
  simpl. f_equal. lia.
Qed.

Lemma parse_digits_fmt (z : Z) : 0 <= z -> parse_digits 0 (fmt_Z z) = Some z.
Proof.
  intros Hz. unfold fmt_Z. destruct z as [|p|p]; [done| |lia].
  change (pretty (Zpos p)) with (pretty (Npos p)). unfold pretty, pretty_N.
  rewrite decide_False by done. by rewrite parse_digits_go.
Qed.

Lemma parse_i32_fmt (z : Z) : 0 <= z <= i32_max -> parse_i32 (fmt_Z z) = Some z.
Proof.
  intros Hz. pose proof (parse_digits_fmt z ltac:(lia)) as Hp.
  assert (fmt_Z z <> []) as Hne.
  { intros H. pose proof Hp as Hp0. rewrite H in Hp0. injection Hp0 as <-. done. }
  unfold parse_i32. destruct (fmt_Z z) as [|c rest] eqn:Hf; [done|].
  assert (48 <= c) as Hc.
  { simpl in Hp. destruct (Z.leb_spec 48 c); [done|discriminate]. }
  rewrite (proj2 (Z.eqb_neq c 45)), (proj2 (Z.eqb_neq c 43)) by lia.
  rewrite Hp. simpl. rewrite (proj2 (Z.leb_le i32_min z)), (proj2 (Z.leb_le z i32_max));
    unfold i32_min, i32_max in *; done || lia.
Qed.

(** [claim_error] reads the extended result codes SQLite reports as decimal text. *)
Lemma sqlite_contended_by_primary_code (n : Z) (number : option Z) :
  0 <= n <= i32_max ->
  let e := Database {| db_code := Some (fmt_Z n); mysql_number := number |} in
  claim_error e =
    if decide (n mod 256 = 5 \/ n mod 256 = 6) then Contended else Backend (ESqlx e).
Proof.
  intros Hn e. unfold claim_error; simpl. rewrite parse_i32_fmt by done.
  change 0xff with (Z.ones 8). rewrite Z.land_ones by lia. change (2 ^ 8) with 256.
  case_decide as H.
  - destruct H as [-> | ->]; done.
  - rewrite (proj2 (Z.eqb_neq _ 5)), (proj2 (Z.eqb_neq _ 6)) by tauto. done.
Qed.
