(* ===== verification/MySql.v ===== *)
(** * The MySQL backend

    [src/src/mysql.rs]: the SQL texts, the lock timeout as a session variable
    that is saved, set and restored around each claim, batch claims read back
    through a random token, and every method of [InboxStore] and [Savepoints].
    [MySqlEngine] states what is assumed of MySQL's tables and of the random
    tokens, [MySqlSessionEngine] what is assumed of its session variables. *)

From S2P Require Import Prelude Text Errors Durations Types Store Sqlx Sql.
#[local] Open Scope Z_scope.

(** The pool is part of the world the effects run in. *)
Inductive MySqlInbox : Type := mySqlInbox.

(** ** Constants *)

Definition ER_LOCK_WAIT_TIMEOUT : Z := 1205.
Definition ER_LOCK_DEADLOCK : Z := 1213.

Definition BEGIN_SQL : string :=
  "SET SESSION innodb_lock_wait_timeout = " +:+
  "CAST(COALESCE(@txbox_lock_wait_timeout, @@SESSION.innodb_lock_wait_timeout) AS UNSIGNED), " +:+
  "@txbox_lock_wait_timeout = NULL; " +:+
  "BEGIN".

Definition SET_LOCK_TIMEOUT_SQL : string :=
  "SET @txbox_lock_wait_timeout = @@SESSION.innodb_lock_wait_timeout, " +:+
  "SESSION innodb_lock_wait_timeout = ?".

Definition RESTORE_LOCK_TIMEOUT_SQL : string :=
  "SET SESSION innodb_lock_wait_timeout = CAST(@txbox_lock_wait_timeout AS UNSIGNED), " +:+
  "@txbox_lock_wait_timeout = NULL".

Definition CLAIM_SQL : string :=
  "INSERT IGNORE INTO inbox_messages (consumer_id, message_id, processed_at) " +:+
  "VALUES (?, ?, UTC_TIMESTAMP(6))".

Definition CLAIM_MANY_SQL : string :=
  "INSERT INTO inbox_messages (consumer_id, message_id, processed_at, claim_token) " +:+
  "SELECT ?, j.id, UTC_TIMESTAMP(6), ? " +:+
  "FROM JSON_TABLE(?, '$[*]' COLUMNS (id VARCHAR(512) CHARACTER SET utf8mb4 COLLATE utf8mb4_0900_bin PATH '$')) AS j " +:+
  "ORDER BY j.id " +:+
  "ON DUPLICATE KEY UPDATE consumer_id = inbox_messages.consumer_id".

Definition CLAIMED_BY_TOKEN_SQL : string :=
  "SELECT m.message_id " +:+
  "FROM JSON_TABLE(?, '$[*]' COLUMNS (id VARCHAR(512) CHARACTER SET utf8mb4 COLLATE utf8mb4_0900_bin PATH '$')) AS j " +:+
  "JOIN inbox_messages m ON m.consumer_id = ? AND m.message_id = j.id " +:+
  "WHERE m.claim_token = ?".

Definition UNCLAIM_SQL : string :=
  "DELETE FROM inbox_messages WHERE consumer_id = ? AND message_id = ?".

Definition PURGE_SQL : string :=
  "DELETE FROM inbox_messages " +:+
  "WHERE processed_at < UTC_TIMESTAMP(6) - INTERVAL ? MICROSECOND " +:+
  "ORDER BY processed_at LIMIT ?".

Definition KNOWN_DUPLICATE_SQL : string :=
  "SELECT EXISTS ( " +:+
  "SELECT 1 FROM inbox_messages " +:+
  "WHERE consumer_id = ? AND message_id = ? " +:+
  ")".

(** ** Helpers *)

Definition set_lock_timeout (conn : nat) (timeout : option Duration)
  : prog sqlxE (result unit SqlxError) :=
  match timeout with
  | Some timeout =>
      _ <-? trigger (Execute (OnConn conn) SET_LOCK_TIMEOUT_SQL
                       [VInt (mysql_lock_timeout timeout)]) ;;
      Ret (Ok tt)
  | None => Ret (Ok tt)
  end.

Definition restore_lock_timeout (conn : nat) (timeout : option Duration)
  : prog sqlxE (result unit SqlxError) :=
  match timeout with
  | Some _ => _ <-? trigger (RawSql (OnConn conn) RESTORE_LOCK_TIMEOUT_SQL) ;; Ret (Ok tt)
  | None => Ret (Ok tt)
  end.

Definition claim_error (e : SqlxError) : InboxError :=
  match e with
  | Database db =>
      match mysql_number db with
      | Some number =>
          if (number =? ER_LOCK_WAIT_TIMEOUT) || (number =? ER_LOCK_DEADLOCK)
          then Contended else from_sqlx_error e
      | None => from_sqlx_error e
      end
  | _ => from_sqlx_error e
  end.

(** ** [impl MySqlInbox] *)

Definition MIGRATOR : string := "migrations/mysql".

Definition migrate (self : MySqlInbox) : prog sqlxE (result unit InboxError) :=
  run_migrator MIGRATOR.

(** ** [impl InboxStore for MySqlInbox] *)

Definition begin (self : MySqlInbox) : prog sqlxE (result nat InboxError) :=
  or_backend (trigger (PoolBeginWith BEGIN_SQL)).

Definition commit (self : MySqlInbox) (tx : nat) : prog sqlxE (result unit InboxError) :=
  or_backend (trigger (TxCommit tx)).

Definition rollback (self : MySqlInbox) (tx : nat) : prog sqlxE (result unit InboxError) :=
  or_backend (trigger (TxRollback tx)).

Definition claim (self : MySqlInbox) (conn : nat) (request : ClaimRequest)
  : prog sqlxE (result Claim InboxError) :=
  let lock_timeout := req_lock_timeout request in
  _ <-? or_backend (set_lock_timeout conn lock_timeout) ;;
  r <- trigger (Execute (OnConn conn) CLAIM_SQL
         [VText (Consumer_Id.as_str (req_consumer request));
          VText (Message_Id.as_str (req_id request))]) ;;
  restored <- restore_lock_timeout conn lock_timeout ;;
  affected <-? Ret (map_err claim_error r) ;;
  _ <-? Ret (map_err from_sqlx_error restored) ;;
  Ret (Ok (if affected =? 1 then Fresh else Duplicate)).

Definition claim_many (self : MySqlInbox) (conn : nat) (batch : ClaimBatch)
  : prog sqlxE (result (list Claim) InboxError) :=
  let consumer := Consumer_Id.as_str (batch_consumer batch) in
  token <-? (r <- trigger RandomU64 ;; Ret (map_err (fun e => Backend (EOpaque e)) r)) ;;
  let ids := Message_Id.as_str <$> batch_ids batch in
  _ <-? or_backend (set_lock_timeout conn (batch_lock_timeout batch)) ;;
  r <- trigger (Execute (OnConn conn) CLAIM_MANY_SQL
         [VText consumer; VInt token; VJson ids]) ;;
  restored <- restore_lock_timeout conn (batch_lock_timeout batch) ;;
  _ <-? Ret (map_err claim_error r) ;;
  _ <-? Ret (map_err from_sqlx_error restored) ;;
  fresh <-? or_backend
    (trigger (FetchAllStrings (OnConn conn) CLAIMED_BY_TOKEN_SQL
       [VJson ids; VText consumer; VInt token])) ;;
  Ret (Ok (claims_from_fresh ids fresh)).

Definition is_known_duplicate (self : MySqlInbox) (consumer : ConsumerId) (id : MessageId)
  : prog sqlxE (result bool InboxError) :=
  known <-? or_backend
    (trigger (FetchOneBool OnPool KNOWN_DUPLICATE_SQL
       [VText (Consumer_Id.as_str consumer); VText (Message_Id.as_str id)])) ;;
  Ret (Ok known).

Definition purge (self : MySqlInbox) (fuel : nat) (policy : RetentionPolicy)
  : prog sqlxE (result Z InboxError) :=
  let max_age := u64_saturating (as_micros (max_age policy)) in
  let batch := batch_size policy in
  purge_loop fuel (trigger (Execute OnPool PURGE_SQL [VInt max_age; VInt batch])) batch 0.

#[export] Instance mysql_store : InboxStore MySqlInbox sqlxE nat nat := {|
  Store.begin := begin;
  Store.commit := commit;
  Store.rollback := rollback;
  Store.claim := claim;
  Store.claim_many := claim_many;
  Store.is_known_duplicate := is_known_duplicate;
  Store.purge := purge;
|}.

#[export] Instance mysql_lock_timeouts : LockTimeout MySqlInbox sqlxE nat nat := {}.

(** ** [impl Savepoints for MySqlInbox] *)

Definition unclaim (self : MySqlInbox) (conn : nat) (consumer : ConsumerId) (id : MessageId)
  : prog sqlxE (result unit InboxError) :=
  _ <-? or_backend
    (trigger (Execute (OnConn conn) UNCLAIM_SQL
       [VText (Consumer_Id.as_str consumer); VText (Message_Id.as_str id)])) ;;
  Ret (Ok tt).

#[export] Instance mysql_savepoints : Savepoints MySqlInbox sqlxE nat nat := {|
  Store.savepoint _ conn := execute conn SAVEPOINT_SQL;
  Store.release_and_savepoint _ conn := execute conn RELEASE_AND_SAVEPOINT_SQL;
  Store.release _ conn := execute conn RELEASE_SQL;
  Store.rollback_to _ conn := execute conn ROLLBACK_TO_SQL;
  Store.unclaim := unclaim;
|}.

(** ** What is assumed of MySQL *)

Section Statements.
Context {W App : Type} `{!SqlObserve W App}.
Context (ev : forall A, sqlxE A -> W -> A * W).

(** Inserts the keys that are not there, stamped with the token. *)
Definition inserts_stamped (conn : nat) (c : str) (token : Z) (ids : list str)
    (e : sqlxE (result Z SqlxError)) : Prop :=
  forall w t r w', tbl_working w conn = Some t -> ev _ e w = (r, w') ->
  still w w' /\
  stmt w r (fun _ => exists now,
    let row := {| processed_at := now; claim_token := Some token |} in
    now_sees w conn (with_rows (insert_all_new c ids row (rows t)) t) w').

(** Reads the listed ids of the consumer whose row has the token. *)
Definition reads_stamped (conn : nat) (c : str) (token : Z) (ids : list str)
    (e : sqlxE (result (list str) SqlxError)) : Prop :=
  forall w t r w', tbl_working w conn = Some t -> ev _ e w = (r, w') ->
  still w w' /\
  stmt w r (fun l =>
    now_sees w conn t w' /\
    forall x, x ∈ l <-> x ∈ ids /\ exists row, rows t !! (c, x) = Some row /\
                                             claim_token row = Some token).
End Statements.

(** *** Session variables *)

(** The two session variables of a connection: [innodb_lock_wait_timeout] and
    [@txbox_lock_wait_timeout], NULL as [None]. *)
Class MySqlSession (W : Type) := {
  lock_wait : W -> nat -> Z;
  lock_saved : W -> nat -> option Z;
}.

Section SessionVariables.
Context {W : Type} `{!MySqlSession W}.
Context (ev : forall A, sqlxE A -> W -> A * W).

Definition same_session (conn : nat) (w w' : W) : Prop :=
  lock_wait w' conn = lock_wait w conn /\ lock_saved w' conn = lock_saved w conn.

Definition session_is (conn : nat) (wait : Z) (sv : option Z) (w : W) : Prop :=
  lock_wait w conn = wait /\ lock_saved w conn = sv.

(** What is assumed of MySQL: a SET that fails assigns nothing, and the other
    statements assign no session variable. *)
Class MySqlSessionEngine : Prop := {
  ses_begin w tx w' :
    ev _ (PoolBeginWith BEGIN_SQL) w = (Ok tx, w') ->
    session_is tx (default (lock_wait w tx) (lock_saved w tx)) None w';
  ses_set conn n w r w' :
    1 <= n <= 1073741824 ->
    ev _ (Execute (OnConn conn) SET_LOCK_TIMEOUT_SQL [VInt n]) w = (r, w') ->
    if is_ok r then session_is conn n (Some (lock_wait w conn)) w' else same_session conn w w';
  ses_restore conn v w r w' :
    lock_saved w conn = Some v ->
    ev _ (RawSql (OnConn conn) RESTORE_LOCK_TIMEOUT_SQL) w = (r, w') ->
    if is_ok r then session_is conn v None w' else same_session conn w w';
  ses_claim conn args w r w' :
    ev _ (Execute (OnConn conn) CLAIM_SQL args) w = (r, w') -> same_session conn w w';
  ses_claim_many conn args w r w' :
    ev _ (Execute (OnConn conn) CLAIM_MANY_SQL args) w = (r, w') -> same_session conn w w';
  ses_claimed_by_token conn args w r w' :
    ev _ (FetchAllStrings (OnConn conn) CLAIMED_BY_TOKEN_SQL args) w = (r, w') ->
    same_session conn w w';
  ses_random conn w r w' : ev _ RandomU64 w = (r, w') -> same_session conn w w';
}.

End SessionVariables.

(** Restoring succeeds when a value is saved (the variable cannot be set to
    NULL).  [my_random] is the crate's assumption on tokens: one that was drawn
    is in no row yet. *)
Class MySqlEngine {W App : Type} `{!SqlObserve W App, !MySqlSession W}
    (ev : forall A, sqlxE A -> W -> A * W) : Prop := {
  my_tx :: TxEngine ev;
  my_save :: SavepointEngine ev;
  my_session :: MySqlSessionEngine ev;
  my_migrate : migrates ev MIGRATOR;
  my_begin : opens ev (PoolBeginWith BEGIN_SQL);
  my_set_lock_timeout conn n :
    1 <= n <= 1073741824 ->
    leaves_tables ev conn (Execute (OnConn conn) SET_LOCK_TIMEOUT_SQL [VInt n]);
  my_restore_lock_timeout conn w r w' :
    ev _ (RawSql (OnConn conn) RESTORE_LOCK_TIMEOUT_SQL) w = (r, w') ->
    still w w' /\
    forall t, tbl_working w conn = Some t -> is_Some (lock_saved w conn) ->
              stmt w r (fun _ => now_sees w conn t w');
  my_claim conn c i :
    storable c -> storable i ->
    inserts_one ev conn (c, i) (Execute (OnConn conn) CLAIM_SQL [VText c; VText i]);
  my_random w r w' :
    ev _ RandomU64 w = (r, w') ->
    still w w' /\
    (forall conn, tbl_working w' conn = tbl_working w conn /\
                  tbl_saved w' conn = tbl_saved w conn) /\
    match r with
    | Ok token => forall conn t k row,
        tbl_working w conn = Some t -> rows t !! k = Some row -> claim_token row <> Some token
    | Error _ => ~ tbl_healthy w
    end;
  my_claim_many conn c token ids :
    storable c -> Forall storable ids ->
    inserts_stamped ev conn c token ids
      (Execute (OnConn conn) CLAIM_MANY_SQL [VText c; VInt token; VJson ids]);
  my_claimed_by_token conn c token ids :
    storable c -> Forall storable ids ->
    reads_stamped ev conn c token ids
      (FetchAllStrings (OnConn conn) CLAIMED_BY_TOKEN_SQL [VJson ids; VText c; VInt token]);
  my_unclaim conn c i :
    storable c -> storable i ->
    deletes_one ev conn (c, i) (Execute (OnConn conn) UNCLAIM_SQL [VText c; VText i]);
  my_known_duplicate c i :
    storable c -> storable i ->
    tells_presence ev (c, i) (FetchOneBool OnPool KNOWN_DUPLICATE_SQL [VText c; VText i]);
  my_purge us n :
    0 <= us * 1000 <= retention_limit -> 0 <= n <= u32_max ->
    deletes_expired ev
      (fun w w' cutoff => tbl_now w <= cutoff + us * 1000 <= tbl_now w') n
      (Execute OnPool PURGE_SQL [VInt us; VInt n]);
}.

(** ** Tokens and timeouts *)

Lemma mysql_lock_timeout_range (d : Duration) : 1 <= mysql_lock_timeout d <= 1073741824.
Proof. unfold mysql_lock_timeout. rewrite u64_saturating_min. unfold u64_max. lia. Qed.

Lemma insert_all_new_lookup (c : str) (ids : list str) (row : Row) (m : Rows) (x : str) :
  insert_all_new c ids row m !! (c, x) =
  match m !! (c, x) with
  | Some r => Some r
  | None => if decide (x ∈ ids) then Some row else None
  end.
Proof.
  revert m; induction ids as [|id ids IH]; intros m; cbn [insert_all_new].
  { by destruct (m !! (c, x)). }
  rewrite IH. unfold insert_new. destruct (decide ((c, id) ∈ dom m)) as [Hin|Hin].
  - destruct (m !! (c, x)) eqn:Hx; [done|].
    destruct (decide (x = id)) as [->|Hne].
    + by apply not_elem_of_dom in Hx.
    + repeat case_decide; set_solver.
  - destruct (decide (x = id)) as [->|Hne].
    + rewrite lookup_insert_eq, (not_elem_of_dom_1 _ _ Hin).
      rewrite decide_True; [done|]. by left.
    + rewrite lookup_insert_ne by congruence.
      destruct (m !! (c, x)); [done|]. repeat case_decide; set_solver.
Qed.

(** With an unused token, the rows that carry it after the insert are the ones
    it inserted. *)
Lemma stamped_are_fresh (c : str) (ids : list str) (row : Row) (m : Rows) (token : Z) (x : str) :
  claim_token row = Some token ->
  (forall k r, m !! k = Some r -> claim_token r <> Some token) ->
  (x ∈ ids /\ exists r, insert_all_new c ids row m !! (c, x) = Some r /\
                        claim_token r = Some token) <->
  x ∈ ids /\ (c, x) ∉ dom m.
Proof.
  intros Hrow Hm. rewrite insert_all_new_lookup, not_elem_of_dom.
  split; intros [Hx H]; (split; [done|]).
  - destruct H as (r & Hr & Ht). destruct (m !! (c, x)) as [r'|] eqn:Hk; [|done].
    simplify_eq. by apply Hm in Hk.
  - exists row. rewrite H. by rewrite decide_True.
Qed.

(** ** The contract *)

Section MySqlLaws.
Context {W App : Type} `{!SqlObserve W App, !MySqlSession W}.
Context (ev : forall A, sqlxE A -> W -> A * W).
Context `{!MySqlEngine ev}.
Implicit Types (w : W) (d : Db App) (t : Tables App).

(** Where a timeout was set, the session's own value is saved. *)
Definition armed (conn : nat) (timeout : option Duration) (w : W) : Prop :=
  is_Some timeout -> is_Some (lock_saved w conn).

Lemma armed_same conn timeout w w' :
  same_session conn w w' -> armed conn timeout w -> armed conn timeout w'.
Proof. intros [_ H] Hw. unfold armed. by rewrite H. Qed.

Lemma mysql_set_lock_timeout_replies conn timeout w t :
  tbl_working w conn = Some t ->
  wp ev (or_backend (set_lock_timeout conn timeout))
    (replies w (fun _ w' => now_sees w conn t w' /\ armed conn timeout w')) w.
Proof.
  intros Ht. apply or_backend_replies.
  destruct timeout as [timeout|]; simpl; [|by apply replies_ret; split; [|intros [? [=]]]].
  pose proof (mysql_lock_timeout_range timeout) as Hn.
  apply wp_bind_try, wp_trigger; simpl; [by split; [split|]|].
  intros r w' H. destruct (my_set_lock_timeout conn _ Hn _ _ _ H) as [Hq%still_quiet Hr].
  specialize (Hr t Ht). apply (ses_set ev conn _ _ _ _ Hn) in H.
  split; [by split|]. destruct r as [n|e]; [apply wp_ret|by split].
  split; [done|]. split; [done|]. intros _. destruct H as [_ H]. by rewrite H.
Qed.

(** Restoring never commits, also after a failed claim; in a usable
    transaction it leaves the tables alone. *)
Lemma restore_lock_timeout_wp conn timeout w :
  armed conn timeout w ->
  wp ev (restore_lock_timeout conn timeout) (fun o w' =>
    still w w' /\
    match o with
    | Done r => forall t, tbl_working w conn = Some t ->
                          stmt w r (fun _ => now_sees w conn t w')
    | Panicked _ => False
    | Cancelled => True
    end) w.
Proof.
  intros Ha. destruct timeout as [timeout|]; simpl; [|by apply wp_ret].
  apply wp_bind_try, wp_trigger; simpl; [done|].
  intros r w' H. destruct (my_restore_lock_timeout conn w r w' H) as [Hs Hr].
  split; [done|]. destruct r; [apply wp_ret|]; (split; [done|]); intros t Ht;
    apply (Hr t Ht), Ha; done.
Qed.

(** A claim statement followed by the restore, whose result counts only if the
    claim's does. *)
Lemma claim_then_restore {A B : Type} conn timeout (e : sqlxE (result A SqlxError))
    (k : A -> prog sqlxE (result B InboxError)) (P : A -> Tables App -> Prop)
    (R : B -> W -> Prop) w :
  armed conn timeout w ->
  (forall r w', ev _ e w = (r, w') ->
     same_session conn w w' /\ still w w' /\
     stmt w r (fun a => exists t, P a t /\ now_sees w conn t w')) ->
  (forall a t w2, P a t -> now_sees w conn t w2 -> wp ev (k a) (replies w2 R) w2) ->
  wp ev (r <- trigger e ;;
         restored <- restore_lock_timeout conn timeout ;;
         a <-? Ret (map_err claim_error r) ;;
         _ <-? Ret (map_err from_sqlx_error restored) ;;
         k a) (replies w R) w.
Proof.
  intros Harm He Hk. apply wp_bind, wp_trigger; simpl; [by split; [split|]|].
  intros r w1 H. destruct (He r w1 H) as (Hses & Hs1 & Hr).
  pose proof (still_quiet _ _ Hs1) as Hq1. pose proof (armed_same _ _ _ _ Hses Harm) as Harm1.
  split; [by split|]. apply wp_bind. eapply wp_mono; [by apply restore_lock_timeout_wp|].
  intros o w2 [Hs2 Ho]. pose proof (still_quiet _ _ Hs2) as Hq2.
  assert (quiet (Conn := nat) w w2) as Hq by (by eapply quiet_trans).
  destruct o as [restored|m|]; simpl; [|done|by split].
  destruct r as [a|e']; simpl in Hr |- *; [|by apply wp_ret; split].
  destruct Hr as (t & HP & Hsees). specialize (Ho t (proj1 Hsees)).
  destruct restored as [[]|e']; simpl in Ho |- *.
  - eapply wp_mono; [apply (Hk a t w2 HP)|intros o w'; by apply replies_after].
    destruct Ho as [H1 H2], Hsees as [H3 H4]. split; congruence.
  - apply wp_ret. split; [done|]. simpl. intros Hh. apply Ho. by apply Hs1.
Qed.

Lemma mysql_claim_law s conn r w d :
  working w conn = Some d -> request_ok r ->
  wp ev (claim s conn r)
    (replies w (claimed w conn (key (req_consumer r) (req_id r)) d)) w.
Proof.
  intros (t & Ht & ->)%working_tables ([_ Hc] & [_ Hi] & _).
  eapply replies_bind_try; [by apply mysql_set_lock_timeout_replies|].
  intros [] w1 [[Hw1 Hs1] Harm].
  eapply claim_then_restore with (P := fun n t' =>
    n = (if decide (key (req_consumer r) (req_id r) ∈ dom (rows t)) then 0 else 1) /\
    exists row, t' = with_rows (insert_new (key (req_consumer r) (req_id r)) row (rows t)) t).
  - done.
  - intros a w2 H. split; [by eapply (ses_claim ev)|]. destruct (my_claim conn _ _ Hc Hi _ _ _ _ Hw1 H) as [Hq Ha].
    split; [done|]. destruct a; [|done]. destruct Ha as (-> & row & Hsees).
    eexists. split; [split; [done|by exists row]|done].
  - intros n t' w2 (-> & row & ->) Hsees. apply replies_ret.
    apply now_sees_working in Hsees as [H1 H2]. rewrite db_of_insert_new in H1.
    split_and!; [|done|by rewrite H2; simpl; rewrite Hs1].
    unfold claim_answer; simpl. by case_decide.
Qed.

Lemma mysql_claim_many_law s conn b w d :
  working w conn = Some d -> batch_ok b ->
  wp ev (claim_many s conn b)
    (replies w (claimed_all w conn (batch_consumer b) (batch_ids b) d)) w.
Proof.
  intros (t & Ht & ->)%working_tables ([_ Hc] & Hids%storable_ids & _ & _).
  eapply replies_bind_try with (Q := fun token w1 => now_sees w conn t w1 /\
    forall k row, rows t !! k = Some row -> claim_token row <> Some token).
  { apply wp_bind, wp_trigger; simpl; [by split; [split|]|].
    intros r w' (Hq%still_quiet & Hsame & Hr)%my_random. destruct (Hsame conn) as [H1 H2].
    split; [by split|]. apply wp_ret. split; [done|]. destruct r as [token|e]; simpl; [|done].
    split; [split; congruence|]. intros k row. by apply Hr with conn. }
  intros token w1 [[Hw1 Hs1] Htok].
  eapply replies_bind_try; [by apply mysql_set_lock_timeout_replies|].
  intros [] w2 [[Hw2 Hs2] Harm].
  eapply claim_then_restore with (P := fun _ t' => exists now,
    t' = with_rows (insert_all_new (Consumer_Id.as_str (batch_consumer b))
           (Message_Id.as_str <$> batch_ids b)
           {| processed_at := now; claim_token := Some token |} (rows t)) t).
  - done.
  - intros a w3 H. split; [by eapply (ses_claim_many ev)|].
    destruct (my_claim_many conn _ token _ Hc Hids _ _ _ _ Hw2 H) as [Hq Ha].
    split; [done|]. destruct a; [|done]. destruct Ha as (now & Hsees).
    eexists. split; [by exists now|done].
  - intros n t' w3 (now & ->) [Hw3 Hs3].
    eapply replies_bind_try.
    { apply await_replies. intros r w4 H.
      exact (my_claimed_by_token conn _ token _ Hc Hids _ _ _ _ Hw3 H). }
    intros fresh w4 [Hsees Hfresh]. apply replies_ret.
    apply now_sees_working in Hsees as [H1 H2]. rewrite db_of_insert_all_new in H1.
    split_and!; [|done|by rewrite H2; simpl; rewrite Hs3, Hs2, Hs1].
    apply claims_from_fresh_answers. intros x. rewrite Hfresh. simpl.
    by rewrite stamped_are_fresh.
Qed.

#[export] Instance mysql_laws : InboxLaws MySqlInbox ev.
Proof.
  constructor; simpl.
  - intros s w. apply (begin_law ev), my_begin.
  - intros s tx w d. apply (commit_law ev).
  - intros s tx w. apply (rollback_law ev).
  - intros tx w. apply (drop_law ev).
  - apply mysql_claim_law.
  - apply mysql_claim_many_law.
  - intros s c id w [_ Hc] [_ Hi]. eapply replies_mono.
    + by eapply known_duplicate_law, my_known_duplicate.
    + intros b w' ->. apply bool_decide_eq_true.
Qed.

#[export] Instance mysql_savepoint_laws : SavepointLaws MySqlInbox ev.
Proof.
  constructor; simpl.
  - intros s. apply (savepoint_law ev).
  - intros s. apply (release_and_savepoint_law ev).
  - intros s. apply (release_law ev).
  - intros s. apply (rollback_to_law ev).
  - intros s conn c id w d Hw [_ Hc] [_ Hi]. by eapply unclaim_law; [apply my_unclaim|].
Qed.

(** C7 (MySQL keeps the contract). Over MySQL as described by [MySqlEngine],
    with tokens that never repeat, [MySqlInbox] implements the contract that
    [Consumer] is verified against; in particular the insert followed by the
    read-back through the token answers each id of a batch like a single
    claim. *)
Theorem mysql_inbox_lawful : InboxLaws MySqlInbox ev /\ SavepointLaws MySqlInbox ev.
Proof. split; apply _. Qed.

(** C20 (purge, MySQL). For a retention window of up to a thousand years, given
    statements enough for the rows of the table, [purge] ends; however it ends,
    it removed only rows older than [max_age] in whole microseconds and touched
    nothing else; when it returns a number, that is the number of rows removed,
    and no row that was older than that when it started is left. *)
Theorem mysql_purge_sound (s : MySqlInbox) (fuel : nat) (policy : RetentionPolicy) (w : W) :
  policy_wf policy -> as_nanos (max_age policy) <= retention_limit ->
  nrows (tbl_committed w) < Z.of_nat fuel * batch_size policy ->
  wp ev (purge s fuel policy)
    (purge_post (as_micros (max_age policy) * 1000) (tbl_now w) (tbl_committed w)
       (tbl_healthy w)) w.
Proof.
  intros [Hd Hb] Hage Hn. pose proof (as_micros_nanos _ Hd) as Hus.
  pose proof (as_nanos_bounds _ Hd) as Hns. unfold purge.
  rewrite u64_saturating_min, Z.min_l by (unfold retention_limit, u64_max in *; lia).
  apply (purge_clock_wp ev); [done| |done]. apply my_purge; lia.
Qed.
End MySqlLaws.

(** ** The session's lock timeout *)

Section Session.
Context {W : Type} `{!MySqlSession W}.
Context (ev : forall A, sqlxE A -> W -> A * W).
Context `{Hses : !MySqlSessionEngine ev}.

(** The value the application gave the session: the saved one, if txbox holds
    one, or else the current one. *)
Definition app_lock_wait (w : W) (conn : nat) : Z :=
  default (lock_wait w conn) (lock_saved w conn).

Definition restore_works (conn : nat) : Prop :=
  forall w r w', is_Some (lock_saved w conn) ->
  ev _ (RawSql (OnConn conn) RESTORE_LOCK_TIMEOUT_SQL) w = (r, w') -> is_ok r = true.

(** However the call ends, the application's value [own] is not lost; on a
    normal return it is the session's value again and nothing is saved, unless
    the call failed and the restore failed too. *)
Definition keeps_own {A : Type} (conn : nat) (own : Z) (o : outcome (result A InboxError))
    (w' : W) : Prop :=
  app_lock_wait w' conn = own /\
  forall r, o = Done r -> is_ok r = true \/ restore_works conn -> session_is conn own None w'.

Lemma session_own conn wait sv (w : W) :
  session_is conn wait sv w -> app_lock_wait w conn = default wait sv.
Proof. unfold app_lock_wait. by intros [-> ->]. Qed.

Lemma same_session_is conn wait sv (w w' : W) :
  same_session conn w w' -> session_is conn wait sv w -> session_is conn wait sv w'.
Proof. intros [H1 H2] [H3 H4]. split; congruence. Qed.

Lemma keeps_own_unsaved {A : Type} conn own (o : outcome (result A InboxError)) (w' : W) :
  session_is conn own None w' -> keeps_own conn own o w'.
Proof. intros H. split; [by rewrite (session_own _ _ _ _ H)|done]. Qed.

(** While a value is saved, only a cancellation or a failed restore ends the
    call. *)
Lemma keeps_own_cancelled {A : Type} conn own sv wait (w' : W) :
  session_is conn wait sv w' -> default wait sv = own ->
  keeps_own (A := A) conn own Cancelled w'.
Proof. intros H <-. split; [by apply session_own|done]. Qed.

Lemma keeps_own_refused {A : Type} conn own wait (e : InboxError) (w' : W) :
  session_is conn wait (Some own) w' -> ~ restore_works conn ->
  keeps_own (A := A) conn own (Done (Error e)) w'.
Proof. intros H Hn. split; [by apply session_own in H|]. by intros r [= <-] [?|?]. Qed.

(** The shape of both claims: set, claim, restore, and then [k], which leaves
    the session alone. *)
Lemma timed_statement_keeps_own {A B : Type} conn timeout (e : sqlxE (result A SqlxError))
    (k : A -> prog sqlxE (result B InboxError)) own (w : W) :
  (forall w r w', ev _ e w = (r, w') -> same_session conn w w') ->
  (forall a w1, session_is conn own None w1 -> wp ev (k a) (keeps_own conn own) w1) ->
  session_is conn own None w ->
  wp ev (_ <-? or_backend (set_lock_timeout conn timeout) ;;
         r <- trigger e ;;
         restored <- restore_lock_timeout conn timeout ;;
         a <-? Ret (map_err claim_error r) ;;
         _ <-? Ret (map_err from_sqlx_error restored) ;;
         k a) (keeps_own conn own) w.
Proof.
  intros He Hk Hw. destruct timeout as [timeout|].
  2: { apply wp_bind_try, wp_bind, wp_ret, wp_ret, wp_bind, wp_trigger; simpl;
         [by apply keeps_own_unsaved|].
       intros r w1 Hw1%He. pose proof (same_session_is _ _ _ _ _ Hw1 Hw) as Hs1.
       split; [by apply keeps_own_unsaved|].
       destruct r as [a|e']; [by apply Hk|by apply wp_ret, keeps_own_unsaved]. }
  apply wp_bind_try, wp_bind, wp_bind_try, wp_trigger; simpl; [by apply keeps_own_unsaved|].
  intros r0 w1 Hset. apply (ses_set ev) in Hset; [|apply mysql_lock_timeout_range].
  destruct r0 as [n|e0]; simpl in Hset.
  2: { pose proof (same_session_is _ _ _ _ _ Hset Hw) as Hs1.
       split; [by apply keeps_own_unsaved|]. by apply wp_ret, keeps_own_unsaved. }
  rewrite (proj1 Hw) in Hset. split; [by eapply keeps_own_cancelled|].
  apply wp_ret, wp_ret, wp_bind, wp_trigger; simpl; [by eapply keeps_own_cancelled|].
  intros r w2 Hw2%He. pose proof (same_session_is _ _ _ _ _ Hw2 Hset) as Hs2.
  split; [by eapply keeps_own_cancelled|].
  apply wp_bind, wp_bind_try, wp_trigger; simpl; [by eapply keeps_own_cancelled|].
  intros restored w3 Hr. pose proof (ses_restore ev _ _ _ _ _ (proj2 Hs2) Hr) as Hs3.
  destruct restored as [[]|e3] eqn:Hres; simpl in Hs3.
  - split; [by eapply keeps_own_cancelled|]. apply wp_ret.
    destruct r as [a|e']; [by apply Hk|by apply wp_ret, keeps_own_unsaved].
  - pose proof Hs2 as Hs2'. apply (same_session_is _ _ _ _ _ Hs3) in Hs2.
    split; [by apply (keeps_own_cancelled _ _ _ _ _ Hs2)|].
    assert (~ restore_works conn) as Hn.
    { intros Hn. apply Hn in Hr; [done|]. rewrite (proj2 Hs2'). done. }
    destruct r as [a|e']; apply wp_ret; apply (keeps_own_refused _ _ _ _ _ Hs2 Hn).
Qed.

(** A claim with a timeout takes the session's current value for the
    application's, whatever is saved. *)
Lemma claim_with_timeout_forgets (s : MySqlInbox) (conn : nat) (r : ClaimRequest)
    (d : Duration) (held : Z) (w : W) :
  lock_wait w conn = held -> req_lock_timeout r = Some d ->
  wp ev (claim s conn r) (fun o w' =>
    forall c, o = Done (Ok c) -> session_is conn held None w') w.
Proof.
  intros Hw Hd. unfold claim. rewrite Hd.
  apply wp_bind_try, wp_bind, wp_bind_try, wp_trigger; simpl; [done|].
  intros r0 w1 Hset. apply (ses_set ev) in Hset; [|apply mysql_lock_timeout_range].
  split; [done|]. destruct r0 as [n|e0]; simpl in Hset; apply wp_ret; [apply wp_ret|done].
  apply wp_bind, wp_trigger; simpl; [done|]. intros r1 w2 Hw2%(ses_claim ev). split; [done|].
  pose proof (same_session_is _ _ _ _ _ Hw2 Hset) as Hs2.
  apply wp_bind, wp_bind_try, wp_trigger; simpl; [done|].
  intros restored w3 Hr. pose proof (ses_restore ev _ _ _ _ _ (proj2 Hs2) Hr) as Hs3.
  split; [done|]. destruct restored as [[]|e3]; simpl in Hs3; [apply wp_ret|].
  all: destruct r1 as [n1|e1]; apply wp_ret; [|done]; try done.
  intros c _. by rewrite <- Hw.
Qed.

(** C10 (the session's lock timeout survives). Start a claim, single or batch,
    with or without a timeout, on a connection on which nothing is saved.
    However it ends, cancelled while setting, claiming or restoring included,
    the application's value is either the session's value or the saved one;
    after a return it is the session's value again, unless claim and restore
    both failed.  A transaction begun later on a connection, in whatever state
    a cancelled claim left it, runs with the application's value. *)
Theorem mysql_lock_timeout_survives (s : MySqlInbox) (conn : nat) (own : Z) (w : W) :
  session_is conn own None w ->
  (forall r, wp ev (claim s conn r) (keeps_own conn own) w) /\
  (forall b, wp ev (claim_many s conn b) (keeps_own conn own) w) /\
  (forall w1, wp ev (begin s) (fun o w2 =>
     forall tx, o = Done (Ok tx) -> session_is tx (app_lock_wait w1 tx) None w2) w1).
Proof.
  intros Hw. split_and!.
  - intros r. unfold claim. eapply (timed_statement_keeps_own _ _ _ (fun affected => _)); [| |done].
    + intros w1 a w2. apply (ses_claim ev).
    + intros a w1 Hw1. by apply wp_ret, keeps_own_unsaved.
  - intros b. apply wp_bind_try, wp_bind, wp_trigger; simpl; [by apply keeps_own_unsaved|].
    intros r w1 H. pose proof (same_session_is _ _ _ _ _ (ses_random ev conn _ _ _ H) Hw) as Hw1.
    split; [by apply keeps_own_unsaved|]. apply wp_ret.
    destruct r as [token|e]; [|by apply keeps_own_unsaved].
    eapply (timed_statement_keeps_own _ _ _ (fun affected => _)); [| |done].
    + intros w2 a w3. apply (ses_claim_many ev).
    + intros a w2 Hw2.
      apply wp_bind_try, wp_bind, wp_trigger; simpl; [by apply keeps_own_unsaved|].
      intros fresh w3 Hw3%(ses_claimed_by_token ev).
      pose proof (same_session_is _ _ _ _ _ Hw3 Hw2) as Hs3.
      split; [by apply keeps_own_unsaved|]. apply wp_ret.
      destruct fresh; [apply wp_ret|]; by apply keeps_own_unsaved.
  - intros w1. apply wp_bind, wp_trigger; [done|]. intros r w2 H. split; [done|].
    apply wp_ret. intros tx [= Htx]. destruct r as [tx'|]; [|done].
    injection Htx as ->. by apply (ses_begin ev).
Qed.

(** C26 (a second claim after a cancelled one loses the saved value). When a
    claim with a timeout was cancelled before its restore and the transaction
    is used for another one, that one saves the first one's timeout over the
    application's value [own]: when it returns, the session keeps the timeout
    [held] of the cancelled claim and nothing is saved, so that no later BEGIN
    can put [own] back. *)
Theorem mysql_second_claim_forgets_own (s : MySqlInbox) (conn : nat) (r : ClaimRequest)
    (d : Duration) (own held : Z) (c : Claim) (w w' : W) :
  session_is conn held (Some own) w -> req_lock_timeout r = Some d ->
  exec ev (claim s conn r) w = (Done (Ok c), w') ->
  session_is conn held None w' /\ app_lock_wait w' conn = held.
Proof.
  intros Hw Hd Hx.
  destruct (wp_exec ev _ _ _ _ _ (claim_with_timeout_forgets s conn r d held w (proj1 Hw) Hd) Hx)
    as [Hs _].
  specialize (Hs c eq_refl). split; [done|]. by apply session_own in Hs.
Qed.
End Session.
