(* ===== verification/Tracing.v ===== *)
(** * Tracing

    The spans and events of [src/src/consumer.rs].  [Impl] of [Consumer.v] is
    the code without them; here are [process] and [process_many] with every
    [tracing] call, over effects that are the calls of the store and log events,
    each in the spans it happens in.  Erasing the events gives the programs of
    [Impl], so that every theorem about those is one about the instrumented
    code; and the log says what happened. *)

From S2P Require Import Prelude Text Errors Durations Types Store Consumer.

(** ** Spans, events and traced programs *)

(** [tracing::Level] *)
Inductive Level : Type := ERROR | WARN | INFO | DEBUG | TRACE.

#[export] Instance level_eq_dec : EqDecision Level.
Proof. solve_decision. Defined.

(** The value of a field: a text shown with [Display], a number, or the error
    the event reports. *)
Inductive FieldValue : Type :=
| FText (s : str)
| FCount (n : nat)
| FError (e : InboxError).

Record Span := mkSpan {
  span_name : string;
  span_level : Level;
  span_fields : list (string * FieldValue);
}.

Record Event := mkEvent {
  target : string;
  level : Level;
  fields : list (string * FieldValue);
  message : string;
}.

(** What an instrumented future does: it awaits an effect, or emits an event.
    The spans are those it is in at that moment, the outermost first. *)
Inductive tracedE (E : Type -> Type) : Type -> Type :=
| Call (spans : list Span) {A : Type} (e : E A) : tracedE E A
| Emit (spans : list Span) (event : Event) : tracedE E unit.
Arguments Call {_} _ {_} _.
Arguments Emit {_} _ _.

(** An entry of the log. *)
Inductive Entry (E : Type -> Type) : Type :=
| Awaited (spans : list Span) {A : Type} (e : E A)
| Logged (spans : list Span) (event : Event).
Arguments Awaited {_} _ {_} _.
Arguments Logged {_} _ _.

Definition entry_spans {E : Type -> Type} (e : Entry E) : list Span :=
  match e with Awaited spans _ | Logged spans _ => spans end.

Definition entry_in {E : Type -> Type} (span : Span) (e : Entry E) : Entry E :=
  match e with
  | Awaited spans e => Awaited (span :: spans) e
  | Logged spans event => Logged (span :: spans) event
  end.

Fixpoint entries_in {E : Type -> Type} (span : Span) (l : list (Entry E)) : list (Entry E) :=
  match l with [] => [] | e :: l => entry_in span e :: entries_in span l end.

Lemma entries_in_app {E : Type -> Type} span (l l' : list (Entry E)) :
  entries_in span (l ++ l') = entries_in span l ++ entries_in span l'.
Proof. induction l as [|e l IH]; simpl; [done|]. by rewrite IH. Qed.

(** A future with no spans or events of its own. *)
Definition untraced {E : Type -> Type} {R : Type} (p : prog E R) : prog (tracedE E) R :=
  lift (fun A e => Call [] e) p.

(** [tracing::event!] *)
Definition emit {E : Type -> Type} (event : Event) : prog (tracedE E) unit :=
  trigger (Emit [] event).

Definition in_span {E : Type -> Type} (span : Span) (A : Type) (e : tracedE E A) : tracedE E A :=
  match e with
  | Call spans e => Call (span :: spans) e
  | Emit spans event => Emit (span :: spans) event
  end.

(** [future.instrument(span)]: the span is entered whenever the future is polled
    and when it is dropped. *)
Definition instrument {E : Type -> Type} {R : Type} (span : Span) (p : prog (tracedE E) R)
  : prog (tracedE E) R :=
  lift (in_span span) p.

(** The future without its events. *)
Fixpoint erase {E : Type -> Type} {R : Type} (p : prog (tracedE E) R) : prog E R :=
  match p with
  | Ret r => Ret r
  | Panic m => Panic m
  | Vis e k =>
      match e in tracedE _ A return (A -> prog E R) -> prog E R with
      | Call _ e => fun k => Vis e k
      | Emit _ _ => fun k => k tt
      end (fun a => erase (k a))
  | Scope c body k => Scope (erase c) (erase body) (fun a => erase (k a))
  end.

(** ** Equal programs *)

(** Programs that run alike in every world. *)
Record peq {E : Type -> Type} {R : Type} (p q : prog E R) : Prop := {
  run_peq (W : Type) (ev : forall A, E A -> W -> A * W) b w : run ev b p w = run ev b q w;
}.

Infix "≈" := peq (at level 70) : txbox_scope.

#[export] Instance peq_equiv {E R} : Equivalence (@peq E R).
Proof.
  split; [done| |].
  - intros p q [H]. done.
  - intros p q r [H1] [H2]. split. intros W ev b w. by rewrite H1.
Qed.

#[export] Instance bind_peq {E A B} :
  Proper (peq ==> pointwise_relation A peq ==> peq) (@bind E A B).
Proof.
  intros p q [Hp] f g Hf. split. intros W ev b w. rewrite !run_bind, Hp.
  destruct (run ev b q w) as [[[a|m|] b'] w']; [apply Hf|done..].
Qed.

#[export] Instance bind_try_peq {E A B Err} :
  Proper (peq ==> pointwise_relation A peq ==> peq) (@bind_try E A B Err).
Proof. intros p q Hp f g Hf. unfold bind_try. f_equiv; [done|]. intros [a|e]; [apply Hf|done]. Qed.

#[export] Instance scope_peq {E A R} :
  Proper (peq ==> peq ==> pointwise_relation A peq ==> peq) (@Scope E R A).
Proof.
  intros c c' [Hc] p q [Hp] f g Hf. split. intros W ev b w. simpl. rewrite Hp.
  destruct (run ev b q w) as [[[a|m|] b'] w']; [apply Hf| |]; by rewrite Hc.
Qed.

#[export] Instance scoped_with_peq {E A} : Proper (peq ==> peq ==> peq) (@scoped_with E A).
Proof. intros c c' Hc p q Hp. unfold scoped_with. by f_equiv. Qed.

Lemma vis_peq {E A R} (e : E A) (f g : A -> prog E R) : (forall a, f a ≈ g a) -> Vis e f ≈ Vis e g.
Proof.
  intros H. split. intros W ev b w. simpl.
  destruct b as [[[|n] x]|]; [done| |]; destruct (ev A e w); apply H.
Qed.

Section Erase.
Context {E : Type -> Type}.

Lemma erase_bind {A B} (p : prog (tracedE E) A) (f : A -> prog (tracedE E) B) :
  erase (bind p f) ≈ bind (erase p) (fun a => erase (f a)).
Proof.
  revert B f. induction p as [R r|R m|R A e k IH|R A c _ body _ k IH]; intros B f; [done|done| |].
  - destruct e as [spans A e|spans event]; [|apply (IH tt)].
    apply (vis_peq e). intros a. apply IH.
  - change (Scope (erase c) (erase body) (fun a => erase (bind (k a) f)) ≈
            Scope (erase c) (erase body) (fun a => bind (erase (k a)) (fun a => erase (f a)))).
    f_equiv. intros a. apply IH.
Qed.

Lemma erase_bind_try {A B Err} (p : prog (tracedE E) (result A Err))
    (f : A -> prog (tracedE E) (result B Err)) :
  erase (bind_try p f) ≈ bind_try (erase p) (fun a => erase (f a)).
Proof. unfold bind_try. rewrite erase_bind. f_equiv. by intros [a|e]. Qed.

Lemma erase_untraced {R} (p : prog E R) : erase (untraced p) ≈ p.
Proof.
  induction p as [R r|R m|R A e k IH|R A c IHc body IHb k IH]; [done|done|by apply vis_peq|].
  unfold untraced, lift in *. simpl. f_equiv; [done|done|]. by intros a.
Qed.

Lemma erase_instrument {R} span (p : prog (tracedE E) R) : erase (instrument span p) ≈ erase p.
Proof.
  induction p as [R r|R m|R A e k IH|R A c IHc body IHb k IH]; [done|done| |].
  - destruct e as [spans A e|spans event]; [by apply (vis_peq e)|apply (IH tt)].
  - unfold instrument, lift in *. simpl. f_equiv; [done|done|]. by intros a.
Qed.
End Erase.

(** ** Running traced programs *)

Section Run.
Context {E : Type -> Type} {W : Type}.
Variable ev : forall A, E A -> W -> A * W.

(** [run] with the log.  An event is emitted between two awaits: the future
    cannot be dropped there. *)
Fixpoint run_traced {R : Type} (b : budget) (p : prog (tracedE E) R) (w : W) {struct p}
  : outcome R * budget * W * list (Entry E) :=
  match p with
  | Ret r => (Done r, b, w, [])
  | Panic m => (Panicked m, b, w, [])
  | Vis e k =>
      match e in tracedE _ A
        return (A -> budget -> W -> outcome R * budget * W * list (Entry E)) ->
               outcome R * budget * W * list (Entry E) with
      | Call spans e => fun run_k =>
          match b with
          | Some (O, applied) =>
              (Cancelled, b, if applied then snd (ev _ e w) else w, [Awaited spans e])
          | _ =>
              let '(a, w') := ev _ e w in
              let '(o, b', w'', l) := run_k a (spend b) w' in (o, b', w'', Awaited spans e :: l)
          end
      | Emit spans event => fun run_k =>
          let '(o, b', w', l) := run_k tt b w in (o, b', w', Logged spans event :: l)
      end (fun a b w => run_traced b (k a) w)
  | Scope cleanup body k =>
      match run_traced b body w with
      | (Done a, b', w', l) =>
          let '(o, b'', w'', l') := run_traced b' (k a) w' in (o, b'', w'', l ++ l')
      | (Panicked m, b', w', l) =>
          let '(_, _, w'', l') := run_traced None cleanup w' in (Panicked m, b', w'', l ++ l')
      | (Cancelled, b', w', l) =>
          let '(_, _, w'', l') := run_traced None cleanup w' in (Cancelled, b', w'', l ++ l')
      end
  end.

Lemma run_traced_erase {R} (p : prog (tracedE E) R) b w :
  fst (run_traced b p w) = run ev b (erase p) w.
Proof.
  revert b w. induction p as [R r|R m|R A e k IH|R A c IHc body IHb k IH]; intros b w; [done|done| |].
  - destruct e as [spans A e|spans event]; simpl.
    + destruct b as [[[|n] x]|]; [done| |]; destruct (ev A e w) as [a w'];
        rewrite <- IH; by destruct (run_traced _ _ _) as [[[o b'] w''] l].
    + rewrite <- IH. by destruct (run_traced _ _ _) as [[[o b'] w''] l].
  - simpl. rewrite <- IHb. destruct (run_traced b body w) as [[[o b'] w'] l]. simpl.
    destruct o as [a|m|].
    + rewrite <- IH. by destruct (run_traced _ _ _) as [[[o'' b''] w''] l'].
    + rewrite <- IHc. by destruct (run_traced _ _ _) as [[[o'' b''] w''] l'].
    + rewrite <- IHc. by destruct (run_traced _ _ _) as [[[o'' b''] w''] l'].
Qed.

Lemma run_traced_bind {A B} (p : prog (tracedE E) A) (f : A -> prog (tracedE E) B) b w :
  run_traced b (bind p f) w =
  match run_traced b p w with
  | (Done a, b', w', l) =>
      let '(o, b'', w'', l') := run_traced b' (f a) w' in (o, b'', w'', l ++ l')
  | (Panicked m, b', w', l) => (Panicked m, b', w', l)
  | (Cancelled, b', w', l) => (Cancelled, b', w', l)
  end.
Proof.
  revert B f b w.
  induction p as [R r|R m|R A e k IH|R A c _ body _ k IH]; intros B f b w.
  - change (bind (Ret r) f) with (f r). simpl.
    by destruct (run_traced b (f r) w) as [[[o b'] w'] l].
  - done.
  - change (bind (Vis e k) f) with (Vis e (fun a => bind (k a) f)).
    destruct e as [spans A e|spans event]; simpl.
    + destruct b as [[[|n] x]|]; [done| |]; destruct (ev A e w) as [a w']; rewrite IH;
        destruct (run_traced _ (k a) w') as [[[[a'|m|] b'] w''] l]; try done;
        by destruct (run_traced _ (f a') _) as [[[o b''] w3] l'].
    + rewrite IH. destruct (run_traced _ (k tt) w) as [[[[a'|m|] b'] w''] l]; try done;
        by destruct (run_traced _ (f a') _) as [[[o b''] w3] l'].
  - change (bind (Scope c body k) f) with (Scope c body (fun a => bind (k a) f)). simpl.
    destruct (run_traced b body w) as [[[[a|m|] b'] w'] l].
    + rewrite IH. destruct (run_traced _ (k a) w') as [[[[a'|m|] b''] w''] l']; try done.
      destruct (run_traced _ (f a') _) as [[[o b3] w3] l3]. by rewrite app_assoc.
    + by destruct (run_traced _ c _) as [[[o b''] w''] l'].
    + by destruct (run_traced _ c _) as [[[o b''] w''] l'].
Qed.

(** Everything an instrumented future does, it does in its span. *)
Lemma run_traced_instrument {R} span (p : prog (tracedE E) R) b w :
  run_traced b (instrument span p) w =
  let '(o, b', w', l) := run_traced b p w in (o, b', w', entries_in span l).
Proof.
  revert b w. unfold instrument.
  induction p as [R r|R m|R A e k IH|R A c IHc body IHb k IH]; intros b w; [done|done| |].
  - change (lift (in_span span) (Vis e k))
      with (Vis (in_span span A e) (fun a => lift (in_span span) (k a))).
    destruct e as [spans A e|spans event]; simpl.
    + destruct b as [[[|n] x]|]; [done| |]; destruct (ev A e w) as [a w'];
        rewrite IH; by destruct (run_traced _ (k a) _) as [[[o b'] w''] l].
    + rewrite IH. by destruct (run_traced _ (k tt) _) as [[[o b'] w''] l].
  - change (lift (in_span span) (Scope c body k)) with
      (Scope (lift (in_span span) c) (lift (in_span span) body) (fun a => lift (in_span span) (k a))).
    simpl. rewrite IHb. destruct (run_traced b body w) as [[[[a|m|] b'] w'] l].
    + rewrite IH. destruct (run_traced _ (k a) _) as [[[o b''] w''] l']. by rewrite entries_in_app.
    + rewrite IHc. destruct (run_traced _ c _) as [[[o b''] w''] l']. by rewrite entries_in_app.
    + rewrite IHc. destruct (run_traced _ c _) as [[[o b''] w''] l']. by rewrite entries_in_app.
Qed.
End Run.

(** ** The code of [Consumer] *)

(** The target of an event that names none: the module it is in. *)
Definition module_path : string := "txbox::consumer".

Definition message_fields (consumer : ConsumerId) (mid : MessageId) : list (string * FieldValue) :=
  [("consumer"%string, FText (Consumer_Id.fmt consumer));
   ("message_id"%string, FText (Message_Id.fmt mid))].

Definition duplicate_skipped (consumer : ConsumerId) (mid : MessageId) : Event :=
  mkEvent "txbox::duplicate" DEBUG (message_fields consumer mid) "duplicate message skipped".

Definition message_processed (consumer : ConsumerId) (mid : MessageId) : Event :=
  mkEvent module_path DEBUG (message_fields consumer mid) "message processed".

Definition rollback_failed (consumer : ConsumerId) (mid : MessageId) (e : InboxError) : Event :=
  mkEvent module_path WARN (message_fields consumer mid ++ [("error"%string, FError e)])
    "rollback after a handler failure failed".

Definition process_span (consumer : ConsumerId) (mid : MessageId) : Span :=
  mkSpan "inbox.process" DEBUG (message_fields consumer mid).

Definition process_many_span (consumer : ConsumerId) (ids : list MessageId) : Span :=
  mkSpan "inbox.process_many" DEBUG
    [("consumer"%string, FText (Consumer_Id.fmt consumer)); ("count"%string, FCount (length ids))].

Module Traced.
Section Ops.
Context {S : Type} {E : Type -> Type} {Conn Tx : Type}.
Context `{Transaction (tracedE E) Conn Tx, !InboxStore S (tracedE E) Conn Tx}.

Notation "x <-?[ tx ] p ;; q" := (Impl.bind_try_owning tx p (fun x => q))
  (at level 100, tx at level 0, p at next level, right associativity).

Definition process {T} (self : Consumer S) (mid : MessageId)
    (handler : Conn -> prog (tracedE E) (result T HandlerError))
  : prog (tracedE E) (result (Outcome T) InboxError) :=
  instrument (process_span (id self) mid)
   (tx <-? Store.begin (store self) ;;
    c <-?[tx] Impl.claim self (deref_mut tx) mid ;;
    match c with
    | Duplicate =>
        _ <-? Store.rollback (store self) tx ;;
        _ <- emit (duplicate_skipped (id self) mid) ;;
        Ret (Ok OutcomeDuplicate)
    | Fresh =>
        r <- Impl.owning tx (handler (deref_mut tx)) ;;
        match r with
        | Ok value =>
            _ <-? Store.commit (store self) tx ;;
            _ <- emit (message_processed (id self) mid) ;;
            Ret (Ok (Processed value))
        | Error e =>
            rollback <- Store.rollback (store self) tx ;;
            _ <- match rollback with
                 | Error rollback => emit (rollback_failed (id self) mid rollback)
                 | Ok _ => Ret tt
                 end ;;
            Ret (Error (Handler e))
        end
    end).

Section Many.
Context `{!Savepoints S (tracedE E) Conn Tx} {T : Type}.
Variable self : Consumer S.
Variable conn : Conn.
Variable handler : Conn -> MessageId -> prog (tracedE E) (result T HandlerError).

Fixpoint process_many_loop (items : list (MessageId * Claim)) (pending : nat)
    (failed : gset str) (results : list (ProcessResult T))
  : prog (tracedE E) (result (list (ProcessResult T)) InboxError) :=
  match items with
  | [] => Ret (Ok results)
  | (mid, Duplicate) :: items =>
      if decide (Message_Id.as_str mid ∈ failed) then
        process_many_loop items pending failed (results ++ [Error (earlier_failed mid)])
      else
        _ <- emit (duplicate_skipped (id self) mid) ;;
        process_many_loop items pending failed (results ++ [Ok OutcomeDuplicate])
  | (mid, Fresh) :: items =>
      match pending with
      | O => Panic "attempt to subtract with overflow"
      | Datatypes.S pending =>
          r <- handler conn mid ;;
          fr <-? match r with
                 | Ok value => Ret (Ok (failed, results ++ [Ok (Processed value)]))
                 | Error e =>
                     _ <-? Store.rollback_to (store self) conn ;;
                     _ <-? Store.unclaim (store self) conn (id self) mid ;;
                     Ret (Ok ({[Message_Id.as_str mid]} ∪ failed, results ++ [Error e]))
                 end ;;
          _ <-? (if decide (0 < pending)%nat
                 then Store.release_and_savepoint (store self) conn
                 else Store.release (store self) conn) ;;
          process_many_loop items pending (fst fr) (snd fr)
      end
  end.
End Many.

Definition process_many `{!Savepoints S (tracedE E) Conn Tx} {T} (self : Consumer S)
    (ids : list MessageId)
    (handler : Conn -> MessageId -> prog (tracedE E) (result T HandlerError))
  : prog (tracedE E) (result (list (ProcessResult T)) InboxError) :=
  instrument (process_many_span (id self) ids)
   (if decide (ids = []) then Ret (Ok [])
    else
      tx <-? Store.begin (store self) ;;
      results <-?[tx]
        (claims <-? Impl.claim_many self (deref_mut tx) ids ;;
         let pending := count_fresh claims in
         _ <-? (if decide (0 < pending)%nat
                then Store.savepoint (store self) (deref_mut tx)
                else Ret (Ok tt)) ;;
         process_many_loop self (deref_mut tx) handler (zip ids claims) pending ∅ []) ;;
      _ <-? Store.commit (store self) tx ;;
      Ret (Ok results)).
End Ops.
End Traced.

(** ** Tracing changes nothing *)

(** A store whose methods, their spans and events erased, are those of the
    store without tracing. *)
Class Erases (S : Type) {E : Type -> Type} {Conn Tx : Type}
    (tt : Transaction (tracedE E) Conn Tx) (ts : InboxStore S (tracedE E) Conn Tx)
    (tp : Savepoints S (tracedE E) Conn Tx)
    (pt : Transaction E Conn Tx) (ps : InboxStore S E Conn Tx) (pp : Savepoints S E Conn Tx)
  : Prop := {
  er_deref tx : @deref_mut _ _ _ tt tx = @deref_mut _ _ _ pt tx;
  er_drop tx : erase (@drop_tx _ _ _ tt tx) ≈ @drop_tx _ _ _ pt tx;
  er_begin s : erase (@begin _ _ _ _ _ ts s) ≈ @begin _ _ _ _ _ ps s;
  er_commit s tx : erase (@commit _ _ _ _ _ ts s tx) ≈ @commit _ _ _ _ _ ps s tx;
  er_rollback s tx : erase (@rollback _ _ _ _ _ ts s tx) ≈ @rollback _ _ _ _ _ ps s tx;
  er_claim s conn r : erase (@claim _ _ _ _ _ ts s conn r) ≈ @claim _ _ _ _ _ ps s conn r;
  er_claim_many s conn b :
    erase (@claim_many _ _ _ _ _ ts s conn b) ≈ @claim_many _ _ _ _ _ ps s conn b;
  er_savepoint s conn :
    erase (@savepoint _ _ _ _ _ _ tp s conn) ≈ @savepoint _ _ _ _ _ _ pp s conn;
  er_release_and_savepoint s conn :
    erase (@release_and_savepoint _ _ _ _ _ _ tp s conn)
      ≈ @release_and_savepoint _ _ _ _ _ _ pp s conn;
  er_release s conn : erase (@release _ _ _ _ _ _ tp s conn) ≈ @release _ _ _ _ _ _ pp s conn;
  er_rollback_to s conn :
    erase (@rollback_to _ _ _ _ _ _ tp s conn) ≈ @rollback_to _ _ _ _ _ _ pp s conn;
  er_unclaim s conn c m :
    erase (@unclaim _ _ _ _ _ _ tp s conn c m) ≈ @unclaim _ _ _ _ _ _ pp s conn c m;
}.

Section Transparent.
Context {S : Type} {E : Type -> Type} {Conn Tx T : Type}.
Context {tt : Transaction (tracedE E) Conn Tx} {ts : InboxStore S (tracedE E) Conn Tx}.
Context {tp : Savepoints S (tracedE E) Conn Tx}.
Context {pt : Transaction E Conn Tx} {ps : InboxStore S E Conn Tx} {pp : Savepoints S E Conn Tx}.
Context `{!Erases S tt ts tp pt ps pp}.
Implicit Types (self : Consumer S) (m : MessageId) (ids : list MessageId).

Lemma erase_owning {A} (tx : Tx) (p : prog (tracedE E) A) :
  erase (Impl.owning tx p) ≈ Impl.owning tx (erase p).
Proof. unfold Impl.owning, scoped_with. simpl. by rewrite er_drop. Qed.

Lemma erase_try_owning {A B} (tx : Tx) (p : prog (tracedE E) (result A InboxError))
    (f : A -> prog (tracedE E) (result B InboxError)) :
  erase (Impl.bind_try_owning tx p f) ≈ Impl.bind_try_owning tx (erase p) (fun a => erase (f a)).
Proof.
  unfold Impl.bind_try_owning. rewrite erase_bind, erase_owning. f_equiv. intros [a|e]; [done|].
  by rewrite erase_bind, er_drop.
Qed.

#[local] Instance owning_peq {A} (tx : Tx) :
  Proper (peq ==> peq) (@Impl.owning E Conn Tx pt A tx).
Proof. intros p q Hp. unfold Impl.owning. by f_equiv. Qed.

#[local] Instance try_owning_peq {A B} (tx : Tx) :
  Proper (peq ==> pointwise_relation A peq ==> peq) (@Impl.bind_try_owning E Conn Tx pt A B tx).
Proof.
  intros p q Hp f g Hf. unfold Impl.bind_try_owning. rewrite Hp. f_equiv.
  intros [a|e]; [apply Hf|done].
Qed.

Lemma process_erase self m (ht : Conn -> prog (tracedE E) (result T HandlerError))
    (h : Conn -> prog E (result T HandlerError)) :
  (forall conn, erase (ht conn) ≈ h conn) ->
  erase (Traced.process self m ht) ≈ Impl.process self m h.
Proof.
  intros Hh. unfold Traced.process, Impl.process, Impl.claim.
  rewrite erase_instrument, erase_bind_try, er_begin. f_equiv. intros tx.
  rewrite erase_try_owning, er_deref, er_claim. f_equiv. intros [|].
  - rewrite erase_bind, erase_owning, Hh. f_equiv. intros [v|e].
    + rewrite erase_bind_try, er_commit. done.
    + rewrite erase_bind, er_rollback. f_equiv. by intros [[]|].
  - rewrite erase_bind_try, er_rollback. done.
Qed.

Lemma claim_many_erase self (conn : Conn) ids :
  erase (Impl.claim_many self conn ids) ≈ Impl.claim_many self conn ids.
Proof.
  unfold Impl.claim_many. case_decide; [done|]. rewrite erase_bind_try, er_claim_many. f_equiv.
  intros claims. destruct (negb _); [done|]. by destruct (take_answers _ _).
Qed.

Lemma process_many_loop_erase self (conn : Conn)
    (ht : Conn -> MessageId -> prog (tracedE E) (result T HandlerError))
    (h : Conn -> MessageId -> prog E (result T HandlerError)) items :
  (forall conn m, erase (ht conn m) ≈ h conn m) ->
  forall pending failed results,
  erase (Traced.process_many_loop self conn ht items pending failed results)
    ≈ Impl.process_many_loop self conn h items pending failed results.
Proof.
  intros Hh. induction items as [|[m []] items IH]; intros pending failed results; simpl; [done| |].
  - destruct pending as [|pending]; [done|]. rewrite erase_bind, Hh. f_equiv. intros r.
    rewrite erase_bind_try. f_equiv.
    + destruct r as [v|e]; [done|]. rewrite erase_bind_try, er_rollback_to. f_equiv. intros _.
      rewrite erase_bind_try, er_unclaim. done.
    + intros fr. rewrite erase_bind_try. f_equiv; [|intros _; apply IH].
      case_decide; [apply er_release_and_savepoint|apply er_release].
  - case_decide; [apply IH|]. rewrite erase_bind. apply IH.
Qed.

Lemma process_many_erase self ids
    (ht : Conn -> MessageId -> prog (tracedE E) (result T HandlerError))
    (h : Conn -> MessageId -> prog E (result T HandlerError)) :
  (forall conn m, erase (ht conn m) ≈ h conn m) ->
  erase (Traced.process_many self ids ht) ≈ Impl.process_many self ids h.
Proof.
  intros Hh. unfold Traced.process_many, Impl.process_many. rewrite erase_instrument.
  case_decide; [done|]. rewrite erase_bind_try, er_begin. f_equiv. intros tx.
  rewrite erase_try_owning. f_equiv.
  - rewrite erase_bind_try, er_deref, claim_many_erase. f_equiv. intros claims. cbv zeta.
    rewrite erase_bind_try. f_equiv.
    + case_decide; [apply er_savepoint|done].
    + intros _. by apply process_many_loop_erase.
  - intros results. rewrite erase_bind_try, er_commit. done.
Qed.

(** The two translations of the consumer, with its spans and events here and
    without them in [Impl], agree: over a store whose own spans erase, they end
    the same way in the same world, in every world and wherever the future is
    dropped.  So every theorem about [Impl] carries over. *)
Lemma tracing_transparent {W : Type} (ev : forall A, E A -> W -> A * W) self m ids
    (one_t : Conn -> prog (tracedE E) (result T HandlerError))
    (one : Conn -> prog E (result T HandlerError))
    (each_t : Conn -> MessageId -> prog (tracedE E) (result T HandlerError))
    (each : Conn -> MessageId -> prog E (result T HandlerError)) b w :
  (forall conn, erase (one_t conn) ≈ one conn) ->
  (forall conn m, erase (each_t conn m) ≈ each conn m) ->
  fst (run_traced ev b (Traced.process self m one_t) w) = run ev b (Impl.process self m one) w /\
  fst (run_traced ev b (Traced.process_many self ids each_t) w)
    = run ev b (Impl.process_many self ids each) w.
Proof.
  intros H1 H2. rewrite !run_traced_erase. split; apply run_peq.
  - by apply process_erase.
  - by apply process_many_erase.
Qed.
End Transparent.
