(* ===== verification/TracingLog.v ===== *)
(** * The log

    What the log of [process] and [process_many] says, for the code with its
    tracing calls ([Traced] of [Tracing.v]): which events are emitted on every
    end of a call, in which span, and that the level WARN is kept for a
    transaction that could not be rolled back. *)

From S2P Require Import Prelude Text Errors Durations Types Store Consumer Tracing.

(** The events of this crate, with the spans they are in. *)
Fixpoint txbox_events {E : Type -> Type} (l : list (Entry E)) : list (list Span * Event) :=
  match l with
  | [] => []
  | Awaited _ _ :: l => txbox_events l
  | Logged spans event :: l =>
      if String.prefix "txbox" (target event) then (spans, event) :: txbox_events l
      else txbox_events l
  end.

Lemma txbox_events_app {E : Type -> Type} (l l' : list (Entry E)) :
  txbox_events (l ++ l') = txbox_events l ++ txbox_events l'.
Proof.
  induction l as [|[spans A e|spans event] l IH]; simpl; [done|done|].
  rewrite IH. by destruct (String.prefix _ _).
Qed.

Lemma txbox_events_in {E : Type -> Type} span (l : list (Entry E)) :
  txbox_events (entries_in span l) = prod_map (cons span) (fun e => e) <$> txbox_events l.
Proof.
  induction l as [|[spans A e|spans event] l IH]; simpl; [done|done|]. rewrite IH.
  by destruct (String.prefix _ _).
Qed.

Section Logs.
Context {E : Type -> Type} {W : Type}.
Variable ev : forall A, E A -> W -> A * W.

(** However [p] ends, its end and the events of this crate satisfy [P]. *)
Definition logs {R : Type} (p : prog (tracedE E) R)
    (P : outcome R -> list (list Span * Event) -> Prop) : Prop :=
  forall b w, let '(o, _, _, l) := run_traced ev b p w in P o (txbox_events l).

Definition silent {R : Type} (p : prog (tracedE E) R) : Prop := logs p (fun _ l => l = []).

(** [p] may answer [r]. *)
Definition may_answer {R : Type} (p : prog (tracedE E) R) (r : R) : Prop :=
  exists b w b' w' l, run_traced ev b p w = (Done r, b', w', l).

Lemma logs_mono {R} (p : prog (tracedE E) R) (P Q : outcome R -> list (list Span * Event) -> Prop) :
  logs p P -> (forall o l, P o l -> Q o l) -> logs p Q.
Proof. intros Hp HQ b w. specialize (Hp b w). destruct (run_traced _ b p w) as [[[o b'] w'] l]. auto. Qed.

Lemma logs_ret {R} (r : R) (P : outcome R -> list (list Span * Event) -> Prop) :
  P (Done r) [] -> logs (Ret r) P.
Proof. by intros H b w. Qed.

Lemma logs_emit event : String.prefix "txbox" (target event) = true ->
  logs (emit event) (fun o l => o = Done tt /\ l = [([], event)]).
Proof. intros H b w. simpl. by rewrite H. Qed.

Lemma logs_bind {A B} (p : prog (tracedE E) A) (f : A -> prog (tracedE E) B)
    (P : outcome A -> list (list Span * Event) -> Prop)
    (Q : outcome B -> list (list Span * Event) -> Prop) :
  logs p P ->
  (forall a l, may_answer p a -> P (Done a) l -> logs (f a) (fun o l' => Q o (l ++ l'))) ->
  (forall m l, P (Panicked m) l -> Q (Panicked m) l) -> (forall l, P Cancelled l -> Q Cancelled l) ->
  logs (bind p f) Q.
Proof.
  intros Hp Hf Hm Hc b w. specialize (Hp b w). rewrite run_traced_bind.
  destruct (run_traced ev b p w) as [[[[a|m|] b'] w'] l] eqn:Hr; [|auto..].
  assert (may_answer p a) as Ha by (by exists b, w, b', w', l). specialize (Hf a _ Ha Hp b' w').
  destruct (run_traced ev b' (f a) w') as [[[o b''] w''] l'].
  by rewrite txbox_events_app.
Qed.

(** What follows a silent program, and a silent one with [?]. *)
Lemma logs_after {A B} (p : prog (tracedE E) A) (f : A -> prog (tracedE E) B)
    (Q : outcome B -> list (list Span * Event) -> Prop) :
  silent p -> (forall a, may_answer p a -> logs (f a) Q) ->
  (forall m, Q (Panicked m) []) -> Q Cancelled [] -> logs (bind p f) Q.
Proof.
  intros Hp Hf Hm Hc. eapply logs_bind; [exact Hp| | |]; simpl.
  - intros a l Ha ->. by apply Hf.
  - by intros m l ->.
  - by intros l ->.
Qed.

Lemma logs_try {A B Err} (p : prog (tracedE E) (result A Err))
    (f : A -> prog (tracedE E) (result B Err)) (Q : outcome (result B Err) -> list (list Span * Event) -> Prop) :
  silent p -> (forall a, may_answer p (Ok a) -> logs (f a) Q) ->
  (forall e, may_answer p (Error e) -> Q (Done (Error e)) []) ->
  (forall m, Q (Panicked m) []) -> Q Cancelled [] -> logs (bind_try p f) Q.
Proof.
  intros Hp Hf He Hm Hc. unfold bind_try. apply logs_after; [done| |done|done].
  intros [a|e] Ha; [by apply Hf|by apply logs_ret, He].
Qed.

(** The same with what is known of the value. *)
Lemma logs_try_value {A B Err} (p : prog (tracedE E) (result A Err))
    (f : A -> prog (tracedE E) (result B Err)) (P : A -> Prop)
    (Q : outcome (result B Err) -> list (list Span * Event) -> Prop) :
  logs p (fun o l => l = [] /\ forall a, o = Done (Ok a) -> P a) ->
  (forall a, P a -> logs (f a) Q) -> (forall o, (forall b, o <> Done (Ok b)) -> Q o []) ->
  logs (bind_try p f) Q.
Proof.
  intros Hp Hf HQ. unfold bind_try. eapply logs_bind; [exact Hp| | |]; simpl.
  - intros [a|e] l _ [-> Ha]; [by apply Hf, Ha|]. by apply logs_ret, HQ.
  - intros m l [-> _]. by apply HQ.
  - intros l [-> _]. by apply HQ.
Qed.

Lemma logs_scoped {A} (c : prog (tracedE E) unit) (p : prog (tracedE E) A)
    (P : outcome A -> list (list Span * Event) -> Prop) :
  silent c -> logs p P -> logs (scoped_with c p) P.
Proof.
  intros Hc Hp b w. specialize (Hp b w). simpl.
  destruct (run_traced ev b p w) as [[[[a|m|] b'] w'] l]; [by rewrite app_nil_r| |];
    specialize (Hc None w'); destruct (run_traced ev None c w') as [[[o b''] w''] l']; simpl in Hc;
    by rewrite txbox_events_app, Hc, app_nil_r.
Qed.

Lemma logs_instrument {R} span (p : prog (tracedE E) R)
    (P : outcome R -> list (list Span * Event) -> Prop) :
  logs p P ->
  logs (instrument span p) (fun o l => exists l0, P o l0 /\ l = prod_map (cons span) (fun e => e) <$> l0).
Proof.
  intros Hp b w. specialize (Hp b w). rewrite run_traced_instrument.
  destruct (run_traced ev b p w) as [[[o b'] w'] l]. eexists. split; [exact Hp|].
  apply txbox_events_in.
Qed.

Lemma silent_instrument {R} span (p : prog (tracedE E) R) : silent p -> silent (instrument span p).
Proof. intros Hp%(logs_instrument span). eapply logs_mono; [exact Hp|]. by intros o l (l0 & -> & ->). Qed.

Lemma silent_vis {A R} spans (e : E A) (k : A -> prog (tracedE E) R) :
  (forall a, silent (k a)) -> silent (Vis (Call spans e) k).
Proof.
  intros Hk b w. simpl. destruct b as [[[|n] x]|]; [done| |]; destruct (ev A e w) as [a w'].
  - specialize (Hk a (Some (n, x)) w'). by destruct (run_traced _ _ (k a) w') as [[[o b'] w''] l].
  - specialize (Hk a None w'). by destruct (run_traced _ _ (k a) w') as [[[o b'] w''] l].
Qed.

Lemma silent_untraced {R} (p : prog E R) : silent (untraced p).
Proof.
  unfold untraced. induction p as [R r|R m|R A e k IH|R A c IHc body IHb k IH]; [done|done| |].
  - by apply (silent_vis [] e).
  - change (silent (bind (scoped_with (lift (fun A e => Call [] e) c) (lift (fun A e => Call [] e) body))
              (fun a => lift (fun A e => Call [] e) (k a)))).
    apply logs_after; [by apply logs_scoped|intros a _; apply IH|done|done].
Qed.
End Logs.

(** ** The code *)

(** A store that emits no event of this crate, and keeps the error [Handler] for
    the caller's handler. *)
Class QuietStore (S : Type) {E : Type -> Type} {Conn Tx W : Type}
    (ev : forall A, E A -> W -> A * W) `{Savepoints S (tracedE E) Conn Tx} : Prop := {
  qs_drop tx : silent ev (drop_tx tx);
  qs_begin s : silent ev (Store.begin s);
  qs_commit s tx : silent ev (Store.commit s tx);
  qs_rollback s tx : silent ev (Store.rollback s tx);
  qs_claim s conn r : silent ev (Store.claim s conn r);
  qs_claim_many s conn b : silent ev (Store.claim_many s conn b);
  qs_savepoint s conn : silent ev (Store.savepoint s conn);
  qs_release_and_savepoint s conn : silent ev (Store.release_and_savepoint s conn);
  qs_release s conn : silent ev (Store.release s conn);
  qs_rollback_to s conn : silent ev (Store.rollback_to s conn);
  qs_unclaim s conn c m : silent ev (Store.unclaim s conn c m);
  qs_begin_error s e : ~ may_answer ev (Store.begin s) (Error (Handler e));
  qs_commit_error s tx e : ~ may_answer ev (Store.commit s tx) (Error (Handler e));
  qs_rollback_error s tx e : ~ may_answer ev (Store.rollback s tx) (Error (Handler e));
  qs_claim_error s conn r e : ~ may_answer ev (Store.claim s conn r) (Error (Handler e));
}.
#[export] Hint Resolve qs_drop qs_begin qs_commit qs_rollback qs_claim qs_claim_many qs_savepoint
  qs_release_and_savepoint qs_release qs_rollback_to qs_unclaim : txbox.

Section Consumers.
Context {S : Type} {E : Type -> Type} {Conn Tx W T : Type}.
Context (ev : forall A, E A -> W -> A * W).
Context `{Transaction (tracedE E) Conn Tx, !InboxStore S (tracedE E) Conn Tx}.
Context `{!Savepoints S (tracedE E) Conn Tx, !QuietStore S ev}.
Implicit Types (self : Consumer S) (m : MessageId) (ids : list MessageId).

(** The events of a call of [process] that ends with [o]. *)
Definition process_events self m (o : outcome (result (Outcome T) InboxError)) (l : list Event) : Prop :=
  match o with
  | Done (Ok (Processed _)) => l = [message_processed (id self) m]
  | Done (Ok OutcomeDuplicate) => l = [duplicate_skipped (id self) m]
  | Done (Error (Handler _)) =>
      exists tx r, may_answer ev (Store.rollback (store self) tx) r /\
        l = match r with Ok _ => [] | Error e => [rollback_failed (id self) m e] end
  | _ => l = []
  end.

(** The event of one message of a batch. *)
Definition result_event self (x : MessageId * ProcessResult T) : option Event :=
  match snd x with Ok OutcomeDuplicate => Some (duplicate_skipped (id self) (fst x)) | _ => None end.

(** The events of a call of [process_many] that ends with [o]. *)
Definition process_many_events self ids (o : outcome (result (list (ProcessResult T)) InboxError))
    (l : list Event) : Prop :=
  match o with
  | Done (Ok results) =>
      length results = length ids /\ l = omap (result_event self) (zip ids results)
  | _ => l `sublist_of` (duplicate_skipped (id self) <$> ids)
  end.

Lemma logs_owning {A} (tx : Tx) (p : prog (tracedE E) A) P :
  logs ev p P -> logs ev (Impl.owning tx p) P.
Proof. apply logs_scoped, qs_drop. Qed.

Lemma may_answer_owning {A} (tx : Tx) (p : prog (tracedE E) A) a :
  may_answer ev (Impl.owning tx p) a -> may_answer ev p a.
Proof.
  intros (b & w & b' & w' & l & Hr). simpl in Hr.
  destruct (run_traced ev b p w) as [[[[a'|m|] b1] w1] l1] eqn:Hp; simplify_eq.
  - by exists b, w, b', w', l1.
  - by destruct (run_traced ev None (drop_tx tx) w1) as [[[? ?] ?] ?].
  - by destruct (run_traced ev None (drop_tx tx) w1) as [[[? ?] ?] ?].
Qed.

(** [?] in a future that owns a transaction. *)
Lemma logs_try_owning {A B} (tx : Tx) (p : prog (tracedE E) (result A InboxError))
    (f : A -> prog (tracedE E) (result B InboxError)) P Q :
  logs ev p P ->
  (forall a l, P (Done (Ok a)) l -> logs ev (f a) (fun o l' => Q o (l ++ l'))) ->
  (forall e l, may_answer ev p (Error e) -> P (Done (Error e)) l ->
     Q (Done (Error e)) l /\ (forall s, Q (Panicked s) l) /\ Q Cancelled l) ->
  (forall s l, P (Panicked s) l -> Q (Panicked s) l) -> (forall l, P Cancelled l -> Q Cancelled l) ->
  logs ev (Impl.bind_try_owning tx p f) Q.
Proof.
  intros Hp Hf He Hs Hc. unfold Impl.bind_try_owning.
  eapply logs_bind; [by apply logs_owning| |done|done].
  intros [a|e] l Ha%may_answer_owning HP; [by apply Hf|].
  destruct (He e l Ha HP) as (H1 & H2 & H3).
  apply logs_after; [apply qs_drop| |by rewrite app_nil_r|by rewrite app_nil_r].
  intros [] _. apply logs_ret. by rewrite app_nil_r.
Qed.

(** The events, before the span of the call is around them. *)
Definition plainly {R : Type} (P : outcome R -> list Event -> Prop) (o : outcome R)
    (l : list (list Span * Event)) : Prop :=
  exists events, l = pair [] <$> events /\ P o events.

Lemma logs_then {R} event (P : outcome R -> list Event -> Prop) r :
  String.prefix "txbox" (target event) = true -> P (Done r) [event] ->
  logs ev (_ <- emit event ;; Ret r) (plainly P).
Proof. intros Ht HP b w. simpl. rewrite Ht. by exists [event]. Qed.

Lemma plainly_nil {R} (P : outcome R -> list Event -> Prop) o : P o [] -> plainly P o [].
Proof. by exists []. Qed.

Ltac no_events := intros; simpl in *; subst; apply plainly_nil; done.

(** A store's error leaves no event. *)
Lemma store_error_plain {A} self m (p : prog (tracedE E) (result A InboxError)) err :
  (forall e, ~ may_answer ev p (Error (Handler e))) -> may_answer ev p (Error err) ->
  plainly (process_events self m) (Done (Error err)) [].
Proof. intros Hp He. destruct err; try no_events. by apply Hp in He. Qed.

Lemma process_logs self m (handler : Conn -> prog (tracedE E) (result T HandlerError)) :
  (forall conn, silent ev (handler conn)) ->
  logs ev (Traced.process self m handler)
    (fun o l => exists events, process_events self m o events /\
                  l = pair [process_span (id self) m] <$> events).
Proof.
  intros Hh. unfold Traced.process. eapply logs_mono.
  - apply logs_instrument with (P := plainly (process_events self m)).
    apply logs_try; [apply qs_begin| |intros e; apply store_error_plain, qs_begin_error|no_events..].
    intros tx _. eapply logs_try_owning; [apply qs_claim| | |no_events..]; simpl.
    2:{ intros e l Ha ->. split_and!; [|no_events..]. revert Ha. apply store_error_plain, qs_claim_error. }
    intros c l ->. simpl. destruct c.
    + apply logs_after; [apply logs_owning, Hh| |no_events..]. intros [v|e] _.
      * apply logs_try; [apply qs_commit|by intros; apply logs_then| |no_events..].
        intros e. apply store_error_plain, qs_commit_error.
      * apply logs_after; [apply qs_rollback| |no_events..]. intros [[]|e'] Ha.
        -- apply logs_ret, plainly_nil. by exists tx, (Ok tt).
        -- apply logs_then; [done|]. by exists tx, (Error e').
    + apply logs_try; [apply qs_rollback|by intros; apply logs_then| |no_events..].
      intros e. apply store_error_plain, qs_rollback_error.
  - intros o l (l0 & (events & -> & Hl) & ->). exists events. split; [done|]. by rewrite <- list_fmap_compose.
Qed.

Lemma take_answers_length answers ids claims :
  take_answers answers ids = Some claims -> length claims = length ids.
Proof.
  revert answers claims. induction ids as [|m ids IH]; intros answers claims; simpl; [by intros [= <-]|].
  destruct (answers !! _); [|done]. intros (l & Hl & ->)%fmap_Some. simpl. f_equal. by eapply IH.
Qed.

Lemma claim_many_logs self (conn : Conn) ids :
  logs ev (Impl.claim_many self conn ids)
    (fun o l => l = [] /\ forall claims, o = Done (Ok claims) -> length claims = length ids).
Proof.
  unfold Impl.claim_many. case_decide as Hids.
  - apply logs_ret. split; [done|]. intros claims [= <-]. by rewrite Hids.
  - apply logs_try; [apply qs_claim_many| |done..]. intros claims _. destruct (negb _); [by apply logs_ret|].
    destruct (take_answers _ ids) as [l|] eqn:Ht; [|by intros b w].
    apply logs_ret. split; [done|]. intros claims' [= <-]. by eapply take_answers_length.
Qed.

(** The loop from [results] on. *)
Definition loop_log self (items : list (MessageId * Claim)) results (o : outcome (result (list (ProcessResult T)) InboxError))
    (l : list Event) : Prop :=
  match o with
  | Done (Ok rs) => exists more, rs = results ++ more /\ length more = length items /\
                      l = omap (result_event self) (zip items.*1 more)
  | _ => l `sublist_of` (duplicate_skipped (id self) <$> items.*1)
  end.

Lemma loop_log_cons self m (c : Claim) items results r o l :
  result_event self (m, r) = None ->
  loop_log self items (results ++ [r]) o l -> loop_log self ((m, c) :: items) results o l.
Proof.
  intros Hr. unfold loop_log. destruct o as [[rs|e]|s|]; [|by apply sublist_cons..].
  intros (more & -> & Hl & ->). exists (r :: more). rewrite <- app_assoc. simpl. by rewrite Hl, Hr.
Qed.

Lemma loop_log_duplicate self m items results o l :
  loop_log self items (results ++ [Ok OutcomeDuplicate]) o l ->
  loop_log self ((m, Duplicate) :: items) results o (duplicate_skipped (id self) m :: l).
Proof.
  unfold loop_log. destruct o as [[rs|e]|s|]; [|by apply sublist_skip..].
  intros (more & -> & Hl & ->). exists (Ok OutcomeDuplicate :: more). rewrite <- app_assoc. simpl.
  by rewrite Hl.
Qed.

Lemma loop_log_abrupt self items results o :
  (forall rs, o <> Done (Ok rs)) -> loop_log self items results o [].
Proof. intros Ho. destruct o as [[rs|e]|s|]; [by destruct (Ho rs)|apply sublist_nil_l..]. Qed.

Lemma loop_plain_abrupt self items results o :
  (forall rs, o <> Done (Ok rs)) -> plainly (loop_log self items results) o [].
Proof. intros Ho. by apply plainly_nil, loop_log_abrupt. Qed.

Lemma process_many_loop_logs self (conn : Conn)
    (handler : Conn -> MessageId -> prog (tracedE E) (result T HandlerError)) items :
  (forall conn m, silent ev (handler conn m)) ->
  forall pending failed results,
  logs ev (Traced.process_many_loop self conn handler items pending failed results)
    (plainly (loop_log self items results)).
Proof.
  intros Hh. induction items as [|[m []] items IH]; intros pending failed results; simpl.
  - apply logs_ret, plainly_nil. exists []. by rewrite app_nil_r.
  - destruct pending as [|pending]; [intros b w; by apply loop_plain_abrupt|].
    apply logs_after; [apply Hh| |by intros; apply loop_plain_abrupt..]. intros r _.
    apply logs_try_value with
      (P := fun fr => exists x, snd fr = results ++ [x] /\ result_event self (m, x) = None).
    + destruct r as [v|e].
      * apply logs_ret. split; [done|]. intros fr [= <-]. by exists (Ok (Processed v)).
      * apply logs_try; [apply qs_rollback_to| |done..]. intros _ _.
        apply logs_try; [apply qs_unclaim| |done..]. intros _ _.
        apply logs_ret. split; [done|]. intros fr [= <-]. by exists (Error e).
    + intros fr (x & Hx & He). apply logs_try; [| |by intros; apply loop_plain_abrupt..].
      * case_decide; [apply qs_release_and_savepoint|apply qs_release].
      * intros _ _. eapply logs_mono; [apply IH|]. rewrite Hx.
        intros o l (events & -> & Hl). exists events. split; [done|]. by apply (loop_log_cons _ _ _ _ _ x).
    + intros o Ho. by apply loop_plain_abrupt.
  - case_decide.
    + eapply logs_mono; [apply IH|]. intros o l (events & -> & Hl). exists events. split; [done|].
      by eapply loop_log_cons, Hl.
    + eapply logs_bind; [by apply logs_emit| |by intros ? ? [? _]|by intros ? [? _]]. intros [] l _ [_ ->].
      eapply logs_mono; [apply IH|]. intros o l (events & -> & Hl).
      exists (duplicate_skipped (id self) m :: events). split; [done|]. by apply loop_log_duplicate.
Qed.

Lemma result_events_sublist self ids (rs : list (ProcessResult T)) :
  omap (result_event self) (zip ids rs) `sublist_of` (duplicate_skipped (id self) <$> ids).
Proof.
  revert rs. induction ids as [|m ids IH]; intros [|r rs]; csimpl; try apply sublist_nil_l.
  unfold result_event at 1. simpl. destruct r as [[v|]|e]; [apply sublist_cons|apply sublist_skip|apply sublist_cons]; apply IH.
Qed.

Lemma process_many_logs self ids
    (handler : Conn -> MessageId -> prog (tracedE E) (result T HandlerError)) :
  (forall conn m, silent ev (handler conn m)) ->
  logs ev (Traced.process_many self ids handler)
    (fun o l => exists events, process_many_events self ids o events /\
                  l = pair [process_many_span (id self) ids] <$> events).
Proof.
  intros Hh. unfold Traced.process_many. eapply logs_mono.
  - apply logs_instrument with (P := plainly (process_many_events self ids)).
    case_decide as Hids; [subst; apply logs_ret, plainly_nil; by split|].
    apply logs_try; [apply qs_begin| |intros; apply plainly_nil, sublist_nil_l..]. intros tx _.
    eapply logs_try_owning with (P := plainly (process_many_events self ids)).
    + eapply logs_try_value; [apply claim_many_logs| |].
      2:{ intros o Ho. apply plainly_nil. destruct o as [[rs|e]|s|]; [by destruct (Ho rs)|apply sublist_nil_l..]. }
      intros claims Hclaims. simpl in Hclaims |- *. apply logs_try; [| |intros; apply plainly_nil, sublist_nil_l..].
      * case_decide; [apply qs_savepoint|by apply logs_ret].
      * intros _ _. eapply logs_mono; [by apply process_many_loop_logs|].
        intros o l (events & -> & Hl). exists events. split; [done|]. revert Hl.
        unfold loop_log, process_many_events. rewrite fst_zip, length_zip_with_l_eq by lia.
        destruct o as [[rs|e]|s|]; [|done..]. by intros (more & -> & ? & ->).
    + intros rs l (events & -> & Hlen & ->). pose proof (result_events_sublist self ids rs) as Hs.
      apply logs_try; [apply qs_commit| |intros; rewrite app_nil_r; eexists; by split..].
      intros _ _. apply logs_ret. rewrite app_nil_r. eexists. by split.
    + intros e l _ (events & -> & Hl). split_and!; [|intros s|]; by exists events.
    + done.
    + done.
  - intros o l (l0 & (events & -> & Hl) & ->). exists events. split; [done|]. by rewrite <- list_fmap_compose.
Qed.

(** Everything an instrumented call awaits and logs is in its span. *)
Lemma all_in_span {R} span (p : prog (tracedE E) R) b w o b' w' l :
  run_traced ev b (instrument span p) w = (o, b', w', l) ->
  Forall (fun e => head (entry_spans e) = Some span) l.
Proof.
  rewrite run_traced_instrument. destruct (run_traced ev b p w) as [[[o0 b0] w0] l0]. intros [= _ _ _ <-].
  clear. induction l0 as [|[spans A e|spans event] l0 IH]; by constructor.
Qed.

(** *** What a reader of the log sees *)

(** The event names the consumer and the message. *)
Definition names (c : ConsumerId) m (e : Event) : Prop :=
  ("consumer"%string, FText (Consumer_Id.as_str c)) ∈ fields e /\
  ("message_id"%string, FText (Message_Id.as_str m)) ∈ fields e.

Definition tells_duplicate (c : ConsumerId) m (e : Event) : Prop :=
  target e = "txbox::duplicate"%string /\ level e = DEBUG /\ names c m e.

Definition tells_processed (c : ConsumerId) m (e : Event) : Prop :=
  target e = "txbox::consumer"%string /\ level e = DEBUG /\ names c m e.

Definition tells_failed_rollback (c : ConsumerId) m (err : InboxError) (e : Event) : Prop :=
  target e = "txbox::consumer"%string /\ level e = WARN /\ names c m e /\
  ("error"%string, FError err) ∈ fields e.

(** The events of a call of [process] that ends with [o]. *)
Definition process_log self m (o : outcome (result (Outcome T) InboxError)) (l : list Event) : Prop :=
  match o with
  | Done (Ok (Processed _)) => exists e, l = [e] /\ tells_processed (id self) m e
  | Done (Ok OutcomeDuplicate) => exists e, l = [e] /\ tells_duplicate (id self) m e
  | Done (Error (Handler _)) =>
      exists tx r, may_answer ev (Store.rollback (store self) tx) r /\
        match r with
        | Ok _ => l = []
        | Error err => exists e, l = [e] /\ tells_failed_rollback (id self) m err e
        end
  | _ => l = []
  end.

(** The messages of a batch whose result is [Duplicate]. *)
Definition duplicates ids (results : list (ProcessResult T)) : list MessageId :=
  omap (fun x : MessageId * ProcessResult T =>
          match snd x with Ok OutcomeDuplicate => Some (fst x) | _ => None end) (zip ids results).

(** The events of a call of [process_many] that ends with [o]. *)
Definition process_many_log self ids (o : outcome (result (list (ProcessResult T)) InboxError))
    (l : list Event) : Prop :=
  match o with
  | Done (Ok results) =>
      length results = length ids /\ Forall2 (tells_duplicate (id self)) (duplicates ids results) l
  | _ => exists some, some `sublist_of` ids /\ Forall2 (tells_duplicate (id self)) some l
  end.

Lemma names_message_fields c m : names c m (mkEvent "" DEBUG (message_fields c m) "").
Proof. split; apply (bool_decide_eq_true_1 (_ ∈ _) eq_refl) || (simpl; set_solver). Qed.

Lemma duplicate_skipped_tells c m : tells_duplicate c m (duplicate_skipped c m).
Proof. split; [done|]. split; [done|]. apply (names_message_fields c m). Qed.

Lemma process_events_log self m o l : process_events self m o l -> process_log self m o l.
Proof.
  destruct o as [[[v|]|[]]|s|]; simpl; try done.
  - intros ->. eexists. split; [done|]. split; [done|]. split; [done|]. apply (names_message_fields (id self) m).
  - intros ->. eexists. split; [done|]. apply duplicate_skipped_tells.
  - intros (tx & r & Hr & ->). exists tx, r. split; [done|]. destruct r as [|err]; [done|].
    eexists. split; [done|]. split; [done|]. split; [done|].
    destruct (names_message_fields (id self) m) as [H1 H2]. simpl in *. unfold names. simpl.
    split; [set_solver|]. set_solver.
Qed.

Lemma result_events_tell self ids (results : list (ProcessResult T)) :
  Forall2 (tells_duplicate (id self)) (duplicates ids results)
    (omap (result_event self) (zip ids results)).
Proof.
  unfold duplicates. induction (zip ids results) as [|[m r] l IH]; simpl; [constructor|].
  unfold result_event at 1. simpl. destruct r as [[v|]|e]; [done| |done].
  constructor; [apply duplicate_skipped_tells|done].
Qed.

Lemma sublist_tells self ids l :
  l `sublist_of` (duplicate_skipped (id self) <$> ids) ->
  exists some, some `sublist_of` ids /\ Forall2 (tells_duplicate (id self)) some l.
Proof.
  revert l; induction ids as [|m ids IH]; intros l Hl; simpl in Hl.
  - apply sublist_nil_r in Hl as ->. exists []. by split.
  - apply sublist_cons_r in Hl as [Hl|(l' & -> & Hl)]; destruct (IH _ Hl) as (some & Hs & Ht).
    + exists some. split; [by apply sublist_cons|done].
    + exists (m :: some). split; [by apply sublist_skip|].
      constructor; [apply duplicate_skipped_tells|done].
Qed.

Lemma process_many_events_log self ids o l :
  process_many_events self ids o l -> process_many_log self ids o l.
Proof.
  destruct o as [[results|e]|s|]; simpl; [|by apply sublist_tells..].
  intros [Hl ->]. split; [done|]. apply result_events_tell.
Qed.

(** The span of a call: DEBUG, with what the call is about. *)
Definition in_process_span self m (spans : list Span) : Prop :=
  exists rest, spans = mkSpan "inbox.process" DEBUG
    [("consumer"%string, FText (Consumer_Id.as_str (id self)));
     ("message_id"%string, FText (Message_Id.as_str m))] :: rest.

Definition in_process_many_span self ids (spans : list Span) : Prop :=
  exists rest, spans = mkSpan "inbox.process_many" DEBUG
    [("consumer"%string, FText (Consumer_Id.as_str (id self)));
     ("count"%string, FCount (length ids))] :: rest.

Lemma in_span_by (P : list Span -> Prop) span (l : list (Entry E)) :
  (forall rest, P (span :: rest)) ->
  Forall (fun e => head (entry_spans e) = Some span) l -> Forall (fun e => P (entry_spans e)) l.
Proof.
  intros HP Hl. induction Hl as [|e l He Hl IH]; constructor; [|done].
  destruct (entry_spans e) as [|s rest]; [done|]. injection He as ->. apply HP.
Qed.

(** C31 (the log tells what happened). On every end of a call of [process], with
    a silent handler: a processed message is logged once, at DEBUG under the
    target [txbox::consumer]; a duplicate once, at DEBUG under the target
    [txbox::duplicate]; a failed handler not at all, unless its transaction could
    not be rolled back: that is logged once, at WARN, with the error, and is the
    only event that is not at DEBUG; and nothing on any other end, cancellation
    included.  Every event names the consumer and the message.  [process_many]
    logs, in order, exactly the messages whose result is [Duplicate], and on any
    other end some of the batch's messages, each at DEBUG under
    [txbox::duplicate].  All of it, and every call of the store, happens in the
    span of the call, at DEBUG, which names the consumer and the message or the
    size of the batch. *)
Theorem log_tells_outcome self m ids
    (one : Conn -> prog (tracedE E) (result T HandlerError))
    (each : Conn -> MessageId -> prog (tracedE E) (result T HandlerError)) b w :
  (forall conn, silent ev (one conn)) -> (forall conn m, silent ev (each conn m)) ->
  (let '(o, _, _, l) := run_traced ev b (Traced.process self m one) w in
   Forall (fun e => in_process_span self m (entry_spans e)) l /\
   process_log self m o (txbox_events l).*2) /\
  (let '(o, _, _, l) := run_traced ev b (Traced.process_many self ids each) w in
   Forall (fun e => in_process_many_span self ids (entry_spans e)) l /\
   process_many_log self ids o (txbox_events l).*2).
Proof.
  intros H1%(process_logs self m) H2%(process_many_logs self ids). split.
  - specialize (H1 b w). destruct (run_traced _ _ _ w) as [[[o b'] w'] l] eqn:Hr.
    destruct H1 as (events & He & ->). rewrite <- list_fmap_compose, list_fmap_id.
    split; [|by apply process_events_log]. eapply in_span_by; [|by eapply all_in_span]. by eexists.
  - specialize (H2 b w). destruct (run_traced _ _ _ w) as [[[o b'] w'] l] eqn:Hr.
    destruct H2 as (events & He & ->). rewrite <- list_fmap_compose, list_fmap_id.
    split; [|by apply process_many_events_log]. eapply in_span_by; [|by eapply all_in_span]. by eexists.
Qed.
End Consumers.
