(* ===== verification/TracedBackends.v ===== *)
(** * Tracing of the backends

    The spans of [postgres.rs], [sqlite.rs] and [mysql.rs]: each backend wraps
    its claims, and PostgreSQL and MySQL the probe for known duplicates, in a
    span that names the backend.  The stores with these spans erase to the
    stores of [Postgres.v], [Sqlite.v] and [MySql.v] and emit no event, so that
    the theorems of [Tracing.v] and [TracingLog.v] hold of [Consumer] over each
    of them. *)

From S2P Require Import Prelude Text Errors Durations Types Store Consumer Tracing TracingLog.
From S2P Require Import Sqlx Sql Postgres Sqlite MySql.

(** ** The spans *)

Definition claim_span (backend : string) (consumer : ConsumerId) (mid : MessageId) : Span :=
  mkSpan "inbox.claim" DEBUG (message_fields consumer mid ++ [("backend"%string, FText (lit backend))]).

Definition claim_many_span (backend : string) (consumer : ConsumerId) (ids : list MessageId) : Span :=
  mkSpan "inbox.claim_many" DEBUG
    [("consumer"%string, FText (Consumer_Id.fmt consumer)); ("count"%string, FCount (length ids));
     ("backend"%string, FText (lit backend))].

Definition known_span (backend : string) (consumer : ConsumerId) (mid : MessageId) : Span :=
  mkSpan "inbox.is_known_duplicate" DEBUG
    (message_fields consumer mid ++ [("backend"%string, FText (lit backend))]).

#[export] Instance traced_tx : Transaction (tracedE sqlxE) nat nat := {|
  deref_mut tx := tx;
  drop_tx tx := untraced (drop_tx tx);
|}.

(** A backend with its spans; SQLite has none for [is_known_duplicate]. *)
Section Spans.
Context {S : Type} (backend : string) (spans_known : bool).
Context {ps : InboxStore S sqlxE nat nat} {pp : Savepoints S sqlxE nat nat}.

Definition with_spans : InboxStore S (tracedE sqlxE) nat nat := {|
  Store.begin s := untraced (Store.begin s);
  Store.commit s tx := untraced (Store.commit s tx);
  Store.rollback s tx := untraced (Store.rollback s tx);
  Store.claim s conn request :=
    instrument (claim_span backend (req_consumer request) (req_id request))
      (untraced (Store.claim s conn request));
  Store.claim_many s conn batch :=
    instrument (claim_many_span backend (batch_consumer batch) (batch_ids batch))
      (untraced (Store.claim_many s conn batch));
  Store.is_known_duplicate s consumer mid :=
    let p := untraced (Store.is_known_duplicate s consumer mid) in
    if spans_known then instrument (known_span backend consumer mid) p else p;
  Store.purge s fuel policy := untraced (Store.purge s fuel policy);
|}.

Definition with_spans_savepoints
  : @Savepoints S (tracedE sqlxE) nat nat traced_tx with_spans := {|
  Store.savepoint s conn := untraced (Store.savepoint s conn);
  Store.release_and_savepoint s conn := untraced (Store.release_and_savepoint s conn);
  Store.release s conn := untraced (Store.release s conn);
  Store.rollback_to s conn := untraced (Store.rollback_to s conn);
  Store.unclaim s conn c m := untraced (Store.unclaim s conn c m);
|}.

Lemma with_spans_erases :
  Erases S traced_tx with_spans with_spans_savepoints sqlx_tx ps pp.
Proof. split; intros; simpl; rewrite ?erase_instrument; apply erase_untraced || done. Qed.
End Spans.

#[export] Instance pg_traced : InboxStore PgInbox (tracedE sqlxE) nat nat :=
  with_spans "postgres" true.
#[export] Instance pg_traced_savepoints : Savepoints PgInbox (tracedE sqlxE) nat nat :=
  with_spans_savepoints "postgres" true.
#[export] Instance sqlite_traced `{!Chrono} : InboxStore SqliteInbox (tracedE sqlxE) nat nat :=
  with_spans "sqlite" false.
#[export] Instance sqlite_traced_savepoints `{!Chrono} :
  Savepoints SqliteInbox (tracedE sqlxE) nat nat := with_spans_savepoints "sqlite" false.
#[export] Instance mysql_traced : InboxStore MySqlInbox (tracedE sqlxE) nat nat :=
  with_spans "mysql" true.
#[export] Instance mysql_traced_savepoints : Savepoints MySqlInbox (tracedE sqlxE) nat nat :=
  with_spans_savepoints "mysql" true.

#[export] Instance pg_erases :
  Erases PgInbox traced_tx pg_traced pg_traced_savepoints sqlx_tx pg_store pg_savepoints.
Proof. apply with_spans_erases. Qed.
#[export] Instance sqlite_erases `{!Chrono} :
  Erases SqliteInbox traced_tx sqlite_traced sqlite_traced_savepoints sqlx_tx sqlite_store sqlite_savepoints.
Proof. apply with_spans_erases. Qed.
#[export] Instance mysql_erases :
  Erases MySqlInbox traced_tx mysql_traced mysql_traced_savepoints sqlx_tx mysql_store mysql_savepoints.
Proof. apply with_spans_erases. Qed.

(** ** No events, and no handler errors *)

Section Quiet.
Context {W : Type} (ev : forall A, sqlxE A -> W -> A * W).

(** [p] reports no error as the handler's. *)
Definition own_errors {A : Type} (p : prog sqlxE (result A InboxError)) : Prop :=
  forall w, wp ev p (fun o _ => forall e, o <> Done (Error (Handler e))) w.

Lemma own_errors_ok {A} (a : A) : own_errors (Ret (Ok a)).
Proof. intros w. by apply wp_ret. Qed.

Lemma own_errors_mapped {A} (f : SqlxError -> InboxError) (r : result A SqlxError) :
  (forall s e, f s <> Handler e) -> own_errors (Ret (map_err f r)).
Proof. intros Hf w. apply wp_ret. destruct r as [a|s]; [done|]. intros e [= He]. by apply Hf in He. Qed.

Lemma own_errors_try {A B} (p : prog sqlxE (result A InboxError))
    (f : A -> prog sqlxE (result B InboxError)) :
  own_errors p -> (forall a, own_errors (f a)) -> own_errors (bind_try p f).
Proof.
  intros Hp Hf w. apply wp_bind_try. eapply wp_mono; [apply Hp|].
  intros [[a|err]|m|] w' Ho; simpl; [apply Hf| |done|done]. intros e [= ->]. by apply (Ho e).
Qed.

Lemma own_errors_bind {A B} (p : prog sqlxE A) (f : A -> prog sqlxE (result B InboxError)) :
  (forall a, own_errors (f a)) -> own_errors (bind p f).
Proof.
  intros Hf w. apply wp_bind. intros b. destruct (run ev b p w) as [[[a|m|] b'] w']; simpl; [apply Hf|done..].
Qed.

Lemma own_errors_await {A} (f : SqlxError -> InboxError) (p : prog sqlxE (result A SqlxError)) :
  (forall s e, f s <> Handler e) -> own_errors (await_map_err f p).
Proof. intros Hf. apply own_errors_bind. intros r. by apply own_errors_mapped. Qed.

Lemma own_errors_backend {A} (p : prog sqlxE (result A SqlxError)) : own_errors (or_backend p).
Proof. by apply own_errors_await. Qed.

Lemma pg_claim_error_own s e : Postgres.claim_error s <> Handler e.
Proof. unfold Postgres.claim_error. repeat case_match; done. Qed.
Lemma sqlite_claim_error_own s e : Sqlite.claim_error s <> Handler e.
Proof. unfold Sqlite.claim_error. repeat case_match; done. Qed.
Lemma mysql_claim_error_own s e : MySql.claim_error s <> Handler e.
Proof. unfold MySql.claim_error. repeat case_match; done. Qed.

Lemma own_errors_answer {A} (q : prog (tracedE sqlxE) (result A InboxError)) p e :
  own_errors p -> erase q ≈ p -> ~ may_answer ev q (Error (Handler e)).
Proof.
  intros Hp Hq (b & w & b' & w' & l & Hr). pose proof (run_traced_erase ev q b w) as He.
  rewrite Hr, (run_peq _ _ Hq) in He. simpl in He. specialize (Hp w b). rewrite <- He in Hp. by eapply Hp.
Qed.

Create HintDb own_errors.
Hint Resolve own_errors_ok own_errors_try own_errors_bind own_errors_await own_errors_backend
  own_errors_mapped pg_claim_error_own sqlite_claim_error_own mysql_claim_error_own : own_errors.

Lemma with_spans_quiet {S : Type} backend known
    {ps : InboxStore S sqlxE nat nat} {pp : Savepoints S sqlxE nat nat} :
  (forall s, own_errors (Store.begin s)) -> (forall s tx, own_errors (Store.commit s tx)) ->
  (forall s tx, own_errors (Store.rollback s tx)) ->
  (forall s conn r, own_errors (Store.claim s conn r)) ->
  @QuietStore S sqlxE nat nat W ev traced_tx (with_spans backend known)
    (with_spans_savepoints backend known).
Proof.
  intros Hb Hc Hr Hcl.
  split; intros; simpl; try (by apply silent_instrument, silent_untraced); try apply silent_untraced.
  - by apply (own_errors_answer _ _ _ (Hb s)), erase_untraced.
  - by apply (own_errors_answer _ _ _ (Hc s tx)), erase_untraced.
  - by apply (own_errors_answer _ _ _ (Hr s tx)), erase_untraced.
  - apply (own_errors_answer _ _ _ (Hcl s conn r)). by rewrite erase_instrument, erase_untraced.
Qed.

#[export] Instance pg_quiet : QuietStore PgInbox ev.
Proof.
  apply with_spans_quiet; intros; simpl; unfold Postgres.begin, Postgres.commit, Postgres.rollback, Postgres.claim;
    eauto 12 with own_errors.
Qed.
#[export] Instance sqlite_quiet `{!Chrono} : QuietStore SqliteInbox ev.
Proof.
  apply with_spans_quiet; intros; simpl; unfold Sqlite.begin, Sqlite.commit, Sqlite.rollback, Sqlite.claim;
    eauto 12 with own_errors.
Qed.
#[export] Instance mysql_quiet : QuietStore MySqlInbox ev.
Proof.
  apply with_spans_quiet; intros; simpl; unfold MySql.begin, MySql.commit, MySql.rollback, MySql.claim;
    eauto 12 with own_errors.
Qed.
End Quiet.
