(* ===== verification/SharedSql.v ===== *)
(** * The backends under concurrency

    [PgInbox] and [SqliteInbox] as stores shared by concurrent transactions.
    What is assumed of the databases is said statement by statement, for the
    exact SQL texts, in terms of the shared database of [SharedDb.v]: an INSERT
    that skips conflicts waits for another transaction that has inserted the row
    and not ended yet, takes effect at one moment and counts the row or returns
    the ids it inserted; statements on a transaction the database has ended fail.
    Any statement may fail at any time, and what is then left of its transaction
    is what [on_open] of [SharedDb.v] allows: on PostgreSQL the transaction is
    aborted, back to its savepoint if it has one, and COMMIT answers [Ok] while it
    rolls back; SQLite keeps the transaction or, after some errors, rolls all of
    it back on its own.  A handler must therefore stop at its first failed
    statement and return an error ([handler_obeys]), as [?] does.  The methods of the backends then follow
    the protocol of [Protocol.v], and the theorem of [Interleaving.v] holds of
    consumers over them. *)

From S2P Require Import Prelude Text Errors Durations Types Store Consumer.
From S2P Require Import Steps SharedDb Protocol Interleaving.
From S2P Require Import Sqlx Sql Postgres Sqlite.

Section Sql.
Context {Item : Type}.
Implicit Types (g : Shared Item) (t : TxState Item) (n : nat) (k : str * str).

(** What a statement may answer, and how it changes the database. *)
Variable sql_can : forall A, sqlxE A -> Shared Item -> A -> Shared Item -> Prop.

(** ** What statements do *)

Definition begins (e : sqlxE (result nat SqlxError)) : Prop := forall g r g',
  sql_can _ e g r g' ->
  match r with Ok n => n = sh_next g /\ g' = begun g | Error _ => g' = g end.

(** A statement of a transaction, other than a claim. *)
Definition does {A : Type} (e : sqlxE (result A SqlxError)) n (st : SharedDb.stmt Item) : Prop :=
  forall g r g', sql_can _ e g r g' ->
  on_open n g g' r (fun _ => executed n st g g').

(** A statement of a transaction that touches no table. *)
Definition does_nothing {A : Type} (e : sqlxE (result A SqlxError)) n : Prop :=
  forall g r g', sql_can _ e g r g' -> on_open n g g' r (fun _ _ _ => g' = g).

(** An INSERT of one row that skips a conflict, and counts the row. *)
Definition claims_row (e : sqlxE (result Z SqlxError)) n k : Prop :=
  forall g r g', sql_can _ e g r g' ->
  on_open n g g' r (fun count t ls => tx_failed t = false ->
    unlocked n k g /\
    if decide (k ∈ tx_claims t ∪ recorded (sh_db g)) then count = 0%Z /\ g' = g
    else count = 1%Z /\ g' = set_tx n (claim_tx k t) ({[k]} ∪ ls) g).

Definition rows_of (c : str) (ids : list str) : gset (str * str) := list_to_set (pair c <$> ids).

Lemma elem_of_rows_of (c c' x : str) (ids : list str) : (c', x) ∈ rows_of c ids <-> c' = c /\ x ∈ ids.
Proof.
  unfold rows_of. rewrite elem_of_list_to_set, list_elem_of_fmap. split.
  - by intros (y & [= -> ->] & Hy).
  - intros [-> Hx]. by exists x.
Qed.

Definition claim_rows (ks : gset (str * str)) t : TxState Item :=
  mkTx (ks ∪ tx_claims t) (tx_writes t) (tx_save t).

(** An INSERT of several rows of [c], which returns the ids it inserted. *)
Definition claims_rows (e : sqlxE (result (list str) SqlxError)) n (c : str) (ids : list str) : Prop :=
  forall g r g', sql_can _ e g r g' ->
  on_open n g g' r (fun fresh t ls => tx_failed t = false ->
    (forall x, x ∈ ids -> unlocked n (c, x) g) /\
    (forall x, x ∈ fresh <-> x ∈ ids /\ (c, x) ∉ tx_claims t ∪ recorded (sh_db g)) /\
    g' = set_tx n (claim_rows (rows_of c fresh) t) (rows_of c fresh ∪ ls) g).

Definition finds (e : sqlxE (result bool SqlxError)) k : Prop :=
  forall g r g', sql_can _ e g r g' -> g' = g /\ (r = Ok true -> k ∈ recorded (sh_db g)).

(** ** What is assumed of the databases *)

(** How the handlers write. *)
Variable write_sql : nat -> Item -> sqlxE (result Z SqlxError).

Class SharedEngine : Prop := {
  sx_begin : begins PoolBegin;
  sx_commit n g r g' : sql_can _ (TxCommit n) g r g' -> committing n g (is_ok r) g';
  sx_rollback n g r g' : sql_can _ (TxRollback n) g r g' -> g' = ended n g;
  sx_drop n g r g' : sql_can _ (TxDrop n) g r g' -> g' = ended n g;
  sx_savepoint n : does (RawSql (OnConn n) SAVEPOINT_SQL) n Savepoint;
  sx_release_and_savepoint n :
    does (RawSql (OnConn n) RELEASE_AND_SAVEPOINT_SQL) n ReleaseAndSavepoint;
  sx_release n : does (RawSql (OnConn n) RELEASE_SQL) n Release;
  sx_rollback_to n : does (RawSql (OnConn n) ROLLBACK_TO_SQL) n RollbackTo;
  sx_write n x : does (write_sql n x) n (Write x);
}.

Class PgShared : Prop := {
  pgs_engine :: SharedEngine;
  pgs_set_lock_timeout n v : does_nothing (Execute (OnConn n) SET_LOCK_TIMEOUT_SQL [VText v]) n;
  pgs_claim n c i :
    claims_row (Execute (OnConn n) Postgres.CLAIM_SQL [VText c; VText i]) n (c, i);
  pgs_claim_many n c ids :
    claims_rows (FetchAllStrings (OnConn n) Postgres.CLAIM_MANY_SQL [VText c; VTextArray ids]) n c ids;
  pgs_unclaim n c i :
    does (Execute (OnConn n) Postgres.UNCLAIM_SQL [VText c; VText i]) n (Unclaim (c, i));
  pgs_known c i : finds (FetchOneBool OnPool Postgres.KNOWN_DUPLICATE_SQL [VText c; VText i]) (c, i);
}.

Class SqliteShared : Prop := {
  sqs_engine :: SharedEngine;
  sqs_now g now g' : sql_can _ UtcNow g now g' -> g' = g;
  sqs_claim n c i now :
    claims_row (Execute (OnConn n) Sqlite.CLAIM_SQL [VText c; VText i; VTime now]) n (c, i);
  sqs_claim_many n c ids now :
    claims_rows (FetchAllStrings (OnConn n) Sqlite.CLAIM_MANY_SQL [VText c; VTime now; VJson ids])
      n c ids;
  sqs_unclaim n c i :
    does (Execute (OnConn n) Sqlite.UNCLAIM_SQL [VText c; VText i]) n (Unclaim (c, i));
  sqs_known c i : finds (FetchOneBool OnPool Sqlite.KNOWN_DUPLICATE_SQL [VText c; VText i]) (c, i);
}.

(** ** The protocol *)

Variable effect : Msg -> list Item.

(** The protocol of [SharedDb.v] in terms of what statements do. *)
Inductive sql_next (D : list Msg) : phase Item -> forall A, sqlxE A -> A -> phase Item -> Prop :=
| sn_begin e r : begins e ->
    sql_next D Start _ e r
      (match r with Ok n => Active n empty_tx ∅ | Error _ => Ended (Some []) ∅ end)
| sn_commit n t known ms r : complete effect D ms t ->
    sql_next D (Active n t known) _ (TxCommit n) r (Ended (if is_ok r then Some ms else None) known)
| sn_rollback n t known r :
    sql_next D (Active n t known) _ (TxRollback n) r (Ended (Some []) known)
| sn_drop n t known r : sql_next D (Active n t known) _ (TxDrop n) r (Ended (Some []) known)
| sn_does {A : Type} (e : sqlxE (result A SqlxError)) n st t t' known r :
    does e n st -> apply_stmt st t = Some t' ->
    sql_next D (Active n t known) _ e r
      (Active n (match r with Ok _ => t' | Error _ => fail_tx t end) known)
| sn_nothing {A : Type} (e : sqlxE (result A SqlxError)) n t known r :
    does_nothing e n ->
    sql_next D (Active n t known) _ e r
      (Active n (match r with Ok _ => t | Error _ => fail_tx t end) known)
| sn_now n t known now : (forall g now g', sql_can _ UtcNow g now g' -> g' = g) ->
    sql_next D (Active n t known) _ UtcNow now (Active n t known)
| sn_claim e n k t known r :
    claims_row e n k -> tx_failed t = false -> delivers D k -> k ∉ tx_claims t ->
    sql_next D (Active n t known) _ e r
      (match r with
       | Ok count => if (count =? 1)%Z then Active n (claim_tx k t) known
                     else Active n t ({[k]} ∪ known)
       | Error _ => Active n (fail_tx t) known
       end)
| sn_claim_many e n c ids t known r : claims_rows e n c ids -> tx_failed t = false ->
    (forall x, x ∈ ids -> delivers D (c, x) /\ (c, x) ∉ tx_claims t) ->
    sql_next D (Active n t known) _ e r
      (match r with
       | Ok fresh => Active n (claim_rows (rows_of c fresh ∩ rows_of c ids) t)
                       ((rows_of c ids ∖ rows_of c fresh) ∪ known)
       | Error _ => Active n (fail_tx t) known
       end)
| sn_known e k r : finds e k -> delivers D k ->
    sql_next D Start _ e r (Ended (Some []) (match r with Ok true => {[k]} | _ => ∅ end)).

Section Step.
Context `{!SharedEngine}.
Variables (wanted : str * str -> Prop) (D : list Msg).
Hypothesis Hwanted : forall k, delivers D k -> wanted k.
Variables (i : nat) (g0 g : Shared Item) (L : list (nat * Msg)).
Hypothesis Hok : shared_ok g.
Hypothesis Hap : applied_ok wanted effect g0 g L.

(** The rows of a batch claim. *)
Lemma claims_rows_keep (e : sqlxE (result (list str) SqlxError)) n (c : str) (ids : list str) t
    (known : gset (str * str)) r g' :
  claims_rows e n c ids -> tx_failed t = false ->
  (forall x, x ∈ ids -> delivers D (c, x) /\ (c, x) ∉ tx_claims t) ->
  sql_can _ e g r g' -> fits D i (Active n t known) g L ->
  keeps wanted effect D i (Active n t known)
    (match r with
     | Ok fresh => Active n (claim_rows (rows_of c fresh ∩ rows_of c ids) t)
                     ((rows_of c ids ∖ rows_of c fresh) ∪ known)
     | Error _ => Active n (fail_tx t) known
     end) g0 g g' L L.
Proof.
  intros Hcl Hlive Hd Hc Hf. apply Hcl in Hc. destruct r as [fresh|e']; [|by eapply failed_keeps].
  destruct (on_open_ok D i g L Hok n t known fresh g' _ Hc Hf)
    as (t' & ls & Ho & ->%stands_live & HQ & Hlt & Hr & Hn & Hap'); [|done].
  destruct (HQ Hlive) as (Hul & Hfr & ->).
  assert (forall k, k ∈ rows_of c fresh ->
    exists x, k = (c, x) /\ x ∈ ids /\ k ∉ tx_claims t /\ k ∉ recorded (sh_db g)) as Hin.
  { intros [c' x] [-> Hx]%elem_of_rows_of. apply Hfr in Hx as [? [? ?]%not_elem_of_union].
    by exists x. }
  assert (rows_of c fresh ∩ rows_of c ids = rows_of c fresh) as ->.
  { apply set_eq. intros k. rewrite elem_of_intersection. split; [by intros [? _]|]. intros Hk.
    split; [done|]. destruct (Hin k Hk) as (x & -> & Hx & _). by apply elem_of_rows_of. }
  apply keeps_set_tx; [done|done|done|done| | | |].
  - apply disjoint_union_l. split; [|done]. intros k Hk Hrec. by destruct (Hin k Hk) as (x & _ & _ & _ & ?).
  - unfold needed in *. simpl. clear -Hn. set_solver.
  - intros n' t1 ls1 Hne Hl. apply disjoint_union_l. split; [|eauto]. intros k Hk Hk1.
    destruct (Hin k Hk) as (x & -> & Hx & _). by apply Hne, (Hul x Hx n' t1 ls1).
  - intros k. rewrite elem_of_union, elem_of_difference. intros [[Hk Hnk]|?]; [right|by left].
    destruct k as [c' x]. apply elem_of_rows_of in Hk as [-> Hx]. destruct (Hd x Hx) as [? Hcl'].
    split; [|done]. apply dec_stable. intros Hrec. apply Hnk, elem_of_rows_of.
    split; [done|]. apply Hfr. split; [done|]. by apply not_elem_of_union.
Qed.

(** On an open transaction, a statement that fails or touches no table. *)
Lemma nothing_keeps {A : Type} n t (known : gset (str * str)) (r : result A SqlxError) g' :
  on_open n g g' r (fun _ _ _ => g' = g) -> fits D i (Active n t known) g L ->
  keeps wanted effect D i (Active n t known)
    (Active n (match r with Ok _ => t | Error _ => fail_tx t end) known) g0 g g' L L.
Proof.
  intros Hc Hf. destruct r as [a|e]; [|by eapply failed_keeps].
  destruct (on_open_ok D i g L Hok n t known a g' _ Hc Hf) as (t' & ls & _ & _ & -> & _).
  apply keeps_same; [done|done|done|by left].
Qed.

(** Whatever a call does that the protocol allows keeps the invariant. *)
Lemma sql_step A (e : sqlxE A) (a : A) (s s' : phase Item) g' :
  sql_can A e g a g' -> sql_next D s A e a s' -> fits D i s g L ->
  exists L', keeps wanted effect D i s s' g0 g g' L L'.
Proof.
  pose proof (call_step wanted effect D Hwanted i g0 g L Hok Hap) as Hstep.
  intros Hc Hn Hf. destruct Hn as [e r He|n t known ms r Hms|n t known r|n t known r|
    A e n st t t' known r He Hst|A e n t known r He|n t known now He|e n k t known r He Hlive Hd Hk|
    e n c ids t known r He Hlive Hd|e k r He Hd].
  - apply (Hstep _ SBegin (map_err from_sqlx_error r)); [|by destruct r|done].
    apply He in Hc. by destruct r.
  - apply (Hstep _ (SCommit n) (map_err from_sqlx_error r)); [| |done].
    + apply sx_commit in Hc. simpl. by destruct r.
    + exists t, known, ms. by destruct r.
  - apply (Hstep _ (SRollback n) (map_err from_sqlx_error r)); [by apply sx_rollback in Hc|by exists t, known|done].
  - apply (Hstep _ (SDrop n) r); [by apply sx_drop in Hc|by exists t, known|done].
  - apply (Hstep _ (SStmt n st) (match r with Ok _ => Ok tt | Error e => Error (from_sqlx_error e) end));
      [| |done].
    + apply He in Hc. simpl. unfold on_open in *. by destruct (sh_open g !! n) as [[t1 ls]|], r.
    + exists t, known, t'. by destruct r.
  - exists L. eapply nothing_keeps; [by apply He|done].
  - apply He in Hc as ->. exists L. apply keeps_same; [done|done|done|by left].
  - destruct k as [c x].
    apply (Hstep _ (SClaim n (Claim_Request.new {| consumer_str := c |} {| message_str := x |})) (match r with
      | Ok count => Ok (if (count =? 1)%Z then Fresh else Duplicate)
      | Error e => Error (from_sqlx_error e) end)); [| |done].
    + apply He in Hc. unfold on_open in Hc. simpl. unfold on_open.
      destruct (sh_open g !! n) as [[t1 ls]|], r as [count|e']; try done.
      intros Ht1. destruct (Hc Ht1) as [Hu Hc1]. split; [done|]. unfold key. simpl.
      case_decide; by destruct Hc1 as [-> ->].
    + exists t, known. split; [done|]. split; [done|]. split; [done|].
      destruct r as [count|e']; [|done]. destruct (count =? 1)%Z; [done|]. by rewrite decide_False.
  - exists L. by eapply claims_rows_keep.
  - destruct k as [c x].
    apply (Hstep _ (SKnown {| consumer_str := c |} {| message_str := x |}) (map_err from_sqlx_error r));
      [| |done].
    + destruct (He _ _ _ Hc) as [Hg Hk]. split; [done|]. destruct r as [known|]; [|done].
      intros [= ->]. by apply Hk.
    + split; [done|]. split; [done|]. by destruct r as [[]|].
Qed.
End Step.

(** ** The methods *)

Section Methods.
Context (D : list Msg).

Lemma obeys_map_err {A : Type} (f : SqlxError -> InboxError) (e : sqlxE (result A SqlxError)) Q C s :
  C s ->
  (forall r, exists s', sql_next D s _ e r s' /\ C s' /\ Q (map_err f r) s') ->
  obeys (sql_next D) (await_map_err f (trigger e)) Q C s.
Proof.
  intros HC Hr. apply obeys_call; [done|]. intros r. destruct (Hr r) as (s' & ? & ? & ?).
  exists s'. split; [done|]. by split.
Qed.

Lemma begin_obeys (e : sqlxE (result nat SqlxError)) : begins e ->
  obeys (sql_next D) (or_backend (trigger e))
    (fun r s => s = match r with Ok n => Active n empty_tx ∅ | Error _ => Ended (Some []) ∅ end)
    anywhere Start.
Proof.
  intros He. apply obeys_map_err; [done|]. intros r. eexists. split; [by apply sn_begin|].
  split; [done|]. by destruct r.
Qed.

Lemma commit_obeys n t (known : gset (str * str)) (ms : list Msg) : complete effect D ms t ->
  obeys (sql_next D) (or_backend (trigger (TxCommit n)))
    (fun r s => s = Ended (if is_ok r then Some ms else None) known) anywhere (Active n t known).
Proof.
  intros Hc. apply obeys_map_err; [done|]. intros r. eexists. split; [by apply sn_commit|].
  split; [done|]. by destruct r.
Qed.

Lemma rollback_obeys n t (known : gset (str * str)) :
  obeys (sql_next D) (or_backend (trigger (TxRollback n))) (fun _ s => s = Ended (Some []) known)
    anywhere (Active n t known).
Proof. apply obeys_map_err; [done|]. intros r. eexists. by split; [apply sn_rollback|]. Qed.

Lemma drop_obeys n t (known : gset (str * str)) :
  obeys (sql_next D) (drop_tx n) (fun _ s => s = Ended (Some []) known) anywhere (Active n t known).
Proof. apply obeys_trigger; [done|]. intros r. eexists. by split; [apply sn_drop|]. Qed.

(** A statement whose answer is dropped. *)
Lemma does_obeys {A : Type} (e : sqlxE (result A SqlxError)) n (st : SharedDb.stmt Item) t t' (known : gset (str * str)) :
  does e n st -> apply_stmt st t = Some t' ->
  obeys (sql_next D) (_ <-? or_backend (trigger e) ;; Ret (Ok tt))
    (fun r s => match r with Ok _ => s = Active n t' known | Error _ => holds n s end)
    (holds n) (Active n t known).
Proof.
  intros He Hst. apply obeys_bind_try, obeys_map_err; [by eexists _, _|]. intros r.
  eexists. split; [by eapply sn_does|]. split; [by eexists _, _|].
  destruct r as [a|e']; simpl; [split; [by eexists _, _|done]|]. split; by eexists _, _.
Qed.

Lemma known_obeys (e : sqlxE (result bool SqlxError)) k : finds e k -> delivers D k ->
  obeys (sql_next D) (known <-? or_backend (trigger e) ;; Ret (Ok known))
    (fun r s => s = Ended (Some []) (match r with Ok true => {[k]} | _ => ∅ end)) anywhere Start.
Proof.
  intros He Hd. apply obeys_bind_try, obeys_map_err; [done|]. intros r.
  eexists. split; [by eapply sn_known|]. split; [done|]. by destruct r as [b|e']; simpl; split.
Qed.

(** The statement of a claim, and of a batch claim. *)
Lemma claim_obeys (f : SqlxError -> InboxError) (e : sqlxE (result Z SqlxError)) n k t (known : gset (str * str)) :
  claims_row e n k -> tx_failed t = false -> delivers D k -> k ∉ tx_claims t ->
  obeys (sql_next D)
    (affected <-? await_map_err f (trigger e) ;;
     Ret (Ok (if (affected =? 1)%Z then Fresh else Duplicate)))
    (fun r s => match r with
       | Ok Fresh => s = Active n (claim_tx k t) known
       | Ok Duplicate => s = Active n t ({[k]} ∪ known)
       | Error _ => holds n s
       end) (holds n) (Active n t known).
Proof.
  intros He Hlive Hd Hk. apply obeys_bind_try, obeys_map_err; [by eexists _, _|]. intros r.
  eexists. split; [by eapply sn_claim|]. destruct r as [count|e']; simpl.
  - destruct (count =? 1)%Z; (split; [by eexists _, _|]); (split; [by eexists _, _|done]).
  - split; [by eexists _, _|]. split; by eexists _, _.
Qed.

Lemma sql_claim_many_obeys (f : SqlxError -> InboxError) (e : sqlxE (result (list str) SqlxError)) n
    (c : ConsumerId) (ids : list MessageId) t (known : gset (str * str)) :
  claims_rows e n (Consumer_Id.as_str c) (Message_Id.as_str <$> ids) -> tx_failed t = false ->
  (forall m, m ∈ ids -> delivers D (key c m) /\ key c m ∉ tx_claims t) ->
  obeys (sql_next D)
    (fresh <-? await_map_err f (trigger e) ;;
     Ret (Ok (claims_from_fresh (Message_Id.as_str <$> ids) fresh)))
    (batch_claimed c ids n t known) (holds n) (Active n t known).
Proof.
  intros He Hlive Hd. apply obeys_bind_try, obeys_map_err; [by eexists _, _|]. intros r.
  eexists. split.
  { eapply sn_claim_many; [done|done|]. intros x (m & -> & Hm)%list_elem_of_fmap. by apply Hd. }
  destruct r as [fresh|e']; simpl; (split; [by eexists _, _|]); (split; [by eexists _, _|]);
    [|by eexists _, _].
  set (F := rows_of (Consumer_Id.as_str c) fresh). set (I := rows_of (Consumer_Id.as_str c) (Message_Id.as_str <$> ids)).
  assert (forall m, key c m ∈ F <-> Message_Id.as_str m ∈ fresh) as HF.
  { intros m. unfold F, key. rewrite elem_of_rows_of. naive_solver. }
  assert (forall k, k ∈ I <-> exists m, m ∈ ids /\ k = key c m) as HI.
  { intros [c' x]. unfold I. rewrite elem_of_rows_of, list_elem_of_fmap. unfold key. naive_solver. }
  exists (I ∖ F), ((F ∩ I) ∪ tx_claims t). split; [done|]. split; [|split].
  - unfold claims_from_fresh. rewrite <- list_fmap_compose. apply list_fmap_ext. intros j m Hj.
    apply list_elem_of_lookup_2 in Hj. simpl. unfold claim_answer. simpl.
    assert (key c m ∈ I) as HmI by (apply HI; eauto).
    destruct (decide (key c m ∈ F)) as [Hm|Hm].
    + rewrite decide_True by (by apply elem_of_list_to_set, HF). rewrite decide_False by set_solver. done.
    + rewrite decide_False by (rewrite elem_of_list_to_set, <- HF; done).
      rewrite decide_True by set_solver. done.
  - intros k [Hk _]%elem_of_difference. by apply HI.
  - intros k. rewrite elem_of_union, elem_of_intersection. split.
    + intros [[HkF Hk]|?]; [right|by left]. destruct (proj1 (HI k) Hk) as (m & Hm & ->).
      exists m. split; [done|]. split; [done|]. by intros [_ ?]%elem_of_difference.
    + intros [?|(m & Hm & -> & Hk)]; [by right|left]. assert (key c m ∈ I) by (apply HI; eauto).
      split; [|done]. apply dec_stable. intros HkF. by apply Hk, elem_of_difference.
Qed.

(** PostgreSQL's [SET LOCAL lock_timeout], and what follows. *)
Lemma pg_set_lock_timeout_obeys `{!PgShared} {A : Type} n (timeout : option Duration) t
    (known : gset (str * str))
    (f : unit -> prog sqlxE (result A InboxError)) Q :
  (forall e s, holds n s -> Q (Error e) s) ->
  obeys (sql_next D) (f tt) Q (holds n) (Active n t known) ->
  obeys (sql_next D) (bind_try (or_backend (set_lock_timeout n timeout)) f) Q (holds n)
    (Active n t known).
Proof.
  intros HQ Hf. apply obeys_bind_try, obeys_bind. destruct timeout as [timeout|]; simpl.
  - apply obeys_bind_try, obeys_trigger; [by eexists _, _|]. intros r.
    eexists. split; [by apply sn_nothing, pgs_set_lock_timeout|]. split; [by eexists _, _|].
    destruct r as [a|e]; (split; [by eexists _, _|]).
    + by split; [eexists _, _|].
    + split; [by eexists _, _|]. split; [by eexists _, _|]. apply HQ. by eexists _, _.
  - split; [by eexists _, _|]. by split; [eexists _, _|].
Qed.
End Methods.

(** The savepoint statements and the end of a transaction are the same for both
    backends; the claims and the probe differ. *)
Section Backend.
Context {S : Type} `{!SharedEngine, !InboxStore S sqlxE nat nat, !Savepoints S sqlxE nat nat}.
Hypothesis Hbegin : forall self : S, Store.begin self = or_backend (trigger PoolBegin).
Hypothesis Hcommit : forall (self : S) n, Store.commit self n = or_backend (trigger (TxCommit n)).
Hypothesis Hrollback : forall (self : S) n, Store.rollback self n = or_backend (trigger (TxRollback n)).
Hypothesis Hsavepoint : forall (self : S) n, Store.savepoint self n = execute n SAVEPOINT_SQL.
Hypothesis Hrenew : forall (self : S) n,
  Store.release_and_savepoint self n = execute n RELEASE_AND_SAVEPOINT_SQL.
Hypothesis Hrelease : forall (self : S) n, Store.release self n = execute n RELEASE_SQL.
Hypothesis Hrollback_to : forall (self : S) n, Store.rollback_to self n = execute n ROLLBACK_TO_SQL.
Hypothesis Hunclaim : forall (self : S) n c m, exists e : sqlxE (result Z SqlxError),
  Store.unclaim self n c m = (_ <-? or_backend (trigger e) ;; Ret (Ok tt)) /\
  does e n (Unclaim (key c m)).
Hypothesis Hknown : forall (self : S) c m, exists e,
  Store.is_known_duplicate self c m = (known <-? or_backend (trigger e) ;; Ret (Ok known)) /\
  finds e (key c m).
Hypothesis Hclaim : forall D (self : S) n t (known : gset (str * str)) rq,
  let k := key (req_consumer rq) (req_id rq) in
  tx_failed t = false -> delivers D k -> k ∉ tx_claims t ->
  obeys (sql_next D) (Store.claim self n rq)
    (fun r s => match r with
       | Ok Fresh => s = Active n (claim_tx k t) known
       | Ok Duplicate => s = Active n t ({[k]} ∪ known)
       | Error _ => holds n s
       end) (holds n) (Active n t known).
Hypothesis Hclaim_many : forall D (self : S) n t (known : gset (str * str)) b,
  tx_failed t = false ->
  (forall m, m ∈ batch_ids b ->
     delivers D (key (batch_consumer b) m) /\ key (batch_consumer b) m ∉ tx_claims t) ->
  obeys (sql_next D) (Store.claim_many self n b)
    (batch_claimed (batch_consumer b) (batch_ids b) n t known) (holds n) (Active n t known).

Lemma backend_protocol : StoreProtocol S effect sql_can sql_next.
Proof.
  split.
  - intros wanted D i g0 g L A e a s s' g' Hw Hok Hap. by apply sql_step.
  - done.
  - intros D n t known. apply drop_obeys.
  - intros D self. rewrite Hbegin. apply begin_obeys, sx_begin.
  - intros D self n t known ms. rewrite Hcommit. apply commit_obeys.
  - intros D self n t known. rewrite Hrollback. apply rollback_obeys.
  - apply Hclaim.
  - intros D self n t known b Hlive _ Hd. by apply Hclaim_many.
  - intros D self n t t' known st p Hp Hst. destruct st; simpl in Hp; [done|subst p..|].
    + rewrite Hsavepoint. by eapply does_obeys; [apply sx_savepoint|].
    + rewrite Hrenew. by eapply does_obeys; [apply sx_release_and_savepoint|].
    + rewrite Hrelease. by eapply does_obeys; [apply sx_release|].
    + rewrite Hrollback_to. by eapply does_obeys; [apply sx_rollback_to|].
    + destruct Hp as (c & m & -> & ->). destruct (Hunclaim self n c m) as (e & -> & He).
      by eapply does_obeys.
  - intros D self c m Hd. destruct (Hknown self c m) as (e & -> & He). by apply known_obeys.
Qed.
End Backend.

#[export] Instance pg_protocol `{!PgShared} : StoreProtocol PgInbox effect sql_can sql_next.
Proof.
  apply backend_protocol; try done.
  - intros self n c m. eexists. split; [done|]. apply pgs_unclaim.
  - intros self c m. eexists. split; [done|]. apply pgs_known.
  - intros D self n t known rq k Hlive Hd Hk. apply pg_set_lock_timeout_obeys; [done|done|].
    by apply claim_obeys; [apply pgs_claim|..].
  - intros D self n t known b Hlive Hd. apply pg_set_lock_timeout_obeys; [done|done|].
    apply sql_claim_many_obeys; [apply pgs_claim_many|done|done].
Qed.

#[export] Instance sqlite_protocol `{!Chrono, !SqliteShared} :
  StoreProtocol SqliteInbox effect sql_can sql_next.
Proof.
  apply backend_protocol; try done.
  - intros self n c m. eexists. split; [done|]. apply sqs_unclaim.
  - intros self c m. eexists. split; [done|]. apply sqs_known.
  - intros D self n t known rq k Hlive Hd Hk. apply obeys_call; [by eexists _, _|]. intros now.
    eexists. split; [apply sn_now, sqs_now|]. by apply claim_obeys; [apply sqs_claim|..].
  - intros D self n t known b Hlive Hd. apply obeys_call; [by eexists _, _|]. intros now.
    eexists. split; [apply sn_now, sqs_now|]. apply sql_claim_many_obeys; [apply sqs_claim_many|done|done].
Qed.
End Sql.

Arguments SharedEngine {_} _ _.
Arguments PgShared {_} _ _.
Arguments SqliteShared {_} _ _.

(** C3 (the backends under concurrency). Let consumers over [PgInbox], or over
    [SqliteInbox], share a database of which only what is said above of each SQL
    text is assumed, failed statements that abort the transaction, with a COMMIT
    that rolls back and answers [Ok], included; and let every handler stop with
    an error at its first failed statement.  However the statements of any number of concurrent calls
    interleave, fail, or are cut short by drops, panics and transactions ended by
    the database, and whatever is purged that no call delivers: every message
    takes effect at most once and completely, together with its row, and every
    reply is true ([exactly_once]). *)
Theorem backends_concurrent_exactly_once {Item T : Type} `{!Chrono}
    (sql_can : forall A, sqlxE A -> Shared Item -> A -> Shared Item -> Prop)
    (write_sql : nat -> Item -> sqlxE (result Z SqlxError)) (effect : Msg -> list Item)
    (handler : Msg -> nat -> prog sqlxE (result T HandlerError))
    (pg_tasks : list (Task PgInbox)) (sqlite_tasks : list (Task SqliteInbox)) g0 g ths :
  (forall x, handler_obeys (nxt := sql_next sql_can effect) effect handler x) ->
  sh_open g0 = ∅ ->
  (PgShared sql_can write_sql ->
   rtc (pool_step (can := sql_can) pg_tasks) (calls handler pg_tasks, g0) (ths, g) ->
   exactly_once effect pg_tasks g0 g ths) /\
  (SqliteShared sql_can write_sql ->
   rtc (pool_step (can := sql_can) sqlite_tasks) (calls handler sqlite_tasks, g0) (ths, g) ->
   exactly_once effect sqlite_tasks g0 g ths).
Proof.
  intros Hh Hg. split; intros Hs Hrtc.
  - by eapply (pool_exactly_once effect (nxt := sql_next sql_can effect) handler pg_tasks).
  - by eapply (pool_exactly_once effect (nxt := sql_next sql_can effect) handler sqlite_tasks).
Qed.
