(* ===== verification/Contention.v ===== *)
(** * Contention

    When a call reports [InboxError::Contended].  The callers of [process] and
    [process_many] retry on it, so it must mean that another consumer holds a
    row and nothing else, and that nothing was done.  The interface
    [ClaimContention] says which answers of the database make a backend's claim
    report it, and that nothing else of the backend does; the theorems about
    [Consumer] are proved against it, and the three backends are instances. *)

From S2P Require Import Prelude Text Errors Durations Types Store Consumer ClaimMany.
From S2P Require Import Sqlx Sql Postgres Sqlite MySql.
#[local] Open Scope Z_scope.

(** ** The interface *)

(** [p] does not report contention. *)
Definition never_contended {E : Type -> Type} {W A : Type}
    (ev : forall A, E A -> W -> A * W) (p : prog E (result A InboxError)) : Prop :=
  forall w w', exec ev p w <> (Done (Error Contended), w').

(** [blocked conn r w w'] says that a claim of [r] started in [w] found its row
    held by another consumer, and left [w']. *)
Class ClaimContention (S : Type) {E : Type -> Type} {Conn Tx W : Type}
    (ev : forall A, E A -> W -> A * W) `{Savepoints S E Conn Tx}
    (blocked : Conn -> ClaimRequest -> W -> W -> Prop)
    (blocked_many : Conn -> ClaimBatch -> W -> W -> Prop) : Prop := {
  cc_claim s conn r w w' :
    exec ev (Store.claim s conn r) w = (Done (Error Contended), w') <-> blocked conn r w w';
  cc_claim_many s conn b w w' :
    exec ev (Store.claim_many s conn b) w = (Done (Error Contended), w') <-> blocked_many conn b w w';
  cc_begin s : never_contended ev (Store.begin s);
  cc_commit s tx : never_contended ev (Store.commit s tx);
  cc_rollback s tx : never_contended ev (Store.rollback s tx);
  cc_savepoint s conn : never_contended ev (Store.savepoint s conn);
  cc_release_and_savepoint s conn : never_contended ev (Store.release_and_savepoint s conn);
  cc_release s conn : never_contended ev (Store.release s conn);
  cc_rollback_to s conn : never_contended ev (Store.rollback_to s conn);
  cc_unclaim s conn c m : never_contended ev (Store.unclaim s conn c m);
  cc_is_known_duplicate s c m : never_contended ev (Store.is_known_duplicate s c m);
  cc_purge s fuel policy : never_contended ev (Store.purge s fuel policy);
}.

(** ** [Consumer] *)

Section Consumers.
Context {S : Type} {E : Type -> Type} {Conn Tx W App T : Type}.
Context (ev : forall A, E A -> W -> A * W).
Context `{Transaction E Conn Tx, !InboxStore S E Conn Tx, !Savepoints S E Conn Tx}.
Context {blocked : Conn -> ClaimRequest -> W -> W -> Prop}.
Context {blocked_many : Conn -> ClaimBatch -> W -> W -> Prop}.
Context `{!ClaimContention S ev blocked blocked_many}.
Implicit Types (self : Consumer S) (m : MessageId) (ids : list MessageId) (w : W).

Lemma exec_owning {A : Type} (tx : Tx) (p : prog E A) w a w' :
  exec ev (Impl.owning tx p) w = (Done a, w') <-> exec ev p w = (Done a, w').
Proof. apply exec_scoped. Qed.

Lemma exec_try_owning {A B : Type} (tx : Tx) (p : prog E (result A InboxError))
    (f : A -> prog E (result B InboxError)) w w' :
  exec ev (Impl.bind_try_owning tx p f) w = (Done (Error Contended), w') <->
  (exists w1, exec ev p w = (Done (Error Contended), w1) /\ exec ev (drop_tx tx) w1 = (Done tt, w')) \/
  (exists a w1, exec ev p w = (Done (Ok a), w1) /\ exec ev (f a) w1 = (Done (Error Contended), w')).
Proof.
  unfold Impl.bind_try_owning. rewrite exec_bind. setoid_rewrite exec_owning. split.
  - intros ([a|e] & w1 & Hp & Hf); [right; eauto|left]. apply exec_bind in Hf as ([] & w2 & Hd & Hr).
    apply exec_ret in Hr as [[= ->] ->]. eauto.
  - intros [(w1 & Hp & Hd)|(a & w1 & Hp & Hf)]; [exists (Error Contended), w1|by exists (Ok a), w1].
    split; [done|]. apply exec_bind. exists tt, w'. split; [done|]. by apply exec_ret.
Qed.

(** A step that does not report contention itself. *)
Lemma never_contended_try {A B : Type} (p : prog E (result A InboxError))
    (f : A -> prog E (result B InboxError)) w w' :
  never_contended ev p -> exec ev (bind_try p f) w = (Done (Error Contended), w') ->
  exists a w1, exec ev p w = (Done (Ok a), w1) /\ exec ev (f a) w1 = (Done (Error Contended), w').
Proof. intros Hn Hr. apply exec_bind_try in Hr as [Hr|?]; [|done]. by apply Hn in Hr. Qed.

Lemma never_contended_ret {A : Type} (a : A) : never_contended ev (Ret (Ok a)).
Proof. by intros w w' [? _]%exec_ret. Qed.

Lemma never_contended_bind {A B : Type} (p : prog E (result A InboxError))
    (f : A -> prog E (result B InboxError)) :
  never_contended ev p -> (forall a, never_contended ev (f a)) -> never_contended ev (bind_try p f).
Proof. intros Hp Hf w w' Hr. apply never_contended_try in Hr as (a & w1 & _ & Hr); [|done]. by apply Hf in Hr. Qed.

Lemma loop_never_contended self (conn : Conn) (handler : Conn -> MessageId -> prog E (result T HandlerError)) items :
  forall pending failed results,
  never_contended ev (Impl.process_many_loop self conn handler items pending failed results).
Proof.
  induction items as [|[m []] items IH]; intros pending failed results; simpl.
  - apply never_contended_ret.
  - destruct pending as [|pending]; [done|]. intros w w' Hr.
    apply exec_bind in Hr as (r & w1 & _ & Hr). revert w1 w' Hr. apply never_contended_bind.
    + destruct r as [v|e]; [apply never_contended_ret|].
      apply never_contended_bind; [apply cc_rollback_to|]. intros _.
      apply never_contended_bind; [apply cc_unclaim|]. intros _. apply never_contended_ret.
    + intros fr. apply never_contended_bind; [|intros _; apply IH].
      case_decide; [apply cc_release_and_savepoint|apply cc_release].
  - case_decide; apply IH.
Qed.

Lemma after_claim_never_contended self (tx : Tx) (handler : Conn -> prog E (result T HandlerError)) (c : Claim) :
  never_contended ev
    match c with
    | Duplicate => _ <-? Store.rollback (store self) tx ;; Ret (Ok OutcomeDuplicate)
    | Fresh =>
        r <- Impl.owning tx (handler (deref_mut tx)) ;;
        match r with
        | Ok value => _ <-? Store.commit (store self) tx ;; Ret (Ok (Processed value))
        | Error e => _ <- Store.rollback (store self) tx ;; Ret (Error (Handler e))
        end
    end.
Proof.
  destruct c.
  - intros w w' ([v|e] & w1 & _ & Hr)%exec_bind.
    + revert Hr. apply never_contended_bind; [apply cc_commit|]. intros _. apply never_contended_ret.
    + by apply exec_bind in Hr as (r & w2 & _ & [? _]%exec_ret).
  - apply never_contended_bind; [apply cc_rollback|]. intros _. apply never_contended_ret.
Qed.

Lemma answer_batch_never_contended ids (b : ClaimBatch) (claims : list Claim) :
  never_contended ev (answer_batch ids b claims).
Proof.
  intros w w'. unfold answer_batch. destruct (negb _); [by intros [? _]%exec_ret|].
  destruct (take_answers _ ids); [by intros [? _]%exec_ret|done].
Qed.

(** A call opened a transaction, found its claim blocked, and dropped it. *)
Definition gave_up (p : prog E (result Tx InboxError)) (claims : Conn -> W -> W -> Prop) w w' : Prop :=
  exists tx w1 w2, exec ev p w = (Done (Ok tx), w1) /\ claims (deref_mut tx) w1 w2 /\
                   exec ev (drop_tx tx) w2 = (Done tt, w').

(** What follows [begin] reports contention only if its claim does. *)
Lemma contended_after_begin {A B : Type} self (claims : Conn -> W -> W -> Prop)
    (body : Tx -> prog E (result A InboxError)) (rest : Tx -> A -> prog E (result B InboxError)) w w' :
  (forall tx w w', exec ev (body tx) w = (Done (Error Contended), w') <-> claims (deref_mut tx) w w') ->
  (forall tx a, never_contended ev (rest tx a)) ->
  exec ev (tx <-? Store.begin (store self) ;; Impl.bind_try_owning tx (body tx) (rest tx)) w
    = (Done (Error Contended), w') <->
  gave_up (Store.begin (store self)) claims w w'.
Proof.
  intros Hb Hr. split.
  - intros (tx & w1 & Hbegin & Hx)%never_contended_try; [|apply cc_begin].
    apply exec_try_owning in Hx as [(w2 & Hc & Hd)|(a & w2 & _ & Hx)]; [|by apply Hr in Hx].
    exists tx, w1, w2. by rewrite <- Hb.
  - intros (tx & w1 & w2 & Hbegin & Hc & Hd). apply exec_bind_try. right. exists tx, w1.
    split; [done|]. apply exec_try_owning. left. exists w2. by rewrite Hb.
Qed.

Definition request self m : ClaimRequest :=
  {| req_consumer := id self; req_id := m; req_lock_timeout := lock_timeout self |}.

Lemma process_contended self m (handler : Conn -> prog E (result T HandlerError)) w w' :
  exec ev (Impl.process self m handler) w = (Done (Error Contended), w') <->
  gave_up (Store.begin (store self)) (fun conn => blocked conn (request self m)) w w'.
Proof.
  apply contended_after_begin.
  - intros tx w1 w2. apply cc_claim.
  - intros tx c. by apply after_claim_never_contended.
Qed.

Lemma process_many_contended self ids (handler : Conn -> MessageId -> prog E (result T HandlerError)) w w' :
  exec ev (Impl.process_many self ids handler) w = (Done (Error Contended), w') <->
  ids <> [] /\ gave_up (Store.begin (store self)) (fun conn => blocked_many conn (sent_batch self ids)) w w'.
Proof.
  unfold Impl.process_many. case_decide as Hne.
  { split; [by intros [? _]%exec_ret|]. by intros [? _]. }
  rewrite contended_after_begin with (claims := fun conn => blocked_many conn (sent_batch self ids)).
  - split; [done|]. by intros [_ ?].
  - intros tx w1 w2. rewrite <- cc_claim_many. rewrite claim_many_unfold by done.
    split; [|intros Hc; do 2 (apply exec_bind_try; left); exact Hc].
    intros [Hc|(cs & w3 & _ & Hx)]%exec_bind_try.
    + apply exec_bind_try in Hc as [Hc|(cs & w3 & _ & Hx)]; [exact Hc|].
      by apply answer_batch_never_contended in Hx.
    + exfalso. revert Hx. apply never_contended_bind; [|intros _; apply loop_never_contended].
      case_decide; [apply cc_savepoint|apply never_contended_ret].
  - intros tx rs. apply never_contended_bind; [apply cc_commit|]. intros _. apply never_contended_ret.
Qed.

(** *** Nothing was done *)

Context `{!Observe W Conn App, !InboxLaws S ev}.

Lemma gave_up_quiet self (claims : Conn -> W -> W -> Prop) w w' :
  (forall conn w1 w2 d, working w1 conn = Some d -> claims conn w1 w2 -> committed w2 = committed w1) ->
  gave_up (Store.begin (store self)) claims w w' -> committed w' = committed w.
Proof.
  intros Hc (tx & w1 & w2 & Hb & Hbl & Hd).
  destruct (wp_exec ev _ _ _ _ _ (law_begin (store self) w) Hb) as [[[Q1 _] [Hw _]] _].
  destruct (wp_exec ev _ _ _ _ _ (law_drop tx w2) Hd) as [[[Q2 _] _] _].
  rewrite Q2, <- Q1. by eapply Hc.
Qed.

(** C29 (what contention means). A call of [process] reports [Contended] exactly
    when it opened a transaction, the database answered that the row of the
    message is held by another consumer, and the transaction was dropped; a call
    of [process_many] exactly when this happened to the claim of its batch.
    Nothing was committed then, so the caller may retry. *)
Theorem contended_means_blocked self m ids
    (one : Conn -> prog E (result T HandlerError))
    (each : Conn -> MessageId -> prog E (result T HandlerError)) w w' :
  consumer_wf self -> Forall message_ok (m :: ids) ->
  (exec ev (Impl.process self m one) w = (Done (Error Contended), w') <->
   gave_up (Store.begin (store self)) (fun conn => blocked conn (request self m)) w w') /\
  (exec ev (Impl.process_many self ids each) w = (Done (Error Contended), w') <->
   ids <> [] /\ gave_up (Store.begin (store self))
                   (fun conn => blocked_many conn (sent_batch self ids)) w w') /\
  (exec ev (Impl.process self m one) w = (Done (Error Contended), w') \/
   exec ev (Impl.process_many self ids each) w = (Done (Error Contended), w') ->
   committed w' = committed w).
Proof.
  intros Hself [Hm Hids]%Forall_cons. split; [apply process_contended|].
  split; [apply process_many_contended|].
  intros [Hp%process_contended|[_ Hp]%process_many_contended]; eapply gave_up_quiet; try exact Hp.
  - intros conn w1 w2 d Hw Hb. apply (cc_claim (store self)) in Hb.
    assert (request_ok (request self m)) as Hok by (destruct Hself; done).
    by destruct (wp_exec ev _ _ _ _ _ (law_claim _ _ _ _ _ Hw Hok) Hb) as [[[Q _] _] _].
  - intros conn w1 w2 d Hw Hb. apply (cc_claim_many (store self)) in Hb.
    assert (batch_ok (sent_batch self ids)) as Hok by by apply sent_batch_ok.
    by destruct (wp_exec ev _ _ _ _ _ (law_claim_many _ _ _ _ _ Hw Hok) Hb) as [[[Q _] _] _].
Qed.
End Consumers.

(** ** The backends *)

Section Answers.
Context {W : Type} (ev : forall A, sqlxE A -> W -> A * W).

Lemma exec_or_backend {A : Type} (p : prog sqlxE (result A SqlxError)) w a w' :
  exec ev (or_backend p) w = (Done (Ok a), w') <-> exec ev p w = (Done (Ok a), w').
Proof.
  unfold or_backend, await_map_err. rewrite exec_bind. split.
  - by intros ([a'|e] & w1 & Hp & [[= ->] ->]%exec_ret).
  - intros Hp. exists (Ok a), w'. split; [done|]. by apply exec_ret.
Qed.

Lemma or_backend_never_contended {A : Type} (p : prog sqlxE (result A SqlxError)) :
  never_contended ev (or_backend p).
Proof. by intros w w' ([a|e] & w1 & _ & [? _]%exec_ret)%exec_bind. Qed.

Lemma execute_never_contended conn sql : never_contended ev (execute conn sql).
Proof.
  apply never_contended_bind; [apply or_backend_never_contended|]. intros _. apply never_contended_ret.
Qed.

(** A statement whose answer, as it is or not, is the method's. *)
Lemma statement_never_contended {A B : Type} (p : prog sqlxE (result A SqlxError)) (f : A -> B) :
  never_contended ev (a <-? or_backend p ;; Ret (Ok (f a))).
Proof.
  apply never_contended_bind; [apply or_backend_never_contended|]. intros a. apply never_contended_ret.
Qed.

Lemma purge_loop_never_contended fuel (e : sqlxE (result Z SqlxError)) batch total :
  never_contended ev (purge_loop fuel (trigger e) batch total).
Proof.
  revert total; induction fuel as [|fuel IH]; intros total; simpl; [by intros w w' [=]|].
  apply never_contended_bind; [apply or_backend_never_contended|]. intros affected.
  destruct (affected <? batch); [apply never_contended_ret|apply IH].
Qed.

Lemma run_migrator_never_contended dir : never_contended ev (run_migrator dir).
Proof. by intros w w' ([a|e] & w1 & _ & [? _]%exec_ret)%exec_bind. Qed.

(** A statement whose errors [f] maps. *)
Lemma exec_map_err {A B : Type} (f : SqlxError -> InboxError) (e : sqlxE (result A SqlxError))
    (k : A -> prog sqlxE (result B InboxError)) w w' :
  (forall a, never_contended ev (k a)) ->
  exec ev (bind_try (await_map_err f (trigger e)) k) w = (Done (Error Contended), w') <->
  exists err, ev _ e w = (Error err, w') /\ f err = Contended.
Proof.
  intros Hk. unfold await_map_err. rewrite exec_bind_try, exec_bind. setoid_rewrite exec_trigger.
  split.
  - intros [([a|err] & w1 & He & [[= Hf] ->]%exec_ret)|(a & w1 & _ & Hr)]; [by exists err|].
    by apply Hk in Hr.
  - intros (err & He & Hf). left. exists (Error err), w'. split; [done|]. apply exec_ret.
    simpl. by rewrite Hf.
Qed.

(** After a successful step that cannot report contention. *)
Lemma exec_after_backend {A B : Type} (p : prog sqlxE (result A SqlxError))
    (k : A -> prog sqlxE (result B InboxError)) w w' :
  exec ev (bind_try (or_backend p) k) w = (Done (Error Contended), w') <->
  exists a w1, exec ev p w = (Done (Ok a), w1) /\ exec ev (k a) w1 = (Done (Error Contended), w').
Proof.
  rewrite exec_bind_try. setoid_rewrite exec_or_backend. split; [|by right].
  intros [Hr|?]; [by apply or_backend_never_contended in Hr|done].
Qed.
End Answers.

(** *** PostgreSQL *)

Section Pg.
Context {W : Type} (ev : forall A, sqlxE A -> W -> A * W).

(** [lock_not_available] or [deadlock_detected] *)
Definition pg_contention (db : DatabaseError) : Prop :=
  db_code db = Some (lit "55P03") \/ db_code db = Some (lit "40P01").

Lemma pg_claim_error_contended (e : SqlxError) :
  Postgres.claim_error e = Contended <-> exists db, e = Database db /\ pg_contention db.
Proof.
  destruct e as [db|t]; simpl; [|naive_solver]. case_decide as Hc; [|naive_solver].
  split; [intros _; by exists db|done].
Qed.

(** The lock timeout, if there is one, was set, and then the claim failed. *)
Definition pg_blocked (conn : nat) (r : ClaimRequest) (w w' : W) : Prop :=
  exists w1 db,
    exec ev (Postgres.set_lock_timeout conn (req_lock_timeout r)) w = (Done (Ok tt), w1) /\
    ev _ (Execute (OnConn conn) Postgres.CLAIM_SQL
            [VText (Consumer_Id.as_str (req_consumer r)); VText (Message_Id.as_str (req_id r))]) w1
      = (Error (Database db), w') /\
    pg_contention db.

Definition pg_blocked_many (conn : nat) (b : ClaimBatch) (w w' : W) : Prop :=
  exists w1 db,
    exec ev (Postgres.set_lock_timeout conn (batch_lock_timeout b)) w = (Done (Ok tt), w1) /\
    ev _ (FetchAllStrings (OnConn conn) Postgres.CLAIM_MANY_SQL
            [VText (Consumer_Id.as_str (batch_consumer b));
             VTextArray (Message_Id.as_str <$> batch_ids b)]) w1
      = (Error (Database db), w') /\
    pg_contention db.

#[export] Instance pg_claim_contention : ClaimContention PgInbox ev pg_blocked pg_blocked_many.
Proof.
  constructor; simpl; intros;
    try apply or_backend_never_contended; try apply execute_never_contended;
    try apply statement_never_contended; try apply purge_loop_never_contended.
  - unfold Postgres.claim, pg_blocked. rewrite exec_after_backend.
    setoid_rewrite exec_map_err; [|intros; apply never_contended_ret].
    setoid_rewrite pg_claim_error_contended. split.
    + intros ([] & w1 & Hs & e & He & db & -> & Hdb). eauto 8.
    + intros (w1 & db & Hs & He & Hdb). exists tt, w1. eauto 8.
  - unfold Postgres.claim_many, pg_blocked_many. rewrite exec_after_backend.
    setoid_rewrite exec_map_err; [|intros; apply never_contended_ret].
    setoid_rewrite pg_claim_error_contended. split.
    + intros ([] & w1 & Hs & e & He & db & -> & Hdb). eauto 8.
    + intros (w1 & db & Hs & He & Hdb). exists tt, w1. eauto 8.
Qed.
End Pg.

(** *** SQLite *)

Section Lite.
Context {W : Type} (ev : forall A, sqlxE A -> W -> A * W) `{!Chrono}.

(** A result code whose primary code is SQLITE_BUSY or SQLITE_LOCKED. *)
Definition sqlite_contention (db : DatabaseError) : Prop :=
  exists code, db_code db ≫= parse_i32 = Some code /\ (code mod 256 = 5 \/ code mod 256 = 6).

Lemma sqlite_claim_error_contended (e : SqlxError) :
  Sqlite.claim_error e = Contended <-> exists db, e = Database db /\ sqlite_contention db.
Proof.
  destruct e as [db|t]; simpl; [|naive_solver]. unfold sqlite_contention.
  destruct (db_code db ≫= parse_i32) as [code|] eqn:Hc; [|naive_solver].
  change 0xff with (Z.ones 8). rewrite Z.land_ones by lia. change (2 ^ 8) with 256.
  destruct (Z.eqb_spec (code mod 256) 5), (Z.eqb_spec (code mod 256) 6); simpl;
    (split; [try done|try done]); try (intros _; exists db; eauto 6);
    intros (db' & [= <-] & code' & Hc' & ?); rewrite Hc in Hc'; simplify_eq; tauto.
Qed.

Definition sqlite_blocked (conn : nat) (r : ClaimRequest) (w w' : W) : Prop :=
  exists now w1 db,
    ev _ UtcNow w = (now, w1) /\
    ev _ (Execute (OnConn conn) Sqlite.CLAIM_SQL
            [VText (Consumer_Id.as_str (req_consumer r)); VText (Message_Id.as_str (req_id r));
             VTime now]) w1
      = (Error (Database db), w') /\
    sqlite_contention db.

Definition sqlite_blocked_many (conn : nat) (b : ClaimBatch) (w w' : W) : Prop :=
  exists now w1 db,
    ev _ UtcNow w = (now, w1) /\
    ev _ (FetchAllStrings (OnConn conn) Sqlite.CLAIM_MANY_SQL
            [VText (Consumer_Id.as_str (batch_consumer b)); VTime now;
             VJson (Message_Id.as_str <$> batch_ids b)]) w1
      = (Error (Database db), w') /\
    sqlite_contention db.

#[export] Instance sqlite_claim_contention :
  ClaimContention SqliteInbox ev sqlite_blocked sqlite_blocked_many.
Proof.
  constructor; simpl; intros;
    try apply or_backend_never_contended; try apply execute_never_contended;
    try apply statement_never_contended; try apply purge_loop_never_contended.
  - unfold Sqlite.claim, sqlite_blocked. rewrite exec_bind. setoid_rewrite exec_trigger.
    setoid_rewrite exec_map_err; [|intros; apply never_contended_ret].
    setoid_rewrite sqlite_claim_error_contended. naive_solver.
  - unfold Sqlite.claim_many, sqlite_blocked_many. rewrite exec_bind. setoid_rewrite exec_trigger.
    setoid_rewrite exec_map_err; [|intros; apply never_contended_ret].
    setoid_rewrite sqlite_claim_error_contended. naive_solver.
  - intros w w' (now & w1 & _ & Hx)%exec_bind. revert Hx.
    destruct (from_std (max_age policy)) as [age|]; [|by intros [? _]%exec_ret].
    destruct (sub_signed now age); [apply purge_loop_never_contended|by intros [=]].
Qed.
End Lite.

(** *** MySQL *)

Section My.
Context {W : Type} (ev : forall A, sqlxE A -> W -> A * W).

(** ER_LOCK_WAIT_TIMEOUT or ER_LOCK_DEADLOCK *)
Definition mysql_contention (db : DatabaseError) : Prop :=
  mysql_number db = Some 1205 \/ mysql_number db = Some 1213.

Lemma mysql_claim_error_contended (e : SqlxError) :
  MySql.claim_error e = Contended <-> exists db, e = Database db /\ mysql_contention db.
Proof.
  destruct e as [db|t]; simpl; [|naive_solver]. unfold mysql_contention.
  destruct (mysql_number db) as [number|] eqn:Hn; [|naive_solver].
  unfold ER_LOCK_WAIT_TIMEOUT, ER_LOCK_DEADLOCK.
  destruct (Z.eqb_spec number 1205), (Z.eqb_spec number 1213); simpl; subst; naive_solver.
Qed.

(** The lock timeout was set, the statement failed, and the session's own timeout
    was put back, successfully or not. *)
Definition mysql_blocked_by {A : Type} (conn : nat) (timeout : option Duration)
    (e : sqlxE (result A SqlxError)) (w w' : W) : Prop :=
  exists w1 w2 db restored,
    exec ev (MySql.set_lock_timeout conn timeout) w = (Done (Ok tt), w1) /\
    ev _ e w1 = (Error (Database db), w2) /\ mysql_contention db /\
    exec ev (MySql.restore_lock_timeout conn timeout) w2 = (Done restored, w').

Definition mysql_blocked (conn : nat) (r : ClaimRequest) : W -> W -> Prop :=
  mysql_blocked_by conn (req_lock_timeout r)
    (Execute (OnConn conn) MySql.CLAIM_SQL
       [VText (Consumer_Id.as_str (req_consumer r)); VText (Message_Id.as_str (req_id r))]).

Definition mysql_blocked_many (conn : nat) (b : ClaimBatch) (w w' : W) : Prop :=
  exists token w1,
    ev _ RandomU64 w = (Ok token, w1) /\
    mysql_blocked_by conn (batch_lock_timeout b)
      (Execute (OnConn conn) MySql.CLAIM_MANY_SQL
         [VText (Consumer_Id.as_str (batch_consumer b)); VInt token;
          VJson (Message_Id.as_str <$> batch_ids b)]) w1 w'.

(** A statement between setting and restoring the timeout. *)
Lemma exec_mysql_claim {A B : Type} (conn : nat) (timeout : option Duration)
    (e : sqlxE (result A SqlxError)) (k : A -> prog sqlxE (result B InboxError)) w w' :
  (forall a, never_contended ev (k a)) ->
  exec ev (_ <-? or_backend (MySql.set_lock_timeout conn timeout) ;;
           r <- trigger e ;;
           restored <- MySql.restore_lock_timeout conn timeout ;;
           a <-? Ret (map_err MySql.claim_error r) ;;
           _ <-? Ret (map_err from_sqlx_error restored) ;; k a) w = (Done (Error Contended), w') <->
  mysql_blocked_by conn timeout e w w'.
Proof.
  intros Hk. rewrite exec_after_backend. unfold mysql_blocked_by.
  setoid_rewrite exec_bind. setoid_rewrite exec_trigger. setoid_rewrite exec_bind. split.
  - intros ([] & w1 & Hset & [a|err] & w2 & He & restored & w3 & Hr & Hx).
    + exfalso. revert Hx. apply never_contended_bind; [apply never_contended_ret|]. intros a'.
      apply never_contended_bind; [|done]. by destruct restored; intros ? ? [? _]%exec_ret.
    + apply exec_bind_try in Hx as [[[= Hc] ->]%exec_ret|(a & w4 & [? _]%exec_ret & _)]; [|done].
      apply mysql_claim_error_contended in Hc as (db & -> & Hdb). by exists w1, w2, db, restored.
  - intros (w1 & w2 & db & restored & Hset & He & Hdb & Hr). exists tt, w1. split; [done|].
    exists (Error (Database db)), w2. split; [done|]. exists restored, w'. split; [done|].
    apply exec_bind_try. left. apply exec_ret. split; [|done]. cbn [map_err]. f_equal.
    apply mysql_claim_error_contended. by exists db.
Qed.

(** After a token was drawn. *)
Lemma exec_after_token {B : Type} (k : Z -> prog sqlxE (result B InboxError)) w w' :
  exec ev (token <-? (r <- trigger RandomU64 ;; Ret (map_err (fun e => Backend (EOpaque e)) r)) ;;
           k token) w = (Done (Error Contended), w') <->
  exists token w1, ev _ RandomU64 w = (Ok token, w1) /\
                   exec ev (k token) w1 = (Done (Error Contended), w').
Proof.
  rewrite exec_bind_try, exec_bind. setoid_rewrite exec_trigger. split.
  - intros [([token|z] & w1 & _ & [? _]%exec_ret)|(token & w1 & Ht & Hx)]; [done|done|].
    apply exec_bind in Ht as ([t|z] & w2 & Ht%exec_trigger & [[= ->] ->]%exec_ret). eauto.
  - intros (token & w1 & Ht & Hx). right. exists token, w1. split; [|done]. apply exec_bind.
    exists (Ok token), w1. split; [by apply exec_trigger|by apply exec_ret].
Qed.

#[export] Instance mysql_claim_contention : ClaimContention MySqlInbox ev mysql_blocked mysql_blocked_many.
Proof.
  constructor; simpl; intros;
    try apply or_backend_never_contended; try apply execute_never_contended;
    try apply statement_never_contended; try apply purge_loop_never_contended.
  - apply exec_mysql_claim. intros. apply never_contended_ret.
  - unfold MySql.claim_many, mysql_blocked_many. rewrite exec_after_token.
    setoid_rewrite exec_mysql_claim; [done|]. intros. apply never_contended_bind;
      [apply or_backend_never_contended|]. intros. apply never_contended_ret.
Qed.
End My.

(** C30 (which errors are contention). For each backend, the answers of the
    database that make [claim] and [claim_many] report [Contended] are exactly:
    on PostgreSQL a claim statement failing with SQLSTATE 55P03 or 40P01, on
    SQLite with a result code whose primary code is BUSY or LOCKED, on MySQL with
    error 1205 or 1213 (the session's lock timeout having been put back).  No
    other method reports contention, whatever its statements answer: neither the
    rest of [InboxStore], [is_known_duplicate] and [purge] included, nor
    [Savepoints], nor [migrate]. *)
Theorem backends_contention {W : Type} (ev : forall A, sqlxE A -> W -> A * W) `{!Chrono} :
  ClaimContention PgInbox ev (pg_blocked ev) (pg_blocked_many ev) /\
  ClaimContention SqliteInbox ev (sqlite_blocked ev) (sqlite_blocked_many ev) /\
  ClaimContention MySqlInbox ev (mysql_blocked ev) (mysql_blocked_many ev) /\
  (forall s, never_contended ev (Postgres.migrate s)) /\
  (forall s, never_contended ev (Sqlite.migrate s)) /\
  (forall s, never_contended ev (MySql.migrate s)).
Proof. split_and!; try apply _; intros s; apply run_migrator_never_contended. Qed.
