(* ===== verification/Migrations.v ===== *)
(** * The schema

    [src/migrations/]: the DDL of the three backends, the constants
    [MIGRATION_SQL] that publish it, read by a small parser of the subset of
    CREATE TABLE they use, table options included, and what the code relies on
    of the tables: with the character set they are created with they hold every
    identifier, their key is the dedup key and compares it exactly, and the
    claims give a value to every column that needs one. *)

From S2P Require Import Prelude Text Errors Durations Types Store Sqlx Sql.
From S2P Require Import Postgres Sqlite MySql.
#[local] Open Scope Z_scope.

Definition newline : string := String (Ascii.ascii_of_nat 10) EmptyString.

(** ** The texts *)

Module Pg.
Definition MIGRATION_SQL : string :=
  "CREATE TABLE IF NOT EXISTS inbox_messages (" +:+ newline +:+
  "    consumer_id  TEXT        NOT NULL," +:+ newline +:+
  "    message_id   TEXT        NOT NULL," +:+ newline +:+
  "    processed_at TIMESTAMPTZ NOT NULL," +:+ newline +:+
  "    PRIMARY KEY (consumer_id, message_id)" +:+ newline +:+
  ");" +:+ newline +:+
  newline +:+
  "CREATE INDEX IF NOT EXISTS idx_inbox_processed_at" +:+ newline +:+
  "    ON inbox_messages (processed_at);" +:+ newline.
End Pg.

Module Lite.
Definition MIGRATION_SQL : string :=
  "CREATE TABLE IF NOT EXISTS inbox_messages (" +:+ newline +:+
  "    consumer_id  TEXT NOT NULL," +:+ newline +:+
  "    message_id   TEXT NOT NULL," +:+ newline +:+
  "    processed_at TEXT NOT NULL," +:+ newline +:+
  "    PRIMARY KEY (consumer_id, message_id)" +:+ newline +:+
  ");" +:+ newline +:+
  newline +:+
  "CREATE INDEX IF NOT EXISTS idx_inbox_processed_at" +:+ newline +:+
  "    ON inbox_messages (processed_at);" +:+ newline.
End Lite.

Module My.
Definition MIGRATION_SQL : string :=
  "CREATE TABLE IF NOT EXISTS inbox_messages (" +:+ newline +:+
  "    consumer_id  VARCHAR(255) NOT NULL," +:+ newline +:+
  "    message_id   VARCHAR(512) NOT NULL," +:+ newline +:+
  "    processed_at DATETIME(6)  NOT NULL," +:+ newline +:+
  "    claim_token  BIGINT UNSIGNED NULL," +:+ newline +:+
  "    PRIMARY KEY (consumer_id, message_id)," +:+ newline +:+
  "    KEY idx_inbox_processed_at (processed_at)" +:+ newline +:+
  ") CHARACTER SET utf8mb4 COLLATE utf8mb4_0900_bin;" +:+ newline.
End My.

(** ** Reading them *)

Inductive ColumnType : Type :=
| Text
| Varchar (chars : Z)
| Timestamptz
| Datetime (digits : Z)
| BigintUnsigned.

Record Column := { col_name : string; col_type : ColumnType; not_null : bool }.

(** [CHARACTER SET] and [COLLATE] are the options after the closing
    parenthesis, if the table has them. *)
Record Table := {
  tbl_name : string;
  columns : list Column;
  primary_key : list string;
  character_set : option string;
  collate : option string;
}.

Definition empty_table (name : string) : Table := {|
  tbl_name := name; columns := []; primary_key := []; character_set := None; collate := None |}.

Definition with_column (c : Column) (t : Table) : Table := {|
  tbl_name := tbl_name t; columns := columns t ++ [c]; primary_key := primary_key t;
  character_set := character_set t; collate := collate t |}.

Definition with_key (names : list string) (t : Table) : Table := {|
  tbl_name := tbl_name t; columns := columns t; primary_key := names;
  character_set := character_set t; collate := collate t |}.

Definition with_charset (name : string) (t : Table) : Table := {|
  tbl_name := tbl_name t; columns := columns t; primary_key := primary_key t;
  character_set := Some name; collate := collate t |}.

Definition with_collate (name : string) (t : Table) : Table := {|
  tbl_name := tbl_name t; columns := columns t; primary_key := primary_key t;
  character_set := character_set t; collate := Some name |}.

(** Words, and the punctuation between them. *)
Definition is_space (c : Ascii.ascii) : bool :=
  let n := Ascii.nat_of_ascii c in ((n =? 32) || (n =? 10))%nat.

Definition is_punctuation (c : Ascii.ascii) : bool :=
  let n := Ascii.nat_of_ascii c in ((n =? 40) || (n =? 41) || (n =? 44) || (n =? 59))%nat.

Definition flush (word : string) (l : list string) : list string :=
  match word with EmptyString => l | _ => word :: l end.

Fixpoint tokens (word : string) (s : string) : list string :=
  match s with
  | EmptyString => flush word []
  | String c s =>
      if is_space c then flush word (tokens EmptyString s)
      else if is_punctuation c then
        flush word (String c EmptyString :: tokens EmptyString s)
      else tokens (word +:+ String c EmptyString) s
  end.

Definition number (s : string) : option Z := parse_digits 0 (lit s).

Definition parse_type (l : list string) : option (ColumnType * list string) :=
  match l with
  | ("TEXT" :: l)%string => Some (Text, l)
  | ("TIMESTAMPTZ" :: l)%string => Some (Timestamptz, l)
  | ("VARCHAR" :: "(" :: n :: ")" :: l)%string => n ← number n; Some (Varchar n, l)
  | ("DATETIME" :: "(" :: n :: ")" :: l)%string => n ← number n; Some (Datetime n, l)
  | ("BIGINT" :: "UNSIGNED" :: l)%string => Some (BigintUnsigned, l)
  | _ => None
  end.

Definition parse_null (l : list string) : bool * list string :=
  match l with
  | ("NOT" :: "NULL" :: l)%string => (true, l)
  | ("NULL" :: l)%string => (false, l)
  | _ => (false, l)
  end.

(** The rest of a list of names in parentheses. *)
Fixpoint parse_names (fuel : nat) (l : list string) : option (list string * list string) :=
  match fuel, l with
  | S _, (name :: ")" :: l)%string => Some ([name], l)
  | S fuel, (name :: "," :: l)%string => '(names, l) ← parse_names fuel l; Some (name :: names, l)
  | _, _ => None
  end.

(** One entry of the table: it adds to the columns or is the key. *)
Definition parse_entry (l : list string) (t : Table) : option (Table * list string) :=
  match l with
  | ("PRIMARY" :: "KEY" :: "(" :: l)%string =>
      '(names, l) ← parse_names (length l) l; Some (with_key names t, l)
  | ("KEY" :: _ :: "(" :: l)%string => '(_, l) ← parse_names (length l) l; Some (t, l)
  | name :: l =>
      '(ty, l) ← parse_type l;
      let '(nn, l) := parse_null l in
      Some (with_column {| col_name := name; col_type := ty; not_null := nn |} t, l)
  | [] => None
  end.

(** The options of the table, up to the end of the statement. *)
Fixpoint parse_options (fuel : nat) (l : list string) (t : Table) : option Table :=
  match fuel, l with
  | S fuel, ("CHARACTER" :: "SET" :: name :: l)%string => parse_options fuel l (with_charset name t)
  | S fuel, ("COLLATE" :: name :: l)%string => parse_options fuel l (with_collate name t)
  | _, (";" :: _)%string => Some t
  | _, _ => None
  end.

Fixpoint parse_entries (fuel : nat) (l : list string) (t : Table) : option Table :=
  match fuel with
  | O => None
  | S fuel =>
      '(t, l) ← parse_entry l t;
      match l with
      | ("," :: l)%string => parse_entries fuel l t
      | (")" :: l)%string => parse_options (length l) l t
      | _ => None
      end
  end.

Definition create_table (sql : string) : option Table :=
  match tokens EmptyString sql with
  | ("CREATE" :: "TABLE" :: "IF" :: "NOT" :: "EXISTS" :: name :: "(" :: l)%string =>
      parse_entries (length l) l (empty_table name)
  | _ => None
  end.

(** The table an INSERT names, and the columns it lists. *)
Definition insert_columns (sql : string) : option (string * list string) :=
  match tokens EmptyString sql with
  | ("INSERT" :: "INTO" :: name :: "(" :: l)%string
  | ("INSERT" :: "IGNORE" :: "INTO" :: name :: "(" :: l)%string =>
      '(names, _) ← parse_names (length l) l; Some (name, names)
  | _ => None
  end.

(** ** What the tables promise *)

(** The character sets of MySQL: the code points each of them has, and the bytes
    it takes for one at most. *)
Inductive Charset : Type := Ascii7 | Latin1 | Utf8mb3 | Utf8mb4.

Definition charset_named (name : string) : option Charset :=
  match name with
  | "ascii"%string => Some Ascii7
  | "latin1"%string => Some Latin1
  | "utf8mb3"%string | "utf8"%string => Some Utf8mb3
  | "utf8mb4"%string => Some Utf8mb4
  | _ => None
  end.

Definition encodes (cs : Charset) (c : Z) : Prop :=
  match cs with Ascii7 => c < 128 | Latin1 => c < 256 | Utf8mb3 => c < 65536 | Utf8mb4 => True end.

Definition max_bytes (cs : Charset) : Z :=
  match cs with Ascii7 | Latin1 => 1 | Utf8mb3 => 3 | Utf8mb4 => 4 end.

(** Collations that compare code points: [PadSpace] disregards trailing
    spaces. *)
Inductive Collation : Type := NoPad | PadSpace.

Definition collation_named (name : string) : option Collation :=
  match name with
  | "utf8mb4_0900_bin"%string => Some NoPad
  | "utf8mb4_bin"%string => Some PadSpace
  | _ => None
  end.

(** A text, reversed, without the spaces at its end. *)
Fixpoint drop_spaces (s : str) : str :=
  match s with (32 :: s)%Z => drop_spaces s | _ => s end.

Definition collates (collation : Collation) (a b : str) : Prop :=
  match collation with
  | NoPad => a = b
  | PadSpace => drop_spaces (reverse a) = drop_spaces (reverse b)
  end.

(** What a database uses for a table without options; [None] where that is not
    known. *)
Record Defaults := { default_charset : option Charset; default_collation : option Collation }.

(** PostgreSQL with a UTF-8 database and a deterministic collation, SQLite with
    its BINARY collation. *)
Definition utf8_database : Defaults :=
  {| default_charset := Some Utf8mb4; default_collation := Some NoPad |}.

Definition charset_of (db : Defaults) (t : Table) : option Charset :=
  match character_set t with Some name => charset_named name | None => default_charset db end.

Definition collation_of (db : Defaults) (t : Table) : option Collation :=
  match collate t with Some name => collation_named name | None => default_collation db end.

(** The column stores the text as it is: its character set has every code point,
    VARCHAR counts characters, and U+0000 is left out, which PostgreSQL cannot
    store. *)
Definition column_holds (cs : Charset) (ty : ColumnType) (s : str) : Prop :=
  Forall (encodes cs) s /\ storable s /\
  match ty with
  | Text => True
  | Varchar n => Z.of_nat (length s) <= n
  | _ => False
  end.

Definition column_of (t : Table) (name : string) : option ColumnType :=
  '(_, c) ← list_find (fun c => col_name c = name) (columns t); Some (col_type c).

Definition holds_in (db : Defaults) (t : Table) (name : string) (s : str) : Prop :=
  match charset_of db t, column_of t name with
  | Some cs, Some ty => column_holds cs ty s
  | _, _ => False
  end.

(** The key takes two texts for the same. *)
Definition same_in (db : Defaults) (t : Table) (a b : str) : Prop :=
  match collation_of db t with Some collation => collates collation a b | None => True end.

Definition required (t : Table) : list string := col_name <$> filter (fun c => not_null c = true) (columns t).

(** The table holds the identifiers under the dedup key, which tells any two of
    them apart, and the claim statements insert into it, with a value for every
    column that must have one. *)
Record schema_fits (db : Defaults) (t : Table) (claims : list string) : Prop := {
  fits_consumer c : consumer_ok c -> holds_in db t "consumer_id" (Consumer_Id.as_str c);
  fits_message m : message_ok m -> holds_in db t "message_id" (Message_Id.as_str m);
  fits_key : primary_key t = ["consumer_id"; "message_id"]%string;
  fits_exact a b : same_in db t a b <-> a = b;
  fits_claims sql : sql ∈ claims -> exists names, insert_columns sql = Some (tbl_name t, names) /\
    (forall name, name ∈ required t -> name ∈ names) /\
    (forall name, name ∈ names -> is_Some (column_of t name));
}.

(** The bytes a row takes in an InnoDB index over text columns of the table's
    character set. *)
Definition column_bytes (cs : Charset) (ty : ColumnType) : Z :=
  match ty with Varchar n => max_bytes cs * n | _ => 0 end.

Definition key_bytes (db : Defaults) (t : Table) : option Z :=
  cs ← charset_of db t;
  Some (foldr (fun name n => n + default 0 (column_bytes cs <$> column_of t name)) 0 (primary_key t)).

(** The largest index InnoDB allows (DYNAMIC row format). *)
Definition innodb_key_limit : Z := 3072.

Lemma length_le_len (s : str) : Z.of_nat (length s) <= len s.
Proof.
  induction s as [|c s IH]; [done|]. change (len (c :: s)) with (len ([c] ++ s)). rewrite len_app.
  pose proof (utf8_char_nonempty c) as Hc. unfold len at 1. cbn [utf8 mbind list_bind].
  rewrite app_nil_r. destruct (utf8_char c); [done|]. cbn [length]. lia.
Qed.

(** A text no longer than [max] bytes fits a TEXT column, or a VARCHAR of that
    many characters, in utf8mb4. *)
Lemma column_holds_by (ty : ColumnType) (max : Z) (s : str) :
  (ty = Text \/ exists n, ty = Varchar n /\ max <= n) ->
  storable s -> len s <= max -> column_holds Utf8mb4 ty s.
Proof.
  intros Hty Hs Hl. pose proof (length_le_len s). split; [by apply Forall_true|]. split; [done|].
  destruct Hty as [->|(n & -> & Hn)]; [done|lia].
Qed.

Lemma schema_fits_by (db : Defaults) (t : Table) (claims : list string) (cty mty : ColumnType) :
  charset_of db t = Some Utf8mb4 -> collation_of db t = Some NoPad ->
  column_of t "consumer_id" = Some cty -> column_of t "message_id" = Some mty ->
  (cty = Text \/ exists n, cty = Varchar n /\ Consumer_Id.MAX_LEN <= n) ->
  (mty = Text \/ exists n, mty = Varchar n /\ Message_Id.MAX_LEN <= n) ->
  primary_key t = ["consumer_id"; "message_id"]%string ->
  Forall (fun sql => exists names, insert_columns sql = Some (tbl_name t, names) /\
    Forall (fun name => name ∈ names) (required t) /\
    Forall (fun name => is_Some (column_of t name)) names) claims ->
  schema_fits db t claims.
Proof.
  intros Hcs Hco Hc Hm Hcty Hmty Hk Hcl. split; [| |done| |].
  - intros [c] [(_ & _ & Hl) Hs]. unfold holds_in. rewrite Hcs, Hc. by eapply column_holds_by.
  - intros [m] [(_ & _ & Hl) Hs]. unfold holds_in. rewrite Hcs, Hm. by eapply column_holds_by.
  - intros a b. unfold same_in. by rewrite Hco.
  - intros sql Hin. rewrite Forall_forall in Hcl.
    destruct (Hcl sql Hin) as (names & Hi & Hr & Hn). exists names.
    by rewrite Forall_forall in Hr, Hn.
Qed.

Ltac claims_listed :=
  repeat constructor; eexists; (split; [vm_compute; reflexivity|]); split;
    vm_compute; repeat constructor; eauto.

(** C37 (the schema holds what the code stores). The DDL of each backend, with
    the character set and collation it names (or, where it names none, in a
    UTF-8 database with exact comparison), creates a table whose key is the pair
    of the two identifiers and takes no two different texts for the same, whose
    columns hold every valid consumer and message identifier without U+0000
    unchanged, and into which both claim statements insert with a value for
    every column that may not be NULL; on MySQL, whatever the defaults of the
    database, and the key of the two VARCHAR columns fits an InnoDB index. *)
Theorem schema_holds_identifiers :
  (exists t, create_table Pg.MIGRATION_SQL = Some t /\
     schema_fits utf8_database t [Postgres.CLAIM_SQL; Postgres.CLAIM_MANY_SQL]) /\
  (exists t, create_table Lite.MIGRATION_SQL = Some t /\
     schema_fits utf8_database t [Sqlite.CLAIM_SQL; Sqlite.CLAIM_MANY_SQL]) /\
  (exists t bytes, create_table My.MIGRATION_SQL = Some t /\ bytes <= innodb_key_limit /\
     forall db, schema_fits db t [MySql.CLAIM_SQL; MySql.CLAIM_MANY_SQL] /\
                key_bytes db t = Some bytes).
Proof.
  split; [|split].
  - eexists. split; [vm_compute; reflexivity|].
    eapply schema_fits_by; try (vm_compute; reflexivity); [by left|by left|]. claims_listed.
  - eexists. split; [vm_compute; reflexivity|].
    eapply schema_fits_by; try (vm_compute; reflexivity); [by left|by left|]. claims_listed.
  - eexists _, 3068. split; [vm_compute; reflexivity|]. split; [done|]. intros db.
    split; [|vm_compute; reflexivity].
    eapply schema_fits_by; try (vm_compute; reflexivity); [right; by eexists|right; by eexists|].
    claims_listed.
Qed.
