(* ===== verification/Kafka.v ===== *)
(** * The Kafka example

    [src/examples/kafka_consumer.rs]: the receive loop that makes a Kafka
    consumer idempotent with a PostgreSQL inbox, and its purge task.  rdkafka is
    a parameter: [kafkaE] are the calls the loop makes, [KafkaLaws] what is
    documented of them.  [main]
    spawns the purge task, which then runs beside the loop: [beside_ev] lets it
    take any number of steps before each statement of the loop.  This file has
    the code, the assumptions, what a key with U+0000 does and what the purge
    task keeps; [KafkaSessions.v] is about runs of [main]. *)

From S2P Require Import Prelude Text Errors Durations Types Store MemStore Consumer Process Sqlx Sql Postgres.

(** ** rdkafka *)

(** A message of the topic: [key_view::<str>()] is [None] without a key and an
    error when the key is not UTF-8. *)
Record KafkaMessage := {
  msg_partition : nat;
  msg_offset : nat;
  key_view : option (result str unit);
  msg_payload : option (list Z);
}.

#[export] Instance KafkaMessage_eq_dec : EqDecision KafkaMessage.
Proof. solve_decision. Defined.

(** A [KafkaError], by a number. *)
Definition KafkaError : Type := Z.

(** [rdkafka::ClientConfig], by its settings. *)
Abbreviation ClientConfig := (gmap string string).

(** [config.create()], [kafka.subscribe(topics)], [kafka.recv().await] and
    [kafka.commit_message(&message, CommitMode::Async)]; the client is part of the
    world. *)
Inductive kafkaE : Type -> Type :=
| Create (config : ClientConfig) : kafkaE (result unit KafkaError)
| Subscribe (topics : list string) : kafkaE (result unit KafkaError)
| Recv : kafkaE (result KafkaMessage KafkaError)
| CommitMessage (m : KafkaMessage) : kafkaE (result unit KafkaError).

(** The effects of the example: those of the database and those of Kafka. *)
Inductive exampleE (A : Type) : Type :=
| DbE (e : sqlxE A)
| KafkaE (e : kafkaE A).
Arguments DbE {_} _.
Arguments KafkaE {_} _.

(** The boxed error [main] returns. *)
Inductive ExampleError : Type :=
| KafkaFailed (e : KafkaError)
| InboxFailed (e : InboxError)
| IdRefused (e : InvalidId).

(** ** The receive loop *)

Definition INSERT_ORDER_SQL : string := "INSERT INTO orders (payload) VALUES ($1)".

Definition orders_id : result ConsumerId InvalidId := Consumer_Id.try_from (lit "orders-billing").

(** The message's identifier, if its key is one. *)
Definition message_id (message : KafkaMessage) : option MessageId :=
  match key_view message with
  | Some (Ok key) =>
      match Message_Id.try_from key with Ok id => Some id | Error _ => None end
  | _ => None
  end.

(** [message.payload().unwrap_or_default().to_vec()] *)
Definition payload (message : KafkaMessage) : list Z := default [] (msg_payload message).

Definition order_handler (payload : list Z) (conn : nat)
  : prog sqlxE (result unit HandlerError) :=
  _ <-? (r <- trigger (Execute (OnConn conn) INSERT_ORDER_SQL [VBytes payload]) ;;
         Ret (map_err ESqlx r)) ;;
  Ret (Ok tt).

Definition commit_message (message : KafkaMessage) : prog exampleE (result unit ExampleError) :=
  r <- trigger (KafkaE (CommitMessage message)) ;; Ret (map_err KafkaFailed r).

(** One turn of the loop. *)
Definition receive (orders : Consumer PgInbox) : prog exampleE (result unit ExampleError) :=
  message <-? (r <- trigger (KafkaE Recv) ;; Ret (map_err KafkaFailed r)) ;;
  match message_id message with
  | None => commit_message message
  | Some id =>
      outcome <-? (r <- lift (@DbE) (Impl.process orders id (order_handler (payload message))) ;;
                   Ret (map_err InboxFailed r)) ;;
      match outcome with
      | Processed _ => commit_message message
      | OutcomeDuplicate => commit_message message
      end
  end.

(** The loop has no exit but an error; after [turns] of them it is still
    running. *)
Fixpoint receive_loop (turns : nat) (orders : Consumer PgInbox)
  : prog exampleE (result unit ExampleError) :=
  match turns with
  | O => Ret (Ok tt)
  | S turns => _ <-? receive orders ;; receive_loop turns orders
  end.

(** ** The purge task *)

Definition weekly : RetentionPolicy := Policy.new (from_secs (7 * 24 * 60 * 60)).

(** [ticks] rounds of the task, each given [fuel] statements: a failed purge is
    logged like a successful one. *)
Fixpoint purge_task (ticks fuel : nat) (inbox : PgInbox) : prog sqlxE unit :=
  match ticks with
  | O => Ret tt
  | S ticks =>
      r <- Postgres.purge inbox fuel weekly ;;
      match r with
      | Ok _ => purge_task ticks fuel inbox
      | Error _ => purge_task ticks fuel inbox
      end
  end.

(** ** [main] *)

(** The effects of [main]: those of the loop, and [tokio::spawn] of a task on the
    pool. *)
Inductive mainE : Type -> Type :=
| LoopE {A : Type} (e : exampleE A) : mainE A
| Spawn (task : prog sqlxE unit) : mainE unit.

Definition client_config : ClientConfig :=
  <["enable.auto.commit" := "false"]> (<["group.id" := "orders-billing"]>
    (<["bootstrap.servers" := "localhost:9092"]> ∅)).

Definition topics : list string := ["orders.created"].

(** A call of the Kafka client with [?]. *)
Definition kafka_try {A : Type} (e : kafkaE (result A KafkaError))
  : prog mainE (result A ExampleError) :=
  r <- trigger (LoopE (KafkaE e)) ;; Ret (map_err KafkaFailed r).

(** [main] with the pool given: migrate, connect to Kafka, spawn the purge task,
    then consume as [orders-billing].  The loop is unrolled to [turns], the task
    to [ticks] of at most [fuel] statements. *)
Definition main (turns ticks fuel : nat) (inbox : PgInbox)
  : prog mainE (result unit ExampleError) :=
  _ <-? (r <- lift (@LoopE) (lift (@DbE) (Postgres.migrate inbox)) ;;
         Ret (map_err InboxFailed r)) ;;
  consumer <-? Ret (map_err IdRefused orders_id) ;;
  let orders := Impl.consumer inbox consumer in
  _ <-? kafka_try (Create client_config) ;;
  _ <-? kafka_try (Subscribe topics) ;;
  _ <- trigger (Spawn (purge_task ticks fuel inbox)) ;;
  lift (@LoopE) (receive_loop turns orders).

(** ** What is assumed *)

(** The statement of the handler: one more row in the orders table, which is the
    application's only table here.  A failed statement leaves the savepoint, or
    the connection is lost with it. *)
Class OrdersTable {W : Type} `{!SqlObserve W (list (list Z))}
    (ev : forall A, sqlxE A -> W -> A * W) : Prop := {
  orders_insert conn b w t r w' :
    tbl_working w conn = Some t ->
    ev _ (Execute (OnConn conn) INSERT_ORDER_SQL [VBytes b]) w = (r, w') ->
    still w w' /\
    stmt w r (fun _ => now_sees w conn (mkTables (rows t) (tapp t ++ [b])) w') /\
    (is_ok r = false -> tbl_saved w' conn = tbl_saved w conn \/ tbl_saved w' conn = None);
}.

(** Per partition: the offset of the next message the session receives, and the
    highest offset the group's committed position may have now or once the
    commits in flight arrive; and whether the client commits by itself. *)
Class KafkaObserve (K : Type) := {
  position : K -> nat -> nat;
  promised : K -> nat -> nat;
  auto_commit : K -> bool;
}.

(** [log p o] is the message of partition [p] at offset [o], those still to be
    produced included; offsets may be skipped.  Within a partition messages come
    in order and none is left out, from where the session is or, after a
    rebalance, from the committed position; without auto-commit only
    [commit_message] moves the committed position, and not beyond the message. *)
Class KafkaLaws {K : Type} `{!KafkaObserve K} (kev : forall A, kafkaE A -> K -> A * K)
    (log : nat -> nat -> option KafkaMessage) : Prop := {
  kafka_create config k r k' :
    kev _ (Create config) k = (r, k') ->
    (forall p, position k' p = position k p /\ promised k' p = promised k p) /\
    (is_ok r = true -> config !! "enable.auto.commit" = Some "false" -> auto_commit k' = false);
  kafka_subscribe l k r k' :
    kev _ (Subscribe l) k = (r, k') ->
    (forall p, position k' p = position k p /\ promised k' p = promised k p) /\
    auto_commit k' = auto_commit k;
  kafka_recv k r k' :
    auto_commit k = false -> kev _ Recv k = (r, k') ->
    auto_commit k' = false /\
    (forall p, promised k' p = promised k p) /\
    match r with
    | Ok m =>
        let p := msg_partition m in
        log p (msg_offset m) = Some m /\
        (exists from, (from = position k p \/ from <= promised k p) /\
           forall o, from <= o < msg_offset m -> log p o = None) /\
        position k' p = S (msg_offset m) /\
        (forall q, q <> p -> position k' q = position k q \/ position k' q <= promised k q)
    | Error _ => True
    end;
  kafka_commit k m r k' :
    auto_commit k = false -> kev _ (CommitMessage m) k = (r, k') ->
    auto_commit k' = false /\
    (forall q, position k' q = position k q) /\
    (forall q, promised k' q <=
       (if decide (q = msg_partition m) then max (promised k q) (S (msg_offset m))
        else promised k q));
}.

(** A new session of the group starts at the committed position. *)
Definition restarts {K : Type} `{!KafkaObserve K} (k k0 : K) : Prop :=
  forall p, position k0 p <= promised k0 p /\ promised k0 p <= promised k p.

(** The world of the example: the database and Kafka. *)
Definition example_ev {W K : Type} (ev : forall A, sqlxE A -> W -> A * W)
    (kev : forall A, kafkaE A -> K -> A * K) (A : Type) (e : exampleE A) (s : W * K)
  : A * (W * K) :=
  match e with
  | DbE e => let '(a, w') := ev A e (fst s) in (a, (w', snd s))
  | KafkaE e => let '(a, k') := kev A e (snd s) in (a, (fst s, k'))
  end.

(** ** A task beside the loop *)

(** The world of a running [main]: the database; what the spawned task still has
    to do; how many steps the task takes before each statement of the loop that
    is still to come; the rows the task removed; and whether the loop claimed a
    message after the task removed its row.  The last two only record what
    happens. *)
Record ExampleWorld (W : Type) := {
  ew_db : W;
  ew_task : prog sqlxE unit;
  ew_schedule : list nat;
  ew_purged : Rows;
  ew_late : bool;
}.
Arguments ew_db {_} _.
Arguments ew_task {_} _.
Arguments ew_schedule {_} _.
Arguments ew_purged {_} _.
Arguments ew_late {_} _.

(** The effect claims a message whose row is among [purged]. *)
Definition claims_purged {A : Type} (e : sqlxE A) (purged : Rows) : bool :=
  match e with
  | Execute (OnConn _) sql [VText c; VText i] =>
      bool_decide (sql = CLAIM_SQL /\ (c, i) ∈ dom purged)
  | _ => false
  end.

Section Beside.
Context {W App : Type} `{!SqlObserve W App}.
Context (ev : forall A, sqlxE A -> W -> A * W).

(** The next statement of the task; it has no destructors to run. *)
Definition task_step (s : ExampleWorld W) : ExampleWorld W :=
  match ew_task s with
  | Vis e k =>
      let '(a, w') := ev _ e (ew_db s) in
      {| ew_db := w'; ew_task := k a; ew_schedule := ew_schedule s;
         ew_purged := ew_purged s ∪
           (rows (tbl_committed (ew_db s)) ∖ rows (tbl_committed w'));
         ew_late := ew_late s |}
  | _ => s
  end.

Definition task_steps (n : nat) (s : ExampleWorld W) : ExampleWorld W :=
  Nat.iter n task_step s.

(** The steps scheduled before the next statement of the loop. *)
Definition task_turn (s : ExampleWorld W) : ExampleWorld W :=
  let s' := task_steps (default 0 (head (ew_schedule s))) s in
  {| ew_db := ew_db s'; ew_task := ew_task s'; ew_schedule := tail (ew_schedule s);
     ew_purged := ew_purged s'; ew_late := ew_late s' |}.

(** A statement of the loop, with the task beside it.  Steps of the task and
    calls of Kafka commute, so that none are scheduled before the latter. *)
Definition beside_ev (A : Type) (e : sqlxE A) (s : ExampleWorld W) : A * ExampleWorld W :=
  let s1 := task_turn s in
  let '(a, w') := ev A e (ew_db s1) in
  (a, {| ew_db := w'; ew_task := ew_task s1; ew_schedule := ew_schedule s1;
         ew_purged := ew_purged s1;
         ew_late := ew_late s1 || claims_purged e (ew_purged s1) |}).

(** Before the task is spawned. *)
Definition unspawned (w : W) (schedule : list nat) (purged : Rows) : ExampleWorld W :=
  {| ew_db := w; ew_task := Ret tt; ew_schedule := schedule; ew_purged := purged;
     ew_late := false |}.

Definition spawn (task : prog sqlxE unit) (s : ExampleWorld W) : ExampleWorld W :=
  {| ew_db := ew_db s; ew_task := task; ew_schedule := ew_schedule s;
     ew_purged := ew_purged s; ew_late := ew_late s |}.
End Beside.

Definition main_ev {W K App : Type} `{!SqlObserve W App} (ev : forall A, sqlxE A -> W -> A * W)
    (kev : forall A, kafkaE A -> K -> A * K) (A : Type) (e : mainE A)
    (s : ExampleWorld W * K) : A * (ExampleWorld W * K) :=
  match e in mainE T return T * (ExampleWorld W * K) with
  | LoopE e => example_ev (beside_ev ev) kev _ e s
  | Spawn task => (tt, (spawn task (fst s), snd s))
  end.

(** A purge beside open transactions: what it removed, they do not see any more,
    as under PostgreSQL's READ COMMITTED; what they did themselves stays. *)
Class PurgeBeside {W App : Type} `{!SqlObserve W App}
    (ev : forall A, sqlxE A -> W -> A * W) : Prop := {
  purge_beside args w r w' conn t :
    ev _ (Execute OnPool PURGE_SQL args) w = (r, w') -> tbl_working w conn = Some t ->
    tbl_working w' conn
      = Some (with_rows
          (rows t ∖ (rows (tbl_committed w) ∖ rows (tbl_committed w'))) t);
}.

(** The identifier of the example is valid. *)
Definition billing_id : ConsumerId := cid "orders-billing".

Lemma orders_id_ok : orders_id = Ok billing_id /\ consumer_ok billing_id.
Proof. split; [vm_compute; reflexivity|ids_ok]. Qed.

(** ** Keys PostgreSQL cannot store *)

(** PostgreSQL has no text with U+0000: a statement with such a parameter fails
    and changes nothing. *)
Class PgRefusesNul {W App : Type} `{!SqlObserve W App}
    (ev : forall A, sqlxE A -> W -> A * W) : Prop := {
  pg_nul conn c i w r w' :
    ~ storable i -> ev _ (Execute (OnConn conn) CLAIM_SQL [VText c; VText i]) w = (r, w') ->
    is_ok r = false /\ still w w';
}.

Section Nul.
Context {W K App : Type} `{!SqlObserve W App}.
Context (ev : forall A, sqlxE A -> W -> A * W) (kev : forall A, kafkaE A -> K -> A * K).
Context (make_interval : SpecFloat.spec_float -> Z).
Context `{!PgEngine ev make_interval, !PgRefusesNul ev}.

Lemma nul_claim_wp (s : PgInbox) conn (c : ConsumerId) (id : MessageId) (w : W) :
  ~ storable (Message_Id.as_str id) ->
  wp ev (Store.claim s conn (Claim_Request.new c id)) (fun o w' => quiet (Conn := nat) w w' /\
    (forall a, o <> Done (Ok a)) /\ (forall x, o <> Panicked x)) w.
Proof.
  intros Hn. apply wp_bind_try, wp_bind, wp_ret; simpl. apply wp_ret.
  apply wp_bind_try, wp_bind, wp_trigger; simpl; [by split|].
  intros r w' He. destruct (pg_nul conn _ _ w r w' Hn He) as [Hr Hq%still_quiet].
  destruct r as [|e]; [done|]. split; [by split|]. by apply wp_ret.
Qed.

Lemma nul_process_wp {T : Type} (s : PgInbox) (c : ConsumerId) (id : MessageId)
    (handler : nat -> prog sqlxE (result T HandlerError)) (w : W) :
  ~ storable (Message_Id.as_str id) ->
  wp ev (Impl.process (Impl.consumer s c) id handler) (fun o w' =>
    committed (Conn := nat) w' = committed (Conn := nat) w /\
    (forall a, o <> Done (Ok a)) /\ (forall x, o <> Panicked x)) w.
Proof.
  intros Hn. apply wp_bind_try. eapply wp_mono; [apply (law_begin (S := PgInbox) (ev := ev))|].
  intros [[tx|e]|x|] w1 [[Hc1 _] Ha]; simpl in Ha |- *; [|done..].
  apply (wp_bind_try_owning (S := PgInbox) ev). eapply wp_mono; [by apply nul_claim_wp|].
  intros [[a|e]|x|] w2 [[Hc2 _] [Hok Hnp]]; simpl; [by destruct (Hok a)| |by destruct (Hnp x)|].
  - intros w3 [Hc3 _]. simpl in *. by rewrite Hc3, Hc2, Hc1.
  - intros w3 [Hc3 _]. simpl in *. by rewrite Hc3, Hc2, Hc1.
Qed.

(** C27 (a key with U+0000 stalls the example). The loop skips keys that are no
    valid identifier, but a key with U+0000 is one, and PostgreSQL refuses it:
    whenever such a message is received, the turn does not succeed, commits
    nothing to the database and never commits the message's offset, so that
    every restart receives it again. *)
Theorem nul_key_stalls (inbox : PgInbox) (m : KafkaMessage) (id : MessageId)
    (w w' : W) (k k1 k' : K) (b b' : budget) o :
  message_id m = Some id -> 0%Z ∈ Message_Id.as_str id ->
  kev _ Recv k = (Ok m, k1) ->
  run (example_ev ev kev) b (receive (Impl.consumer inbox billing_id)) (w, k) = (o, b', (w', k')) ->
  (k' = k \/ k' = k1) /\ committed w' = committed w /\ o <> Done (Ok tt).
Proof.
  intros Hid Hnul Hrecv Hrun.
  assert (wp (example_ev ev kev) (receive (Impl.consumer inbox billing_id)) (fun o s' =>
    (snd s' = k \/ snd s' = k1) /\ committed (fst s') = committed w /\ o <> Done (Ok tt)) (w, k))
    as Hwp; [clear Hrun|specialize (Hwp b); rewrite Hrun in Hwp; exact Hwp].
  apply wp_bind_try, wp_bind, wp_trigger; simpl; [by auto|].
  intros r s' He. rewrite Hrecv in He. simplify_eq/=. split; [by auto|].
  apply wp_ret; simpl. rewrite Hid. apply wp_bind_try, wp_bind, (wp_lift ev); [by intros|].
  eapply wp_mono; [apply nul_process_wp; unfold storable; tauto|].
  intros [[a|e]|x|] w1 (Hc & Hok & Hnp); simpl;
    [by destruct (Hok a)|apply wp_ret; simpl; by auto|by destruct (Hnp x)|by auto].
Qed.
End Nul.

(** ** The purge task keeps a week *)

(** In nanoseconds. *)
Definition week : Z := (7 * 24 * 60 * 60 * 1000000000)%Z.

Section PurgeTask.
Context {W App : Type} `{!SqlObserve W App}.
Context (ev : forall A, sqlxE A -> W -> A * W) (make_interval : SpecFloat.spec_float -> Z).
Context `{!PgEngine ev make_interval}.
#[local] Open Scope Z_scope.

(** [make_interval(secs => 604800)] is a week. *)
Hypothesis interval_week : make_interval (as_secs_f64 (from_secs 604800)) = week.

Lemma purged_trans age t0 t1 total1 total2 w :
  tapp t1 = tapp t0 -> rows t1 ⊆ rows t0 -> total1 = nrows t0 - nrows t1 ->
  (forall k row, rows t0 !! k = Some row -> rows t1 !! k = None ->
                 processed_at row + age < tbl_now w) ->
  purged age t1 total2 w -> purged age t0 (total1 + total2) w.
Proof.
  intros Ha Hsub Ht Hold (H1 & H2 & H3 & H4). split; [congruence|]. split; [by etrans|].
  split; [lia|]. intros k row Hk Hn. destruct (rows t1 !! k) as [row1|] eqn:H1k.
  - pose proof (lookup_weaken _ _ _ _ H1k Hsub). simplify_eq. by apply (H4 k).
  - by apply (Hold k).
Qed.

(** The database's clock does not run backwards during a program. *)
Lemma wp_time {R : Type} (p : prog sqlxE R) w : wp ev p (fun _ w' => tbl_now w <= tbl_now w') w.
Proof.
  apply (wp_invariant ev (fun w' => tbl_now w <= tbl_now w')); [|lia].
  intros A e w1 a w2 H1 H2%(eng_time ev). lia.
Qed.

(** What the task promises after some ticks. *)
Definition task_post (ticks : nat) (w : W) (o : outcome unit) (w' : W) : Prop :=
  (exists total, purged week (tbl_committed w) total w') /\
  (forall x, o <> Panicked x) /\
  (tbl_healthy w -> (0 < ticks)%nat -> o = Done tt -> none_older week (tbl_now w) w').

Lemma task_post_step ticks w w1 total o w' :
  purged week (tbl_committed w) total w1 -> tbl_now w <= tbl_now w1 <= tbl_now w' ->
  (tbl_healthy w -> tbl_healthy w1 /\ none_older week (tbl_now w) w1) ->
  (ticks = 0%nat -> w' = w1) ->
  task_post ticks w1 o w' -> task_post (S ticks) w o w'.
Proof.
  intros (H1 & H2 & H3 & H4) Ht Hup Hlast ([total' Hp] & Hnp & Hold).
  split; [exists (total + total'); eapply purged_trans; eauto|split; [done|]].
  { intros k row Hk Hn. specialize (H4 k row Hk Hn). lia. }
  intros Hh _ Ho. destruct (Hup Hh) as [Hh1 Hold1]. destruct ticks as [|ticks].
  - by rewrite (Hlast eq_refl).
  - intros k row Hk. specialize (Hold Hh1 ltac:(lia) Ho k row Hk). lia.
Qed.

Lemma no_ticks_left (inbox : PgInbox) ticks fuel w :
  wp ev (purge_task ticks fuel inbox) (fun _ w' => ticks = 0%nat -> w' = w) w.
Proof.
  destruct ticks as [|ticks]; [by apply wp_ret|]. intros b.
  by destruct (run ev b _ w) as [[o b'] w'].
Qed.

(** C28 (the purge task). However often the task ticks and whatever fails, it
    does not end by a panic, every row it removed was more than a week old, and
    it touched nothing else; on a healthy database no row is left that was older
    than a week when the task started. *)
Theorem purge_task_keeps_week (inbox : PgInbox) (ticks fuel : nat) (w : W) :
  nrows (tbl_committed w) < Z.of_nat fuel * batch_size weekly ->
  wp ev (purge_task ticks fuel inbox) (task_post ticks w) w.
Proof.
  induction ticks as [|ticks IH] in w |- *; intros Hn; simpl.
  { apply wp_ret. split; [exists 0; apply purged_refl|]. split; [done|]. lia. }
  apply wp_bind. eapply wp_mono.
  { apply wp_conj; [|apply wp_time].
    apply (purge_clock_wp ev week weekly _ fuel w); [| |done].
    - unfold policy_wf, duration_wf, u64_max, u32_max. simpl. lia.
    - assert (make_interval (as_secs_f64 (max_age weekly)) = week) as Hweek by exact interval_week.
      rewrite <- Hweek. apply pg_purge; [rewrite Hweek; unfold week, retention_limit; lia|].
      simpl. unfold u32_max. lia. }
  intros o w1 [(Hup & total & Hp & Ho) Ht].
  assert (nrows (tbl_committed w1) < Z.of_nat fuel * batch_size weekly) as Hn1.
  { destruct Hp as (_ & Hsub & _). unfold nrows in *.
    pose proof (map_subseteq_size _ _ Hsub). lia. }
  destruct o as [[n|e]|x|]; simpl in Ho |- *; [| |done|].
  3: { split; [by exists total|]. by split. }
  1,2: eapply wp_mono;
    [apply wp_conj; [by apply IH|apply wp_conj; [apply wp_time|apply no_ticks_left]]|];
    intros o w' (Hpost & Ht' & H0); eapply task_post_step; [exact Hp|lia| |exact H0|exact Hpost];
    simpl in *; intuition.
Qed.
End PurgeTask.
