(* ===== verification/KafkaSessions.v ===== *)
(** * Sessions of the Kafka example

    Runs of [Kafka.main], the purge task beside the loop: whatever fails and
    wherever a session crashes, every message of the topic is applied at most
    once, and none is passed over; on a working database and broker the loop
    does not end.  Both as long as no message is delivered after the purge task
    removed its row, which is what the window of the purge task is chosen for. *)

From S2P Require Import Prelude Text Errors Durations Types Store MemStore Consumer Process Sqlx Sql Postgres Kafka.

(** ** The ledger of the topic *)

Section Ledger.
Variable log : nat -> nat -> option KafkaMessage.
Implicit Types (d : Db (list (list Z))) (m : KafkaMessage) (L : list KafkaMessage).

(** The inbox knows the message, or nothing can be done with it. *)
Definition settled m d : Prop :=
  match message_id m with
  | Some id => key billing_id id ∈ recorded d
  | None => True
  end.

(** Every message of the partition below offset [n] is handled. *)
Definition settled_below (p n : nat) d : Prop :=
  forall o m, o < n -> log p o = Some m -> settled m d.

(** Since [d0] the messages of [L] were applied, in this order, each one a
    message of the topic with an identifier of its own. *)
Record ledger d0 d L : Prop := {
  led_app : app d = app d0 ++ (payload <$> L);
  led_recorded id : key billing_id id ∈ recorded d <->
    key billing_id id ∈ recorded d0 \/ Some id ∈ message_id <$> L;
  led_once : NoDup (message_id <$> L);
  led_log m : m ∈ L -> log (msg_partition m) (msg_offset m) = Some m /\
    exists id, message_id m = Some id /\ key billing_id id ∉ recorded d0;
}.

Lemma ledger_nil d : ledger d d [].
Proof.
  split; simpl; [by rewrite app_nil_r|set_solver|constructor|by intros m ?%not_elem_of_nil].
Qed.

(** The database after the message with [id] was applied. *)
Definition apply_message (id : MessageId) m d : Db (list (list Z)) :=
  mkDb (recorded (record_key (key billing_id id) d)) (app d ++ [payload m]).

Lemma elem_of_apply_message id id' m d :
  key billing_id id' ∈ recorded (apply_message id m d) <->
  id' = id \/ key billing_id id' ∈ recorded d.
Proof.
  simpl. rewrite elem_of_union, elem_of_singleton.
  split; (intros [Heq|?]; [left|by right]); [by apply (inj (key billing_id))|by subst].
Qed.

Lemma ledger_apply d0 d L m id :
  ledger d0 d L -> message_id m = Some id -> key billing_id id ∉ recorded d ->
  log (msg_partition m) (msg_offset m) = Some m ->
  ledger d0 (apply_message id m d) (L ++ [m]).
Proof.
  intros [Ha Hr Ho Hl] Hm Hk Hlog.
  assert (key billing_id id ∉ recorded d0 /\ Some id ∉ message_id <$> L) as [Hn HnL]
    by (rewrite Hr in Hk; tauto).
  split.
  - simpl. rewrite Ha, fmap_app. by rewrite <- app_assoc.
  - intros id'. rewrite elem_of_apply_message, Hr, fmap_app, elem_of_app. simpl.
    rewrite list_elem_of_singleton, Hm. naive_solver.
  - rewrite fmap_app. apply NoDup_app. split; [done|]. simpl. rewrite Hm.
    split; [|apply NoDup_singleton]. intros x Hx ->%list_elem_of_singleton. done.
  - intros m' [? | ->%list_elem_of_singleton]%elem_of_app; [by apply Hl|]. by eauto.
Qed.

Lemma settled_apply id m m' d : settled m' d -> settled m' (apply_message id m d).
Proof.
  unfold settled. destruct (message_id m'); [|done]. rewrite elem_of_apply_message. tauto.
Qed.

Lemma settled_below_apply p n id m d :
  settled_below p n d -> settled_below p n (apply_message id m d).
Proof. intros H o m' Ho Hm'. eapply settled_apply, H; eauto. Qed.
End Ledger.

(** ** The purge task is out of the way *)

(** The statement of the purge task. *)
Definition is_weekly_purge {A : Type} (e : sqlxE A) : Prop :=
  match e with
  | Execute OnPool sql args =>
      sql = PURGE_SQL /\
      args = [VDouble (as_secs_f64 (max_age weekly)); VInt (batch_size weekly)]
  | _ => False
  end.

(** The task runs no other statement. *)
Fixpoint purges_only {R : Type} (p : prog sqlxE R) : Prop :=
  match p with
  | Ret _ | Panic _ => True
  | Vis e k => is_weekly_purge e /\ forall a, purges_only (k a)
  | Scope _ _ _ => False
  end.

Lemma purges_only_bind {A B : Type} (p : prog sqlxE A) (f : A -> prog sqlxE B) :
  purges_only p -> (forall a, purges_only (f a)) -> purges_only (bind p f).
Proof.
  intros Hp Hf. induction p as [R r|R m|R C e k IH|R C c IHc body IHb k IH];
    [apply Hf|done| |done].
  destruct Hp as [He Hk]. split; [done|]. intros a. by apply IH.
Qed.

Lemma purge_task_purges_only ticks fuel (inbox : PgInbox) :
  purges_only (purge_task ticks fuel inbox).
Proof.
  induction ticks as [|ticks IH]; simpl; [done|].
  apply purges_only_bind; [|by intros [n|e]].
  clear IH. unfold Postgres.purge. generalize 0%Z.
  induction fuel as [|fuel IHf]; intros total; [done|].
  split; [done|]. intros [n|e]; [|done].
  change (purges_only (if (n <? batch_size weekly)%Z then Ret (Ok (total + n)%Z) else
    purge_loop fuel (trigger (Execute OnPool PURGE_SQL
      [VDouble (as_secs_f64 (max_age weekly)); VInt (batch_size weekly)]))
      (batch_size weekly) (total + n) : prog sqlxE (result Z InboxError))).
  case_match; [done|]. apply IHf.
Qed.

(** Rows that move from the table to the purged ones are still known. *)
Lemma moved_known (t before after purged : gset (str * str)) :
  after ⊆ before -> before ⊆ t ->
  after ⊆ t ∖ (before ∖ after) /\
  t ∖ (before ∖ after) ∪ (purged ∪ before ∖ after) = t ∪ purged.
Proof.
  intros H1 H2. split.
  - intros x Hx. apply elem_of_difference. rewrite elem_of_difference.
    split; [auto|tauto].
  - apply set_eq. intros x. specialize (H2 x).
    rewrite !elem_of_union, !elem_of_difference.
    destruct (decide (x ∈ before)), (decide (x ∈ after)); tauto.
Qed.

Section Beside.
Context {W : Type} `{!SqlObserve W (list (list Z))}.
Context (ev : forall A, sqlxE A -> W -> A * W).
Context (make_interval : SpecFloat.spec_float -> Z).
Context `{!PgEngine ev make_interval, !OrdersTable ev, !PurgeBeside ev}.
Hypothesis interval_week : make_interval (as_secs_f64 (from_secs 604800)) = week.
Implicit Types (w : W) (s : ExampleWorld W) (d : Db (list (list Z))).

Abbreviation bev := (beside_ev ev).
Abbreviation up s := (tbl_healthy (ew_db s)).

(** What the inbox knows or knew: the rows in the table and the purged ones. *)
Definition known s : Db (list (list Z)) :=
  mkDb (dom (rows (tbl_committed (ew_db s))) ∪ dom (ew_purged s)) (tapp (tbl_committed (ew_db s))).

(** The transaction on [conn] sees at least the committed rows, and [d] with the
    purged ones. *)
Definition sees_known s (conn : nat) d : Prop :=
  exists t, tbl_working (ew_db s) conn = Some t /\
    dom (rows (tbl_committed (ew_db s))) ⊆ dom (rows t) /\
    d = mkDb (dom (rows t) ∪ dom (ew_purged s)) (tapp t).

(** The task does nothing but purge, and purged no row younger than a week. *)
Definition task_ok s : Prop :=
  purges_only (ew_task s) /\
  forall k row, ew_purged s !! k = Some row -> (processed_at row + week < tbl_now (ew_db s))%Z.

(** Nothing the inbox knows or knew changed. *)
Definition calm s s' : Prop :=
  task_ok s' /\ known s' = known s /\ ew_late s' = ew_late s /\ (up s -> up s').

Lemma calm_refl s : task_ok s -> calm s s.
Proof. by split. Qed.

Lemma calm_trans s s1 s2 : calm s s1 -> calm s1 s2 -> calm s s2.
Proof.
  intros (_ & H2 & H3 & H4) (H1' & H2' & H3' & H4'). split; [done|].
  split; [by rewrite H2'|]. split; [by rewrite H3'|]. auto.
Qed.

(** One statement of the task. *)
Lemma weekly_purge {A : Type} (e : sqlxE A) w a w' :
  is_weekly_purge e -> ev A e w = (a, w') ->
  let dead := rows (tbl_committed w) ∖ rows (tbl_committed w') in
  tapp (tbl_committed w') = tapp (tbl_committed w) /\
  rows (tbl_committed w') ⊆ rows (tbl_committed w) /\
  (tbl_healthy w -> tbl_healthy w') /\
  (forall k row, dead !! k = Some row -> (processed_at row + week < tbl_now w')%Z) /\
  (forall conn t, tbl_working w conn = Some t ->
     tbl_working w' conn = Some (with_rows (rows t ∖ dead) t)).
Proof.
  intros He Hev dead.
  destruct e as [| | | | |[conn|] sql args| | | | | |]; try done. destruct He as [-> ->].
  assert (make_interval (as_secs_f64 (max_age weekly)) = week) as Hweek by exact interval_week.
  destruct (pg_purge (ev := ev) (make_interval := make_interval)
              (as_secs_f64 (max_age weekly)) (batch_size weekly)) with (w := w) (r := a) (w' := w')
    as [Hup Hc]; [rewrite Hweek; unfold week, retention_limit; lia|unfold u32_max; simpl; lia|done|].
  assert (forall conn t, tbl_working w conn = Some t ->
     tbl_working w' conn = Some (with_rows (rows t ∖ dead) t)) as Hopen
    by (intros conn t; by apply (purge_beside _ _ _ _ _ _ Hev)).
  destruct Hc as [(Hc & _)|(cutoff & gone & Hcut & Hgone & _ & Hc & _)].
  - split_and!; [by rewrite Hc|by rewrite Hc|done| |done].
    unfold dead. rewrite Hc. intros k row [? Hn]%lookup_difference_Some. congruence.
  - rewrite Hweek in Hcut. split_and!; [by rewrite Hc| |done| |done].
    + rewrite Hc. simpl. by apply map_subseteq_difference_l.
    + unfold dead. rewrite Hc. simpl. intros k row [Hk Hn]%lookup_difference_Some.
      apply lookup_difference_None in Hn as [?|[row' Hg]]; [congruence|].
      pose proof (lookup_weaken _ _ _ _ Hg Hgone) as [Hk' Hlt]%expired_spec.
      simplify_eq. lia.
Qed.

Lemma task_step_calm s :
  task_ok s -> calm s (task_step ev s) /\
  forall conn d, sees_known s conn d -> sees_known (task_step ev s) conn d.
Proof.
  intros Hok. pose proof Hok as [Htask Hold]. unfold task_step.
  destruct (ew_task s) as [r|m|A e k|A c body k] eqn:Ht; try by split; [apply calm_refl|].
  destruct Htask as [He Hk]. destruct (ev A e (ew_db s)) as [a w'] eqn:Hev.
  destruct (weekly_purge e _ _ _ He Hev) as (Ha & Hsub & Hup & Hdead & Hopen).
  pose proof (eng_time ev e _ _ _ Hev) as Htime. apply subseteq_dom in Hsub as Hdom.
  split; [|intros conn d (t & Hw & Hct & ->)].
  - split; [split; simpl; [apply Hk|]|split; [|done]].
    + intros k0 row [Hp|[_ Hp]]%lookup_union_Some_raw; [|by apply (Hdead k0)].
      specialize (Hold _ _ Hp). lia.
    + unfold known. simpl. rewrite Ha, dom_union_L, dom_difference_L. f_equal.
      destruct (moved_known (dom (rows (tbl_committed (ew_db s)))) _ _
        (dom (ew_purged s)) Hdom ltac:(done)) as [_ <-].
      f_equal. apply set_eq. intros x. specialize (Hdom x). rewrite !elem_of_difference.
      destruct (decide (x ∈ dom (rows (tbl_committed w')))); tauto.
  - destruct (moved_known _ _ _ (dom (ew_purged s)) Hdom Hct) as [Hafter Heq]. eexists. simpl. split; [by apply Hopen|]. simpl.
    rewrite dom_union_L, !dom_difference_L. split; [done|]. by rewrite Heq.
Qed.

Lemma task_steps_calm n s :
  task_ok s -> calm s (task_steps ev n s) /\
  forall conn d, sees_known s conn d -> sees_known (task_steps ev n s) conn d.
Proof.
  intros Hok. induction n as [|n [IH IHs]]; simpl; [by split; [apply calm_refl|]|].
  destruct (task_step_calm (task_steps ev n s)) as [Hc Hs]; [apply IH|].
  split; [by eapply calm_trans|]. auto.
Qed.

(** A statement of the loop runs after some steps of the task. *)
Lemma beside_split {A : Type} (e : sqlxE A) s a s' :
  task_ok s -> bev A e s = (a, s') ->
  exists s1, calm s s1 /\ (forall conn d, sees_known s conn d -> sees_known s1 conn d) /\
    ev A e (ew_db s1) = (a, ew_db s') /\ ew_purged s' = ew_purged s1 /\
    ew_late s' = ew_late s1 || claims_purged e (ew_purged s1) /\ task_ok s' /\
    (still (ew_db s1) (ew_db s') -> known s' = known s /\ (up s -> up s')).
Proof.
  intros Hok. unfold beside_ev, task_turn. simpl.
  set (s1 := task_steps ev _ s). destruct (ev A e (ew_db s1)) as [a1 w'] eqn:Hev.
  intros [= <- <-]. destruct (task_steps_calm (default 0 (head (ew_schedule s))) s Hok) as [Hc Hs].
  fold s1 in Hc, Hs. exists s1. destruct Hc as ([H1 Hold] & Hk & Hl & Hu). simpl.
  split_and!; [by split; [split|]|done|done|done|done| |].
  - split; simpl; [done|]. intros k row Hp. specialize (Hold k row Hp).
    pose proof (eng_time ev e _ _ _ Hev). lia.
  - intros [Hcm Hh]. unfold known in *. simpl. rewrite Hcm. split; [done|auto].
Qed.

(** Once a purged message was claimed, that is on record. *)
Lemma late_step {A : Type} (e : sqlxE A) s a s' :
  ew_late s = true -> bev A e s = (a, s') -> ew_late s' = true.
Proof.
  intros Hl He. assert (forall n, ew_late (task_steps ev n s) = true) as Hn.
  { induction n as [|n IH]; simpl; [done|]. unfold task_step at 1.
    destruct (ew_task _); [done|done| |done]. by destruct (ev _ _ _). }
  unfold beside_ev, task_turn in He. simpl in He. destruct (ev A e _) as [a1 w'].
  simplify_eq/=. by rewrite Hn.
Qed.

Lemma late_wp {R : Type} (p : prog sqlxE R) s :
  ew_late s = true -> wp bev p (fun _ s' => ew_late s' = true) s.
Proof.
  apply (wp_invariant bev (fun s => ew_late s = true)). intros A e s0 a s'. apply late_step.
Qed.

(** ** The statements of [process] beside the task *)

(** A statement is answered, or fails on a database that is not healthy. *)
Definition answered {A Err : Type} s (R : ExampleWorld W -> Prop)
    (Q : A -> ExampleWorld W -> Prop) (o : outcome (result A Err)) s' : Prop :=
  R s' /\
  match o with
  | Done (Ok a) => Q a s'
  | Done (Error _) => ~ up s
  | Panicked _ => False
  | Cancelled => True
  end.

Lemma await_answered {A Err : Type} (f : SqlxError -> Err) (e : sqlxE (result A SqlxError)) s
    (R : ExampleWorld W -> Prop) (Q : A -> ExampleWorld W -> Prop) :
  R s ->
  (forall r s', bev _ e s = (r, s') ->
     R s' /\ match r with Ok a => Q a s' | Error _ => ~ up s end) ->
  wp bev (await_map_err f (trigger e)) (answered s R Q) s.
Proof.
  intros Hs He. apply wp_bind, wp_trigger; [by split|].
  intros r s' [HR Hr]%He. split; [by split|]. apply wp_ret. split; [done|]. by destruct r.
Qed.

(** A statement that commits nothing and claims nothing. *)
Lemma still_answered {A Err : Type} (f : SqlxError -> Err) (e : sqlxE (result A SqlxError)) s
    (Q : A -> ExampleWorld W -> Prop) :
  task_ok s -> (forall purged, claims_purged e purged = false) ->
  (forall s1 r s', calm s s1 -> (forall conn d, sees_known s conn d -> sees_known s1 conn d) ->
     ev _ e (ew_db s1) = (r, ew_db s') -> ew_purged s' = ew_purged s1 ->
     still (ew_db s1) (ew_db s') /\
     match r with Ok a => Q a s' | Error _ => ~ up s end) ->
  wp bev (await_map_err f (trigger e)) (answered s (calm s) Q) s.
Proof.
  intros Hok Hcl He. apply await_answered; [by apply calm_refl|].
  intros r s' Hev.
  destruct (beside_split e s r s' Hok Hev) as (s1 & Hc & Hsee & Hev1 & Hp & Hl & Hok' & Hst).
  destruct (He s1 r s' Hc Hsee Hev1 Hp) as [[Hk Hu]%Hst HQ]. split; [|done].
  split; [done|]. split; [done|]. split; [|done].
  rewrite Hl, Hcl, orb_false_r. apply Hc.
Qed.

Lemma begin_beside (inbox : PgInbox) s :
  task_ok s ->
  wp bev (Store.begin inbox)
    (answered s (calm s) (fun tx s' => sees_known s' tx (known s))) s.
Proof.
  intros Hok. apply still_answered; [done|done|].
  intros s1 r s' Hc _ Hev Hp.
  destruct (pg_begin (ev := ev) (ew_db s1) r (ew_db s') Hev) as [Hst Hr]. split; [done|].
  destruct Hc as (_ & Hk & _ & Hu). destruct r as [tx|e]; simpl in Hr; [|tauto].
  destruct Hr as [Hw _], Hst as [Hcm _]. eexists. split; [exact Hw|].
  rewrite Hcm, Hp. split; [done|]. by rewrite <- Hk.
Qed.

Lemma rollback_beside (inbox : PgInbox) tx s :
  task_ok s -> wp bev (Store.rollback inbox tx) (answered s (calm s) (fun _ _ => True)) s.
Proof.
  intros Hok. apply still_answered; [done|done|].
  intros s1 r s' (_ & _ & _ & Hu) _ Hev _.
  destruct (eng_rollback ev tx _ _ _ Hev) as [Hst Hr]. split; [done|].
  destruct r; simpl in Hr; tauto.
Qed.

(** What dropping a transaction does. *)
Definition drops s s' : Prop :=
  (task_ok s -> calm s s') /\ (ew_late s = true -> ew_late s' = true).

Lemma drop_beside (tx : nat) s :
  wp bev (drop_tx tx) (fun o s' => drops s s' /\ forall m, o <> Panicked m) s.
Proof.
  eapply wp_mono; [apply (wp_conj _ _ (fun o s' => (task_ok s -> calm s s') /\
    forall m, o <> Panicked m) (fun _ s' => ew_late s = true -> ew_late s' = true))|].
  - apply wp_trigger; [by split; [apply calm_refl|]|].
    intros r s' Hev. assert (task_ok s -> calm s s') as Hc; [|by split].
    intros Hok. destruct (beside_split (TxDrop tx) s r s' Hok Hev)
      as (s1 & Hc & _ & Hev1 & _ & Hl & Hok' & Hst).
    destruct (Hst (eng_drop ev tx _ _ _ Hev1)) as [Hk Hu].
    split; [done|]. split; [done|]. split; [|done].
    rewrite Hl. simpl. rewrite orb_false_r. apply Hc.
  - intros b. pose proof (late_wp (drop_tx tx) s) as Hl. specialize (fun H => Hl H b).
    destruct (run bev b (drop_tx tx) s) as [[o b'] s']. exact Hl.
  - intros o s' [[Hc Hp] Hl]. by split.
Qed.

Lemma commit_beside (inbox : PgInbox) tx d s :
  task_ok s -> sees_known s tx d ->
  wp bev (Store.commit inbox tx)
    (answered s (fun s' => task_ok s' /\ (up s -> up s') /\
                  (known s' = known s \/ known s' = d))
       (fun _ s' => known s' = d)) s.
Proof.
  intros Hok Hsee. apply await_answered; [by auto|]. intros r s' Hev.
  destruct (beside_split (TxCommit tx) s r s' Hok Hev)
    as (s1 & (Hok1 & Hk & Hl1 & Hu) & Hsees & Hev1 & Hp & Hl & Hok' & _).
  destruct (Hsees _ _ Hsee) as (t & Hw & _ & Hd).
  destruct (eng_commit ev tx _ t _ _ Hw Hev1) as (Hor & Hup & Hr).
  assert (tbl_committed (ew_db s') = t -> known s' = d) as Hdone.
  { intros Hc. unfold known. by rewrite Hc, Hp. }
  split.
  - split; [done|]. split; [auto|]. destruct Hor as [Hc|Hc]; [left|by right; apply Hdone].
    rewrite <- Hk. unfold known. by rewrite Hc, Hp.
  - destruct r; simpl in Hr; [by apply Hdone|tauto].
Qed.

Lemma order_handler_beside conn b d s :
  task_ok s -> sees_known s conn d ->
  wp bev (order_handler b conn) (fun o s' =>
    answered s (calm s) (fun _ s' => sees_known s' conn (mkDb (recorded d) (app d ++ [b]))) o s' /\
    forall e, o = Done (Error e) -> exists x, e = ESqlx x) s.
Proof.
  intros Hok Hsee. apply wp_bind_try. eapply wp_mono; [apply wp_conj|].
  - apply (still_answered ESqlx _ s
      (fun _ s' => sees_known s' conn (mkDb (recorded d) (app d ++ [b])))); [done|done|].
    intros s1 r s' (_ & _ & _ & Hu) Hsees Hev Hp.
    destruct (Hsees _ _ Hsee) as (t & Hw & Hsub & ->).
    destruct (orders_insert conn b _ t _ _ Hw Hev) as (Hst & Hr & _). split; [done|].
    destruct r as [n|e]; simpl in Hr; [|tauto]. destruct Hr as [Hw' _], Hst as [Hcm _].
    eexists. split; [exact Hw'|]. rewrite Hcm, Hp. by split.
  - apply wp_bind, (wp_trigger bev _ (on_done _
      (fun o _ => forall e, o = Done (Error e) -> exists x, e = ESqlx x))); [done|].
    intros r s' _. split; [done|]. simpl. apply wp_ret. destruct r; [done|].
    intros e' [= <-]. by eexists.
  - intros [[n|e]|m|] s' [[Hc Hr] He]; simpl in *; [|by split; [|naive_solver]|done|done].
    apply wp_ret. by split.
Qed.

Variable inbox : PgInbox.
Abbreviation self := (Impl.consumer inbox billing_id).

(** A claim of a message that was not purged is answered by what the inbox knows
    or knew. *)
Lemma claim_beside conn id d s :
  task_ok s -> message_ok id -> sees_known s conn d ->
  wp bev (Impl.claim self conn id)
    (answered s (fun s' => ew_late s' = true \/ calm s s')
       (fun c s' => ew_late s' = true \/
          c = claim_answer d (key billing_id id) /\
          sees_known s' conn (record_key (key billing_id id) d))) s.
Proof.
  intros Hok [_ Hid] Hsee. destruct orders_id_ok as [_ [_ Hbilling]].
  apply wp_bind_try, wp_bind, wp_ret; simpl. apply wp_ret.
  apply wp_bind_try. eapply wp_mono; [apply (await_answered Postgres.claim_error _ s
    (fun s' => ew_late s' = true \/ calm s s')
    (fun n s' => ew_late s' = true \/
       n = (if decide (key billing_id id ∈ recorded d) then 0 else 1)%Z /\
       sees_known s' conn (record_key (key billing_id id) d)))|].
  - right. by apply calm_refl.
  - intros r s' Hev.
    destruct (beside_split _ s r s' Hok Hev) as (s1 & Hc & Hsees & Hev1 & Hp & Hl & Hok' & Hst).
    destruct (Hsees _ _ Hsee) as (t & Hw & Hsub & ->).
    destruct (pg_claim (ev := ev) conn _ _ Hbilling Hid _ t _ _ Hw Hev1) as [Hstill Hr].
    destruct (ew_late s') eqn:Hlate.
    { split; [by left|]. destruct Hc as (_ & _ & _ & Hu).
      destruct r; simpl in Hr; [by left|tauto]. }
    symmetry in Hl. apply orb_false_iff in Hl as [Hl1 Hcl]. simpl in Hcl.
    apply bool_decide_eq_false in Hcl.
    assert (key billing_id id ∉ dom (ew_purged s1)) as Hn by tauto.
    destruct (Hst Hstill) as [Hk Hu].
    split; [right; split; [done|]; split; [done|]; split; [|done]; by rewrite Hlate, <- Hl1; apply Hc|].
    destruct Hc as (_ & _ & _ & Hu1). destruct r as [n|e]; simpl in Hr; [|tauto].
    right. destruct Hr as [-> (row & Hw' & _)], Hstill as [Hcm _]. split.
    + simpl. repeat case_decide; set_solver.
    + eexists. split; [exact Hw'|]. rewrite Hcm, Hp. simpl. unfold insert_new.
      split; [case_decide; set_solver|]. unfold record_key. simpl. f_equal.
      case_decide; set_solver.
  - intros [[n|e]|m|] s' [HR Hr]; simpl in *; [|by split..].
    apply wp_ret. split; [done|]. destruct Hr as [?|[-> ?]]; [by left|right].
    split; [|done]. unfold claim_answer. by case_decide.
Qed.

(** ** [process] beside the task *)

(** The handler of the example, which fails only on an unhealthy database. *)
Definition order_spec (healthy : Prop) (b : list Z) : HandlerSpec (list (list Z)) unit := {|
  returns d _ d' := d' = mkDb (recorded d) (app d ++ [b]);
  fails _ e := ~ healthy /\ exists x, e = ESqlx x;
  panics _ _ := False;
|}.

(** A call of [process] ends as it would without the task on what the inbox knows
    or knew, or a purged message was claimed. *)
Definition beside_ends (k : str * str) (b : list Z) (healthy : Prop) d
    (o : outcome (result (Outcome unit) InboxError)) s' : Prop :=
  ew_late s' = true \/
  task_ok s' /\ process_ends k (order_spec healthy b) healthy d o (known s') /\
  (healthy -> up s').

(** From a fresh claim on. *)
Lemma fresh_beside k b (healthy : Prop) d tx s :
  task_ok s -> known s = d -> k ∉ recorded d -> sees_known s tx (record_key k d) ->
  (healthy -> up s) ->
  wp bev (r <- Impl.owning tx (order_handler b tx) ;;
          match r with
          | Ok value => _ <-? Store.commit inbox tx ;; Ret (Ok (Processed value))
          | Error e => _ <- Store.rollback inbox tx ;; Ret (Error (Handler e))
          end) (beside_ends k b healthy d) s.
Proof.
  intros Hok Hk Hnew Hsee Hu. apply wp_bind, (wp_owning_rel _ _ drop_beside).
  eapply wp_mono; [by apply (order_handler_beside tx b _ s Hok Hsee)|].
  intros o s1 [[(Hok1 & Hk1 & _ & Hu1) Ho] He]. rewrite Hk in Hk1.
  assert (forall s2, drops s1 s2 ->
    task_ok s2 /\ known s2 = d /\ (healthy -> up s2)) as Hquit.
  { intros s2 [Hc _]. destruct (Hc Hok1) as (Hok2 & Hk2 & _ & Hu2).
    split; [done|]. split; [by rewrite Hk2|]. auto. }
  destruct o as [[v|e]|m|]; simpl in Ho |- *; [| |done|].
  - apply wp_bind_try. eapply wp_mono; [exact (commit_beside inbox tx _ s1 Hok1 Ho)|].
    intros o s2 [(Hok2 & Hu2 & Hor) Hr]. rewrite Hk1 in Hor.
    destruct o as [[[]|e]|m|]; simpl in Hr |- *; [| |done|].
    + apply wp_ret. right. rewrite Hr. split; [done|]. split; [by apply ends_processed|auto].
    + right. split; [done|]. split; [|auto].
      destruct Hor as [-> | ->]; [apply ends_store_failed; tauto|].
      apply (ends_commit_unknown _ _ _ _ _ tt); [tauto|done|done].
    + right. split; [done|]. split; [|auto].
      destruct Hor as [-> | ->]; [apply ends_cancelled|by apply (ends_cancelled_in_commit _ _ _ _ tt)].
  - apply wp_bind. eapply wp_mono; [by apply rollback_beside|].
    intros o s2 [Hc2 Hr]. assert (drops s1 s2) as Hd2.
    { split; [done|]. destruct Hc2 as (_ & _ & -> & _). done. }
    destruct (Hquit s2 Hd2) as (Hok2 & Hk2 & Hu2).
    assert (beside_ends k b healthy d (Done (Error (Handler e))) s2) as Hfailed.
    { right. rewrite Hk2. split; [done|]. split; [|done]. apply ends_handler_failed; [done|].
      split; [tauto|by apply He]. }
    destruct o as [r|m|]; simpl in Hr |- *; [by apply wp_ret|done|].
    right. rewrite Hk2. split; [done|]. split; [apply ends_cancelled|done].
  - intros s2 Hc2. destruct (Hquit s2 Hc2) as (Hok2 & Hk2 & Hu2).
    right. rewrite Hk2. split; [done|]. split; [apply ends_cancelled|done].
Qed.

Lemma process_beside id b s :
  task_ok s -> message_ok id ->
  wp bev (Impl.process self id (order_handler b))
    (beside_ends (key billing_id id) b (up s) (known s)) s.
Proof.
  intros Hok Hid. apply wp_bind_try. eapply wp_mono; [by apply begin_beside|].
  intros o s1 [(Hok1 & Hk1 & _ & Hu1) Ho].
  destruct o as [[tx|e]|m|]; simpl in Ho |- *; [| |done|].
  2,3: right; rewrite Hk1; split; [done|]; split; [by constructor|done].
  apply (wp_bind_try_owning_rel _ _ drop_beside).
  eapply wp_mono; [exact (claim_beside tx id _ s1 Hok1 Hid Ho)|].
  intros o s2 [HR Ho2]. destruct (ew_late s2) eqn:Hlate.
  { destruct o as [[c|e]|m|]; [eapply wp_mono; [by apply late_wp|]; by left|..];
      intros s3 [_ Hl3]; repeat split; left; auto. }
  destruct HR as [?|(Hok2 & Hk2 & _ & Hu2)]; [done|]. rewrite Hk1 in Hk2.
  assert (forall s3, drops s2 s3 -> task_ok s3 /\ known s3 = known s /\ (up s -> up s3)) as Hquit.
  { intros s3 [Hc _]. destruct (Hc Hok2) as (Hok3 & Hk3 & _ & Hu3).
    split; [done|]. split; [by rewrite Hk3|]. auto. }
  destruct o as [[c|e]|m|]; simpl in Ho2 |- *; [| |done|].
  - destruct Ho2 as [?|[-> Hsee]]; [done|]. unfold claim_answer. case_decide as Hdup.
    + apply wp_bind_try. eapply wp_mono; [by apply rollback_beside|].
      intros o s3 [(Hok3 & Hk3 & _ & Hu3) Hr]. rewrite Hk2 in Hk3.
      destruct o as [[[]|e]|m|]; simpl in Hr |- *; [apply wp_ret| |done|];
        right; rewrite Hk3; (split; [done|]); (split; [|auto]); constructor; tauto.
    + by apply fresh_beside; auto.
  - intros s3 (Hok3 & Hk3 & Hu3)%Hquit.
    split; right; rewrite Hk3; (split; [done|]); (split; [|done]); constructor; tauto.
  - intros s3 (Hok3 & Hk3 & Hu3)%Hquit.
    right; rewrite Hk3; (split; [done|]); (split; [|done]); constructor.
Qed.
End Beside.

(** ** Turns of the loop *)

Section Sessions.
Context {W K : Type} `{!SqlObserve W (list (list Z)), !KafkaObserve K}.
Context (ev : forall A, sqlxE A -> W -> A * W) (kev : forall A, kafkaE A -> K -> A * K).
Context (make_interval : SpecFloat.spec_float -> Z) (log : nat -> nat -> option KafkaMessage).
Context `{!PgEngine ev make_interval, !OrdersTable ev, !PurgeBeside ev, !KafkaLaws kev log}.
Hypothesis interval_week : make_interval (as_secs_f64 (from_secs 604800)) = week.
Implicit Types (w : ExampleWorld W) (k : K) (m : KafkaMessage) (d : Db (list (list Z))).

(** PostgreSQL stores every key of the topic. *)
Hypothesis log_storable : forall p o m id,
  log p o = Some m -> message_id m = Some id -> storable (Message_Id.as_str id).

Variable inbox : PgInbox.

Abbreviation self := (Impl.consumer inbox billing_id).
Abbreviation eev := (example_ev (beside_ev ev) kev).
Abbreviation mev := (main_ev ev kev).
Abbreviation up w := (tbl_healthy (ew_db w)).

(** What one call of [process] does to the ledger of the topic. *)
Lemma process_ends_applies id m healthy healthy' d o d' :
  process_ends (key billing_id id) (order_spec healthy (payload m)) healthy' d o d' ->
  (d' = d \/ key billing_id id ∉ recorded d /\ d' = apply_message id m d) /\
  (forall r, o = Done (Ok r) -> key billing_id id ∈ recorded d').
Proof.
  intros He. assert (key billing_id id ∈ recorded (apply_message id m d)) as Hin
    by (apply elem_of_apply_message; by left).
  destruct He as [v d' Hk Hr|Hk|e Hk Hf|e Hu|e v d' Hu Hk Hr|x Hk Hp| |v d' Hk Hr];
    try (simpl in Hr; subst d'); try done; (split; [by auto|done]).
Qed.

Definition state_ok d0 (s : ExampleWorld W * K) : Prop :=
  task_ok (fst s) /\
  (exists L, ledger log d0 (known (fst s)) L) /\
  forall p, settled_below log p (promised (snd s) p) (known (fst s)).

(** Everything before the session's positions is handled. *)
Definition at_front (s : ExampleWorld W * K) : Prop :=
  forall p, settled_below log p (position (snd s) p) (known (fst s)).

(** The session has handled everything it received, and commits offsets itself. *)
Definition caught_up (s : ExampleWorld W * K) : Prop :=
  auto_commit (snd s) = false /\ at_front s.

Lemma at_front_calm w w' k k' :
  at_front (w, k) -> known w' = known w -> (forall p, position k' p = position k p) ->
  at_front (w', k').
Proof. unfold at_front. simpl. intros Hf -> Hp p. rewrite Hp. apply Hf. Qed.

Lemma state_ok_kafka d0 w k k' :
  state_ok d0 (w, k) -> (forall p, promised k' p = promised k p) -> state_ok d0 (w, k').
Proof.
  intros (Hok & HL & Hp) Heq. split; [done|]. split; [done|]. intros p. simpl. rewrite Heq.
  apply Hp.
Qed.

Lemma state_ok_calm d0 w w' k :
  state_ok d0 (w, k) -> task_ok w' -> known w' = known w -> state_ok d0 (w', k).
Proof. unfold state_ok. simpl. intros (_ & HL & Hp) Hok ->. done. Qed.

(** A message was received, with everything before it handled. *)
Definition received m w k' : Prop :=
  log (msg_partition m) (msg_offset m) = Some m /\
  (forall p, p <> msg_partition m -> settled_below log p (position k' p) (known w)) /\
  settled_below log (msg_partition m) (msg_offset m) (known w) /\
  position k' (msg_partition m) = S (msg_offset m) /\ auto_commit k' = false.

Lemma recv_received d0 w k m k' :
  state_ok d0 (w, k) -> caught_up (w, k) -> kev _ Recv k = (Ok m, k') ->
  state_ok d0 (w, k') /\ received m w k'.
Proof.
  intros Hs [Hman Hc] He. pose proof Hs as (_ & _ & Hp). simpl in Hman.
  destruct (kafka_recv k (Ok m) k' Hman He) as (Hman' & Hpr & Hlog & Hfrom & Hpos & Hoth).
  split; [by eapply state_ok_kafka|]. simpl in *.
  split; [done|]. split; [|split; [|done]].
  - intros p Hne o m' Ho. destruct (Hoth p Hne) as [Heq|Hle].
    + rewrite Heq in Ho. by apply (Hc p).
    + apply (Hp p). lia.
  - destruct Hfrom as (from & Hfrom & Hgap). intros o m' Ho Hm'.
    destruct (decide (o < from)) as [Hlt|Hge].
    + destruct Hfrom as [-> |Hle];
        [by apply (Hc (msg_partition m) o)|by apply (Hp (msg_partition m) o); [lia|]].
    + rewrite Hgap in Hm' by lia. done.
Qed.

Lemma received_apply m w w' k' id :
  received m w k' -> message_id m = Some id ->
  known w' = known w \/ known w' = apply_message id m (known w) ->
  received m w' k'.
Proof.
  intros (H1 & H2 & H3 & H4) Hid [Hc|Hc]; unfold received; rewrite Hc; [done|].
  split; [done|]. split; [|split]; auto using settled_below_apply.
Qed.

Lemma message_id_ok m id :
  log (msg_partition m) (msg_offset m) = Some m -> message_id m = Some id -> message_ok id.
Proof.
  intros Hlog Hid. split; [|by eapply log_storable]. revert Hid. unfold message_id.
  destruct (key_view m) as [[s|]|]; [|done|done].
  destruct (Message_Id.try_from s) as [id'|] eqn:Ht; [|done]. intros [= ->].
  by apply try_from_as_str in Ht as [<- ?].
Qed.

(** Either [Q], or a purged message was claimed. *)
Definition or_late {R : Type} (Q : outcome R -> ExampleWorld W * K -> Prop)
    (o : outcome R) (s' : ExampleWorld W * K) : Prop :=
  ew_late (fst s') = true \/ Q o s'.

Lemma wp_late {R : Type} (p : prog exampleE R) s :
  ew_late (fst s) = true -> wp eev p (fun _ s' => ew_late (fst s') = true) s.
Proof.
  apply (wp_invariant eev (fun s => ew_late (fst s) = true)).
  intros A e [w k] a s' Hl. destruct e as [e|e]; simpl.
  - destruct (beside_ev ev A e w) as [a1 w1] eqn:He. intros [= <- <-].
    by apply (late_step ev e w a1 w1).
  - destruct (kev A e k) as [a1 k1]. by intros [= <- <-].
Qed.

Lemma wp_or_late_bind_try {A B Err : Type} (p : prog exampleE (result A Err))
    (f : A -> prog exampleE (result B Err)) Q s :
  wp eev p (or_late (fun o s' => match o with
    | Done (Ok a) => wp eev (f a) (or_late Q) s'
    | Done (Error e) => Q (Done (Error e)) s'
    | Panicked x => Q (Panicked x) s'
    | Cancelled => Q Cancelled s'
    end)) s ->
  wp eev (bind_try p f) (or_late Q) s.
Proof.
  intros H. apply wp_bind_try. eapply wp_mono; [exact H|].
  intros [[a|e]|x|] s' [Hl|HQ]; simpl; try (by left); try (by right); [|done].
  eapply wp_mono; [by apply wp_late|]. by left.
Qed.

Section Turns.
(** [serving k]: from here on Kafka answers every call, with one more message or
    with the request accepted. *)
Variable serving : K -> Prop.
Hypothesis serving_create : forall k c r k', serving k -> kev _ (Create c) k = (r, k') ->
  is_ok r = true /\ serving k'.
Hypothesis serving_subscribe : forall k l r k', serving k -> kev _ (Subscribe l) k = (r, k') ->
  is_ok r = true /\ serving k'.
Hypothesis serving_recv : forall k r k', serving k -> kev _ Recv k = (r, k') ->
  is_ok r = true /\ serving k'.
Hypothesis serving_commit : forall k m r k', serving k -> kev _ (CommitMessage m) k = (r, k') ->
  is_ok r = true /\ serving k'.

Definition all_up (s : ExampleWorld W * K) : Prop := up (fst s) /\ serving (snd s).

(** Nothing failed, and everything still works. *)
Definition keeps_going {R : Type} (o : outcome (result R ExampleError))
    (s' : ExampleWorld W * K) : Prop :=
  match o with
  | Done (Ok _) => all_up s'
  | Done (Error _) | Panicked _ => False
  | Cancelled => True
  end.

(** What a turn, or the whole loop, started in [s] leaves. *)
Definition turned d0 (s : ExampleWorld W * K) (o : outcome (result unit ExampleError))
    (s' : ExampleWorld W * K) : Prop :=
  state_ok d0 s' /\ (forall r, o = Done (Ok r) -> caught_up s') /\ (all_up s -> keeps_going o s').

Lemma turned_from d0 s s1 o s' :
  (all_up s -> all_up s1) -> turned d0 s1 o s' -> turned d0 s o s'.
Proof. intros Hup (H1 & H2 & H3). split; [done|]. split; auto. Qed.

Lemma commit_message_wp d0 m w k :
  state_ok d0 (w, k) -> received m w k -> settled m (known w) ->
  wp eev (commit_message m) (turned d0 (w, k)) (w, k).
Proof.
  intros (Hok & HL & Hp) (Hlog & Hoth & Hbelow & Hpos & Hman) Hm.
  assert (settled_below log (msg_partition m) (S (msg_offset m)) (known w)) as Hupto.
  { intros o m' Ho Hm'. destruct (decide (o = msg_offset m)) as [->|Hne].
    - by rewrite Hlog in Hm'; simplify_eq.
    - eapply Hbelow; [|done]. lia. }
  apply wp_bind, wp_trigger; simpl; [by split|].
  intros r s' He. destruct (kev _ (CommitMessage m) k) as [r' k'] eqn:Hk. simplify_eq/=.
  destruct (kafka_commit k m r k' Hman Hk) as (Hman' & Hpos' & Hpr).
  assert (state_ok d0 (w, k')) as Hs'.
  { split; [done|]. split; [done|]. intros p o m' Ho Hm'. simpl in *. specialize (Hpr p).
    case_decide as Heq; [|by apply (Hp p o); [lia|]]. subst p.
    destruct (decide (o < promised k (msg_partition m)));
      [by apply (Hp (msg_partition m) o)|by apply (Hupto o); [lia|]]. }
  split; [by split|]. apply wp_ret. split; [done|]. split.
  - intros u _. split; [done|]. intros p. simpl. rewrite Hpos'.
    destruct (decide (p = msg_partition m)) as [->|Hne]; [|by apply Hoth]. by rewrite Hpos.
  - intros [Hh Hsv]. destruct (serving_commit k m r k' Hsv Hk) as [Hr Hk']. by destruct r.
Qed.

(** The transaction of a received message: the ledger grows by it or stays, and
    when [process] returns it is settled. *)
Lemma process_message_wp d0 m id w k :
  state_ok d0 (w, k) -> received m w k -> message_id m = Some id ->
  wp eev (lift (@DbE) (Impl.process self id (order_handler (payload m))))
    (or_late (fun o s' => state_ok d0 s' /\ snd s' = k /\
       (forall r, o = Done (Ok r) -> received m (fst s') k /\ settled m (known (fst s'))) /\
       (up w -> match o with
                | Done r => is_ok r = true /\ up (fst s')
                | Panicked _ => False
                | Cancelled => True
                end))) (w, k).
Proof.
  intros Hs Hr Hid. pose proof Hs as (Hok & [L HL] & Hp).
  assert (message_ok id) as Hmok by (eapply message_id_ok; [apply Hr|done]).
  apply (wp_lift (beside_ev ev)); [by intros|].
  eapply wp_mono; [by apply (process_beside ev make_interval interval_week)|].
  intros o w' [Hl|(Hok' & He & Hup)]; [by left|right].
  pose proof (process_ends_applies _ _ _ _ _ _ _ He) as [Hc Hd]. simpl.
  assert (received m w' k) as Hr'.
  { eapply received_apply; [exact Hr|done|]. destruct Hc as [?|[_ ?]]; [by left|by right]. }
  split; [|split; [done|split]].
  - destruct Hc as [Hc|[Hk Hc]]; [by eapply state_ok_calm|].
    split; [done|]. simpl. rewrite Hc. split; [|intros p; by apply settled_below_apply].
    exists (L ++ [m]). apply ledger_apply; try done. apply Hr.
  - intros r Ho. split; [done|]. unfold settled. rewrite Hid. by eapply Hd.
  - intros Hu. destruct He as [v d' Hk Hret|Hk|e Hk [Hf _]|e Hf|e v d' Hf|x Hk Hpn| |]; auto.
Qed.

Lemma receive_wp d0 s :
  state_ok d0 s -> caught_up s -> wp eev (receive self) (or_late (turned d0 s)) s.
Proof.
  destruct s as [w k]. intros Hs Hc. apply wp_bind_try, wp_bind, wp_trigger; simpl;
    [right; by split|].
  intros r s' He. destruct (kev _ Recv k) as [r' k'] eqn:Hk. simplify_eq/=.
  assert (all_up (w, k) -> is_ok r = true /\ all_up (w, k')) as Hup.
  { intros [Hh Hsv]. by destruct (serving_recv k r k' Hsv Hk). }
  destruct r as [m|e].
  2: { assert (state_ok d0 (w, k')) as Hs'.
       { eapply state_ok_kafka; [exact Hs|]. by destruct (kafka_recv _ _ _ (proj1 Hc) Hk) as (_ & ? & _). }
       split; [right; by split|]. apply wp_ret. right. split; [done|]. split; [done|].
       by intros [? _]%Hup. }
  destruct (recv_received d0 w k m k' Hs Hc Hk) as [Hs' Hr].
  split; [right; by split|]. apply wp_ret; simpl.
  eapply wp_mono with (Q := or_late (turned d0 (w, k')));
    [|intros o s1 [?|Ht]; [by left|right; eapply turned_from; [|exact Ht]; by intros [_ ?]%Hup]].
  destruct (message_id m) as [id|] eqn:Hid.
  - apply wp_or_late_bind_try, wp_bind. eapply wp_mono; [by apply process_message_wp|].
    intros o [w1 k1] [Hl|(Hs1 & Hk1 & Hd & Hu)].
    { destruct o; simpl; [apply wp_ret|..]; by left. }
    simpl in Hk1, Hu. subst k1.
    destruct o as [[out|e]|x|]; simpl; [apply wp_ret; right|apply wp_ret; right|right|right];
      simpl; [|split; [done|]; split; [done|]; intros [Hh _]; by destruct (Hu Hh)..].
    destruct (Hd out eq_refl) as [Hr1 Hm1]. simpl in *.
    assert (wp eev (commit_message m) (or_late (turned d0 (w, k'))) (w1, k')) as Hcommit.
    { eapply wp_mono; [by apply (commit_message_wp d0)|]. intros o s1 Ht. right.
      eapply turned_from; [|exact Ht]. intros [Hh Hsv]. by split; [apply Hu|]. }
    by destruct out.
  - eapply wp_mono; [apply (commit_message_wp d0); [done|done|]|by right].
    unfold settled. by rewrite Hid.
Qed.

Lemma receive_loop_wp d0 turns s :
  state_ok d0 s -> caught_up s ->
  wp eev (receive_loop turns self) (or_late (turned d0 s)) s.
Proof.
  revert s; induction turns as [|turns IH]; intros s Hs Hc; simpl.
  { apply wp_ret. right. split; [done|]. by split. }
  apply wp_or_late_bind_try. eapply wp_mono; [by apply (receive_wp d0)|].
  intros o s1 [Hl|(Hs1 & Hc1 & Hu1)]; [by left|right].
  destruct o as [[[]|e]|x|]; [|by split..].
  eapply wp_mono; [apply IH; [done|by apply (Hc1 tt)]|].
  intros o s2 [Hl|Ht]; [by left|right]. by eapply turned_from.
Qed.

(** ** [main] *)

Lemma migrate_wp w k :
  task_ok w ->
  wp eev (lift (@DbE) (Postgres.migrate inbox)) (fun o s' =>
    calm w (fst s') /\ snd s' = k /\
    match o with
    | Done (Ok _) | Cancelled => True
    | Done (Error _) => ~ up w
    | Panicked _ => False
    end) (w, k).
Proof.
  intros Hok. apply (wp_lift (beside_ev ev)); [by intros|].
  apply wp_bind, wp_trigger; simpl; [by split; [apply calm_refl|]|].
  intros r w' He.
  destruct (beside_split ev make_interval interval_week _ w r w' Hok He)
    as (w1 & (_ & _ & Hl1 & Hu1) & _ & Hev & _ & Hl & Hok' & Hst).
  destruct (pg_migrate (ev := ev) _ _ _ Hev) as [[Hk Hu]%Hst Hr].
  assert (calm w w') as Hc.
  { split; [done|]. split; [done|]. split; [|done]. simpl in Hl.
    by rewrite Hl, orb_false_r. }
  split; [by split|]. apply wp_ret. split; [done|]. split; [done|].
  destruct r as [[]|e]; simpl in Hr |- *; [done|tauto].
Qed.

(** What holds of [main] until it receives, on the way from [s]. *)
Definition on_the_way d0 (s s' : ExampleWorld W * K) : Prop :=
  state_ok d0 s' /\ at_front s' /\ (all_up s -> all_up s').

(** A call of the Kafka client that only sets it up. *)
Lemma kafka_try_wp {A : Type} (e : kafkaE (result A KafkaError)) d0 s w k
    (Q : K -> Prop) :
  on_the_way d0 s (w, k) ->
  (forall r k', kev _ e k = (r, k') ->
     (forall p, position k' p = position k p /\ promised k' p = promised k p) /\
     (is_ok r = true -> Q k') /\ (serving k -> is_ok r = true /\ serving k')) ->
  wp mev (kafka_try e) (fun o s' => state_ok d0 s' /\
    match o with
    | Done (Ok _) => on_the_way d0 s s' /\ fst s' = w /\ Q (snd s')
    | Done (Error _) => ~ all_up s
    | Panicked _ => False
    | Cancelled => True
    end) (w, k).
Proof.
  intros (Hs & Hf & Hu) He. apply wp_bind, wp_trigger; simpl; [done|].
  intros r s' Hev. destruct (kev _ e k) as [r' k'] eqn:Hk. simplify_eq/=.
  destruct (He r k' eq_refl) as (Hsame & HQ & Hsv).
  assert (state_ok d0 (w, k')) as Hs' by (eapply state_ok_kafka; [done|apply Hsame]).
  split; [done|]. apply wp_ret. split; [done|]. destruct r as [a|e']; simpl.
  - split; [|auto]. split; [done|]. split; [eapply at_front_calm; [done|done|apply Hsame]|].
    intros [Hh Hsv']%Hu. by split; [|apply Hsv].
  - by intros [_ [? _]%Hsv]%Hu.
Qed.

(** [main] from the spawned task on. *)
Lemma spawn_and_loop_wp d0 turns ticks fuel s w k :
  on_the_way d0 s (w, k) -> auto_commit k = false ->
  wp mev (_ <- trigger (Spawn (purge_task ticks fuel inbox)) ;;
          lift (@LoopE) (receive_loop turns self)) (or_late (turned d0 s)) (w, k).
Proof.
  intros (Hs & Hf & Hu) Hman. apply wp_bind, wp_trigger; simpl; [right; by split|].
  intros [] s' [= <-]. set (w1 := spawn _ w).
  assert (task_ok w1) as Hok1 by (split; [apply purge_task_purges_only|apply Hs]).
  assert (state_ok d0 (w1, k)) as Hs1 by (by eapply state_ok_calm).
  assert (caught_up (w1, k)) as Hc1 by (split; [done|by eapply at_front_calm]).
  split; [right; by split|]. apply (wp_rename eev); [done|].
  eapply wp_mono; [by apply (receive_loop_wp d0)|].
  intros o s2 [Hl|Ht]; [by left|right]. by eapply turned_from; [|exact Ht].
Qed.

Lemma main_wp d0 turns ticks fuel s :
  state_ok d0 s -> at_front s ->
  wp mev (main turns ticks fuel inbox) (or_late (turned d0 s)) s.
Proof.
  destruct s as [w k]. intros Hs Hf. unfold main. rewrite (proj1 orders_id_ok).
  apply wp_bind_try, wp_bind, (wp_rename eev); [done|].
  eapply wp_mono; [by apply migrate_wp, Hs|].
  intros o [w1 k1] ((Hok & Hk & _ & Hu) & Hk1 & Ho). simpl in Hk1, Hok, Hk, Hu. subst k1.
  assert (state_ok d0 (w1, k)) as Hs1 by (by eapply state_ok_calm).
  destruct o as [[[]|e]|x|]; simpl; [|apply wp_ret; right|right|right];
    [|split; [done|]; split; [done|]; intros [? _]; done..].
  apply wp_ret. apply wp_bind_try, wp_ret. cbn [map_err].
  assert (on_the_way d0 (w, k) (w1, k)) as Hway.
  { split; [done|]. split; [by eapply at_front_calm|]. intros [Hh Hsv]. by split; [apply Hu|]. }
  apply wp_bind_try. eapply wp_mono; [apply (kafka_try_wp _ d0 (w, k) w1 k
    (fun k' => auto_commit k' = false) Hway)|].
  { intros r k2 He. destruct (kafka_create client_config k r k2 He) as [Hsame Hman].
    split; [done|]. split; [intros Hr; by apply Hman|]. intros Hsv. by eapply serving_create. }
  intros o [w2 k2] [Hs2 Ho2]. destruct o as [[[]|e]|x|]; simpl; [|right; by split..].
  destruct Ho2 as (Hway2 & Hw2 & Hman2). simpl in Hw2, Hman2. subst w2.
  apply wp_bind_try. eapply wp_mono; [apply (kafka_try_wp _ d0 (w, k) w1 k2
    (fun k' => auto_commit k' = false) Hway2)|].
  { intros r k3 He. destruct (kafka_subscribe topics k2 r k3 He) as [Hsame Hman].
    split; [done|]. split; [by rewrite Hman|]. intros Hsv. by eapply serving_subscribe. }
  intros o [w3 k3] [Hs3 Ho3]. destruct o as [[[]|e]|x|]; simpl; [|right; by split..].
  destruct Ho3 as (Hway3 & _ & Hman3). by apply spawn_and_loop_wp.
Qed.

(** C22 (the example makes progress). With a healthy PostgreSQL and a Kafka that
    serves messages whose keys PostgreSQL can store (no U+0000), and as long as
    no message is claimed after the purge task removed its row, the loop never
    ends by itself, however the purge task runs beside it: after any number of
    turns it is still running, the database is still healthy, and every message
    it received, in every partition, has no usable key, is recorded in the
    inbox, or was recorded and then purged, more than a week old. *)
Theorem receive_loop_progress (turns ticks fuel : nat) (schedule : list nat) (w : W) (k : K)
    o (s' : ExampleWorld W) (k' : K) :
  (forall p, position k p = 0) -> (forall p, promised k p = 0) ->
  tbl_healthy w -> serving k ->
  exec mev (main turns ticks fuel inbox) (unspawned w schedule ∅, k) = (o, (s', k')) ->
  ew_late s' = false ->
  o = Done (Ok tt) /\ tbl_healthy (ew_db s') /\
  (forall p o m id, o < position k' p -> log p o = Some m -> message_id m = Some id ->
     key billing_id id ∈ recorded (committed (ew_db s')) \/
     key billing_id id ∈ dom (ew_purged s')) /\
  (forall x row, ew_purged s' !! x = Some row ->
     processed_at row + week < tbl_now (ew_db s'))%Z.
Proof.
  intros Hpos Hpro Hh Hk Hx Hlate. set (s := unspawned w schedule ∅ : ExampleWorld W) in *.
  assert (forall p (f : K -> nat -> nat), f k p = 0 ->
    settled_below log p (f k p) (known s)) as H0 by (intros p f -> x m Ho; lia).
  assert (state_ok (known s) (s, k)) as Hs.
  { split; [by split|]. split; [exists []; apply ledger_nil|]. intros p. by apply (H0 p promised). }
  destruct (wp_exec mev _ _ _ _ _ (main_wp (known s) turns ticks fuel (s, k) Hs
    (fun p => H0 p position (Hpos p))) Hx) as [[Hl|([[_ Hold] _] & Hc & Hgo)] Hnc];
    [simpl in Hl; congruence|].
  specialize (Hgo (conj Hh Hk)). destruct o as [[[]|e]|x|]; try done.
  split; [done|]. split; [apply Hgo|]. split; [|done].
  intros p o m id Ho Hm Hid. destruct (Hc tt eq_refl) as [_ Hfront]. specialize (Hfront p o m Ho Hm).
  unfold settled in Hfront. rewrite Hid in Hfront. simpl in Hfront. by apply elem_of_union in Hfront.
Qed.
End Turns.

(** ** Sequences of sessions *)

(** A session, on the database, the rows purged so far and Kafka: the group's
    position is read, and the program runs until an error, a panic or a crash
    ends it; the purge task may still run [n] statements while [main] is at its
    last call.  No message was claimed after its row was purged. *)
Inductive session : W * Rows * K -> W * Rows * K -> Prop :=
| session_run (w : W) purged k k0 schedule turns ticks fuel (b : budget) o b' s' k' n :
    restarts k k0 ->
    run mev b (main turns ticks fuel inbox) (unspawned w schedule purged, k0)
      = (o, b', (s', k')) ->
    ew_late s' = false ->
    session (w, purged, k) (ew_db (task_steps ev n s'), ew_purged (task_steps ev n s'), k').

(** What holds between sessions. *)
Definition between d0 (x : W * Rows * K) : Prop :=
  state_ok d0 (unspawned (fst (fst x)) [] (snd (fst x)), snd x).

Lemma session_between d0 x x' : session x x' -> between d0 x -> between d0 x'.
Proof.
  intros [w purged k k0 schedule turns ticks fuel b o b' s' k' n Hre Hrun Hlate] Hb.
  unfold between in Hb. simpl in Hb. destruct Hb as (Hok & HL & Hp). simpl in HL, Hp.
  set (s := unspawned w schedule purged : ExampleWorld W) in *.
  assert (state_ok d0 (s, k0)) as Hs.
  { split; [exact Hok|]. split; [exact HL|]. intros p y m Ho. apply (Hp p).
    simpl in Ho. destruct (Hre p). lia. }
  assert (at_front (s, k0)) as Hc.
  { intros p y m Ho. apply (Hp p). simpl in Ho. destruct (Hre p). lia. }
  pose proof (main_wp (fun _ => False) ltac:(done) ltac:(done) ltac:(done) ltac:(done) d0 turns ticks fuel (s, k0) Hs Hc b)
    as Hwp.
  rewrite Hrun in Hwp. destruct Hwp as [Hl|[Hs' _]]; [simpl in Hl; congruence|].
  destruct (task_steps_calm ev make_interval interval_week n s') as [(Hok2 & Hk2 & _) _];
    [apply Hs'|].
  eapply state_ok_calm; [exact Hs'| |exact Hk2]. split; [done|apply Hok2].
Qed.

(** C21 (the example applies every message once). Start with any database and a
    group whose committed positions are zero, and run any number of sessions,
    each ended by an error, a database fault or a crash at any call, with the
    purge task running beside the loop in any way; assume that PostgreSQL can
    store the topic's keys (no U+0000), and that no message is claimed after the
    purge task removed its row.  Then the orders table grew by the payloads of a
    list of messages of the topic with pairwise different identifiers that were
    new to the inbox; the identifiers the inbox knows or knew and purged are
    exactly these besides what it knew; every message below a position that
    Kafka may have committed is among them, was known before, or has no usable
    key; and every purged row was more than a week old. *)
Theorem sessions_exactly_once (w w' : W) (k k' : K) (purged : Rows) :
  (forall p, promised k p = 0) -> rtc session (w, ∅, k) (w', purged, k') ->
  exists L : list KafkaMessage,
    app (committed w') = app (committed w) ++ (payload <$> L) /\
    NoDup (message_id <$> L) /\
    (forall m, m ∈ L -> log (msg_partition m) (msg_offset m) = Some m /\
       exists id, message_id m = Some id /\ key billing_id id ∉ recorded (committed w)) /\
    (forall id, key billing_id id ∈ recorded (committed w') \/ key billing_id id ∈ dom purged <->
       key billing_id id ∈ recorded (committed w) \/ Some id ∈ message_id <$> L) /\
    (forall p o m id, o < promised k' p -> log p o = Some m -> message_id m = Some id ->
       key billing_id id ∈ recorded (committed w) \/ Some id ∈ message_id <$> L) /\
    (forall x row, purged !! x = Some row -> processed_at row + week < tbl_now w')%Z.
Proof.
  intros Hk Hrtc. set (d0 := committed w).
  assert (between d0 (w, ∅, k)) as Hs.
  { assert (known (unspawned w [] ∅ : ExampleWorld W) = d0) as Hd0
      by (apply db_eq; simpl; [set_solver|done]).
    unfold between. simpl. split; [by split|]. simpl. rewrite Hd0.
    split; [exists []; apply ledger_nil|]. intros p o m Ho. rewrite Hk in Ho. lia. }
  assert (between d0 (w', purged, k')) as ([_ Hold] & [L [Ha Hr Ho Hl]] & Hp).
  { revert Hs. induction Hrtc; [done|]. eauto using session_between. }
  assert (forall id, key billing_id id ∈ recorded (committed w') \/ key billing_id id ∈ dom purged <->
    key billing_id id ∈ recorded d0 \/ Some id ∈ message_id <$> L) as Hr'.
  { intros id. rewrite <- Hr. simpl. by rewrite elem_of_union. }
  exists L. split; [done|]. split; [done|]. split; [done|]. split; [done|]. split; [|done].
  intros p o m id Hlt Hm Hid. apply Hr. specialize (Hp p o m Hlt Hm).
  unfold settled in Hp. by rewrite Hid in Hp.
Qed.
End Sessions.
