(* ===== verification/SqlModel.v ===== *)
(** * A database in memory

    One executable engine with a single connection that runs the statements of
    the three backends and of the Kafka example, whose orders table is its one
    application table.  It models no code of the crate: it shows that the
    assumptions made of PostgreSQL, SQLite and MySQL can hold together, and it
    is the concrete database on which the theorems about the backends are
    evaluated. *)

From S2P Require Import Prelude Text Errors Durations Types Store Sqlx Sql.
From S2P Require Import Postgres Aborted Sqlite MySql Kafka.
From Stdlib Require Import SpecFloat.
#[local] Open Scope Z_scope.

(** ** Statements *)

Inductive Kind : Type :=
| KSet | KRestore | KInsert | KInsertReturning | KInsertStamped | KReadStamped
| KDelete | KExists | KPurge | KOrder
| KSavepoint | KReleaseAndSavepoint | KRelease | KRollbackTo.

Definition statements : list (string * Kind) :=
  [ (Postgres.SET_LOCK_TIMEOUT_SQL, KSet); (MySql.SET_LOCK_TIMEOUT_SQL, KSet);
    (MySql.RESTORE_LOCK_TIMEOUT_SQL, KRestore);
    (Postgres.CLAIM_SQL, KInsert); (Sqlite.CLAIM_SQL, KInsert); (MySql.CLAIM_SQL, KInsert);
    (Postgres.CLAIM_MANY_SQL, KInsertReturning); (Sqlite.CLAIM_MANY_SQL, KInsertReturning);
    (MySql.CLAIM_MANY_SQL, KInsertStamped); (MySql.CLAIMED_BY_TOKEN_SQL, KReadStamped);
    (Postgres.UNCLAIM_SQL, KDelete); (Sqlite.UNCLAIM_SQL, KDelete);
    (Postgres.KNOWN_DUPLICATE_SQL, KExists); (Sqlite.KNOWN_DUPLICATE_SQL, KExists);
    (Postgres.PURGE_SQL, KPurge); (Sqlite.PURGE_SQL, KPurge); (MySql.PURGE_SQL, KPurge);
    (INSERT_ORDER_SQL, KOrder);
    (SAVEPOINT_SQL, KSavepoint); (RELEASE_AND_SAVEPOINT_SQL, KReleaseAndSavepoint);
    (RELEASE_SQL, KRelease); (ROLLBACK_TO_SQL, KRollbackTo) ].

Definition classify (sql : string) : option Kind :=
  '(_, (_, k)) ← list_find (fun x => fst x = sql) statements; Some k.

(** ** The world *)

(** [mw_aborted] says that the open transaction is aborted, and [mw_session] is
    then [None]; [mw_held] are the rows other consumers hold. *)
Record ModelWorld := {
  mw_committed : Tables (list (list Z));
  mw_session : option (Tables (list (list Z)) * option (Tables (list (list Z))));
  mw_aborted : bool;
  mw_now : Z;
  mw_lock_wait : Z;
  mw_lock_saved : option Z;
  mw_held : gset (str * str);
}.

Definition set_session s (w : ModelWorld) : ModelWorld :=
  {| mw_committed := mw_committed w; mw_session := s; mw_aborted := false; mw_now := mw_now w;
     mw_lock_wait := mw_lock_wait w; mw_lock_saved := mw_lock_saved w;
     mw_held := mw_held w |}.

Definition set_committed t (w : ModelWorld) : ModelWorld :=
  {| mw_committed := t; mw_session := mw_session w; mw_aborted := mw_aborted w; mw_now := mw_now w;
     mw_lock_wait := mw_lock_wait w; mw_lock_saved := mw_lock_saved w;
     mw_held := mw_held w |}.

Definition set_locks wait sv (w : ModelWorld) : ModelWorld :=
  {| mw_committed := mw_committed w; mw_session := mw_session w; mw_aborted := mw_aborted w;
     mw_now := mw_now w; mw_lock_wait := wait; mw_lock_saved := sv; mw_held := mw_held w |}.

Definition refused : SqlxError := OtherSqlx 0.

(** A statement failed: if in the open transaction, that is aborted. *)
Definition abort (target : Target) (w : ModelWorld) : ModelWorld :=
  match target, mw_session w with
  | OnConn _, Some _ =>
      {| mw_committed := mw_committed w; mw_session := None; mw_aborted := true;
         mw_now := mw_now w; mw_lock_wait := mw_lock_wait w;
         mw_lock_saved := mw_lock_saved w; mw_held := mw_held w |}
  | _, _ => w
  end.
Arguments abort : simpl never.

(** The wait for a row timed out: PostgreSQL's code and MySQL's number. *)
Definition timed_out : SqlxError :=
  Database {| db_code := Some (lit "55P03"); mysql_number := Some 1205 |}.

(** Runs [p] unless another consumer holds one of the rows [ks]. *)
Definition unless_held {A : Type} (ks : list (str * str)) (w : ModelWorld)
    (p : result A SqlxError * ModelWorld) : result A SqlxError * ModelWorld :=
  if decide (Forall (fun k => k ∉ mw_held w) ks) then p else (Error timed_out, w).

(** Runs [f] on the rows the open transaction sees. *)
Definition on_rows {A : Type} (w : ModelWorld) (f : Rows -> A * Rows)
  : result A SqlxError * ModelWorld :=
  match mw_session w with
  | Some (t, sp) =>
      let '(a, m) := f (rows t) in (Ok a, set_session (Some (with_rows m t, sp)) w)
  | None => (Error refused, w)
  end.

(** The length of [make_interval(secs => x)] in nanoseconds, rounded to whole
    microseconds. *)
Definition model_interval (x : spec_float) : Z :=
  match x with
  | S754_finite false m e =>
      if 0 <=? e then Z.pos m * 2 ^ e * 1000000000
      else (Z.pos m * 1000000 * 2 + 2 ^ (- e)) / 2 ^ (1 - e) * 1000
  | _ => 0
  end.

Definition cutoff_of (now : Z) (v : Value) : Z :=
  match v with
  | VDouble x => now - model_interval x
  | VInt us => now - us * 1000
  | VTime t => t
  | _ => 0
  end.

(** Up to [n] of the expired rows. *)
Definition some_expired (n : nat) (cutoff : Z) (m : Rows) : Rows :=
  list_to_map (take n (map_to_list (expired cutoff m))).

(** What a transaction sees once the rows [gone] are deleted beside it. *)
Definition without (gone : Rows) (t : Tables (list (list Z))) : Tables (list (list Z)) :=
  with_rows (rows t ∖ gone) t.

Definition tokens (m : Rows) : gset Z :=
  list_to_set (omap (fun kr => claim_token (snd kr)) (map_to_list m)).

Definition stamped (token : Z) (m : Rows) (k : str * str) : bool :=
  match m !! k with
  | Some r => bool_decide (claim_token r = Some token)
  | None => false
  end.

Definition run_execute (target : Target) (sql : string) (args : list Value) (w : ModelWorld)
  : result Z SqlxError * ModelWorld :=
  match classify sql, args with
  | Some KSet, [VInt n] => (Ok 0, set_locks n (Some (mw_lock_wait w)) w)
  | Some KSet, _ => (Ok 0, w)
  | Some KInsert, VText c :: VText i :: _ =>
      if decide (storable i) then
        unless_held [(c, i)] w (on_rows w (fun m =>
          (if decide ((c, i) ∈ dom m) then 0 else 1,
           insert_new (c, i) {| processed_at := mw_now w; claim_token := None |} m)))
      else (Error refused, abort target w)
  | Some KOrder, [VBytes b] =>
      match mw_session w with
      | Some (t, sp) => (Ok 1, set_session (Some (mkTables (rows t) (tapp t ++ [b]), sp)) w)
      | None => (Error refused, w)
      end
  | Some KInsertStamped, [VText c; VInt token; VJson ids] =>
      unless_held (pair c <$> ids) w (on_rows w (fun m =>
        (0, insert_all_new c ids {| processed_at := mw_now w; claim_token := Some token |} m)))
  | Some KDelete, [VText c; VText i] => on_rows w (fun m => (0, delete (c, i) m))
  | Some KPurge, [v; VInt n] =>
      let t := mw_committed w in
      let dead := some_expired (Z.to_nat n) (cutoff_of (mw_now w) v) (rows t) in
      let kept := rows t ∖ dead in
      (Ok (Z.of_nat (size dead)),
       set_committed (with_rows kept t)
         (set_session (prod_map (without (rows t ∖ kept)) (option_map (without (rows t ∖ kept)))
                       <$> mw_session w) w))
  | _, _ => (Error refused, abort target w)
  end.

Definition run_fetch_all (sql : string) (args : list Value) (w : ModelWorld)
  : result (list str) SqlxError * ModelWorld :=
  let returning c ids :=
    unless_held (pair c <$> ids) w (on_rows w (fun m =>
      (filter (fun x => (c, x) ∉ dom m) ids,
       insert_all_new c ids {| processed_at := mw_now w; claim_token := None |} m))) in
  match classify sql, args with
  | Some KInsertReturning, [VText c; VTextArray ids] => returning c ids
  | Some KInsertReturning, [VText c; VTime _; VJson ids] => returning c ids
  | Some KReadStamped, [VJson ids; VText c; VInt token] =>
      on_rows w (fun m => (filter (fun x => stamped token m (c, x) = true) ids, m))
  | _, _ => (Error refused, w)
  end.

Definition run_fetch_bool (sql : string) (args : list Value) (w : ModelWorld)
  : result bool SqlxError * ModelWorld :=
  match classify sql, args with
  | Some KExists, [VText c; VText i] =>
      (Ok (bool_decide ((c, i) ∈ dom (rows (mw_committed w)))), w)
  | _, _ => (Error refused, w)
  end.

Definition run_raw (sql : string) (w : ModelWorld) : result unit SqlxError * ModelWorld :=
  match classify sql, mw_session w with
  | Some KRestore, _ =>
      match mw_lock_saved w with
      | Some v => (Ok tt, set_locks v None w)
      | None => (Error refused, w)
      end
  | Some KSavepoint, Some (t, _) => (Ok tt, set_session (Some (t, Some t)) w)
  | Some KReleaseAndSavepoint, Some (t, Some _) => (Ok tt, set_session (Some (t, Some t)) w)
  | Some KRelease, Some (t, Some _) => (Ok tt, set_session (Some (t, None)) w)
  | Some KRollbackTo, Some (_, Some sp) => (Ok tt, set_session (Some (sp, Some sp)) w)
  | _, _ => (Error refused, w)
  end.

Definition run_begin (w : ModelWorld) : result nat SqlxError * ModelWorld :=
  (Ok 0%nat, set_session (Some (mw_committed w, None)) w).

Definition model_ev (A : Type) (e : sqlxE A) (w : ModelWorld) : A * ModelWorld :=
  match e in sqlxE T return T * ModelWorld with
  | PoolBegin => run_begin w
  | PoolBeginWith _ =>
      run_begin (set_locks (default (mw_lock_wait w) (mw_lock_saved w)) None w)
  | TxCommit _ =>
      match mw_session w with
      | Some (t, _) => (Ok tt, set_session None (set_committed t w))
      | None => if mw_aborted w then (Ok tt, set_session None w) else (Error refused, w)
      end
  | TxRollback _ => (Ok tt, set_session None w)
  | TxDrop _ => (tt, set_session None w)
  | Execute target sql args => run_execute target sql args w
  | FetchAllStrings _ sql args => run_fetch_all sql args w
  | FetchOneBool _ sql args => run_fetch_bool sql args w
  | RawSql _ sql => run_raw sql w
  | UtcNow => (mw_now w, w)
  | RandomU64 => (Ok (fresh (default ∅ (tokens ∘ rows ∘ fst <$> mw_session w))), w)
  | MigratorRun _ => (Ok tt, w)
  end.

#[export] Instance model_observe : SqlObserve ModelWorld (list (list Z)) := {|
  tbl_committed := mw_committed;
  tbl_working w _ := fst <$> mw_session w;
  tbl_saved w _ := mw_session w ≫= snd;
  tbl_healthy w := mw_held w = ∅;
  tbl_now := mw_now;
|}.

#[export] Instance model_session : MySql.MySqlSession ModelWorld := {|
  MySql.lock_wait w _ := mw_lock_wait w;
  MySql.lock_saved w _ := mw_lock_saved w;
|}.

(** ** The assumptions hold *)

Lemma on_rows_spec {A : Type} (w w' : ModelWorld) (conn : nat) (f : Rows -> A * Rows) r t :
  tbl_working w conn = Some t -> on_rows w f = (r, w') ->
  still w w' /\ r = Ok (fst (f (rows t))) /\
  now_sees w conn (with_rows (snd (f (rows t))) t) w'.
Proof.
  unfold on_rows, now_sees. simpl. intros ([t' sp] & Hs & ->)%fmap_Some. rewrite Hs. simpl.
  destruct (f (rows t')) as [a m]. intros [= <- <-]. done.
Qed.

Lemma on_rows_locks {A : Type} (w w' : ModelWorld) (f : Rows -> A * Rows) r conn :
  on_rows w f = (r, w') -> same_session conn w w'.
Proof.
  unfold on_rows. destruct (mw_session w) as [[t sp]|]; [destruct (f (rows t))|];
    by intros [= <- <-].
Qed.

Lemma abort_still target w : still w (abort target w).
Proof. unfold abort. destruct target, (mw_session w); done. Qed.

Lemma abort_locks target w conn : same_session conn w (abort target w).
Proof. unfold abort. destruct target, (mw_session w); done. Qed.

(** A statement that waits for held rows does what it does otherwise, or fails on
    an engine that is not healthy. *)
Lemma unless_held_spec {A : Type} (ks : list (str * str)) (w w' : ModelWorld) p (r : result A SqlxError) :
  unless_held ks w p = (r, w') ->
  p = (r, w') \/ (r = Error timed_out /\ w' = w /\ ~ tbl_healthy w).
Proof.
  unfold unless_held. case_decide as Hh; [by left|]. intros [= <- <-]. right.
  split; [done|]. split; [done|]. intros Hempty. apply Hh. simpl in Hempty. rewrite Hempty.
  apply Forall_forall. set_solver.
Qed.

Lemma some_expired_spec (n : nat) (cutoff : Z) (m : Rows) :
  some_expired n cutoff m ⊆ expired cutoff m /\
  size (some_expired n cutoff m) = (n `min` size (expired cutoff m))%nat.
Proof.
  unfold some_expired. set (e := expired cutoff m).
  assert (NoDup (take n (map_to_list e)).*1) as Hnd.
  { rewrite fmap_take. eapply sublist_NoDup; [apply (NoDup_fst_map_to_list e)|].
    apply sublist_take. }
  split.
  - apply map_subseteq_spec. intros k row Hk.
    apply elem_of_list_to_map in Hk; [|done]. apply elem_of_map_to_list.
    apply elem_of_take in Hk as (i & Hi & _). by eapply list_elem_of_lookup_2.
  - rewrite map_size_list_to_map by done. by rewrite length_take, length_map_to_list.
Qed.

Lemma tokens_spec (m : Rows) (k : str * str) (row : Row) (token : Z) :
  m !! k = Some row -> claim_token row = Some token -> token ∈ tokens m.
Proof.
  intros Hk Ht. unfold tokens. apply elem_of_list_to_set, list_elem_of_omap.
  exists (k, row). by rewrite elem_of_map_to_list.
Qed.

(** The shared statements of a backend, by their kind. *)

Lemma execute_inserts_one sql conn c i rest :
  classify sql = Some KInsert -> storable i ->
  inserts_one model_ev conn (c, i) (Execute (OnConn conn) sql (VText c :: VText i :: rest)).
Proof.
  intros Hk Hi w t r w' Ht. simpl. unfold run_execute. rewrite Hk, decide_True by done.
  intros [H|(-> & -> & Hh)]%unless_held_spec; [|done].
  destruct (on_rows_spec _ _ conn _ _ _ Ht H) as (Hs & -> & Hsees). split; [done|].
  split; [done|]. by eexists.
Qed.

Lemma fetch_inserts_returning sql args conn c ids :
  classify sql = Some KInsertReturning ->
  args = [VText c; VTextArray ids] \/ (exists now, args = [VText c; VTime now; VJson ids]) ->
  inserts_returning model_ev conn c ids (FetchAllStrings (OnConn conn) sql args).
Proof.
  intros Hk Hargs w t r w' Ht. simpl. unfold run_fetch_all. rewrite Hk.
  destruct Hargs as [->|[now ->]]; (intros [H|(-> & -> & Hh)]%unless_held_spec; [|done]);
    destruct (on_rows_spec _ _ conn _ _ _ Ht H) as (Hs & -> & Hsees); (split; [done|]);
    (split; [intros x; simpl; rewrite list_elem_of_filter; tauto|by eexists]).
Qed.

Lemma execute_deletes_one sql conn c i :
  classify sql = Some KDelete ->
  deletes_one model_ev conn (c, i) (Execute (OnConn conn) sql [VText c; VText i]).
Proof.
  intros Hk w t r w' Ht. simpl. unfold run_execute. rewrite Hk. intros H.
  by destruct (on_rows_spec _ _ conn _ _ _ Ht H) as (Hs & -> & Hsees).
Qed.

Lemma fetch_tells_presence sql c i :
  classify sql = Some KExists ->
  tells_presence model_ev (c, i) (FetchOneBool OnPool sql [VText c; VText i]).
Proof.
  intros Hk w r w'. simpl. unfold run_fetch_bool. rewrite Hk. by intros [= <- <-].
Qed.

Lemma execute_deletes_expired sql v n (P : ModelWorld -> ModelWorld -> Z -> Prop) :
  classify sql = Some KPurge -> 0 <= n ->
  (forall w w', mw_now w' = mw_now w -> P w w' (cutoff_of (mw_now w) v)) ->
  deletes_expired model_ev P n (Execute OnPool sql [v; VInt n]).
Proof.
  intros Hk Hn HP w r w'. simpl. unfold run_execute. rewrite Hk. intros [= <- <-].
  split; [done|]. right.
  destruct (some_expired_spec (Z.to_nat n) (cutoff_of (mw_now w) v) (rows (mw_committed w)))
    as [Hsub Hsz].
  eexists _, _. split; [by apply HP|]. split; [exact Hsub|]. split; [lia|]. done.
Qed.

#[export] Instance model_tx : TxEngine model_ev.
Proof.
  constructor; simpl.
  - intros tx w t r w' ([t' sp] & Hs & ->)%fmap_Some. rewrite Hs. intros [= <- <-].
    by split; [right|].
  - by intros tx w r w' [= <- <-].
  - by intros tx w r w' [= <- <-].
  - intros w t w' [= <- <-]. split; [done|]. split; [lia|done].
  - intros A e w a w' H. enough (mw_now w' = mw_now w) by lia. revert H.
    destruct e; simpl; unfold run_begin, run_execute, run_fetch_all, run_fetch_bool, run_raw, unless_held, on_rows, abort;
      repeat case_match; by intros; simplify_eq.
Qed.

#[export] Instance model_savepoints : SavepointEngine model_ev.
Proof.
  constructor; simpl; unfold run_raw;
    [change (classify SAVEPOINT_SQL) with (Some KSavepoint)
    |change (classify RELEASE_AND_SAVEPOINT_SQL) with (Some KReleaseAndSavepoint)
    |change (classify RELEASE_SQL) with (Some KRelease)
    |change (classify ROLLBACK_TO_SQL) with (Some KRollbackTo)];
    intros conn w; destruct (mw_session w) as [[t [sp|]]|]; simpl;
    intros; simplify_eq/=; (split; [by split|by eauto]).
Qed.

#[export] Instance model_pg : PgEngine model_ev model_interval.
Proof.
  constructor; try apply _.
  - by intros w r w' [= <- <-].
  - by intros w r w' [= <- <-].
  - intros conn ms _ w r w'. by intros [= <- <-].
  - intros conn c i _ Hi. by apply execute_inserts_one.
  - intros conn c ids _ _. apply fetch_inserts_returning; [done|by left].
  - intros conn c i _ _. by apply execute_deletes_one.
  - intros c i _ _. by apply fetch_tells_presence.
  - intros age n _ Hn. apply execute_deletes_expired; [done|lia|]. simpl. lia.
Qed.

#[export] Instance model_orders : OrdersTable model_ev.
Proof.
  constructor. intros conn b w t r w' ([t' sp] & Hs & ->)%fmap_Some. simpl. unfold run_execute.
  change (classify INSERT_ORDER_SQL) with (Some KOrder). simpl. rewrite Hs.
  intros [= <- <-]. split; [done|]. split; [|done]. unfold now_sees. simpl. by rewrite Hs.
Qed.

#[export] Instance model_purge_beside : PurgeBeside model_ev.
Proof.
  constructor. intros args w r w' conn t. simpl. unfold run_execute.
  change (classify Postgres.PURGE_SQL) with (Some KPurge).
  intros Hev ([t' sp] & Hs & ->)%fmap_Some. destruct args as [|v [|[] [|]]]; simplify_eq/=;
    unfold abort; rewrite Hs; simpl; try done;
    by rewrite map_difference_diag, map_difference_empty; destruct t'.
Qed.

#[export] Instance model_abort_observe : AbortObserve ModelWorld :=
  fun w _ => mw_session w = None /\ mw_aborted w = true.

#[export] Instance model_aborts : PgAborts model_ev.
Proof.
  constructor.
  - intros conn sql args w t e w' Hup ([t' sp] & Hs & _)%fmap_Some. simpl.
    assert (abort (OnConn conn) w = w' -> still w w' /\ aborted w' conn) as Hab.
    { intros <-. split; [apply abort_still|]. unfold abort. rewrite Hs. done. }
    unfold run_execute, on_rows. rewrite Hs.
    repeat case_match; intros Hev; simplify_eq/=; auto;
      by apply unless_held_spec in Hev as [?|(_ & _ & ?)]; simplify_eq.
  - intros conn w r w' [Hs Ha]. simpl. rewrite Hs, Ha. by intros [= <- <-].
Qed.

#[export] Instance model_refuses_nul : PgRefusesNul model_ev.
Proof.
  constructor. intros conn c i w r w' Hi. simpl. unfold run_execute.
  change (classify Postgres.CLAIM_SQL) with (Some KInsert). simpl.
  rewrite decide_False by done. intros [= <- <-]. split; [done|apply abort_still].
Qed.

#[export] Instance model_chrono : Chrono := {|
  from_std d := Some (as_nanos d);
  sub_signed t d := if chrono_min <=? t - d then Some (t - d) else None;
|}.

#[export] Instance model_chrono_laws : ChronoLaws.
Proof.
  constructor; simpl; [done|]. intros t d _ H. by rewrite (proj2 (Z.leb_le _ _) H).
Qed.

#[export] Instance model_sqlite : SqliteEngine model_ev.
Proof.
  constructor; try apply _.
  - by intros w r w' [= <- <-].
  - by intros w r w' [= <- <-].
  - intros conn c i now _ Hi. by apply execute_inserts_one.
  - intros conn c ids now _ _. apply fetch_inserts_returning; [done|right; by exists now].
  - intros conn c i _ _. by apply execute_deletes_one.
  - intros c i _ _. by apply fetch_tells_presence.
  - intros cutoff n Hn. apply execute_deletes_expired; [done|lia|done].
Qed.

#[export] Instance model_mysql_session : MySqlSessionEngine model_ev.
Proof.
  constructor; simpl.
  - by intros w tx w' [= <- <-].
  - intros conn n w r w' _. by intros [= <- <-].
  - intros conn v w r w' Hv. unfold run_raw.
    change (classify MySql.RESTORE_LOCK_TIMEOUT_SQL) with (Some KRestore). simpl.
    rewrite Hv. by intros [= <- <-].
  - intros conn args w r w'. unfold run_execute.
    change (classify MySql.CLAIM_SQL) with (Some KInsert).
    unfold unless_held. repeat case_match;
      first [apply on_rows_locks|intros [= <- <-]; first [done|apply abort_locks]].
  - intros conn args w r w'. unfold run_execute.
    change (classify MySql.CLAIM_MANY_SQL) with (Some KInsertStamped).
    unfold unless_held. repeat case_match;
      first [apply on_rows_locks|intros [= <- <-]; first [done|apply abort_locks]].
  - intros conn args w r w'. unfold run_fetch_all.
    change (classify MySql.CLAIMED_BY_TOKEN_SQL) with (Some KReadStamped).
    unfold unless_held. repeat case_match;
      first [apply on_rows_locks|intros [= <- <-]; first [done|apply abort_locks]].
  - by intros conn w r w' [= <- <-].
Qed.

#[export] Instance model_mysql : MySqlEngine model_ev.
Proof.
  constructor; try apply _.
  - by intros w r w' [= <- <-].
  - by intros w r w' [= <- <-].
  - intros conn n _ w r w'. by intros [= <- <-].
  - intros conn w r w'. simpl. unfold run_raw.
    change (classify MySql.RESTORE_LOCK_TIMEOUT_SQL) with (Some KRestore). simpl.
    destruct (mw_lock_saved w); intros [= <- <-]; (split; [done|]); intros t Ht [? Hs]; done.
  - intros conn c i _ Hi. by apply execute_inserts_one.
  - intros w r w' [= <- <-]. split; [done|]. split; [done|]. simpl.
    intros _ t k row ([t' sp] & Hs & ->)%fmap_Some Hk Ht. rewrite Hs in Ht. simpl in Ht.
    exact (is_fresh (tokens (rows t')) (tokens_spec _ _ _ _ Hk Ht)).
  - intros conn c token ids _ _ w t r w' Ht. simpl. unfold run_execute.
    change (classify MySql.CLAIM_MANY_SQL) with (Some KInsertStamped).
    intros [H|(-> & -> & Hh)]%unless_held_spec; [|done].
    destruct (on_rows_spec _ _ conn _ _ _ Ht H) as (Hs & -> & Hsees). split; [done|].
    by exists (mw_now w).
  - intros conn c token ids _ _ w t r w' Ht. simpl. unfold run_fetch_all.
    change (classify MySql.CLAIMED_BY_TOKEN_SQL) with (Some KReadStamped). intros H.
    destruct (on_rows_spec _ _ conn _ _ _ Ht H) as (Hs & -> & Hsees). split; [done|].
    split; [by destruct t|]. intros x. simpl. rewrite list_elem_of_filter.
    unfold stamped. destruct (rows t !! (c, x)) as [row|]; [|naive_solver].
    rewrite bool_decide_eq_true. naive_solver.
  - intros conn c i _ _. by apply execute_deletes_one.
  - intros c i _ _. by apply fetch_tells_presence.
  - intros us n _ Hn. apply execute_deletes_expired; [done|lia|]. simpl. lia.
Qed.
