(* ===== verification/Backends.v ===== *)
(** * The backends at work

    The theorems about the three backends, evaluated on the in-memory database
    of [SqlModel.v]: consumers over each backend, purges of a small table, and
    the lock timeout of a MySQL session across cancelled claims. *)

From S2P Require Import Prelude Text Errors Durations Types Store MemStore Consumer Sqlx Sql.
From S2P Require Import Postgres Aborted Sqlite MySql Contention SqlModel.
#[local] Open Scope Z_scope.

(** ** Consumers *)

Definition model_of (m : Rows) : ModelWorld :=
  {| mw_committed := mkTables m []; mw_session := None; mw_aborted := false;
     mw_now := 1700000000 * 1000000000; mw_lock_wait := 50; mw_lock_saved := None; mw_held := ∅ |}.

Definition row_at (t : Z) : Row := {| processed_at := t; claim_token := None |}.

Definition seen_a : ModelWorld := model_of {[ (lit "x", lit "a") := row_at 0 ]}.

Definition noop (conn : nat) : prog sqlxE (result unit HandlerError) := Ret (Ok tt).

Section Deliver.
Context {S : Type} `{!InboxStore S sqlxE nat nat, !Savepoints S sqlxE nat nat}.

(** On a table that holds [a]: [c] and [b] are new, and [b] is repeated. *)
Definition deliver_batch (store : S)
  : prog sqlxE (result (list (ProcessResult unit)) InboxError) :=
  Impl.process_many (Impl.new store (cid "x")) [mid "c"; mid "a"; mid "b"; mid "b"]
    (fun conn _ => noop conn).
End Deliver.

Definition batch_results : list (ProcessResult unit) :=
  [Ok (Processed tt); Ok OutcomeDuplicate; Ok (Processed tt); Ok OutcomeDuplicate].

Definition keys_of (w : ModelWorld) : gset (str * str) := recorded (committed (Conn := nat) w).

Definition all_seen : gset (str * str) :=
  {[ (lit "x", lit "a"); (lit "x", lit "b"); (lit "x", lit "c") ]}.

Lemma pg_inbox_lawful_witness :
  (let '(o, w') := exec model_ev (deliver_batch pgInbox) seen_a in
   o = Done (Ok batch_results) /\ keys_of w' = all_seen) /\
  InboxLaws PgInbox model_ev /\ SavepointLaws PgInbox model_ev.
Proof.
  split; [vm_compute; split; reflexivity|].
  apply (pg_inbox_lawful model_ev model_interval).
Defined.

Lemma sqlite_inbox_lawful_witness :
  (let '(o, w') := exec model_ev (deliver_batch sqliteInbox) seen_a in
   o = Done (Ok batch_results) /\ keys_of w' = all_seen) /\
  InboxLaws SqliteInbox model_ev /\ SavepointLaws SqliteInbox model_ev.
Proof.
  split; [vm_compute; split; reflexivity|]. apply (sqlite_inbox_lawful model_ev).
Defined.

Lemma mysql_inbox_lawful_witness :
  (let '(o, w') := exec model_ev (deliver_batch mySqlInbox) seen_a in
   o = Done (Ok batch_results) /\ keys_of w' = all_seen) /\
  InboxLaws MySqlInbox model_ev /\ SavepointLaws MySqlInbox model_ev.
Proof.
  split; [vm_compute; split; reflexivity|]. apply (mysql_inbox_lawful model_ev).
Defined.

(** ** Purging *)

Definition aged (name : string) (age_secs : Z) : (str * str) * Row :=
  ((lit "x", lit name), row_at (1700000000 * 1000000000 - age_secs * 1000000000)).

Definition aged_table : ModelWorld :=
  model_of (list_to_map [aged "old" 7200; aged "older" 9000; aged "young" 10]).

Definition hourly : RetentionPolicy :=
  Policy.with_batch_size (Policy.new (from_secs 3600)) 0.

Lemma hourly_wf : policy_wf hourly.
Proof. unfold policy_wf, duration_wf, u64_max, u32_max. simpl. lia. Qed.

Definition young : gset (str * str) := {[ (lit "x", lit "young") ]}.

Lemma pg_purge_sound_witness :
  (let '(o, w') := exec model_ev (Postgres.purge pgInbox 4 hourly) aged_table in
   o = Done (Ok 2) /\ keys_of w' = young) /\
  wp model_ev (Postgres.purge pgInbox 4 hourly)
    (purge_post (3600 * 1000000000) (tbl_now aged_table) (tbl_committed aged_table)
       (tbl_healthy aged_table))
    aged_table.
Proof.
  split; [vm_compute; split; reflexivity|].
  assert (model_interval (as_secs_f64 (max_age hourly)) = 3600 * 1000000000) as <-
    by (vm_compute; reflexivity).
  apply (pg_purge_sound model_ev model_interval pgInbox 4 hourly aged_table hourly_wf);
    vm_compute; intuition congruence.
Defined.

Lemma sqlite_purge_sound_witness :
  (let '(o, w') := exec model_ev (Sqlite.purge sqliteInbox 4 hourly) aged_table in
   o = Done (Ok 2) /\ keys_of w' = young) /\
  wp model_ev (Sqlite.purge sqliteInbox 4 hourly)
    (purge_post (3600 * 1000000000) (tbl_now aged_table) (tbl_committed aged_table)
       (tbl_healthy aged_table))
    aged_table.
Proof.
  split; [vm_compute; split; reflexivity|].
  apply (sqlite_purge_sound model_ev sqliteInbox 4 hourly aged_table hourly_wf);
    vm_compute; intuition congruence.
Defined.

Lemma mysql_purge_sound_witness :
  (let '(o, w') := exec model_ev (MySql.purge mySqlInbox 4 hourly) aged_table in
   o = Done (Ok 2) /\ keys_of w' = young) /\
  wp model_ev (MySql.purge mySqlInbox 4 hourly)
    (purge_post (3600 * 1000000000) (tbl_now aged_table) (tbl_committed aged_table)
       (tbl_healthy aged_table))
    aged_table.
Proof.
  split; [vm_compute; split; reflexivity|].
  apply (mysql_purge_sound model_ev mySqlInbox 4 hourly aged_table hourly_wf);
    vm_compute; intuition congruence.
Defined.

(** A window of about 317000 years. *)
Definition endless : RetentionPolicy := Policy.new (from_secs (10 ^ 13)).

Lemma sqlite_purge_panics_witness :
  exists m w', exec model_ev (Sqlite.purge sqliteInbox 4 endless) aged_table = (Panicked m, w') /\
               tbl_committed w' = tbl_committed aged_table.
Proof.
  apply (sqlite_purge_panics model_ev sqliteInbox 4 endless (as_nanos (max_age endless)) aged_table).
  - reflexivity.
  - intros now w1 [= <- <-]. reflexivity.
Defined.

(** ** The lock timeout of a MySQL session *)

Definition timed_claim (name : string) : ClaimRequest :=
  Claim_Request.with_lock_timeout (Claim_Request.new (cid "x") (mid name)) (from_secs 2).

(** A transaction is open; the application's own lock timeout is 50 s. *)
Definition in_transaction : ModelWorld :=
  snd (exec model_ev (MySql.begin mySqlInbox) seen_a).

(** A claim with a timeout of 2 s, dropped while its INSERT runs. *)
Definition after_cancelled : ModelWorld :=
  snd (run model_ev (Some (1%nat, true)) (MySql.claim mySqlInbox 0 (timed_claim "c"))
         in_transaction).

Lemma mysql_lock_timeout_survives_witness :
  session_is 0 2 (Some 50) after_cancelled /\
  keeps_own (A := Claim) model_ev 0 50 Cancelled after_cancelled /\
  forall tx, Done (Ok (Err := InboxError) 0%nat) = Done (Ok tx) ->
    session_is tx 50 None (snd (exec model_ev (MySql.begin mySqlInbox) after_cancelled)).
Proof.
  destruct (mysql_lock_timeout_survives model_ev mySqlInbox 0 50 in_transaction)
    as (Hclaim & _ & Hbegin); [split; reflexivity|].
  split; [split; reflexivity|]. split.
  - specialize (Hclaim (timed_claim "c") (Some (1%nat, true))). exact Hclaim.
  - specialize (Hbegin after_cancelled None). exact Hbegin.
Defined.

(** Another claim in the same transaction, and the next one, see 2 s instead of
    the application's 50 s. *)
Lemma mysql_second_claim_forgets_own_witness :
  session_is 0 2 (Some 50) after_cancelled /\
  let w' := snd (exec model_ev (MySql.claim mySqlInbox 0 (timed_claim "b")) after_cancelled) in
  session_is 0 2 None w' /\ app_lock_wait w' 0 = 2.
Proof.
  split; [split; reflexivity|].
  apply (mysql_second_claim_forgets_own model_ev mySqlInbox 0 (timed_claim "b") (from_secs 2)
           50 2 Fresh after_cancelled).
  - split; reflexivity.
  - reflexivity.
  - vm_compute. reflexivity.
Defined.

(** ** Contention *)

(** Another consumer holds the row of [b]. *)
Definition held_b : ModelWorld :=
  {| mw_committed := mw_committed seen_a; mw_session := None; mw_aborted := false; mw_now := mw_now seen_a;
     mw_lock_wait := 50; mw_lock_saved := None; mw_held := {[ (lit "x", lit "b") ]} |}.

Definition timed_consumer : Consumer MySqlInbox :=
  Impl.with_lock_timeout (Impl.new mySqlInbox (cid "x")) (from_millis 200).

(** A MySQL consumer with a lock timeout gives up on [b], singly and in a batch
    with [c], with the application's lock timeout put back; alone, [c] is not
    blocked. *)
Lemma contended_means_blocked_witness :
  fst (exec model_ev (Impl.process timed_consumer (mid "c") noop) held_b)
    = Done (Ok (Processed tt)) /\
  (let '(o, w') := exec model_ev (Impl.process timed_consumer (mid "b") noop) held_b in
   o = Done (Error Contended) /\ session_is 0 50 None w' /\
   gave_up model_ev (MySql.begin mySqlInbox)
     (fun conn => mysql_blocked model_ev conn (request timed_consumer (mid "b"))) held_b w' /\
   committed (Conn := nat) w' = committed (Conn := nat) held_b) /\
  fst (exec model_ev (Impl.process_many timed_consumer [mid "c"; mid "b"] (fun conn _ => noop conn)) held_b)
    = Done (Error Contended).
Proof.
  split; [vm_compute; reflexivity|]. split; [|vm_compute; reflexivity].
  destruct (exec model_ev (Impl.process timed_consumer (mid "b") noop) held_b) as [o w'] eqn:Hx.
  assert (o = Done (Error Contended)) as ->.
  { change o with (fst (o, w')). rewrite <- Hx. vm_compute. reflexivity. }
  destruct (contended_means_blocked model_ev timed_consumer (mid "b") [] noop (fun conn _ => noop conn)
    held_b w') as (Hp & _ & Hq); [split; [ids_ok|vm_compute; discriminate]|ids_ok|].
  cbv iota beta. split; [reflexivity|]. split; [|split; [exact (proj1 Hp Hx)|exact (Hq (or_introl Hx))]].
  change w' with (snd (@Done (result (Outcome unit) InboxError) (Error Contended), w')). rewrite <- Hx. vm_compute. split; reflexivity.
Defined.

(** ** A handler that ignores a failed statement *)

(** Writes to a table that does not exist, and does not look at the answer. *)
Definition careless (conn : nat) : prog sqlxE (result unit HandlerError) :=
  _ <- trigger (Execute (OnConn conn) "INSERT INTO missing VALUES (1)" []) ;; Ret (Ok tt).

Lemma swallowed_failure_loses_message_witness :
  exec model_ev (Impl.process (Impl.consumer pgInbox (cid "x")) (mid "c") careless) seen_a
    = (Done (Ok (Processed tt)), seen_a) /\
  fst (exec model_ev (Impl.process (Impl.consumer pgInbox (cid "x")) (mid "c") careless) seen_a)
    = Done (Ok (Processed tt)) /\
  committed (Conn := nat)
    (snd (exec model_ev (Impl.process (Impl.consumer pgInbox (cid "x")) (mid "c") careless) seen_a))
    = committed seen_a.
Proof.
  split; [vm_compute; reflexivity|].
  destruct (swallowed_failure_loses_message model_ev model_interval pgInbox (cid "x") (mid "c")
    careless tt seen_a
    (snd (exec model_ev (Impl.process (Impl.consumer pgInbox (cid "x")) (mid "c") careless) seen_a))
    (fst (exec model_ev (Impl.process (Impl.consumer pgInbox (cid "x")) (mid "c") careless) seen_a)))
    as (Ho & Hc & _).
  - ids_ok.
  - ids_ok.
  - apply (unchecked_ignores_failure model_ev). intros conn w. reflexivity.
  - reflexivity.
  - apply (bool_decide_eq_true_1 (_ ∉ _)). vm_compute. reflexivity.
  - apply surjective_pairing.
  - split; [exact Ho|exact Hc].
Defined.
