(* ===== verification/KafkaRun.v ===== *)
(** * The Kafka example at work

    The theorems about the Kafka example, evaluated on the in-memory database of
    [SqlModel.v] and a topic with one partition that never ends. *)

From S2P Require Import Prelude Text Errors Durations Types Store MemStore Consumer Sqlx Sql.
From S2P Require Import Postgres Kafka KafkaSessions SqlModel Backends.

(** ** A topic *)

(** Offsets 0 and 2 carry the same order, offset 1 has no key, offset 3 one that
    is not UTF-8, offset 4 another order; then the pattern repeats. *)
Definition topic_key (x : nat) : option (result str unit) :=
  match x with
  | 1 => None
  | 3 => Some (Error tt)
  | 4 => Some (Ok (lit "order-b"))
  | _ => Some (Ok (lit "order-a"))
  end.

Definition topic_message (o : nat) : KafkaMessage := {|
  msg_partition := 0; msg_offset := o;
  key_view := topic_key (Nat.modulo o 5);
  msg_payload := match Nat.modulo o 5 with 3 => None | x => Some [Z.of_nat x] end;
|}.

Definition topic (p o : nat) : option KafkaMessage :=
  match p with O => Some (topic_message o) | _ => None end.

(** A broker that commits at once; a client that commits by itself does so when it
    receives. *)
Record Broker := mkBroker { at_offset : nat; group_offset : nat; committing : bool }.

#[export] Instance broker_observe : KafkaObserve Broker := {|
  position k p := match p with O => at_offset k | _ => 0 end;
  promised k p := match p with O => group_offset k | _ => 0 end;
  auto_commit := committing;
|}.

(** Commits only messages of its one partition. *)
Definition broker_ev (A : Type) (e : kafkaE A) (k : Broker) : A * Broker :=
  match e in kafkaE T return T * Broker with
  | Create config =>
      (Ok tt, mkBroker (at_offset k) (group_offset k)
                (negb (bool_decide (config !! "enable.auto.commit" = Some "false"))))
  | Subscribe _ => (Ok tt, k)
  | Recv => (Ok (topic_message (at_offset k)),
             mkBroker (S (at_offset k))
               (if committing k then at_offset k else group_offset k) (committing k))
  | CommitMessage m =>
      (Ok tt, match msg_partition m with
              | O => mkBroker (at_offset k) (max (group_offset k) (S (msg_offset m))) (committing k)
              | _ => k
              end)
  end.

#[export] Instance broker_laws : KafkaLaws broker_ev topic.
Proof.
  constructor.
  - intros config k r k' [= <- <-]. split; [done|]. simpl. by intros _ ->.
  - by intros l k r k' [= <- <-].
  - intros k r k' Hman. simpl in *. intros [= <- <-]. simpl. rewrite Hman. split; [done|].
    split; [done|]. simpl. split; [done|].
    split; [exists (at_offset k); split; [by left|lia]|]. split; [done|].
    intros [|q]; [done|]. by left.
  - intros k m r k' Hman. simpl in *. intros [= <- <-]. destruct (msg_partition m) as [|p] eqn:Hp;
      (split; [done|]); (split; [done|]); intros [|q]; case_decide; simpl; lia || done.
Qed.

Lemma topic_key_storable x m id :
  key_view m = topic_key x -> message_id m = Some id -> storable (Message_Id.as_str id).
Proof.
  intros Hk. unfold message_id. rewrite Hk. clear Hk.
  destruct x as [|[|[|[|[|x]]]]]; intros Hid; vm_compute in Hid; try done;
    injection Hid as <-; apply (bool_decide_eq_true_1 (storable _)); vm_compute; reflexivity.
Qed.

Lemma topic_storable p o m id :
  topic p o = Some m -> message_id m = Some id -> storable (Message_Id.as_str id).
Proof. destruct p; [|done]. intros [= <-]. by apply (topic_key_storable (Nat.modulo o 5)). Qed.

Definition fresh_start : ModelWorld * Broker :=
  (model_of ∅, mkBroker 0 0 true).

Definition day : Z := (24 * 60 * 60)%Z.

(** An inbox with a row the purge task will remove and one it will keep. *)
Definition aged_inbox : ModelWorld :=
  model_of (list_to_map [aged "old" (8 * day); aged "young" (6 * day)]).

Definition example_run (b : budget) (turns : nat) (schedule : list nat)
    (x : ModelWorld * Rows * Broker)
  : outcome (result unit ExampleError) * budget * (ExampleWorld ModelWorld * Broker) :=
  run (main_ev model_ev broker_ev) b (main turns 2 1 pgInbox)
    (unspawned (fst (fst x)) schedule (snd (fst x)), snd x).

Definition ended (s : ExampleWorld ModelWorld * Broker) : ModelWorld * Rows * Broker :=
  (ew_db (fst s), ew_purged (fst s), snd s).

Definition first_start : ModelWorld * Rows * Broker :=
  (aged_inbox, ∅, mkBroker 0 0 true).

(** The first session crashes after the commit of the first order and before
    its offset is committed; the purge task ran between the order's claim and its
    handler. *)
Definition first_session := example_run (Some (9, false)) 3 [0; 0; 0; 1] first_start.
Definition crashed : ModelWorld * Rows * Broker := ended (snd first_session).

(** The second one starts over from the committed offset. *)
Definition second_session :=
  example_run None 5 [0; 1] (fst crashed, (mkBroker 0 0 true)).
Definition recovered : ModelWorld * Rows * Broker := ended (snd second_session).

Lemma example_session b turns schedule x k0 :
  restarts (snd x) k0 ->
  ew_late (fst (snd (example_run b turns schedule (fst x, k0)))) = false ->
  session model_ev broker_ev pgInbox x (ended (snd (example_run b turns schedule (fst x, k0)))).
Proof.
  destruct x as [[w purged] k]. unfold example_run, ended. cbn [fst snd].
  destruct (run _ _ _ _) as [[o b'] [s' k']] eqn:Hrun. cbn [fst snd]. intros Hre Hlate.
  exact (session_run _ _ _ w purged k k0 schedule turns 2 1 b o b' s' k' 0 Hre Hrun Hlate).
Qed.

Lemma crashed_then_recovered :
  rtc (session model_ev broker_ev pgInbox) first_start recovered.
Proof.
  apply rtc_l with crashed; [|apply rtc_once].
  - apply (example_session (Some (9, false)) 3 [0; 0; 0; 1] first_start (snd first_start)).
    + intros [|p]; done.
    + vm_compute. reflexivity.
  - apply (example_session None 5 [0; 1] crashed (mkBroker 0 0 true)).
    + intros [|p]; vm_compute; lia.
    + vm_compute. reflexivity.
Qed.

Definition orders_of (x : ModelWorld * Rows * Broker) : list (list Z) :=
  app (committed (Conn := nat) (fst (fst x))).

Lemma sessions_exactly_once_witness :
  (orders_of crashed = [[0%Z]] /\ dom (snd (fst crashed)) = {[ (lit "x", lit "old") ]} /\
   group_offset (snd crashed) = 0) /\
  (orders_of recovered = [[0%Z]; [4%Z]] /\ group_offset (snd recovered) = 5) /\
  exists L : list KafkaMessage,
    orders_of recovered = payload <$> L /\ NoDup (message_id <$> L).
Proof.
  split; [vm_compute; auto|]. split; [vm_compute; auto|].
  destruct (sessions_exactly_once model_ev broker_ev model_interval topic ltac:(vm_compute; reflexivity)
    topic_storable pgInbox aged_inbox (fst (fst recovered)) (snd first_start) (snd recovered)
    (snd (fst recovered))) as (L & Ha & Hn & _).
  - intros [|p]; reflexivity.
  - rewrite <- !surjective_pairing. exact crashed_then_recovered.
  - exists L. split; [exact Ha|exact Hn].
Defined.

(** Four turns, with a purge before the first claim. *)
Definition four_turns := exec (main_ev model_ev broker_ev) (main 4 2 1 pgInbox)
  (unspawned aged_inbox [0; 0; 1] ∅, snd first_start).

Lemma result_parts {A B C : Type} (x : A * (B * C)) : x = (fst x, (fst (snd x), snd (snd x))).
Proof. by destruct x as [? [? ?]]. Qed.

Lemma receive_loop_progress_witness :
  dom (ew_purged (fst (snd four_turns))) = {[ (lit "x", lit "old") ]} /\
  fst four_turns = Done (Ok tt) /\ tbl_healthy (ew_db (fst (snd four_turns))) /\
  forall p o m id, o < position (snd (snd four_turns)) p -> topic p o = Some m ->
    message_id m = Some id ->
    key billing_id id ∈ recorded (committed (ew_db (fst (snd four_turns)))) \/
    key billing_id id ∈ dom (ew_purged (fst (snd four_turns))).
Proof.
  split; [vm_compute; reflexivity|].
  destruct (receive_loop_progress model_ev broker_ev model_interval topic
    ltac:(vm_compute; reflexivity) topic_storable pgInbox
    (fun _ => True) ltac:(by intros k c r k' _ [= <- <-]) ltac:(by intros k l r k' _ [= <- <-])
    ltac:(by intros k r k' _ [= <- <-]) ltac:(by intros k m r k' _ [= <- <-])
    4 2 1 [0; 0; 1] aged_inbox (snd first_start)
    (fst four_turns) (fst (snd four_turns)) (snd (snd four_turns))) as (Ho & Hh & Hk & _).
  - intros [|p]; reflexivity.
  - intros [|p]; reflexivity.
  - vm_compute; reflexivity.
  - exact I.
  - exact (result_parts four_turns).
  - vm_compute; reflexivity.
  - split; [exact Ho|]. split; [exact Hh|exact Hk].
Defined.

(** ** A key with U+0000 *)

Definition nul_message : KafkaMessage := {|
  msg_partition := 0; msg_offset := 0;
  key_view := Some (Ok (lit "order" ++ [0%Z])); msg_payload := None;
|}.

Definition nul_id : MessageId := {| message_str := lit "order" ++ [0%Z] |}.

(** A broker whose first message is the one above. *)
Definition nul_ev (A : Type) (e : kafkaE A) (k : Broker) : A * Broker :=
  match e in kafkaE T return T * Broker with
  | Create _ | Subscribe _ => (Ok tt, k)
  | Recv => (Ok nul_message, mkBroker 1 (group_offset k) (committing k))
  | CommitMessage m => (Ok tt, mkBroker (at_offset k) (S (msg_offset m)) (committing k))
  end.

Lemma nul_key_stalls_witness :
  let '(o, _, s') := run (example_ev model_ev nul_ev) None
    (receive (Impl.consumer pgInbox billing_id)) fresh_start in
  (exists e, o = Done (Error (InboxFailed e))) /\ group_offset (snd s') = 0 /\
  ((snd s' = snd fresh_start \/ snd s' = mkBroker 1 0 true) /\
   committed (Conn := nat) (fst s') = committed (Conn := nat) (fst fresh_start) /\
   o <> Done (Ok tt)).
Proof.
  split; [vm_compute; eauto|]. split; [vm_compute; reflexivity|].
  apply (nul_key_stalls model_ev nul_ev model_interval pgInbox nul_message nul_id
    (fst fresh_start) _ (snd fresh_start) (mkBroker 1 0 true) _ None None).
  - vm_compute. reflexivity.
  - apply (bool_decide_eq_true_1 (_ ∈ _)). vm_compute. reflexivity.
  - reflexivity.
  - vm_compute. reflexivity.
Defined.

(** ** The purge task *)

Lemma purge_task_keeps_week_witness :
  (let '(o, w') := exec model_ev (purge_task 2 1 pgInbox) aged_inbox in
   o = Done tt /\ keys_of w' = {[ (lit "x", lit "young") ]}) /\
  wp model_ev (purge_task 2 1 pgInbox) (task_post 2 aged_inbox) aged_inbox.
Proof.
  split; [vm_compute; split; reflexivity|].
  apply (purge_task_keeps_week model_ev model_interval); vm_compute; reflexivity.
Defined.
