(* ===== verification/TracingRun.v ===== *)
(** * Tracing at work

    [src/tests/it/tracing_levels.rs]: its subscriber and its two tests, run on
    the SQLite backend with its spans over the in-memory database of
    [SqlModel.v]; and the theorems on tracing evaluated there. *)

From S2P Require Import Prelude Text Errors Durations Types Store MemStore Consumer.
From S2P Require Import Tracing TracingLog Sqlx Sql Postgres Sqlite MySql TracedBackends.
From S2P Require Import SqlModel Backends.

(** What [LevelSpy] records: target and level of the events of this crate. *)
Definition level_spy (l : list (Entry sqlxE)) : list (string * Level) :=
  (fun x : list Span * Event => (target (snd x), level (snd x))) <$> txbox_events l.

(** The order of [tracing::Level]: ERROR < WARN < INFO < DEBUG < TRACE. *)
Definition verbosity (l : Level) : nat :=
  match l with ERROR => 0 | WARN => 1 | INFO => 2 | DEBUG => 3 | TRACE => 4 end.

Definition sqlite_billing : Consumer SqliteInbox := Impl.consumer sqliteInbox (cid "billing").

Definition traced_noop (conn : nat) : prog (tracedE sqlxE) (result unit HandlerError) := Ret (Ok tt).

(** [p.await.unwrap()], and what is checked of the world it leaves and its log. *)
Definition unwrap {R : Type} (p : prog (tracedE sqlxE) (result R InboxError)) (w : ModelWorld)
    (check : ModelWorld -> list (Entry sqlxE) -> bool) : bool :=
  match run_traced model_ev None p w with
  | (Done (Ok _), _, w', l) => check w' l
  | _ => false
  end.

Definition duplicates_are_logged_at_debug_never_warn : bool :=
  let deliver := Traced.process sqlite_billing (mid "m-1") traced_noop in
  unwrap deliver (model_of ∅) (fun w _ =>
  unwrap deliver w (fun _ l =>
    negb (length (level_spy l) =? 0)%nat &&
    forallb (fun x => (verbosity DEBUG <=? verbosity (snd x))%nat) (level_spy l))).

Definition process_many_logs_duplicates_under_the_duplicate_target : bool :=
  let deliver := Traced.process_many sqlite_billing [mid "m-1"] (fun conn _ => traced_noop conn) in
  unwrap deliver (model_of ∅) (fun w _ =>
  unwrap deliver w (fun _ l =>
    existsb (fun x => bool_decide (x = ("txbox::duplicate"%string, DEBUG))) (level_spy l))).

Definition tracing_tests : list bool := [
  duplicates_are_logged_at_debug_never_warn;
  process_many_logs_duplicates_under_the_duplicate_target ].

Lemma tracing_tests_pass : forallb (fun t => t) tracing_tests = true.
Proof. vm_compute. reflexivity. Qed.

(** A handler that fails, on a database whose rollback fails. *)
Definition traced_boom (conn : nat) : prog (tracedE sqlxE) (result unit HandlerError) :=
  Ret (Error (EString (lit "boom"))).

Definition broken_rollback (A : Type) (e : sqlxE A) (w : ModelWorld) : A * ModelWorld :=
  match e in sqlxE A return A * ModelWorld -> A * ModelWorld with
  | TxRollback _ => fun _ => (Error timed_out, w)
  | _ => fun r => r
  end (model_ev A e w).

Definition batch_ids_c : list MessageId := [mid "c"; mid "a"; mid "b"; mid "b"].

Lemma log_tells_outcome_witness :
  let self := Impl.new pgInbox (cid "x") in
  (let '(o, _, _, l) := run_traced broken_rollback None (Traced.process self (mid "c") traced_boom) seen_a in
   o = Done (Error (Handler (EString (lit "boom")))) /\
   txbox_events l = [([process_span (cid "x") (mid "c")],
                      rollback_failed (cid "x") (mid "c") (Backend (ESqlx timed_out)))] /\
   process_log broken_rollback self (mid "c") o (txbox_events l).*2) /\
  (let '(o, _, _, l) := run_traced broken_rollback None
        (Traced.process_many self batch_ids_c (fun conn _ => traced_noop conn)) seen_a in
   o = Done (Ok batch_results) /\
   txbox_events l = (fun m => ([process_many_span (cid "x") batch_ids_c], duplicate_skipped (cid "x") m))
                      <$> [mid "a"; mid "b"]).
Proof.
  intros self. split; [|vm_compute; split; reflexivity].
  pose proof (log_tells_outcome broken_rollback self (mid "c") batch_ids_c traced_boom
    (fun conn _ => traced_noop conn) None seen_a) as [H _].
  - intros conn b w. reflexivity.
  - intros conn m b w. reflexivity.
  - destruct (run_traced broken_rollback None (Traced.process self (mid "c") traced_boom) seen_a)
      as [[[o b] w] l] eqn:Hr. destruct H as [_ H].
    split; [|split; [|exact H]].
    + change o with (fst (fst (fst (o, b, w, l)))). rewrite <- Hr. vm_compute. reflexivity.
    + change l with (snd (o, b, w, l)). rewrite <- Hr. vm_compute. reflexivity.
Defined.

(** Dropped while it commits, with the commit applied or not. *)
Lemma traced_process_runs_alike :
  let self := Impl.new mySqlInbox (cid "x") in
  let traced b := run_traced model_ev b (Traced.process self (mid "c") traced_noop) seen_a in
  keys_of (snd (fst (traced (Some (2, true))))) = {[ (lit "x", lit "a"); (lit "x", lit "c") ]} /\
  keys_of (snd (fst (traced (Some (2, false))))) = {[ (lit "x", lit "a") ]} /\
  (forall b, fst (traced b) = run model_ev b (Impl.process self (mid "c") noop) seen_a).
Proof.
  intros self traced. split; [vm_compute; reflexivity|]. split; [vm_compute; reflexivity|].
  intros b. apply (tracing_transparent model_ev self (mid "c") [] traced_noop noop
    (fun conn _ => traced_noop conn) (fun conn _ => noop conn) b seen_a).
  - intros conn. reflexivity.
  - intros conn m. reflexivity.
Qed.
