(* ===== verification/SharedSqlRun.v ===== *)
(** * The backends under concurrency, at work

    An executable database that several transactions share, run by the scheduler
    of [InterleavingRun.v]: it answers the SQL texts of PostgreSQL and SQLite,
    makes a claim wait for rows another transaction has claimed, and keeps locks
    until the transaction ends.  It refuses a certain order, which aborts the
    transaction like a failed constraint of PostgreSQL: up to a ROLLBACK TO its
    savepoint its statements fail, and COMMIT rolls it back and answers [Ok].  It
    satisfies what [SharedSql.v] assumes of both
    databases, and consumers of either backend race on it. *)

From S2P Require Import Prelude Text Errors Durations Types Store.
From S2P Require Import MemStore Consumer Steps SharedDb Protocol Interleaving InterleavingRun.
From S2P Require Import Sqlx Sql Postgres Sqlite MySql SharedSql Kafka SqlModel.

(** ** The database *)

Abbreviation Db := (Shared str).

(** A statement of the transaction [n] fails, and aborts it. *)
Definition abort {A : Type} (n : nat) (g : Db) : option (result A SqlxError * Db) :=
  match sh_open g !! n with
  | Some (t, ls) =>
      let t' := mkTxState ∅ [] (tx_save t) true in
      if decide (needed t' ⊆ ls) then Some (Error refused, set_tx n t' ls g) else None
  | None => Some (Error refused, g)
  end.

Definition run_stmt {A : Type} (n : nat) (st : SharedDb.stmt str) (a : A) (g : Db)
  : option (result A SqlxError * Db) :=
  match sh_open g !! n with
  | Some (t, ls) =>
      match apply_stmt st t with
      | Some t' => if decide (needed t' ⊆ ls) then Some (Ok a, set_tx n t' ls g) else None
      | None => abort n g
      end
  | None => Some (Error refused, g)
  end.

Definition run_claim (n : nat) (k : str * str) (g : Db) : option (result Z SqlxError * Db) :=
  match sh_open g !! n with
  | Some (t, ls) =>
      if tx_failed t then abort n g
      else if unlocked_b n k g then
        if decide (k ∈ tx_claims t ∪ recorded (sh_db g)) then Some (Ok 0%Z, g)
        else Some (Ok 1%Z, set_tx n (claim_tx k t) ({[k]} ∪ ls) g)
      else None
  | None => Some (Error refused, g)
  end.

Definition run_claims (n : nat) (c : str) (ids : list str) (g : Db)
  : option (result (list str) SqlxError * Db) :=
  match sh_open g !! n with
  | Some (t, ls) =>
      if tx_failed t then abort n g
      else if forallb (fun x => unlocked_b n (c, x) g) ids then
        let fresh := filter (fun x => (c, x) ∉ tx_claims t ∪ recorded (sh_db g)) ids in
        Some (Ok fresh, set_tx n (claim_rows (rows_of c fresh) t) (rows_of c fresh ∪ ls) g)
      else None
  | None => Some (Error refused, g)
  end.

Definition run_nothing (n : nat) (g : Db) : option (result Z SqlxError * Db) :=
  match sh_open g !! n with
  | Some (t, _) => if tx_failed t then abort n g else Some (Ok 0%Z, g)
  | None => Some (Error refused, g)
  end.

(** The order of [poison] violates a constraint of the orders table. *)
Definition run_order (n : nat) (x : str) (g : Db) : option (result Z SqlxError * Db) :=
  if decide (x = Message_Id.as_str poison) then abort n g else run_stmt n (Write x) 1%Z g.

(** The answer of a statement, if it need not wait. *)
Definition sql_answer (A : Type) (e : sqlxE A) (g : Db) : option (A * Db) :=
  match e in sqlxE T return option (T * Db) with
  | PoolBegin => Some (Ok (sh_next g), begun g)
  | TxCommit n =>
      match sh_open g !! n with
      | Some (t, _) => Some (Ok tt, if tx_failed t then ended n g else committed_tx n t g)
      | None => Some (Error refused, g)
      end
  | TxRollback n => Some (Ok tt, ended n g)
  | TxDrop n => Some (tt, ended n g)
  | Execute (OnConn n) sql args =>
      match classify sql, args with
      | Some KSet, _ => run_nothing n g
      | Some KInsert, VText c :: VText i :: _ => run_claim n (c, i) g
      | Some KDelete, [VText c; VText i] => run_stmt n (Unclaim (c, i)) 1%Z g
      | Some KOrder, [VBytes x] => run_order n x g
      | _, _ => None
      end
  | FetchAllStrings (OnConn n) sql args =>
      match classify sql, args with
      | Some KInsertReturning, [VText c; VTextArray ids]
      | Some KInsertReturning, [VText c; VTime _; VJson ids] => run_claims n c ids g
      | _, _ => None
      end
  | FetchOneBool OnPool sql args =>
      match classify sql, args with
      | Some KExists, [VText c; VText i] =>
          Some (Ok (bool_decide ((c, i) ∈ recorded (sh_db g))), g)
      | _, _ => None
      end
  | RawSql (OnConn n) sql =>
      match classify sql with
      | Some KSavepoint => run_stmt n Savepoint tt g
      | Some KReleaseAndSavepoint => run_stmt n ReleaseAndSavepoint tt g
      | Some KRelease => run_stmt n Release tt g
      | Some KRollbackTo => run_stmt n RollbackTo tt g
      | _ => None
      end
  | UtcNow => Some (0%Z, g)
  | _ => None
  end.

Definition sql_does (A : Type) (e : sqlxE A) (g : Db) (a : A) (g' : Db) : Prop :=
  sql_answer A e g = Some (a, g').

(** Orders are written with the statement of the Kafka example. *)
Definition write_order (n : nat) (x : str) : sqlxE (result Z SqlxError) :=
  Execute (OnConn n) INSERT_ORDER_SQL [VBytes x].

(** ** The assumptions hold *)

Lemma abort_fails {A : Type} n (g : Db) (r : result A SqlxError) g' Q :
  abort n g = Some (r, g') -> on_open n g g' r Q.
Proof.
  unfold abort, on_open. destruct (sh_open g !! n) as [[t ls]|]; [|by intros [= <- <-]].
  case_decide; [|done]. intros [= <- <-]. right. right. exists (tx_save t), ls. auto.
Qed.

Lemma run_stmt_does {A : Type} (e : sqlxE (result A SqlxError)) n st (a : A) :
  (forall g, sql_answer _ e g = run_stmt n st a g \/ sql_answer _ e g = abort n g) ->
  does sql_does e n st.
Proof.
  intros He g r g'. unfold sql_does. destruct (He g) as [-> | ->]; [|apply abort_fails].
  unfold run_stmt. destruct (sh_open g !! n) as [[t ls]|] eqn:Ho.
  2:{ unfold on_open. rewrite Ho. by intros [= <- <-]. }
  destruct (apply_stmt st t) as [t'|] eqn:Ha; [|apply abort_fails].
  case_decide; [|done]. intros [= <- <-]. unfold on_open. rewrite Ho. split.
  - intros ->. simpl in Ha. by destruct (tx_save t).
  - rewrite Ha. intros t1 [= <-]. by exists ls.
Qed.

Lemma unlocked_b_spec n k (g : Db) : unlocked_b n k g = true -> unlocked n k g.
Proof.
  unfold unlocked_b. intros Hu%bool_decide_eq_true n' t ls Hl Hin. by destruct (Hu n' (t, ls) Hl).
Qed.

Lemma run_claim_claims (e : sqlxE (result Z SqlxError)) n k :
  (forall g, sql_answer _ e g = run_claim n k g) -> claims_row sql_does e n k.
Proof.
  intros He g r g'. unfold sql_does. rewrite He. unfold run_claim.
  destruct (sh_open g !! n) as [[t ls]|] eqn:Ho; [|unfold on_open; rewrite Ho; by intros [= <- <-]].
  destruct (tx_failed t); [apply abort_fails|]. unfold on_open. rewrite Ho.
  destruct (unlocked_b n k g) eqn:Hu; [|done]. apply unlocked_b_spec in Hu.
  case_decide as Hk; intros [= <- <-] _; (split; [done|]); by rewrite ?decide_True, ?decide_False by done.
Qed.

Lemma run_claims_claim (e : sqlxE (result (list str) SqlxError)) n (c : str) (ids : list str) :
  (forall g, sql_answer _ e g = run_claims n c ids g) -> claims_rows sql_does e n c ids.
Proof.
  intros He g r g'. unfold sql_does. rewrite He. unfold run_claims.
  destruct (sh_open g !! n) as [[t ls]|] eqn:Ho; [|unfold on_open; rewrite Ho; by intros [= <- <-]].
  destruct (tx_failed t); [apply abort_fails|]. unfold on_open. rewrite Ho.
  destruct (forallb _ ids) eqn:Hu; [|done]. rewrite forallb_forall in Hu. intros [= <- <-] _.
  split; [|split; [|done]].
  - intros x Hx. apply unlocked_b_spec, Hu. by apply list_elem_of_In.
  - intros x. rewrite list_elem_of_filter. tauto.
Qed.

#[export] Instance sql_engine : SharedEngine sql_does write_order.
Proof.
  split; try (intros; eapply run_stmt_does; intros; by left).
  - intros g r g' [= <- <-]. done.
  - intros n g r g'. unfold sql_does, committing. simpl.
    destruct (sh_open g !! n) as [[t ls]|]; intros [= <- <-]; [|done].
    destruct (tx_failed t); [done|by left].
  - by intros n g r g' [= <- <-].
  - by intros n g r g' [= <- <-].
  - intros n x. apply (run_stmt_does _ n (Write x) 1%Z). intros g. simpl. unfold run_order.
    case_decide; [by right|by left].
Qed.

Lemma finds_recorded sql c i : classify sql = Some KExists ->
  finds sql_does (FetchOneBool OnPool sql [VText c; VText i]) (c, i).
Proof.
  intros Hk g r g'. unfold sql_does. simpl. rewrite Hk. intros [= <- <-]. split; [done|].
  by intros [= ?%bool_decide_eq_true].
Qed.

#[export] Instance sql_pg : PgShared sql_does write_order.
Proof.
  split; [apply _|..].
  - intros n v g r g'. unfold sql_does. change (run_nothing n g = Some (r, g') ->
      on_open n g g' r (fun _ _ _ => g' = g)). unfold run_nothing.
    destruct (sh_open g !! n) as [[t ls]|] eqn:Ho; [|unfold on_open; rewrite Ho; by intros [= <- <-]].
    destruct (tx_failed t); [apply abort_fails|]. unfold on_open. rewrite Ho. by intros [= <- <-].
  - intros n c i. by apply run_claim_claims.
  - intros n c ids. by apply run_claims_claim.
  - intros n c i. apply (run_stmt_does _ n _ 1%Z). intros. by left.
  - intros c i. by apply finds_recorded.
Qed.

#[export] Instance sql_sqlite : SqliteShared sql_does write_order.
Proof.
  split; [apply _|..].
  - by intros g now g' [= _ <-].
  - intros n c i now. by apply run_claim_claims.
  - intros n c ids now. by apply run_claims_claim.
  - intros n c i. apply (run_stmt_does _ n _ 1%Z). intros. by left.
  - intros c i. by apply finds_recorded.
Qed.

(** ** A race *)

(** Writes the message's id as an order. *)
Definition order_handler (x : Msg) (conn : nat) : prog sqlxE (result unit HandlerError) :=
  r <- trigger (write_order conn (Message_Id.as_str (snd x))) ;;
  match r with Ok _ => Ret (Ok tt) | Error e => Ret (Error (ESqlx e)) end.

Lemma order_handler_obeys x :
  handler_obeys (nxt := sql_next sql_does effect_of) effect_of order_handler x.
Proof.
  intros D n [C W S []] known; [done|]. intros _.
  assert (forall b, mkTxState C W S b = wrote (mkTx C W S) [] b) as Hnil
    by (intros b; unfold wrote; simpl; by rewrite app_nil_r).
  apply obeys_call; [exists [], false; by rewrite <- Hnil|]. intros r. eexists.
  split; [eapply (sn_does _ _ D _ n (Write (Message_Id.as_str (snd x)))); [apply (sx_write sql_does write_order)|reflexivity]|].
  destruct r as [count|e]; simpl.
  - split; exists [Message_Id.as_str (snd x)], false; done.
  - split; exists [], true; rewrite <- Hnil; [done|]. by split.
Qed.

Section Race.
Context {S : Type} (inbox : S).
Definition sql_task (c : string) (w : Work) : Task S := mkTask (Impl.new inbox (cid c)) w.

Definition sql_race : list (Task S) :=
  [ sql_task "billing" (ProcessMany [mid "m-2"; poison; mid "m-1"; mid "m-2"; poison]);
    sql_task "billing" (Process (mid "m-1"));
    sql_task "billing" (Process (mid "m-1"));
    sql_task "audit" (Process (mid "m-1"));
    sql_task "billing" (IsKnownDuplicate (mid "m-2")) ].
End Race.

(** Call 1 is dropped while it holds the claim of m-1; call 2 claims it then, and
    the batch has to wait for call 2.  A claim takes [k] more steps. *)
Definition sql_wait (k : nat) : list turn :=
  repeat (Go 1) (3 + k) ++ [Drop 1] ++ [Go 1] ++ repeat (Go 2) (2 + k) ++ repeat (Go 0) (1 + k).

Definition sql_rest (k : nat) : list turn :=
  repeat (Go 2) 4 ++ [Purge [key (cid "billing") (mid "old")]] ++
  repeat (Go 0) 10 ++ repeat (Go 3) (6 + k) ++ [Go 4].

Section Ends.
Context {S : Type} `{!InboxStore S sqlxE nat nat, !Savepoints S sqlxE nat nat} (inbox : S) (k : nat).

Definition sql_calls : nat -> thread sqlxE (Reply unit) := calls order_handler (sql_race inbox).

Definition sql_run (l : list turn) : option ((nat -> thread sqlxE (Reply unit)) * Db) :=
  run_schedule sql_answer (sql_race inbox) l (sql_calls, race_start).

Definition sql_end : (nat -> thread sqlxE (Reply unit)) * Db :=
  default (sql_calls, race_start) (sql_run (sql_wait k ++ sql_rest k)).

(** The batch waits for the claim of call 2; then it applies m-2, recovers from
    the poison message, whose order aborts the transaction, reports it twice as
    failed and the rest as duplicates; each consumer has m-1 once, and the probe
    finds m-2. *)
Definition race_ends_well : Prop :=
  is_some (sql_run (sql_wait k)) = true /\
  is_some (sql_run (sql_wait k ++ [Go 0])) = false /\
  is_some (sql_run (sql_wait k ++ sql_rest k)) = true /\
  fst sql_end 0 = Running (Ret (ReplyMany (Ok
    [Ok (Processed tt); Error (ESqlx refused); Ok OutcomeDuplicate; Ok OutcomeDuplicate;
     Error (earlier_failed poison)]))) /\
  fst sql_end 2 = Running (Ret (ReplyOne (Ok (Processed tt)))) /\
  fst sql_end 4 = Running (Ret (ReplyKnown (Ok true))) /\
  app (sh_db (snd sql_end)) = [lit "m-1"; lit "m-2"; lit "m-1"].

Lemma sql_end_reached :
  is_some (sql_run (sql_wait k ++ sql_rest k)) = true ->
  rtc (pool_step (can := sql_does) (sql_race inbox)) (sql_calls, race_start) (fst sql_end, snd sql_end).
Proof.
  intros H. rewrite <- surjective_pairing.
  apply (run_schedule_sound sql_does sql_answer (fun A e g a g' Ha => Ha) (sql_race inbox) (sql_wait k ++ sql_rest k)).
  by apply default_is_some.
Qed.
End Ends.

Lemma backends_concurrent_exactly_once_witness :
  race_ends_well pgInbox 0 /\ race_ends_well sqliteInbox 1 /\
  exactly_once effect_of (sql_race pgInbox) race_start (snd (sql_end pgInbox 0)) (fst (sql_end pgInbox 0)) /\
  exactly_once effect_of (sql_race sqliteInbox) race_start (snd (sql_end sqliteInbox 1))
    (fst (sql_end sqliteInbox 1)).
Proof.
  split; [vm_compute; tauto|]. split; [vm_compute; tauto|]. split.
  - apply (backends_concurrent_exactly_once sql_does write_order effect_of order_handler
      (sql_race pgInbox) (sql_race sqliteInbox) race_start (snd (sql_end pgInbox 0))
      (fst (sql_end pgInbox 0)) order_handler_obeys eq_refl); [apply _|].
    apply sql_end_reached. vm_compute. reflexivity.
  - apply (backends_concurrent_exactly_once sql_does write_order effect_of order_handler
      (sql_race pgInbox) (sql_race sqliteInbox) race_start (snd (sql_end sqliteInbox 1))
      (fst (sql_end sqliteInbox 1)) order_handler_obeys eq_refl); [apply _|].
    apply sql_end_reached. vm_compute. reflexivity.
Defined.
