(* ===== verification/TestSuite.v ===== *)
(** * The tests of the repository that need no live database

    The unit tests of the crate ([UnitTests.v]), the tests of the consumer's
    control flow ([RunnerTests.v]), of the events it logs ([TracingRun.v]) and of
    the conformance suite on its fakes ([Fakes.v]), as one statement about the
    definitions of this development. *)

From S2P Require Import Prelude Testing Fakes UnitTests RunnerTests TracingRun.

(** The tests hold of the model: every unit test of the crate, every test of the
    consumer's control flow on the recording fake, and both tests of the levels it
    logs at pass; the conformance suite runs to its end on the
    transactional fake and rejects, with the expected message, the fake that
    folds case and the one that leaks a dropped transaction. *)
Lemma tests_pass :
  forallb (fun t => t) (unit_tests ++ Runner.runner_tests ++ tracing_tests) = true /\
  suite_on 7 default_fake = Done tt /\
  suite_on 7 case_folding = Panicked "collided with an earlier, different id: ids must compare byte for byte" /\
  suite_on 7 leaky = Panicked "a transaction dropped without commit must roll back".
Proof.
  rewrite !forallb_app, unit_tests_pass, Runner.runner_tests_pass, tracing_tests_pass.
  split; [done|]. apply suite_tells_fakes_apart.
Qed.
